(* ===== verification/_CoqProject ===== *)
-Q . S2P
Prelude.v
Collections.v
Weighted.v
Committee.v
Types.v
Fixtures.v
Commits.v
StakeAggregator.v
ThresholdClock.v
QuorumIndex.v
CommitVoteMonitor.v
RoundTracker.v
LeaderScoring.v
Storage.v
DagState.v
DagStateSpec.v
DagTraversal.v
DagRecovery.v
DagCommits.v
Ancestor.v
BaseCommitter.v
CommitSafety.v
Linearizer.v
LinearizerSpec.v
LeaderSchedule.v
UniversalCommitter.v
Errors.v
BlockVerifier.v
TransactionCertifier.v
TransactionCertifierSpec.v
CommitSyncer.v
CommitSyncerSpec.v
CommitSchedulerSpec.v
CommitFinalizer.v
FinalizerVotes.v
FinalizerGraph.v
FinalizerDecisions.v
CommitFinalizerSpec.v
FinalizerTraces.v
TransactionConsumer.v
BlockManager.v
BlockManagerSpec.v
Proposal.v
ProposalSpec.v
Core.v
CoreSpec.v
CoreThread.v
CoreThreadSpec.v
Synchronizer.v
SynchronizerSpec.v
BlockSyncSpec.v
AuthorityService.v
AuthorityServiceSpec.v
CommitServing.v
EpochChange.v
EpochChangeSpec.v
Executor.v
CommitProcessor.v
CommitProcessorSpec.v
