(* ===== verification/Prelude.v ===== *)
(** * Verification of the Mysticeti consensus core

    Mysticeti is a DAG-based Byzantine fault tolerant consensus protocol.  In each round a
    validator proposes one signed block that links to a quorum of blocks of the round
    before; leaders of the rounds are committed by counting, in the local DAG, blocks that
    vote for them and blocks that certify those votes; each committed leader is expanded
    into a sub-dag of blocks, and the sequence of sub-dags is the output of consensus.
    The implementation is the crate [src/metanode/meta-consensus/core] (below: core/), its
    configuration [src/metanode/meta-consensus/config] and types
    [src/metanode/meta-consensus/types].  The application around it, [src/metanode/src]
    (below: metanode/), hands the committed sub-dags to an executor and decides with the
    other validators when an epoch ends.

    ** Conventions of the model

    A call that can panic returns an [outcome]: [Ok], [Panic] with its message, or
    [OutOfFuel] for a loop that ran out of the fuel the model gives it.  A function that
    returns a [ConsensusResult] returns a sum with [ConsensusError] inside the outcome, and
    keeps the state it has changed when it fails.  Mutable state is passed explicitly;
    the locks of the source serialise the operations, so each is one function.  [u32] and
    [u64] values are [N] with saturating subtraction written out; the additions that could
    overflow are on rounds, indices and stakes whose bounds are stated where used.
    [BTreeMap] and [BTreeSet] are [gmap] and [gset], iterated through their sorted entries
    ([Collections]); vectors are lists whose out-of-range accesses panic.  Metrics and logs
    are left out, except for the calls in them that can panic.  Clock readings, random
    numbers, messages from peers and the state of channels are arguments.  Serialization,
    hashing ([Codec]) and signatures ([Crypto]), the [rand] crate ([Rand]) and the
    application's transaction verifier are records of functions, with what the code relies
    on stated as named laws that concrete instances meet.

    ** Files, and the code they model

    - [Prelude], [Collections], [Weighted], [QuorumIndex], [Fixtures]: outcomes, machine
      integers, ordered collections, sums of stakes, the index of a quorum in a sorted
      vector, and the concrete committees and blocks of the witnesses.
    - [Committee] (config/committee.rs), [Types] (core/block.rs, types/block.rs,
      core/context.rs and the settings of meta-protocol-config they read), [Commits]
      (core/commit.rs), [Errors] (core/error.rs): the data.
    - [StakeAggregator], [ThresholdClock], [CommitVoteMonitor], [RoundTracker],
      [LeaderScoring]: the files of core/ with these names, each with its theorems.
    - [Storage] (core/storage/mod.rs and mem_store.rs): the class [Store] with its laws
      [StoreLaws]; the in-memory store is an instance that meets them.
    - [DagState] (core/dag_state.rs): the caches over a store.  [DagStateSpec] has the
      abstract state, one finite map of blocks, and the invariant [dag_ok];
      [DagTraversal] the searches through the DAG; [DagRecovery] the refinement theorems
      and recovery after a restart; [DagCommits] the sequence of commits.
    - [Ancestor] (core/ancestor.rs): which authorities' blocks own proposals link to.
    - [BaseCommitter] (core/base_committer.rs) and its safety [CommitSafety];
      [UniversalCommitter] (core/universal_committer.rs) with the theorems on sequences.
    - [Linearizer] (core/linearizer.rs) and [LinearizerSpec]; [LeaderSchedule]
      (core/leader_schedule.rs).
    - [BlockVerifier] (core/block_verifier.rs and the signatures of core/block.rs).
    - [TransactionCertifier] (core/transaction_certifier.rs), [TransactionCertifierSpec].
    - [CommitSyncer] (core/commit_syncer.rs): [CommitSyncerSpec] is about one fetch and
      the verification of a response, [CommitSchedulerSpec] about the scheduler.
    - [CommitFinalizer] (core/commit_finalizer.rs).  [FinalizerVotes] is about the search
      that counts votes, [FinalizerGraph] about the graph of buffered blocks,
      [FinalizerDecisions] about what is decided of one commit, [CommitFinalizerSpec] about
      one call of [process_commit]; [FinalizerTraces] has runs of such calls and the
      theorems.
    - [TransactionConsumer] (core/transaction.rs): submission and packing of blocks.
    - [BlockManager] (core/block_manager.rs) and [BlockManagerSpec].
    - [Proposal] and [ProposalSpec] (the selection of ancestors in core/core.rs), [Core]
      (the rest of core/core.rs, core/commit_observer.rs) and [CoreSpec].
    - [CoreThread] (core/core_thread.rs): the thread of the core, and the interface
      [CoreThreadDispatcher] through which the other tasks use it; [CoreThreadSpec] has its
      runs.
    - [Synchronizer] (core/synchronizer.rs): fetching of missing blocks and of the last own
      block.  [SynchronizerSpec] is about the locks on blocks in flight, [BlockSyncSpec]
      about what is fetched and what reaches the core.
    - [AuthorityService] (core/authority_service.rs, epoch_change.rs,
      epoch_change_provider.rs, the messages of network/mod.rs): the handlers of the
      requests of peers; [AuthorityServiceSpec] has their theorems and the recovery from
      lost state with the peers' handlers; [CommitServing] puts the handler of a peer and
      the fetch of the commit syncer together.
    - [EpochChange] (metanode/epoch_change.rs, epoch_change_hook.rs): proposals of the next
      epoch, votes, and the transition; [EpochChangeSpec].
    - [Executor] (metanode/executor_client.rs, tx_hash.rs, execution indices of
      checkpoint.rs), [CommitProcessor] (metanode/commit_processor.rs, checkpoint.rs,
      checkpoint_epoch_transition.rs) and [CommitProcessorSpec].

    The [Core] owns the other components: blocks of peers pass the [BlockVerifier] and
    enter [DagState] through the [BlockManager], which holds them back until their
    ancestors are there; [UniversalCommitter] and [Linearizer] read and write [DagState];
    the leaders it decides for come from [LeaderSchedule], which is fed by
    [LeaderScoring]; own blocks are built from [Proposal], [TransactionConsumer],
    [TransactionCertifier] and the commit votes of [DagState]; the sub-dags it commits go
    to [CommitFinalizer], which decides on their transactions with the votes that
    [TransactionCertifier] has seen and the later commits.  The tasks of the network reach
    the core through [CoreThreadDispatcher]: their theorems hold for every instance of it
    that meets [DispatcherLaws], and the channel to the thread of the core is one.
    The requests that the [Synchronizer] and the [CommitSyncer] of one validator send are
    answered by the [AuthorityService] of another, which also passes blocks to the core and
    the epoch change data in them to the hook of [EpochChange].  The sub-dags that leave the
    finalizer go to the [CommitProcessor], which sends them to the [Executor] or, past the
    barrier that an epoch change sets, keeps their transactions for the next epoch.

    ** What the theorems show

    - Safety of commits: two validators whose DAGs are parts of one world with less than
      f+1 equivocating stake never decide a leader slot differently, directly or
      indirectly, and their sequences of decided leaders agree
      ([CommitSafety], [UniversalCommitter.try_decide_agree]); the blocks that pass the
      verifier form such a world ([BlockVerifier.verified_blocks_form_world]).
    - Fast path: with honest quorums no transaction is certified by one validator and
      rejected by another; the certifier counts exactly the votes it was given.
    - Finalization: commits leave the finalizer once each, in order, without a panic and
      whatever the order in which its tasks finish; every transaction is accepted or
      rejected for a reason, exactly by the code's counting rule, and at the latest when a
      leader three rounds above is committed ([FinalizerTraces]).
    - Proposals: a block the core signs passes the peers' verification and no other own
      block has its round ([CoreSpec.proposals_valid_and_unique]).
    - DAG: every accepted block has its ancestors above the garbage collection round in
      the DAG; suspended blocks are exactly those that wait for something; the caches
      refine a map of blocks and a restart after a flush recovers it.
    - Linearization: the sub-dag is exactly the blocks the code's rule selects, once each
      and in order, and its timestamp is between those of honest parents.
    - Commit sync: verified responses never contradict each other, scheduled commits are
      never lost and reach the core in order.
    - Block sync: a missing block is locked by exactly the requests that fetch it, at most
      two at a time; every run of the periodic sync asks for the lowest missing blocks;
      only verified blocks reach the core ([BlockSyncSpec]).
    - Requests of peers: a received block is rejected, or accepted and its author's
      excluded ancestors asked for, by exactly the code's conditions; a response has only
      what was asked for within the limits; a correct peer's answer to the commit syncer is
      accepted ([CommitServing]); a validator that lost its state and asks its peers for its
      last block does not propose for a round twice ([AuthorityServiceSpec]).
    - Epochs: a validator moves to the next epoch only with the signed approvals of a
      quorum, and the approvals of a quorum make it move, whatever it held before
      ([EpochChangeSpec]).
    - Execution: commits are handled as if they came in order, none is lost whatever the
      barrier and the network do, and without failures the executor receives all of them
      with consecutive indices ([CommitProcessorSpec]).
    - Schedule and scores: closed forms of the scores, the clock and the quorum rounds;
      who is elected; when the schedule changes.
    - Deviations: the theorems named in the findings exhibit executions in which the
      linearizer's output depends on blocks outside the leader's history, ancestors are
      left behind for ever, the election of a leader panics, a task cancelled at shutdown
      makes the finalizer reject a transaction that a quorum accepts, and a rejected
      proposal ends the epoch; lemmas of [CommitProcessorSpec] show that an early commit can
      be left behind a skipped one, that execution indices can restart in epoch 0 and that
      the epochs of checkpoints come to a halt.

    ** Fuel

    Each loop that is not structural takes fuel, and its theorem shows that a bound read
    off its input is enough: the number of references of the caches for
    [link_causal_history] and the searches of [BaseCommitter], the number of blocks of the
    abstract DAG for [linearize_sub_dag], the number of suspended blocks and missing
    references for [BlockManager], the number of fetched ranges for [process_fetched]; in
    [CommitFinalizer] the number of buffered blocks for the search through them, the round
    of a block for the walk along its author's chain, the number of buffered commits for
    the loop that finalizes them; the size of the buffer for [flush_loop] and for
    [drain_pending]; the ten groups of seven bits of a [u64] for [uvarint_loop].
    [Core] takes as an argument the function that gives the fuel of the commit rule; the
    commit loop of [try_commit] has its own fuel argument.

    ** Not modelled

    - RocksDB ([storage/rocksdb_store.rs]): calls into its bindings; the laws of [Store]
      state what the program relies on.
    - [adaptive_delay.rs]: floating-point rates over wall-clock windows; the core takes
      the resulting delay as an argument.
    - [subscriber.rs], [broadcaster.rs], [round_prober.rs], [network/tonic_network.rs]:
      asynchronous tasks over the network; their effect on the modelled state goes through
      the operations above.
    - [authority_node.rs], [leader_timeout.rs]: spawning of tasks.
    - The rest of metanode/: RPC, configuration, start and stop of the node, sockets and the
      requests for epochs and validators to the executor; the transition manager of
      [sui_epoch_transition.rs], whose triggers are switched off except for the block
      counter, whose result is an argument of [CommitProcessor].
    - [src/client], [src/lvm-manager]: command line tools; [src/crates]: support libraries,
      save for the protocol settings that are read. *)

From Stdlib Require Export NArith Lia.
From stdpp Require Export sorting.
From stdpp Require Export base option numbers strings list gmap.

(** ** Results of running a piece of the program

    A Rust call either returns, panics (a failed [assert!], an [expect] or
    [unwrap] on [None]/[Err], an out-of-range index) or, for the loops whose
    recursion is not structural, exhausts the fuel the model gives it. *)

Inductive outcome (A : Type) : Type :=
| Ok (a : A)
| Panic (msg : string)
| OutOfFuel.
Arguments Ok {A} a.
Arguments Panic {A} msg.
Arguments OutOfFuel {A}.

Definition obind {A B} (m : outcome A) (f : A → outcome B) : outcome B :=
  match m with
  | Ok a => f a
  | Panic msg => Panic msg
  | OutOfFuel => OutOfFuel
  end.

Definition omap_ok {A B} (f : A → B) (m : outcome A) : outcome B := obind m (λ a, Ok (f a)).

Declare Scope outcome_scope.
Delimit Scope outcome_scope with outcome.
Notation "'let!' x := m 'in' k" := (obind m (λ x, k))
  (at level 10, x name, m at level 200, k at level 200,
   format "'[v' 'let!'  x  :=  m  'in' '/' k ']'") : outcome_scope.
Notation "'let!' ' p := m 'in' k" := (obind m (λ p, k))
  (at level 10, p strict pattern, m at level 200, k at level 200,
   format "'[v' 'let!'  ' p  :=  m  'in' '/' k ']'") : outcome_scope.
Notation "'do!' m 'in' k" := (obind m (λ _, k))
  (at level 10, m at level 200, k at level 200,
   format "'[v' 'do!'  m  'in' '/' k ']'") : outcome_scope.
Global Open Scope outcome_scope.

(** [assert!(b, msg)] *)
Definition rassert (b : bool) (msg : string) : outcome unit :=
  if b then Ok tt else Panic msg.

(** [o.expect(msg)] *)
Definition expect {A} (o : option A) (msg : string) : outcome A :=
  match o with Some a => Ok a | None => Panic msg end.

(** [v[i]] on a [Vec] or slice. *)
Definition vec_get {A} (v : list A) (i : nat) : outcome A :=
  expect (v !! i) "index out of bounds".

(** [v[i] = x] on a [Vec] or slice. *)
Definition vec_set {A} (v : list A) (i : nat) (x : A) : outcome (list A) :=
  if decide (i < length v) then Ok (<[i := x]> v) else Panic "index out of bounds".

(** A [for] loop over a sequence that updates the state [s]. *)
Fixpoint for_each {A S} (f : S → A → outcome S) (s : S) (l : list A) : outcome S :=
  match l with
  | [] => Ok s
  | x :: l' => let! s' := f s x in for_each f s' l'
  end.

(** [iter().map(f).collect()] with a body that can panic. *)
Fixpoint map_each {A B} (f : A → outcome B) (l : list A) : outcome (list B) :=
  match l with
  | [] => Ok []
  | x :: l' => let! y := f x in let! ys := map_each f l' in Ok (y :: ys)
  end.

(** [iter().filter(f).collect()] and [iter().any(f)] with a body that can panic. *)
Fixpoint filter_each {A} (f : A → outcome bool) (l : list A) : outcome (list A) :=
  match l with
  | [] => Ok []
  | x :: l' => let! keep := f x in
               let! rest := filter_each f l' in
               Ok (if (keep : bool) then x :: rest else rest)
  end.

Lemma bind_Ok {A B} (m : outcome A) (f : A → outcome B) b :
  obind m f = Ok b ↔ ∃ a, m = Ok a ∧ f a = Ok b.
Proof. destruct m; cbn; naive_solver. Qed.

Lemma fmap_Ok {A B} (m : outcome A) (f : A → B) b :
  omap_ok f m = Ok b ↔ ∃ a, m = Ok a ∧ f a = b.
Proof. destruct m; cbn; naive_solver. Qed.

Lemma expect_Ok {A} (o : option A) msg a : expect o msg = Ok a ↔ o = Some a.
Proof. destruct o; naive_solver. Qed.

Lemma vec_get_Ok {A} (v : list A) i a : vec_get v i = Ok a ↔ v !! i = Some a.
Proof. apply expect_Ok. Qed.

Lemma vec_set_Ok {A} (v : list A) i x v' :
  vec_set v i x = Ok v' ↔ i < length v ∧ v' = <[i := x]> v.
Proof. unfold vec_set. case_decide; naive_solver. Qed.

Lemma for_each_app {A S} (f : S → A → outcome S) s l1 l2 :
  for_each f s (l1 ++ l2) = obind (for_each f s l1) (λ s', for_each f s' l2).
Proof.
  revert s. induction l1 as [|x l1 IH]; intros s; [done|].
  cbn. destruct (f s x); cbn; auto.
Qed.

(** Rule of invariants for [for] loops. *)
Lemma for_each_inv {A S} (f : S → A → outcome S) (I : S → Prop) (l : list A) s s' :
  I s →
  (∀ t t' x, x ∈ l → I t → f t x = Ok t' → I t') →
  for_each f s l = Ok s' → I s'.
Proof.
  revert s. induction l as [|x l IH]; intros s Hs Hstep; cbn.
  { naive_solver. }
  rewrite bind_Ok. intros (t & Ht & Hrest).
  apply (IH t); [| |done].
  - apply (Hstep s t x); [left|done|done].
  - intros ????; apply Hstep; by right.
Qed.

(** A loop whose every iteration succeeds under the invariant succeeds. *)
Lemma for_each_total {A S} (f : S → A → outcome S) (I : S → Prop) (l : list A) s :
  I s →
  (∀ t x, x ∈ l → I t → ∃ t', f t x = Ok t' ∧ I t') →
  ∃ s', for_each f s l = Ok s' ∧ I s'.
Proof.
  revert s. induction l as [|x l IH]; intros s Hs Hstep; cbn; [eauto|].
  destruct (Hstep s x) as (t & -> & Ht); [left|done|]. cbn.
  apply IH; [done|]. intros; apply Hstep; [by right|done].
Qed.

Lemma map_each_Ok {A B} (f : A → outcome B) l ys :
  map_each f l = Ok ys ↔ Forall2 (λ x y, f x = Ok y) l ys.
Proof.
  split.
  - revert ys. induction l as [|x l IH]; intros ys; cbn; [naive_solver|].
    intros (y & Hy & (ys' & Hys & [= <-])%bind_Ok)%bind_Ok. auto.
  - induction 1 as [|x y l ys Hx _ IH]; [done|]. cbn. by rewrite Hx, IH.
Qed.

Lemma map_each_pure {A B} (f : A → outcome B) (g : A → B) l :
  (∀ x, x ∈ l → f x = Ok (g x)) → map_each f l = Ok (g <$> l).
Proof.
  intros Hf. apply map_each_Ok, Forall2_fmap_r, Forall_Forall2_diag, Forall_forall. auto.
Qed.

Lemma map_each_total {A B} (f : A → outcome B) l :
  (∀ x, x ∈ l → ∃ y, f x = Ok y) → ∃ ys, map_each f l = Ok ys.
Proof.
  induction l as [|x l IH]; intros Hf; cbn; [by eexists|].
  destruct (Hf x ltac:(left)) as [y ->], IH as [ys ->]; [intros z Hz; apply Hf; by right|]. by eexists.
Qed.

Lemma filter_each_pure {A} (f : A → outcome bool) (g : A → bool) l :
  (∀ x, x ∈ l → f x = Ok (g x)) → filter_each f l = Ok (filter (λ x, g x) l).
Proof.
  induction l as [|x l IH]; intros Hf; [done|]. cbn [filter_each]. rewrite Hf by left. cbn [obind].
  rewrite IH by (intros; apply Hf; by right). cbn [obind]. rewrite filter_cons.
  destruct (g x); case_decide; done.
Qed.

Lemma filter_each_elem {A} (f : A → outcome bool) l k x :
  filter_each f l = Ok k → x ∈ k ↔ x ∈ l ∧ f x = Ok true.
Proof.
  revert k. induction l as [|y l IH]; intros k; cbn.
  { intros [= <-]. set_solver. }
  rewrite bind_Ok. intros (keep & Hkeep & (rest & Hrest & [= <-])%bind_Ok).
  specialize (IH rest Hrest). rewrite elem_of_cons. destruct keep.
  - rewrite elem_of_cons, IH. split; [intros [->|?]|intros [[->|?] ?]]; tauto.
  - rewrite IH. split; [tauto|]. intros [[->|?] ?]; [congruence|done].
Qed.

Lemma filter_each_total {A} (f : A → outcome bool) l :
  (∀ x, x ∈ l → ∃ b, f x = Ok b) → ∃ k, filter_each f l = Ok k.
Proof.
  induction l as [|x l IH]; intros Hf; cbn; [by eexists|].
  destruct (Hf x ltac:(left)) as [b ->], IH as [k ->]; [intros y Hy; apply Hf; by right|]. by eexists.
Qed.

Lemma filter_each_nodup {A} (f : A → outcome bool) l k :
  filter_each f l = Ok k → NoDup l → NoDup k.
Proof.
  revert k. induction l as [|y l IH]; intros k; cbn; [by intros [= <-]|].
  rewrite bind_Ok. intros (keep & _ & (rest & Hrest & [= <-])%bind_Ok) [Hy Hnd]%NoDup_cons.
  destruct keep; [|by eapply IH]. constructor; [|by eapply IH].
  by intros [? _]%(filter_each_elem _ _ _ _ Hrest).
Qed.

Lemma rassert_Ok b msg u : rassert b msg = Ok u ↔ b = true.
Proof. destruct b, u; naive_solver. Qed.

Lemma rassert_true b msg : b = true → rassert b msg = Ok tt.
Proof. by intros ->. Qed.

(** Turn a successful monadic computation in a hypothesis into the success of
    its parts. *)
Ltac outcome_step :=
  match goal with
  | H : Ok _ = Ok _ |- _ => injection H as H; try subst
  | H : Panic _ = Ok _ |- _ => discriminate H
  | H : OutOfFuel = Ok _ |- _ => discriminate H
  | H : obind _ _ = Ok _ |- _ =>
      let x := fresh "x" in let E := fresh "E" in
      apply bind_Ok in H as (x & E & H)
  | H : omap_ok _ _ = Ok _ |- _ =>
      let x := fresh "x" in let E := fresh "E" in
      apply fmap_Ok in H as (x & E & H)
  | H : rassert _ _ = Ok _ |- _ => apply rassert_Ok in H
  | H : expect _ _ = Ok _ |- _ => apply expect_Ok in H
  | H : vec_get _ _ = Ok _ |- _ => apply vec_get_Ok in H
  | H : vec_set _ _ _ = Ok _ |- _ =>
      let L := fresh "L" in apply vec_set_Ok in H as [L H]; try subst
  end.
Ltac outcome_inv := repeat outcome_step.

(** ** Machine integers

    Unsigned integers are [N].  The crates are built without overflow checks in
    release mode, so [+], [*] and [-] wrap; the [saturating_*] methods do not. *)

Definition u32_modulus : N := 2 ^ 32.
Definition u64_modulus : N := 2 ^ 64.
Definition u32_max : N := u32_modulus - 1.
Definition u64_max : N := u64_modulus - 1.

Definition u32_add (a b : N) : N := (a + b) `mod` u32_modulus.
Definition u32_mul (a b : N) : N := (a * b) `mod` u32_modulus.
Definition u32_sub (a b : N) : N := (a + u32_modulus - b) `mod` u32_modulus.
Definition u64_add (a b : N) : N := (a + b) `mod` u64_modulus.
Definition u64_mul (a b : N) : N := (a * b) `mod` u64_modulus.
Definition u64_sub (a b : N) : N := (a + u64_modulus - b) `mod` u64_modulus.

(** [saturating_sub] on unsigned integers is truncated subtraction. *)
Definition saturating_sub (a b : N) : N := a - b.
Definition u32_saturating_add (a b : N) : N := N.min (a + b) u32_max.

Section machine_integers.
Local Open Scope N_scope.

Lemma u32_add_small a b : a + b < u32_modulus → u32_add a b = a + b.
Proof. intros. by apply N.mod_small. Qed.
Lemma u32_mul_small a b : a * b < u32_modulus → u32_mul a b = a * b.
Proof. intros. by apply N.mod_small. Qed.
Lemma u64_add_small a b : a + b < u64_modulus → u64_add a b = a + b.
Proof. intros. by apply N.mod_small. Qed.
Lemma u64_mul_small a b : a * b < u64_modulus → u64_mul a b = a * b.
Proof. intros. by apply N.mod_small. Qed.

Lemma u64_sub_small a b : b ≤ a → a < u64_modulus → u64_sub a b = a - b.
Proof.
  intros. unfold u64_sub.
  replace (a + u64_modulus - b) with (a - b + 1 * u64_modulus) by lia.
  rewrite N.Div0.mod_add. apply N.mod_small. lia.
Qed.

Lemma u32_sub_small a b : b ≤ a → a < u32_modulus → u32_sub a b = a - b.
Proof.
  intros. unfold u32_sub.
  replace (a + u32_modulus - b) with (a - b + 1 * u32_modulus) by lia.
  rewrite N.Div0.mod_add. apply N.mod_small. lia.
Qed.

Lemma u32_add_lt a b : u32_add a b < u32_modulus.
Proof. by apply N.mod_lt. Qed.
Lemma u64_add_lt a b : u64_add a b < u64_modulus.
Proof. by apply N.mod_lt. Qed.
End machine_integers.

(** Wrapping arithmetic whose result fits the width is plain arithmetic: [machine]
    rewrites it so, [machine_lia] then solves the goal. *)
Ltac width_lia := unfold u32_max, u64_max, u32_modulus, u64_modulus, saturating_sub in *; lia.

Ltac machine_step :=
  match goal with
  | |- context [u32_add ?a ?b] => rewrite (u32_add_small a b) by width_lia
  | |- context [u32_mul ?a ?b] => rewrite (u32_mul_small a b) by width_lia
  | |- context [u32_sub ?a ?b] => rewrite (u32_sub_small a b) by width_lia
  | |- context [u64_add ?a ?b] => rewrite (u64_add_small a b) by width_lia
  | |- context [u64_mul ?a ?b] => rewrite (u64_mul_small a b) by width_lia
  | |- context [u64_sub ?a ?b] => rewrite (u64_sub_small a b) by width_lia
  end.
Ltac machine := repeat machine_step.
Ltac machine_lia := machine; width_lia.

(** Computations that succeed, for [eauto with outcome]. *)
Create HintDb outcome discriminated.
#[export] Hint Resolve rassert_true : outcome.
#[export] Hint Resolve <- expect_Ok vec_get_Ok rassert_Ok : outcome.

(** ** Lists *)

(** [slice.chunks(n)], on a list no longer than the fuel. *)
Fixpoint chunks {A} (fuel : nat) (n : nat) (l : list A) : list (list A) :=
  match fuel, l with
  | S fuel, _ :: _ => take n l :: chunks fuel n (drop n l)
  | _, _ => []
  end.

Lemma chunks_concat {A} fuel n : ∀ l : list A, n ≠ 0 → length l ≤ fuel → concat (chunks fuel n l) = l.
Proof.
  induction fuel as [|fuel IH]; intros l Hn Hl; [by destruct l; [|cbn in Hl; lia]|].
  destruct l as [|x l]; [done|]. cbn [chunks concat]. rewrite IH; [apply take_drop|done|].
  rewrite length_drop. cbn in *. lia.
Qed.

Lemma elem_of_concat {A} (x : A) ls : x ∈ concat ls ↔ ∃ l, l ∈ ls ∧ x ∈ l.
Proof. induction ls as [|l ls IH]; cbn; [set_solver|]. rewrite elem_of_app, IH. set_solver. Qed.

Lemma lookup_chunks {A} fuel n (l : list A) ch x : length l ≤ fuel → n ≠ 0 → ch ∈ chunks fuel n l → x ∈ ch → x ∈ l.
Proof. intros Hl Hn Hch Hx. rewrite <-(chunks_concat fuel n l Hn Hl). apply elem_of_concat. by exists ch. Qed.

(** A slice of at most [k * n] elements has at most [k] chunks of [n]. *)
Lemma few_chunks {A} fuel n : ∀ k (l : list A), length l ≤ k * n → length (chunks fuel n l) ≤ k.
Proof.
  induction fuel as [|fuel IH]; intros k l Hl; [cbn; lia|]. destruct l as [|x l]; [cbn; lia|].
  cbn [chunks length]. destruct k as [|k]; [cbn in Hl; lia|]. apply le_n_S, IH. rewrite length_drop. cbn in *. lia.
Qed.

Lemma filter_ext_in {A} (P Q : A → Prop) `{∀ x, Decision (P x), ∀ x, Decision (Q x)} (l : list A) :
  (∀ x, x ∈ l → P x ↔ Q x) → filter P l = filter Q l.
Proof.
  induction l as [|x l IH]; intros HPQ; [done|].
  rewrite !filter_cons, IH by (intros; apply HPQ; by right).
  pose proof (HPQ x ltac:(left)). repeat case_decide; naive_solver.
Qed.

Lemma Forall2_elem_of_l {A B} (P : A → B → Prop) l k x :
  Forall2 P l k → x ∈ l → ∃ y, y ∈ k ∧ P x y.
Proof.
  intros Hall [i Hi]%list_elem_of_lookup. destruct (Forall2_lookup_l _ _ _ _ _ Hall Hi) as (y & Hy & HP).
  exists y. split; [by eapply list_elem_of_lookup_2|done].
Qed.

Lemma Forall2_elem_of_r {A B} (P : A → B → Prop) l k y :
  Forall2 P l k → y ∈ k → ∃ x, x ∈ l ∧ P x y.
Proof.
  intros Hall [i Hi]%list_elem_of_lookup. destruct (Forall2_lookup_r _ _ _ _ _ Hall Hi) as (x & Hx & HP).
  exists x. split; [by eapply list_elem_of_lookup_2|done].
Qed.

(** Total partial lookups can be collected. *)
Lemma Forall2_collect {A B} (P : A → B → Prop) l :
  (∀ x, x ∈ l → ∃ y, P x y) → ∃ k, Forall2 P l k.
Proof.
  induction l as [|x l IH]; intros Hall; [by exists []|].
  destruct (Hall x ltac:(left)) as [y Hy]. destruct IH as [k Hk]; [intros; apply Hall; by right|].
  exists (y :: k). by constructor.
Qed.

Lemma filter_fmap_comm {A B} (f : A → B) (P : B → Prop) `{∀ y, Decision (P y)} (l : list A) :
  filter P (f <$> l) = f <$> filter (λ x, P (f x)) l.
Proof.
  induction l as [|x l IH]; [done|].
  rewrite fmap_cons, !filter_cons, IH. by case_decide.
Qed.

Lemma fmap_zip_pair {A B C D} (f : A → C) (g : B → D) (l : list A) (k : list B) :
  (λ p : A * B, (f p.1, g p.2)) <$> zip l k = zip (f <$> l) (g <$> k).
Proof. revert k. induction l as [|x l IH]; intros [|y k]; csimpl; congruence. Qed.

Lemma fmap_ext_in {A B} (f g : A → B) (l : list A) : (∀ x, x ∈ l → f x = g x) → f <$> l = g <$> l.
Proof.
  induction l as [|x l IH]; intros Hfg; csimpl; [done|].
  rewrite Hfg by left. f_equal. apply IH. intros; apply Hfg; by right.
Qed.

(** ** Total orders: the [Ord] trait *)

Class Ord (A : Type) := cmp : A → A → comparison.
#[export] Hint Mode Ord ! : typeclass_instances.

Class OrdLaws (A : Type) `{Ord A} : Prop := {
  cmp_eq (a b : A) : cmp a b = Eq ↔ a = b;
  cmp_opp (a b : A) : cmp b a = CompOpp (cmp a b);
  cmp_lt_trans (a b c : A) : cmp a b = Lt → cmp b c = Lt → cmp a c = Lt;
}.

(** [a <= b] and [a < b] on a type with [Ord]. *)
Definition ord_leb `{Ord A} (a b : A) : bool :=
  match cmp a b with Gt => false | _ => true end.
Definition ord_ltb `{Ord A} (a b : A) : bool :=
  match cmp a b with Lt => true | _ => false end.

(** [Ordering::then_with] *)
Definition then_with (c d : comparison) : comparison :=
  match c with Eq => d | _ => c end.

#[export] Instance ord_N : Ord N := N.compare.
#[export] Instance ord_nat : Ord nat := Nat.compare.
#[export] Instance ord_prod `{Ord A, Ord B} : Ord (A * B) := λ p q,
  then_with (cmp p.1 q.1) (cmp p.2 q.2).

#[export] Instance ord_laws_N : OrdLaws N.
Proof.
  split; unfold cmp, ord_N.
  - apply N.compare_eq_iff.
  - intros. apply N.compare_antisym.
  - intros a b c. rewrite !N.compare_lt_iff. lia.
Qed.

#[export] Instance ord_laws_nat : OrdLaws nat.
Proof.
  split; unfold cmp, ord_nat.
  - apply Nat.compare_eq_iff.
  - intros. apply Nat.compare_antisym.
  - intros a b c. rewrite !Nat.compare_lt_iff. lia.
Qed.

Lemma cmp_refl `{OrdLaws A} (a : A) : cmp a a = Eq.
Proof. by apply cmp_eq. Qed.

#[export] Instance ord_laws_prod `{OrdLaws A, OrdLaws B} : OrdLaws (A * B).
Proof.
  split; unfold cmp, ord_prod.
  - intros [a1 b1] [a2 b2]; cbn. split.
    + destruct (cmp a1 a2) eqn:Ea; cbn; intros Eb; try discriminate.
      apply cmp_eq in Ea, Eb. congruence.
    + intros [= -> ->]. by rewrite cmp_refl, cmp_refl.
  - intros [a1 b1] [a2 b2]; cbn.
    rewrite (cmp_opp a1 a2), (cmp_opp b1 b2). by destruct (cmp a1 a2).
  - intros [a1 b1] [a2 b2] [a3 b3]; cbn.
    destruct (cmp a1 a2) eqn:E12, (cmp a2 a3) eqn:E23; cbn; intros H12 H23;
      try discriminate.
    + apply cmp_eq in E12, E23; subst. rewrite cmp_refl; cbn.
      by eapply cmp_lt_trans.
    + apply cmp_eq in E12; subst. by rewrite E23.
    + apply cmp_eq in E23; subst. by rewrite E12.
    + by rewrite (cmp_lt_trans a1 a2 a3).
Qed.

(** Order a type through an injective key. *)
Lemma ord_laws_via {A B} `{OrdLaws B} (f : A → B) (HA : Ord A) :
  Inj (=) (=) f → (∀ a b, HA a b = cmp (f a) (f b)) → OrdLaws A.
Proof.
  intros Hinj Hcmp.
  split; unfold cmp; setoid_rewrite Hcmp.
  - intros. rewrite cmp_eq. split; [apply Hinj|congruence].
  - intros. apply cmp_opp.
  - intros a b c. apply cmp_lt_trans.
Qed.

Section ord.
Context `{OrdLaws A}.
Implicit Types a b c : A.

Lemma ord_leb_refl a : ord_leb a a = true.
Proof. unfold ord_leb. by rewrite cmp_refl. Qed.

Lemma ord_leb_total a b : ord_leb a b = true ∨ ord_leb b a = true.
Proof. unfold ord_leb. rewrite (cmp_opp a b). destruct (cmp a b); naive_solver. Qed.

Lemma ord_leb_antisym a b : ord_leb a b = true → ord_leb b a = true → a = b.
Proof.
  unfold ord_leb. rewrite (cmp_opp a b).
  destruct (cmp a b) eqn:E; cbn; try discriminate. by rewrite <-cmp_eq.
Qed.

Lemma ord_leb_trans a b c : ord_leb a b = true → ord_leb b c = true → ord_leb a c = true.
Proof.
  unfold ord_leb.
  destruct (cmp a b) eqn:E1, (cmp b c) eqn:E2; try discriminate; intros _ _.
  - apply cmp_eq in E1, E2; subst. by rewrite cmp_refl.
  - apply cmp_eq in E1; subst. by rewrite E2.
  - apply cmp_eq in E2; subst. by rewrite E1.
  - by rewrite (cmp_lt_trans _ _ _ E1 E2).
Qed.

Lemma ord_ltb_leb a b : ord_ltb a b = negb (ord_leb b a).
Proof. unfold ord_ltb, ord_leb. rewrite (cmp_opp a b). by destruct (cmp a b). Qed.

Lemma ord_leb_ltb_eq a b : ord_leb a b = true ↔ ord_ltb a b = true ∨ a = b.
Proof.
  unfold ord_leb, ord_ltb. destruct (cmp a b) eqn:E.
  - apply cmp_eq in E. naive_solver.
  - naive_solver.
  - split; [done|]. intros [?| ->]; [done|]. by rewrite cmp_refl in E.
Qed.
End ord.

Lemma ord_leb_N (a b : N) : ord_leb a b = (a <=? b)%N.
Proof. reflexivity. Qed.
Lemma ord_leb_nat (a b : nat) : ord_leb a b = (a <=? b)%nat.
Proof.
  unfold ord_leb, cmp, ord_nat.
  destruct (Nat.compare_spec a b); symmetry; [apply Nat.leb_le|apply Nat.leb_le|apply Nat.leb_gt]; lia.
Qed.

(** ** Stable sorting: [slice::sort_by], [sort_by_key], [sort] *)

Fixpoint insert_by {A} (le : A → A → bool) (x : A) (l : list A) : list A :=
  match l with
  | [] => [x]
  | y :: l' => if le x y then x :: l else y :: insert_by le x l'
  end.

Definition sort_by {A} (le : A → A → bool) (l : list A) : list A :=
  foldr (insert_by le) [] l.

Definition sort_by_key {A} `{Ord K} (key : A → K) (l : list A) : list A :=
  sort_by (λ a b, ord_leb (key a) (key b)) l.

Section sort_by.
Context {A : Type} (le : A → A → bool).

Lemma insert_by_perm x l : insert_by le x l ≡ₚ x :: l.
Proof.
  induction l as [|y l IH]; cbn; [done|].
  destruct (le x y); [done|]. rewrite IH. apply Permutation_swap.
Qed.

Lemma sort_by_perm l : sort_by le l ≡ₚ l.
Proof.
  induction l as [|x l IH]; cbn; [done|]. by rewrite insert_by_perm, IH.
Qed.

Lemma elem_of_sort_by x l : x ∈ sort_by le l ↔ x ∈ l.
Proof. by rewrite sort_by_perm. Qed.

Lemma length_sort_by l : length (sort_by le l) = length l.
Proof. by rewrite sort_by_perm. Qed.

(** Elements that compare equal keep their relative order. *)
Lemma insert_by_stable (P : A → Prop) `{∀ x, Decision (P x)} x l :
  (∀ y, P x → P y → le x y = true) →
  filter P (insert_by le x l) = filter P (x :: l).
Proof.
  intros Hle. induction l as [|y l IH]; [done|]. cbn [insert_by].
  destruct (le x y) eqn:E; [done|].
  rewrite !filter_cons, IH, filter_cons.
  repeat case_decide; try done.
  by rewrite Hle in E.
Qed.

Lemma sort_by_stable (P : A → Prop) `{∀ x, Decision (P x)} l :
  (∀ x y, P x → P y → le x y = true) →
  filter P (sort_by le l) = filter P l.
Proof.
  intros Hle. induction l as [|x l IH]; cbn [sort_by foldr]; [done|].
  rewrite insert_by_stable by auto. fold (sort_by le l).
  rewrite !filter_cons, IH. done.
Qed.

Hypothesis le_total : ∀ a b, le a b = true ∨ le b a = true.
Hypothesis le_trans : ∀ a b c, le a b = true → le b c = true → le a c = true.

Lemma insert_by_sorted x l :
  StronglySorted le l → StronglySorted le (insert_by le x l).
Proof using le_total le_trans.
  induction 1 as [|y l Hl IH Hy]; cbn.
  { repeat constructor. }
  destruct (le x y) eqn:E.
  - constructor; [by constructor|]. constructor; [by apply Is_true_true|].
    eapply Forall_impl; [exact Hy|]. cbn. intros z Hz.
    apply Is_true_true in Hz. apply Is_true_true. by eapply le_trans.
  - constructor; [done|]. rewrite insert_by_perm. constructor; [|done].
    destruct (le_total x y); [congruence|]. by apply Is_true_true.
Qed.

Lemma sort_by_sorted l : StronglySorted le (sort_by le l).
Proof using le_total le_trans.
  induction l as [|x l IH]; cbn; [constructor|]. by apply insert_by_sorted.
Qed.
End sort_by.
