(* ===== verification/Collections.v ===== *)
(** * Ordered collections

    [BTreeMap] and [BTreeSet] are modelled as stdpp's [gmap] and [gset], whose
    equality is extensional; what the ordered collections add, iteration in key
    order, is the sorted list of their entries.  [HashMap] and [HashSet] are the
    same finite maps and sets, never iterated in the modelled code. *)

From S2P Require Import Prelude.

(** [std::ops::Bound] *)
Inductive Bound (K : Type) : Type :=
| Included (k : K)
| Excluded (k : K)
| Unbounded.
Arguments Included {K} k.
Arguments Excluded {K} k.
Arguments Unbounded {K}.

Section btree.
Context {K : Type} `{OrdLaws K, Countable K} {V : Type}.
Implicit Types (m : gmap K V) (s : gset K) (k : K).

Definition above (lo : Bound K) (k : K) : bool :=
  match lo with
  | Included l => ord_leb l k
  | Excluded l => ord_ltb l k
  | Unbounded => true
  end.

Definition below (hi : Bound K) (k : K) : bool :=
  match hi with
  | Included h => ord_leb k h
  | Excluded h => ord_ltb k h
  | Unbounded => true
  end.

(** [BTreeMap::iter]: the entries in ascending key order. *)
Definition btree_iter (m : gmap K V) : list (K * V) :=
  sort_by_key fst (map_to_list m).

(** [BTreeMap::range] *)
Definition btree_range (lo hi : Bound K) (m : gmap K V) : list (K * V) :=
  filter (λ p, above lo p.1 && below hi p.1) (btree_iter m).

(** [BTreeMap::first_key_value] and [last_key_value] *)
Definition btree_first (m : gmap K V) : option (K * V) := head (btree_iter m).
Definition btree_last (m : gmap K V) : option (K * V) := last (btree_iter m).

(** [BTreeSet::iter], [range], [first], [last] *)
Definition bset_iter (s : gset K) : list K := sort_by_key (λ k, k) (elements s).
Definition bset_range (lo hi : Bound K) (s : gset K) : list K :=
  filter (λ k, above lo k && below hi k) (bset_iter s).
Definition bset_first (s : gset K) : option K := head (bset_iter s).
Definition bset_last (s : gset K) : option K := last (bset_iter s).

(** *** Sorted lists *)

Lemma sort_by_key_sorted {A} (key : A → K) l :
  StronglySorted (λ a b, ord_leb (key a) (key b)) (sort_by_key key l).
Proof.
  apply sort_by_sorted; intros.
  - apply ord_leb_total.
  - by eapply ord_leb_trans.
Qed.

Lemma sort_by_key_perm {A} (key : A → K) l : sort_by_key key l ≡ₚ l.
Proof. apply sort_by_perm. Qed.

Lemma StronglySorted_filter {A} (R : A → A → Prop) (P : A → Prop) `{∀ x, Decision (P x)} l :
  StronglySorted R l → StronglySorted R (filter P l).
Proof.
  induction 1 as [|x l Hs IH Hx]; [constructor|]. rewrite filter_cons.
  case_decide; [|done]. constructor; [done|].
  apply Forall_forall. intros y [_ Hy]%list_elem_of_filter. rewrite Forall_forall in Hx. by apply Hx.
Qed.

Lemma bset_iter_sorted s : StronglySorted (λ a b, ord_leb a b) (bset_iter s).
Proof. apply (sort_by_key_sorted (λ k, k)). Qed.

Lemma bset_iter_perm s : bset_iter s ≡ₚ elements s.
Proof. apply sort_by_perm. Qed.

Lemma elem_of_bset_iter s k : k ∈ bset_iter s ↔ k ∈ s.
Proof. unfold bset_iter, sort_by_key. by rewrite elem_of_sort_by, elem_of_elements. Qed.

Lemma NoDup_bset_iter s : NoDup (bset_iter s).
Proof. rewrite bset_iter_perm. apply NoDup_elements. Qed.

Lemma length_bset_iter s : length (bset_iter s) = size s.
Proof. unfold bset_iter, sort_by_key. by rewrite length_sort_by. Qed.

(** The iteration of a subset is the subsequence of its members. *)
Lemma bset_iter_filter s s' : s ⊆ s' → bset_iter s = filter (λ k, k ∈ s) (bset_iter s').
Proof.
  intros Hsub. apply (StronglySorted_unique_strong (λ a b, Is_true (ord_leb a b))).
  - intros x y _ _ ?%Is_true_true ?%Is_true_true. by apply ord_leb_antisym.
  - apply bset_iter_sorted.
  - apply StronglySorted_filter, bset_iter_sorted.
  - apply NoDup_Permutation; [apply NoDup_bset_iter|apply NoDup_filter, NoDup_bset_iter|].
    intros k. rewrite list_elem_of_filter, !elem_of_bset_iter. set_solver.
Qed.

(** So its first members include those among the first of the whole. *)
Lemma take_bset_iter s s' n k : s ⊆ s' → k ∈ s → k ∈ take n (bset_iter s') → k ∈ take n (bset_iter s).
Proof.
  intros Hsub Hk Hin. rewrite (bset_iter_filter s s' Hsub). clear Hsub. revert n Hin.
  induction (bset_iter s') as [|x l IH]; intros [|n] Hin; cbn [take] in Hin; try by apply elem_of_nil in Hin.
  rewrite filter_cons. apply elem_of_cons in Hin as [->|Hin].
  - rewrite decide_True by done. by left.
  - case_decide; [right; by apply IH|].
    apply IH, elem_of_take in Hin as (i & Hi & Hlt). apply elem_of_take. exists i. split; [done|lia].
Qed.

Lemma elem_of_bset_range lo hi s k :
  k ∈ bset_range lo hi s ↔ k ∈ s ∧ above lo k = true ∧ below hi k = true.
Proof.
  unfold bset_range. rewrite list_elem_of_filter, elem_of_bset_iter, Is_true_true, andb_true_iff.
  tauto.
Qed.

Lemma elem_of_btree_iter m k v : (k, v) ∈ btree_iter m ↔ m !! k = Some v.
Proof. unfold btree_iter, sort_by_key. by rewrite elem_of_sort_by, elem_of_map_to_list. Qed.

Lemma btree_iter_perm m : btree_iter m ≡ₚ map_to_list m.
Proof. apply sort_by_perm. Qed.

Lemma NoDup_btree_iter m : NoDup (btree_iter m).*1.
Proof. rewrite btree_iter_perm. apply NoDup_fst_map_to_list. Qed.

Lemma btree_iter_sorted m :
  StronglySorted (λ p q, ord_leb p.1 q.1) (btree_iter m).
Proof. apply sort_by_key_sorted. Qed.

Lemma btree_keys_sorted m : StronglySorted (λ a b : K, ord_leb a b) (btree_iter m).*1.
Proof.
  generalize (btree_iter_sorted m). induction 1 as [|p l _ IH Hp]; cbn; constructor; [done|].
  by apply Forall_fmap.
Qed.

Lemma elem_of_btree_range lo hi m k v :
  (k, v) ∈ btree_range lo hi m ↔
  m !! k = Some v ∧ above lo k = true ∧ below hi k = true.
Proof.
  unfold btree_range. rewrite list_elem_of_filter, elem_of_btree_iter, Is_true_true, andb_true_iff.
  tauto.
Qed.

Lemma NoDup_btree_range lo hi m : NoDup (btree_range lo hi m).*1.
Proof.
  unfold btree_range. pose proof (NoDup_btree_iter m) as Hnd.
  induction (btree_iter m) as [|p l IH]; [constructor|].
  cbn in Hnd. apply NoDup_cons in Hnd as [Hp Hnd].
  rewrite filter_cons. case_decide; [|auto]. cbn. apply NoDup_cons. split; [|auto].
  intros (q & Heq & Hq)%list_elem_of_fmap. apply list_elem_of_filter in Hq as [_ Hq].
  apply Hp. rewrite Heq. by apply list_elem_of_fmap_2.
Qed.

(** *** First and last entries *)

Lemma sorted_head_le {A} (R : A → A → Prop) x l y :
  Reflexive R → StronglySorted R l → head l = Some x → y ∈ l → R x y.
Proof.
  intros HR Hs Hh Hy. destruct Hs as [|z l Hs Hz]; [done|]. cbn in Hh. simplify_eq.
  apply elem_of_cons in Hy as [->|Hy]; [done|]. rewrite Forall_forall in Hz.
  by apply Hz.
Qed.

Lemma sorted_last_ge {A} (R : A → A → Prop) x l y :
  Reflexive R → StronglySorted R l → last l = Some x → y ∈ l → R y x.
Proof.
  intros HR Hs (l' & ->)%last_Some Hy.
  apply StronglySorted_app in Hs as (Hs & _).
  apply elem_of_app in Hy as [Hy|Hy].
  - apply Hs; [done|]. by apply list_elem_of_singleton.
  - apply list_elem_of_singleton in Hy as ->. done.
Qed.

Lemma ord_leb_reflexive : Reflexive (λ a b : K, ord_leb a b).
Proof. intros a. by rewrite ord_leb_refl. Qed.

Lemma bset_last_Some s k : bset_last s = Some k → k ∈ s.
Proof.
  unfold bset_last. intros Hl. rewrite <-elem_of_bset_iter.
  apply last_Some in Hl as (l' & ->). set_solver.
Qed.

Lemma bset_last_max s k k' : bset_last s = Some k → k' ∈ s → ord_leb k' k = true.
Proof.
  intros Hl Hk. apply Is_true_true.
  apply (sorted_last_ge (λ a b : K, ord_leb a b) k (bset_iter s) k').
  - apply ord_leb_reflexive.
  - apply bset_iter_sorted.
  - done.
  - by rewrite elem_of_bset_iter.
Qed.

Lemma bset_last_None s : bset_last s = None ↔ s = ∅.
Proof.
  unfold bset_last. rewrite last_None. split.
  - intros Hnil. apply set_eq. intros x. rewrite <-elem_of_bset_iter, Hnil. set_solver.
  - intros ->. unfold bset_iter. by rewrite elements_empty.
Qed.

Lemma bset_first_Some s k : bset_first s = Some k → k ∈ s.
Proof.
  unfold bset_first. intros Hl. rewrite <-elem_of_bset_iter.
  destruct (bset_iter s); cbn in *; simplify_eq. left.
Qed.

Lemma bset_first_min s k k' : bset_first s = Some k → k' ∈ s → ord_leb k k' = true.
Proof.
  intros Hl Hk. apply Is_true_true.
  apply (sorted_head_le (λ a b : K, ord_leb a b) k (bset_iter s) k').
  - apply ord_leb_reflexive.
  - apply bset_iter_sorted.
  - done.
  - by rewrite elem_of_bset_iter.
Qed.

Lemma bset_first_None s : bset_first s = None ↔ s = ∅.
Proof.
  unfold bset_first. rewrite head_None. split.
  - intros Hnil. apply set_eq. intros x. rewrite <-elem_of_bset_iter, Hnil. set_solver.
  - intros ->. unfold bset_iter. by rewrite elements_empty.
Qed.

Lemma btree_first_Some m k v : btree_first m = Some (k, v) → m !! k = Some v.
Proof.
  unfold btree_first. intros Hl. rewrite <-elem_of_btree_iter.
  destruct (btree_iter m); cbn in *; simplify_eq. left.
Qed.

Lemma btree_first_min m k v k' :
  btree_first m = Some (k, v) → is_Some (m !! k') → ord_leb k k' = true.
Proof.
  intros Hl [v' Hk]. apply Is_true_true.
  apply (sorted_head_le (λ p q : K * V, ord_leb p.1 q.1) (k, v) (btree_iter m) (k', v')).
  - intros [a b]. apply ord_leb_reflexive.
  - apply btree_iter_sorted.
  - done.
  - by rewrite elem_of_btree_iter.
Qed.

Lemma btree_first_None m : btree_first m = None ↔ m = ∅.
Proof.
  unfold btree_first. rewrite head_None. split.
  - intros Hnil. apply map_empty. intros i. apply eq_None_not_Some. intros [x Hx].
    apply elem_of_btree_iter in Hx. rewrite Hnil in Hx. set_solver.
  - intros ->. unfold btree_iter. by rewrite map_to_list_empty.
Qed.

Lemma btree_last_Some m k v : btree_last m = Some (k, v) → m !! k = Some v.
Proof.
  unfold btree_last. intros Hl. rewrite <-elem_of_btree_iter.
  apply last_Some in Hl as (l' & ->). set_solver.
Qed.

Lemma btree_last_max m k v k' :
  btree_last m = Some (k, v) → is_Some (m !! k') → ord_leb k' k = true.
Proof.
  intros Hl [v' Hk]. apply Is_true_true.
  apply (sorted_last_ge (λ p q : K * V, ord_leb p.1 q.1) (k, v) (btree_iter m) (k', v')).
  - intros [a b]. apply ord_leb_reflexive.
  - apply btree_iter_sorted.
  - done.
  - by rewrite elem_of_btree_iter.
Qed.

Lemma btree_last_None m : btree_last m = None ↔ m = ∅.
Proof.
  unfold btree_last. rewrite last_None. split.
  - intros Hnil. apply map_empty. intros i. apply eq_None_not_Some. intros [x Hx].
    apply elem_of_btree_iter in Hx. rewrite Hnil in Hx. set_solver.
  - intros ->. unfold btree_iter. by rewrite map_to_list_empty.
Qed.
End btree.
