(* ===== verification/Weighted.v ===== *)
(** * Sums of stake and stake-weighted scans

    Four places of the code (the commit vote monitor, both bounds of a quorum
    round, the median timestamp) walk a sorted list of (value, stake) pairs and
    stop as soon as the accumulated stake passes a threshold.  [scan_until] is
    that loop; the lemmas say which value it stops at. *)

From S2P Require Import Prelude.

Local Open Scope N_scope.

Definition sumN (l : list N) : N := foldr N.add 0 l.

(** [iter().sum::<u64>()], which wraps. *)
Definition u64_sum (l : list N) : N := foldl u64_add 0 l.

(** Total weight of the pairs whose value satisfies [P]. *)
Definition weight {A} (P : A → bool) (l : list (A * N)) : N :=
  sumN (filter (λ p, P p.1) l).*2.

(** Accumulate the stakes of [l] until [stop] holds of the sum. *)
Fixpoint scan_until {A} (stop : N → bool) (acc : N) (l : list (A * N)) : option A :=
  match l with
  | [] => None
  | (x, w) :: l' =>
      let acc' := u64_add acc w in
      if stop acc' then Some x else scan_until stop acc' l'
  end.

(** ** Sums *)

Lemma sumN_cons x l : sumN (x :: l) = x + sumN l.
Proof. done. Qed.

Lemma sumN_app l1 l2 : sumN (l1 ++ l2) = sumN l1 + sumN l2.
Proof. induction l1 as [|x l1 IH]; [done|]. cbn [app]. rewrite !sumN_cons, IH. lia. Qed.

Lemma sumN_snd_cons {A} (x : A) w l : sumN ((x, w) :: l).*2 = w + sumN l.*2.
Proof. done. Qed.

#[export] Instance sumN_perm : Proper ((≡ₚ) ==> (=)) sumN.
Proof. induction 1; rewrite ?sumN_cons; try lia; done. Qed.

Lemma foldl_u64_add acc l :
  acc + sumN l < u64_modulus → foldl u64_add acc l = acc + sumN l.
Proof.
  revert acc. induction l as [|x l IH]; intros acc; cbn [foldl]; rewrite ?sumN_cons.
  { unfold sumN; cbn. lia. }
  intros Hlt. rewrite u64_add_small by lia. rewrite IH by lia. lia.
Qed.

Lemma u64_sum_small l : sumN l < u64_modulus → u64_sum l = sumN l.
Proof. intros. unfold u64_sum. rewrite foldl_u64_add; [lia|done]. Qed.

Lemma sumN_fmap_le {A} (f g : A → N) l :
  (∀ x, x ∈ l → f x ≤ g x) → sumN (f <$> l) ≤ sumN (g <$> l).
Proof.
  induction l as [|x l IH]; intros Hle; [done|].
  rewrite !fmap_cons, !sumN_cons. pose proof (Hle x ltac:(left)).
  assert (sumN (f <$> l) ≤ sumN (g <$> l)); [|lia].
  apply IH. intros y Hy. apply Hle. by right.
Qed.

Lemma sumN_elem_le x l : x ∈ l → x ≤ sumN l.
Proof.
  intros (l1 & l2 & ->)%list_elem_of_split. rewrite sumN_app, sumN_cons. lia.
Qed.

(** ** Weights *)

Lemma weight_nil {A} (P : A → bool) : weight P [] = 0.
Proof. done. Qed.

Lemma weight_cons {A} (P : A → bool) x w l :
  weight P ((x, w) :: l) = (if P x then w else 0) + weight P l.
Proof.
  unfold weight. rewrite filter_cons. cbn [fst].
  destruct (P x); case_decide; cbn in *; try done.
Qed.

Lemma weight_app {A} (P : A → bool) l1 l2 :
  weight P (l1 ++ l2) = weight P l1 + weight P l2.
Proof. unfold weight. by rewrite filter_app, fmap_app, sumN_app. Qed.

#[export] Instance weight_perm {A} (P : A → bool) : Proper ((≡ₚ) ==> (=)) (weight P).
Proof. intros l1 l2 Hl. unfold weight. by rewrite Hl. Qed.

Lemma weight_le_sum {A} (P : A → bool) l : weight P l ≤ sumN l.*2.
Proof.
  induction l as [|[x w] l IH]; [done|]. rewrite weight_cons.
  rewrite sumN_snd_cons. destruct (P x); lia.
Qed.

Lemma weight_mono {A} (P Q : A → bool) l :
  (∀ p, p ∈ l → P p.1 = true → Q p.1 = true) → weight P l ≤ weight Q l.
Proof.
  induction l as [|[x w] l IH]; intros HPQ; [done|].
  rewrite !weight_cons. pose proof (HPQ (x, w) ltac:(left)) as Hx; cbn in Hx.
  assert (weight P l ≤ weight Q l).
  { apply IH. intros p Hp. apply HPQ. by right. }
  destruct (P x), (Q x); lia.
Qed.

Lemma weight_all {A} (P : A → bool) l :
  (∀ p, p ∈ l → P p.1 = true) → weight P l = sumN l.*2.
Proof.
  induction l as [|[x w] l IH]; intros HP; [done|].
  pose proof (HP (x, w) ltac:(left)) as Hx; cbn in Hx.
  rewrite weight_cons, Hx. rewrite IH; [done|].
  intros p Hp. apply HP. by right.
Qed.

Lemma weight_none {A} (P : A → bool) l :
  (∀ p, p ∈ l → P p.1 = false) → weight P l = 0.
Proof.
  induction l as [|[x w] l IH]; intros HP; [done|].
  pose proof (HP (x, w) ltac:(left)) as Hx; cbn in Hx.
  rewrite weight_cons, Hx. rewrite IH; [done|].
  intros p Hp. apply HP. by right.
Qed.

Lemma weight_split {A} (P : A → bool) l :
  weight P l + weight (λ x, negb (P x)) l = sumN l.*2.
Proof.
  induction l as [|[x w] l IH]; [done|]. rewrite !weight_cons.
  rewrite sumN_snd_cons. destruct (P x); cbn; lia.
Qed.

(** ** The scan *)

Lemma scan_until_Some {A} (stop : N → bool) (thr acc : N) (l : list (A * N)) x :
  (∀ n, stop n = (thr <=? n)) →
  acc + sumN l.*2 < u64_modulus → acc < thr →
  scan_until stop acc l = Some x →
  ∃ l1 w l2, l = l1 ++ (x, w) :: l2 ∧
    acc + sumN l1.*2 < thr ∧ thr ≤ acc + sumN l1.*2 + w.
Proof.
  intros Hstop. revert acc. induction l as [|[y w] l IH]; intros acc Hb Hacc; [done|].
  cbn [scan_until]. rewrite sumN_snd_cons in Hb.
  rewrite u64_add_small by lia. rewrite Hstop.
  destruct (N.leb_spec thr (acc + w)) as [Hle|Hlt].
  - intros [= ->]. exists [], w, l. cbn. unfold sumN; cbn. split; [done|lia].
  - intros (l1 & w' & l2 & -> & H1 & H2)%IH; [|lia|lia].
    exists ((y, w) :: l1), w', l2. rewrite sumN_snd_cons. split; [done|]. lia.
Qed.

Lemma scan_until_None {A} (stop : N → bool) (thr acc : N) (l : list (A * N)) :
  (∀ n, stop n = (thr <=? n)) →
  acc + sumN l.*2 < u64_modulus → acc < thr →
  scan_until stop acc l = None ↔ acc + sumN l.*2 < thr.
Proof.
  intros Hstop. revert acc. induction l as [|[y w] l IH]; intros acc Hb Hacc.
  { cbn. unfold sumN; cbn. split; [lia|done]. }
  cbn [scan_until]. rewrite sumN_snd_cons in Hb |- *.
  rewrite u64_add_small by lia. rewrite Hstop.
  destruct (N.leb_spec thr (acc + w)) as [Hle|Hlt].
  - split; [done|]. lia.
  - rewrite IH by lia. lia.
Qed.

(** On a sorted list the scan stops at the weighted quantile: the stake at or
    before the value reaches the threshold, the stake strictly before it does
    not. *)
Lemma scan_until_sorted {A} (leb : A → A → bool) (stop : N → bool) thr (l : list (A * N)) x :
  (∀ n, stop n = (thr <=? n)) →
  StronglySorted (λ p q, leb p.1 q.1) l → leb x x = true →
  sumN l.*2 < u64_modulus → 0 < thr →
  scan_until stop 0 l = Some x →
  x ∈ l.*1 ∧ thr ≤ weight (λ y, leb y x) l ∧ weight (λ y, negb (leb x y)) l < thr.
Proof.
  intros Hstop Hs Hrefl Hb Hthr (l1 & w & l2 & -> & H1 & H2)%(scan_until_Some stop thr); [|done|lia|done].
  apply StronglySorted_app in Hs as (H12 & _ & [Hx _]%StronglySorted_cons).
  rewrite Forall_forall in Hx. split; [|split].
  - rewrite fmap_app. set_solver.
  - rewrite weight_app, weight_cons, Hrefl, (weight_all _ l1); [lia|].
    intros p Hp. apply Is_true_true. apply (H12 p (x, w)); [done|left].
  - rewrite weight_app, weight_cons, Hrefl, (weight_none _ l2).
    + pose proof (weight_le_sum (λ y, negb (leb x y)) l1). cbn. lia.
    + intros p Hp. apply negb_false_iff, Is_true_true. by apply (Hx p).
Qed.
