(* ===== verification/Committee.v ===== *)
(** * The committee ([metanode/meta-consensus/config/src/committee.rs])

    Stakes, thresholds and authority indices, and the quorum-intersection facts
    every safety argument of the protocol rests on. *)

From S2P Require Import Prelude Collections Weighted.

Local Open Scope N_scope.

Abbreviation Epoch := N (only parsing).
Abbreviation Stake := N (only parsing).
(** [AuthorityIndex] wraps a [u32] and is created from positions in the
    committee's vector, so it is that position. *)
Abbreviation AuthorityIndex := nat (only parsing).
Abbreviation Bytes := (list N) (only parsing).

Record Authority := mkAuthority {
  stake : Stake;
  address : string;
  hostname : string;
  authority_key : Bytes;
  protocol_key : Bytes;
  network_key : Bytes;
}.

Record Committee := mkCommittee {
  c_epoch : Epoch;
  total_stake : Stake;
  quorum_threshold : Stake;
  validity_threshold : Stake;
  authorities : list Authority;
}.

(** [Committee::new] *)
Definition committee_new (epoch : Epoch) (auths : list Authority) : outcome Committee :=
  do! rassert (negb (Nat.eqb (length auths) 0)) "Committee cannot be empty!" in
  do! rassert (N.of_nat (length auths) <? u32_max) "Too many authorities" in
  let total := u64_sum (stake <$> auths) in
  do! rassert (negb (total =? 0)) "Total stake cannot be zero!" in
  let fault_tolerance := u64_sub total 1 `div` 3 in
  let quorum := u64_sub total fault_tolerance in
  let validity := u64_add fault_tolerance 1 in
  do! rassert (total <? u64_sub (u64_mul 2 quorum) fault_tolerance)
    "Quorum must intersect under maxim equivocations!" in
  Ok (mkCommittee epoch total quorum validity auths).

(** [Committee::authority] and [Committee::stake]: an out-of-range index panics. *)
Definition authority (c : Committee) (i : AuthorityIndex) : outcome Authority :=
  vec_get (authorities c) i.
Definition committee_stake (c : Committee) (i : AuthorityIndex) : outcome Stake :=
  omap_ok stake (authority c i).

Definition reached_quorum (c : Committee) (s : Stake) : bool := quorum_threshold c <=? s.
Definition reached_validity (c : Committee) (s : Stake) : bool := validity_threshold c <=? s.

Definition committee_size (c : Committee) : nat := length (authorities c).
Definition to_authority_index (c : Committee) (index : nat) : option AuthorityIndex :=
  if (index <? committee_size c)%nat then Some index else None.
Definition is_valid_index (c : Committee) (index : AuthorityIndex) : bool :=
  (index <? committee_size c)%nat.

(** ** Stake of a set of authorities *)

Definition stake_of (c : Committee) (i : AuthorityIndex) : N :=
  match authorities c !! i with Some a => stake a | None => 0 end.

Definition set_stake (c : Committee) (s : gset AuthorityIndex) : N :=
  sumN (stake_of c <$> elements s).

Definition all_authorities (c : Committee) : gset AuthorityIndex :=
  list_to_set (seq 0 (committee_size c)).

(** A committee as [Committee::new] builds it from stakes whose sum leaves room
    for the doubled quorum of its last assertion. *)
Record committee_ok (c : Committee) : Prop := {
  ok_size : N.of_nat (committee_size c) < u32_max;
  ok_total : total_stake c = sumN (stake <$> authorities c);
  ok_positive : 0 < total_stake c;
  ok_bound : total_stake c < 2 ^ 63;
  ok_quorum : quorum_threshold c = total_stake c - (total_stake c - 1) `div` 3;
  ok_validity : validity_threshold c = (total_stake c - 1) `div` 3 + 1;
}.

Lemma committee_new_ok epoch auths :
  auths ≠ [] → N.of_nat (length auths) < u32_max →
  0 < sumN (stake <$> auths) → sumN (stake <$> auths) < 2 ^ 63 →
  ∃ c, committee_new epoch auths = Ok c ∧ committee_ok c ∧
       c_epoch c = epoch ∧ authorities c = auths.
Proof.
  intros Hne Hlen Hpos Hlt. 
  unfold committee_new. rewrite u64_sum_small by (unfold u64_modulus; lia).
  remember (sumN (stake <$> auths)) as t eqn:Ht.
  assert (3 * ((t - 1) `div` 3) ≤ t - 1) by (apply N.Div0.mul_div_le).
  rewrite (u64_sub_small t 1) by width_lia.
  remember ((t - 1) `div` 3) as f eqn:Hf.
  machine.
  rewrite (rassert_true _ "Committee cannot be empty!") by (by destruct auths).
  rewrite (rassert_true _ "Too many authorities") by (by apply N.ltb_lt).
  rewrite (rassert_true _ "Total stake cannot be zero!") by (apply negb_true_iff, N.eqb_neq; lia).
  rewrite (rassert_true _ "Quorum must intersect under maxim equivocations!") by (apply N.ltb_lt; lia).
  eexists; split; [reflexivity|]. split; [|done].
  split; cbn; try congruence; try done.
Qed.

(** The thresholds are 2f+1 and f+1 for the largest f with 3f+1 <= total. *)
Lemma committee_thresholds c :
  committee_ok c →
  3 * (validity_threshold c - 1) < total_stake c ∧
  total_stake c ≤ 3 * validity_threshold c ∧
  quorum_threshold c + validity_threshold c = total_stake c + 1.
Proof.
  intros [_ _ Hpos _ -> ->].
  pose proof (N.Div0.div_mod (total_stake c - 1) 3) as Hdm.
  pose proof (N.mod_lt (total_stake c - 1) 3 ltac:(lia)) as Hmod.
  generalize dependent ((total_stake c - 1) `mod` 3).
  generalize ((total_stake c - 1) `div` 3). lia.
Qed.

Lemma quorum_pos c : committee_ok c → 0 < quorum_threshold c.
Proof. intros Hc. pose proof (committee_thresholds c Hc). destruct Hc. lia. Qed.

Lemma validity_pos c : committee_ok c → 0 < validity_threshold c.
Proof. intros Hc. pose proof (committee_thresholds c Hc). destruct Hc. lia. Qed.

Lemma quorum_le_total c : committee_ok c → quorum_threshold c ≤ total_stake c.
Proof. intros Hc. pose proof (committee_thresholds c Hc). destruct Hc. lia. Qed.

Lemma authority_Ok c i a : authority c i = Ok a ↔ authorities c !! i = Some a.
Proof. apply vec_get_Ok. Qed.

Lemma committee_stake_Ok c i s :
  committee_stake c i = Ok s ↔ (i < committee_size c)%nat ∧ s = stake_of c i.
Proof.
  unfold committee_stake, stake_of, committee_size. rewrite fmap_Ok. setoid_rewrite authority_Ok.
  split.
  - intros (a & Ha & <-). rewrite Ha. split; [by eapply lookup_lt_Some|done].
  - intros [[a Ha]%lookup_lt_is_Some ->]. rewrite Ha. eauto.
Qed.

Lemma committee_stake_valid c i :
  (i < committee_size c)%nat → committee_stake c i = Ok (stake_of c i).
Proof. intros. by apply committee_stake_Ok. Qed.

Lemma is_valid_index_true c i : is_valid_index c i = true ↔ (i < committee_size c)%nat.
Proof. apply Nat.ltb_lt. Qed.

Lemma elem_of_all_authorities c i : i ∈ all_authorities c ↔ (i < committee_size c)%nat.
Proof. unfold all_authorities. rewrite elem_of_list_to_set, elem_of_seq. lia. Qed.

(** ** [set_stake] is a measure *)

Lemma set_stake_empty c : set_stake c ∅ = 0.
Proof. unfold set_stake. by rewrite elements_empty. Qed.

Lemma set_stake_insert c i s : i ∉ s → set_stake c ({[i]} ∪ s) = stake_of c i + set_stake c s.
Proof. intros Hi. unfold set_stake. by rewrite (elements_union_singleton s i Hi). Qed.

Lemma set_stake_disj_union c s1 s2 :
  s1 ## s2 → set_stake c (s1 ∪ s2) = set_stake c s1 + set_stake c s2.
Proof. intros Hd. unfold set_stake. by rewrite elements_disj_union, fmap_app, sumN_app. Qed.

Lemma set_stake_diff c s1 s2 :
  set_stake c s1 = set_stake c (s1 ∩ s2) + set_stake c (s1 ∖ s2).
Proof.
  rewrite <-set_stake_disj_union by set_solver. f_equal.
  apply set_eq. intros x. destruct (decide (x ∈ s2)); set_solver.
Qed.

Lemma set_stake_mono c s1 s2 : s1 ⊆ s2 → set_stake c s1 ≤ set_stake c s2.
Proof.
  intros Hsub. rewrite (set_stake_diff c s2 s1).
  replace (s2 ∩ s1) with s1 by set_solver. lia.
Qed.

Lemma fmap_stake_of_seq c : stake_of c <$> seq 0 (committee_size c) = stake <$> authorities c.
Proof.
  apply list_eq. intros i. rewrite !list_lookup_fmap. unfold committee_size.
  destruct (decide (i < length (authorities c))%nat) as [Hi|Hi].
  - rewrite lookup_seq_lt by done. cbn. unfold stake_of.
    apply lookup_lt_is_Some in Hi as [a Ha]. by rewrite Ha.
  - rewrite lookup_seq_ge, (lookup_ge_None_2 (authorities c)) by lia. done.
Qed.

Lemma set_stake_all c : committee_ok c → set_stake c (all_authorities c) = total_stake c.
Proof.
  intros Hc. unfold set_stake, all_authorities.
  rewrite elements_list_to_set by apply NoDup_seq.
  by rewrite fmap_stake_of_seq, (ok_total c Hc).
Qed.

Lemma stake_of_invalid c i : (committee_size c ≤ i)%nat → stake_of c i = 0.
Proof. intros Hi. unfold stake_of. by rewrite lookup_ge_None_2. Qed.

Lemma set_stake_zero c s : (∀ i, i ∈ s → stake_of c i = 0) → set_stake c s = 0.
Proof.
  induction s as [|x s Hx IH] using set_ind_L; intros H0; [apply set_stake_empty|].
  rewrite set_stake_insert, IH, H0 by set_solver. done.
Qed.

Lemma set_stake_le_total c s : committee_ok c → set_stake c s ≤ total_stake c.
Proof.
  intros Hc. rewrite <-(set_stake_all c Hc), (set_stake_diff c s (all_authorities c)).
  assert (set_stake c (s ∖ all_authorities c) = 0) as ->.
  { apply set_stake_zero. intros i [_ Hi]%elem_of_difference.
    rewrite elem_of_all_authorities in Hi. apply stake_of_invalid. lia. }
  rewrite N.add_0_r. apply set_stake_mono. set_solver.
Qed.

Lemma set_stake_u64 c s : committee_ok c → set_stake c s < u64_modulus.
Proof.
  intros Hc. pose proof (set_stake_le_total c s Hc). pose proof (ok_bound c Hc).
  unfold u64_modulus. lia.
Qed.

Lemma set_stake_inclusion_exclusion c s1 s2 :
  set_stake c (s1 ∪ s2) + set_stake c (s1 ∩ s2) = set_stake c s1 + set_stake c s2.
Proof.
  rewrite (set_stake_diff c (s1 ∪ s2) s1), (set_stake_diff c s2 s1).
  assert ((s1 ∪ s2) ∩ s1 = s1) as -> by set_solver.
  assert ((s1 ∪ s2) ∖ s1 = s2 ∖ s1) as -> by set_solver.
  assert (s2 ∩ s1 = s1 ∩ s2) as -> by set_solver. lia.
Qed.

(** Two quorums share at least f+1 stake. *)
Lemma quorum_overlap c s1 s2 :
  committee_ok c → quorum_threshold c ≤ set_stake c s1 → quorum_threshold c ≤ set_stake c s2 →
  validity_threshold c ≤ set_stake c (s1 ∩ s2).
Proof.
  intros Hc H1 H2. pose proof (set_stake_inclusion_exclusion c s1 s2).
  pose proof (set_stake_le_total c (s1 ∪ s2) Hc). pose proof (committee_thresholds c Hc). lia.
Qed.

(** Two quorums share an authority that is not among the faulty ones. *)
Lemma quorums_share_honest c s1 s2 faulty :
  committee_ok c → quorum_threshold c ≤ set_stake c s1 → quorum_threshold c ≤ set_stake c s2 →
  set_stake c faulty < validity_threshold c → ∃ a, a ∈ s1 ∧ a ∈ s2 ∧ a ∉ faulty.
Proof.
  intros Hc H1 H2 Hf. pose proof (quorum_overlap c s1 s2 Hc H1 H2) as Ho.
  destruct (decide (s1 ∩ s2 ⊆ faulty)) as [Hsub|Hno]; [pose proof (set_stake_mono c _ _ Hsub); lia|].
  destruct (set_choose_L ((s1 ∩ s2) ∖ faulty)) as [a Ha]; [|exists a; set_solver].
  intros He. apply Hno. intros x Hx. destruct (decide (x ∈ faulty)); [done|]. set_solver.
Qed.
