(* ===== verification/Types.v ===== *)
(** * Blocks and configuration

    The data of [types/src/block.rs] and [core/src/block.rs], and the part of
    [Context] ([core/src/context.rs]), [Parameters] and [ProtocolConfig] the
    modelled components read.  A 32-byte digest is the 256-bit number its bytes
    spell big-endian, so the lexicographic order on digests is the order on [N]. *)

From S2P Require Import Prelude Collections Weighted Committee.

Local Open Scope N_scope.

Abbreviation Round := N (only parsing).
Abbreviation BlockTimestampMs := N (only parsing).
Abbreviation TransactionIndex := N (only parsing).
Abbreviation CommitIndex := N (only parsing).
Abbreviation BlockDigest := N (only parsing).
Abbreviation CommitDigest := N (only parsing).

Definition DIGEST_MIN : N := 0.
Definition DIGEST_MAX : N := 2 ^ 256 - 1.
Definition ROUND_MAX : Round := u32_max.
Definition GENESIS_ROUND : Round := 0.

(** ** References *)

Record BlockRef := mkBlockRef {
  ref_round : Round;
  ref_author : AuthorityIndex;
  ref_digest : BlockDigest;
}.

Record CommitRef := mkCommitRef {
  cref_index : CommitIndex;
  cref_digest : CommitDigest;
}.

(** A [CommitVote] is a [CommitRef]. *)
Abbreviation CommitVote := CommitRef (only parsing).

Record Slot := mkSlot {
  slot_round : Round;
  slot_authority : AuthorityIndex;
}.

(** [impl From<BlockRef> for Slot] *)
Definition slot_from (r : BlockRef) : Slot := mkSlot (ref_round r) (ref_author r).

#[export] Instance BlockRef_eq_dec : EqDecision BlockRef.
Proof. solve_decision. Defined.
#[export] Instance CommitRef_eq_dec : EqDecision CommitRef.
Proof. solve_decision. Defined.
#[export] Instance Slot_eq_dec : EqDecision Slot.
Proof. solve_decision. Defined.

Definition BlockRef_tuple (r : BlockRef) : Round * (AuthorityIndex * BlockDigest) :=
  (ref_round r, (ref_author r, ref_digest r)).
Definition CommitRef_tuple (r : CommitRef) : CommitIndex * CommitDigest :=
  (cref_index r, cref_digest r).

#[export] Instance BlockRef_tuple_inj : Inj (=) (=) BlockRef_tuple.
Proof. intros [] [] [=]. by subst. Qed.
#[export] Instance CommitRef_tuple_inj : Inj (=) (=) CommitRef_tuple.
Proof. intros [] [] [=]. by subst. Qed.

#[export] Instance BlockRef_countable : Countable BlockRef.
Proof.
  apply (inj_countable' BlockRef_tuple (λ p, mkBlockRef p.1 p.2.1 p.2.2)).
  by intros [].
Defined.
#[export] Instance CommitRef_countable : Countable CommitRef.
Proof.
  apply (inj_countable' CommitRef_tuple (λ p, mkCommitRef p.1 p.2)).
  by intros [].
Defined.

(** [#[derive(Ord)]] compares the fields in declaration order. *)
#[export] Instance BlockRef_ord : Ord BlockRef := λ a b,
  cmp (BlockRef_tuple a) (BlockRef_tuple b).
#[export] Instance CommitRef_ord : Ord CommitRef := λ a b,
  cmp (CommitRef_tuple a) (CommitRef_tuple b).
#[export] Instance BlockRef_ord_laws : OrdLaws BlockRef.
Proof. by apply (ord_laws_via BlockRef_tuple); [apply _|]. Qed.
#[export] Instance CommitRef_ord_laws : OrdLaws CommitRef.
Proof. by apply (ord_laws_via CommitRef_tuple); [apply _|]. Qed.

Lemma ord_leb_ref_round (a b : BlockRef) : ord_leb a b = true → ref_round a ≤ ref_round b.
Proof.
  unfold ord_leb, cmp, BlockRef_ord, cmp, ord_prod, BlockRef_tuple. cbn [fst snd].
  unfold cmp at 1, ord_N. destruct (N.compare_spec (ref_round a) (ref_round b)); cbn; lia.
Qed.

Lemma ord_leb_round_lt (a b : BlockRef) : ref_round a < ref_round b → ord_leb a b = true.
Proof.
  intros Hlt. unfold ord_leb, cmp, BlockRef_ord, cmp, ord_prod, BlockRef_tuple. cbn [fst snd].
  unfold cmp at 1, ord_N. by rewrite (proj2 (N.compare_lt_iff _ _) Hlt).
Qed.

(** ** Blocks *)

Record Transaction := mkTransaction { data : Bytes }.

Record BlockTransactionVotes := mkBlockTransactionVotes {
  votes_block_ref : BlockRef;
  rejects : list TransactionIndex;
}.

Inductive MisbehaviorProof :=
| InvalidBlock (r : BlockRef).

Record MisbehaviorReport := mkMisbehaviorReport {
  target : AuthorityIndex;
  proof : MisbehaviorProof;
}.

Record BlockV1 := mkBlockV1 {
  v1_epoch : Epoch;
  v1_round : Round;
  v1_author : AuthorityIndex;
  v1_timestamp_ms : BlockTimestampMs;
  v1_ancestors : list BlockRef;
  v1_transactions : list Transaction;
  v1_commit_votes : list CommitVote;
  v1_misbehavior_reports : list MisbehaviorReport;
  v1_epoch_change_proposal : option Bytes;
  v1_epoch_change_votes : list Bytes;
}.

Record BlockV2 := mkBlockV2 {
  v2_epoch : Epoch;
  v2_round : Round;
  v2_author : AuthorityIndex;
  v2_timestamp_ms : BlockTimestampMs;
  v2_ancestors : list BlockRef;
  v2_transactions : list Transaction;
  v2_transaction_votes : list BlockTransactionVotes;
  v2_commit_votes : list CommitVote;
  v2_misbehavior_reports : list MisbehaviorReport;
  v2_epoch_change_proposal : option Bytes;
  v2_epoch_change_votes : list Bytes;
}.

Inductive Block :=
| V1 (b : BlockV1)
| V2 (b : BlockV2).

(** The [BlockAPI] accessors. *)
Definition block_epoch (b : Block) : Epoch :=
  match b with V1 b => v1_epoch b | V2 b => v2_epoch b end.
Definition block_round (b : Block) : Round :=
  match b with V1 b => v1_round b | V2 b => v2_round b end.
Definition block_author (b : Block) : AuthorityIndex :=
  match b with V1 b => v1_author b | V2 b => v2_author b end.
Definition block_slot (b : Block) : Slot := mkSlot (block_round b) (block_author b).
Definition block_timestamp_ms (b : Block) : BlockTimestampMs :=
  match b with V1 b => v1_timestamp_ms b | V2 b => v2_timestamp_ms b end.
Definition block_ancestors (b : Block) : list BlockRef :=
  match b with V1 b => v1_ancestors b | V2 b => v2_ancestors b end.
Definition block_transactions (b : Block) : list Transaction :=
  match b with V1 b => v1_transactions b | V2 b => v2_transactions b end.
Definition block_transactions_data (b : Block) : list Bytes := data <$> block_transactions b.
Definition block_commit_votes (b : Block) : list CommitVote :=
  match b with V1 b => v1_commit_votes b | V2 b => v2_commit_votes b end.
Definition block_transaction_votes (b : Block) : list BlockTransactionVotes :=
  match b with V1 _ => [] | V2 b => v2_transaction_votes b end.

Definition block_misbehavior_reports (b : Block) : list MisbehaviorReport :=
  match b with V1 b => v1_misbehavior_reports b | V2 b => v2_misbehavior_reports b end.

Definition epoch_change_proposal (b : Block) : option Bytes :=
  match b with V1 b => v1_epoch_change_proposal b | V2 b => v2_epoch_change_proposal b end.
Definition epoch_change_votes (b : Block) : list Bytes :=
  match b with V1 b => v1_epoch_change_votes b | V2 b => v2_epoch_change_votes b end.

(** [Block::set_epoch_change_proposal] and [set_epoch_change_votes] *)
Definition set_epoch_change_proposal (p : option Bytes) (b : Block) : Block :=
  match b with
  | V1 b => V1 (mkBlockV1 (v1_epoch b) (v1_round b) (v1_author b) (v1_timestamp_ms b)
      (v1_ancestors b) (v1_transactions b) (v1_commit_votes b) (v1_misbehavior_reports b)
      p (v1_epoch_change_votes b))
  | V2 b => V2 (mkBlockV2 (v2_epoch b) (v2_round b) (v2_author b) (v2_timestamp_ms b)
      (v2_ancestors b) (v2_transactions b) (v2_transaction_votes b) (v2_commit_votes b)
      (v2_misbehavior_reports b) p (v2_epoch_change_votes b))
  end.
Definition set_epoch_change_votes (votes : list Bytes) (b : Block) : Block :=
  match b with
  | V1 b => V1 (mkBlockV1 (v1_epoch b) (v1_round b) (v1_author b) (v1_timestamp_ms b)
      (v1_ancestors b) (v1_transactions b) (v1_commit_votes b) (v1_misbehavior_reports b)
      (v1_epoch_change_proposal b) votes)
  | V2 b => V2 (mkBlockV2 (v2_epoch b) (v2_round b) (v2_author b) (v2_timestamp_ms b)
      (v2_ancestors b) (v2_transactions b) (v2_transaction_votes b) (v2_commit_votes b)
      (v2_misbehavior_reports b) (v2_epoch_change_proposal b) votes)
  end.

Record SignedBlock := mkSignedBlock {
  sb_inner : Block;
  sb_signature : Bytes;
}.

Record VerifiedBlock := mkVerifiedBlock {
  vb_block : SignedBlock;
  vb_digest : BlockDigest;
  vb_serialized : Bytes;
}.

#[export] Instance Transaction_eq_dec : EqDecision Transaction.
Proof. solve_decision. Defined.
#[export] Instance BlockTransactionVotes_eq_dec : EqDecision BlockTransactionVotes.
Proof. solve_decision. Defined.
#[export] Instance MisbehaviorProof_eq_dec : EqDecision MisbehaviorProof.
Proof. solve_decision. Defined.
#[export] Instance MisbehaviorReport_eq_dec : EqDecision MisbehaviorReport.
Proof. solve_decision. Defined.
#[export] Instance BlockV1_eq_dec : EqDecision BlockV1.
Proof. solve_decision. Defined.
#[export] Instance BlockV2_eq_dec : EqDecision BlockV2.
Proof. solve_decision. Defined.
#[export] Instance Block_eq_dec : EqDecision Block.
Proof. solve_decision. Defined.
#[export] Instance SignedBlock_eq_dec : EqDecision SignedBlock.
Proof. solve_decision. Defined.
#[export] Instance VerifiedBlock_eq_dec : EqDecision VerifiedBlock.
Proof. solve_decision. Defined.

(** [VerifiedBlock] dereferences to its inner [Block]. *)
Definition vb_inner (b : VerifiedBlock) : Block := sb_inner (vb_block b).
Definition round (b : VerifiedBlock) : Round := block_round (vb_inner b).
Definition author (b : VerifiedBlock) : AuthorityIndex := block_author (vb_inner b).
Definition timestamp_ms (b : VerifiedBlock) : BlockTimestampMs := block_timestamp_ms (vb_inner b).
Definition ancestors (b : VerifiedBlock) : list BlockRef := block_ancestors (vb_inner b).
Definition commit_votes (b : VerifiedBlock) : list CommitVote := block_commit_votes (vb_inner b).

(** [VerifiedBlock::reference] *)
Definition reference (b : VerifiedBlock) : BlockRef :=
  mkBlockRef (round b) (author b) (vb_digest b).

Record ExtendedBlock := mkExtendedBlock {
  eb_block : VerifiedBlock;
  excluded_ancestors : list BlockRef;
}.

(** ** Configuration *)

Record ProtocolConfig := mkProtocolConfig {
  consensus_gc_depth : option N;
  mysticeti_fastpath : bool;
  mysticeti_num_leaders_per_round : option nat;
  consensus_bad_nodes_stake_threshold : N;
  consensus_max_transaction_size_bytes : option N;
  consensus_max_transactions_in_block_bytes : option N;
  consensus_max_num_transactions_in_block : option N;
  consensus_skip_gced_accept_votes : bool;
}.

Definition gc_depth (p : ProtocolConfig) : N := default 0 (consensus_gc_depth p).
Definition max_transaction_size_bytes (p : ProtocolConfig) : N :=
  default (256 * 1024) (consensus_max_transaction_size_bytes p).
Definition max_transactions_in_block_bytes (p : ProtocolConfig) : N :=
  default (512 * 1024) (consensus_max_transactions_in_block_bytes p).
Definition max_num_transactions_in_block (p : ProtocolConfig) : N :=
  default 512 (consensus_max_num_transactions_in_block p).

Record Context := mkContext {
  epoch_start_timestamp_ms : N;
  own_index : AuthorityIndex;
  committee : Committee;
  dag_state_cached_rounds : N;
  protocol_config : ProtocolConfig;
}.

(** ** Genesis blocks *)

Definition genesis_block_v1 (ctx : Context) (a : AuthorityIndex) : BlockV1 :=
  mkBlockV1 (c_epoch (committee ctx)) GENESIS_ROUND a (epoch_start_timestamp_ms ctx)
    [] [] [] [] None [].
Definition genesis_block_v2 (ctx : Context) (a : AuthorityIndex) : BlockV2 :=
  mkBlockV2 (c_epoch (committee ctx)) GENESIS_ROUND a (epoch_start_timestamp_ms ctx)
    [] [] [] [] [] None [].

(** ** Commits ([core/src/commit.rs]) *)

Record CommitV1 := mkCommitV1 {
  cv1_index : CommitIndex;
  cv1_previous_digest : CommitDigest;
  cv1_timestamp_ms : BlockTimestampMs;
  cv1_leader : BlockRef;
  cv1_blocks : list BlockRef;
}.

Inductive Commit :=
| CommitVersion1 (c : CommitV1).

(** BCS serialization and the hash function are libraries: they are parameters.
    Serialization may fail. *)
Record Codec := mkCodec {
  serialize_block : SignedBlock → option Bytes;
  serialize_commit : Commit → option Bytes;
  hash_bytes : Bytes → N;
}.

(** [VerifiedBlock::new_verified] *)
Definition new_verified (cd : Codec) (b : SignedBlock) (serialized : Bytes) : VerifiedBlock :=
  mkVerifiedBlock b (hash_bytes cd serialized) serialized.

Definition genesis_signed_block (ctx : Context) (a : AuthorityIndex) : SignedBlock :=
  mkSignedBlock (if mysticeti_fastpath (protocol_config ctx)
                 then V2 (genesis_block_v2 ctx a) else V1 (genesis_block_v1 ctx a)) [].

Definition genesis_blocks (cd : Codec) (ctx : Context) : outcome (list VerifiedBlock) :=
  map_each (λ a,
    let signed := genesis_signed_block ctx a in
    let! serialized := expect (serialize_block cd signed) "Genesis block serialization failed." in
    Ok (new_verified cd signed serialized))
  (seq 0 (committee_size (committee ctx))).

Lemma genesis_blocks_lookup cd ctx bs i b :
  genesis_blocks cd ctx = Ok bs → bs !! i = Some b →
  (i < committee_size (committee ctx))%nat ∧ round b = GENESIS_ROUND ∧ author b = i ∧ ancestors b = [].
Proof.
  unfold genesis_blocks. rewrite map_each_Ok. intros Hall Hi.
  destruct (Forall2_lookup_r _ _ _ _ _ Hall Hi) as (j & [-> Hj]%lookup_seq & Hb).
  outcome_inv. split; [done|]. unfold genesis_signed_block. by destruct (mysticeti_fastpath _).
Qed.

Lemma length_genesis_blocks cd ctx bs :
  genesis_blocks cd ctx = Ok bs → length bs = committee_size (committee ctx).
Proof.
  unfold genesis_blocks. rewrite map_each_Ok. intros Hall.
  by rewrite <-(Forall2_length _ _ _ Hall), length_seq.
Qed.
