(* ===== verification/Fixtures.v ===== *)
(** * Concrete committees and blocks used by the witnesses

    The counterparts of [local_committee_and_keys] and [TestBlock]: an
    equal-stake committee of four, an uneven one, and a block builder whose
    digests are chosen by the caller. *)

From S2P Require Import Prelude Collections Weighted Committee Types.

Local Open Scope N_scope.

Definition test_authority (s : N) : Authority :=
  mkAuthority s "/ip4/127.0.0.1" "test_host" [] [] [].

(** Thresholds as [committee_new] computes them. *)
Definition test_committee (stakes : list N) : Committee :=
  match committee_new 0 (test_authority <$> stakes) with
  | Ok c => c
  | _ => mkCommittee 0 0 0 0 []
  end.

Definition committee4 : Committee := test_committee [1; 1; 1; 1].
(** One authority holds more than two thirds of the stake. *)
Definition committee_heavy : Committee := test_committee [7; 1; 1; 1].

Lemma committee4_ok : committee_ok committee4.
Proof. split; vm_compute; reflexivity. Qed.
Lemma committee_heavy_ok : committee_ok committee_heavy.
Proof. split; vm_compute; reflexivity. Qed.

Definition test_protocol_config : ProtocolConfig :=
  mkProtocolConfig (Some 60) true (Some 1%nat) 30 None None None true.

Definition context_of (c : Committee) : Context := mkContext 0 0 c 500 test_protocol_config.
Definition context4 : Context := context_of committee4.

(** A block with the given slot, digest, timestamp and ancestors. *)
Definition test_block (r : Round) (a : AuthorityIndex) (d : BlockDigest) (ts : BlockTimestampMs)
    (anc : list BlockRef) : VerifiedBlock :=
  mkVerifiedBlock (mkSignedBlock (V2 (mkBlockV2 0 r a ts anc [] [] [] [] None [])) []) d [].

(** A codec in which the serialized form of a block is its slot and the digest is
    read back from it. *)
Definition test_codec : Codec :=
  mkCodec (λ b, Some [block_round (sb_inner b); N.of_nat (block_author (sb_inner b))])
          (λ c, match c with CommitVersion1 c => Some [cv1_index c; ref_round (cv1_leader c)] end)
          (λ bs, match bs with [r; a] => 1000 * r + a | _ => 0 end).
