(* ===== verification/Commits.v ===== *)
(** * Commits, leader decisions and commit ranges ([core/src/commit.rs])

    [CommitRange] stores a half-open range but is used as an inclusive one; the
    theorems relate the two readings. *)

From S2P Require Import Prelude Collections Weighted Committee Types Fixtures.

Local Open Scope N_scope.

(** ** Accessors of commits *)

Definition commit_v1 (c : Commit) : CommitV1 := match c with CommitVersion1 c => c end.
Definition commit_index (c : Commit) : CommitIndex := cv1_index (commit_v1 c).
Definition commit_round (c : Commit) : Round := ref_round (cv1_leader (commit_v1 c)).
Definition commit_previous_digest (c : Commit) : CommitDigest := cv1_previous_digest (commit_v1 c).
Definition commit_timestamp_ms (c : Commit) : BlockTimestampMs := cv1_timestamp_ms (commit_v1 c).
Definition commit_leader (c : Commit) : BlockRef := cv1_leader (commit_v1 c).
Definition commit_blocks (c : Commit) : list BlockRef := cv1_blocks (commit_v1 c).

Definition commit_new (index : CommitIndex) (previous_digest : CommitDigest)
    (ts : BlockTimestampMs) (leader : BlockRef) (blocks : list BlockRef) : Commit :=
  CommitVersion1 (mkCommitV1 index previous_digest ts leader blocks).

Record TrustedCommit := mkTrustedCommit {
  tcm_inner : Commit;
  tcm_digest : CommitDigest;
  tcm_serialized : Bytes;
}.

Definition new_trusted (cd : Codec) (c : Commit) (serialized : Bytes) : TrustedCommit :=
  mkTrustedCommit c (hash_bytes cd serialized) serialized.

Definition commit_reference (c : TrustedCommit) : CommitRef :=
  mkCommitRef (commit_index (tcm_inner c)) (tcm_digest c).

(** ** Committed sub-dags *)

Record CommittedSubDag := mkCommittedSubDag {
  sd_leader : BlockRef;
  sd_blocks : list VerifiedBlock;
  sd_timestamp_ms : BlockTimestampMs;
  sd_commit_ref : CommitRef;
  decided_with_local_blocks : bool;
  recovered_rejected_transactions : bool;
  sd_reputation_scores_desc : list (AuthorityIndex * N);
  rejected_transactions_by_block : gmap BlockRef (list TransactionIndex);
}.

Definition committed_sub_dag_new (leader : BlockRef) (blocks : list VerifiedBlock)
    (ts : BlockTimestampMs) (cref : CommitRef) : CommittedSubDag :=
  mkCommittedSubDag leader blocks ts cref true false [] ∅.

(** [sort_sub_dag_blocks]: by round then author, stable. *)
Definition block_order_leb (a b : VerifiedBlock) : bool :=
  match then_with (cmp (round a) (round b)) (cmp (author a) (author b)) with
  | Gt => false
  | _ => true
  end.
Definition sort_sub_dag_blocks (blocks : list VerifiedBlock) : list VerifiedBlock :=
  sort_by block_order_leb blocks.

(** ** Leader decisions *)

Inductive Decision := Direct | Indirect | Certified.

#[export] Instance Decision_eq_dec : EqDecision Decision.
Proof. solve_decision. Defined.

Inductive LeaderStatus :=
| LeaderCommit (b : VerifiedBlock)
| LeaderSkip (s : Slot)
| LeaderUndecided (s : Slot).

Definition leader_status_round (st : LeaderStatus) : Round :=
  match st with
  | LeaderCommit b => round b
  | LeaderSkip s => slot_round s
  | LeaderUndecided s => slot_round s
  end.

Definition is_decided (st : LeaderStatus) : bool :=
  match st with LeaderCommit _ | LeaderSkip _ => true | LeaderUndecided _ => false end.

Inductive DecidedLeader :=
| DecidedCommit (b : VerifiedBlock) (direct : bool)
| DecidedSkip (s : Slot).

Definition into_decided_leader (st : LeaderStatus) (direct : bool) : option DecidedLeader :=
  match st with
  | LeaderCommit b => Some (DecidedCommit b direct)
  | LeaderSkip s => Some (DecidedSkip s)
  | LeaderUndecided _ => None
  end.

Definition decided_slot (d : DecidedLeader) : Slot :=
  match d with
  | DecidedCommit b _ => slot_from (reference b)
  | DecidedSkip s => s
  end.

Definition into_committed_block (d : DecidedLeader) : option VerifiedBlock :=
  match d with
  | DecidedCommit b _ => Some b
  | DecidedSkip _ => None
  end.

(** ** Commit ranges *)

Record CommitRange := mkCommitRange {
  range_lo : CommitIndex;
  range_hi : CommitIndex; (* exclusive *)
}.

#[export] Instance CommitRange_eq_dec : EqDecision CommitRange.
Proof. solve_decision. Defined.

Definition commit_range_default : CommitRange := mkCommitRange 0 0.

(** [CommitRange::new(start..=end)] *)
Definition commit_range_new (s e : CommitIndex) : CommitRange :=
  mkCommitRange s (u32_saturating_add e 1).
Definition range_start (r : CommitRange) : CommitIndex := range_lo r.
Definition range_end (r : CommitRange) : CommitIndex := saturating_sub (range_hi r) 1.

Definition extend_to (r : CommitRange) (other : CommitIndex) : outcome CommitRange :=
  let new_end := u32_saturating_add other 1 in
  do! rassert (range_hi r <=? new_end) "assertion failed: self.0.end <= new_end" in
  Ok (mkCommitRange (range_lo r) new_end).

Definition range_size (r : CommitRange) : outcome N :=
  if range_lo r <=? range_hi r then Ok (range_hi r - range_lo r)
  else Panic "Range should never have end < start".

Definition is_equal_size (r other : CommitRange) : outcome bool :=
  let! a := range_size r in
  let! b := range_size other in
  Ok (a =? b).

Definition is_next_range (r other : CommitRange) : bool := range_hi r =? range_lo other.

Definition range_cmp (r other : CommitRange) : comparison :=
  then_with (cmp (range_start r) (range_start other)) (cmp (range_end r) (range_end other)).

(** The commit indices of a range. *)
Definition in_commit_range (r : CommitRange) (i : CommitIndex) : Prop :=
  range_start r ≤ i ∧ i ≤ range_end r.

(** ** Scores and commit info *)

Record ReputationScores := mkReputationScores {
  scores_per_authority : list N;
  scores_commit_range : CommitRange;
}.

Definition reputation_scores_default : ReputationScores :=
  mkReputationScores [] commit_range_default.

Record CommitInfo := mkCommitInfo {
  committed_rounds : list Round;
  reputation_scores : ReputationScores;
}.

(** ** Facts *)

(** A range built from [start..=end] reads back its bounds and its
    size, as long as [end] is not [u32::MAX], where the exclusive bound saturates
    and [end()] reads one less. *)
Theorem commit_range_roundtrip s e :
  s ≤ e → e < u32_max →
  range_start (commit_range_new s e) = s ∧
  range_end (commit_range_new s e) = e ∧
  range_size (commit_range_new s e) = Ok (e - s + 1) ∧
  range_end (commit_range_new s u32_max) = u32_max - 1.
Proof.
  intros Hse He. unfold range_start, range_end, range_size, commit_range_new, saturating_sub,
    u32_saturating_add; cbn [range_lo range_hi].
  rewrite N.min_l by lia. rewrite (proj2 (N.leb_le _ _)) by lia.
  rewrite N.min_r by lia. repeat split; try lia. f_equal. lia.
Qed.

Lemma commit_range_roundtrip_witness :
  range_start (commit_range_new 3 7) = 3 ∧ range_end (commit_range_new 3 7) = 7 ∧
  range_size (commit_range_new 3 7) = Ok (7 - 3 + 1) ∧
  range_end (commit_range_new 3 u32_max) = u32_max - 1.
Proof. apply (commit_range_roundtrip 3 7); [lia|reflexivity]. Defined.

(** Extending by the next index keeps the start and adds one commit. *)
Lemma extend_to_spec r i r' n :
  extend_to r i = Ok r' → range_size r = Ok n → i < u32_max →
  range_start r' = range_start r ∧ range_hi r' = i + 1 ∧ range_hi r ≤ i + 1 ∧
  range_size r' = Ok (i + 1 - range_lo r).
Proof.
  unfold extend_to, range_size, u32_saturating_add. intros H Hsz Hi. outcome_inv.
  apply N.leb_le in E. rewrite N.min_l in E |- * by lia. cbn [range_start range_lo range_hi].
  destruct (N.leb_spec (range_lo r) (range_hi r)); [|done].
  rewrite (proj2 (N.leb_le _ _)) by lia. done.
Qed.

(** Consecutive ranges of equal size tile the commit indices without overlap. *)
Lemma next_range_disjoint r r' i :
  is_next_range r r' = true → range_lo r < range_hi r →
  in_commit_range r i → in_commit_range r' i → False.
Proof.
  unfold is_next_range, in_commit_range, range_start, range_end, saturating_sub.
  rewrite N.eqb_eq. lia.
Qed.

Lemma block_order_total a b : block_order_leb a b = true ∨ block_order_leb b a = true.
Proof.
  unfold block_order_leb. rewrite (cmp_opp (round a) (round b)), (cmp_opp (author a) (author b)).
  destruct (cmp (round a) (round b)), (cmp (author a) (author b)); naive_solver.
Qed.

Lemma block_order_key a b :
  block_order_leb a b = ord_leb (round a, author a) (round b, author b).
Proof. done. Qed.

Lemma block_order_trans a b d :
  block_order_leb a b = true → block_order_leb b d = true → block_order_leb a d = true.
Proof. rewrite !block_order_key. apply ord_leb_trans. Qed.

Lemma sort_sub_dag_perm blocks : sort_sub_dag_blocks blocks ≡ₚ blocks.
Proof. apply sort_by_perm. Qed.

Lemma sort_sub_dag_sorted blocks :
  StronglySorted (λ a b, block_order_leb a b) (sort_sub_dag_blocks blocks).
Proof. apply sort_by_sorted; [apply block_order_total|apply block_order_trans]. Qed.

Lemma block_order_round a b : block_order_leb a b = true → round a ≤ round b.
Proof.
  unfold block_order_leb. unfold cmp at 1, ord_N.
  destruct (N.compare_spec (round a) (round b)); cbn; lia || done.
Qed.
