(* ===== verification/StakeAggregator.v ===== *)
(** * Stake aggregation ([core/src/stake_aggregator.rs])

    [CommitteeThreshold] is the trait the aggregator is generic over; the
    aggregator counts each authority's stake once. *)

From S2P Require Import Prelude Collections Weighted Committee.

Local Open Scope N_scope.

(** The trait, with the two implementations of the source. *)
Class CommitteeThreshold (T : Type) := {
  is_threshold : Committee → Stake → bool;
  threshold : Committee → Stake;
}.
Arguments is_threshold T {_} _ _.
Arguments threshold T {_} _.

(** What the aggregator relies on: the test is a comparison with the threshold. *)
Class CommitteeThresholdLaws (T : Type) `{CommitteeThreshold T} : Prop := {
  is_threshold_spec c s : is_threshold T c s = (threshold T c <=? s);
}.

Inductive QuorumThreshold : Type := .
Inductive ValidityThreshold : Type := .

#[export] Instance quorum_threshold_impl : CommitteeThreshold QuorumThreshold := {
  is_threshold := reached_quorum;
  threshold := quorum_threshold;
}.
#[export] Instance validity_threshold_impl : CommitteeThreshold ValidityThreshold := {
  is_threshold := reached_validity;
  threshold := validity_threshold;
}.
#[export] Instance quorum_threshold_laws : CommitteeThresholdLaws QuorumThreshold.
Proof. by split. Qed.
#[export] Instance validity_threshold_laws : CommitteeThresholdLaws ValidityThreshold.
Proof. by split. Qed.

Record StakeAggregator := mkStakeAggregator {
  agg_votes : gset AuthorityIndex;
  agg_stake : Stake;
}.

Definition aggregator_new : StakeAggregator := mkStakeAggregator ∅ 0.

(** The shared body of [add] and [add_unique]: insert the vote and, when it is
    new, add its stake; the flag is [BTreeSet::insert]'s result. *)
Definition insert_vote (c : Committee) (agg : StakeAggregator) (vote : AuthorityIndex) :
    outcome (StakeAggregator * bool) :=
  if decide (vote ∈ agg_votes agg) then Ok (agg, false)
  else let! s := committee_stake c vote in
       Ok (mkStakeAggregator ({[vote]} ∪ agg_votes agg) (u64_add (agg_stake agg) s), true).

Definition add (T : Type) `{CommitteeThreshold T} (c : Committee) (agg : StakeAggregator)
    (vote : AuthorityIndex) : outcome (StakeAggregator * bool) :=
  let! '(agg', _) := insert_vote c agg vote in
  Ok (agg', is_threshold T c (agg_stake agg')).

Definition add_unique (c : Committee) (agg : StakeAggregator) (vote : AuthorityIndex) :
    outcome (StakeAggregator * bool) :=
  insert_vote c agg vote.

Definition reached_threshold (T : Type) `{CommitteeThreshold T} (c : Committee)
    (agg : StakeAggregator) : bool :=
  is_threshold T c (agg_stake agg).

Definition aggregator_clear (agg : StakeAggregator) : StakeAggregator := mkStakeAggregator ∅ 0.

(** ** The invariant: the stake is the stake of the set of voters *)

Record agg_ok (c : Committee) (agg : StakeAggregator) : Prop := {
  agg_votes_valid : agg_votes agg ⊆ all_authorities c;
  agg_stake_eq : agg_stake agg = set_stake c (agg_votes agg);
}.

Lemma agg_ok_new c : agg_ok c aggregator_new.
Proof. split; cbn; [set_solver|]. by rewrite set_stake_empty. Qed.

Lemma agg_ok_clear c agg : agg_ok c (aggregator_clear agg).
Proof. apply agg_ok_new. Qed.

Lemma insert_vote_spec c agg v :
  committee_ok c → agg_ok c agg → (v < committee_size c)%nat →
  ∃ agg', insert_vote c agg v = Ok (agg', bool_decide (v ∉ agg_votes agg)) ∧
    agg_ok c agg' ∧ agg_votes agg' = {[v]} ∪ agg_votes agg.
Proof.
  intros Hc [Hval Hst] Hv. unfold insert_vote. case_decide as Hin.
  - exists agg. rewrite bool_decide_eq_false_2 by tauto. split; [done|]. split; [done|].
    set_solver.
  - rewrite committee_stake_valid by done. cbn. rewrite bool_decide_eq_true_2 by done.
    eexists; split; [done|]. split; [|done]. split; cbn.
    + apply union_subseteq. split; [|done].
      intros x ->%elem_of_singleton. by apply elem_of_all_authorities.
    + pose proof (set_stake_u64 c ({[v]} ∪ agg_votes agg) Hc) as Hb.
      rewrite set_stake_insert in Hb |- * by done.
      rewrite u64_add_small by lia. lia.
Qed.

Lemma insert_vote_invalid c agg v :
  (committee_size c ≤ v)%nat → v ∉ agg_votes agg →
  ∃ msg, insert_vote c agg v = Panic msg.
Proof.
  intros Hv Hin. unfold insert_vote. rewrite decide_False by done.
  unfold committee_stake, authority, vec_get. rewrite lookup_ge_None_2 by done. by eexists.
Qed.

Lemma add_spec T `{CommitteeThresholdLaws T} c agg v :
  committee_ok c → agg_ok c agg → (v < committee_size c)%nat →
  ∃ agg', add T c agg v = Ok (agg', threshold T c <=? set_stake c ({[v]} ∪ agg_votes agg)) ∧
    agg_ok c agg' ∧ agg_votes agg' = {[v]} ∪ agg_votes agg.
Proof.
  intros Hc Hagg Hv. destruct (insert_vote_spec c agg v Hc Hagg Hv) as (agg' & Hadd & Hok & Hvotes).
  exists agg'. unfold add. rewrite Hadd. cbn. split; [|done].
  by rewrite is_threshold_spec, (agg_stake_eq c agg' Hok), Hvotes.
Qed.

(** ** Adding a sequence of votes, stopping when the threshold is reached

    The committers fold [add] over blocks and return at the first [true]. *)

Fixpoint add_until (T : Type) `{CommitteeThreshold T} (c : Committee) (agg : StakeAggregator)
    (l : list AuthorityIndex) : outcome bool :=
  match l with
  | [] => Ok false
  | v :: l' => let! '(agg', reached) := add T c agg v in
               if reached then Ok true else add_until T c agg' l'
  end.

Lemma add_until_spec_gen T `{CommitteeThresholdLaws T} c agg l :
  committee_ok c → agg_ok c agg → 0 < threshold T c →
  set_stake c (agg_votes agg) < threshold T c →
  (∀ v, v ∈ l → (v < committee_size c)%nat) →
  add_until T c agg l = Ok (threshold T c <=? set_stake c (list_to_set l ∪ agg_votes agg)).
Proof.
  intros Hc Hagg Hpos. revert agg Hagg. induction l as [|v l IH]; intros agg Hagg Hlt Hv; cbn.
  { rewrite union_empty_l_L. by rewrite (proj2 (N.leb_gt _ _) Hlt). }
  destruct (add_spec T c agg v Hc Hagg) as (agg' & -> & Hok & Hvotes); [apply Hv; left|]. cbn.
  destruct (N.leb_spec (threshold T c) (set_stake c ({[v]} ∪ agg_votes agg))) as [Hle|Hgt].
  - symmetry. f_equal. apply N.leb_le. etrans; [exact Hle|].
    apply set_stake_mono. set_solver.
  - rewrite IH; [|done|by rewrite Hvotes|intros; apply Hv; by right].
    rewrite Hvotes. do 3 f_equal. set_solver.
Qed.

Lemma add_until_spec T `{CommitteeThresholdLaws T} c l :
  committee_ok c → 0 < threshold T c → (∀ v, v ∈ l → (v < committee_size c)%nat) →
  add_until T c aggregator_new l = Ok (threshold T c <=? set_stake c (list_to_set l)).
Proof.
  intros Hc Hpos Hv. rewrite (add_until_spec_gen T c aggregator_new l Hc (agg_ok_new c) Hpos).
  - cbn. by rewrite union_empty_r_L.
  - cbn. by rewrite set_stake_empty.
  - done.
Qed.
