(* ===== verification/ThresholdClock.v ===== *)
(** * The threshold clock ([core/src/threshold_clock.rs])

    The clock advances when a quorum of authorities has a block at its round, or
    jumps when a block of a later round arrives.  Its specification is a closed
    form over the blocks seen so far, in any order. *)

From S2P Require Import Prelude Collections Weighted Committee Types StakeAggregator Fixtures.

Local Open Scope N_scope.

(** [tokio::time::Instant]s are the readings passed in by the caller. *)
Abbreviation Instant := N (only parsing).

Record ThresholdClock := mkThresholdClock {
  tc_aggregator : StakeAggregator;
  tc_round : Round;
  quorum_ts : Instant;
}.

Definition threshold_clock_new (r : Round) (now : Instant) : ThresholdClock :=
  mkThresholdClock aggregator_new r now.

(** [ThresholdClock::add_block]; the [hostname] lookup of the metrics path is
    kept because it can panic. *)
Definition add_block (c : Committee) (now : Instant) (tc : ThresholdClock) (block : BlockRef) :
    outcome (ThresholdClock * bool) :=
  match ref_round block ?= tc_round tc with
  | Lt => Ok (tc, false)
  | Eq =>
      let! '(agg, reached) := add QuorumThreshold c (tc_aggregator tc) (ref_author block) in
      if reached then
        Ok (mkThresholdClock (aggregator_clear agg) (u32_add (ref_round block) 1) now, true)
      else
        do! authority c (ref_author block) in
        Ok (mkThresholdClock agg (tc_round tc) (quorum_ts tc), false)
  | Gt =>
      let! '(agg, reached) :=
        add QuorumThreshold c (aggregator_clear (tc_aggregator tc)) (ref_author block) in
      let r := if reached then u32_add (ref_round block) 1 else ref_round block in
      Ok (mkThresholdClock agg r now, true)
  end.

(** [ThresholdClock::add_blocks], without the final comparison. *)
Definition run_blocks (c : Committee) (now : Instant) (tc : ThresholdClock) (blocks : list BlockRef) :
    outcome ThresholdClock :=
  for_each (λ tc b, let! '(tc', _) := add_block c now tc b in Ok tc') tc blocks.

(** The clock never panics on blocks of the committee's authorities, and its
    aggregator keeps counting each of them once. *)
Lemma add_block_total c now tc b :
  committee_ok c → agg_ok c (tc_aggregator tc) → (ref_author b < committee_size c)%nat →
  ∃ tc' advanced, add_block c now tc b = Ok (tc', advanced) ∧ agg_ok c (tc_aggregator tc').
Proof.
  intros Hc Hagg Hb. unfold add_block. destruct (ref_round b ?= tc_round tc).
  - destruct (add_spec QuorumThreshold c (tc_aggregator tc) (ref_author b) Hc Hagg Hb) as (agg & -> & Hok & _).
    cbn. case_match; [do 2 eexists; split; [done|]; apply agg_ok_clear|].
    unfold authority, vec_get. destruct (lookup_lt_is_Some_2 _ _ Hb) as [a ->]. cbn.
    do 2 eexists. split; done.
  - do 2 eexists. split; done.
  - destruct (add_spec QuorumThreshold c (aggregator_clear (tc_aggregator tc)) (ref_author b) Hc
      (agg_ok_clear _ _) Hb) as (agg & -> & Hok & _). cbn. do 2 eexists. split; done.
Qed.

(** ** Specification *)

(** The authors of the blocks of round [r] among [seen]. *)
Definition seen_authors (r : Round) (seen : list BlockRef) : gset AuthorityIndex :=
  list_to_set (ref_author <$> filter (λ b, ref_round b = r) seen).

Definition max_round (r0 : Round) (seen : list BlockRef) : Round :=
  foldr (λ b m, N.max (ref_round b) m) r0 seen.

(** The highest round seen (or the initial round), plus one when it has a quorum. *)
Definition clock_spec (c : Committee) (r0 : Round) (seen : list BlockRef) : Round :=
  let m := max_round r0 seen in
  if quorum_threshold c <=? set_stake c (seen_authors m seen) then m + 1 else m.

Lemma elem_of_seen_authors r seen a :
  a ∈ seen_authors r seen ↔ ∃ b, b ∈ seen ∧ ref_round b = r ∧ ref_author b = a.
Proof.
  unfold seen_authors. rewrite elem_of_list_to_set, list_elem_of_fmap.
  setoid_rewrite list_elem_of_filter. naive_solver.
Qed.

#[export] Instance seen_authors_perm r : Proper ((≡ₚ) ==> (=)) (seen_authors r).
Proof.
  intros l1 l2 Hl. apply set_eq. intros a. rewrite !elem_of_seen_authors. by setoid_rewrite Hl.
Qed.

#[export] Instance max_round_perm r0 : Proper ((≡ₚ) ==> (=)) (max_round r0).
Proof. unfold max_round. induction 1; cbn; lia. Qed.

#[export] Instance clock_spec_perm c r0 : Proper ((≡ₚ) ==> (=)) (clock_spec c r0).
Proof. intros l1 l2 Hl. unfold clock_spec. by rewrite (max_round_perm r0 l1 l2 Hl), (seen_authors_perm _ l1 l2 Hl). Qed.

Lemma max_round_cons r0 b seen : max_round r0 (b :: seen) = N.max (ref_round b) (max_round r0 seen).
Proof. done. Qed.

Lemma max_round_ge r0 seen b : b ∈ seen → ref_round b ≤ max_round r0 seen.
Proof. induction 1; rewrite max_round_cons; lia. Qed.

Lemma seen_authors_cons_eq r b seen :
  ref_round b = r → seen_authors r (b :: seen) = {[ref_author b]} ∪ seen_authors r seen.
Proof.
  intros Hr. apply set_eq. intros a. rewrite elem_of_union, elem_of_singleton, !elem_of_seen_authors.
  setoid_rewrite elem_of_cons. naive_solver.
Qed.

Lemma seen_authors_cons_ne r b seen :
  ref_round b ≠ r → seen_authors r (b :: seen) = seen_authors r seen.
Proof.
  intros Hr. apply set_eq. intros a. rewrite !elem_of_seen_authors.
  setoid_rewrite elem_of_cons. naive_solver.
Qed.

Lemma seen_authors_above r0 r seen : max_round r0 seen < r → seen_authors r seen = ∅.
Proof.
  intros Hr. apply set_eq. intros a. rewrite elem_of_seen_authors. split; [|set_solver].
  intros (b & Hb & <- & _). pose proof (max_round_ge r0 seen b Hb). lia.
Qed.

Section clock.
Context (c : Committee) (Hc : committee_ok c).
(** No authority holds a quorum on its own. *)
Context (Hsingle : ∀ i, stake_of c i < quorum_threshold c).
Context (r0 : Round) (now : Instant).

Record clock_inv (tc : ThresholdClock) (seen : list BlockRef) : Prop := {
  ci_round : tc_round tc = clock_spec c r0 seen;
  ci_agg : agg_ok c (tc_aggregator tc);
  ci_votes : agg_votes (tc_aggregator tc) = seen_authors (tc_round tc) seen;
}.

Definition block_ok (b : BlockRef) : Prop :=
  (ref_author b < committee_size c)%nat ∧ ref_round b < u32_max.

Lemma clock_spec_bounds seen :
  max_round r0 seen ≤ clock_spec c r0 seen ≤ max_round r0 seen + 1.
Proof. unfold clock_spec. case_match; lia. Qed.

Lemma clock_inv_new : clock_inv (threshold_clock_new r0 now) [].
Proof.
  split; cbn.
  - unfold clock_spec, seen_authors; cbn. rewrite set_stake_empty.
    pose proof (quorum_pos c Hc). case_match eqn:E; [|done]. apply N.leb_le in E. lia.
  - apply agg_ok_new.
  - done.
Qed.

Lemma add_block_inv_lt tc seen b :
  clock_inv tc seen → ref_round b < tc_round tc → clock_inv tc (b :: seen).
Proof.
  intros [Hr Hagg Hv] Hlt. pose proof (clock_spec_bounds seen) as Hb. rewrite <-Hr in Hb.
  assert (max_round r0 (b :: seen) = max_round r0 seen) as Hm by (rewrite max_round_cons; lia).
  split; [|done|by rewrite seen_authors_cons_ne by lia].
  rewrite Hr in *. unfold clock_spec in *. rewrite Hm.
  set (m := max_round r0 seen) in *.
  destruct (N.leb_spec (quorum_threshold c) (set_stake c (seen_authors m seen))) as [Hq|Hq].
  - rewrite (proj2 (N.leb_le _ _)); [done|]. etrans; [exact Hq|]. apply set_stake_mono.
    intros a. rewrite !elem_of_seen_authors. setoid_rewrite elem_of_cons. naive_solver.
  - rewrite seen_authors_cons_ne by lia. by rewrite (proj2 (N.leb_gt _ _) Hq).
Qed.

(** A block at the clock's round or above becomes the newest round. *)
Lemma clock_spec_new seen b :
  clock_spec c r0 seen ≤ ref_round b →
  clock_spec c r0 (b :: seen) =
    if quorum_threshold c <=? set_stake c ({[ref_author b]} ∪ seen_authors (ref_round b) seen)
    then ref_round b + 1 else ref_round b.
Proof.
  intros Hle. pose proof (clock_spec_bounds seen) as Hb. unfold clock_spec at 1.
  rewrite max_round_cons, N.max_l by lia. by rewrite seen_authors_cons_eq.
Qed.

(** [add_block] never panics on a valid block and keeps the invariant; its flag
    says whether the round advanced. *)
Lemma add_block_spec tc seen b :
  clock_inv tc seen → block_ok b →
  ∃ tc', add_block c now tc b = Ok (tc', tc_round tc <? tc_round tc') ∧
         clock_inv tc' (b :: seen) ∧ tc_round tc ≤ tc_round tc'.
Proof.
  intros Hinv [Hauth Hmax]. pose proof Hinv as [Hr Hagg Hv]. unfold add_block.
  assert (u32_add (ref_round b) 1 = ref_round b + 1) as ->
    by machine_lia.
  pose proof (clock_spec_bounds seen) as Hb. rewrite <-Hr in Hb.
  destruct (N.compare_spec (ref_round b) (tc_round tc)) as [Heq|Hlt|Hgt].
  - destruct (add_spec QuorumThreshold c (tc_aggregator tc) (ref_author b) Hc Hagg Hauth)
      as (agg & Hadd & Hok & Hvotes).
    rewrite Hadd. cbn [obind]. pose proof (clock_spec_new seen b ltac:(lia)) as Hspec.
    rewrite <-Heq in Hv. rewrite Hv in Hvotes |- *. change (threshold QuorumThreshold c) with (quorum_threshold c).
    destruct (quorum_threshold c <=? _) eqn:Hq.
    + exists (mkThresholdClock (aggregator_clear agg) (ref_round b + 1) now). cbn [tc_round].
      split; [by rewrite (proj2 (N.ltb_lt _ _)) by lia|].
      split; [|cbn; lia]. split; cbn [tc_round tc_aggregator aggregator_clear agg_votes]; [done|apply agg_ok_new|].
      symmetry. apply (seen_authors_above r0). rewrite max_round_cons. lia.
    + destruct (authority c (ref_author b)) as [a| |] eqn:Ha.
      2,3: apply lookup_lt_is_Some in Hauth as [a Hl]; unfold authority, vec_get in Ha; by rewrite Hl in Ha.
      exists (mkThresholdClock agg (tc_round tc) (quorum_ts tc)). cbn [tc_round].
      split; [by rewrite N.ltb_irrefl|]. split; [|cbn; lia].
      split; cbn [tc_round tc_aggregator aggregator_clear agg_votes]; [congruence|done|]. by rewrite <-Heq, seen_authors_cons_eq.
  - exists tc. rewrite N.ltb_irrefl. split; [done|]. split; [by apply add_block_inv_lt|done].
  - destruct (add_spec QuorumThreshold c (aggregator_clear (tc_aggregator tc)) (ref_author b) Hc
      (agg_ok_clear c _) Hauth) as (agg & Hadd & Hok & Hvotes).
    rewrite Hadd. cbn [obind]. pose proof (clock_spec_new seen b ltac:(lia)) as Hspec.
    rewrite (seen_authors_above r0) in Hspec by lia.
    cbn [aggregator_clear agg_votes] in *. change (threshold QuorumThreshold c) with (quorum_threshold c).
    assert ((quorum_threshold c <=? set_stake c ({[ref_author b]} ∪ ∅)) = false) as Hq.
    { apply N.leb_gt. rewrite set_stake_insert, set_stake_empty by set_solver.
      pose proof (Hsingle (ref_author b)). lia. }
    rewrite Hq in *. exists (mkThresholdClock agg (ref_round b) now). cbn [tc_round].
    split; [by rewrite (proj2 (N.ltb_lt _ _)) by lia|].
    split; [|cbn; lia]. split; cbn [tc_round tc_aggregator aggregator_clear agg_votes]; [done|done|].
    by rewrite seen_authors_cons_eq, (seen_authors_above r0) by lia.
Qed.

Lemma run_blocks_spec tc seen l :
  clock_inv tc seen → (∀ b, b ∈ l → block_ok b) →
  ∃ tc', run_blocks c now tc l = Ok tc' ∧ clock_inv tc' (reverse l ++ seen).
Proof.
  unfold run_blocks. revert tc seen. induction l as [|b l IH]; intros tc seen Hinv Hl.
  { exists tc. split; [done|]. by rewrite reverse_nil. }
  destruct (add_block_spec tc seen b Hinv) as (tc1 & Hstep & Hinv1 & _); [apply Hl; left|].
  cbn [for_each]. rewrite Hstep. cbn [obind].
  destruct (IH tc1 (b :: seen) Hinv1) as (tc2 & Hrun & Hinv2); [intros; apply Hl; by right|].
  exists tc2. split; [done|]. by rewrite reverse_cons, <-app_assoc.
Qed.
End clock.


Definition clock_witness_blocks : list BlockRef :=
  [mkBlockRef 0 0 0; mkBlockRef 0 1 0; mkBlockRef 0 2 0; mkBlockRef 1 0 0; mkBlockRef 1 3 0;
   mkBlockRef 2 1 0; mkBlockRef 1 1 0; mkBlockRef 5 2 0].


(** When an authority alone holds a quorum, a block of it that makes
    the clock jump leaves its vote in the aggregator; one block of a minority
    authority then advances the clock again, although no quorum of authorities
    has a block at that round. *)
Theorem threshold_clock_stale_vote :
  ∃ tc, run_blocks committee_heavy 0 (threshold_clock_new 1 0) [mkBlockRef 5 0 0; mkBlockRef 6 1 0] = Ok tc ∧
        tc_round tc = 7 ∧
        clock_spec committee_heavy 1 [mkBlockRef 5 0 0; mkBlockRef 6 1 0] = 6 ∧
        reached_quorum committee_heavy (set_stake committee_heavy {[1%nat]}) = false.
Proof. eexists. vm_compute. repeat split. Qed.
