(* ===== verification/QuorumIndex.v ===== *)
(** * Stake by reported value

    Facts shared by the commit vote monitor and the round tracker: each authority
    reports a value, and a value is selected by the stake that stands at or above
    (below) it. *)

From S2P Require Import Prelude Collections Weighted Committee.

Local Open Scope N_scope.

Definition reports (v : list N) (P : N → bool) (i : nat) : bool :=
  match v !! i with Some x => P x | None => false end.

(** The authorities whose reported value satisfies [P]. *)
Definition authorities_where (v : list N) (P : N → bool) : gset AuthorityIndex :=
  list_to_set (filter (λ i, reports v P i) (seq 0 (length v))).

Lemma elem_of_authorities_where v P i :
  i ∈ authorities_where v P ↔ ∃ x, v !! i = Some x ∧ P x = true.
Proof.
  unfold authorities_where, reports.
  rewrite elem_of_list_to_set, list_elem_of_filter, elem_of_seq. split.
  - intros [Hi _]. destruct (v !! i); [|done]. apply Is_true_true in Hi. eauto.
  - intros (x & Hx & HP). rewrite Hx. split; [by apply Is_true_true|]. apply lookup_lt_Some in Hx. lia.
Qed.

(** The (value, stake) pairs the code builds with [zip]. *)
Definition with_stakes (c : Committee) (v : list N) : list (N * N) :=
  zip v (stake <$> authorities c).

Section with_committee.
Context (c : Committee) (v : list N).
Hypothesis Hlen : length v = committee_size c.

Lemma with_stakes_seq :
  with_stakes c v = (λ i, (default 0 (v !! i), stake_of c i)) <$> seq 0 (length v).
Proof using Hlen.
  unfold with_stakes. apply list_eq. intros i. rewrite list_lookup_fmap.
  unfold committee_size in Hlen.
  destruct (decide (i < length v)%nat) as [Hi|Hi].
  - rewrite lookup_seq_lt by done. cbn. unfold stake_of.
    destruct (lookup_lt_is_Some_2 v i Hi) as [x Hx].
    destruct (lookup_lt_is_Some_2 (authorities c) i ltac:(lia)) as [a Ha].
    rewrite Hx, Ha. apply lookup_zip_with_Some. exists x, (stake a).
    rewrite list_lookup_fmap, Ha. done.
  - rewrite lookup_seq_ge by lia. apply lookup_ge_None_2.
    rewrite length_zip_with, length_fmap. lia.
Qed.

Lemma weight_with_stakes P :
  weight P (with_stakes c v) = set_stake c (authorities_where v P).
Proof using Hlen.
  rewrite with_stakes_seq. unfold weight, set_stake, authorities_where.
  rewrite elements_list_to_set by (apply NoDup_filter, NoDup_seq).
  rewrite filter_fmap_comm, <-list_fmap_compose. f_equal. unfold compose.
  assert (∀ l1 l2 : list nat, l1 = l2 →
    (λ i, (default 0 (v !! i), stake_of c i).2) <$> l1 = stake_of c <$> l2) as Hmap
    by (by intros ? ? ->).
  apply Hmap. apply filter_ext_in. intros i Hi%elem_of_seq. unfold reports. cbn.
  destruct (lookup_lt_is_Some_2 v i ltac:(lia)) as [x Hx]. by rewrite Hx.
Qed.

Lemma sum_with_stakes : committee_ok c → sumN (with_stakes c v).*2 = total_stake c.
Proof using Hlen.
  intros Hc. unfold with_stakes. rewrite snd_zip, (ok_total c Hc); [done|].
  rewrite length_fmap. unfold committee_size in Hlen. lia.
Qed.

Lemma with_stakes_bound : committee_ok c → sumN (with_stakes c v).*2 < u64_modulus.
Proof using Hlen.
  intros Hc. rewrite sum_with_stakes by done. pose proof (ok_bound c Hc). unfold u64_modulus. lia.
Qed.

(** Complementary sets of reporters split the total stake. *)
Lemma stake_complement P :
  committee_ok c →
  set_stake c (authorities_where v P) + set_stake c (authorities_where v (λ x, negb (P x)))
  = total_stake c.
Proof using Hlen.
  intros Hc. rewrite <-!weight_with_stakes. rewrite weight_split. by apply sum_with_stakes.
Qed.

(** A set of reporters with f+1 stake contains an authority outside any faulty
    set of at most f stake. *)
Lemma honest_reporter P (faulty : gset AuthorityIndex) :
  committee_ok c →
  set_stake c faulty < validity_threshold c →
  validity_threshold c ≤ set_stake c (authorities_where v P) →
  ∃ i x, ¬ (i ∈ faulty) ∧ v !! i = Some x ∧ P x = true.
Proof using Type.
  clear Hlen. intros Hc Hf HP.
  destruct (decide (authorities_where v P ⊆ faulty)) as [Hsub|Hsub].
  - apply (set_stake_mono c) in Hsub. lia.
  - destruct (set_choose_L (authorities_where v P ∖ faulty)) as [i Hi].
    { intros He. apply Hsub. intros i Hi. destruct (decide (i ∈ faulty)); [done|]. set_solver. }
    apply elem_of_difference in Hi as [(x & Hx & HPx)%elem_of_authorities_where Hi]. eauto.
Qed.

Lemma quorum_ge_validity : committee_ok c → validity_threshold c ≤ quorum_threshold c.
Proof using Type. clear Hlen. intros Hc. pose proof (committee_thresholds c Hc). destruct Hc. lia. Qed.
End with_committee.
