(* ===== verification/CommitVoteMonitor.v ===== *)
(** * The commit vote monitor ([core/src/commit_vote_monitor.rs])

    Per authority, the highest commit index it voted for; and the highest index a
    quorum has voted for. *)

From S2P Require Import Prelude Collections Weighted Committee Types QuorumIndex Fixtures.

Local Open Scope N_scope.

Definition GENESIS_COMMIT_INDEX : CommitIndex := 0.

Record CommitVoteMonitor := mkCommitVoteMonitor {
  highest_voted_commits : list CommitIndex;
}.

Definition commit_vote_monitor_new (ctx : Context) : CommitVoteMonitor :=
  mkCommitVoteMonitor (replicate (committee_size (committee ctx)) 0).

(** One vote of a block by [a]. *)
Definition observe_vote (a : AuthorityIndex) (highest : list CommitIndex) (vote : CommitVote) :
    outcome (list CommitIndex) :=
  let! current := vec_get highest a in
  if current <? cref_index vote then vec_set highest a (cref_index vote) else Ok highest.

Definition observe_block (m : CommitVoteMonitor) (block : VerifiedBlock) : outcome CommitVoteMonitor :=
  let! highest := for_each (observe_vote (author block)) (highest_voted_commits m) (commit_votes block) in
  Ok (mkCommitVoteMonitor highest).

(** [quorum_commit_index]: sort the (index, stake) pairs in descending order and
    return the index at which the accumulated stake reaches the quorum. *)
Definition quorum_commit_index (ctx : Context) (m : CommitVoteMonitor) : CommitIndex :=
  let pairs := with_stakes (committee ctx) (highest_voted_commits m) in
  let sorted := sort_by (λ a b, ord_leb b a) pairs in
  match scan_until (λ total, quorum_threshold (committee ctx) <=? total) 0 sorted with
  | Some commit_index => commit_index
  | None => GENESIS_COMMIT_INDEX
  end.

(** ** Observing blocks *)

Lemma observe_votes_spec a highest votes cur :
  highest !! a = Some cur →
  for_each (observe_vote a) highest votes
  = Ok (<[a := foldr (λ v m, N.max (cref_index v) m) cur votes]> highest).
Proof.
  revert highest cur. induction votes as [|v votes IH]; intros highest cur Hcur; cbn.
  { by rewrite list_insert_id. }
  unfold observe_vote at 1, vec_get. rewrite Hcur. cbn [expect obind].
  assert (∀ x, foldr (λ v m, N.max (cref_index v) m) (N.max (cref_index v) x) votes
             = N.max (cref_index v) (foldr (λ v m, N.max (cref_index v) m) x votes)) as Hmax.
  { clear. intros x. induction votes; cbn; lia. }
  destruct (N.ltb_spec cur (cref_index v)) as [Hlt|Hge].
  - unfold vec_set. rewrite decide_True by (by eapply lookup_lt_Some). cbn.
    rewrite (IH _ (cref_index v)) by (apply list_lookup_insert_eq; by eapply lookup_lt_Some).
    rewrite list_insert_insert_eq. do 2 f_equal. rewrite <-Hmax. f_equal. lia.
  - cbn. rewrite (IH _ cur) by done. do 2 f_equal. rewrite <-Hmax. f_equal. lia.
Qed.

(** Observing a block raises its author's entry to the highest
    commit index among the block's votes, never lowers it and touches no other
    entry. *)
Theorem observe_block_spec m block cur :
  highest_voted_commits m !! author block = Some cur →
  ∃ m', observe_block m block = Ok m' ∧
    length (highest_voted_commits m') = length (highest_voted_commits m) ∧
    highest_voted_commits m' !! author block
      = Some (foldr (λ v acc, N.max (cref_index v) acc) cur (commit_votes block)) ∧
    ∀ a, a ≠ author block → highest_voted_commits m' !! a = highest_voted_commits m !! a.
Proof.
  intros Hcur. unfold observe_block. rewrite (observe_votes_spec _ _ _ cur) by done. cbn.
  eexists; split; [done|]. cbn. split; [apply length_insert|]. split.
  - apply list_lookup_insert_eq. by eapply lookup_lt_Some.
  - intros a Ha. by apply list_lookup_insert_ne.
Qed.

Definition vote_block : VerifiedBlock :=
  mkVerifiedBlock (mkSignedBlock (V2 (mkBlockV2 0 10 1 0 [] [] []
    [mkCommitRef 6 0; mkCommitRef 7 0; mkCommitRef 2 0] [] None [])) []) 0 [].

Lemma observe_block_spec_witness :
  ∃ m', observe_block (commit_vote_monitor_new context4) vote_block = Ok m' ∧
    length (highest_voted_commits m') = 4%nat ∧
    highest_voted_commits m' !! 1%nat = Some 7 ∧
    ∀ a, a ≠ 1%nat → highest_voted_commits m' !! a = replicate 4 0 !! a.
Proof. apply (observe_block_spec (commit_vote_monitor_new context4) vote_block 0). reflexivity. Defined.

(** ** The quorum index *)

Lemma desc_sorted (l : list (N * N)) :
  StronglySorted (λ p q, (q.1 <=? p.1)) (sort_by (λ a b, ord_leb b a) l).
Proof.
  assert (StronglySorted (λ a b : N * N, ord_leb b a) (sort_by (λ a b, ord_leb b a) l)) as Hs.
  { apply sort_by_sorted; intros.
    - apply ord_leb_total.
    - by eapply ord_leb_trans. }
  revert Hs. generalize (sort_by (λ a b : N * N, ord_leb b a) l). clear l.
  induction 1 as [|[x w] l Hl IH Hx]; constructor; [done|].
  eapply Forall_impl; [exact Hx|]. intros [y w'] Hle. cbn in *.
  apply Is_true_true in Hle. apply Is_true_true. unfold ord_leb, cmp, ord_prod in Hle. cbn in Hle.
  unfold cmp at 1, ord_N in Hle. apply N.leb_le.
  destruct (N.compare_spec y x); cbn in Hle; lia || done.
Qed.

(** [quorum_commit_index] is the largest index [S] such that the
    authorities voting for commit [S] or above hold a quorum of the stake. *)
Theorem quorum_commit_index_spec ctx m :
  committee_ok (committee ctx) →
  length (highest_voted_commits m) = committee_size (committee ctx) →
  let c := committee ctx in
  let q := quorum_commit_index ctx m in
  let voting_ge i := authorities_where (highest_voted_commits m) (λ x, i <=? x) in
  quorum_threshold c ≤ set_stake c (voting_ge q) ∧
  (∀ i, q < i → set_stake c (voting_ge i) < quorum_threshold c).
Proof.
  intros Hc Hlen c q voting_ge. unfold q, quorum_commit_index. fold c.
  set (pairs := with_stakes c (highest_voted_commits m)).
  assert (sort_by (λ a b, ord_leb b a) pairs ≡ₚ pairs) as Hperm by apply sort_by_perm.
  assert (sumN (sort_by (λ a b, ord_leb b a) pairs).*2 < u64_modulus) as Hb
    by (rewrite Hperm; by apply with_stakes_bound).
  destruct (scan_until _ 0 _) as [x|] eqn:Hscan.
  - apply (scan_until_sorted (λ a b, b <=? a) _ (quorum_threshold c)) in Hscan as (_ & H1 & H2).
    + rewrite Hperm in H1, H2. split.
      * unfold voting_ge. rewrite <-weight_with_stakes by done. exact H1.
      * intros i Hi. unfold voting_ge. rewrite <-weight_with_stakes by done.
        eapply N.le_lt_trans; [|exact H2]. apply weight_mono. intros p _ Hp.
        apply negb_true_iff, N.leb_gt. apply N.leb_le in Hp. lia.
    + done.
    + apply desc_sorted.
    + apply N.leb_refl.
    + done.
    + by apply quorum_pos.
  - apply (scan_until_None _ (quorum_threshold c)) in Hscan; [|done|lia|by apply quorum_pos].
    rewrite Hperm in Hscan. unfold pairs in Hscan. rewrite sum_with_stakes in Hscan by done.
    pose proof (quorum_le_total c Hc). lia.
Qed.

Lemma quorum_commit_index_spec_witness :
  let m := mkCommitVoteMonitor [7; 8; 7; 8] in
  quorum_threshold committee4
    ≤ set_stake committee4 (authorities_where (highest_voted_commits m) (λ x, quorum_commit_index context4 m <=? x)) ∧
  (∀ i, quorum_commit_index context4 m < i →
        set_stake committee4 (authorities_where (highest_voted_commits m) (λ x, i <=? x)) < quorum_threshold committee4).
Proof.
  apply (quorum_commit_index_spec context4 (mkCommitVoteMonitor [7; 8; 7; 8])).
  - apply committee4_ok.
  - reflexivity.
Defined.

Example quorum_commit_index_of_tests :
  quorum_commit_index context4 (mkCommitVoteMonitor [5; 6; 7; 8]) = 6 ∧
  quorum_commit_index context4 (mkCommitVoteMonitor [7; 8; 7; 8]) = 7.
Proof. vm_compute. done. Qed.
