(* ===== verification/RoundTracker.v ===== *)
(** * The round tracker ([core/src/round_tracker.rs])

    Rounds accepted and received per authority, as reported by every authority,
    the quorum round [low, high] of each authority, and the propagation delay of
    this authority's own blocks. *)

From S2P Require Import Prelude Collections Weighted Committee Types QuorumIndex Fixtures.

Local Open Scope N_scope.

(** [QuorumRound = (Round, Round)] *)
Abbreviation QuorumRound := (N * N)%type (only parsing).

Record PeerRoundTracker := mkPeerRoundTracker {
  block_accepted_rounds : list (list Round);
  probed_accepted_rounds : list (list Round);
  probed_received_rounds : list (list Round);
}.

Definition peer_round_tracker_new (ctx : Context) : PeerRoundTracker :=
  let size := committee_size (committee ctx) in
  let zeros := replicate size (replicate size 0) in
  mkPeerRoundTracker zeros zeros zeros.

(** [rounds[a][b] = rounds[a][b].max(r)] *)
Definition raise_round (rounds : list (list Round)) (a b : AuthorityIndex) (r : Round) :
    outcome (list (list Round)) :=
  let! row := vec_get rounds a in
  let! cur := vec_get row b in
  let! row' := vec_set row b (N.max cur r) in
  vec_set rounds a row'.

Definition update_from_verified_block (t : PeerRoundTracker) (eb : ExtendedBlock) :
    outcome PeerRoundTracker :=
  let block := eb_block eb in
  let a := author block in
  let! rounds := raise_round (block_accepted_rounds t) a a (round block) in
  let! rounds := for_each (λ rs anc, raise_round rs a (ref_author anc) (ref_round anc))
                          rounds (ancestors block) in
  let! rounds := for_each (λ rs anc, raise_round rs a (ref_author anc) (ref_round anc))
                          rounds (excluded_ancestors eb) in
  Ok (mkPeerRoundTracker rounds (probed_accepted_rounds t) (probed_received_rounds t)).

Definition update_from_probe (t : PeerRoundTracker) (accepted received : list (list Round)) :
    PeerRoundTracker :=
  mkPeerRoundTracker (block_accepted_rounds t) accepted received.

(** The two scans of [compute_quorum_round] over the sorted pairs. *)
Definition quorum_bounds (c : Committee) (rounds_with_stake : list (Round * Stake)) : QuorumRound :=
  let sorted := sort_by ord_leb rounds_with_stake in
  let stop total := quorum_threshold c <=? total in
  (default 0 (scan_until stop 0 (reverse sorted)), default 0 (scan_until stop 0 sorted)).

Definition compute_quorum_round (c : Committee) (target_index : AuthorityIndex)
    (highest_rounds : list (list Round)) : outcome QuorumRound :=
  let! rounds_with_stake :=
    map_each (λ '(rounds, a), let! r := vec_get rounds target_index in Ok (r, stake a))
             (zip highest_rounds (authorities c)) in
  Ok (quorum_bounds c rounds_with_stake).

Definition compute_quorum_rounds (c : Committee) (highest_rounds : list (list Round)) :
    outcome (list QuorumRound) :=
  map_each (λ peer, compute_quorum_round c peer highest_rounds) (seq 0 (committee_size c)).

Definition compute_accepted_quorum_rounds (ctx : Context) (t : PeerRoundTracker) :
    outcome (list QuorumRound) :=
  compute_quorum_rounds (committee ctx)
    (zip_with (zip_with N.max) (probed_accepted_rounds t) (block_accepted_rounds t)).

Definition compute_received_quorum_rounds (ctx : Context) (t : PeerRoundTracker) :
    outcome (list QuorumRound) :=
  compute_quorum_rounds (committee ctx) (probed_received_rounds t).

Definition calculate_propagation_delay (ctx : Context) (t : PeerRoundTracker)
    (last_proposed_round : Round) : outcome Round :=
  let! received := compute_received_quorum_rounds ctx t in
  let! accepted := compute_accepted_quorum_rounds ctx t in
  let! r := vec_get received (own_index ctx) in
  let! a := vec_get accepted (own_index ctx) in
  Ok (N.min (saturating_sub last_proposed_round r.1) (saturating_sub last_proposed_round a.1)).

(** ** Quorum rounds *)

Lemma fst_sorted_asc (l : list (N * N)) :
  StronglySorted (λ p q, (p.1 <=? q.1)) (sort_by ord_leb l).
Proof.
  assert (StronglySorted (λ a b : N * N, ord_leb a b) (sort_by ord_leb l)) as Hs.
  { apply sort_by_sorted; intros.
    - apply ord_leb_total.
    - by eapply ord_leb_trans. }
  revert Hs. generalize (sort_by (@ord_leb (N * N) _) l). clear l.
  induction 1 as [|[x w] l Hl IH Hx]; constructor; [done|].
  eapply Forall_impl; [exact Hx|]. intros [y w'] Hle. cbn in *.
  apply Is_true_true in Hle. apply Is_true_true. unfold ord_leb, cmp, ord_prod in Hle. cbn in Hle.
  unfold cmp at 1, ord_N in Hle. apply N.leb_le.
  destruct (N.compare_spec x y); cbn in Hle; lia || done.
Qed.

Lemma StronglySorted_reverse {A} (R : A → A → Prop) l :
  StronglySorted R l → StronglySorted (flip R) (reverse l).
Proof.
  induction 1 as [|x l Hl IH Hx]; [constructor|]. rewrite reverse_cons.
  apply StronglySorted_app_2; [|done|repeat constructor].
  intros y1 y2 Hy1 ->%list_elem_of_singleton. cbn. rewrite Forall_forall in Hx.
  apply Hx. by apply elem_of_reverse.
Qed.

Section bounds.
Context (c : Committee) (Hc : committee_ok c) (v : list Round).
Hypothesis Hlen : length v = committee_size c.

(** The specification of a quorum round: [low] is the largest round a quorum
    stands at or above, [high] the smallest round a quorum stands at or below. *)
Record is_quorum_round (low high : Round) : Prop := {
  low_quorum : quorum_threshold c ≤ set_stake c (authorities_where v (λ x, low <=? x));
  low_max r : low < r → set_stake c (authorities_where v (λ x, r <=? x)) < quorum_threshold c;
  high_quorum : quorum_threshold c ≤ set_stake c (authorities_where v (λ x, x <=? high));
  high_min r : r < high → set_stake c (authorities_where v (λ x, x <=? r)) < quorum_threshold c;
}.

Lemma scan_total_Some (l : list (N * N)) :
  l ≡ₚ with_stakes c v →
  ∃ x, scan_until (λ total, quorum_threshold c <=? total) 0 l = Some x.
Proof using Hc Hlen.
  intros Hperm. destruct (scan_until _ 0 l) as [x|] eqn:Hscan; [eauto|].
  apply (scan_until_None _ (quorum_threshold c)) in Hscan.
  - rewrite Hperm, sum_with_stakes in Hscan by done. pose proof (quorum_le_total c Hc). lia.
  - done.
  - rewrite Hperm. by apply with_stakes_bound.
  - by apply quorum_pos.
Qed.

Lemma quorum_bounds_low low high :
  quorum_bounds c (with_stakes c v) = (low, high) →
  quorum_threshold c ≤ set_stake c (authorities_where v (λ x, low <=? x)) ∧
  set_stake c (authorities_where v (λ x, negb (x <=? low))) < quorum_threshold c.
Proof using Hc Hlen.
  unfold quorum_bounds. intros [= Hlow _].
  assert (reverse (sort_by ord_leb (with_stakes c v)) ≡ₚ with_stakes c v) as Hperm
    by (rewrite reverse_Permutation; apply sort_by_perm).
  destruct (scan_total_Some _ Hperm) as [x Hx]. rewrite Hx in Hlow. cbn in Hlow. subst x.
  apply (scan_until_sorted (λ a b, b <=? a) _ (quorum_threshold c)) in Hx as (_ & H1 & H2).
  - rewrite Hperm, weight_with_stakes in H1, H2 by done. done.
  - done.
  - apply (StronglySorted_reverse (λ p q : N * N, p.1 <=? q.1)), fst_sorted_asc.
  - apply N.leb_refl.
  - rewrite Hperm. by apply with_stakes_bound.
  - by apply quorum_pos.
Qed.

Lemma quorum_bounds_high low high :
  quorum_bounds c (with_stakes c v) = (low, high) →
  quorum_threshold c ≤ set_stake c (authorities_where v (λ x, x <=? high)) ∧
  set_stake c (authorities_where v (λ x, negb (high <=? x))) < quorum_threshold c.
Proof using Hc Hlen.
  unfold quorum_bounds. intros [= _ Hhigh].
  assert (sort_by ord_leb (with_stakes c v) ≡ₚ with_stakes c v) as Hperm by apply sort_by_perm.
  destruct (scan_total_Some _ Hperm) as [x Hx]. rewrite Hx in Hhigh. cbn in Hhigh. subst x.
  apply (scan_until_sorted (λ a b, a <=? b) _ (quorum_threshold c)) in Hx as (_ & H1 & H2).
  - rewrite Hperm, weight_with_stakes in H1, H2 by done. done.
  - done.
  - apply fst_sorted_asc.
  - apply N.leb_refl.
  - rewrite Hperm. by apply with_stakes_bound.
  - by apply quorum_pos.
Qed.

Lemma authorities_where_mono (P Q : N → bool) :
  (∀ x, P x = true → Q x = true) → authorities_where v P ⊆ authorities_where v Q.
Proof using Type. intros HPQ i. rewrite !elem_of_authorities_where. naive_solver. Qed.

Lemma quorum_bounds_spec low high :
  quorum_bounds c (with_stakes c v) = (low, high) → is_quorum_round low high.
Proof using Hc Hlen.
  intros Hq. destruct (quorum_bounds_low low high Hq) as [L1 L2].
  destruct (quorum_bounds_high low high Hq) as [H1 H2]. split; [done| |done|]; intros r Hr.
  - eapply N.le_lt_trans; [|exact L2]. apply set_stake_mono, authorities_where_mono.
    intros x Hx%N.leb_le. apply negb_true_iff, N.leb_gt. lia.
  - eapply N.le_lt_trans; [|exact H2]. apply set_stake_mono, authorities_where_mono.
    intros x Hx%N.leb_le. apply negb_true_iff, N.leb_gt. lia.
Qed.

Lemma is_quorum_round_ordered low high : is_quorum_round low high → low ≤ high.
Proof using Hc Hlen.
  clear Hlen. intros [L1 _ H1 _]. pose proof (quorum_overlap c _ _ Hc L1 H1) as Hov.
  pose proof (validity_pos c Hc).
  destruct (set_choose_or_empty
    (authorities_where v (λ x, low <=? x) ∩ authorities_where v (λ x, x <=? high))) as [[i Hi]|He].
  - apply elem_of_intersection in Hi as [Hx Hy].
    apply elem_of_authorities_where in Hx as (x & Hx & Hlx), Hy as (y & Hy & Hly).
    simplify_eq. apply N.leb_le in Hlx, Hly. lia.
  - apply leibniz_equiv in He. rewrite He, set_stake_empty in Hov. lia.
Qed.

(** Any faulty set of at most f stake leaves honest reporters on both sides. *)
Lemma is_quorum_round_bft low high faulty :
  is_quorum_round low high → set_stake c faulty < validity_threshold c →
  (∃ i x, ¬ (i ∈ faulty) ∧ v !! i = Some x ∧ x ≤ low) ∧
  (∃ j y, ¬ (j ∈ faulty) ∧ v !! j = Some y ∧ high ≤ y).
Proof using Hc Hlen.
  intros [_ Lm _ Hm] Hf. pose proof (committee_thresholds c Hc) as Hth. split.
  - destruct (honest_reporter c v (λ x, x <=? low) faulty Hc Hf) as (i & x & Hi & Hx & Hle).
    { pose proof (stake_complement c v Hlen (λ x, x <=? low) Hc) as Hsum.
      specialize (Lm (low + 1) ltac:(lia)).
      assert (set_stake c (authorities_where v (λ x, negb (x <=? low)))
              ≤ set_stake c (authorities_where v (λ x, low + 1 <=? x))).
      { apply set_stake_mono, authorities_where_mono. intros x Hx.
        apply negb_true_iff, N.leb_gt in Hx. apply N.leb_le. lia. }
      lia. }
    apply N.leb_le in Hle. eauto.
  - destruct (honest_reporter c v (λ x, high <=? x) faulty Hc Hf) as (i & x & Hi & Hx & Hle).
    { pose proof (stake_complement c v Hlen (λ x, high <=? x) Hc) as Hsum.
      destruct (N.eq_dec high 0) as [->|Hnz].
      - assert (set_stake c (authorities_where v (λ x, negb (0 <=? x))) = 0) as Hz.
        { apply set_stake_zero. intros i (x & _ & Hx)%elem_of_authorities_where.
          apply negb_true_iff, N.leb_gt in Hx. lia. }
        lia.
      - specialize (Hm (high - 1) ltac:(lia)).
        assert (set_stake c (authorities_where v (λ x, negb (high <=? x)))
                ≤ set_stake c (authorities_where v (λ x, x <=? high - 1))).
        { apply set_stake_mono, authorities_where_mono. intros x Hx.
          apply negb_true_iff, N.leb_gt in Hx. apply N.leb_le. lia. }
        lia. }
    apply N.leb_le in Hle. eauto.
Qed.
End bounds.

(** The column of reports about one authority. *)
Definition column (rows : list (list Round)) (target : AuthorityIndex) : list Round :=
  (λ row, default 0 (row !! target)) <$> rows.

Lemma compute_quorum_round_eq c target rows :
  length rows = committee_size c → (∀ row, row ∈ rows → (target < length row)%nat) →
  compute_quorum_round c target rows = Ok (quorum_bounds c (with_stakes c (column rows target))).
Proof.
  intros Hlen Hrow. unfold compute_quorum_round.
  rewrite (map_each_pure _ (λ p : list Round * Authority, (default 0 (p.1 !! target), stake p.2))).
  - cbn. do 2 f_equal. unfold with_stakes, column.
    apply (fmap_zip_pair (λ row : list Round, default 0 (row !! target)) stake).
  - intros [row a] Hin. cbn. apply elem_of_zip_l in Hin.
    destruct (lookup_lt_is_Some_2 row target (Hrow row Hin)) as [x Hx].
    unfold vec_get. by rewrite Hx.
Qed.

(** For well-shaped reports [compute_quorum_round] returns the
    pair of the largest round a quorum stands at or above and the smallest round
    a quorum stands at or below; the pair is ordered, so the gap reported in the
    metrics does not underflow. *)
Theorem compute_quorum_round_spec c target rows :
  committee_ok c → length rows = committee_size c →
  (∀ row, row ∈ rows → (target < length row)%nat) →
  ∃ low high, compute_quorum_round c target rows = Ok (low, high) ∧
    is_quorum_round c (column rows target) low high ∧ low ≤ high.
Proof.
  intros Hc Hlen Hrow. rewrite compute_quorum_round_eq by done.
  destruct (quorum_bounds c _) as [low high] eqn:Hq. exists low, high.
  assert (length (column rows target) = committee_size c) by (unfold column; by rewrite length_fmap).
  assert (is_quorum_round c (column rows target) low high) by (by apply quorum_bounds_spec).
  split; [done|]. split; [done|]. by eapply is_quorum_round_ordered.
Qed.

Definition witness_rows : list (list Round) :=
  [[10; 11; 12; 13]; [5; 2; 7; 4]; [0; 0; 0; 0]; [3; 4; 5; 6]].

Lemma compute_quorum_round_spec_witness :
  ∃ low high, compute_quorum_round committee4 2 witness_rows = Ok (low, high) ∧
    is_quorum_round committee4 (column witness_rows 2) low high ∧ low ≤ high.
Proof.
  apply (compute_quorum_round_spec committee4 2 witness_rows).
  - apply committee4_ok.
  - reflexivity.
  - apply Forall_forall. repeat constructor; cbn; lia.
Defined.

(** A quorum round is Byzantine-tolerant: whatever rounds authorities
    holding at most f stake report, some honest authority is at or below [low]
    and some honest authority is at or above [high]. *)
Theorem quorum_round_between_honest c target rows low high faulty :
  committee_ok c → length rows = committee_size c →
  (∀ row, row ∈ rows → (target < length row)%nat) →
  compute_quorum_round c target rows = Ok (low, high) →
  set_stake c faulty < validity_threshold c →
  (∃ i x, ¬ (i ∈ faulty) ∧ column rows target !! i = Some x ∧ x ≤ low) ∧
  (∃ j y, ¬ (j ∈ faulty) ∧ column rows target !! j = Some y ∧ high ≤ y).
Proof.
  intros Hc Hlen Hrow Hcomp Hf. rewrite compute_quorum_round_eq in Hcomp by done.
  assert (quorum_bounds c (with_stakes c (column rows target)) = (low, high)) as Hq by congruence.
  assert (length (column rows target) = committee_size c) by (unfold column; by rewrite length_fmap).
  apply (is_quorum_round_bft c Hc); [done| |done]. by apply quorum_bounds_spec.
Qed.

Lemma quorum_round_between_honest_witness :
  (∃ i x, ¬ (i ∈ ({[0%nat]} : gset nat)) ∧ column witness_rows 2 !! i = Some x ∧ x ≤ 5) ∧
  (∃ j y, ¬ (j ∈ ({[0%nat]} : gset nat)) ∧ column witness_rows 2 !! j = Some y ∧ 7 ≤ y).
Proof.
  apply (quorum_round_between_honest committee4 2 witness_rows 5 7 {[0%nat]}).
  - apply committee4_ok.
  - reflexivity.
  - apply Forall_forall. repeat constructor; cbn; lia.
  - vm_compute. reflexivity.
  - vm_compute. reflexivity.
Defined.

(** ** Updates from blocks *)

Definition cell (rows : list (list Round)) (a b : AuthorityIndex) : option Round :=
  match rows !! a with Some row => row !! b | None => None end.

Lemma raise_round_cell rows a b r rows' a' b' :
  raise_round rows a b r = Ok rows' →
  cell rows' a' b' = if decide (a' = a ∧ b' = b) then N.max r <$> cell rows a b else cell rows a' b'.
Proof.
  unfold raise_round. intros H. outcome_inv. unfold cell.
  destruct (decide (a' = a)) as [->|Ha].
  - rewrite list_lookup_insert_eq, E by done. destruct (decide (b' = b)) as [->|Hb].
    + rewrite list_lookup_insert_eq by done. rewrite decide_True by done. rewrite E0. cbn. f_equal. lia.
    + rewrite list_lookup_insert_ne by done. by rewrite decide_False by naive_solver.
  - rewrite list_lookup_insert_ne by done. by rewrite decide_False by naive_solver.
Qed.

Definition raise_all (b : AuthorityIndex) (refs : list BlockRef) (x : Round) : Round :=
  foldl (λ m r, if decide (ref_author r = b) then N.max (ref_round r) m else m) x refs.

Lemma raise_refs_cell a refs rows rows' a' b' :
  for_each (λ rs anc, raise_round rs a (ref_author anc) (ref_round anc)) rows refs = Ok rows' →
  cell rows' a' b' = if decide (a' = a) then raise_all b' refs <$> cell rows a' b' else cell rows a' b'.
Proof.
  revert rows. induction refs as [|r refs IH]; intros rows; cbn.
  { intros [= ->]. case_decide; [|done]. by destruct (cell rows' a' b'). }
  intros (rows1 & H1 & H2)%bind_Ok. rewrite (IH rows1 H2).
  rewrite (raise_round_cell _ _ _ _ _ a' b' H1).
  destruct (decide (a' = a)) as [->|Ha]; [|by rewrite decide_False by naive_solver].
  destruct (decide (b' = ref_author r)) as [->|Hb].
  - rewrite decide_True by done. destruct (cell rows a (ref_author r)); [|done]. cbn.
    unfold raise_all; cbn. by rewrite decide_True.
  - rewrite decide_False by naive_solver. destruct (cell rows a b'); [|done]. cbn.
    unfold raise_all; cbn. by rewrite decide_False.
Qed.

(** A verified block raises exactly its author's row: the entry
    for [b] becomes the maximum of its old value and the rounds of the block
    itself (when [b] is the author), its ancestors and its excluded ancestors
    authored by [b]. *)
Theorem update_from_verified_block_spec t eb t' a b :
  update_from_verified_block t eb = Ok t' →
  cell (block_accepted_rounds t') a b =
    (if decide (a = author (eb_block eb))
     then raise_all b (reference (eb_block eb) :: ancestors (eb_block eb) ++ excluded_ancestors eb)
            <$> cell (block_accepted_rounds t) a b
     else cell (block_accepted_rounds t) a b) ∧
  probed_accepted_rounds t' = probed_accepted_rounds t ∧
  probed_received_rounds t' = probed_received_rounds t.
Proof.
  unfold update_from_verified_block. intros H.
  apply bind_Ok in H as (r1 & H1 & H). apply bind_Ok in H as (r2 & H2 & H).
  apply bind_Ok in H as (r3 & H3 & H). injection H as <-. cbn. split; [|done].
  rewrite (raise_refs_cell _ _ _ _ a b H3), (raise_refs_cell _ _ _ _ a b H2).
  rewrite (raise_round_cell _ _ _ _ _ a b H1).
  destruct (decide (a = author (eb_block eb))) as [->|Ha]; [|by rewrite decide_False by naive_solver].
  destruct (decide (b = author (eb_block eb))) as [->|Hb].
  - rewrite decide_True by done. destruct (cell _ _ _) as [x|]; [|done].
    unfold raise_all. cbn. by rewrite decide_True, foldl_app by done.
  - rewrite decide_False by naive_solver. destruct (cell _ _ _) as [x|]; [|done].
    unfold raise_all. cbn. by rewrite decide_False, foldl_app by naive_solver.
Qed.

Definition tracked_block : ExtendedBlock :=
  mkExtendedBlock (test_block 6 0 1 0 [mkBlockRef 5 0 0; mkBlockRef 5 1 0]) [mkBlockRef 4 2 0].

Definition tracked_after : PeerRoundTracker :=
  mkPeerRoundTracker [[6; 5; 4; 0]; [0; 0; 0; 0]; [0; 0; 0; 0]; [0; 0; 0; 0]]
    (replicate 4 (replicate 4 0)) (replicate 4 (replicate 4 0)).

Lemma update_from_verified_block_spec_witness :
  cell (block_accepted_rounds tracked_after) 0 2 = Some 4.
Proof.
  pose proof (update_from_verified_block_spec (peer_round_tracker_new context4) tracked_block
    tracked_after 0 2 ltac:(vm_compute; reflexivity)) as [H _].
  rewrite H. vm_compute. reflexivity.
Defined.

(** The propagation delay is the distance from the last proposed
    round down to the better of the two quorum lower bounds of this authority,
    and 0 when a quorum is already at or past it. *)
Theorem propagation_delay_spec ctx t last delay :
  calculate_propagation_delay ctx t last = Ok delay →
  ∃ received accepted r a,
    compute_received_quorum_rounds ctx t = Ok received ∧
    compute_accepted_quorum_rounds ctx t = Ok accepted ∧
    received !! own_index ctx = Some r ∧ accepted !! own_index ctx = Some a ∧
    delay = last - N.max r.1 a.1.
Proof.
  unfold calculate_propagation_delay. intros H. outcome_inv.
  eexists _, _, _, _. repeat split; try done. unfold saturating_sub. lia.
Qed.

Lemma propagation_delay_spec_witness :
  ∃ received accepted r a,
    compute_received_quorum_rounds context4 tracked_after = Ok received ∧
    compute_accepted_quorum_rounds context4 tracked_after = Ok accepted ∧
    received !! own_index context4 = Some r ∧ accepted !! own_index context4 = Some a ∧
    6 = 6 - N.max r.1 a.1.
Proof. apply (propagation_delay_spec context4 tracked_after 6 6). vm_compute. reflexivity. Defined.
