(* ===== verification/LeaderScoring.v ===== *)
(** * Reputation scoring ([core/src/leader_scoring.rs])

    [ScoringSubdag] collects, over the committed sub-dags, the votes for committed
    leaders and the stake of the blocks that strongly link each vote.  The
    theorem gives the scores in closed form over the committed blocks. *)

From S2P Require Import Prelude Collections Weighted Committee Types Fixtures Commits StakeAggregator.

Local Open Scope N_scope.

(** ** Reputation scores *)

Definition highest_score (s : ReputationScores) : N :=
  foldr N.max 0 (scores_per_authority s).

Definition authorities_by_score (c : Committee) (s : ReputationScores) :
    outcome (list (AuthorityIndex * N)) :=
  map_each (λ p : nat * N,
      let! i := expect (to_authority_index c p.1) "Should be a valid AuthorityIndex" in Ok (i, p.2))
    (imap (λ i x, (i, x)) (scores_per_authority s)).

(** ** The scoring sub-dag *)

Record ScoringSubdag := mkScoringSubdag {
  ss_commit_range : option CommitRange;
  ss_leaders : gset BlockRef;
  ss_votes : gmap BlockRef StakeAggregator;
}.

Definition scoring_subdag_new : ScoringSubdag := mkScoringSubdag None ∅ ∅.

(** The two steps of the innermost loop of [add_subdags]: a block that strongly
    links a leader is a vote; a block that strongly links a vote adds its author's
    stake to it. *)
Definition record_vote (leaders : gset BlockRef) (block : VerifiedBlock)
    (votes : gmap BlockRef StakeAggregator) (ancestor : BlockRef) :
    outcome (gmap BlockRef StakeAggregator) :=
  if decide (ancestor ∈ leaders) then
    do! rassert (bool_decide (votes !! reference block = None))
      "Vote already exists. Duplicate vote found for leader" in
    Ok (<[reference block := aggregator_new]> votes)
  else Ok votes.

Definition link_vote (c : Committee) (block : VerifiedBlock)
    (votes : gmap BlockRef StakeAggregator) (ancestor : BlockRef) :
    outcome (gmap BlockRef StakeAggregator) :=
  match votes !! ancestor with
  | Some agg =>
      let! '(agg', _) := add QuorumThreshold c agg (author block) in
      Ok (<[ancestor := agg']> votes)
  | None => Ok votes
  end.

Definition score_ancestor (c : Committee) (leaders : gset BlockRef) (block : VerifiedBlock)
    (votes : gmap BlockRef StakeAggregator) (ancestor : BlockRef) :
    outcome (gmap BlockRef StakeAggregator) :=
  if negb (ref_round ancestor =? saturating_sub (round block) 1) then Ok votes
  else let! votes := record_vote leaders block votes ancestor in
       link_vote c block votes ancestor.

Definition score_block (c : Committee) (leaders : gset BlockRef)
    (votes : gmap BlockRef StakeAggregator) (block : VerifiedBlock) :
    outcome (gmap BlockRef StakeAggregator) :=
  for_each (score_ancestor c leaders block) votes (ancestors block).

Definition add_subdag (c : Committee) (ss : ScoringSubdag) (subdag : CommittedSubDag) :
    outcome ScoringSubdag :=
  let index := cref_index (sd_commit_ref subdag) in
  let! commit_range :=
    match ss_commit_range ss with
    | None => Ok (commit_range_new index index)
    | Some r => extend_to r index
    end in
  let leaders := {[sd_leader subdag]} ∪ ss_leaders ss in
  let! votes := for_each (score_block c leaders) (ss_votes ss) (sd_blocks subdag) in
  Ok (mkScoringSubdag (Some commit_range) leaders votes).

Definition add_subdags (c : Committee) (ss : ScoringSubdag) (subdags : list CommittedSubDag) :
    outcome ScoringSubdag :=
  for_each (add_subdag c) ss subdags.

Definition add_score (scores : list N) (p : BlockRef * StakeAggregator) : outcome (list N) :=
  let a := ref_author p.1 in
  let! old := vec_get scores a in
  vec_set scores a (u64_add old (agg_stake p.2)).
Definition distributed_votes_scores (c : Committee) (ss : ScoringSubdag) : outcome (list N) :=
  for_each add_score (replicate (committee_size c) 0) (btree_iter (ss_votes ss)).

Definition calculate_distributed_vote_scores (c : Committee) (ss : ScoringSubdag) :
    outcome ReputationScores :=
  let! scores := distributed_votes_scores c ss in
  let! r := expect (ss_commit_range ss)
    "CommitRange should be set if calculate_scores is called." in
  Ok (mkReputationScores scores r).

Definition scored_subdags_count (ss : ScoringSubdag) : outcome N :=
  match ss_commit_range ss with Some r => range_size r | None => Ok 0 end.

Definition scoring_subdag_is_empty (ss : ScoringSubdag) : bool :=
  bool_decide (ss_leaders ss = ∅) && bool_decide (ss_votes ss = ∅) &&
  bool_decide (ss_commit_range ss = None).

Definition scoring_subdag_clear (ss : ScoringSubdag) : ScoringSubdag := scoring_subdag_new.

(** ** Specification *)

(** The strong links of a block: its ancestors of the previous round. *)
Definition strong_links (b : VerifiedBlock) : list BlockRef :=
  filter (λ r, ref_round r = round b - 1) (ancestors b).

(** The authorities whose blocks strongly link [v]. *)
Definition linkers (blocks : list VerifiedBlock) (v : BlockRef) : gset AuthorityIndex :=
  list_to_set (author <$> filter (λ b, v ∈ strong_links b) blocks).

Definition votes_for (leaders : gset BlockRef) (b : VerifiedBlock) : Prop :=
  ∃ l, l ∈ leaders ∧ l ∈ strong_links b.
#[export] Instance votes_for_dec leaders b : base.Decision (votes_for leaders b).
Proof.
  refine (cast_if (decide (Exists (λ l, l ∈ leaders) (strong_links b))));
    unfold votes_for; rewrite Exists_exists in *; naive_solver.
Defined.

(** The score of [a]: over its blocks that vote for a committed leader, the stake
    of the authorities that strongly link that block. *)
Definition score_spec (c : Committee) (leaders : gset BlockRef) (blocks : list VerifiedBlock)
    (a : AuthorityIndex) : N :=
  sumN ((λ b, set_stake c (linkers blocks (reference b))) <$>
    filter (λ b, author b = a ∧ votes_for leaders b) blocks) `mod` u64_modulus.

Definition all_leaders (subdags : list CommittedSubDag) : gset BlockRef :=
  list_to_set (sd_leader <$> subdags).
Definition all_blocks (subdags : list CommittedSubDag) : list VerifiedBlock :=
  subdags ≫= sd_blocks.

(** What a sequence of committed sub-dags looks like: [done] holds the blocks
    already scored.  A block comes after its strong links, its author is valid, it
    strongly links at most one leader, and no leader is linked by a block of an
    earlier sub-dag. *)
Definition block_wf (c : Committee) (leaders : gset BlockRef) (prior : list VerifiedBlock)
    (b : VerifiedBlock) : Prop :=
  (author b < committee_size c)%nat ∧ 0 < round b ∧ NoDup (strong_links b) ∧
  (length (filter (λ l, l ∈ leaders) (strong_links b)) ≤ 1)%nat ∧
  ¬ (reference b ∈ reference <$> prior) ∧
  Forall (λ d, reference b ∉ strong_links d) prior.

Fixpoint blocks_wf (c : Committee) (leaders : gset BlockRef) (prior bs : list VerifiedBlock) : Prop :=
  match bs with
  | [] => True
  | b :: bs' => block_wf c leaders prior b ∧ blocks_wf c leaders (prior ++ [b]) bs'
  end.

Fixpoint subdags_wf (c : Committee) (leaders : gset BlockRef) (prior : list VerifiedBlock)
    (next : CommitIndex) (subdags : list CommittedSubDag) : Prop :=
  match subdags with
  | [] => True
  | sd :: rest =>
      cref_index (sd_commit_ref sd) = next ∧ next < u32_max ∧
      Forall (λ d, sd_leader sd ∉ strong_links d) prior ∧
      blocks_wf c ({[sd_leader sd]} ∪ leaders) prior (sd_blocks sd) ∧
      subdags_wf c ({[sd_leader sd]} ∪ leaders) (prior ++ sd_blocks sd) (next + 1) rest
  end.

#[export] Instance block_wf_dec c leaders prior b : base.Decision (block_wf c leaders prior b).
Proof. apply _. Defined.
#[export] Instance blocks_wf_dec c leaders prior bs : base.Decision (blocks_wf c leaders prior bs).
Proof. revert prior. induction bs; intros prior; apply _. Defined.
#[export] Instance subdags_wf_dec c leaders prior next subdags :
  base.Decision (subdags_wf c leaders prior next subdags).
Proof. revert leaders prior next. induction subdags; intros; apply _. Defined.

Lemma at_most_one {A} (P : A → Prop) `{∀ x, base.Decision (P x)} (l : list A) x y :
  (length (filter P l) ≤ 1)%nat → P x → P y → x ∈ l → y ∈ l → x = y.
Proof.
  intros Hlen Px Py Hx Hy.
  assert (x ∈ filter P l) as Hx' by (by apply list_elem_of_filter).
  assert (y ∈ filter P l) as Hy' by (by apply list_elem_of_filter).
  destruct (filter P l) as [|z [|]]; cbn in Hlen; [set_solver|set_solver|lia].
Qed.

(** ** The loop invariant *)

Record votes_inv (c : Committee) (leaders : gset BlockRef) (prior : list VerifiedBlock)
    (votes : gmap BlockRef StakeAggregator) : Prop := {
  vi_dom v : is_Some (votes !! v) ↔ ∃ b, b ∈ prior ∧ reference b = v ∧ votes_for leaders b;
  vi_agg v agg : votes !! v = Some agg → agg_ok c agg ∧ agg_votes agg = linkers prior v;
  vi_nodup : NoDup (reference <$> prior);
  vi_author b : b ∈ prior → (author b < committee_size c)%nat;
}.

Lemma linkers_app l1 l2 v : linkers (l1 ++ l2) v = linkers l1 v ∪ linkers l2 v.
Proof. unfold linkers. by rewrite filter_app, fmap_app, list_to_set_app_L. Qed.

Lemma linkers_singleton b v :
  linkers [b] v = if decide (v ∈ strong_links b) then {[author b]} else ∅.
Proof. unfold linkers. rewrite filter_cons, filter_nil. case_decide; [|done]. cbn. set_solver. Qed.

(** The votes in the middle of scoring [b]: its strong links [pl] have been looked
    up among the leaders, its strong links [pk] among the votes. *)
Record partial_inv (c : Committee) (leaders : gset BlockRef) (b : VerifiedBlock)
    (votes0 : gmap BlockRef StakeAggregator) (pl pk : list BlockRef)
    (votes : gmap BlockRef StakeAggregator) : Prop := {
  pi_dom v : is_Some (votes !! v) ↔
    is_Some (votes0 !! v) ∨ v = reference b ∧ ∃ l, l ∈ leaders ∧ l ∈ pl;
  pi_agg v agg : votes !! v = Some agg → agg_ok c agg ∧
    agg_votes agg = from_option agg_votes ∅ (votes0 !! v) ∪
      (if decide (v ∈ pk) then {[author b]} else ∅);
}.

Section score_block.
Context (c : Committee) (leaders : gset BlockRef) (prior : list VerifiedBlock) (b : VerifiedBlock).
Context (votes0 : gmap BlockRef StakeAggregator).
Hypothesis Hc : committee_ok c.
Hypothesis Hb : block_wf c leaders prior b.
Hypothesis Hinv : votes_inv c leaders prior votes0.

Lemma fresh_vote : votes0 !! reference b = None.
Proof using Hb Hinv.
  apply eq_None_not_Some. intros (d & Hd & Href & _)%(vi_dom _ _ _ _ Hinv).
  destruct Hb as (_ & _ & _ & _ & Hfresh & _). apply Hfresh. rewrite <-Href.
  by apply list_elem_of_fmap_2.
Qed.

Lemma own_ref_not_linked : reference b ∉ strong_links b.
Proof using Hb.
  destruct Hb as (_ & Hpos & _). intros [Hr _]%list_elem_of_filter. cbn in Hr. lia.
Qed.

Lemma record_vote_inv pre x votes :
  partial_inv c leaders b votes0 pre pre votes → NoDup (pre ++ [x]) → pre ++ [x] ⊆ strong_links b →
  ∃ votes', record_vote leaders b votes x = Ok votes' ∧
    partial_inv c leaders b votes0 (pre ++ [x]) pre votes'.
Proof using Hb Hinv.
  clear Hc. intros [Hdom Hagg] Hnd Hsub. unfold record_vote. case_decide as Hx.
  - assert (votes !! reference b = None) as Hnone.
    { apply eq_None_not_Some. intros [Hs|(_ & l & Hl & Hin)]%Hdom.
      - rewrite fresh_vote in Hs. by destruct Hs.
      - destruct Hb as (_ & _ & _ & Hone & _).
        assert (l = x) as -> by (apply (at_most_one (λ l, l ∈ leaders) (strong_links b)); [done|done|done|..];
          apply Hsub, elem_of_app; [by left|right; left]).
        apply NoDup_app in Hnd as (_ & Hdisj & _). apply (Hdisj x); [done|left]. }
    rewrite bool_decide_eq_true_2 by done. eexists; split; [done|]. split.
    + intros v. rewrite lookup_insert_is_Some', Hdom.
      setoid_rewrite elem_of_app. setoid_rewrite list_elem_of_singleton. naive_solver.
    + intros v agg [[<- <-]|[_ Hv]]%lookup_insert_Some; [|by apply Hagg].
      split; [apply agg_ok_new|]. rewrite fresh_vote. rewrite decide_False; [cbn; set_solver|].
      intros Hin. apply own_ref_not_linked, Hsub. set_solver.
  - exists votes. split; [done|]. split; [|done]. intros v. rewrite Hdom.
    setoid_rewrite elem_of_app. setoid_rewrite list_elem_of_singleton. naive_solver.
Qed.

Lemma link_vote_inv pl pk x votes :
  partial_inv c leaders b votes0 pl pk votes → x ∉ pk →
  ∃ votes', link_vote c b votes x = Ok votes' ∧
    partial_inv c leaders b votes0 pl (pk ++ [x]) votes'.
Proof using Hc Hb.
  clear Hinv. intros [Hdom Hagg] Hx. unfold link_vote.
  assert (Hother : ∀ v agg, votes !! v = Some agg → v ≠ x → agg_ok c agg ∧
    agg_votes agg = from_option agg_votes ∅ (votes0 !! v) ∪
      (if decide (v ∈ pk ++ [x]) then {[author b]} else ∅)).
  { intros v agg Hv Hvx. destruct (Hagg v agg Hv) as [Hok ->]. split; [done|].
    by rewrite (decide_ext (v ∈ pk ++ [x]) (v ∈ pk)) by set_solver. }
  destruct (votes !! x) as [agg|] eqn:Hvx.
  - destruct (Hagg x agg Hvx) as [Hok Hvotes]. rewrite decide_False, union_empty_r_L in Hvotes by done.
    destruct (add_spec QuorumThreshold c agg (author b) Hc Hok) as (agg' & -> & Hok' & Hv');
      [by destruct Hb|]. cbn [obind].
    eexists; split; [done|]. split.
    + intros v. rewrite lookup_insert_is_Some', <-Hdom. split; [|tauto].
      intros [<-|?]; [|done]. rewrite Hvx. by eexists.
    + intros v a [[<- <-]|[Hne Hv]]%lookup_insert_Some; [|by apply Hother].
      split; [done|]. rewrite Hv', Hvotes, decide_True by set_solver. set_solver.
  - exists votes. split; [done|]. split; [done|]. intros v a Hv. apply Hother; congruence.
Qed.

Lemma score_ancestors_inv anc : ∀ pre votes,
  partial_inv c leaders b votes0 pre pre votes →
  strong_links b = pre ++ filter (λ r, ref_round r = round b - 1) anc →
  ∃ votes', for_each (score_ancestor c leaders b) votes anc = Ok votes' ∧
    partial_inv c leaders b votes0 (strong_links b) (strong_links b) votes'.
Proof using Hc Hb Hinv.
  induction anc as [|x anc IH]; intros pre votes Hpi Hstrong.
  { exists votes. split; [done|]. by rewrite Hstrong, filter_nil, app_nil_r. }
  cbn [for_each]. unfold score_ancestor at 1, saturating_sub. rewrite filter_cons in Hstrong.
  destruct (N.eqb_spec (ref_round x) (round b - 1)) as [Hr|Hr]; cbn [negb].
  - rewrite decide_True in Hstrong by done.
    assert (Hstrong' : strong_links b = (pre ++ [x]) ++ filter (λ r, ref_round r = round b - 1) anc)
      by (by rewrite Hstrong, <-app_assoc).
    assert (Hnd : NoDup (strong_links b)) by (by destruct Hb as (_ & _ & ? & _)).
    rewrite Hstrong' in Hnd. apply NoDup_app in Hnd as (Hnd & _ & _).
    destruct (record_vote_inv pre x votes Hpi Hnd) as (v1 & -> & Hpi1).
    { rewrite Hstrong'. intros y Hy. apply elem_of_app. by left. }
    apply NoDup_app in Hnd as (_ & Hdisj & _).
    destruct (link_vote_inv (pre ++ [x]) pre x v1 Hpi1) as (v2 & Hv2 & Hpi2).
    { intros Hin. apply (Hdisj x Hin). left. }
    cbn [obind]. rewrite Hv2. cbn [obind]. by apply (IH (pre ++ [x])).
  - rewrite decide_False in Hstrong by done. cbn [obind]. by apply (IH pre).
Qed.

Lemma score_block_inv :
  ∃ votes', score_block c leaders votes0 b = Ok votes' ∧ votes_inv c leaders (prior ++ [b]) votes'.
Proof using Hc Hb Hinv.
  destruct (score_ancestors_inv (ancestors b) [] votes0) as (votes' & Hrun & [Hdom Hagg]); [|done|].
  { split; [intros v; setoid_rewrite elem_of_nil; naive_solver|]. intros v agg Hv. rewrite Hv. cbn.
    destruct (vi_agg _ _ _ _ Hinv v agg Hv). split; [done|]. set_solver. }
  exists votes'. split; [done|]. split.
  - intros v. rewrite Hdom, (vi_dom _ _ _ _ Hinv). setoid_rewrite elem_of_app.
    setoid_rewrite list_elem_of_singleton. split.
    + intros [(d & Hd & Href & Hl)|[-> Hl]]; [exists d|exists b]; tauto.
    + intros (d & [Hd| ->] & Href & Hl); [left; by exists d|by right].
  - intros v agg Hv. destruct (Hagg v agg Hv) as [Hok ->]. split; [done|].
    rewrite linkers_app, linkers_singleton. f_equal.
    destruct (votes0 !! v) as [a0|] eqn:Hv0; [by destruct (vi_agg _ _ _ _ Hinv v a0 Hv0)|].
    assert (v = reference b) as ->.
    { destruct (proj1 (Hdom v) ltac:(by eexists)) as [[? ?]|[? _]]; congruence. }
    cbn. symmetry. apply set_eq. intros a. split; [|set_solver].
    unfold linkers. rewrite elem_of_list_to_set, list_elem_of_fmap.
    intros (d & _ & [Hl Hd]%list_elem_of_filter). destruct Hb as (_ & _ & _ & _ & _ & Hno).
    rewrite Forall_forall in Hno. by destruct (Hno d Hd).
  - rewrite fmap_app. apply NoDup_app. split; [by apply (vi_nodup _ _ _ _ Hinv)|].
    destruct Hb as (_ & _ & _ & _ & Hfresh & _).
    split; [|apply NoDup_singleton]. intros r Hr ->%list_elem_of_singleton. done.
  - intros d [Hd| ->%list_elem_of_singleton]%elem_of_app; [by apply (vi_author _ _ _ _ Hinv)|].
    by destruct Hb.
Qed.
End score_block.

Section add_subdags.
Context (c : Committee).
Hypothesis Hc : committee_ok c.

Lemma score_blocks_inv leaders bs : ∀ prior votes,
  votes_inv c leaders prior votes → blocks_wf c leaders prior bs →
  ∃ votes', for_each (score_block c leaders) votes bs = Ok votes' ∧
    votes_inv c leaders (prior ++ bs) votes'.
Proof.
  induction bs as [|b bs IH]; intros prior votes Hinv Hwf.
  { exists votes. by rewrite app_nil_r. }
  destruct Hwf as [Hb Hbs]. cbn [for_each].
  destruct (score_block_inv c leaders prior b votes Hc Hb Hinv) as (v1 & -> & Hinv1). cbn [obind].
  destruct (IH _ _ Hinv1 Hbs) as (v2 & -> & Hinv2). exists v2. by rewrite <-app_assoc in Hinv2.
Qed.

Lemma votes_inv_add_leader leaders l prior votes :
  votes_inv c leaders prior votes → Forall (λ d, l ∉ strong_links d) prior →
  votes_inv c ({[l]} ∪ leaders) prior votes.
Proof.
  intros [Hdom Hagg Hnd Hau] Hl. split; [|done..]. intros v. rewrite Hdom.
  split; intros (b & Hb & Href & l' & Hl' & Hin); exists b; (split; [done|]); (split; [done|]);
    exists l'; (split; [|done]); [set_solver|].
  apply elem_of_union in Hl' as [->%elem_of_singleton|?]; [|done].
  rewrite Forall_forall in Hl. by destruct (Hl b Hb).
Qed.

(** [range_tracks r lo next]: the range covers the commits [lo .. next-1]. *)
Definition range_tracks (r : option CommitRange) (lo next : CommitIndex) : Prop :=
  match r with
  | None => next = lo
  | Some r => lo < next ∧ r = mkCommitRange lo next
  end.

Lemma add_subdags_inv subdags : ∀ prior ss lo next,
  votes_inv c (ss_leaders ss) prior (ss_votes ss) → range_tracks (ss_commit_range ss) lo next →
  subdags_wf c (ss_leaders ss) prior next subdags →
  ∃ ss', add_subdags c ss subdags = Ok ss' ∧
    ss_leaders ss' = ss_leaders ss ∪ all_leaders subdags ∧
    range_tracks (ss_commit_range ss') lo (next + N.of_nat (length subdags)) ∧
    votes_inv c (ss_leaders ss') (prior ++ all_blocks subdags) (ss_votes ss').
Proof.
  induction subdags as [|sd subdags IH]; intros prior ss lo next Hinv Hr Hwf.
  { exists ss. unfold all_leaders, all_blocks. cbn [fmap list_fmap list_to_set mbind list_bind length].
    rewrite app_nil_r, union_empty_r_L, N.add_0_r. done. }
  destruct Hwf as (Hidx & Hmax & Hlead & Hblocks & Hrest).
  unfold add_subdags. cbn [for_each]. unfold add_subdag at 1. rewrite Hidx.
  assert (∃ r, match ss_commit_range ss with
               | None => Ok (commit_range_new next next)
               | Some r => extend_to r next
               end = Ok r ∧ range_tracks (Some r) lo (next + 1)) as (r & -> & Hr').
  { unfold range_tracks in *. destruct (ss_commit_range ss) as [r|]; cbn.
    - destruct Hr as [Hlt ->]. unfold extend_to, u32_saturating_add. cbn [range_hi range_lo].
      rewrite N.min_l by lia. rewrite (proj2 (N.leb_le _ _)) by lia. cbn. eexists; split; [done|].
      split; [lia|done].
    - subst lo. unfold commit_range_new, u32_saturating_add. rewrite N.min_l by lia.
      eexists; split; [done|]. split; [lia|done]. }
  cbn [obind].
  destruct (score_blocks_inv ({[sd_leader sd]} ∪ ss_leaders ss) (sd_blocks sd) prior (ss_votes ss))
    as (votes & -> & Hinv'); [by apply votes_inv_add_leader|done|].
  cbn [obind]. set (ss1 := mkScoringSubdag (Some r) ({[sd_leader sd]} ∪ ss_leaders ss) votes).
  destruct (IH (prior ++ sd_blocks sd) ss1 lo (next + 1) Hinv' Hr' Hrest)
    as (ss' & Hrun & Hl & Hrange & Hfin).
  exists ss'. split; [done|]. split; [|split].
  - rewrite Hl. unfold ss1, all_leaders. cbn. set_solver.
  - cbn [length]. by replace (next + N.of_nat (S (length subdags))) with (next + 1 + N.of_nat (length subdags)) by lia.
  - by rewrite <-app_assoc in Hfin.
Qed.

Lemma subdags_wf_bound subdags : ∀ leaders prior next,
  subdags ≠ [] → subdags_wf c leaders prior next subdags →
  next + N.of_nat (length subdags) ≤ u32_max.
Proof.
  induction subdags as [|sd subdags IH]; intros leaders prior next Hne Hwf; [done|].
  destruct Hwf as (_ & Hmax & _ & _ & Hrest). destruct subdags as [|sd' subdags]; cbn [length]; [lia|].
  specialize (IH _ _ _ ltac:(done) Hrest). cbn [length] in IH. lia.
Qed.

(** ** The scores *)

Lemma u64_add_mod x y : u64_add (x `mod` u64_modulus) y = (x + y) `mod` u64_modulus.
Proof. unfold u64_add. apply N.Div0.add_mod_idemp_l. Qed.

Lemma scores_fold (l : list (BlockRef * StakeAggregator)) : ∀ scores (f : nat → N),
  (∀ p, p ∈ l → (ref_author p.1 < length scores)%nat) →
  (∀ a, (a < length scores)%nat → scores !! a = Some (f a `mod` u64_modulus)) →
  ∃ scores', for_each add_score scores l = Ok scores' ∧
    length scores' = length scores ∧
    ∀ a, (a < length scores)%nat → scores' !! a =
      Some ((f a + sumN ((λ p, agg_stake p.2) <$> filter (λ p, ref_author p.1 = a) l)) `mod` u64_modulus).
Proof.
  induction l as [|p l IH]; intros scores f Hau Hsc.
  { exists scores. split; [done|]. split; [done|]. intros a Ha. rewrite Hsc by done.
    rewrite filter_nil. unfold sumN; cbn. by rewrite N.add_0_r. }
  cbn [for_each]. pose proof (Hau p ltac:(left)) as Hp. unfold add_score at 1, vec_get at 1. rewrite Hsc by done.
  cbn [expect obind]. unfold vec_set at 1. rewrite decide_True by done. cbn [obind].
  rewrite u64_add_mod. set (a0 := ref_author p.1) in *.
  destruct (IH (<[a0 := (f a0 + agg_stake p.2) `mod` u64_modulus]> scores)
    (λ a, f a + (if decide (a0 = a) then agg_stake p.2 else 0))) as (s' & Hrun & Hlen & Hres).
  - intros q Hq. rewrite length_insert. apply Hau. by right.
  - intros a Ha. rewrite length_insert in Ha. case_decide as Heq.
    + subst a. by rewrite list_lookup_insert_eq.
    + rewrite list_lookup_insert_ne, Hsc by done. by rewrite N.add_0_r.
  - rewrite length_insert in Hlen, Hres. exists s'. split; [done|]. split; [done|].
    intros a Ha. rewrite Hres by done. rewrite filter_cons. fold a0.
    case_decide; rewrite ?fmap_cons, ?sumN_cons; do 2 f_equal; lia.
Qed.

Lemma votes_permutation leaders prior votes :
  votes_inv c leaders prior votes →
  (btree_iter votes).*1 ≡ₚ reference <$> filter (votes_for leaders) prior.
Proof.
  intros [Hdom _ Hnd _]. apply NoDup_Permutation.
  - apply NoDup_btree_iter.
  - clear Hdom. induction prior as [|d prior IH]; [constructor|]. csimpl in Hnd.
    apply NoDup_cons in Hnd as [Hd Hnd]. rewrite filter_cons. case_decide; [|auto]. csimpl.
    constructor; [|auto]. rewrite list_elem_of_fmap in Hd |- *.
    intros (x & Hx & [_ Hin]%list_elem_of_filter). apply Hd. by exists x.
  - intros v. rewrite !list_elem_of_fmap. split.
    + intros ([v' agg] & -> & Hin%elem_of_btree_iter).
      destruct (proj1 (Hdom v') ltac:(by eexists)) as (b & Hb & Href & Hl).
      exists b. rewrite list_elem_of_filter. done.
    + intros (b & -> & [Hl Hb]%list_elem_of_filter).
      destruct (proj2 (Hdom (reference b)) ltac:(by exists b)) as [agg Hagg].
      exists (reference b, agg). by rewrite elem_of_btree_iter.
Qed.

Lemma score_sum leaders prior votes a :
  votes_inv c leaders prior votes →
  sumN ((λ p, agg_stake p.2) <$> filter (λ p, ref_author p.1 = a) (btree_iter votes)) =
  sumN ((λ b, set_stake c (linkers prior (reference b))) <$>
    filter (λ b, author b = a ∧ votes_for leaders b) prior).
Proof.
  intros Hinv.
  rewrite (fmap_ext_in _ (λ p, set_stake c (linkers prior p.1))).
  2: { intros [v agg] [_ Hin%elem_of_btree_iter]%list_elem_of_filter.
       destruct (vi_agg _ _ _ _ Hinv v agg Hin) as [Hok Hv]. cbn. rewrite <-Hv.
       apply (agg_stake_eq c agg Hok). }
  trans (sumN ((λ v, set_stake c (linkers prior v)) <$>
    filter (λ v, ref_author v = a) (btree_iter votes).*1)).
  { by rewrite filter_fmap_comm, <-list_fmap_compose. }
  rewrite (votes_permutation leaders prior votes Hinv), filter_fmap_comm, <-list_fmap_compose.
  by rewrite list_filter_filter.
Qed.

(** Committing a sequence of sub-dags and computing the scores never
    panics when every block comes after the blocks it strongly links, links at most
    one leader and every leader comes before the blocks that link it; each
    authority's score is then the sum, over its blocks that vote for a committed
    leader, of the stake of the authorities strongly linking that block, and the
    scores carry the exact range of commits. *)
Theorem distributed_vote_scores_spec subdags first :
  subdags ≠ [] → subdags_wf c ∅ [] first subdags →
  ∃ ss scores, add_subdags c scoring_subdag_new subdags = Ok ss ∧
    calculate_distributed_vote_scores c ss =
      Ok (mkReputationScores scores (commit_range_new first (first + N.of_nat (length subdags) - 1))) ∧
    length scores = committee_size c ∧
    ∀ a, (a < committee_size c)%nat →
      scores !! a = Some (score_spec c (all_leaders subdags) (all_blocks subdags) a).
Proof.
  intros Hne Hwf.
  destruct (add_subdags_inv subdags [] scoring_subdag_new first first) as (ss & Hrun & Hl & Hr & Hinv);
    [|done|done|].
  { split; cbn.
    - intros v. rewrite lookup_empty. split; [by intros [? ?]|]. intros (b & Hb & _). set_solver.
    - intros v agg. by rewrite lookup_empty.
    - constructor.
    - intros b Hb. set_solver. }
  cbn in Hl. rewrite union_empty_l_L in Hl. rewrite Hl in Hinv. cbn [app] in Hinv.
  exists ss.
  destruct (scores_fold (btree_iter (ss_votes ss)) (replicate (committee_size c) 0) (λ _, 0))
    as (scores & Hsc & Hlen & Hval).
  - intros [v agg] Hin%elem_of_btree_iter. rewrite length_replicate. cbn [fst].
    destruct (proj1 (vi_dom _ _ _ _ Hinv v) ltac:(by eexists)) as (b & Hb & <- & _).
    by apply (vi_author _ _ _ _ Hinv).
  - intros a Ha. rewrite length_replicate in Ha. by rewrite lookup_replicate_2.
  - rewrite length_replicate in Hlen, Hval. exists scores. split; [done|]. split; [|split; [done|]].
    + unfold calculate_distributed_vote_scores, distributed_votes_scores. rewrite Hsc. cbn [obind].
      unfold range_tracks in Hr. destruct (ss_commit_range ss) as [r|].
      * destruct Hr as [_ ->]. cbn. unfold commit_range_new, u32_saturating_add.
        assert (first + N.of_nat (length subdags) ≤ u32_max) by (by eapply subdags_wf_bound).
        destruct subdags; [done|]. cbn [length] in *. rewrite N.min_l by lia. do 3 f_equal. lia.
      * destruct subdags; [done|]. cbn [length] in Hr. lia.
    + intros a Ha. rewrite Hval by done. f_equal. unfold score_spec.
      by rewrite N.add_0_l, (score_sum _ _ _ a Hinv).
Qed.
End add_subdags.

(** Two commits: the leader of round 1, and a round-3 leader over the three votes
    for it.  Each vote scores the stake of the one block above it. *)
Definition ws_leader1 : VerifiedBlock := test_block 1 0 10 0 [].
Definition ws_votes : list VerifiedBlock :=
  (λ a, test_block 2 a (20 + N.of_nat a) 0 [reference ws_leader1]) <$> [0; 1; 2]%nat.
Definition ws_leader2 : VerifiedBlock := test_block 3 1 31 0 (reference <$> ws_votes).
Definition ws_subdags : list CommittedSubDag :=
  [committed_sub_dag_new (reference ws_leader1) [ws_leader1] 0 (mkCommitRef 1 0);
   committed_sub_dag_new (reference ws_leader2) (ws_votes ++ [ws_leader2]) 0 (mkCommitRef 2 0)].

Lemma distributed_vote_scores_spec_witness :
  ∃ ss scores, add_subdags committee_heavy scoring_subdag_new ws_subdags = Ok ss ∧
    calculate_distributed_vote_scores committee_heavy ss =
      Ok (mkReputationScores scores (commit_range_new 1 (1 + N.of_nat (length ws_subdags) - 1))) ∧
    length scores = committee_size committee_heavy ∧
    ∀ a, (a < committee_size committee_heavy)%nat →
      scores !! a = Some (score_spec committee_heavy (all_leaders ws_subdags) (all_blocks ws_subdags) a).
Proof.
  apply (distributed_vote_scores_spec committee_heavy committee_heavy_ok ws_subdags 1); [done|].
  apply (bool_decide_unpack _). vm_compute. exact I.
Defined.

Example scores_witness_value :
  (let! ss := add_subdags committee_heavy scoring_subdag_new ws_subdags in
   distributed_votes_scores committee_heavy ss) = Ok [1; 1; 1; 0].
Proof. vm_compute. reflexivity. Qed.
