(* ===== verification/Storage.v ===== *)
(** * Storage ([core/src/storage/mod.rs], [core/src/storage/mem_store.rs])

    The [Store] trait as a type class with the laws its clients rely on, and the
    in-memory implementation with the proof that it meets them.  A method that
    returns [Err] makes every modelled caller panic, so the methods return
    [outcome]. *)

From S2P Require Import Prelude Collections Weighted Committee Types Commits Fixtures.

Local Open Scope N_scope.

Abbreviation RejectedTransactions := (gmap BlockRef (list N)) (only parsing).

Record WriteBatch := mkWriteBatch {
  wb_blocks : list VerifiedBlock;
  wb_commits : list TrustedCommit;
  wb_commit_info : list (CommitRef * CommitInfo);
  wb_finalized_commits : list (CommitRef * RejectedTransactions);
}.

(** The trait. *)
Class Store (S : Type) := {
  write : S → WriteBatch → outcome S;
  read_blocks : S → list BlockRef → outcome (list (option VerifiedBlock));
  store_contains_blocks : S → list BlockRef → outcome (list bool);
  scan_blocks_by_author : S → AuthorityIndex → Round → outcome (list VerifiedBlock);
  scan_last_blocks_by_author : S → AuthorityIndex → N → option Round → outcome (list VerifiedBlock);
  read_last_commit : S → outcome (option TrustedCommit);
  scan_commits : S → CommitRange → outcome (list TrustedCommit);
  read_commit_votes : S → CommitIndex → outcome (list BlockRef);
  read_last_commit_info : S → outcome (option (CommitRef * CommitInfo));
  read_last_finalized_commit : S → outcome (option CommitRef);
  read_rejected_transactions : S → CommitRef → outcome (option RejectedTransactions);
}.

(** A reference as it can be decoded from the wire: a [u32] round, a 32-byte digest. *)
Definition ref_wf (r : BlockRef) : Prop := ref_round r ≤ u32_max ∧ ref_digest r ≤ DIGEST_MAX.
Definition cref_wf (r : CommitRef) : Prop := cref_index r ≤ u32_max ∧ cref_digest r ≤ DIGEST_MAX.

(** Inserting blocks (commits) under their own reference. *)
Definition insert_blocks (bs : list VerifiedBlock) (m : gmap BlockRef VerifiedBlock) :
    gmap BlockRef VerifiedBlock :=
  foldl (λ m b, <[reference b := b]> m) m bs.
Definition insert_commits (cs : list TrustedCommit) (m : gmap CommitRef TrustedCommit) :
    gmap CommitRef TrustedCommit :=
  foldl (λ m c, <[commit_reference c := c]> m) m cs.

(** What a store promises: it is a finite map of blocks and one of commits. *)
Class StoreLaws (S : Type) `{Store S} := {
  store_blocks : S → gmap BlockRef VerifiedBlock;
  store_commits : S → gmap CommitRef TrustedCommit;
  store_ok : S → Prop;
  store_ok_key s r b : store_ok s → store_blocks s !! r = Some b → reference b = r ∧ ref_wf r;
  read_blocks_law s refs :
    read_blocks s refs = Ok ((λ r, store_blocks s !! r) <$> refs);
  contains_blocks_law s refs :
    store_contains_blocks s refs = Ok ((λ r, bool_decide (is_Some (store_blocks s !! r))) <$> refs);
  scan_blocks_by_author_law s a start :
    store_ok s →
    ∃ bs, scan_blocks_by_author s a start = Ok bs ∧
      (∀ b, b ∈ bs ↔ store_blocks s !! reference b = Some b ∧ author b = a ∧ start ≤ round b);
  scan_last_block_law s a :
    store_ok s →
    ∃ bs, scan_last_blocks_by_author s a 1 None = Ok bs ∧
      match last bs with
      | Some b => store_blocks s !! reference b = Some b ∧ author b = a ∧
                  (∀ b', store_blocks s !! reference b' = Some b' → author b' = a → round b' ≤ round b)
      | None => ∀ b', store_blocks s !! reference b' = Some b' → author b' ≠ a
      end;
  write_law s batch :
    store_ok s → (∀ b, b ∈ wb_blocks batch → ref_wf (reference b)) →
    ∃ s', write s batch = Ok s' ∧ store_ok s' ∧
      store_blocks s' = insert_blocks (wb_blocks batch) (store_blocks s) ∧
      store_commits s' = insert_commits (wb_commits batch) (store_commits s);
}.

(** ** The in-memory store

    The keys [(Round, AuthorityIndex, BlockDigest)] and [(CommitIndex,
    CommitDigest)] of the source are a [BlockRef] and a [CommitRef], with the same
    order. *)

Record Inner := mkInner {
  in_blocks : gmap BlockRef VerifiedBlock;
  digests_by_authorities : gset (AuthorityIndex * Round * BlockDigest);
  in_commits : gmap CommitRef TrustedCommit;
  in_commit_votes : gset (CommitIndex * CommitDigest * BlockRef);
  in_commit_info : gmap CommitRef CommitInfo;
  in_finalized_commits : gmap CommitRef RejectedTransactions;
}.

Definition mem_store_new : Inner := mkInner ∅ ∅ ∅ ∅ ∅ ∅.

Definition author_key (r : BlockRef) : AuthorityIndex * Round * BlockDigest :=
  (ref_author r, ref_round r, ref_digest r).
Definition of_author_key (k : AuthorityIndex * Round * BlockDigest) : BlockRef :=
  mkBlockRef k.1.2 k.1.1 k.2.

Definition mem_write_block (s : Inner) (block : VerifiedBlock) : Inner :=
  let r := reference block in
  mkInner (<[r := block]> (in_blocks s))
    ({[author_key r]} ∪ digests_by_authorities s)
    (in_commits s)
    (list_to_set ((λ v, (cref_index v, cref_digest v, r)) <$> commit_votes block) ∪ in_commit_votes s)
    (in_commit_info s) (in_finalized_commits s).
Definition mem_write_commit (s : Inner) (c : TrustedCommit) : Inner :=
  mkInner (in_blocks s) (digests_by_authorities s) (<[commit_reference c := c]> (in_commits s))
    (in_commit_votes s) (in_commit_info s) (in_finalized_commits s).
Definition mem_write_commit_info (s : Inner) (p : CommitRef * CommitInfo) : Inner :=
  mkInner (in_blocks s) (digests_by_authorities s) (in_commits s) (in_commit_votes s)
    (<[p.1 := p.2]> (in_commit_info s)) (in_finalized_commits s).
Definition mem_write_finalized (s : Inner) (p : CommitRef * RejectedTransactions) : Inner :=
  mkInner (in_blocks s) (digests_by_authorities s) (in_commits s) (in_commit_votes s)
    (in_commit_info s) (<[p.1 := p.2]> (in_finalized_commits s)).

Definition mem_write (s : Inner) (batch : WriteBatch) : Inner :=
  let s := foldl mem_write_block s (wb_blocks batch) in
  let s := foldl mem_write_commit s (wb_commits batch) in
  let s := foldl mem_write_commit_info s (wb_commit_info batch) in
  foldl mem_write_finalized s (wb_finalized_commits batch).

Definition mem_read_blocks (s : Inner) (refs : list BlockRef) : list (option VerifiedBlock) :=
  (λ r, in_blocks s !! r) <$> refs.

Definition mem_contains_blocks (s : Inner) (refs : list BlockRef) : list bool :=
  (λ r, bool_decide (is_Some (in_blocks s !! r))) <$> refs.

(** Pair the references with the read results ([zip]) and panic on a missing one. *)
Definition unwrap_blocks (refs : list BlockRef) (results : list (option VerifiedBlock)) (msg : string) :
    outcome (list VerifiedBlock) :=
  map_each (λ p : BlockRef * option VerifiedBlock, expect p.2 msg) (zip refs results).

Definition mem_scan_blocks_by_author (s : Inner) (a : AuthorityIndex) (start_round : Round) :
    outcome (list VerifiedBlock) :=
  let refs := of_author_key <$>
    bset_range (Included (a, start_round, DIGEST_MIN)) (Included (a, ROUND_MAX, DIGEST_MAX))
      (digests_by_authorities s) in
  unwrap_blocks refs (mem_read_blocks s refs) "Block not found!".

Section scan_last.
(** How many elements of a deque of the given length lie in its first slice
    ([VecDeque::as_slices().0]): the source reads only that slice. *)
Context (first_slice_len : nat → nat).

Definition mem_scan_last_blocks_by_author (s : Inner) (a : AuthorityIndex) (num_of_rounds : N)
    (before_round : option Round) : outcome (list VerifiedBlock) :=
  let before := default ROUND_MAX before_round in
  let keys := take (N.to_nat num_of_rounds) (reverse
    (bset_range (Included (a, 0, DIGEST_MIN)) (Included (a, before, DIGEST_MAX))
      (digests_by_authorities s))) in
  let refs := of_author_key <$> reverse keys in
  unwrap_blocks refs (mem_read_blocks s (take (first_slice_len (length refs)) refs))
    "Storage inconsistency: block not found!".
End scan_last.

Definition mem_read_last_commit (s : Inner) : option TrustedCommit :=
  snd <$> btree_last (in_commits s).

(** [BTreeMap::range] panics on a start above the end, so an empty commit range
    panics here. *)
Definition mem_scan_commits (s : Inner) (r : CommitRange) : outcome (list TrustedCommit) :=
  let lo := mkCommitRef (range_start r) DIGEST_MIN in
  let hi := mkCommitRef (range_end r) DIGEST_MAX in
  do! rassert (ord_leb lo hi) "range start is greater than range end in BTreeMap" in
  Ok (btree_range (Included lo) (Included hi) (in_commits s)).*2.

Definition REF_MIN : BlockRef := mkBlockRef 0 0 DIGEST_MIN.

(** The source's upper bound is [(index, MAX, BlockRef::MAX)]; excluding the next
    digest bounds the same keys. *)
Definition mem_read_commit_votes (s : Inner) (index : CommitIndex) : list BlockRef :=
  (bset_range (Included (index, DIGEST_MIN, REF_MIN)) (Excluded (index, DIGEST_MAX + 1, REF_MIN))
    (in_commit_votes s)).*2.

Definition mem_read_last_commit_info (s : Inner) : option (CommitRef * CommitInfo) :=
  btree_last (in_commit_info s).
Definition mem_read_last_finalized_commit (s : Inner) : option CommitRef :=
  fst <$> btree_last (in_finalized_commits s).
Definition mem_read_rejected_transactions (s : Inner) (cref : CommitRef) : option RejectedTransactions :=
  in_finalized_commits s !! cref.

Definition mem_store (first_slice_len : nat → nat) : Store Inner := {|
  write s batch := Ok (mem_write s batch);
  read_blocks s refs := Ok (mem_read_blocks s refs);
  store_contains_blocks s refs := Ok (mem_contains_blocks s refs);
  scan_blocks_by_author := mem_scan_blocks_by_author;
  scan_last_blocks_by_author := mem_scan_last_blocks_by_author first_slice_len;
  read_last_commit s := Ok (mem_read_last_commit s);
  scan_commits := mem_scan_commits;
  read_commit_votes s i := Ok (mem_read_commit_votes s i);
  read_last_commit_info s := Ok (mem_read_last_commit_info s);
  read_last_finalized_commit s := Ok (mem_read_last_finalized_commit s);
  read_rejected_transactions s c := Ok (mem_read_rejected_transactions s c);
|}.

(** ** The laws *)

Record mem_ok (s : Inner) : Prop := {
  mem_key r b : in_blocks s !! r = Some b → reference b = r ∧ ref_wf r;
  mem_index k : k ∈ digests_by_authorities s ↔ is_Some (in_blocks s !! of_author_key k);
}.

Lemma of_author_key_author_key r : of_author_key (author_key r) = r.
Proof. by destruct r. Qed.

Lemma author_key_of_author_key k : author_key (of_author_key k) = k.
Proof. by destruct k as [[]]. Qed.

Lemma mem_ok_new : mem_ok mem_store_new.
Proof.
  split; cbn.
  - intros r b Hr. by rewrite lookup_empty in Hr.
  - intros k. rewrite lookup_empty. split; [set_solver|by intros [? ?]].
Qed.

Lemma mem_ok_write_block s b : mem_ok s → ref_wf (reference b) → mem_ok (mem_write_block s b).
Proof.
  intros [Hkey Hidx] Hwf. split; cbn.
  - intros r b' [[<- <-]|[_ Hr]]%lookup_insert_Some; eauto.
  - intros k. rewrite elem_of_union, elem_of_singleton, Hidx, lookup_insert_is_Some.
    rewrite <-(author_key_of_author_key k) at 1.
    destruct (decide (reference b = of_author_key k)) as [->|Hne]; [naive_solver|].
    split; [|naive_solver]. intros [Heq|?]; [|by right].
    exfalso. apply Hne. apply (f_equal of_author_key) in Heq.
    by rewrite !of_author_key_author_key in Heq.
Qed.

Lemma mem_write_blocks_spec s bs :
  mem_ok s → (∀ b, b ∈ bs → ref_wf (reference b)) →
  mem_ok (foldl mem_write_block s bs) ∧
  in_blocks (foldl mem_write_block s bs) = insert_blocks bs (in_blocks s) ∧
  in_commits (foldl mem_write_block s bs) = in_commits s.
Proof.
  revert s. induction bs as [|b bs IH]; intros s Hok Hwf; [done|]. cbn [foldl].
  destruct (IH (mem_write_block s b)) as (H1 & H2 & H3).
  - apply mem_ok_write_block; [done|]. apply Hwf; left.
  - intros b' Hb'. apply Hwf; by right.
  - split; [done|]. split; [by rewrite H2|by rewrite H3].
Qed.

(** A loop keeps a projection that its body keeps. *)
Lemma foldl_keeps {S A B} (p : S → B) (f : S → A → S) (s : S) (l : list A) :
  (∀ s x, p (f s x) = p s) → p (foldl f s l) = p s.
Proof. intros Hf. revert s. induction l as [|x l IH]; intros s; cbn; [done|]. by rewrite IH, Hf. Qed.

Lemma mem_write_commits_commits s cs :
  in_commits (foldl mem_write_commit s cs) = insert_commits cs (in_commits s).
Proof. revert s. induction cs as [|c cs IH]; intros s; cbn; [done|]. by rewrite IH. Qed.

Lemma mem_write_spec s batch :
  mem_ok s → (∀ b, b ∈ wb_blocks batch → ref_wf (reference b)) →
  mem_ok (mem_write s batch) ∧
  in_blocks (mem_write s batch) = insert_blocks (wb_blocks batch) (in_blocks s) ∧
  in_commits (mem_write s batch) = insert_commits (wb_commits batch) (in_commits s).
Proof.
  intros Hok Hwf. unfold mem_write.
  destruct (mem_write_blocks_spec s (wb_blocks batch) Hok Hwf) as (Hok1 & Hb1 & Hc1).
  set (s1 := foldl mem_write_block s (wb_blocks batch)) in *.
  match goal with |- mem_ok ?t ∧ _ => assert (in_blocks t = in_blocks s1 ∧
      digests_by_authorities t = digests_by_authorities s1) as [Hb Hd] end.
  { split; [rewrite !(foldl_keeps in_blocks)|rewrite !(foldl_keeps digests_by_authorities)]; done. }
  split; [|split].
  - destruct Hok1. split; rewrite ?Hb, ?Hd; done.
  - by rewrite Hb.
  - rewrite (foldl_keeps in_commits mem_write_finalized), (foldl_keeps in_commits mem_write_commit_info) by done.
    by rewrite mem_write_commits_commits, Hc1.
Qed.

(** A range of index keys of one author is a range of its rounds. *)
Lemma author_range (a : AuthorityIndex) (lo hi : Round) k :
  k.2 ≤ DIGEST_MAX →
  above (Included (a, lo, DIGEST_MIN)) k = true ∧ below (Included (a, hi, DIGEST_MAX)) k = true ↔
  k.1.1 = a ∧ lo ≤ k.1.2 ≤ hi.
Proof.
  destruct k as [[x r] d]. cbn [fst snd]. intros Hd. unfold DIGEST_MIN. cbn [above below].
  unfold ord_leb, cmp, ord_prod, cmp, ord_prod, cmp, ord_nat, ord_N. cbn [fst snd].
  rewrite (Nat.compare_antisym a x).
  destruct (Nat.compare_spec a x), (N.compare_spec lo r), (N.compare_spec r hi),
    (N.compare_spec 0 d), (N.compare_spec d DIGEST_MAX); cbn; split; intros; try lia;
    try (split; (done || lia)); naive_solver lia.
Qed.

Lemma elem_of_author_range s (a : AuthorityIndex) (lo hi : Round) k :
  mem_ok s →
  k ∈ bset_range (Included (a, lo, DIGEST_MIN)) (Included (a, hi, DIGEST_MAX)) (digests_by_authorities s) ↔
  ∃ b, in_blocks s !! reference b = Some b ∧ of_author_key k = reference b ∧
    author b = a ∧ lo ≤ round b ≤ hi.
Proof.
  intros [Hkey Hidx]. rewrite elem_of_bset_range, Hidx. split.
  - intros [[b Hb] Hr]. destruct (Hkey _ _ Hb) as [Href [_ Hd]].
    rewrite author_range in Hr by done. exists b.
    destruct k as [[x r] d]. cbn in *. unfold of_author_key in Href, Hb. cbn in Href, Hb.
    rewrite Href. split; [done|]. split; [done|]. apply (f_equal ref_author) in Href as Ha.
    apply (f_equal ref_round) in Href as Hrd. cbn in *. subst. done.
  - intros (b & Hb & Hk & Ha & Hr). rewrite Hk. split; [by eexists|].
    destruct (Hkey _ _ Hb) as [_ [_ Hd]].
    apply (f_equal ref_author) in Hk as Hka. apply (f_equal ref_round) in Hk as Hkr.
    apply (f_equal ref_digest) in Hk as Hkd. cbn in Hka, Hkr, Hkd, Hd.
    rewrite author_range by (by rewrite Hkd). rewrite Hka, Hkr. done.
Qed.

(** Reading back references that are present yields their blocks, in order. *)
Lemma unwrap_blocks_present s refs bs msg :
  Forall2 (λ r b, in_blocks s !! r = Some b) refs bs →
  unwrap_blocks refs (mem_read_blocks s refs) msg = Ok bs.
Proof.
  intros Hall. unfold unwrap_blocks. apply map_each_Ok. unfold mem_read_blocks.
  induction Hall as [|r b refs bs Hr _ IH]; csimpl; constructor; [|done]. by rewrite Hr.
Qed.

Lemma indexed_blocks s keys :
  mem_ok s → (∀ k, k ∈ keys → k ∈ digests_by_authorities s) →
  ∃ bs, Forall2 (λ r b, in_blocks s !! r = Some b) (of_author_key <$> keys) bs ∧
    reference <$> bs = of_author_key <$> keys.
Proof.
  intros [Hkey Hidx] Hin. induction keys as [|k keys IH]; [by exists []|].
  destruct IH as (bs & Hbs & Hrefs); [intros; apply Hin; by right|].
  destruct (proj1 (Hidx k) (Hin k ltac:(left))) as [b Hb].
  exists (b :: bs). split; csimpl; [by constructor|].
  destruct (Hkey _ _ Hb) as [-> _]. by rewrite Hrefs.
Qed.

(** A block of the result has one of the references, and a reference stands for one block. *)
Lemma elem_of_indexed s refs bs b :
  mem_ok s → Forall2 (λ r b, in_blocks s !! r = Some b) refs bs →
  b ∈ bs ↔ in_blocks s !! reference b = Some b ∧ reference b ∈ refs.
Proof.
  intros [Hkey _] Hall. induction Hall as [|r b' refs bs Hr _ IH]; [set_solver|].
  rewrite !elem_of_cons, IH. destruct (Hkey _ _ Hr) as [Href _]. split.
  - intros [-> | [? ?]]; [|tauto]. rewrite Href. tauto.
  - intros [Hb [Heq|?]]; [|tauto]. left. rewrite Heq in Hb. congruence.
Qed.

Lemma mem_scan_blocks_spec s a start :
  mem_ok s →
  ∃ bs, mem_scan_blocks_by_author s a start = Ok bs ∧
    ∀ b, b ∈ bs ↔ in_blocks s !! reference b = Some b ∧ author b = a ∧ start ≤ round b.
Proof.
  intros Hok. unfold mem_scan_blocks_by_author.
  set (keys := bset_range _ _ _).
  destruct (indexed_blocks s keys Hok) as (bs & Hbs & _).
  { intros k. unfold keys. rewrite elem_of_bset_range. tauto. }
  exists bs. split; [by apply unwrap_blocks_present|].
  intros b. rewrite (elem_of_indexed _ _ _ _ Hok Hbs), list_elem_of_fmap. split.
  - intros (Hb & k & Hk & Hin). unfold keys in Hin.
    apply (elem_of_author_range s) in Hin as (b' & Hb' & Hk' & Ha & Hr & _); [|done].
    assert (b' = b) as -> by congruence. done.
  - intros (Hb & Ha & Hr). split; [done|]. exists (author_key (reference b)).
    rewrite of_author_key_author_key. split; [done|].
    apply (elem_of_author_range s); [done|]. exists b. rewrite of_author_key_author_key.
    destruct (mem_key _ Hok _ _ Hb) as [_ [Hmax _]]. repeat split; done.
Qed.

(** The last element of a sorted list has the greatest key. *)
Lemma mem_scan_last_spec fsl s a :
  fsl 1%nat = 1%nat → mem_ok s →
  ∃ bs, mem_scan_last_blocks_by_author fsl s a 1 None = Ok bs ∧
    match last bs with
    | Some b => in_blocks s !! reference b = Some b ∧ author b = a ∧
                (∀ b', in_blocks s !! reference b' = Some b' → author b' = a → round b' ≤ round b)
    | None => ∀ b', in_blocks s !! reference b' = Some b' → author b' ≠ a
    end.
Proof.
  intros Hfsl Hok. unfold mem_scan_last_blocks_by_author. cbn [default].
  pose proof (elem_of_author_range s a 0 ROUND_MAX) as Hin.
  assert (Hsorted : StronglySorted (λ k k', ord_leb k k') (bset_range (Included (a, 0, DIGEST_MIN))
    (Included (a, ROUND_MAX, DIGEST_MAX)) (digests_by_authorities s))).
  { unfold bset_range. apply StronglySorted_filter, bset_iter_sorted. }
  set (keys := bset_range _ _ _) in *.
  assert (Hall : ∀ b', in_blocks s !! reference b' = Some b' → author b' = a →
      author_key (reference b') ∈ keys).
  { intros b' Hb' Ha. apply Hin; [done|]. exists b'. rewrite of_author_key_author_key.
    destruct (mem_key _ Hok _ _ Hb') as [_ [Hmax _]]. repeat split; [done|done|lia|done]. }
  destruct (last keys) as [k|] eqn:Hlast.
  - assert (k ∈ keys) as Hk by (apply last_Some in Hlast as [? ->]; set_solver).
    destruct (proj1 (Hin k Hok) Hk) as (b & Hb & Hkb & Ha & _).
    assert (take (N.to_nat 1) (reverse keys) = [k]) as ->.
    { apply last_Some in Hlast as [l' ->]. by rewrite reverse_app. }
    exists [b]. split.
    { cbn. rewrite Hfsl. cbn. unfold unwrap_blocks. cbn. by rewrite Hkb, Hb. }
    cbn. split; [done|]. split; [done|]. intros b' Hb' Ha'.
    pose proof (sorted_last_ge _ k keys (author_key (reference b')) ord_leb_reflexive Hsorted Hlast
      (Hall b' Hb' Ha')) as Hle.
    apply Is_true_true in Hle. rewrite <-(author_key_of_author_key k), Hkb in Hle.
    revert Hle. unfold author_key, reference. cbn. rewrite Ha, Ha'.
    unfold ord_leb, cmp, ord_prod, cmp, ord_prod, cmp, ord_nat, ord_N. cbn.
    rewrite Nat.compare_refl. destruct (N.compare_spec (round b') (round b)); cbn; lia.
  - apply last_None in Hlast. rewrite Hlast in *. exists []. split; [done|]. cbn.
    intros b' Hb' Ha. pose proof (Hall b' Hb' Ha). set_solver.
Qed.

(** [MemStore] keeps the promises of [Store]. *)
Definition mem_store_laws (fsl : nat → nat) (Hfsl : fsl 1%nat = 1%nat) :
  @StoreLaws Inner (mem_store fsl).
Proof.
  refine (@Build_StoreLaws Inner (mem_store fsl) in_blocks in_commits mem_ok _ _ _ _ _ _).
  - intros s r b Hok. apply (mem_key s Hok).
  - done.
  - done.
  - intros s a start. apply mem_scan_blocks_spec.
  - intros s a. by apply mem_scan_last_spec.
  - intros s batch Hok Hwf. exists (mem_write s batch). split; [done|]. by apply mem_write_spec.
Defined.

(** ** Recovering a sub-dag from the store ([load_committed_subdag_from_store]) *)

Section recovery.
Context {S : Type} `{Store S}.

(** The last position of a block with the given reference. *)
Definition leader_block_index (leader : BlockRef) (blocks : list VerifiedBlock) : option nat :=
  last (filter (λ i, reference <$> blocks !! i = Some leader) (seq 0 (length blocks))).

Definition load_committed_subdag_from_store (store : S) (commit : TrustedCommit)
    (reputation_scores_desc : list (AuthorityIndex * N)) : outcome CommittedSubDag :=
  let! commit_blocks' := read_blocks store (commit_blocks (tcm_inner commit)) in
  let! blocks := map_each (λ o,
    expect o "We should have the block referenced in the commit data") commit_blocks' in
  let! leader_block_idx := expect (leader_block_index (commit_leader (tcm_inner commit)) blocks)
    "Leader block must be in the sub-dag" in
  let! leader_block := vec_get blocks leader_block_idx in
  let! reject_votes := read_rejected_transactions store (commit_reference commit) in
  let recovered := match reject_votes with Some _ => true | None => false end in
  Ok (mkCommittedSubDag (reference leader_block) blocks (commit_timestamp_ms (tcm_inner commit))
        (commit_reference commit) recovered recovered reputation_scores_desc (default ∅ reject_votes)).

Context `{!StoreLaws S}.

(** The sub-dag of a stored commit whose blocks are stored has those blocks in the
    commit's order and the commit's leader. *)
Lemma load_committed_subdag_spec store commit desc rejected :
  store_ok store → read_rejected_transactions store (commit_reference commit) = Ok rejected →
  (∀ r, r ∈ commit_blocks (tcm_inner commit) → is_Some (store_blocks store !! r)) →
  commit_leader (tcm_inner commit) ∈ commit_blocks (tcm_inner commit) →
  ∃ sd, load_committed_subdag_from_store store commit desc = Ok sd ∧
    reference <$> sd_blocks sd = commit_blocks (tcm_inner commit) ∧
    sd_leader sd = commit_leader (tcm_inner commit) ∧
    sd_commit_ref sd = commit_reference commit ∧
    sd_timestamp_ms sd = commit_timestamp_ms (tcm_inner commit).
Proof.
  intros Hok Hrej Hin Hlead. unfold load_committed_subdag_from_store.
  rewrite read_blocks_law. cbn [obind].
  set (refs := commit_blocks (tcm_inner commit)) in *. set (leader := commit_leader _) in *.
  assert (∃ bs, Forall2 (λ r b, store_blocks store !! r = Some b) refs bs) as [bs Hbs].
  { by apply Forall2_collect. }
  assert (Hrefs : reference <$> bs = refs).
  { clear -Hbs Hok. induction Hbs as [|r b refs bs Hr _ IH]; csimpl; [done|].
    destruct (store_ok_key _ _ _ Hok Hr) as [-> _]. by rewrite IH. }
  rewrite (proj2 (map_each_Ok _ _ bs)).
  2: { apply Forall2_fmap_l. eapply Forall2_impl; [exact Hbs|]. cbn. intros r b ->. done. }
  cbn [obind]. destruct (leader_block_index leader bs) as [i|] eqn:Hi; cbn [expect obind].
  - unfold leader_block_index in Hi. apply last_Some in Hi as [l' Hl'].
    assert (i ∈ l' ++ [i]) as Hii by set_solver. rewrite <-Hl' in Hii.
    apply list_elem_of_filter in Hii as [Hb _].
    unfold vec_get. destruct (bs !! i) as [b|]; [|done]. cbn in Hb |- *. injection Hb as Hb. rewrite Hrej. cbn [obind].
    eexists; split; [done|]. cbn. done.
  - exfalso. rewrite <-Hrefs in Hlead. apply list_elem_of_fmap in Hlead as (b & Hb & Hbin).
    apply list_elem_of_lookup in Hbin as [i Hbi].
    unfold leader_block_index in Hi. apply last_None in Hi.
    assert (i ∈ filter (λ i, reference <$> bs !! i = Some leader) (seq 0 (length bs)))
      as Hc; [|rewrite Hi in Hc; set_solver].
    apply list_elem_of_filter. rewrite Hbi. split; [by cbn; rewrite Hb|].
    apply elem_of_seq. apply lookup_lt_Some in Hbi. lia.
Qed.
End recovery.

(** The in-memory store with a deque that is contiguous, for the examples. *)
#[export] Instance contiguous_mem_store : Store Inner := mem_store (λ n, n).
#[export] Instance contiguous_mem_store_laws : StoreLaws Inner := mem_store_laws (λ n, n) eq_refl.
