(* ===== verification/DagState.v ===== *)
(** * The DAG state ([core/src/dag_state.rs])

    Data and operations.  [DagState] keeps the recent blocks in memory and the rest
    in the store it is generic over; the shared lock of the source serialises the
    operations, so they are state-passing functions.  The metrics and log lines are
    left out, their calls that can panic are kept.  [now] is the reading of the
    clock an operation takes.  The refinement theorems are in [DagStateSpec]. *)

From S2P Require Import Prelude Collections Weighted Committee Types Commits StakeAggregator.
From S2P Require Import ThresholdClock LeaderScoring Storage.

Local Open Scope N_scope.

Record BlockInfo := mkBlockInfo {
  bi_block : VerifiedBlock;
  committed : bool;
  included : bool;
}.

(** [BlockInfo::new] *)
Definition block_info_new (b : VerifiedBlock) : BlockInfo := mkBlockInfo b false false.

Section dag_state.
Context {S : Type} `{Store S}.

Record DagState := mkDagState {
  ds_context : Context;
  genesis : gmap BlockRef VerifiedBlock;
  recent_blocks : gmap BlockRef BlockInfo;
  recent_refs_by_authority : list (gset BlockRef);
  ds_threshold_clock : ThresholdClock;
  evicted_rounds : list Round;
  highest_accepted_round : Round;
  last_commit : option TrustedCommit;
  last_committed_rounds : list Round;
  scoring_subdag : ScoringSubdag;
  pending_commit_votes : list CommitVote;
  blocks_to_write : list VerifiedBlock;
  commits_to_write : list TrustedCommit;
  commit_info_to_write : list (CommitRef * CommitInfo);
  finalized_commits_to_write : list (CommitRef * RejectedTransactions);
  store : S;
  cached_rounds : Round;
}.
Implicit Types s : DagState.

(** ** Updates of groups of fields *)

Definition set_recent (rb : gmap BlockRef BlockInfo) (rr : list (gset BlockRef)) s : DagState :=
  mkDagState (ds_context s) (genesis s) rb rr (ds_threshold_clock s) (evicted_rounds s)
    (highest_accepted_round s) (last_commit s) (last_committed_rounds s) (scoring_subdag s)
    (pending_commit_votes s) (blocks_to_write s) (commits_to_write s) (commit_info_to_write s)
    (finalized_commits_to_write s) (store s) (cached_rounds s).
Definition set_clock (tc : ThresholdClock) s : DagState :=
  mkDagState (ds_context s) (genesis s) (recent_blocks s) (recent_refs_by_authority s) tc
    (evicted_rounds s) (highest_accepted_round s) (last_commit s) (last_committed_rounds s)
    (scoring_subdag s) (pending_commit_votes s) (blocks_to_write s) (commits_to_write s)
    (commit_info_to_write s) (finalized_commits_to_write s) (store s) (cached_rounds s).
Definition set_highest_accepted_round (r : Round) s : DagState :=
  mkDagState (ds_context s) (genesis s) (recent_blocks s) (recent_refs_by_authority s)
    (ds_threshold_clock s) (evicted_rounds s) r (last_commit s) (last_committed_rounds s)
    (scoring_subdag s) (pending_commit_votes s) (blocks_to_write s) (commits_to_write s)
    (commit_info_to_write s) (finalized_commits_to_write s) (store s) (cached_rounds s).
Definition set_evicted_rounds (er : list Round) s : DagState :=
  mkDagState (ds_context s) (genesis s) (recent_blocks s) (recent_refs_by_authority s)
    (ds_threshold_clock s) er (highest_accepted_round s) (last_commit s) (last_committed_rounds s)
    (scoring_subdag s) (pending_commit_votes s) (blocks_to_write s) (commits_to_write s)
    (commit_info_to_write s) (finalized_commits_to_write s) (store s) (cached_rounds s).
Definition set_commit_state (lc : option TrustedCommit) (lcr : list Round)
    (votes : list CommitVote) s : DagState :=
  mkDagState (ds_context s) (genesis s) (recent_blocks s) (recent_refs_by_authority s)
    (ds_threshold_clock s) (evicted_rounds s) (highest_accepted_round s) lc lcr
    (scoring_subdag s) votes (blocks_to_write s) (commits_to_write s)
    (commit_info_to_write s) (finalized_commits_to_write s) (store s) (cached_rounds s).
Definition set_scoring_subdag (ss : ScoringSubdag) s : DagState :=
  mkDagState (ds_context s) (genesis s) (recent_blocks s) (recent_refs_by_authority s)
    (ds_threshold_clock s) (evicted_rounds s) (highest_accepted_round s) (last_commit s)
    (last_committed_rounds s) ss (pending_commit_votes s) (blocks_to_write s) (commits_to_write s)
    (commit_info_to_write s) (finalized_commits_to_write s) (store s) (cached_rounds s).
Definition set_buffers (bs : list VerifiedBlock) (cs : list TrustedCommit)
    (infos : list (CommitRef * CommitInfo)) (fin : list (CommitRef * RejectedTransactions)) s : DagState :=
  mkDagState (ds_context s) (genesis s) (recent_blocks s) (recent_refs_by_authority s)
    (ds_threshold_clock s) (evicted_rounds s) (highest_accepted_round s) (last_commit s)
    (last_committed_rounds s) (scoring_subdag s) (pending_commit_votes s) bs cs infos fin
    (store s) (cached_rounds s).
Definition set_store (st : S) s : DagState :=
  mkDagState (ds_context s) (genesis s) (recent_blocks s) (recent_refs_by_authority s)
    (ds_threshold_clock s) (evicted_rounds s) (highest_accepted_round s) (last_commit s)
    (last_committed_rounds s) (scoring_subdag s) (pending_commit_votes s) (blocks_to_write s)
    (commits_to_write s) (commit_info_to_write s) (finalized_commits_to_write s) st (cached_rounds s).

(** ** Commit accessors *)

Definition last_commit_index s : CommitIndex :=
  match last_commit s with Some c => commit_index (tcm_inner c) | None => 0 end.
Definition last_commit_digest s : CommitDigest :=
  match last_commit s with Some c => tcm_digest c | None => DIGEST_MIN end.
Definition last_commit_timestamp_ms s : BlockTimestampMs :=
  match last_commit s with Some c => commit_timestamp_ms (tcm_inner c) | None => 0 end.
Definition last_commit_leader s : outcome Slot :=
  match last_commit s with
  | Some c => Ok (slot_from (commit_leader (tcm_inner c)))
  | None => omap_ok (λ p, slot_from p.1)
              (expect (btree_first (genesis s)) "Genesis blocks should always be available.")
  end.
Definition last_commit_round s : Round :=
  match last_commit s with Some c => ref_round (commit_leader (tcm_inner c)) | None => 0 end.

Definition calculate_gc_round s (commit_round : Round) : Round :=
  saturating_sub commit_round (gc_depth (protocol_config (ds_context s))).
Definition gc_round s : Round := calculate_gc_round s (last_commit_round s).

Definition eviction_round (last_round gc_round cached_rounds : Round) : Round :=
  N.min gc_round (saturating_sub last_round cached_rounds).

Definition calculate_authority_eviction_round s (a : AuthorityIndex) : outcome Round :=
  let! refs := vec_get (recent_refs_by_authority s) a in
  let last_round := from_option ref_round GENESIS_ROUND (bset_last refs) in
  Ok (eviction_round last_round (gc_round s) (cached_rounds s)).

(** ** Reads *)

(** The first loop of [get_blocks]: what memory answers, and the positions left
    for the store. *)
Definition get_blocks_cached s (refs : list BlockRef) :
    list (option VerifiedBlock) * list (nat * BlockRef) :=
  foldl (λ acc p,
      let '(blocks, missing) := acc in
      let '(index, r) := (p : nat * BlockRef) in
      if ref_round r =? GENESIS_ROUND then
        match genesis s !! r with
        | Some b => (<[index := Some b]> blocks, missing)
        | None => (blocks, missing)
        end
      else match recent_blocks s !! r with
           | Some info => (<[index := Some (bi_block info)]> blocks, missing)
           | None => (blocks, missing ++ [(index, r)])
           end)
    (replicate (length refs) None, []) (imap (λ i r, (i, r)) refs).

(** The last loop: store the results at the missing positions. *)
Definition fill_missing {A} (missing : list (nat * BlockRef)) (results : list A) (into : list A) : list A :=
  foldl (λ acc (p : (nat * BlockRef) * A), <[p.1.1 := p.2]> acc) into (zip missing results).

Definition get_blocks s (refs : list BlockRef) : outcome (list (option VerifiedBlock)) :=
  let '(blocks, missing) := get_blocks_cached s refs in
  match missing with
  | [] => Ok blocks
  | _ => let! results := read_blocks (store s) missing.*2 in
         Ok (fill_missing missing results blocks)
  end.

Definition get_block s (r : BlockRef) : outcome (option VerifiedBlock) :=
  let! blocks := get_blocks s [r] in
  expect (last blocks) "Exactly one element should be returned".

Definition contains_blocks_cached s (refs : list BlockRef) :
    outcome (list bool * list (nat * BlockRef)) :=
  for_each (λ acc (p : nat * BlockRef),
      let '(found, missing) := (acc : list bool * list (nat * BlockRef)) in
      let '(index, r) := p in
      let! recent_refs := vec_get (recent_refs_by_authority s) (ref_author r) in
      if bool_decide (r ∈ recent_refs) || bool_decide (is_Some (genesis s !! r)) then
        Ok (<[index := true]> found, missing)
      else match bset_last recent_refs with
           | None => Ok (<[index := false]> found, missing)
           | Some l =>
               if ref_round l <? ref_round r then Ok (<[index := false]> found, missing)
               else Ok (found, missing ++ [(index, r)])
           end)
    (replicate (length refs) false, []) (imap (λ i r, (i, r)) refs).

Definition contains_blocks s (refs : list BlockRef) : outcome (list bool) :=
  let! '(found, missing) := contains_blocks_cached s refs in
  match missing with
  | [] => Ok found
  | _ => let! results := store_contains_blocks (store s) missing.*2 in
         Ok (fill_missing missing results found)
  end.

Definition contains_block s (r : BlockRef) : outcome bool :=
  let! blocks := contains_blocks s [r] in
  expect (head blocks) "called `Option::unwrap()` on a `None` value".

Definition get_uncommitted_blocks_at_slot s (slot : Slot) : list VerifiedBlock :=
  (λ p, bi_block p.2) <$>
    btree_range (Included (mkBlockRef (slot_round slot) (slot_authority slot) DIGEST_MIN))
                (Included (mkBlockRef (slot_round slot) (slot_authority slot) DIGEST_MAX))
                (recent_blocks s).

(** [BTreeMap::range] panics when the start is above the end, which happens here
    only when [round + 1] wraps. *)
Definition get_uncommitted_blocks_at_round s (r : Round) : outcome (list VerifiedBlock) :=
  if r <=? last_commit_round s then Panic "Round have committed blocks!" else
  let lo := mkBlockRef r 0 DIGEST_MIN in
  let hi := mkBlockRef (u32_add r 1) 0 DIGEST_MIN in
  do! rassert (ord_leb lo hi) "range start is greater than range end in BTreeMap" in
  Ok ((λ p, bi_block p.2) <$> btree_range (Included lo) (Excluded hi) (recent_blocks s)).

(** The loop of [ancestors_at_round]: pop the greatest reference and add the
    ancestors of its block, until the greatest is at or below [earlier_round]. *)
Fixpoint linked_down_to (fuel : nat) s (earlier_round : Round) (linked : gset BlockRef) :
    outcome (gset BlockRef) :=
  match fuel with
  | O => OutOfFuel
  | Datatypes.S fuel' =>
      match bset_last linked with
      | None => Ok linked
      | Some r =>
          if ref_round r <=? earlier_round then Ok linked else
          let! o := get_block s r in
          let! b := expect o "Block should exist in DAG!" in
          linked_down_to fuel' s earlier_round (list_to_set (ancestors b) ∪ linked ∖ {[r]})
      end
  end.

Definition ancestors_at_round (fuel : nat) s (later_block : VerifiedBlock) (earlier_round : Round) :
    outcome (list VerifiedBlock) :=
  let! linked := linked_down_to fuel s earlier_round (list_to_set (ancestors later_block)) in
  map_each (λ r,
      let! o := get_block s r in
      expect o "Block should exist in DAG!")
    (bset_range (Included (mkBlockRef earlier_round 0 DIGEST_MIN)) Unbounded linked).

Definition get_last_block_for_authority s (a : AuthorityIndex) : outcome VerifiedBlock :=
  let! refs := vec_get (recent_refs_by_authority s) a in
  match bset_last refs with
  | Some last =>
      omap_ok bi_block (expect (recent_blocks s !! last) "Block should be found in recent blocks")
  | None =>
      omap_ok snd (expect (list_find (λ p, ref_author p.1 = a) (btree_iter (genesis s)) ≫= λ p, Some p.2)
        "Genesis should be found for authority {authority_index}")
  end.

Definition get_last_proposed_block s : outcome VerifiedBlock :=
  get_last_block_for_authority s (own_index (ds_context s)).

(** The range query shared by the next two reads. *)
Definition cached_refs_in_range s (a : AuthorityIndex) (start_round end_round : Round) :
    outcome (list BlockRef) :=
  let! refs := vec_get (recent_refs_by_authority s) a in
  Ok (bset_range (Included (mkBlockRef start_round a DIGEST_MIN))
                 (Excluded (mkBlockRef end_round 0 DIGEST_MIN)) refs).

(** Collect the blocks until [limit] of them are found. *)
Definition get_cached_blocks_in_range s (a : AuthorityIndex) (start_round end_round : Round)
    (limit : nat) : outcome (list VerifiedBlock) :=
  if (end_round <=? start_round) || (limit =? 0)%nat then Ok [] else
  let! refs := cached_refs_in_range s a start_round end_round in
  map_each (λ r, omap_ok bi_block (expect (recent_blocks s !! r) "Block should exist in recent blocks"))
    (take limit refs).

Definition get_cached_blocks s (a : AuthorityIndex) (start : Round) : outcome (list VerifiedBlock) :=
  if ROUND_MAX <=? start then Ok [] else
  let! refs := cached_refs_in_range s a start ROUND_MAX in
  map_each (λ r, omap_ok bi_block (expect (recent_blocks s !! r) "Block should exist in recent blocks"))
    refs.

Definition get_last_cached_block_in_range s (a : AuthorityIndex) (start_round end_round : Round) :
    outcome (option VerifiedBlock) :=
  if end_round <=? start_round then Ok None else
  let! refs := cached_refs_in_range s a start_round end_round in
  Ok (last refs ≫= λ r, bi_block <$> recent_blocks s !! r).

(** The inner loop of [get_last_cached_block_per_authority] over the references of
    one authority, latest first. *)
Fixpoint split_last_round (last_round : Round) (refs : list BlockRef) : option BlockRef * list BlockRef :=
  match refs with
  | [] => (None, [])
  | r :: rest =>
      if last_round =? 0 then
        let '(o, eqv) := split_last_round (ref_round r) rest in (Some (default r o), eqv)
      else if ref_round r <? last_round then (None, [])
      else let '(o, eqv) := split_last_round last_round rest in (o, r :: eqv)
  end.

Definition last_cached_for_authority s (end_round : Round) (i : nat) (block_refs : gset BlockRef)
    (acc : list VerifiedBlock * list (list BlockRef)) :
    outcome (list VerifiedBlock * list (list BlockRef)) :=
  let '(blocks, equivocating) := acc in
  let! a := expect (to_authority_index (committee (ds_context s)) i)
    "called `Option::unwrap()` on a `None` value" in
  let! last_evicted := vec_get (evicted_rounds s) a in
  if saturating_sub end_round 1 <=? last_evicted then
    Panic "Attempted to request for blocks of rounds at or below the last evicted round"
  else
    let refs := reverse (bset_range (Included (mkBlockRef (u32_add last_evicted 1) a DIGEST_MIN))
                                    (Excluded (mkBlockRef end_round a DIGEST_MIN)) block_refs) in
    match split_last_round 0 refs with
    | (Some r, eqv) =>
        let! info := expect (recent_blocks s !! r) "Block should exist in recent blocks" in
        let! blocks := vec_set blocks a (bi_block info) in
        let! old := vec_get equivocating a in
        let! equivocating := vec_set equivocating a (old ++ eqv) in
        Ok (blocks, equivocating)
    | (None, _) => Ok (blocks, equivocating)
    end.

Definition get_last_cached_block_per_authority s (end_round : Round) :
    outcome (list (VerifiedBlock * list BlockRef)) :=
  let blocks := (btree_iter (genesis s)).*2 in
  let equivocating := replicate (committee_size (committee (ds_context s))) [] in
  if end_round =? GENESIS_ROUND then
    Panic "Attempted to retrieve blocks earlier than the genesis round which is not possible"
  else if end_round =? GENESIS_ROUND + 1 then Ok ((λ b, (b, [])) <$> blocks)
  else
    let! '(blocks, equivocating) :=
      for_each (λ acc (p : nat * gset BlockRef), last_cached_for_authority s end_round p.1 p.2 acc)
        (blocks, equivocating) (imap (λ i refs, (i, refs)) (recent_refs_by_authority s)) in
    Ok (zip blocks equivocating).

Definition contains_cached_block_at_slot s (slot : Slot) : outcome bool :=
  if slot_round slot =? GENESIS_ROUND then Ok true else
  let! ev := vec_get (evicted_rounds s) (slot_authority slot) in
  if slot_round slot <=? ev then
    Panic "Attempted to check for slot that is <= the last evicted round"
  else
    let! refs := vec_get (recent_refs_by_authority s) (slot_authority slot) in
    Ok (negb (bool_decide (bset_range
      (Included (mkBlockRef (slot_round slot) (slot_authority slot) DIGEST_MIN))
      (Included (mkBlockRef (slot_round slot) (slot_authority slot) DIGEST_MAX)) refs = []))).

Definition is_committed s (r : BlockRef) : outcome bool :=
  omap_ok committed (expect (recent_blocks s !! r)
    "Attempted to query for commit status for a block not in cached data").

Definition has_been_included s (r : BlockRef) : outcome bool :=
  omap_ok included (expect (recent_blocks s !! r)
    "Attempted to query for inclusion status for a block not in cached data").

Definition threshold_clock_round s : Round := tc_round (ds_threshold_clock s).

(** ** Accepting blocks *)

Definition update_block_metadata (now : Instant) s (block : VerifiedBlock) : outcome DagState :=
  let r := reference block in
  let! refs := vec_get (recent_refs_by_authority s) (ref_author r) in
  let s := set_recent (<[r := block_info_new block]> (recent_blocks s))
             (<[ref_author r := {[r]} ∪ refs]> (recent_refs_by_authority s)) s in
  let! '(tc, advanced) := add_block (committee (ds_context s)) now (ds_threshold_clock s) r in
  let s := set_clock tc s in
  do! (if advanced then omap_ok (λ _, tt) (get_last_proposed_block s) else Ok tt) in
  let s := set_highest_accepted_round (N.max (highest_accepted_round s) (round block)) s in
  let! refs := vec_get (recent_refs_by_authority s) (ref_author r) in
  do! expect (bset_last refs) "There should be by now at least one block ref" in
  do! authority (committee (ds_context s)) (ref_author r) in
  Ok s.

Definition accept_block (now : Instant) s (block : VerifiedBlock) : outcome DagState :=
  do! rassert (negb (round block =? 0)) "Genesis block should not be accepted into DAG." in
  let r := reference block in
  let! known := contains_block s r in
  if (known : bool) then Ok s else
  do! authority (committee (ds_context s)) (ref_author r) in
  do! (if (ref_author r =? own_index (ds_context s))%nat then
         rassert (bool_decide (get_uncommitted_blocks_at_slot s (slot_from r) = []))
           "Block Rejected! Attempted to add block to own slot where block(s) already exists."
       else Ok tt) in
  let! s := update_block_metadata now s block in
  Ok (set_buffers (blocks_to_write s ++ [block]) (commits_to_write s) (commit_info_to_write s)
        (finalized_commits_to_write s) s).

Definition accept_blocks (now : Instant) s (blocks : list VerifiedBlock) : outcome DagState :=
  for_each (accept_block now) s blocks.

(** ** Commit and inclusion flags *)

Definition set_committed s (r : BlockRef) : outcome (DagState * bool) :=
  match recent_blocks s !! r with
  | Some info =>
      if negb (committed info) then
        Ok (set_recent (<[r := mkBlockInfo (bi_block info) true (included info)]> (recent_blocks s))
              (recent_refs_by_authority s) s, true)
      else Ok (s, false)
  | None => Panic "Block not found in cache to set as committed."
  end.

(** The loop of [link_causal_history] over the blocks and the queue of targets. *)
Fixpoint link_targets (fuel : nat) (gc : Round) (blocks : gmap BlockRef BlockInfo)
    (targets linked : list BlockRef) : outcome (gmap BlockRef BlockInfo * list BlockRef) :=
  match fuel with
  | O => OutOfFuel
  | Datatypes.S fuel' =>
      match targets with
      | [] => Ok (blocks, linked)
      | r :: rest =>
          if ref_round r <=? gc then link_targets fuel' gc blocks rest linked else
          let! info := expect (blocks !! r) "Block is not in DAG state" in
          if included info then link_targets fuel' gc blocks rest linked
          else link_targets fuel' gc
                 (<[r := mkBlockInfo (bi_block info) (committed info) true]> blocks)
                 (rest ++ ancestors (bi_block info)) (linked ++ [r])
      end
  end.

(** Links still to follow: one per ancestor of every block not yet included. *)
Definition pending_links (blocks : gmap BlockRef BlockInfo) : nat :=
  sum_list_with (λ p : BlockRef * BlockInfo,
    if included p.2 then 0%nat else length (ancestors (bi_block p.2))) (map_to_list blocks).

(** Each step consumes a target, and a block adds its ancestors once: this fuel is
    enough for the loop to end. *)
Definition link_fuel s : nat := (2 + pending_links (recent_blocks s))%nat.

Definition link_causal_history s (root : BlockRef) : outcome (DagState * list BlockRef) :=
  let! '(blocks, linked) := link_targets (link_fuel s) (gc_round s) (recent_blocks s) [root] [] in
  Ok (set_recent blocks (recent_refs_by_authority s) s, linked).

(** ** Commits *)

Definition bump_committed_round (rounds : list Round) (r : BlockRef) : outcome (list Round) :=
  let! old := vec_get rounds (ref_author r) in
  vec_set rounds (ref_author r) (N.max old (ref_round r)).

Definition add_commit s (commit : TrustedCommit) : outcome DagState :=
  let c := tcm_inner commit in
  let! stale :=
    match last_commit s with
    | Some lc =>
        if commit_index c <=? commit_index (tcm_inner lc) then Ok true else
        do! rassert (commit_index c =? u32_add (commit_index (tcm_inner lc)) 1)
          "assertion `left == right` failed" in
        if commit_timestamp_ms c <? commit_timestamp_ms (tcm_inner lc)
        then Panic "Commit timestamps do not monotonically increment"
        else Ok false
    | None =>
        do! rassert (commit_index c =? 1) "assertion `left == right` failed" in Ok false
    end in
  if (stale : bool) then Ok s else
  let! rounds := for_each bump_committed_round (last_committed_rounds s) (commit_blocks c) in
  do! for_each (λ _ i,
      let! a := expect (to_authority_index (committee (ds_context s)) i)
        "called `Option::unwrap()` on a `None` value" in
      omap_ok (λ _, tt) (authority (committee (ds_context s)) a)) tt (seq 0 (length rounds)) in
  let s := set_commit_state (Some commit) rounds (pending_commit_votes s ++ [commit_reference commit]) s in
  Ok (set_buffers (blocks_to_write s) (commits_to_write s ++ [commit]) (commit_info_to_write s)
        (finalized_commits_to_write s) s).

Definition recover_commits_to_write s (commits : list TrustedCommit) : DagState :=
  set_buffers (blocks_to_write s) (commits_to_write s ++ commits) (commit_info_to_write s)
    (finalized_commits_to_write s) s.

Definition ensure_commits_to_write_is_empty s : outcome unit :=
  rassert (match commits_to_write s with [] => true | _ => false end) "Commits to write should be empty.".

Definition add_commit_info s (scores : ReputationScores) : outcome DagState :=
  do! rassert (scoring_subdag_is_empty (scoring_subdag s))
    "assertion failed: self.scoring_subdag.is_empty()" in
  let info := mkCommitInfo (last_committed_rounds s) scores in
  let! lc := expect (last_commit s) "Last commit should already be set." in
  Ok (set_buffers (blocks_to_write s) (commits_to_write s)
        (commit_info_to_write s ++ [(commit_reference lc, info)]) (finalized_commits_to_write s) s).

Definition add_finalized_commit s (cref : CommitRef) (rejected : RejectedTransactions) : DagState :=
  set_buffers (blocks_to_write s) (commits_to_write s) (commit_info_to_write s)
    (finalized_commits_to_write s ++ [(cref, rejected)]) s.

(** The first [limit] votes are taken off the queue. *)
Definition take_commit_votes s (limit : nat) : DagState * list CommitVote :=
  (set_commit_state (last_commit s) (last_committed_rounds s) (drop limit (pending_commit_votes s)) s,
   take limit (pending_commit_votes s)).

Definition add_scoring_subdags s (subdags : list CommittedSubDag) : outcome DagState :=
  let! ss := add_subdags (committee (ds_context s)) (scoring_subdag s) subdags in
  Ok (set_scoring_subdag ss s).
Definition clear_scoring_subdag s : DagState :=
  set_scoring_subdag (scoring_subdag_clear (scoring_subdag s)) s.
Definition scoring_subdags_count s : outcome N := scored_subdags_count (scoring_subdag s).
Definition is_scoring_subdag_empty s : bool := scoring_subdag_is_empty (scoring_subdag s).
Definition calculate_scoring_subdag_scores s : outcome ReputationScores :=
  calculate_distributed_vote_scores (committee (ds_context s)) (scoring_subdag s).
Definition scoring_subdag_commit_range s : outcome CommitIndex :=
  omap_ok range_end (expect (ss_commit_range (scoring_subdag s))
    "commit range should exist for scoring subdag").
Definition recover_last_commit_info s : outcome (option (CommitRef * CommitInfo)) :=
  read_last_commit_info (store s).

(** ** Flushing *)

(** The eviction loop of one authority, over its references in order. *)
Fixpoint evict_refs (ev : Round) (order : list BlockRef) (blocks : gmap BlockRef BlockInfo)
    (refs : gset BlockRef) : gmap BlockRef BlockInfo * gset BlockRef :=
  match order with
  | [] => (blocks, refs)
  | r :: rest =>
      if ref_round r <=? ev then evict_refs ev rest (delete r blocks) (refs ∖ {[r]})
      else (blocks, refs)
  end.

Definition evict_authority s (a : AuthorityIndex) : outcome DagState :=
  let! ev := calculate_authority_eviction_round s a in
  let! refs := vec_get (recent_refs_by_authority s) a in
  let '(blocks, refs) := evict_refs ev (bset_iter refs) (recent_blocks s) refs in
  let s := set_recent blocks (<[a := refs]> (recent_refs_by_authority s)) s in
  let! rounds := vec_set (evicted_rounds s) a ev in
  Ok (set_evicted_rounds rounds s).

Definition flush s : outcome DagState :=
  match blocks_to_write s, commits_to_write s, commit_info_to_write s, finalized_commits_to_write s with
  | [], [], [], [] => Ok s
  | bs, cs, infos, fin =>
      let s := set_buffers [] [] [] [] s in
      let! st := write (store s) (mkWriteBatch bs cs infos fin) in
      for_each evict_authority (set_store st s) (seq 0 (committee_size (committee (ds_context s))))
  end.

(** ** Recovery from the store ([DagState::new]) *)

(** Commits after the last commit info, replayed into the committed rounds. *)
Definition replay_commit (st : S) (acc : list Round * list CommittedSubDag) (commit : TrustedCommit) :
    outcome (list Round * list CommittedSubDag) :=
  let '(rounds, subdags) := acc in
  let! rounds := for_each bump_committed_round rounds (commit_blocks (tcm_inner commit)) in
  let! sd := load_committed_subdag_from_store st commit [] in
  Ok (rounds, subdags ++ [sd]).

(** The blocks of one authority above its eviction round. *)
Definition recover_authority (now : Instant) s (a : AuthorityIndex) : outcome DagState :=
  let! last_block := scan_last_blocks_by_author (store s) a 1 None in
  let last_block_round := from_option round GENESIS_ROUND (last last_block) in
  let ev := eviction_round last_block_round (gc_round s) (cached_rounds s) in
  let! blocks := scan_blocks_by_author (store s) a (u32_add ev 1) in
  let! rounds := vec_set (evicted_rounds s) a ev in
  for_each (update_block_metadata now) (set_evicted_rounds rounds s) blocks.

Definition recover_commit_status (gc : Round) s (commit : TrustedCommit) : outcome DagState :=
  for_each (λ s r,
      let! '(s, fresh) := set_committed s r in
      do! rassert fresh "Attempted to set again a block as committed when recovering commit" in
      Ok s)
    s (filter (λ r, gc < ref_round r) (commit_blocks (tcm_inner commit))).

(** The loop from the last commit index downwards; it ends at index 0, so the index
    is enough fuel. *)
Fixpoint recover_commit_statuses (fuel : nat) (gc : Round) s (index : CommitIndex) : outcome DagState :=
  match fuel with
  | O => OutOfFuel
  | Datatypes.S fuel' =>
      let! commits := scan_commits (store s) (commit_range_new index index) in
      match commits with
      | [] => Ok s
      | commit :: _ =>
          if (0 <? gc) && (ref_round (commit_leader (tcm_inner commit)) <=? gc) then Ok s else
          let! s := recover_commit_status gc s commit in
          let index := saturating_sub index 1 in
          if index =? 0 then Ok s else recover_commit_statuses fuel' gc s index
      end
  end.

(** The state before any block is recovered. *)
Definition dag_state_init (cd : Codec) (now : Instant) (ctx : Context) (st : S) : outcome DagState :=
  let n := committee_size (committee ctx) in
  let! genesis_bs := genesis_blocks cd ctx in
  let! lc := read_last_commit st in
  let! info := read_last_commit_info st in
  let '(rounds, start) :=
    match info with
    | Some (cref, ci) => (committed_rounds ci, u32_add (cref_index cref) 1)
    | None => (replicate n 0, 1)
    end in
  let! '(rounds, unscored) :=
    match lc with
    | Some c =>
        let! commits := scan_commits st (commit_range_new start (commit_index (tcm_inner c))) in
        for_each (replay_commit st) (rounds, []) commits
    | None => Ok (rounds, [])
    end in
  let! ss := add_subdags (committee ctx) scoring_subdag_new unscored in
  Ok (mkDagState ctx (list_to_map ((λ b, (reference b, b)) <$> genesis_bs)) ∅ (replicate n ∅)
        (threshold_clock_new 1 now) (replicate n 0) 0 lc rounds ss [] [] [] [] [] st
        (dag_state_cached_rounds ctx `mod` u32_modulus)).

Definition dag_state_new (cd : Codec) (now : Instant) (ctx : Context) (st : S) : outcome DagState :=
  let! s := dag_state_init cd now ctx st in
  let! s := for_each (recover_authority now) s (seq 0 (committee_size (committee ctx))) in
  let! s :=
    match last_commit s with
    | Some c => recover_commit_statuses (Datatypes.S (N.to_nat (commit_index (tcm_inner c))))
                  (gc_round s) s (commit_index (tcm_inner c))
    | None => Ok s
    end in
  let! proposed := scan_blocks_by_author (store s) (own_index ctx) (u32_add (gc_round s) 1) in
  for_each (λ s b, omap_ok fst (link_causal_history s (reference b))) s proposed.
End dag_state.
Arguments DagState S : clear implicits.
