(* ===== verification/DagStateSpec.v ===== *)
(** * The DAG state refines a map of blocks

    The abstract state of [DagState] is one finite map: the genesis blocks, the
    blocks in memory and the blocks in the store.  Under the invariant [dag_ok] the
    cached reads answer from that map, accepting a block inserts into it, flushing
    and evicting leave it alone, and recovery rebuilds it from the store. *)

From S2P Require Import Prelude Collections Weighted Committee Types Fixtures Commits StakeAggregator.
From S2P Require Import ThresholdClock LeaderScoring Storage DagState.

Local Open Scope N_scope.

(** ** Positions of a list *)

Abbreviation indexed l := (imap (λ i r, (i, r)) l) (only parsing).

Lemma indexed_snoc {A} (l : list A) x :
  indexed (l ++ [x]) = indexed l ++ [(length l, x)].
Proof. rewrite imap_app. cbn. by rewrite Nat.add_0_r. Qed.

Lemma indexed_snd {A} (l : list A) : (indexed l).*2 = l.
Proof.
  induction l as [|x l IH] using rev_ind; [done|].
  by rewrite indexed_snoc, fmap_app, IH.
Qed.

(** Filling the positions selected by [P] with [g] of their reference. *)
Lemma fill_missing_spec {B} (P : BlockRef → bool) (g : BlockRef → B) l : ∀ v w,
  length v = length l →
  fill_missing (filter (λ p, P p.2) (indexed l))
    (g <$> (filter (λ p, P p.2) (indexed l)).*2) (v ++ w) =
  zip_with (λ r x, if P r then g r else x) l v ++ w.
Proof.
  induction l as [|r l IH] using rev_ind; intros v w Hlen; [by destruct v|].
  destruct v as [|x v _] using rev_ind.
  { rewrite length_app in Hlen. cbn in Hlen. lia. }
  rewrite !length_app in Hlen. cbn in Hlen.
  rewrite indexed_snoc, filter_app, !fmap_app. unfold fill_missing.
  rewrite zip_with_app by (by rewrite !length_fmap). rewrite foldl_app.
  fold (fill_missing (filter (λ p, P p.2) (indexed l)) (g <$> (filter (λ p, P p.2) (indexed l)).*2)
    ((v ++ [x]) ++ w)).
  rewrite <-app_assoc, IH by lia. rewrite zip_with_app by lia. rewrite <-app_assoc. cbn [app].
  rewrite filter_cons, filter_nil. cbn [snd zip_with]. destruct (P r) eqn:HP.
  - rewrite decide_True by done. cbn.
    replace (length l) with (length (zip_with (λ r x, if P r then g r else x) l v) + 0)%nat
      by (rewrite length_zip_with; lia).
    by rewrite insert_app_r.
  - rewrite decide_False by (intros []). done.
Qed.

Lemma zip_with_fmap_r_same {A B C} (f : A → B → C) (h : A → B) (l : list A) :
  zip_with f l (h <$> l) = (λ x, f x (h x)) <$> l.
Proof. induction l as [|x l IH]; csimpl; congruence. Qed.

Lemma fill_missing_fmap {B} (P : BlockRef → bool) (g h : BlockRef → B) l :
  fill_missing (filter (λ p, P p.2) (indexed l))
    (g <$> (filter (λ p, P p.2) (indexed l)).*2) (h <$> l) =
  (λ r, if P r then g r else h r) <$> l.
Proof.
  rewrite <-(app_nil_r (h <$> l)), fill_missing_spec by (by rewrite length_fmap).
  by rewrite app_nil_r, zip_with_fmap_r_same.
Qed.

Lemma replicate_S_drop {A} n m (x : A) :
  (n < m)%nat → drop n (replicate m x) = x :: drop (Datatypes.S n) (replicate m x).
Proof.
  intros. rewrite !drop_replicate. by replace (m - n)%nat with (Datatypes.S (m - Datatypes.S n)) by lia.
Qed.

Section spec.
Context {S : Type} `{Store S, !StoreLaws S}.
Implicit Types s : DagState S.

(** ** The abstract state and the invariant *)

Definition view s : gmap BlockRef VerifiedBlock :=
  genesis s ∪ (bi_block <$> recent_blocks s) ∪ store_blocks (store s).

Definition ds_committee s : Committee := committee (ds_context s).

(** The caches are consistent with each other. *)
Record cache_ok s : Prop := {
  co_committee : committee_ok (ds_committee s);
  co_own : (own_index (ds_context s) < committee_size (ds_committee s))%nat;
  co_refs_len : length (recent_refs_by_authority s) = committee_size (ds_committee s);
  co_evicted_len : length (evicted_rounds s) = committee_size (ds_committee s);
  co_clock : agg_ok (ds_committee s) (tc_aggregator (ds_threshold_clock s));
  co_genesis r b : genesis s !! r = Some b →
    reference b = r ∧ ref_round r = 0 ∧ (ref_author r < committee_size (ds_committee s))%nat;
  co_genesis_all a : (a < committee_size (ds_committee s))%nat →
    ∃ r, is_Some (genesis s !! r) ∧ ref_author r = a;
  co_recent r info : recent_blocks s !! r = Some info →
    reference (bi_block info) = r ∧ 0 < ref_round r ∧ ref_wf r ∧
    (ref_author r < committee_size (ds_committee s))%nat;
  co_index a refs : recent_refs_by_authority s !! a = Some refs →
    ∀ r, r ∈ refs ↔ ref_author r = a ∧ is_Some (recent_blocks s !! r);
}.

(** The cache, the write buffer and the store are consistent: a block in memory is
    stored or buffered, the newest stored block of each authority and all its
    blocks above the eviction round are in memory. *)
Record dag_ok s : Prop := {
  dok_cache : cache_ok s;
  dok_store : store_ok (store s);
  dok_stored r b : store_blocks (store s) !! r = Some b →
    0 < ref_round r ∧ (ref_author r < committee_size (ds_committee s))%nat;
  dok_agree r b info : store_blocks (store s) !! r = Some b → recent_blocks s !! r = Some info →
    b = bi_block info;
  dok_buffered r info : recent_blocks s !! r = Some info →
    store_blocks (store s) !! r = Some (bi_block info) ∨ bi_block info ∈ blocks_to_write s;
  dok_pending b : b ∈ blocks_to_write s → bi_block <$> recent_blocks s !! reference b = Some b;
  dok_top r b : store_blocks (store s) !! r = Some b →
    ∃ l, is_Some (recent_blocks s !! l) ∧ ref_author l = ref_author r ∧ ref_round r ≤ ref_round l;
  dok_cached : 1 ≤ cached_rounds s;
  dok_evicted a e : evicted_rounds s !! a = Some e →
    e ≤ gc_round s ∧
    (∀ r b, store_blocks (store s) !! r = Some b → ref_author r = a → e < ref_round r →
       is_Some (recent_blocks s !! r)) ∧
    (e = 0 ∨ ∃ l, is_Some (recent_blocks s !! l) ∧ ref_author l = a ∧ e + cached_rounds s ≤ ref_round l);
}.

Definition dok_committee s (Hok : dag_ok s) := co_committee s (dok_cache s Hok).
Definition dok_own s (Hok : dag_ok s) := co_own s (dok_cache s Hok).
Definition dok_refs_len s (Hok : dag_ok s) := co_refs_len s (dok_cache s Hok).
Definition dok_evicted_len s (Hok : dag_ok s) := co_evicted_len s (dok_cache s Hok).
Definition dok_clock s (Hok : dag_ok s) := co_clock s (dok_cache s Hok).
Definition dok_genesis s (Hok : dag_ok s) := co_genesis s (dok_cache s Hok).
Definition dok_genesis_all s (Hok : dag_ok s) := co_genesis_all s (dok_cache s Hok).
Definition dok_recent s (Hok : dag_ok s) := co_recent s (dok_cache s Hok).
Definition dok_index s (Hok : dag_ok s) := co_index s (dok_cache s Hok).

Lemma lookup_view s r b :
  dag_ok s →
  view s !! r = Some b ↔
    genesis s !! r = Some b ∨ bi_block <$> recent_blocks s !! r = Some b ∨
    store_blocks (store s) !! r = Some b.
Proof.
  intros Hok. unfold view. rewrite <-lookup_fmap. split.
  - intros [[?|[_ ?]]%lookup_union_Some_raw|[_ ?]]%lookup_union_Some_raw; tauto.
  - intros Hin. rewrite !lookup_union.
    destruct (genesis s !! r) as [g|] eqn:Hg.
    { destruct (dok_genesis s Hok r g Hg) as (_ & Hr0 & _).
      destruct Hin as [?|[Hrec|Hst]]; [by destruct (store_blocks (store s) !! r), ((bi_block <$> recent_blocks s) !! r)| |].
      - rewrite lookup_fmap in Hrec. apply fmap_Some in Hrec as (i & Hi & _).
        destruct (dok_recent s Hok r i Hi) as (_ & ? & _). lia.
      - destruct (dok_stored s Hok r b Hst) as (? & _). lia. }
    destruct Hin as [?|[Hrec|Hst]]; [done| |].
    { rewrite Hrec. by destruct (store_blocks (store s) !! r). }
    rewrite Hst. rewrite lookup_fmap. destruct (recent_blocks s !! r) as [i|] eqn:Hi; [|done].
    by rewrite (dok_agree s Hok r b i Hst Hi).
Qed.

Lemma view_reference s r b : dag_ok s → view s !! r = Some b → reference b = r.
Proof.
  intros Hok [Hg|[(i & Hi & ->)%fmap_Some|Hst]]%lookup_view; [..|done].
  - by destruct (dok_genesis s Hok r b Hg).
  - by destruct (dok_recent s Hok r i Hi).
  - by destruct (store_ok_key _ _ _ (dok_store s Hok) Hst).
Qed.

(** ** [get_blocks] reads the view *)

Definition in_memory s (r : BlockRef) : option VerifiedBlock :=
  if ref_round r =? GENESIS_ROUND then genesis s !! r else bi_block <$> recent_blocks s !! r.
Definition needs_store s (r : BlockRef) : bool :=
  negb (ref_round r =? GENESIS_ROUND) && bool_decide (recent_blocks s !! r = None).

Lemma get_blocks_cached_gen s l n :
  (length l ≤ n)%nat →
  foldl (λ acc p,
      let '(blocks, missing) := acc in
      let '(index, r) := (p : nat * BlockRef) in
      if ref_round r =? GENESIS_ROUND then
        match genesis s !! r with
        | Some b => (<[index := Some b]> blocks, missing)
        | None => (blocks, missing)
        end
      else match recent_blocks s !! r with
           | Some info => (<[index := Some (bi_block info)]> blocks, missing)
           | None => (blocks, missing ++ [(index, r)])
           end)
    (replicate n None, []) (indexed l) =
  ((in_memory s <$> l) ++ replicate (n - length l) None,
   filter (λ p, needs_store s p.2) (indexed l)).
Proof.
  induction l as [|r l IH] using rev_ind; intros Hn.
  { cbn. by rewrite Nat.sub_0_r. }
  rewrite length_app in Hn |- *. cbn [length] in Hn |- *.
  rewrite indexed_snoc, foldl_app, IH by lia. cbn [foldl].
  rewrite filter_app, filter_cons, filter_nil, fmap_app. cbn [snd fmap list_fmap].
  replace (n - length l)%nat with (Datatypes.S (n - (length l + 1)))%nat by lia. cbn [replicate].
  assert (Hins : ∀ o : option VerifiedBlock, <[length l := o]> ((in_memory s <$> l) ++ None :: replicate (n - (length l + 1)) None)
    = ((in_memory s <$> l) ++ [o]) ++ replicate (n - (length l + 1)) None).
  { intros o. replace (length l) with (length (in_memory s <$> l) + 0)%nat at 1 by (rewrite length_fmap; lia).
    rewrite insert_app_r. cbn. by rewrite <-app_assoc. }
  assert (Hnone : (in_memory s <$> l) ++ None :: replicate (n - (length l + 1)) None
    = ((in_memory s <$> l) ++ [None]) ++ replicate (n - (length l + 1)) None) by (by rewrite <-app_assoc).
  assert (Hns : needs_store s r = negb (ref_round r =? GENESIS_ROUND) &&
    bool_decide (recent_blocks s !! r = None)) by done.
  assert (Him : in_memory s r = if ref_round r =? GENESIS_ROUND then genesis s !! r
    else bi_block <$> recent_blocks s !! r) by done.
  rewrite Hns, Him. clear Hns Him.
  destruct (ref_round r =? GENESIS_ROUND); cbn [negb andb].
  - rewrite decide_False by (intros []). rewrite app_nil_r.
    destruct (genesis s !! r); [by rewrite Hins|by rewrite Hnone].
  - destruct (recent_blocks s !! r) as [i|]; cbn.
    + rewrite app_nil_r. by rewrite Hins.
    + by rewrite Hnone.
Qed.

Lemma get_blocks_view s refs :
  dag_ok s → get_blocks s refs = Ok ((λ r, view s !! r) <$> refs).
Proof.
  intros Hok. unfold get_blocks, get_blocks_cached. rewrite get_blocks_cached_gen by done.
  rewrite Nat.sub_diag, app_nil_r.
  assert (Hview : ∀ r, view s !! r = if needs_store s r then store_blocks (store s) !! r else in_memory s r).
  { intros r. apply option_eq. intros b. rewrite lookup_view by done.
    unfold needs_store, in_memory. destruct (N.eqb_spec (ref_round r) GENESIS_ROUND) as [Hr|Hr]; cbn.
    - split; [|tauto]. unfold GENESIS_ROUND in Hr. intros [?|[(i & Hi & _)%fmap_Some|Hst]]; [done| |].
      + destruct (dok_recent s Hok r i Hi) as (_ & ? & _). lia.
      + destruct (dok_stored s Hok r b Hst) as (? & _). lia.
    - assert (genesis s !! r ≠ Some b).
      { intros Hg. destruct (dok_genesis s Hok r b Hg) as (_ & ? & _). by apply Hr. }
      case_bool_decide as Hrec.
      + rewrite Hrec. naive_solver.
      + destruct (recent_blocks s !! r) as [i|] eqn:Hi; [|done]. cbn. split; [|naive_solver].
        intros [?|[?|Hst]]; [done|done|]. by rewrite (dok_agree s Hok r b i Hst Hi). }
  trans (Ok ((λ r, if needs_store s r then store_blocks (store s) !! r else in_memory s r) <$> refs)).
  2: { f_equal. apply fmap_ext_in. intros r _. by rewrite Hview. }
  rewrite <-(fill_missing_fmap (needs_store s)).
  destruct (filter (λ p, needs_store s p.2) (indexed refs)) as [|m missing] eqn:Hm; [done|].
  by rewrite read_blocks_law.
Qed.

Lemma get_block_refines s r : dag_ok s → get_block s r = Ok (view s !! r).
Proof. intros Hok. unfold get_block. by rewrite get_blocks_view. Qed.

(** ** [contains_blocks] is membership in the view *)

Definition cached_refs s (a : AuthorityIndex) : gset BlockRef :=
  default ∅ (recent_refs_by_authority s !! a).

Lemma cached_refs_lookup s a :
  cache_ok s → (a < committee_size (ds_committee s))%nat →
  vec_get (recent_refs_by_authority s) a = Ok (cached_refs s a).
Proof.
  intros Hok Ha. rewrite <-(co_refs_len s Hok) in Ha. unfold vec_get, cached_refs.
  destruct (lookup_lt_is_Some_2 _ _ Ha) as [refs ->]. done.
Qed.

Lemma elem_of_cached_refs s a r :
  cache_ok s → (a < committee_size (ds_committee s))%nat →
  r ∈ cached_refs s a ↔ ref_author r = a ∧ is_Some (recent_blocks s !! r).
Proof.
  intros Hok Ha. rewrite <-(co_refs_len s Hok) in Ha. unfold cached_refs.
  destruct (lookup_lt_is_Some_2 _ _ Ha) as [refs Hrefs]. rewrite Hrefs. cbn.
  by apply (co_index s Hok).
Qed.

Definition known_in_memory s (r : BlockRef) : bool :=
  bool_decide (r ∈ cached_refs s (ref_author r)) || bool_decide (is_Some (genesis s !! r)).
Definition asks_store s (r : BlockRef) : bool :=
  negb (known_in_memory s r) &&
  match bset_last (cached_refs s (ref_author r)) with
  | None => false
  | Some l => negb (ref_round l <? ref_round r)
  end.

Lemma contains_blocks_cached_gen s l n :
  dag_ok s → (length l ≤ n)%nat →
  (∀ r, r ∈ l → (ref_author r < committee_size (ds_committee s))%nat) →
  for_each (λ acc (p : nat * BlockRef),
      let '(found, missing) := (acc : list bool * list (nat * BlockRef)) in
      let '(index, r) := p in
      let! recent_refs := vec_get (recent_refs_by_authority s) (ref_author r) in
      if bool_decide (r ∈ recent_refs) || bool_decide (is_Some (genesis s !! r)) then
        Ok (<[index := true]> found, missing)
      else match bset_last recent_refs with
           | None => Ok (<[index := false]> found, missing)
           | Some l =>
               if ref_round l <? ref_round r then Ok (<[index := false]> found, missing)
               else Ok (found, missing ++ [(index, r)])
           end)
    (replicate n false, []) (indexed l) =
  Ok ((known_in_memory s <$> l) ++ replicate (n - length l) false,
      filter (λ p, asks_store s p.2) (indexed l)).
Proof.
  intros Hok. induction l as [|r l IH] using rev_ind; intros Hn Hval.
  { cbn. by rewrite Nat.sub_0_r. }
  rewrite length_app in Hn |- *. cbn [length] in Hn |- *.
  rewrite indexed_snoc, for_each_app, IH; [|lia|set_solver]. cbn [obind for_each].
  rewrite cached_refs_lookup by (apply Hok || (apply Hval; set_solver)). cbn [obind].
  rewrite filter_app, filter_cons, filter_nil, fmap_app. cbn [snd fmap list_fmap].
  replace (n - length l)%nat with (Datatypes.S (n - (length l + 1)))%nat by lia. cbn [replicate].
  assert (Hins : ∀ o : bool, <[length l := o]> ((known_in_memory s <$> l) ++ false :: replicate (n - (length l + 1)) false)
    = ((known_in_memory s <$> l) ++ [o]) ++ replicate (n - (length l + 1)) false).
  { intros o. replace (length l) with (length (known_in_memory s <$> l) + 0)%nat at 1 by (rewrite length_fmap; lia).
    rewrite insert_app_r. cbn. by rewrite <-app_assoc. }
  assert (Hnone : (known_in_memory s <$> l) ++ false :: replicate (n - (length l + 1)) false
    = ((known_in_memory s <$> l) ++ [false]) ++ replicate (n - (length l + 1)) false) by (by rewrite <-app_assoc).
  assert (Hns : asks_store s r = negb (known_in_memory s r) &&
    match bset_last (cached_refs s (ref_author r)) with
    | None => false | Some l => negb (ref_round l <? ref_round r) end) by done.
  assert (Him : known_in_memory s r = bool_decide (r ∈ cached_refs s (ref_author r)) ||
    bool_decide (is_Some (genesis s !! r))) by done.
  rewrite Hns, Him. clear Hns Him.
  destruct (bool_decide (r ∈ cached_refs s (ref_author r)) || bool_decide (is_Some (genesis s !! r)));
    cbn [negb andb].
  - rewrite decide_False by (intros []). by rewrite app_nil_r, Hins.
  - destruct (bset_last (cached_refs s (ref_author r))) as [top|].
    + destruct (ref_round top <? ref_round r); cbn; rewrite ?app_nil_r, ?Hins, ?Hnone; done.
    + rewrite decide_False by (intros []). by rewrite app_nil_r, Hins.
Qed.

(** Skipping the store for references above the newest cached one loses nothing. *)
Lemma asks_store_correct s r :
  dag_ok s → (ref_author r < committee_size (ds_committee s))%nat →
  bool_decide (is_Some (view s !! r)) =
  if asks_store s r then bool_decide (is_Some (store_blocks (store s) !! r)) else known_in_memory s r.
Proof.
  intros Hok Hr. unfold asks_store, known_in_memory.
  pose proof (elem_of_cached_refs s (ref_author r) r (dok_cache s Hok) Hr) as Hrefs.
  assert (Hv : is_Some (view s !! r) ↔ r ∈ cached_refs s (ref_author r) ∨ is_Some (genesis s !! r) ∨
    is_Some (store_blocks (store s) !! r)).
  { rewrite Hrefs. unfold is_Some. setoid_rewrite lookup_view; [|done].
    setoid_rewrite fmap_Some. naive_solver. }
  rewrite (bool_decide_ext _ _ Hv).
  destruct (decide (r ∈ cached_refs s (ref_author r))) as [?|Hnr]; [by rewrite !bool_decide_eq_true_2 by tauto|].
  rewrite (bool_decide_eq_false_2 (r ∈ _)) by done. cbn [orb].
  destruct (decide (is_Some (genesis s !! r))); [by rewrite !bool_decide_eq_true_2 by tauto|].
  rewrite (bool_decide_eq_false_2 (is_Some (genesis s !! r))) by done. cbn [negb andb].
  rewrite (bool_decide_ext (_ ∨ _) (is_Some (store_blocks (store s) !! r))) by tauto.
  destruct (bset_last (cached_refs s (ref_author r))) as [top|] eqn:Htop.
  - destruct (N.ltb_spec (ref_round top) (ref_round r)) as [Hlt|]; cbn [negb]; [|done].
    apply bool_decide_eq_false_2. intros [b Hb].
    destruct (dok_top s Hok r b Hb) as (l & Hl & Hla & Hlr).
    assert (l ∈ cached_refs s (ref_author r)) as Hlin by (apply elem_of_cached_refs; [apply Hok|done..]).
    pose proof (ord_leb_ref_round _ _ (bset_last_max _ _ _ Htop Hlin)). lia.
  - apply bool_decide_eq_false_2. intros [b Hb]. apply bset_last_None in Htop.
    destruct (dok_top s Hok r b Hb) as (l & Hl & Hla & Hlr).
    assert (l ∈ cached_refs s (ref_author r)) as Hlin by (apply elem_of_cached_refs; [apply Hok|done..]). set_solver.
Qed.

Lemma contains_blocks_view s refs :
  dag_ok s → (∀ r, r ∈ refs → (ref_author r < committee_size (ds_committee s))%nat) →
  contains_blocks s refs = Ok ((λ r, bool_decide (is_Some (view s !! r))) <$> refs).
Proof.
  intros Hok Hval. unfold contains_blocks, contains_blocks_cached.
  rewrite contains_blocks_cached_gen by done. cbn [obind]. rewrite Nat.sub_diag, app_nil_r.
  assert (Hview := λ r Hr, asks_store_correct s r Hok (Hval r Hr)).
  trans (Ok ((λ r, if asks_store s r then bool_decide (is_Some (store_blocks (store s) !! r))
                   else known_in_memory s r) <$> refs)).
  2: { f_equal. apply fmap_ext_in. intros r Hr. by rewrite Hview. }
  rewrite <-(fill_missing_fmap (asks_store s)).
  destruct (filter (λ p, asks_store s p.2) (indexed refs)) as [|m missing] eqn:Hm; [done|].
  by rewrite contains_blocks_law.
Qed.
(** ** Accepting a block *)

Lemma get_last_block_total s a :
  cache_ok s → (a < committee_size (ds_committee s))%nat →
  ∃ b, get_last_block_for_authority s a = Ok b ∧ author b = a.
Proof.
  intros Hok Ha. unfold get_last_block_for_authority. rewrite cached_refs_lookup by done. cbn [obind].
  destruct (bset_last (cached_refs s a)) as [l|] eqn:Hl.
  - apply bset_last_Some, elem_of_cached_refs in Hl as [Hla [i Hi]]; [|done|done].
    rewrite Hi. cbn. eexists; split; [done|]. destruct (co_recent s Hok l i Hi) as (<- & _). done.
  - destruct (co_genesis_all s Hok a Ha) as (r & [b Hb] & Hr).
    assert (∃ n p, list_find (λ p, ref_author p.1 = a) (btree_iter (genesis s)) = Some (n, p)) as (n & p & Hf).
    { assert (is_Some (list_find (λ p, ref_author p.1 = a) (btree_iter (genesis s)))) as [[n p] ?]; [|eauto].
      apply (list_find_elem_of _ _ (r, b)); [by apply elem_of_btree_iter|done]. }
    rewrite Hf. cbn. eexists; split; [done|].
    apply list_find_Some in Hf as (Hn & Hpa & _). destruct p as [r' b']. cbn in *.
    apply list_elem_of_lookup_2, elem_of_btree_iter in Hn.
    destruct (co_genesis s Hok r' b' Hn) as (<- & _). done.
Qed.

(** The state after the caches have taken in a block. *)
Definition with_block s (block : VerifiedBlock) (tc : ThresholdClock) : DagState S :=
  let r := reference block in
  set_highest_accepted_round (N.max (highest_accepted_round s) (round block))
    (set_clock tc (set_recent (<[r := block_info_new block]> (recent_blocks s))
      (<[author block := {[r]} ∪ cached_refs s (author block)]> (recent_refs_by_authority s)) s)).

Lemma index_insert s block :
  cache_ok s → (author block < committee_size (ds_committee s))%nat →
  ∀ a refs, <[author block := {[reference block]} ∪ cached_refs s (author block)]>
      (recent_refs_by_authority s) !! a = Some refs →
    ∀ r, r ∈ refs ↔ ref_author r = a ∧
      is_Some (<[reference block := block_info_new block]> (recent_blocks s) !! r).
Proof.
  intros Hok Ha a refs Hrefs r. rewrite lookup_insert_is_Some'.
  apply list_lookup_insert_Some in Hrefs as [(<- & <- & _)|[Hne Hrefs]].
  - rewrite elem_of_union, elem_of_singleton, elem_of_cached_refs by done.
    split; [|naive_solver]. intros [->|[? ?]]; [|tauto]. split; [done|by left].
  - rewrite (co_index s Hok a refs Hrefs). split; [tauto|]. intros [<- [Heq|?]]; [|tauto].
    exfalso. apply Hne. by rewrite <-Heq.
Qed.

Lemma cache_ok_with_block s block tc :
  cache_ok s → agg_ok (ds_committee s) (tc_aggregator tc) →
  0 < round block → ref_wf (reference block) → (author block < committee_size (ds_committee s))%nat →
  cache_ok (with_block s block tc).
Proof.
  intros Hok Htc Hr Hwf Ha. split; try apply Hok; cbn.
  - rewrite length_insert. apply Hok.
  - done.
  - intros r info [[<- <-]|[_ Hi]]%lookup_insert_Some; [done|]. by apply (co_recent s Hok).
  - by apply index_insert.
Qed.

Lemma update_block_metadata_spec now s block :
  cache_ok s → 0 < round block → ref_wf (reference block) →
  (author block < committee_size (ds_committee s))%nat →
  ∃ tc, update_block_metadata now s block = Ok (with_block s block tc) ∧
    cache_ok (with_block s block tc).
Proof.
  intros Hok Hr Hwf Ha. unfold update_block_metadata. cbn [ref_author reference].
  rewrite cached_refs_lookup by done. cbn [obind].
  destruct (add_block_total (ds_committee s) now (ds_threshold_clock s) (reference block))
    as (tc & adv & Hadd & Htc); [apply Hok|apply Hok|done|].
  cbn [ds_context set_recent ds_threshold_clock]. unfold ds_committee in Hadd. rewrite Hadd. cbn [obind].
  pose proof (cache_ok_with_block s block tc Hok Htc Hr Hwf Ha) as Hok'. exists tc. split; [|done].
  match goal with |- obind (if adv then omap_ok _ (get_last_proposed_block ?t) else _) _ = _ =>
    assert (∃ b, get_last_proposed_block t = Ok b) as [b Hb] end.
  { destruct (get_last_block_total (with_block s block tc) (own_index (ds_context s)) Hok') as (b & Hb & _);
      [apply Hok|]. by exists b. }
  rewrite Hb. assert (∀ k : unit → outcome (DagState S),
    obind (if adv then omap_ok (λ _, tt) (Ok b) else Ok tt) k = k tt) as -> by (by destruct adv).
  match goal with |- obind (vec_get ?v ?a) _ = _ => assert (vec_get v a = Ok ({[reference block]} ∪ cached_refs s (author block))) as -> end.
  { cbn. unfold vec_get. rewrite list_lookup_insert_eq; [done|]. by rewrite (co_refs_len s Hok). }
  cbn [obind]. destruct (bset_last _) as [l|] eqn:Hl.
  2: { apply bset_last_None in Hl. set_solver. }
  cbn [expect obind]. unfold authority, vec_get. cbn.
  destruct (lookup_lt_is_Some_2 _ _ Ha) as [x Hx]. unfold ds_committee in Hx. rewrite Hx. done.
Qed.

(** Accepting: the cache takes the block in and the buffer records it. *)
Definition accepted s (block : VerifiedBlock) (tc : ThresholdClock) : DagState S :=
  set_buffers (blocks_to_write s ++ [block]) (commits_to_write s) (commit_info_to_write s)
    (finalized_commits_to_write s) (with_block s block tc).

Lemma dag_ok_accepted s block tc :
  dag_ok s → agg_ok (ds_committee s) (tc_aggregator tc) →
  0 < round block → ref_wf (reference block) → (author block < committee_size (ds_committee s))%nat →
  view s !! reference block = None →
  dag_ok (accepted s block tc) ∧ view (accepted s block tc) = <[reference block := block]> (view s).
Proof.
  intros Hok Htc Hr Hwf Ha Hnew.
  assert (Hmono : ∀ r, is_Some (recent_blocks s !! r) →
    is_Some (<[reference block := block_info_new block]> (recent_blocks s) !! r))
    by (intros r ?; rewrite lookup_insert_is_Some'; tauto).
  unfold view in Hnew. apply lookup_union_None in Hnew as [[Hg Hrec]%lookup_union_None Hst].
  rewrite lookup_fmap in Hrec. apply fmap_None in Hrec. split.
  - split; try apply Hok; cbn.
    + destruct (cache_ok_with_block s block tc (dok_cache s Hok) Htc Hr Hwf Ha). by split.
    + intros r b info Hb [[<- <-]|[_ Hi]]%lookup_insert_Some; [congruence|]. by apply (dok_agree s Hok r).
    + intros r info [[<- <-]|[_ Hi]]%lookup_insert_Some; [right; set_solver|].
      destruct (dok_buffered s Hok r info Hi); [by left|right; set_solver].
    + intros b [Hb| ->%list_elem_of_singleton]%elem_of_app; [|by rewrite lookup_insert_eq].
      pose proof (dok_pending s Hok b Hb) as Hp. rewrite lookup_insert_ne; [done|].
      intros Heq. by rewrite <-Heq, Hrec in Hp.
    + intros r b Hb. destruct (dok_top s Hok r b Hb) as (l & Hl & Hrest). exists l. auto.
    + intros a e He. destruct (dok_evicted s Hok a e He) as (Hgc & Hin & Hlast).
      split; [done|]. split; [intros r b Hb Har Hlt; by eapply Hmono, Hin|].
      destruct Hlast as [->|(l & Hl & Hrest)]; [by left|right; exists l; auto].
  - unfold view. cbn. rewrite fmap_insert. cbn.
    rewrite <-insert_union_r by done. by rewrite <-insert_union_l.
Qed.

Lemma contains_block_view s r :
  dag_ok s → (ref_author r < committee_size (ds_committee s))%nat →
  contains_block s r = Ok (bool_decide (is_Some (view s !! r))).
Proof.
  intros Hok Hr. unfold contains_block. rewrite contains_blocks_view; [done|done|].
  intros r' ->%list_elem_of_singleton. done.
Qed.

Lemma accept_block_spec now s block :
  dag_ok s → 0 < round block → ref_wf (reference block) →
  (author block < committee_size (ds_committee s))%nat →
  (author block = own_index (ds_context s) → view s !! reference block = None →
     get_uncommitted_blocks_at_slot s (slot_from (reference block)) = []) →
  ∃ s', accept_block now s block = Ok s' ∧ dag_ok s' ∧
    view s' = (if decide (is_Some (view s !! reference block)) then view s
               else <[reference block := block]> (view s)) ∧
    ds_context s' = ds_context s ∧ last_commit s' = last_commit s ∧ store s' = store s ∧
    (s' = s ∨ blocks_to_write s' = blocks_to_write s ++ [block]).
Proof.
  intros Hok Hr Hwf Ha Hown. unfold accept_block.
  rewrite rassert_true by (apply negb_true_iff, N.eqb_neq; lia). cbn [obind].
  rewrite contains_block_view by done. cbn [obind].
  case_bool_decide as Hknown; [rewrite decide_True by done|rewrite decide_False by done].
  { exists s. split; [done|]. split; [done|]. tauto. }
  assert (Hnew : view s !! reference block = None) by (by apply eq_None_not_Some).
  unfold authority, vec_get. destruct (lookup_lt_is_Some_2 _ _ Ha) as [x Hx].
  unfold ds_committee in Hx. cbn [ref_author reference]. rewrite Hx. cbn [expect obind].
  assert ((if (author block =? own_index (ds_context s))%nat then
    rassert (bool_decide (get_uncommitted_blocks_at_slot s (slot_from (reference block)) = []))
      "Block Rejected! Attempted to add block to own slot where block(s) already exists."
    else Ok tt) = Ok tt) as ->.
  { destruct (Nat.eqb_spec (author block) (own_index (ds_context s))); [|done].
    rewrite bool_decide_eq_true_2; [done|]. auto. }
  cbn [obind].
  destruct (update_block_metadata_spec now s block (dok_cache s Hok) Hr Hwf Ha) as (tc & -> & Hcache).
  cbn [obind]. exists (accepted s block tc). split; [done|].
  destruct (dag_ok_accepted s block tc Hok (co_clock _ Hcache) Hr Hwf Ha Hnew). tauto.
Qed.

(** ** Flushing *)

Lemma insert_blocks_app bs1 bs2 m :
  insert_blocks (bs1 ++ bs2) m = insert_blocks bs2 (insert_blocks bs1 m).
Proof. apply foldl_app. Qed.

Lemma insert_blocks_Some bs m r b :
  insert_blocks bs m !! r = Some b → b ∈ bs ∧ reference b = r ∨ m !! r = Some b.
Proof.
  induction bs as [|x bs IH] using rev_ind; [by right|]. rewrite insert_blocks_app. cbn.
  intros [[<- <-]|[_ Hb]]%lookup_insert_Some; [left; set_solver|].
  destruct (IH Hb) as [[? ?]|?]; [left; set_solver|by right].
Qed.

Lemma insert_blocks_keep bs m r b :
  m !! r = Some b ∨ b ∈ bs ∧ reference b = r →
  (∀ b', b' ∈ bs → reference b' = r → b' = b) → insert_blocks bs m !! r = Some b.
Proof.
  induction bs as [|x bs IH] using rev_ind; intros Hin Huniq; [cbn; set_solver|].
  rewrite insert_blocks_app. cbn. destruct (decide (reference x = r)) as [<-|Hne].
  - rewrite lookup_insert_eq. f_equal. apply Huniq; [set_solver|done].
  - rewrite lookup_insert_ne by done. apply IH; set_solver.
Qed.

(** Every cached block is in the store. *)
Definition flushed s : Prop :=
  ∀ r info, recent_blocks s !! r = Some info → store_blocks (store s) !! r = Some (bi_block info).

Definition persisted s (st : S) : DagState S := set_store st (set_buffers [] [] [] [] s).

Lemma dag_ok_persisted s st :
  dag_ok s → store_ok st →
  store_blocks st = insert_blocks (blocks_to_write s) (store_blocks (store s)) →
  dag_ok (persisted s st) ∧ flushed (persisted s st) ∧ view (persisted s st) = view s.
Proof.
  intros Hok Hst Hblocks.
  assert (Hcases : ∀ r b, store_blocks st !! r = Some b →
    store_blocks (store s) !! r = Some b ∨ bi_block <$> recent_blocks s !! r = Some b).
  { intros r b. rewrite Hblocks. intros [[Hb <-]|?]%insert_blocks_Some; [|by left].
    right. by apply (dok_pending s Hok). }
  assert (Hkeep : ∀ r info, recent_blocks s !! r = Some info → store_blocks st !! r = Some (bi_block info)).
  { intros r info Hi. rewrite Hblocks. apply insert_blocks_keep.
    - destruct (co_recent s (dok_cache s Hok) r info Hi) as (Href & _).
      destruct (dok_buffered s Hok r info Hi); tauto.
    - intros b Hb <-. pose proof (dok_pending s Hok b Hb) as Hp. rewrite Hi in Hp. by injection Hp. }
  assert (Hold : ∀ r b, store_blocks (store s) !! r = Some b → store_blocks st !! r = Some b).
  { intros r b Hb. rewrite Hblocks. apply insert_blocks_keep; [by left|].
    intros b' Hb' <-. pose proof (dok_pending s Hok b' Hb') as (i & Hi & ->)%fmap_Some.
    symmetry. by apply (dok_agree s Hok (reference (bi_block i)) b i). }
  assert (Hok' : dag_ok (persisted s st)).
  { split; try done; cbn.
    - destruct (dok_cache s Hok). by split.
    - intros r b [Hb|(i & Hi & _)%fmap_Some]%Hcases; [by apply (dok_stored s Hok r b)|].
      destruct (co_recent s (dok_cache s Hok) r i Hi) as (_ & ? & _ & ?). done.
    - intros r b info Hb Hi. apply Hkeep in Hi. congruence.
    - intros r info Hi. left. by apply Hkeep.
    - intros b Hb. set_solver.
    - intros r b [Hb|(i & Hi & _)%fmap_Some]%Hcases; [by apply (dok_top s Hok r b)|].
      exists r. split; [by eexists|]. split; [done|lia].
    - apply (dok_cached s Hok).
    - intros a e He. destruct (dok_evicted s Hok a e He) as (Hgc & Hin & Hlast).
      split; [done|]. split; [|done]. intros r b Hb Hra Hlt.
      apply Hcases in Hb as [Hb|(i & Hi & _)%fmap_Some]; [by apply (Hin r b)|by eexists]. }
  split; [done|]. split; [done|]. apply map_eq. intros r. apply option_eq. intros b.
  rewrite !lookup_view by done. cbn. split; [|naive_solver].
  intros [?|[?|Hb]]; [tauto|tauto|]. apply Hcases in Hb. tauto.
Qed.

(** The eviction loop removes exactly the references at or below the round. *)
Lemma evict_refs_spec ev order : ∀ blocks refs,
  StronglySorted (λ a b : BlockRef, ord_leb a b) order →
  let '(blocks', refs') := evict_refs ev order blocks refs in
  (∀ r, blocks' !! r = if decide (r ∈ order ∧ ref_round r ≤ ev) then None else blocks !! r) ∧
  (∀ r, r ∈ refs' ↔ r ∈ refs ∧ ¬ (r ∈ order ∧ ref_round r ≤ ev)).
Proof.
  induction order as [|x order IH]; intros blocks refs Hs; cbn.
  { split; intros r; [rewrite decide_False|]; set_solver. }
  apply StronglySorted_cons in Hs as [Hx Hs]. rewrite Forall_forall in Hx.
  destruct (N.leb_spec (ref_round x) ev) as [Hle|Hgt].
  - specialize (IH (delete x blocks) (refs ∖ {[x]}) Hs).
    destruct (evict_refs ev order (delete x blocks) (refs ∖ {[x]})) as [blocks' refs'].
    destruct IH as [Hb Hr]. split; intros r.
    + rewrite Hb. destruct (decide (r = x)) as [->|Hne].
      * rewrite lookup_delete_eq. by repeat case_decide; set_solver.
      * rewrite lookup_delete_ne by done.
        rewrite (decide_ext (r ∈ x :: order ∧ ref_round r ≤ ev) (r ∈ order ∧ ref_round r ≤ ev)) by set_solver.
        done.
    + rewrite Hr. destruct (decide (r = x)) as [->|Hne]; set_solver.
  - assert (Hno : ∀ r, ¬ (r ∈ x :: order ∧ ref_round r ≤ ev)).
    { intros r [[->|Hr]%elem_of_cons Hle]; [lia|].
      pose proof (ord_leb_ref_round x r (proj1 (Is_true_true _) (Hx r Hr))). lia. }
    split; intros r; [by rewrite decide_False|]. specialize (Hno r). tauto.
Qed.

Lemma cached_top s a r :
  cache_ok s → (a < committee_size (ds_committee s))%nat →
  ref_author r = a → is_Some (recent_blocks s !! r) →
  ∃ top, bset_last (cached_refs s a) = Some top ∧ is_Some (recent_blocks s !! top) ∧
    ref_author top = a ∧ ref_round r ≤ ref_round top.
Proof.
  intros Hok Ha Hra Hr.
  assert (Hin : r ∈ cached_refs s a) by (by apply elem_of_cached_refs).
  destruct (bset_last (cached_refs s a)) as [top|] eqn:Htop.
  - exists top. split; [done|]. pose proof (bset_last_Some _ _ Htop) as Hti.
    apply elem_of_cached_refs in Hti as [? ?]; [|done..].
    pose proof (ord_leb_ref_round _ _ (bset_last_max _ _ _ Htop Hin)). tauto.
  - apply bset_last_None in Htop. set_solver.
Qed.

Definition eviction_target s (a : AuthorityIndex) : Round :=
  eviction_round (from_option ref_round GENESIS_ROUND (bset_last (cached_refs s a)))
    (gc_round s) (cached_rounds s).

(** The eviction round of an authority never moves back. *)
Lemma eviction_target_mono s a e :
  dag_ok s → evicted_rounds s !! a = Some e → e ≤ eviction_target s a.
Proof.
  intros Hok He. destruct (dok_evicted s Hok a e He) as (Hgc & _ & Hlast).
  assert ((a < committee_size (ds_committee s))%nat) as Ha
    by (rewrite <-(dok_evicted_len s Hok); by eapply lookup_lt_Some).
  unfold eviction_target, eviction_round, saturating_sub. apply N.min_glb; [done|].
  destruct Hlast as [->|(l & Hl & Hla & Hle)]; [lia|].
  destruct (cached_top s a l (dok_cache s Hok) Ha Hla Hl) as (top & -> & _ & _ & Hlt). cbn. lia.
Qed.

(** ... and stays below the newest cached block of the authority. *)
Lemma eviction_target_top s a r :
  dag_ok s → (a < committee_size (ds_committee s))%nat →
  ref_author r = a → is_Some (recent_blocks s !! r) →
  ∃ top, bset_last (cached_refs s a) = Some top ∧ is_Some (recent_blocks s !! top) ∧
    ref_author top = a ∧ ref_round r ≤ ref_round top ∧ eviction_target s a < ref_round top ∧
    (eviction_target s a = 0 ∨ eviction_target s a + cached_rounds s ≤ ref_round top).
Proof.
  intros Hok Ha Hra Hr.
  destruct (cached_top s a r (dok_cache s Hok) Ha Hra Hr) as (top & Htop & [i Hi] & Hta & Hle).
  exists top. destruct (dok_recent s Hok top i Hi) as (_ & Hpos & _).
  pose proof (dok_cached s Hok). unfold eviction_target. rewrite Htop. cbn.
  unfold eviction_round, saturating_sub. split; [done|]. split; [by eexists|]. lia.
Qed.

Definition evicted s (a : AuthorityIndex) (blocks : gmap BlockRef BlockInfo) (refs : gset BlockRef) :
    DagState S :=
  set_evicted_rounds (<[a := eviction_target s a]> (evicted_rounds s))
    (set_recent blocks (<[a := refs]> (recent_refs_by_authority s)) s).

Lemma evict_authority_eq s a :
  dag_ok s → (a < committee_size (ds_committee s))%nat →
  let '(blocks, refs) := evict_refs (eviction_target s a) (bset_iter (cached_refs s a))
    (recent_blocks s) (cached_refs s a) in
  evict_authority s a = Ok (evicted s a blocks refs).
Proof.
  intros Hok Ha. unfold evict_authority, calculate_authority_eviction_round.
  rewrite cached_refs_lookup by (apply Hok || done). cbn [obind].
  fold (eviction_target s a). destruct (evict_refs _ _ _ _) as [blocks refs].
  unfold vec_set. rewrite decide_True; [done|]. cbn. by rewrite (dok_evicted_len s Hok).
Qed.

Lemma evicted_spec s a :
  dag_ok s → (a < committee_size (ds_committee s))%nat →
  ∃ blocks refs, evict_authority s a = Ok (evicted s a blocks refs) ∧
    (∀ r info, blocks !! r = Some info ↔ recent_blocks s !! r = Some info ∧
       (ref_author r = a → eviction_target s a < ref_round r)) ∧
    (∀ r, r ∈ refs ↔ ref_author r = a ∧ is_Some (blocks !! r)).
Proof.
  intros Hok Ha. pose proof (evict_authority_eq s a Hok Ha) as Heq.
  pose proof (evict_refs_spec (eviction_target s a) (bset_iter (cached_refs s a)) (recent_blocks s)
    (cached_refs s a) (bset_iter_sorted _)) as Hspec.
  destruct (evict_refs _ _ _ _) as [blocks refs]. destruct Hspec as [Hb Hr].
  assert (Hiff : ∀ r info, blocks !! r = Some info ↔ recent_blocks s !! r = Some info ∧
       (ref_author r = a → eviction_target s a < ref_round r)).
  { intros r info. rewrite Hb. case_decide as Hd;
      rewrite elem_of_bset_iter, elem_of_cached_refs in Hd by (apply Hok || done); split; try done.
    - intros [Hi Hgt]. destruct Hd as [[Hra _] Hle]. specialize (Hgt Hra). lia.
    - intros Hi. split; [done|]. intros Hra. apply N.nle_gt. intros Hle. apply Hd. rewrite Hi. eauto.
    - tauto. }
  exists blocks, refs. split; [done|]. split; [done|]. intros r.
  rewrite Hr, elem_of_bset_iter, elem_of_cached_refs by (apply Hok || done). unfold is_Some.
  setoid_rewrite Hiff. split.
  - intros [[Hra [i Hi]] Hno]. split; [done|]. exists i. split; [done|].
    intros _. apply N.nle_gt. intros Hle. apply Hno. split; [|done]. eauto.
  - intros (Hra & i & Hi & Hgt). split; [eauto|]. intros [_ Hle]. specialize (Hgt Hra). lia.
Qed.

Lemma evict_authority_spec s a :
  dag_ok s → flushed s → blocks_to_write s = [] → (a < committee_size (ds_committee s))%nat →
  ∃ s', evict_authority s a = Ok s' ∧ dag_ok s' ∧ flushed s' ∧ blocks_to_write s' = [] ∧
    view s' = view s ∧ store s' = store s ∧ ds_context s' = ds_context s ∧ last_commit s' = last_commit s.
Proof.
  intros Hok Hfl Hbtw Ha. destruct (evicted_spec s a Hok Ha) as (blocks & refs & Heq & Hb & Hr).
  exists (evicted s a blocks refs). split; [done|].
  assert (Hsub : ∀ r, is_Some (recent_blocks s !! r) → ref_author r ≠ a → is_Some (blocks !! r)).
  { intros r [i Hi] Hne. exists i. apply Hb. tauto. }
  assert (Htop : ∀ r, is_Some (recent_blocks s !! r) → ∃ l, is_Some (blocks !! l) ∧
    ref_author l = ref_author r ∧ ref_round r ≤ ref_round l ∧ (ref_author r = a →
    eviction_target s a = 0 ∨ eviction_target s a + cached_rounds s ≤ ref_round l)).
  { intros r Hrs. destruct (decide (ref_author r = a)) as [Hra|Hra].
    - destruct (eviction_target_top s a r Hok Ha Hra Hrs) as (top & _ & [i Hi] & Hta & Hle & Hlt & Hc).
      exists top. split; [exists i; apply Hb; tauto|]. split; [congruence|]. tauto.
    - exists r. split; [by apply Hsub|]. split; [done|]. split; [lia|done]. }
  assert (Hok' : dag_ok (evicted s a blocks refs)).
  { split; cbn; try (apply Hok || done).
    - destruct (dok_cache s Hok) as [H1 H2 H3 H4 H5 H6 H7 H8 H9].
      split; cbn; try done; rewrite ?length_insert; try done.
      + intros r info [Hi _]%Hb. by apply H8.
      + intros x refs' [(<- & <- & _)|[Hne Hx]]%list_lookup_insert_Some r; [done|].
        rewrite (H9 x refs' Hx r). split.
        * intros [Hrx Hs]. split; [done|]. apply Hsub; [done|congruence].
        * intros [Hrx [i [Hi _]%Hb]]. split; [done|]. by eexists.
    - intros r b info Hst [Hi _]%Hb. by apply (dok_agree s Hok r).
    - intros r info [Hi _]%Hb. left. by apply Hfl.
    - rewrite Hbtw. set_solver.
    - intros r b Hst. destruct (dok_top s Hok r b Hst) as (l & Hl & Hla & Hle).
      destruct (Htop l Hl) as (l' & ? & ? & ? & _). exists l'. split; [done|]. split; [congruence|lia].
    - intros x e He. apply list_lookup_insert_Some in He as [(<- & <- & Hlen)|[Hne He]].
      + split; [apply N.le_min_l|].
        destruct (lookup_lt_is_Some_2 _ _ Hlen) as [e0 He0].
        pose proof (eviction_target_mono s a e0 Hok He0) as Hmono.
        destruct (dok_evicted s Hok a e0 He0) as (_ & Hin & _). split.
        * intros r b Hst Hra Hlt. destruct (Hin r b Hst Hra) as [i Hi]; [lia|]. exists i. by apply Hb.
        * destruct (bset_last (cached_refs s a)) as [t|] eqn:Ht.
          -- apply bset_last_Some, elem_of_cached_refs in Ht as [Hta Hts]; [|apply Hok|done].
             destruct (Htop t Hts) as (l & ? & ? & ? & Hc). destruct (Hc Hta) as [->|?]; [by left|].
             right. exists l. split; [done|]. split; [congruence|done].
          -- left. unfold eviction_target, eviction_round, saturating_sub. rewrite Ht. cbn.
             unfold GENESIS_ROUND. lia.
      + destruct (dok_evicted s Hok x e He) as (Hgc & Hin & Hlast). split; [done|]. split.
        * intros r b Hst Hrx Hlt. apply Hsub; [by eapply Hin|congruence].
        * destruct Hlast as [?|(l & Hl & Hlx & Hle)]; [by left|]. right. exists l.
          split; [apply Hsub; [done|congruence]|done]. }
  assert (Hfl' : flushed (evicted s a blocks refs)) by (intros r info [Hi _]%Hb; by apply Hfl).
  split; [done|]. split; [done|]. split; [done|]. split; [|done].
  apply map_eq. intros r. apply option_eq. intros b. rewrite !lookup_view by done. cbn. split.
  - intros [?|[(i & [Hi _]%Hb & ->)%fmap_Some|?]]; [tauto| |tauto]. right; left. by rewrite Hi.
  - intros [?|[(i & Hi & ->)%fmap_Some|?]]; [tauto| |tauto]. right; right. by apply Hfl.
Qed.

Lemma flush_spec s :
  dag_ok s →
  ∃ s', flush s = Ok s' ∧ dag_ok s' ∧ view s' = view s ∧
    blocks_to_write s' = [] ∧ flushed s' ∧
    (∀ b, b ∈ blocks_to_write s → store_blocks (store s') !! reference b = Some b).
Proof.
  intros Hok.
  assert (Hwf : ∀ b, b ∈ blocks_to_write s → ref_wf (reference b)).
  { intros b Hb. pose proof (dok_pending s Hok b Hb) as (i & Hi & ->)%fmap_Some.
    destruct (dok_recent s Hok _ i Hi) as (_ & _ & ? & _). done. }
  assert (Hempty : blocks_to_write s = [] → flushed s).
  { intros He r info Hi. destruct (dok_buffered s Hok r info Hi) as [?|Hin]; [done|]. rewrite He in Hin. set_solver. }
  set (batch := mkWriteBatch (blocks_to_write s) (commits_to_write s) (commit_info_to_write s)
    (finalized_commits_to_write s)).
  assert (Hwrite : ∃ s', (let! st := write (store s) batch in
      for_each evict_authority (persisted s st) (seq 0 (committee_size (committee (ds_context s))))) = Ok s' ∧
    dag_ok s' ∧ view s' = view s ∧ blocks_to_write s' = [] ∧ flushed s').
  { destruct (write_law (store s) batch (dok_store s Hok) Hwf) as (st & -> & Hst & Hblocks & _).
    cbn [obind]. destruct (dag_ok_persisted s st Hok Hst Hblocks) as (Hok1 & Hfl1 & Hv1).
    destruct (for_each_total evict_authority (λ t, dag_ok t ∧ flushed t ∧ blocks_to_write t = [] ∧
      view t = view s ∧ ds_context t = ds_context s) (seq 0 (committee_size (committee (ds_context s))))
      (persisted s st)) as (s' & Hrun & ? & ? & ? & ? & ?); [done| |exists s'; tauto].
    intros t a Ha%elem_of_seq (Ht & Hft & Hbt & Hvt & Hct).
    destruct (evict_authority_spec t a Ht Hft Hbt) as (t' & -> & ? & ? & ? & Hv' & _ & Hc' & _);
      [unfold ds_committee; rewrite Hct; lia|].
    exists t'. split; [done|]. rewrite Hv', Hc'. tauto. }
  assert (Hfin : ∃ s', flush s = Ok s' ∧ dag_ok s' ∧ view s' = view s ∧ blocks_to_write s' = [] ∧ flushed s').
  { unfold flush. change (set_store ?st (set_buffers [] [] [] [] s)) with (persisted s st).
    unfold batch in Hwrite.
    destruct (blocks_to_write s) eqn:E1, (commits_to_write s), (commit_info_to_write s),
      (finalized_commits_to_write s); try exact Hwrite. exists s. split_and!; auto. }
  destruct Hfin as (s' & Hrun & Hok' & Hv & Hb & Hfl). exists s'. split_and!; try done.
  intros b Hin. pose proof (dok_pending s Hok b Hin) as Hp.
  assert (view s' !! reference b = Some b) as Hvb by (rewrite Hv; apply lookup_view; tauto).
  apply lookup_view in Hvb as [Hg|[(i & Hi & ->)%fmap_Some|?]]; [| |done|done].
  - apply fmap_Some in Hp as (i & Hi & _). destruct (dok_recent s Hok _ i Hi) as (_ & ? & _).
    destruct (dok_genesis s' Hok' _ b Hg) as (_ & ? & _). cbn in *. lia.
  - by apply Hfl.
Qed.
End spec.
