(* ===== verification/DagTraversal.v ===== *)
(** * Traversals of the DAG

    [link_causal_history] marks the causal history of a proposed block as included,
    and [ancestors_at_round] collects the ancestors of a block at an earlier round.
    Both end within a fuel read off the state, and return exactly the blocks that
    are reachable. *)

From S2P Require Import Prelude Collections Weighted Committee Types Fixtures Commits StakeAggregator.
From S2P Require Import ThresholdClock LeaderScoring Storage DagState DagStateSpec.

Local Open Scope N_scope.

(** ** Linking the causal history *)

Section link.
Context (gc : Round).
Implicit Types (blocks : gmap BlockRef BlockInfo) (r p : BlockRef).

Definition is_included blocks r : Prop := ∃ i, blocks !! r = Some i ∧ included i = true.

(** Reachable from [root] through cached blocks, above the GC round. *)
Inductive reaches blocks (root : BlockRef) : BlockRef → Prop :=
| reaches_root : gc < ref_round root → reaches blocks root root
| reaches_step r i p : reaches blocks root r → blocks !! r = Some i →
    p ∈ ancestors (bi_block i) → gc < ref_round p → reaches blocks root p.

(** Above the GC round, the ancestors of a cached block are cached. *)
Definition causally_cached blocks : Prop :=
  ∀ r i p, blocks !! r = Some i → gc < ref_round r →
    p ∈ ancestors (bi_block i) → gc < ref_round p → is_Some (blocks !! p).

(** The ancestors of an included block are included, except for those still queued. *)
Definition closed_but blocks (targets : list BlockRef) : Prop :=
  ∀ r i p, blocks !! r = Some i → included i = true → gc < ref_round r →
    p ∈ ancestors (bi_block i) → gc < ref_round p → is_included blocks p ∨ p ∈ targets.

Definition mark_included blocks r (i : BlockInfo) : gmap BlockRef BlockInfo :=
  <[r := mkBlockInfo (bi_block i) (committed i) true]> blocks.

Lemma is_included_mark blocks r i p :
  is_included (mark_included blocks r i) p ↔ p = r ∨ is_included blocks p.
Proof.
  unfold is_included, mark_included. destruct (decide (p = r)) as [->|Hne].
  - rewrite lookup_insert_eq. naive_solver.
  - rewrite lookup_insert_ne by done. naive_solver.
Qed.

(** Marking changes flags only. *)
Definition same_blocks blocks blocks' : Prop :=
  ∀ r, bi_block <$> blocks !! r = bi_block <$> blocks' !! r ∧
       committed <$> blocks !! r = committed <$> blocks' !! r.

Lemma same_blocks_mark blocks r i :
  blocks !! r = Some i → same_blocks blocks (mark_included blocks r i).
Proof.
  intros Hi p. unfold mark_included. destruct (decide (r = p)) as [<-|Hne].
  - by rewrite Hi, lookup_insert_eq.
  - by rewrite lookup_insert_ne.
Qed.

Lemma same_blocks_trans b1 b2 b3 : same_blocks b1 b2 → same_blocks b2 b3 → same_blocks b1 b3.
Proof. intros H12 H23 r. destruct (H12 r), (H23 r). split; congruence. Qed.

Lemma same_blocks_lookup b1 b2 r i :
  same_blocks b1 b2 → b1 !! r = Some i → ∃ j, b2 !! r = Some j ∧ bi_block j = bi_block i.
Proof.
  intros Hsame Hi. destruct (Hsame r) as [Hb _]. rewrite Hi in Hb. cbn in Hb. symmetry in Hb.
  apply fmap_Some in Hb as (j & Hj & Heq). eauto.
Qed.

Lemma same_blocks_sym b1 b2 : same_blocks b1 b2 → same_blocks b2 b1.
Proof. intros Hs r. destruct (Hs r). done. Qed.

Lemma causally_cached_same b1 b2 : same_blocks b1 b2 → causally_cached b1 → causally_cached b2.
Proof.
  intros Hs Hc r i p Hi Hr Hp Hgc.
  destruct (same_blocks_lookup b2 b1 r i (same_blocks_sym _ _ Hs) Hi) as (j & Hj & Heq).
  rewrite <-Heq in Hp. destruct (Hc r j p Hj Hr Hp Hgc) as [k Hk].
  destruct (same_blocks_lookup b1 b2 p k Hs Hk) as (k' & ? & _). by eexists.
Qed.

Lemma reaches_same b1 b2 root r : same_blocks b1 b2 → reaches b1 root r → reaches b2 root r.
Proof.
  intros Hs. induction 1 as [|r i p _ IH Hi Hp Hgc]; [by constructor|].
  destruct (same_blocks_lookup b1 b2 r i Hs Hi) as (j & Hj & Heq).
  apply (reaches_step b2 root r j p); [done|done|by rewrite Heq|done].
Qed.

Lemma reaches_above blocks root r : reaches blocks root r → gc < ref_round r.
Proof. by destruct 1. Qed.

(** Marking a block uses up its links. *)
Lemma pending_links_mark blocks r i :
  blocks !! r = Some i → included i = false →
  pending_links blocks = (length (ancestors (bi_block i)) + pending_links (mark_included blocks r i))%nat.
Proof.
  intros Hi Hf. unfold pending_links, mark_included. rewrite <-insert_delete_eq.
  rewrite map_to_list_insert by apply lookup_delete_eq.
  rewrite <-(map_to_list_delete blocks r i Hi). cbn. by rewrite Hf.
Qed.

(** The loop invariant, over the initial blocks [b0]. *)
Record link_inv (b0 : gmap BlockRef BlockInfo) (root : BlockRef) blocks (targets linked : list BlockRef) : Prop := {
  li_same : same_blocks b0 blocks;
  li_closed : closed_but blocks targets;
  li_nodup : NoDup linked;
  li_incl r : is_included blocks r ↔ is_included b0 r ∨ r ∈ linked;
  li_linked r : r ∈ linked → reaches b0 root r ∧ ¬ is_included b0 r;
  li_targets r : r ∈ targets → gc < ref_round r → reaches b0 root r ∧ is_Some (b0 !! r);
  li_root : gc < ref_round root → is_included blocks root ∨ root ∈ targets;
}.

Lemma link_inv_skip b0 root blocks r rest linked :
  link_inv b0 root blocks (r :: rest) linked → ref_round r ≤ gc ∨ is_included blocks r →
  link_inv b0 root blocks rest linked.
Proof.
  intros [Hs Hc Hnd Hi Hl Ht Hr] Hskip. split; try done.
  - intros q j p Hq Hinc Hgq Hp Hgc. destruct (Hc q j p Hq Hinc Hgq Hp Hgc) as [?|[->|?]%elem_of_cons];
      [by left| |by right]. destruct Hskip; [lia|by left].
  - intros q Hq. apply Ht. by right.
  - intros Hgc. destruct (Hr Hgc) as [?|[->|?]%elem_of_cons]; [by left| |by right].
    destruct Hskip; [lia|by left].
Qed.

Lemma link_inv_take b0 root blocks r i rest linked :
  causally_cached b0 →
  link_inv b0 root blocks (r :: rest) linked → gc < ref_round r →
  blocks !! r = Some i → included i = false →
  link_inv b0 root (mark_included blocks r i) (rest ++ ancestors (bi_block i)) (linked ++ [r]).
Proof.
  intros Hcc [Hs Hc Hnd Hinc Hl Ht Hr] Hgc Hi Hf.
  assert (Hni : ¬ is_included blocks r) by (intros (j & Hj & ?); congruence).
  destruct (Ht r ltac:(left) Hgc) as [Hreach _].
  destruct (same_blocks_lookup blocks b0 r i (same_blocks_sym _ _ Hs) Hi) as (i0 & Hi0 & Heq0).
  split.
  - eapply same_blocks_trans; [done|by apply same_blocks_mark].
  - intros q j p Hq Hq' Hgq Hp Hgp. rewrite is_included_mark, elem_of_app.
    unfold mark_included in Hq. apply lookup_insert_Some in Hq as [[<- <-]|[Hne Hq]]; [tauto|].
    destruct (Hc q j p Hq Hq' Hgq Hp Hgp) as [?|[->|?]%elem_of_cons]; tauto.
  - apply NoDup_app. split; [done|]. split; [|apply NoDup_singleton].
    intros q Hq ->%list_elem_of_singleton. apply Hni, Hinc. by right.
  - intros q. rewrite is_included_mark, Hinc, elem_of_app, list_elem_of_singleton. tauto.
  - intros q [?| ->%list_elem_of_singleton]%elem_of_app; [by apply Hl|]. split; [done|].
    intros Hq. apply Hni, Hinc. by left.
  - intros q [Hq|Hq]%elem_of_app Hgq; [apply Ht; [by right|done]|].
    rewrite <-Heq0 in Hq. split; [by eapply reaches_step|by eapply Hcc].
  - intros Hgr. rewrite is_included_mark, elem_of_app.
    destruct (Hr Hgr) as [?|[->|?]%elem_of_cons]; tauto.
Qed.

Lemma link_targets_spec b0 root fuel : ∀ blocks targets linked,
  causally_cached b0 → link_inv b0 root blocks targets linked →
  (length targets + pending_links blocks < fuel)%nat →
  ∃ blocks' linked', link_targets fuel gc blocks targets linked = Ok (blocks', linked') ∧
    link_inv b0 root blocks' [] linked'.
Proof.
  induction fuel as [|fuel IH]; intros blocks targets linked Hcc Hinv Hfuel; [lia|].
  destruct targets as [|r rest]; cbn [link_targets].
  { exists blocks, linked. done. }
  cbn [length] in Hfuel. destruct (N.leb_spec (ref_round r) gc) as [Hle|Hgt].
  { apply IH; [done|by eapply link_inv_skip; [|left]|lia]. }
  destruct (li_targets _ _ _ _ _ Hinv r ltac:(left) Hgt) as [_ [i0 Hi0]].
  destruct (same_blocks_lookup _ _ r i0 (li_same _ _ _ _ _ Hinv) Hi0) as (i & Hi & _).
  rewrite Hi. cbn [expect obind]. destruct (included i) eqn:Hf.
  - apply IH; [done| |lia]. eapply link_inv_skip; [done|right]. by exists i.
  - apply IH; [done|by eapply link_inv_take|].
    rewrite (pending_links_mark blocks r i Hi Hf) in Hfuel. rewrite length_app.
    fold (mark_included blocks r i). lia.
Qed.

(** When the traversal ends, everything reachable is included. *)
Lemma link_inv_done b0 root blocks linked :
  link_inv b0 root blocks [] linked → ∀ r, reaches b0 root r → is_included blocks r.
Proof.
  intros [Hs Hc _ _ _ _ Hr] r. induction 1 as [Hgc|r i p Hreach IH Hi Hp Hgc].
  - destruct (Hr Hgc) as [?|Hn]; [done|by apply elem_of_nil in Hn].
  - destruct IH as (j & Hj & Hinc).
    destruct (same_blocks_lookup b0 blocks r i Hs Hi) as (j' & Hj' & Heq).
    assert (j' = j) as -> by congruence. rewrite <-Heq in Hp.
    destruct (Hc r j p Hj Hinc (reaches_above _ _ _ Hreach) Hp Hgc) as [?|Hn]; [done|].
    by apply elem_of_nil in Hn.
Qed.
End link.

(** ** Causal histories *)

(** [p] is in the causal history of [b]: a chain of ancestor links through blocks of
    the DAG [v]. *)
Inductive causal (v : gmap BlockRef VerifiedBlock) (b : VerifiedBlock) : BlockRef → Prop :=
| causal_direct p : p ∈ ancestors b → causal v b p
| causal_step q c p : causal v b q → v !! q = Some c → p ∈ ancestors c → causal v b p.

(** The DAG holds the ancestors of its blocks from round [lo] on, and links go to
    lower rounds. *)
Definition history_from (v : gmap BlockRef VerifiedBlock) (lo : Round) (b : VerifiedBlock) : Prop :=
  (∀ p, p ∈ ancestors b → lo ≤ ref_round p → is_Some (v !! p)) ∧
  (∀ r c p, v !! r = Some c → p ∈ ancestors c →
     ref_round p < ref_round r ∧ (lo ≤ ref_round p → is_Some (v !! p))).

Section traversal.
Context {S : Type} `{Store S, !StoreLaws S}.
Implicit Types s : DagState S.

(** When the ancestors above the GC round of cached blocks are cached
    and inclusion is closed under them, [link_causal_history] ends within its fuel
    without panicking, returns once each exactly the blocks reachable from the root
    above the GC round that were not yet included, and leaves exactly these
    included in addition, with inclusion still closed and nothing else changed. *)
Theorem link_causal_history_spec s root :
  causally_cached (gc_round s) (recent_blocks s) →
  closed_but (gc_round s) (recent_blocks s) [] →
  (gc_round s < ref_round root → is_Some (recent_blocks s !! root)) →
  ∃ s' linked, link_causal_history s root = Ok (s', linked) ∧
    NoDup linked ∧
    (∀ r, r ∈ linked ↔ reaches (gc_round s) (recent_blocks s) root r ∧ ¬ is_included (recent_blocks s) r) ∧
    (∀ r, is_included (recent_blocks s') r ↔
       is_included (recent_blocks s) r ∨ reaches (gc_round s) (recent_blocks s) root r) ∧
    closed_but (gc_round s) (recent_blocks s') [] ∧
    same_blocks (recent_blocks s) (recent_blocks s').
Proof.
  intros Hcc Hcl Hroot. unfold link_causal_history.
  destruct (link_targets_spec (gc_round s) (recent_blocks s) root (link_fuel s) (recent_blocks s) [root] [])
    as (blocks & linked & -> & Hinv); [done| |unfold link_fuel; cbn; lia|].
  { split.
    - by intros r.
    - intros r i p ? ? ? ? ?. destruct (Hcl r i p) as [?|Hn]; [done..|by left|by apply elem_of_nil in Hn].
    - constructor.
    - intros r. rewrite elem_of_nil. tauto.
    - intros r Hr. by apply elem_of_nil in Hr.
    - intros r ->%list_elem_of_singleton Hgc. split; [by constructor|auto].
    - intros _. right. left. }
  cbn [obind]. do 2 eexists. split; [done|]. cbn.
  pose proof (link_inv_done _ _ _ _ _ Hinv) as Hdone. destruct Hinv as [Hs Hc Hnd Hi Hl _ _].
  split; [done|]. split_and!; try done.
  - intros r. split; [by apply Hl|]. intros [Hr Hn]. by destruct (proj1 (Hi r) (Hdone r Hr)).
  - intros r. rewrite Hi. split; [intros [?|Hr%Hl]; tauto|].
    intros [?|Hr]; [by left|]. apply Hi. by apply Hdone.
Qed.

(** ** Ancestors at a round *)

Section ancestors_at.
Context (s : DagState S) (later : VerifiedBlock) (lo : Round).
Hypothesis Hok : dag_ok s.
Hypothesis Hh : history_from (view s) lo later.

(** The loop invariant, with the set [P] of the references popped so far. *)
Record down_inv (P linked : gset BlockRef) : Prop := {
  di_causal r : r ∈ linked → causal (view s) later r;
  di_dom r : r ∈ P → is_Some (view s !! r) ∧ lo < ref_round r;
  di_start p : p ∈ ancestors later → p ∈ linked ∪ P;
  di_closed q c p : q ∈ P → view s !! q = Some c → p ∈ ancestors c → p ∈ linked ∪ P;
  di_below x y : x ∈ linked → y ∈ P → ord_ltb x y = true;
}.

Lemma causal_present r : causal (view s) later r → lo ≤ ref_round r → is_Some (view s !! r).
Proof using Hh.
  clear Hok. destruct Hh as [Hd Hv]. destruct 1 as [p Hp|q c p _ Hq Hp]; [by apply Hd|].
  by apply (Hv q c p Hq Hp).
Qed.

Lemma ord_ltb_irrefl (x : BlockRef) : ord_ltb x x = false.
Proof using Type. clear Hok Hh. unfold ord_ltb. by rewrite cmp_refl. Qed.

Lemma ord_ltb_of_leb (x y : BlockRef) : ord_leb x y = true → x ≠ y → ord_ltb x y = true.
Proof using Type. clear Hok Hh. intros [?|?]%ord_leb_ltb_eq ?; done. Qed.

Lemma ord_ltb_round (x y : BlockRef) : ref_round x < ref_round y → ord_ltb x y = true.
Proof using Type.
  clear Hok Hh. intros Hlt. apply ord_ltb_of_leb; [by apply ord_leb_round_lt|]. intros ->. lia.
Qed.

Lemma ord_ltb_trans' (x y z : BlockRef) : ord_ltb x y = true → ord_ltb y z = true → ord_ltb x z = true.
Proof using Type.
  clear Hok Hh. unfold ord_ltb. destruct (cmp x y) eqn:E1; [done| |done].
  destruct (cmp y z) eqn:E2; [done| |done]. by rewrite (cmp_lt_trans x y z).
Qed.

Lemma down_inv_pop P linked r b :
  down_inv P linked → bset_last linked = Some r → lo < ref_round r → view s !! r = Some b →
  down_inv ({[r]} ∪ P) (list_to_set (ancestors b) ∪ linked ∖ {[r]}).
Proof using Hh.
  clear Hok. intros [Hc Hd Hst Hcl Hb] Hlast Hlo Hr. pose proof (bset_last_Some _ _ Hlast) as Hrin.
  assert (Hmove : ∀ p, p ∈ linked ∪ P → p ∈ (list_to_set (ancestors b) ∪ linked ∖ {[r]}) ∪ ({[r]} ∪ P)).
  { intros p Hp. destruct (decide (p = r)); set_solver. }
  split.
  - intros p. rewrite elem_of_union, elem_of_list_to_set. intros [Hp|Hp]; [|apply Hc; set_solver].
    eapply causal_step; [by apply Hc|done|done].
  - intros p [->%elem_of_singleton|Hp]%elem_of_union; [by eauto|by apply Hd].
  - intros p Hp. by apply Hmove, Hst.
  - intros q c p [->%elem_of_singleton|Hq]%elem_of_union Hvq Hp; [|by eapply Hmove, Hcl].
    assert (c = b) as -> by congruence. rewrite !elem_of_union, elem_of_list_to_set. tauto.
  - assert (Hxr : ∀ x, x ∈ list_to_set (ancestors b) ∪ linked ∖ {[r]} → ord_ltb x r = true).
    { intros x. rewrite elem_of_union, elem_of_list_to_set. intros [Hx|Hx].
      - apply ord_ltb_round. destruct Hh as [_ Hv]. by apply (Hv r b x Hr Hx).
      - apply ord_ltb_of_leb; [apply (bset_last_max linked); set_solver|set_solver]. }
    intros x y Hx [->%elem_of_singleton|Hy]%elem_of_union; [by apply Hxr|].
    apply (ord_ltb_trans' x r y); [by apply Hxr|by apply Hb].
Qed.

Lemma linked_down_to_spec fuel : ∀ P linked,
  down_inv P linked → (size (view s) < fuel + size P)%nat →
  ∃ P' linked', linked_down_to fuel s lo linked = Ok linked' ∧ down_inv P' linked' ∧
    (∀ r, r ∈ linked' → ref_round r ≤ lo).
Proof using Hok Hh.
  assert (Hsize : ∀ P linked, down_inv P linked → (size P ≤ size (view s))%nat).
  { intros P linked Hi. rewrite <-(size_dom (D:=gset BlockRef) (view s)). apply subseteq_size.
    intros r Hr. apply elem_of_dom. by apply (di_dom _ _ Hi). }
  induction fuel as [|fuel IH]; intros P linked Hinv Hfuel.
  { pose proof (Hsize P linked Hinv). lia. }
  cbn [linked_down_to]. destruct (bset_last linked) as [r|] eqn:Hlast.
  2: { apply bset_last_None in Hlast. exists P, linked. split; [done|]. split; [done|]. set_solver. }
  destruct (N.leb_spec (ref_round r) lo) as [Hle|Hgt].
  { exists P, linked. split; [done|]. split; [done|]. intros x Hx.
    pose proof (ord_leb_ref_round _ _ (bset_last_max _ _ _ Hlast Hx)). lia. }
  pose proof (bset_last_Some _ _ Hlast) as Hrin.
  destruct (causal_present r (di_causal _ _ Hinv r Hrin)) as [b Hb]; [lia|].
  rewrite get_block_refines by done. cbn [obind]. rewrite Hb. cbn [expect obind].
  apply (IH ({[r]} ∪ P)); [by apply down_inv_pop|].
  rewrite size_union; [rewrite size_singleton; lia|].
  intros x ->%elem_of_singleton Hx. pose proof (di_below _ _ Hinv r r Hrin Hx) as Hlt.
  by rewrite ord_ltb_irrefl in Hlt.
Qed.

(** What is left when the loop ends is the causal history at round [lo]. *)
Lemma down_inv_final P linked :
  down_inv P linked → (∀ r, r ∈ linked → ref_round r ≤ lo) →
  ∀ p, causal (view s) later p → lo ≤ ref_round p → p ∈ linked ∪ P.
Proof using Hh.
  clear Hok. intros Hinv Hle p. induction 1 as [p Hp|q c p Hq IH Hvq Hp]; intros Hlo.
  { by apply (di_start _ _ Hinv). }
  destruct Hh as [_ Hv]. destruct (Hv q c p Hvq Hp) as [Hlt _].
  assert (q ∈ linked ∪ P) as [Hql|HqP]%elem_of_union by (apply IH; lia).
  - specialize (Hle q Hql). lia.
  - by apply (di_closed _ _ Hinv q c p).
Qed.
End ancestors_at.

Lemma above_round lo (r : BlockRef) :
  above (Included (mkBlockRef lo 0 DIGEST_MIN)) r = true ↔ lo ≤ ref_round r.
Proof.
  cbn. split; [intros Hle; apply ord_leb_ref_round in Hle; done|].
  intros Hle. destruct (N.lt_ge_cases lo (ref_round r)); [by apply ord_leb_round_lt|].
  destruct r as [rr ra rd]. cbn in *. assert (lo = rr) as -> by lia.
  unfold ord_leb, cmp, BlockRef_ord, cmp, ord_prod, BlockRef_tuple. cbn. unfold cmp, ord_prod, cmp, ord_N, ord_nat.
  cbn. rewrite N.compare_refl. cbn. unfold DIGEST_MIN. destruct ra; cbn; [|done]. by destruct rd.
Qed.

Lemma ancestors_at_round_view fuel s later lo :
  dag_ok s → history_from (view s) lo later → (size (view s) < fuel)%nat →
  ∃ bs, ancestors_at_round fuel s later lo = Ok bs ∧ NoDup (reference <$> bs) ∧
    ∀ b, b ∈ bs ↔ view s !! reference b = Some b ∧ round b = lo ∧ causal (view s) later (reference b).
Proof.
  intros Hok Hh Hfuel. unfold ancestors_at_round.
  destruct (linked_down_to_spec s later lo Hok Hh fuel ∅ (list_to_set (ancestors later)))
    as (P & linked & -> & Hinv & Hle).
  { split; try set_solver. intros r. rewrite elem_of_list_to_set. apply causal_direct. }
  { rewrite size_empty. lia. }
  cbn [obind]. set (refs := bset_range _ _ linked).
  assert (Hrefs : ∀ r, r ∈ refs ↔ r ∈ linked ∧ ref_round r = lo).
  { intros r. unfold refs. rewrite elem_of_bset_range, above_round. cbn [below].
    split; [|naive_solver lia]. intros (Hin & ? & _). specialize (Hle r Hin). split; [done|lia]. }
  assert (Hpres : ∀ r, r ∈ refs → is_Some (view s !! r)).
  { intros r [Hr Hlo]%Hrefs. apply (causal_present s later lo Hh); [by apply (di_causal _ _ _ _ _ Hinv)|lia]. }
  assert (∃ bs, Forall2 (λ r b, view s !! r = Some b) refs bs) as [bs Hbs].
  { by apply Forall2_collect. }
  assert (reference <$> bs = refs) as Hmap.
  { clear -Hbs Hok. induction Hbs as [|r b refs bs Hr _ IH]; csimpl; [done|].
    by rewrite IH, (view_reference s r b Hok Hr). }
  exists bs. split; [|split].
  - apply map_each_Ok. eapply Forall2_impl; [exact Hbs|]. intros r b Hb. cbn.
    rewrite get_block_refines by done. cbn. by rewrite Hb.
  - rewrite Hmap. apply NoDup_filter, NoDup_bset_iter.
  - intros b. split.
    + intros Hb. destruct (Forall2_elem_of_r _ _ _ _ Hbs Hb) as (r & Hr & Hvr).
      pose proof (view_reference s r b Hok Hvr) as <-. apply Hrefs in Hr as [Hrl Hrr].
      split; [done|]. split; [done|]. by apply (di_causal _ _ _ _ _ Hinv).
    + intros (Hvb & Hrb & Hcb). assert (reference b ∈ refs) as Hin.
      { apply Hrefs. split; [|done].
        assert (reference b ∈ linked ∪ P) as [?|HP]%elem_of_union; [|done|].
        { apply (down_inv_final s later lo Hh P linked Hinv Hle _ Hcb). cbn. lia. } destruct (di_dom _ _ _ _ _ Hinv _ HP) as [_ ?]. cbn in *. lia. }
      destruct (Forall2_elem_of_l _ _ _ _ Hbs Hin) as (b' & Hb' & Hv'). congruence.
Qed.
End traversal.
