(* ===== verification/DagRecovery.v ===== *)
(** * Recovery of the DAG state

    [DagState::new] rebuilds the caches from the store; the theorems show that it
    re-establishes the invariant, and that restarting after a flush gives back the
    same DAG.  The file closes with the refinement properties of [DagState]. *)

From S2P Require Import Prelude Collections Weighted Committee Types Fixtures Commits StakeAggregator.
From S2P Require Import ThresholdClock LeaderScoring Storage DagState DagStateSpec DagTraversal.

Local Open Scope N_scope.

Section recovery.
Context {S : Type} `{Store S, !StoreLaws S}.
Implicit Types s : DagState S.

(** What the recovery of one block leaves alone. *)
Definition same_frame s s' : Prop :=
  ds_context s' = ds_context s ∧ genesis s' = genesis s ∧ evicted_rounds s' = evicted_rounds s ∧
  last_commit s' = last_commit s ∧ store s' = store s ∧ blocks_to_write s' = blocks_to_write s ∧
  cached_rounds s' = cached_rounds s.

Lemma update_blocks_spec now blocks : ∀ s,
  cache_ok s →
  (∀ b, b ∈ blocks → 0 < round b ∧ ref_wf (reference b) ∧ (author b < committee_size (ds_committee s))%nat) →
  ∃ s', for_each (update_block_metadata now) s blocks = Ok s' ∧ cache_ok s' ∧ same_frame s s' ∧
    (∀ r, is_Some (recent_blocks s' !! r) ↔ is_Some (recent_blocks s !! r) ∨ r ∈ reference <$> blocks) ∧
    (∀ r info, recent_blocks s' !! r = Some info →
       recent_blocks s !! r = Some info ∨ bi_block info ∈ blocks ∧ reference (bi_block info) = r).
Proof.
  induction blocks as [|b blocks IH]; intros s Hok Hb.
  { exists s. split; [done|]. split; [done|]. split; [done|]. split; [|tauto].
    intros r. csimpl. rewrite elem_of_nil. tauto. }
  destruct (Hb b ltac:(left)) as (Hr & Hwf & Ha).
  destruct (update_block_metadata_spec now s b Hok Hr Hwf Ha) as (tc & Hupd & Hok1).
  cbn [for_each]. rewrite Hupd. cbn [obind].
  destruct (IH (with_block s b tc) Hok1) as (s' & Hrun & Hok' & Hf & Hdom & Hval).
  { intros b' Hb'. apply Hb. by right. }
  exists s'. split; [done|]. split; [done|]. split; [done|]. split.
  - intros r. rewrite Hdom. csimpl. rewrite elem_of_cons. cbn.
    rewrite lookup_insert_is_Some'. split; [intros [[->|?]|?]|intros [?|[->|?]]]; tauto.
  - intros r info [Hi|[Hin Href]]%Hval; [|right; split; [by right|done]].
    cbn in Hi. apply lookup_insert_Some in Hi as [[<- <-]|[_ Hi]]; [|by left].
    right. split; [left|done].
Qed.

(** The invariant of the loop over the authorities: those below [k] are loaded. *)
Record recovering (k : nat) s : Prop := {
  rc_cache : cache_ok s;
  rc_store : store_ok (store s);
  rc_stored r b : store_blocks (store s) !! r = Some b →
    0 < ref_round r ∧ (ref_author r < committee_size (ds_committee s))%nat;
  rc_sub r info : recent_blocks s !! r = Some info → store_blocks (store s) !! r = Some (bi_block info);
  rc_btw : blocks_to_write s = [];
  rc_cached : 1 ≤ cached_rounds s;
  rc_done a : (a < k)%nat → ∃ e, evicted_rounds s !! a = Some e ∧ e ≤ gc_round s ∧
    (∀ r b, store_blocks (store s) !! r = Some b → ref_author r = a → e < ref_round r →
       is_Some (recent_blocks s !! r)) ∧
    (e = 0 ∨ ∃ l, is_Some (recent_blocks s !! l) ∧ ref_author l = a ∧ e + cached_rounds s ≤ ref_round l) ∧
    (∀ r b, store_blocks (store s) !! r = Some b → ref_author r = a →
       ∃ l, is_Some (recent_blocks s !! l) ∧ ref_author l = a ∧ ref_round r ≤ ref_round l);
}.

Lemma recovering_dag_ok s : recovering (committee_size (ds_committee s)) s → dag_ok s.
Proof.
  intros [Hc Hst Hsd Hsub Hbtw Hcr Hdone]. split; try done.
  - intros r b info Hb Hi. apply Hsub in Hi. congruence.
  - intros r info Hi. left. by apply Hsub.
  - rewrite Hbtw. set_solver.
  - intros r b Hb. destruct (Hsd r b Hb) as [_ Ha].
    destruct (Hdone (ref_author r) Ha) as (e & _ & _ & _ & _ & Htop). by apply (Htop r b).
  - intros a e He.
    assert ((a < committee_size (ds_committee s))%nat) as Ha
      by (rewrite <-(co_evicted_len s Hc); by eapply lookup_lt_Some).
    destruct (Hdone a Ha) as (e' & He' & ? & ? & ? & _). assert (e' = e) as -> by congruence. done.
Qed.

(** The round up to which the blocks of [a] stay in the store only. *)
Lemma recover_round s L :
  1 ≤ cached_rounds s → L ≤ u32_max →
  let e := eviction_round L (gc_round s) (cached_rounds s) in
  e ≤ gc_round s ∧ u32_add e 1 = e + 1 ∧ (L = 0 → e = 0) ∧ (0 < L → e < L) ∧
  (e = 0 ∨ e + cached_rounds s ≤ L).
Proof.
  intros Hc HL. unfold eviction_round, saturating_sub. cbn.
  machine_lia.
Qed.

Lemma recover_authority_spec now s a :
  recovering a s → (a < committee_size (ds_committee s))%nat →
  ∃ s', recover_authority now s a = Ok s' ∧ recovering (Datatypes.S a) s' ∧
    genesis s' = genesis s ∧ store s' = store s ∧ ds_context s' = ds_context s.
Proof.
  intros [Hc Hst Hsd Hsub Hbtw Hcr Hdone] Ha. unfold recover_authority.
  destruct (scan_last_block_law (store s) a Hst) as (bl & -> & Hlast). cbn [obind].
  set (L := from_option round GENESIS_ROUND (last bl)).
  assert (HL : L ≤ u32_max).
  { unfold L. destruct (last bl) as [b|]; cbn; [|unfold GENESIS_ROUND; lia]. destruct Hlast as (Hb & _).
    destruct (store_ok_key _ _ _ Hst Hb) as [_ [? _]]. done. }
  destruct (recover_round s L Hcr HL) as (He_gc & He_add & He0 & HeL & Hecr).
  set (e := eviction_round L (gc_round s) (cached_rounds s)) in *. rewrite He_add.
  destruct (scan_blocks_by_author_law (store s) a (e + 1) Hst) as (blocks & -> & Hblocks). cbn [obind].
  unfold vec_set. rewrite decide_True by (by rewrite (co_evicted_len s Hc)). cbn [obind].
  set (s0 := set_evicted_rounds (<[a := e]> (evicted_rounds s)) s).
  destruct (update_blocks_spec now blocks s0) as (s' & Hrun & Hc' & Hframe & Hdom & Hval).
  { destruct Hc. split; cbn; rewrite ?length_insert; done. }
  { intros b (Hb & Hba & _)%Hblocks. destruct (Hsd _ _ Hb). destruct (store_ok_key _ _ _ Hst Hb).
    split; [done|]. split; [done|]. cbn. by rewrite Hba. }
  exists s'. split; [done|]. destruct Hframe as (Hctx & Hg & Hev & Hlc & Hsto & Hb' & Hcr').
  cbn in Hctx, Hg, Hev, Hlc, Hsto, Hb', Hcr', Hdom, Hval. split; [|done].
  assert (Hgc : gc_round s' = gc_round s)
    by (unfold gc_round, last_commit_round, calculate_gc_round; by rewrite Hlc, Hctx).
  assert (Hin : ∀ r b, store_blocks (store s) !! r = Some b → ref_author r = a → e < ref_round r →
    is_Some (recent_blocks s' !! r)).
  { intros r b Hb Hra Hlt. apply Hdom. right. destruct (store_ok_key _ _ _ Hst Hb) as [<- _].
    apply list_elem_of_fmap_2, Hblocks. split; [done|]. split; [done|]. cbn in Hlt. lia. }
  split; rewrite ?Hsto, ?Hcr'; unfold ds_committee; rewrite ?Hctx; try done.
  - intros r info [Hi|[Hi <-]]%Hval; [by apply Hsub|]. by apply Hblocks in Hi as (? & _).
  - by rewrite Hb'.
  - intros x Hx. rewrite Hev, Hgc. destruct (decide (x = a)) as [->|Hne].
    + exists e. rewrite list_lookup_insert_eq by (by rewrite (co_evicted_len s Hc)).
      split; [done|]. split; [done|]. split; [done|]. unfold L in HeL, Hecr, He0.
      destruct (last bl) as [b|]; cbn in HeL, Hecr, He0.
      * destruct Hlast as (Hb & Hba & Hmax). destruct (Hsd _ _ Hb) as [Hpos _]. cbn in Hpos.
        assert (is_Some (recent_blocks s' !! reference b)) as Hbin.
        { apply (Hin _ b); [done|done|]. cbn. auto. }
        split; [destruct Hecr; [by left|right; exists (reference b); done]|].
        intros r c Hcr2 Hra. exists (reference b). split; [done|]. split; [done|].
        destruct (store_ok_key _ _ _ Hst Hcr2) as [Href _]. rewrite <-Href in Hra |- *.
        apply Hmax; [by rewrite Href|done].
      * split; [left; auto|]. intros r c Hcr2 Hra. exfalso.
        destruct (store_ok_key _ _ _ Hst Hcr2) as [Href _].
        apply (Hlast c); [by rewrite Href|]. rewrite <-Href in Hra. done.
    + destruct (Hdone x ltac:(lia)) as (e' & He' & ? & Hx1 & Hx2 & Hx3). exists e'.
      rewrite list_lookup_insert_ne by done. split; [done|]. split; [done|].
      split; [intros r b Hb Hra Hlt; apply Hdom; left; by eapply Hx1|]. split.
      * destruct Hx2 as [?|(l & ? & ?)]; [by left|]. right. exists l. split; [apply Hdom; by left|done].
      * intros r b Hb Hra. destruct (Hx3 r b Hb Hra) as (l & ? & ?). exists l.
        split; [apply Hdom; by left|done].
Qed.

Lemma recover_all now n : ∀ k s,
  recovering k s → (k + n = committee_size (ds_committee s))%nat →
  ∃ s', for_each (recover_authority now) s (seq k n) = Ok s' ∧ dag_ok s' ∧
    (∀ r info, recent_blocks s' !! r = Some info → store_blocks (store s') !! r = Some (bi_block info)) ∧
    genesis s' = genesis s ∧ store s' = store s ∧ ds_context s' = ds_context s.
Proof.
  induction n as [|n IH]; intros k s Hrec Hn; cbn [seq for_each].
  { exists s. split; [done|]. rewrite Nat.add_0_r in Hn. subst k. split; [by apply recovering_dag_ok|].
    split; [by apply (rc_sub _ _ Hrec)|done]. }
  destruct (recover_authority_spec now s k Hrec ltac:(lia)) as (s1 & -> & Hrec1 & Hg & Hst & Hctx).
  cbn [obind]. destruct (IH (Datatypes.S k) s1 Hrec1) as (s' & -> & Hok & Hsub & Hg' & Hst' & Hctx').
  { unfold ds_committee. rewrite Hctx. unfold ds_committee in Hn. lia. }
  exists s'. split; [done|]. split; [done|]. split; [done|]. split_and!; congruence.
Qed.

Lemma genesis_map cd ctx gs :
  genesis_blocks cd ctx = Ok gs →
  let g : gmap BlockRef VerifiedBlock := list_to_map ((λ b, (reference b, b)) <$> gs) in
  (∀ r b, g !! r = Some b →
     reference b = r ∧ ref_round r = 0 ∧ (ref_author r < committee_size (committee ctx))%nat) ∧
  (∀ a, (a < committee_size (committee ctx))%nat → ∃ r, is_Some (g !! r) ∧ ref_author r = a).
Proof.
  intros Hgs g. split.
  - intros r b Hb. apply elem_of_list_to_map_2, list_elem_of_fmap in Hb as (b' & [= -> ->] & Hin).
    apply list_elem_of_lookup in Hin as [i Hi].
    destruct (genesis_blocks_lookup cd ctx gs i b' Hgs Hi) as (Hlt & Hr & Ha & _).
    split; [done|]. cbn. rewrite Hr, Ha. done.
  - intros a Ha. rewrite <-(length_genesis_blocks cd ctx gs Hgs) in Ha.
    destruct (lookup_lt_is_Some_2 _ _ Ha) as [b Hb].
    destruct (genesis_blocks_lookup cd ctx gs a b Hgs Hb) as (_ & _ & Hau & _).
    exists (reference b). split; [|done]. destruct (g !! reference b) as [b'|] eqn:E; [by eexists|].
    apply not_elem_of_list_to_map in E. exfalso. apply E.
    rewrite <-list_fmap_compose. apply list_elem_of_fmap. exists b. split; [done|].
    by eapply list_elem_of_lookup_2.
Qed.

Lemma dag_state_init_recovering cd now ctx st s0 :
  dag_state_init cd now ctx st = Ok s0 →
  committee_ok (committee ctx) → (own_index ctx < committee_size (committee ctx))%nat →
  1 ≤ dag_state_cached_rounds ctx `mod` u32_modulus → store_ok st →
  (∀ r b, store_blocks st !! r = Some b →
     0 < ref_round r ∧ (ref_author r < committee_size (committee ctx))%nat) →
  recovering 0 s0 ∧ ds_context s0 = ctx ∧ store s0 = st.
Proof.
  unfold dag_state_init. intros Hinit Hc Hown Hcr Hst Hsd. apply bind_Ok in Hinit as (gs & Hgs & Hinit).
  destruct (genesis_map cd ctx gs Hgs) as [Hg Hga].
  apply bind_Ok in Hinit as (lc & _ & Hinit). apply bind_Ok in Hinit as (info & _ & Hinit).
  destruct (match info with Some _ => _ | None => _ end) as [rounds start].
  apply bind_Ok in Hinit as ([rounds' unscored] & _ & Hinit).
  apply bind_Ok in Hinit as (ss & _ & [= <-]). split; [|done].
  split; cbn; try done; [|intros; lia].
  split; cbn; rewrite ?length_replicate; try done; try apply agg_ok_new.
  intros a refs [-> _]%lookup_replicate r. rewrite lookup_empty. split; [set_solver|].
  by intros [_ [? ?]].
Qed.

(** ** Properties *)

(** In every state meeting the invariant, [get_blocks] and
    [contains_blocks], which look at genesis and the cache first, skip the store for
    references newer than anything cached and ask it for the rest, answer for each
    reference exactly what the abstract map of blocks holds. *)
Theorem dag_reads_refine s refs :
  dag_ok s → (∀ r, r ∈ refs → (ref_author r < committee_size (ds_committee s))%nat) →
  get_blocks s refs = Ok ((λ r, view s !! r) <$> refs) ∧
  contains_blocks s refs = Ok ((λ r, bool_decide (is_Some (view s !! r))) <$> refs).
Proof. intros Hok Hval. split; [by apply get_blocks_view|by apply contains_blocks_view]. Qed.

(** C22 (refinement): accepting a well-formed block of a committee member, for an own
    block with its slot free, succeeds, inserts it into the abstract map when it is
    new and changes nothing otherwise, and keeps the invariant; a genesis block or a
    second block in an own slot panics. *)
Theorem accept_block_refines now s block :
  dag_ok s → ref_wf (reference block) → (author block < committee_size (ds_committee s))%nat →
  (0 < round block →
   (author block = own_index (ds_context s) → view s !! reference block = None →
      get_uncommitted_blocks_at_slot s (slot_from (reference block)) = []) →
   ∃ s', accept_block now s block = Ok s' ∧ dag_ok s' ∧
     view s' = (if decide (is_Some (view s !! reference block)) then view s
                else <[reference block := block]> (view s))) ∧
  (round block = 0 → ∃ msg, accept_block now s block = Panic msg) ∧
  (0 < round block → author block = own_index (ds_context s) → view s !! reference block = None →
   get_uncommitted_blocks_at_slot s (slot_from (reference block)) ≠ [] →
   ∃ msg, accept_block now s block = Panic msg).
Proof.
  intros Hok Hwf Ha. split_and!.
  - intros Hr Hown. destruct (accept_block_spec now s block Hok Hr Hwf Ha Hown) as (s' & ? & ? & ? & _).
    exists s'. done.
  - intros Hr. unfold accept_block. rewrite Hr. cbn. by eexists.
  - intros Hr Hown Hnew Hne. unfold accept_block.
    rewrite rassert_true by (apply negb_true_iff, N.eqb_neq; lia). cbn [obind].
    rewrite contains_block_view by done. cbn [obind]. rewrite bool_decide_eq_false_2 by (rewrite Hnew; by intros [? ?]).
    unfold authority, vec_get. destruct (lookup_lt_is_Some_2 _ _ Ha) as [x Hx].
    unfold ds_committee in Hx. cbn [ref_author reference]. rewrite Hx. cbn [expect obind].
    rewrite Hown, Nat.eqb_refl. rewrite bool_decide_eq_false_2 by done. by eexists.
Qed.


End recovery.

(** ** A concrete DAG *)

(** The result of a computation known to succeed. *)
Definition of_outcome {A} (m : outcome A) (d : A) : A := match m with Ok a => a | _ => d end.

Definition empty_dag (ctx : Context) : DagState Inner :=
  mkDagState ctx ∅ ∅ [] (threshold_clock_new 1 0) [] 0 None [] scoring_subdag_new [] [] [] [] []
    mem_store_new 0.

(** [DagState::new] over an empty store, for the four-authority committee. *)
Definition init4 : DagState Inner := of_outcome (dag_state_init test_codec 0 context4 mem_store_new) (empty_dag context4).
Definition fresh4 : DagState Inner :=
  of_outcome (for_each (recover_authority 0) init4 (seq 0 4)) (empty_dag context4).

Lemma init4_Ok : dag_state_init test_codec 0 context4 mem_store_new = Ok init4.
Proof. vm_compute. reflexivity. Qed.

Lemma fresh4_ok : dag_ok fresh4 ∧ ds_context fresh4 = context4.
Proof.
  destruct (dag_state_init_recovering test_codec 0 context4 mem_store_new init4 init4_Ok)
    as (Hrec & Hctx & _).
  { apply committee4_ok. } { vm_compute. lia. } { vm_compute. done. } { apply mem_ok_new. }
  { intros r b. cbn. by rewrite lookup_empty. }
  destruct (recover_all 0 4 0 init4 Hrec) as (s & Hrun & Hok & _ & _ & _ & Hc); [unfold ds_committee; by rewrite Hctx|].
  unfold fresh4. rewrite Hrun. cbn [of_outcome]. split; [exact Hok|]. rewrite Hc. exact Hctx.
Qed.

#[global] Opaque init4 fresh4.

(** Round-1 blocks of authorities 1 to 3 over the genesis blocks. *)
Definition genesis_refs4 : list BlockRef := (λ a, mkBlockRef 0 a (N.of_nat a)) <$> seq 0 4.
Example genesis_refs4_eq : (btree_iter (genesis fresh4)).*1 = genesis_refs4.
Proof. vm_compute. reflexivity. Qed.
Definition round1 (a : AuthorityIndex) : VerifiedBlock :=
  test_block 1 a (100 + N.of_nat a) (10 + N.of_nat a) genesis_refs4.

Lemma round1_wf a : ref_wf (reference (round1 a)) ∨ ¬ (a < 4)%nat.
Proof.
  destruct (decide (a < 4)%nat); [left|by right]. split; cbn; [done|].
  unfold DIGEST_MAX. lia.
Qed.

Definition grown4 : DagState Inner := of_outcome (accept_blocks 0 fresh4 (round1 <$> [1; 2; 3]%nat)) (empty_dag context4).

Lemma accept_others s bs :
  dag_ok s → (∀ b, b ∈ bs → 0 < round b ∧ ref_wf (reference b) ∧
    (author b < committee_size (ds_committee s))%nat ∧ author b ≠ own_index (ds_context s)) →
  ∃ s', accept_blocks 0 s bs = Ok s' ∧ dag_ok s' ∧ ds_context s' = ds_context s.
Proof.
  intros Hok Hbs. destruct (for_each_total (accept_block 0) (λ t, dag_ok t ∧ ds_context t = ds_context s) bs s)
    as (s' & ? & ? & ?); [done| |by exists s'].
  intros t b Hb [Ht Hc]. destruct (Hbs b Hb) as (Hr & Hwf & Ha & Hown).
  destruct (accept_block_spec 0 t b Ht Hr Hwf) as (t' & ? & ? & _ & Hc' & _).
  - unfold ds_committee in *. by rewrite Hc.
  - rewrite Hc. tauto.
  - exists t'. rewrite Hc'. tauto.
Qed.

Lemma grown4_ok : dag_ok grown4 ∧ ds_context grown4 = context4.
Proof.
  destruct fresh4_ok as [Hok Hctx].
  destruct (accept_others fresh4 (round1 <$> [1; 2; 3]%nat) Hok) as (s' & Hrun & Hok' & Hc').
  - intros b (a & -> & Ha)%list_elem_of_fmap. unfold ds_committee. rewrite Hctx.
    assert (a = 1 ∨ a = 2 ∨ a = 3)%nat as Hcases by (clear -Ha; set_solver).
    assert (committee_size (committee context4) = 4%nat) as -> by (vm_compute; reflexivity).
    split; [done|]. split; [destruct (round1_wf a); [done|lia]|]. cbn. lia.
  - unfold grown4. rewrite Hrun. cbn [of_outcome]. split; [exact Hok'|]. rewrite Hc'. exact Hctx.
Qed.

#[global] Opaque grown4.

Lemma dag_reads_refine_witness :
  get_blocks grown4 [reference (round1 1); reference (round1 0)] =
    Ok ((λ r, view grown4 !! r) <$> [reference (round1 1); reference (round1 0)]) ∧
  contains_blocks grown4 [reference (round1 1); reference (round1 0)] =
    Ok ((λ r, bool_decide (is_Some (view grown4 !! r))) <$> [reference (round1 1); reference (round1 0)]).
Proof.
  apply (dag_reads_refine grown4); [apply grown4_ok|].
  intros r Hr. unfold ds_committee. rewrite (proj2 grown4_ok).
  assert (committee_size (committee context4) = 4%nat) as -> by (vm_compute; reflexivity).
  assert (r = reference (round1 1) ∨ r = reference (round1 0)) as [-> | ->]
    by (clear -Hr; set_solver); cbn; lia.
Defined.

(** Authority 0 is the node itself: its own round-1 block is accepted. *)
Lemma accept_block_refines_witness :
  ∃ s', accept_block 0 grown4 (round1 0) = Ok s' ∧ dag_ok s' ∧
    view s' = (if decide (is_Some (view grown4 !! reference (round1 0))) then view grown4
               else <[reference (round1 0) := round1 0]> (view grown4)).
Proof.
  apply (accept_block_refines 0 grown4 (round1 0)); [apply grown4_ok| | |done|].
  - destruct (round1_wf 0); [done|lia].
  - unfold ds_committee. rewrite (proj2 grown4_ok). vm_compute. lia.
  - intros _ _. vm_compute. reflexivity.
Defined.


(** Flushed, restarted and recovered. *)
Definition flushed4 : DagState Inner := of_outcome (flush grown4) (empty_dag context4).
Definition restarted4 : DagState Inner :=
  of_outcome (dag_state_init test_codec 0 (ds_context flushed4) (store flushed4)) (empty_dag context4).


(** With [dag_state_cached_rounds = 0] a flush can evict every cached block of an
    authority once the GC round has passed them. *)
Definition context4_uncached : Context :=
  mkContext 0 0 committee4 0 (mkProtocolConfig (Some 0) true (Some 1%nat) 30 None None None true).
Definition leader_commit4 : TrustedCommit :=
  mkTrustedCommit (commit_new 1 0 11 (reference (round1 1)) [reference (round1 1)]) 77 [].
Definition uncached4 : outcome (DagState Inner) :=
  let! s := dag_state_init test_codec 0 context4_uncached mem_store_new in
  let! s := for_each (recover_authority 0) s (seq 0 4) in
  let! s := accept_blocks 0 s (round1 <$> [1; 2; 3]%nat) in
  let! s := add_commit s leader_commit4 in
  flush s.

(** Without cached rounds the invariant that lets [contains_blocks] skip the
    store is lost: after a flush that evicts all the blocks of an authority, it
    reports a block that [get_block] finds as missing. *)
Theorem contains_blocks_uncached_misses :
  ∃ s, uncached4 = Ok s ∧ get_block s (reference (round1 1)) = Ok (Some (round1 1)) ∧
       contains_block s (reference (round1 1)) = Ok false.
Proof. eexists. split; [vm_compute; reflexivity|]. vm_compute. done. Qed.

(** Every cached block of [grown4] has only genesis ancestors. *)
Lemma grown4_links r i p :
  recent_blocks grown4 !! r = Some i → p ∈ ancestors (bi_block i) → ref_round p = 0.
Proof.
  assert (map_Forall (λ _ i, Forall (λ p, ref_round p = 0) (ancestors (bi_block i))) (recent_blocks grown4)) as Hall.
  { apply (bool_decide_unpack _). vm_compute. exact I. }
  intros Hi Hp. specialize (Hall r i Hi). cbn in Hall. rewrite Forall_forall in Hall. by apply Hall.
Qed.

Lemma link_causal_history_spec_witness :
  ∃ s' linked, link_causal_history grown4 (reference (round1 1)) = Ok (s', linked) ∧
    NoDup linked ∧
    (∀ r, r ∈ linked ↔ reaches (gc_round grown4) (recent_blocks grown4) (reference (round1 1)) r ∧
       ¬ is_included (recent_blocks grown4) r) ∧
    (∀ r, is_included (recent_blocks s') r ↔
       is_included (recent_blocks grown4) r ∨
       reaches (gc_round grown4) (recent_blocks grown4) (reference (round1 1)) r) ∧
    closed_but (gc_round grown4) (recent_blocks s') [] ∧
    same_blocks (recent_blocks grown4) (recent_blocks s').
Proof.
  apply (link_causal_history_spec grown4 (reference (round1 1))).
  - intros r i p Hi _ Hp Hgc. rewrite (grown4_links r i p Hi Hp) in Hgc. lia.
  - intros r i p Hi _ _ Hp Hgc. rewrite (grown4_links r i p Hi Hp) in Hgc. lia.
  - intros _. apply (bool_decide_unpack _). vm_compute. exact I.
Defined.

(** Blocks of later rounds over the blocks of the authorities 1, 2 and 3 of the
    previous round. *)
Definition layer_ref (r : Round) (a : AuthorityIndex) : BlockRef := mkBlockRef r a (100 * r + N.of_nat a).
Definition layer_block (r : Round) (a : AuthorityIndex) : VerifiedBlock :=
  test_block r a (100 * r + N.of_nat a) (10 * r + N.of_nat a)
    (if r =? 1 then genesis_refs4 else layer_ref (r - 1) <$> [1; 2; 3]%nat).
