(* ===== verification/DagCommits.v ===== *)
(** * Commits of the DAG state

    [add_commit] keeps the commits in sequence: it ignores a commit it already has,
    refuses a gap and a timestamp that goes back, and otherwise records the commit
    and the highest committed round of each authority. *)

From S2P Require Import Prelude Collections Weighted Committee Types Fixtures Commits StakeAggregator.
From S2P Require Import ThresholdClock LeaderScoring Storage DagState DagStateSpec DagTraversal DagRecovery.

Local Open Scope N_scope.

(** The highest round of a block of [a] among [refs], and at least [x]. *)
Definition highest_for (a : AuthorityIndex) (refs : list BlockRef) (x : Round) : Round :=
  foldl (λ m r, if decide (ref_author r = a) then N.max m (ref_round r) else m) x refs.

Lemma bump_rounds refs : ∀ rounds,
  (∀ r, r ∈ refs → (ref_author r < length rounds)%nat) →
  ∃ rounds', for_each bump_committed_round rounds refs = Ok rounds' ∧
    length rounds' = length rounds ∧
    ∀ a x, rounds !! a = Some x → rounds' !! a = Some (highest_for a refs x).
Proof.
  induction refs as [|r refs IH]; intros rounds Hval; cbn [for_each].
  { exists rounds. done. }
  pose proof (Hval r ltac:(left)) as Hr. destruct (lookup_lt_is_Some_2 _ _ Hr) as [old Hold].
  unfold bump_committed_round at 1, vec_get. rewrite Hold. cbn [expect obind]. unfold vec_set.
  rewrite decide_True by done. cbn [obind].
  destruct (IH (<[ref_author r := N.max old (ref_round r)]> rounds)) as (rounds' & -> & Hlen & Hval').
  { intros r' Hr'. rewrite length_insert. apply Hval. by right. }
  exists rounds'. rewrite length_insert in Hlen. split; [done|]. split; [done|].
  intros a x Hx. unfold highest_for. cbn [foldl]. destruct (decide (ref_author r = a)) as [<-|Hne].
  - apply Hval'. rewrite list_lookup_insert_eq by done. congruence.
  - apply Hval'. by rewrite list_lookup_insert_ne by done.
Qed.

Lemma highest_for_ge a refs : ∀ x,
  x ≤ highest_for a refs x ∧ (∀ r, r ∈ refs → ref_author r = a → ref_round r ≤ highest_for a refs x).
Proof.
  induction refs as [|r refs IH]; intros x; unfold highest_for; cbn; [set_solver|].
  fold (highest_for a refs). case_decide as Hr.
  - destruct (IH (N.max x (ref_round r))) as [H1 H2]. unfold highest_for in *. split; [lia|].
    intros r' [->|?]%elem_of_cons ?; [lia|auto].
  - destruct (IH x) as [H1 H2]. unfold highest_for in *. split; [done|].
    intros r' [->|?]%elem_of_cons ?; [done|auto].
Qed.

Section add_commit.
Context {S : Type} `{Store S, !StoreLaws S}.
Implicit Types s : DagState S.

(** The commit the state waits for. *)
Definition is_next_commit s (c : TrustedCommit) : bool :=
  (commit_index (tcm_inner c) =? last_commit_index s + 1) &&
  (last_commit_timestamp_ms s <=? commit_timestamp_ms (tcm_inner c)).

Lemma visit_rounds c n :
  (n ≤ committee_size c)%nat →
  for_each (λ _ i,
      let! a := expect (to_authority_index c i) "called `Option::unwrap()` on a `None` value" in
      omap_ok (λ _, tt) (authority c a)) tt (seq 0 n) = Ok tt.
Proof.
  intros Hn. destruct (for_each_total (λ _ i,
      let! a := expect (to_authority_index c i) "called `Option::unwrap()` on a `None` value" in
      omap_ok (λ _, tt) (authority c a)) (λ _, True) (seq 0 n) tt) as ([] & -> & _); [done| |done].
  intros [] i Hi%elem_of_seq _. exists tt. split; [|done].
  unfold to_authority_index. rewrite (proj2 (Nat.ltb_lt _ _)) by lia. cbn.
  unfold authority, vec_get. destruct (lookup_lt_is_Some_2 (authorities c) i) as [x ->]; [unfold committee_size in *; lia|].
  done.
Qed.

Lemma gc_round_commit s s' c :
  ds_context s' = ds_context s → last_commit s' = Some c →
  last_commit_round s ≤ commit_round (tcm_inner c) → gc_round s ≤ gc_round s'.
Proof.
  intros Hctx Hlc Hle. unfold gc_round, calculate_gc_round, saturating_sub. rewrite Hctx.
  unfold last_commit_round at 2. rewrite Hlc. unfold commit_round, commit_leader in *. lia.
Qed.

(** Recording a commit whose leader is not below the last one keeps the invariant. *)
Lemma dag_ok_commit s c rounds votes commits infos fin :
  dag_ok s → last_commit_round s ≤ commit_round (tcm_inner c) →
  let s' := set_buffers (blocks_to_write s) commits infos fin (set_commit_state (Some c) rounds votes s) in
  dag_ok s' ∧ view s' = view s.
Proof.
  intros Hok Hle s'. split; [|done].
  destruct Hok as [[? ? ? ? ? ? ? ? ?] ? ? ? ? ? ? ? Hev]. split; try done.
  intros a e He. destruct (Hev a e He) as (Hgc & ?). split; [|done].
  etrans; [exact Hgc|]. by eapply gc_round_commit.
Qed.

(** [add_commit] ignores a commit whose index is not above the last
    one; it panics on a gap in the indices or a timestamp before the last commit's;
    otherwise it becomes the last commit, is queued for the store and for voting,
    raises each authority's last committed round to its highest block in the commit,
    and leaves the map of blocks and the invariant intact. *)
Theorem add_commit_spec s c :
  dag_ok s → length (last_committed_rounds s) = committee_size (ds_committee s) →
  last_commit_index s < u32_max → 0 < commit_index (tcm_inner c) →
  last_commit_round s ≤ commit_round (tcm_inner c) →
  (∀ r, r ∈ commit_blocks (tcm_inner c) → (ref_author r < committee_size (ds_committee s))%nat) →
  if commit_index (tcm_inner c) <=? last_commit_index s then add_commit s c = Ok s
  else if is_next_commit s c then
    ∃ s', add_commit s c = Ok s' ∧ dag_ok s' ∧ view s' = view s ∧ last_commit s' = Some c ∧
      commits_to_write s' = commits_to_write s ++ [c] ∧
      pending_commit_votes s' = pending_commit_votes s ++ [commit_reference c] ∧
      ∀ a x, last_committed_rounds s !! a = Some x →
        last_committed_rounds s' !! a = Some (highest_for a (commit_blocks (tcm_inner c)) x)
  else ∃ msg, add_commit s c = Panic msg.
Proof.
  intros Hok Hlen Hmax Hpos Hlead Hval. unfold add_commit.
  set (stale := match last_commit s with Some _ => _ | None => _ end).
  assert (Hst : stale = if commit_index (tcm_inner c) <=? last_commit_index s then Ok true
    else if is_next_commit s c then Ok false
    else Panic (if commit_index (tcm_inner c) =? last_commit_index s + 1
                then "Commit timestamps do not monotonically increment"
                else "assertion `left == right` failed")).
  { unfold stale, is_next_commit, last_commit_index, last_commit_timestamp_ms in *.
    destruct (last_commit s) as [lc|].
    - destruct (_ <=? _); [done|]. rewrite u32_add_small by (unfold u32_max in Hmax; lia).
      destruct (commit_index (tcm_inner c) =? commit_index (tcm_inner lc) + 1); [|done].
      cbn. rewrite N.leb_antisym. by destruct (commit_timestamp_ms (tcm_inner c) <? commit_timestamp_ms (tcm_inner lc)).
    - destruct (N.leb_spec (commit_index (tcm_inner c)) 0); [lia|]. rewrite N.add_0_l.
      destruct (commit_index (tcm_inner c) =? 1); [|done]. by destruct (commit_timestamp_ms (tcm_inner c)). }
  rewrite Hst. destruct (_ <=? _); [done|]. destruct (is_next_commit s c); cbn [obind]; [|by eexists].
  destruct (bump_rounds (commit_blocks (tcm_inner c)) (last_committed_rounds s))
    as (rounds & -> & Hlen' & Hr); [by rewrite Hlen|]. cbn [obind].
  rewrite visit_rounds by (unfold ds_committee in *; lia). cbn [obind].
  eexists; split; [done|].
  destruct (dag_ok_commit s c rounds (pending_commit_votes s ++ [commit_reference c])
    (commits_to_write s ++ [c]) (commit_info_to_write s) (finalized_commits_to_write s) Hok Hlead).
  done.
Qed.
End add_commit.

Lemma add_commit_spec_witness :
  ∃ s', add_commit grown4 leader_commit4 = Ok s' ∧ dag_ok s' ∧ view s' = view grown4 ∧
    last_commit s' = Some leader_commit4 ∧
    commits_to_write s' = commits_to_write grown4 ++ [leader_commit4] ∧
    pending_commit_votes s' = pending_commit_votes grown4 ++ [commit_reference leader_commit4] ∧
    ∀ a x, last_committed_rounds grown4 !! a = Some x →
      last_committed_rounds s' !! a = Some (highest_for a (commit_blocks (tcm_inner leader_commit4)) x).
Proof.
  pose proof (add_commit_spec grown4 leader_commit4 (proj1 grown4_ok)) as Hspec.
  assert ((commit_index (tcm_inner leader_commit4) <=? last_commit_index grown4) = false) as Hidx
    by (vm_compute; reflexivity).
  assert (is_next_commit grown4 leader_commit4 = true) as Hnext by (vm_compute; reflexivity).
  rewrite Hidx, Hnext in Hspec. apply Hspec;
    [vm_compute; reflexivity|vm_compute; reflexivity|reflexivity|vm_compute; discriminate|].
  unfold ds_committee. rewrite (proj2 grown4_ok). intros r ->%list_elem_of_singleton. vm_compute. lia.
Defined.
