(* ===== verification/Ancestor.v ===== *)
(** * Selection of ancestors ([core/src/ancestor.rs])

    Authorities whose blocks propagate badly are excluded from the ancestors of own
    blocks, for a number of rounds and up to a limit on their stake.  The theorems: an
    update never panics, moves each authority by the documented transition, and never
    excludes so many authorities that the others could not form a quorum. *)

From S2P Require Import Prelude Collections Weighted Committee Types QuorumIndex Fixtures Commits.
From S2P Require Import LeaderScoring RoundTracker Storage DagState DagRecovery.

Local Open Scope N_scope.

Inductive AncestorState :=
| Include
| Exclude (score : N).

#[export] Instance ancestor_state_eq_dec : EqDecision AncestorState.
Proof. solve_decision. Defined.

Record AncestorInfo := mkAncestorInfo {
  ai_state : AncestorState;
  lock_until_round : Round;
}.

Definition ancestor_info_new : AncestorInfo := mkAncestorInfo Include 0.

Definition is_locked (i : AncestorInfo) (current_clock_round : Round) : bool :=
  current_clock_round <=? lock_until_round i.

Record StateTransition := mkStateTransition {
  authority_id : AuthorityIndex;
  tr_score : N;
  tr_stake : Stake;
  high_quorum_round : Round;
}.

Record AncestorStateManager := mkAncestorStateManager {
  state_map : list AncestorInfo;
  excluded_nodes_stake_threshold : Stake;
  total_excluded_stake : Stake;
  propagation_scores : ReputationScores;
}.

Definition STATE_LOCK_CLOCK_ROUNDS : Round := 450.
Definition SCORE_EXCLUSION_THRESHOLD_PERCENTAGE : N := 20.

Definition ancestor_state_manager_new (ctx : Context) : AncestorStateManager :=
  let percentage := u64_mul 2 (consensus_bad_nodes_stake_threshold (protocol_config ctx)) `div` 3 in
  let threshold := u64_mul percentage (total_stake (committee ctx)) `div` 100 in
  mkAncestorStateManager (replicate (committee_size (committee ctx)) ancestor_info_new) threshold 0
    reputation_scores_default.

Definition set_propagation_scores (m : AncestorStateManager) (scores : ReputationScores) : AncestorStateManager :=
  mkAncestorStateManager (state_map m) (excluded_nodes_stake_threshold m) (total_excluded_stake m) scores.

Definition get_ancestor_states (m : AncestorStateManager) : list AncestorState := ai_state <$> state_map m.

Definition calculate_network_high_quorum_round (c : Committee) (accepted : list (N * N)) : Round :=
  let with_stake := (λ '(lh, a), (lh.2, stake a)) <$> zip accepted (authorities c) in
  default 0 (scan_until (λ total, quorum_threshold c <=? total) 0 (sort_by ord_leb with_stake)).

Section manager.
Context (ctx : Context).
Abbreviation c := (committee ctx).

(** One iteration of the loop that collects the transitions. *)
Definition note_transition (m : AncestorStateManager) (accepted : list (N * N))
    (clock low_score network_high : N) (acc : list StateTransition * list StateTransition)
    (p : nat * N) : outcome (list StateTransition * list StateTransition) :=
  let '(exclude_to_include, include_to_exclude) := acc in
  let '(idx, score) := p in
  let! id := expect (to_authority_index c idx) "Index should be valid" in
  let! info := vec_get (state_map m) idx in
  let! quorum_round := vec_get accepted idx in
  let! a := authority c id in
  let transition := mkStateTransition id score (stake a) quorum_round.2 in
  if is_locked info clock then Ok acc else
  match ai_state info with
  | Include =>
      if score <=? low_score then Ok (exclude_to_include, include_to_exclude ++ [transition]) else Ok acc
  | Exclude _ =>
      if (low_score <? score) || (network_high <=? quorum_round.2)
      then Ok (exclude_to_include ++ [transition], include_to_exclude) else Ok acc
  end.

Definition apply_state_change (clock : Round) (m : AncestorStateManager) (t : StateTransition)
    (new_state : AncestorState) : outcome AncestorStateManager :=
  do! authority c (authority_id t) in
  let! info := vec_get (state_map m) (authority_id t) in
  let! total :=
    match ai_state info, new_state with
    | Exclude _, Include =>
        if tr_stake t <=? total_excluded_stake m then Ok (total_excluded_stake m - tr_stake t)
        else Panic "total_excluded_stake underflow - trying to subtract more stake than we're tracking as excluded"
    | Include, Exclude _ => Ok (u64_add (total_excluded_stake m) (tr_stake t))
    | _, _ => Panic "Calls to this function should only be made for state transition."
    end in
  let! infos := vec_set (state_map m) (authority_id t)
    (mkAncestorInfo new_state (u32_add clock STATE_LOCK_CLOCK_ROUNDS)) in
  Ok (mkAncestorStateManager infos (excluded_nodes_stake_threshold m) total (propagation_scores m)).

Definition try_exclude (clock : Round) (m : AncestorStateManager) (t : StateTransition) :
    outcome AncestorStateManager :=
  if u64_add (total_excluded_stake m) (tr_stake t) <=? excluded_nodes_stake_threshold m
  then apply_state_change clock m t (Exclude (tr_score t))
  else Ok m.

Definition low_score_threshold (m : AncestorStateManager) : N :=
  u64_mul (highest_score (propagation_scores m)) SCORE_EXCLUSION_THRESHOLD_PERCENTAGE `div` 100.

Definition update_all_ancestors_state {S : Type} `{Store S} (s : DagState S) (m : AncestorStateManager)
    (accepted_quorum_rounds : list (N * N)) : outcome AncestorStateManager :=
  let network_high := calculate_network_high_quorum_round c accepted_quorum_rounds in
  let clock := threshold_clock_round s in
  let low_score := low_score_threshold m in
  let! '(exclude_to_include, include_to_exclude) :=
    for_each (note_transition m accepted_quorum_rounds clock low_score network_high) ([], [])
      (imap pair (scores_per_authority (propagation_scores m))) in
  let! m := for_each (λ m t, apply_state_change clock m t Include) m exclude_to_include in
  for_each (try_exclude clock) m (sort_by_key tr_score include_to_exclude).
End manager.

(** ** What an update does *)

(** The authorities that are excluded. *)
Definition excluded_in (infos : list AncestorInfo) : gset AuthorityIndex :=
  list_to_set (filter (λ i, from_option ai_state Include (infos !! i) ≠ Include) (seq 0 (length infos))).

Lemma elem_of_excluded_in infos i :
  i ∈ excluded_in infos ↔ ∃ info, infos !! i = Some info ∧ ai_state info ≠ Include.
Proof.
  unfold excluded_in. rewrite elem_of_list_to_set, list_elem_of_filter, elem_of_seq. split.
  - intros [Hst Hlt]. destruct (infos !! i) as [info|] eqn:Hi; [eauto|done].
  - intros (info & Hi & Hst). rewrite Hi. split; [done|]. apply lookup_lt_Some in Hi. lia.
Qed.

Lemma excluded_in_include infos i info lock :
  infos !! i = Some info →
  excluded_in (<[i := mkAncestorInfo Include lock]> infos) = excluded_in infos ∖ {[i]}.
Proof.
  intros Hi. apply set_eq. intros j. rewrite elem_of_difference, elem_of_singleton, !elem_of_excluded_in.
  destruct (decide (j = i)) as [->|Hne].
  - rewrite list_lookup_insert_eq by (by eapply lookup_lt_Some). naive_solver.
  - rewrite list_lookup_insert_ne by done. naive_solver.
Qed.

Lemma excluded_in_exclude infos i info score lock :
  infos !! i = Some info →
  excluded_in (<[i := mkAncestorInfo (Exclude score) lock]> infos) = {[i]} ∪ excluded_in infos.
Proof.
  intros Hi. apply set_eq. intros j. rewrite elem_of_union, elem_of_singleton, !elem_of_excluded_in.
  destruct (decide (j = i)) as [->|Hne].
  - rewrite list_lookup_insert_eq by (by eapply lookup_lt_Some). naive_solver.
  - rewrite list_lookup_insert_ne by done. naive_solver.
Qed.

(** The invariant of the manager: the running total is the stake of the excluded
    authorities, and within the limit. *)
Record ancestors_ok (ctx : Context) (m : AncestorStateManager) : Prop := {
  ao_length : length (state_map m) = committee_size (committee ctx);
  ao_total : total_excluded_stake m = set_stake (committee ctx) (excluded_in (state_map m));
  ao_limit : total_excluded_stake m ≤ excluded_nodes_stake_threshold m;
  ao_scores : (length (scores_per_authority (propagation_scores m)) ≤ committee_size (committee ctx))%nat;
}.

Section update.
Context (ctx : Context) (Hc : committee_ok (committee ctx)) (clock : Round).
Abbreviation c := (committee ctx).
Abbreviation lock := (u32_add clock STATE_LOCK_CLOCK_ROUNDS).

(** A transition of a member of the committee, with its stake. *)
Definition transition_ok (t : StateTransition) : Prop :=
  (authority_id t < committee_size c)%nat ∧ tr_stake t = stake_of c (authority_id t).

Lemma apply_include_ok m t info score :
  ancestors_ok ctx m → transition_ok t →
  state_map m !! authority_id t = Some info → ai_state info = Exclude score →
  ∃ m', apply_state_change ctx clock m t Include = Ok m' ∧ ancestors_ok ctx m' ∧
    state_map m' = <[authority_id t := mkAncestorInfo Include lock]> (state_map m) ∧
    excluded_nodes_stake_threshold m' = excluded_nodes_stake_threshold m ∧
    propagation_scores m' = propagation_scores m.
Proof using Hc.
  intros [Hlen Htot Hlim Hsc] [Hid Hst] Hinfo Hex. unfold apply_state_change, authority, vec_get, vec_set.
  destruct (lookup_lt_is_Some_2 (authorities c) _ Hid) as [a Ha]. rewrite Ha, Hinfo. cbn. rewrite Hex.
  assert (Hin : authority_id t ∈ excluded_in (state_map m)).
  { apply elem_of_excluded_in. exists info. by rewrite Hex. }
  assert (Hsplit : set_stake c (excluded_in (state_map m)) =
    stake_of c (authority_id t) + set_stake c (excluded_in (state_map m) ∖ {[authority_id t]})).
  { rewrite <-set_stake_insert by set_solver. f_equal. apply set_eq. intros j.
    destruct (decide (j = authority_id t)) as [->|]; set_solver. }
  rewrite (proj2 (N.leb_le _ _)) by (rewrite Hst, Htot, Hsplit; lia). cbn.
  rewrite decide_True by (by rewrite Hlen). cbn. eexists. split; [done|].
  split; [|done]. split; cbn [state_map total_excluded_stake excluded_nodes_stake_threshold propagation_scores];
    rewrite ?length_insert; try done.
  - rewrite (excluded_in_include _ _ _ _ Hinfo), Hst, Htot, Hsplit. lia.
  - lia.
Qed.

Lemma apply_exclude_ok m t info :
  ancestors_ok ctx m → transition_ok t →
  state_map m !! authority_id t = Some info → ai_state info = Include →
  u64_add (total_excluded_stake m) (tr_stake t) ≤ excluded_nodes_stake_threshold m →
  ∃ m', apply_state_change ctx clock m t (Exclude (tr_score t)) = Ok m' ∧ ancestors_ok ctx m' ∧
    state_map m' = <[authority_id t := mkAncestorInfo (Exclude (tr_score t)) lock]> (state_map m) ∧
    total_excluded_stake m' = total_excluded_stake m + stake_of c (authority_id t) ∧
    excluded_nodes_stake_threshold m' = excluded_nodes_stake_threshold m ∧
    propagation_scores m' = propagation_scores m.
Proof using Hc.
  intros [Hlen Htot Hlim Hsc] [Hid Hst] Hinfo Hinc Hle. unfold apply_state_change, authority, vec_get, vec_set.
  destruct (lookup_lt_is_Some_2 (authorities c) _ Hid) as [a Ha]. rewrite Ha, Hinfo. cbn. rewrite Hinc. cbn.
  rewrite decide_True by (by rewrite Hlen). cbn. eexists. split; [done|].
  assert (Hnin : authority_id t ∉ excluded_in (state_map m)).
  { rewrite elem_of_excluded_in. naive_solver. }
  pose proof (set_stake_le_total c ({[authority_id t]} ∪ excluded_in (state_map m)) Hc) as Htop.
  rewrite set_stake_insert in Htop by done. pose proof (ok_bound c Hc).
  assert (Hadd : u64_add (total_excluded_stake m) (tr_stake t) =
    total_excluded_stake m + stake_of c (authority_id t)) by (rewrite Hst, Htot; machine_lia).
  split; [|by rewrite Hadd]. split; cbn [state_map total_excluded_stake excluded_nodes_stake_threshold propagation_scores];
    rewrite ?length_insert; try done.
  rewrite (excluded_in_exclude _ _ _ _ _ Hinfo), set_stake_insert, Hadd, Htot by done. lia.
Qed.

Lemma include_phase ts m :
  ancestors_ok ctx m → Forall transition_ok ts → NoDup (authority_id <$> ts) →
  (∀ t, t ∈ ts → ∃ info score, state_map m !! authority_id t = Some info ∧ ai_state info = Exclude score) →
  ∃ m', for_each (λ m t, apply_state_change ctx clock m t Include) m ts = Ok m' ∧ ancestors_ok ctx m' ∧
    (∀ j, state_map m' !! j =
      if decide (j ∈ authority_id <$> ts) then Some (mkAncestorInfo Include lock) else state_map m !! j) ∧
    excluded_nodes_stake_threshold m' = excluded_nodes_stake_threshold m ∧
    propagation_scores m' = propagation_scores m.
Proof using Hc.
  revert m. induction ts as [|t ts IH]; intros m Hok Hts Hnd Hex; [by exists m|].
  apply Forall_cons in Hts as [Ht Hts]. apply NoDup_cons in Hnd as [Hnin Hnd]. cbn [for_each].
  destruct (Hex t) as (info & score & Hi & Hst); [by left|].
  destruct (apply_include_ok m t info score) as (m1 & -> & Hok1 & Hmap & Hthr & Hsc); try done. cbn.
  destruct (IH m1 Hok1 Hts Hnd) as (m' & -> & Hok' & Hlook & Hthr' & Hsc').
  - intros t' Ht'. rewrite Hmap, list_lookup_insert_ne; [apply Hex; by right|].
    intros Heq. apply Hnin. rewrite Heq. by apply list_elem_of_fmap_2.
  - exists m'. split; [done|]. split; [done|]. split; [|by rewrite Hthr', Hsc'].
    intros j. rewrite Hlook, Hmap. cbn. destruct (decide (j = authority_id t)) as [->|Hne].
    + rewrite decide_False, decide_True by (done || by left).
      apply list_lookup_insert_eq. by eapply lookup_lt_Some.
    + rewrite list_lookup_insert_ne by done.
      destruct (decide (j ∈ authority_id <$> ts)); [rewrite decide_True by (by right); done|].
      rewrite decide_False; [done|]. by intros [|]%elem_of_cons.
Qed.

(** The authority is excluded, or the limit leaves no room for its stake. *)
Definition excluded_or_full (m m' : AncestorStateManager) (t : StateTransition) : Prop :=
  state_map m' !! authority_id t = Some (mkAncestorInfo (Exclude (tr_score t)) lock) ∨
  (state_map m' !! authority_id t = state_map m !! authority_id t ∧
   excluded_nodes_stake_threshold m < total_excluded_stake m' + stake_of c (authority_id t)).

Lemma exclude_phase ts m :
  ancestors_ok ctx m → Forall transition_ok ts → NoDup (authority_id <$> ts) →
  (∀ t, t ∈ ts → ∃ info, state_map m !! authority_id t = Some info ∧ ai_state info = Include) →
  ∃ m', for_each (try_exclude ctx clock) m ts = Ok m' ∧ ancestors_ok ctx m' ∧
    (∀ j, j ∉ authority_id <$> ts → state_map m' !! j = state_map m !! j) ∧
    (∀ t, t ∈ ts → excluded_or_full m m' t) ∧
    total_excluded_stake m ≤ total_excluded_stake m' ∧
    excluded_nodes_stake_threshold m' = excluded_nodes_stake_threshold m ∧
    propagation_scores m' = propagation_scores m.
Proof using Hc.
  revert m. induction ts as [|t ts IH]; intros m Hok Hts Hnd Hinc.
  { exists m. cbn. split_and!; try done. intros t. by rewrite elem_of_nil. }
  apply Forall_cons in Hts as [Ht Hts]. apply NoDup_cons in Hnd as [Hnin Hnd]. cbn [for_each].
  destruct (Hinc t) as (info & Hi & Hst); [by left|]. unfold try_exclude at 1.
  assert (Hother : ∀ t', t' ∈ ts → authority_id t' ≠ authority_id t).
  { intros t' Ht' Heq. apply Hnin. rewrite <-Heq. by apply list_elem_of_fmap_2. }
  destruct (N.leb_spec (u64_add (total_excluded_stake m) (tr_stake t)) (excluded_nodes_stake_threshold m)) as [Hle|Hgt].
  - destruct (apply_exclude_ok m t info) as (m1 & -> & Hok1 & Hmap & Htot & Hthr & Hsc); try done. cbn [obind].
    destruct (IH m1 Hok1 Hts Hnd) as (m' & -> & Hok' & Hsame & Hdone & Hmono & Hthr' & Hsc').
    { intros t' Ht'. rewrite Hmap, list_lookup_insert_ne by (by apply not_eq_sym, Hother). apply Hinc. by right. }
    exists m'. split_and!; [done|done| | |lia|congruence|congruence].
    + intros j [Hj1 Hj2]%not_elem_of_cons. rewrite Hsame, Hmap by done. by rewrite list_lookup_insert_ne.
    + intros t' [->|Ht']%elem_of_cons.
      * left. rewrite Hsame, Hmap by done. apply list_lookup_insert_eq. by eapply lookup_lt_Some.
      * destruct (Hdone t' Ht') as [|[Heq Hfull]]; [by left|right].
        rewrite Heq, Hmap, list_lookup_insert_ne by (by apply not_eq_sym, Hother). by rewrite <-Hthr.
  - cbn [obind]. destruct (IH m Hok Hts Hnd) as (m' & -> & Hok' & Hsame & Hdone & Hmono & Hthr' & Hsc').
    { intros t' Ht'. apply Hinc. by right. }
    exists m'. split_and!; try done.
    + intros j [Hj1 Hj2]%not_elem_of_cons. by apply Hsame.
    + intros t' [->|Ht']%elem_of_cons; [|by apply Hdone]. right. split; [by apply Hsame|].
      destruct Ht as [Hid Htst]. rewrite Htst in Hgt. pose proof (N.Div0.mod_le (total_excluded_stake m + stake_of c (authority_id t)) u64_modulus).
      unfold u64_add in Hgt. lia.
Qed.
End update.

(** ** The collected transitions *)

Section collect.
Context (ctx : Context) (m : AncestorStateManager) (accepted : list (N * N)) (clock low_score network_high : N).
Abbreviation c := (committee ctx).
Hypothesis Hlen : length (state_map m) = committee_size c.
Hypothesis Hacc : length accepted = committee_size c.

Definition high_of (i : AuthorityIndex) : Round := from_option snd 0 (accepted !! i).
Definition transition_of (p : nat * N) : StateTransition :=
  mkStateTransition p.1 p.2 (stake_of c p.1) (high_of p.1).

Definition to_include (p : nat * N) : bool :=
  match state_map m !! p.1 with
  | Some (mkAncestorInfo (Exclude _) l) =>
      negb (clock <=? l) && ((low_score <? p.2) || (network_high <=? high_of p.1))
  | _ => false
  end.
Definition to_exclude (p : nat * N) : bool :=
  match state_map m !! p.1 with
  | Some (mkAncestorInfo Include l) => negb (clock <=? l) && (p.2 <=? low_score)
  | _ => false
  end.

Lemma note_transition_eq e2i i2e p :
  (p.1 < committee_size c)%nat →
  note_transition ctx m accepted clock low_score network_high (e2i, i2e) p =
  Ok (e2i ++ (if to_include p then [transition_of p] else []),
      i2e ++ (if to_exclude p then [transition_of p] else [])).
Proof using Hlen Hacc.
  destruct p as [i score]. cbn. intros Hi. unfold to_authority_index. rewrite (proj2 (Nat.ltb_lt _ _) Hi). cbn.
  unfold vec_get, authority, to_include, to_exclude, transition_of, high_of, stake_of, is_locked. cbn.
  destruct (lookup_lt_is_Some_2 (state_map m) i) as [[[|x] l] Hst]; [by rewrite Hlen| |];
    destruct (lookup_lt_is_Some_2 accepted i) as [[lo hi] Hqr]; [by rewrite Hacc| |by rewrite Hacc|];
    destruct (lookup_lt_is_Some_2 (authorities c) i Hi) as [a Ha]; rewrite Hst, Hqr; unfold vec_get; rewrite Ha; cbn;
    repeat case_match; simplify_eq/=; rewrite ?app_nil_r; done.
Qed.

Lemma collect_spec ps e2i i2e :
  (∀ p, p ∈ ps → (p.1 < committee_size c)%nat) →
  for_each (note_transition ctx m accepted clock low_score network_high) (e2i, i2e) ps =
  Ok (e2i ++ (transition_of <$> filter (λ p, to_include p) ps),
      i2e ++ (transition_of <$> filter (λ p, to_exclude p) ps)).
Proof using Hlen Hacc.
  revert e2i i2e. induction ps as [|p ps IH]; intros e2i i2e Hps; [cbn; by rewrite !app_nil_r|].
  cbn [for_each]. rewrite note_transition_eq by (apply Hps; by left). cbn [obind].
  rewrite IH by (intros; apply Hps; by right). rewrite !filter_cons, <-!app_assoc.
  destruct (to_include p), (to_exclude p); done.
Qed.
End collect.

Lemma transitions_ok ctx accepted (ps : list (nat * N)) :
  (∀ p, p ∈ ps → (p.1 < committee_size (committee ctx))%nat) →
  Forall (transition_ok ctx) (transition_of ctx accepted <$> ps).
Proof. intros Hps. apply Forall_fmap, Forall_forall. intros p Hp. split; [by apply Hps|done]. Qed.

Lemma authority_of_transitions ctx accepted (ps : list (nat * N)) :
  authority_id <$> (transition_of ctx accepted <$> ps) = ps.*1.
Proof. rewrite <-list_fmap_compose. by apply list_fmap_ext. Qed.

Lemma elem_of_scores (l : list N) i x : (i, x) ∈ imap pair l ↔ l !! i = Some x.
Proof.
  rewrite list_elem_of_lookup. setoid_rewrite list_lookup_imap. setoid_rewrite fmap_Some. split.
  - intros (j & y & Hj & [= -> ->]). done.
  - intros Hi. by exists i, x.
Qed.

Lemma scores_in_committee ctx m p :
  ancestors_ok ctx m → p ∈ imap pair (scores_per_authority (propagation_scores m)) →
  (p.1 < committee_size (committee ctx))%nat.
Proof.
  intros Hok. destruct p as [i x]. rewrite elem_of_scores. intros Hi%lookup_lt_Some.
  pose proof (ao_scores ctx m Hok). cbn. lia.
Qed.

Lemma NoDup_scores (l : list N) (P : nat * N → bool) : NoDup (filter (λ p, P p) (imap pair l)).*1.
Proof.
  apply (sublist_NoDup _ (imap pair l).*1); [|apply fmap_sublist, sublist_filter].
  apply NoDup_alt. intros i j x. rewrite !list_lookup_fmap, !list_lookup_imap.
  destruct (l !! i), (l !! j); cbn; congruence.
Qed.

(** ** Theorems *)

(** The documented transition of one authority: nothing while it is locked; a low
    scorer is excluded if there is [room] for its stake; an excluded authority whose
    score or whose quorum round recovered is included; a change locks the state. *)
Definition ancestor_step (clock low_score network_high high score : N) (room : Prop)
    (old new : AncestorInfo) : Prop :=
  let lock := u32_add clock STATE_LOCK_CLOCK_ROUNDS in
  if is_locked old clock then new = old else
  match ai_state old with
  | Include =>
      if score <=? low_score then new = mkAncestorInfo (Exclude score) lock ∨ (new = old ∧ ¬ room) else new = old
  | Exclude _ =>
      if (low_score <? score) || (network_high <=? high) then new = mkAncestorInfo Include lock else new = old
  end.

Section theorems.
Context {S : Type} `{Store S}.
Implicit Types s : DagState S.

(** Every authority is in one of three cases: a transition to [Include], a transition
    to [Exclude], none. *)
Lemma update_by_transition ctx s m accepted :
  committee_ok (committee ctx) → ancestors_ok ctx m → length accepted = committee_size (committee ctx) →
  let clock := threshold_clock_round s in
  let low := low_score_threshold m in
  let net := calculate_network_high_quorum_round (committee ctx) accepted in
  let scores := scores_per_authority (propagation_scores m) in
  let lock := u32_add clock STATE_LOCK_CLOCK_ROUNDS in
  ∃ m', update_all_ancestors_state ctx s m accepted = Ok m' ∧ ancestors_ok ctx m' ∧
    excluded_nodes_stake_threshold m' = excluded_nodes_stake_threshold m ∧
    propagation_scores m' = propagation_scores m ∧
    (∀ i x, scores !! i = Some x → to_include m accepted clock low net (i, x) →
      state_map m' !! i = Some (mkAncestorInfo Include lock)) ∧
    (∀ i x, scores !! i = Some x → to_exclude m clock low (i, x) →
      state_map m' !! i = Some (mkAncestorInfo (Exclude x) lock) ∨
      (state_map m' !! i = state_map m !! i ∧
       excluded_nodes_stake_threshold m < total_excluded_stake m' + stake_of (committee ctx) i)) ∧
    (∀ i, (∀ x, scores !! i = Some x → to_include m accepted clock low net (i, x) = false ∧
                                         to_exclude m clock low (i, x) = false) →
      state_map m' !! i = state_map m !! i).
Proof.
  intros Hc Hok Hacc clock low net scores lock. unfold update_all_ancestors_state. fold clock low net scores.
  assert (Hps : ∀ p, p ∈ imap pair scores → (p.1 < committee_size (committee ctx))%nat)
    by (intros p Hp; by apply (scores_in_committee ctx m)).
  rewrite (collect_spec ctx m accepted clock low net (ao_length _ _ Hok) Hacc) by done. cbn [obind app].
  set (inc := filter _ _) at 1. set (exc := filter _ _) at 1.
  assert (Hin : ∀ i x, (i, x) ∈ inc ↔ to_include m accepted clock low net (i, x) ∧ scores !! i = Some x)
    by (intros; unfold inc; by rewrite list_elem_of_filter, elem_of_scores).
  assert (Hex : ∀ i x, (i, x) ∈ exc ↔ to_exclude m clock low (i, x) ∧ scores !! i = Some x)
    by (intros; unfold exc; by rewrite list_elem_of_filter, elem_of_scores).
  assert (Hdisj : ∀ i, i ∈ exc.*1 → i ∉ inc.*1).
  { intros i ([i1 x1] & -> & [H1 _]%Hex)%list_elem_of_fmap ([i2 x2] & Heq & [H2 _]%Hin)%list_elem_of_fmap.
    cbn in Heq. subst i2. unfold to_include, to_exclude in *. cbn in *. by destruct (state_map m !! i1) as [[[|] ?]|]. }
  destruct (include_phase ctx Hc clock (transition_of ctx accepted <$> inc) m)
    as (m1 & -> & Hok1 & Hlook1 & Hthr1 & Hsc1); try done.
  { apply transitions_ok. intros p [_ Hp]%list_elem_of_filter. by apply Hps. }
  { rewrite authority_of_transitions. apply NoDup_scores. }
  { intros t ([i x] & -> & [Hp _]%Hin)%list_elem_of_fmap. unfold to_include in Hp. cbn in *.
    destruct (state_map m !! i) as [[[|y] l]|]; try done. eauto. }
  cbn [obind]. rewrite authority_of_transitions in Hlook1.
  set (ts := sort_by_key tr_score (transition_of ctx accepted <$> exc)).
  assert (Hperm : ts ≡ₚ transition_of ctx accepted <$> exc) by apply sort_by_perm.
  assert (Hids : authority_id <$> ts ≡ₚ exc.*1) by (by rewrite Hperm, authority_of_transitions).
  destruct (exclude_phase ctx Hc clock ts m1) as (m' & Hrun & Hok' & Hsame & Hdone & _ & Hthr & Hsc); try done.
  { rewrite Hperm. apply transitions_ok. intros p [_ Hp]%list_elem_of_filter. by apply Hps. }
  { rewrite Hids. apply NoDup_scores. }
  { intros t. rewrite Hperm. intros ([i x] & -> & Hp)%list_elem_of_fmap. cbn.
    rewrite Hlook1, decide_False by (apply Hdisj, list_elem_of_fmap; by exists (i, x)).
    apply Hex in Hp as [Hp _]. unfold to_exclude in Hp. cbn in Hp.
    destruct (state_map m !! i) as [[[|y] l]|]; try done. eauto. }
  assert (Hfst : ∀ (l : list (nat * N)) i x, (i, x) ∈ l → i ∈ l.*1) by (intros l i x Hl; by apply (list_elem_of_fmap_2 fst) in Hl).
  exists m'. split_and!; [done|done|congruence|congruence|..].
  - intros i x Hx Hi. assert (Hinc : (i, x) ∈ inc) by (by apply Hin).
    rewrite Hsame, Hlook1, decide_True; [done|by eapply Hfst|].
    rewrite Hids. intros Hi'. apply Hdisj in Hi'. by apply Hi', (Hfst _ _ x).
  - intros i x Hx Hi. assert (Hexc : (i, x) ∈ exc) by (by apply Hex).
    destruct (Hdone (transition_of ctx accepted (i, x))) as [?|[Heq Hfull]].
    + rewrite Hperm. by apply list_elem_of_fmap_2.
    + by left.
    + right. cbn in Heq, Hfull. rewrite Heq, Hlook1, decide_False by (by apply Hdisj, (Hfst _ _ x)). by rewrite <-Hthr1.
  - intros i Hno. rewrite Hsame, Hlook1, decide_False; [done|..].
    + intros ([i' x] & -> & [Hi Hx]%Hin)%list_elem_of_fmap. cbn in Hno. destruct (Hno x Hx) as [E _]. by rewrite E in Hi.
    + rewrite Hids. intros ([i' x] & -> & [Hi Hx]%Hex)%list_elem_of_fmap. cbn in Hno. destruct (Hno x Hx) as [_ E]. by rewrite E in Hi.
Qed.

(** An update never panics.  A locked authority keeps its state; an
    included authority is excluded exactly if its score is at most a fifth of the best
    one and the stake limit leaves room for it; an excluded authority is included again
    exactly if its score recovered or its quorum round caught up with the network's.
    Every change locks the state for 450 rounds, and the total of excluded stake stays
    the stake of the excluded authorities and within its limit. *)
Theorem update_ancestors_spec ctx s m accepted :
  committee_ok (committee ctx) → ancestors_ok ctx m → length accepted = committee_size (committee ctx) →
  ∃ m', update_all_ancestors_state ctx s m accepted = Ok m' ∧ ancestors_ok ctx m' ∧
    ∀ i old new, state_map m !! i = Some old → state_map m' !! i = Some new →
      match scores_per_authority (propagation_scores m) !! i with
      | Some score =>
          ancestor_step (threshold_clock_round s) (low_score_threshold m)
            (calculate_network_high_quorum_round (committee ctx) accepted) (high_of accepted i) score
            (total_excluded_stake m' + stake_of (committee ctx) i ≤ excluded_nodes_stake_threshold m) old new
      | None => new = old
      end.
Proof.
  intros Hc Hok Hacc. destruct (update_by_transition ctx s m accepted Hc Hok Hacc)
    as (m' & Hrun & Hok' & _ & _ & Hinc & Hexc & Hsame).
  exists m'. split; [done|]. split; [done|]. intros i old new Hold Hnew.
  destruct (scores_per_authority (propagation_scores m) !! i) as [x|] eqn:Hx.
  - assert (Hkeep : to_include m accepted (threshold_clock_round s) (low_score_threshold m)
        (calculate_network_high_quorum_round (committee ctx) accepted) (i, x) = false →
      to_exclude m (threshold_clock_round s) (low_score_threshold m) (i, x) = false → new = old).
    { intros E1 E2. rewrite Hsame in Hnew by (intros y Hy; by replace y with x by congruence). congruence. }
    specialize (Hinc i x Hx). specialize (Hexc i x Hx). clear Hsame.
    unfold to_include, to_exclude, ancestor_step, is_locked in *. cbn in *. rewrite Hold in *.
    destruct old as [[|y] l]; cbn in *; (destruct (_ <=? l); [by apply Hkeep|]); cbn in *.
    + destruct (x <=? _); [|by apply Hkeep].
      destruct (Hexc I) as [He|[He Hfull]]; rewrite He in Hnew; [left; congruence|right]. split; [congruence|lia].
    + destruct (_ || _); [|by apply Hkeep]. rewrite (Hinc I) in Hnew. congruence.
  - rewrite Hsame in Hnew by (intros y Hy; congruence). congruence.
Qed.
End theorems.

(** ** The included authorities form a quorum *)

(** The states of a manager: it is created for the committee, given the scores of the
    leader schedule, and updated with quorum rounds from any state of the DAG. *)
Inductive ancestors_reachable {S : Type} `{Store S} (ctx : Context) : AncestorStateManager → Prop :=
| reach_new : ancestors_reachable ctx (ancestor_state_manager_new ctx)
| reach_scores m scores :
    ancestors_reachable ctx m →
    (length (scores_per_authority scores) ≤ committee_size (committee ctx))%nat →
    ancestors_reachable ctx (set_propagation_scores m scores)
| reach_update m m' (s : DagState S) accepted :
    ancestors_reachable ctx m → length accepted = committee_size (committee ctx) →
    update_all_ancestors_state ctx s m accepted = Ok m' →
    ancestors_reachable ctx m'.

Lemma ancestors_new_ok ctx : ancestors_ok ctx (ancestor_state_manager_new ctx).
Proof.
  split; cbn [ancestor_state_manager_new state_map total_excluded_stake excluded_nodes_stake_threshold propagation_scores];
    [by rewrite length_replicate| |apply N.le_0_l|cbn; lia].
  rewrite <-(set_stake_empty (committee ctx)). f_equal. symmetry. apply set_eq. intros i.
  rewrite elem_of_excluded_in. split; [|set_solver]. intros (info & [-> _]%lookup_replicate & Hst). by destruct Hst.
Qed.

Lemma excluded_threshold_small ctx :
  committee_ok (committee ctx) → consensus_bad_nodes_stake_threshold (protocol_config ctx) ≤ 33 →
  excluded_nodes_stake_threshold (ancestor_state_manager_new ctx) < validity_threshold (committee ctx).
Proof.
  intros Hc Hb. pose proof (committee_thresholds _ Hc) as (_ & Hv & _). pose proof (ok_bound _ Hc).
  pose proof (ok_positive _ Hc). cbn. remember (total_stake (committee ctx)) as t.
  remember (consensus_bad_nodes_stake_threshold (protocol_config ctx)) as b.
  assert (Hp : u64_mul 2 b `div` 3 ≤ 22) by (machine; apply N.Div0.div_le_upper_bound; lia).
  remember (u64_mul 2 b `div` 3) as p. pose proof (N.Div0.mul_div_le (u64_mul p t) 100).
  assert (u64_mul p t ≤ p * t) by apply N.Div0.mod_le. nia.
Qed.

(** However scores and rounds evolve, the authorities that are not
    excluded hold a quorum, so that excluding ancestors can never keep an authority from
    proposing; the stake of the excluded ones is exactly the tracked total. *)
Theorem included_ancestors_form_quorum {S : Type} `{Store S} ctx m :
  committee_ok (committee ctx) → consensus_bad_nodes_stake_threshold (protocol_config ctx) ≤ 33 →
  ancestors_reachable ctx m →
  total_excluded_stake m = set_stake (committee ctx) (excluded_in (state_map m)) ∧
  reached_quorum (committee ctx)
    (set_stake (committee ctx) (all_authorities (committee ctx) ∖ excluded_in (state_map m))) = true.
Proof.
  intros Hc Hb Hreach.
  assert (Hok : ancestors_ok ctx m ∧
    excluded_nodes_stake_threshold m = excluded_nodes_stake_threshold (ancestor_state_manager_new ctx)).
  { induction Hreach as [|m scores _ [[Hl Ht Hlim _] Hthr] Hsc|m m' s accepted _ [Hok Hthr] Hacc Hrun].
    - split; [apply ancestors_new_ok|done].
    - by split.
    - destruct (update_by_transition ctx s m accepted Hc Hok Hacc) as (m1 & Hrun' & Hok' & Hthr' & _).
      rewrite Hrun in Hrun'. injection Hrun' as <-. split; [done|congruence]. }
  destruct Hok as [[Hl Ht Hlim _] Hthr]. split; [done|]. apply N.leb_le.
  pose proof (excluded_threshold_small ctx Hc Hb) as Hsmall. rewrite Hthr in Hlim.
  pose proof (set_stake_all _ Hc) as Hall. rewrite (set_stake_diff _ _ (excluded_in (state_map m))) in Hall.
  replace (all_authorities (committee ctx) ∩ excluded_in (state_map m)) with (excluded_in (state_map m)) in Hall.
  - pose proof (committee_thresholds _ Hc). lia.
  - apply set_eq. intros i. rewrite elem_of_intersection, elem_of_all_authorities, elem_of_excluded_in.
    split; [|tauto]. intros (info & Hi & Hst). split; [|eauto]. rewrite <-Hl. by eapply lookup_lt_Some.
Qed.

(** ** Witnesses: ten authorities, the second of which scores badly *)

Definition context10 : Context := context_of (test_committee (replicate 10 1)).
Definition scores10 : ReputationScores :=
  mkReputationScores [100; 3; 90; 95; 100; 98; 97; 96; 99; 91] commit_range_default.
Definition manager10 : AncestorStateManager :=
  set_propagation_scores (ancestor_state_manager_new context10) scores10.
Definition dag10 : DagState Inner := empty_dag context10.
Definition accepted10 : list (N * N) := replicate 10 (5, 7).

Lemma committee10_ok : committee_ok (committee context10).
Proof. split; vm_compute; reflexivity. Qed.

Lemma update_ancestors_spec_witness :
  ancestors_ok context10 manager10 ∧
  ∃ m', update_all_ancestors_state context10 dag10 manager10 accepted10 = Ok m' ∧
    get_ancestor_states m' !! 1%nat = Some (Exclude 3).
Proof.
  assert (Hok : ancestors_ok context10 manager10) by (split; vm_compute; (reflexivity || discriminate || lia)).
  split; [done|].
  destruct (update_ancestors_spec context10 dag10 manager10 accepted10) as (m' & Hrun & _);
    [apply committee10_ok|done|reflexivity|].
  exists m'. split; [done|]. revert Hrun. vm_compute. intros [= <-]. reflexivity.
Defined.

Lemma included_ancestors_form_quorum_witness :
  ∃ m', update_all_ancestors_state context10 dag10 manager10 accepted10 = Ok m' ∧
    reached_quorum (committee context10)
      (set_stake (committee context10) (all_authorities (committee context10) ∖ excluded_in (state_map m'))) = true.
Proof.
  destruct (update_all_ancestors_state context10 dag10 manager10 accepted10) as [m'| |] eqn:Hrun;
    [|vm_compute in Hrun; discriminate..].
  exists m'. split; [done|].
  apply (included_ancestors_form_quorum (S := Inner) context10 m'); [apply committee10_ok|vm_compute; discriminate|].
  apply (reach_update context10 manager10 m' dag10 accepted10); [|reflexivity|exact Hrun].
  apply reach_scores; [apply reach_new|vm_compute; lia].
Defined.
