(* ===== verification/BaseCommitter.v ===== *)
(** * The commit rule of one leader ([core/src/base_committer.rs])

    A leader slot is decided from the blocks of the two rounds above it: blamed by a
    quorum it is skipped, certified by a quorum it is committed, and otherwise it is
    decided from the history of a later committed leader.  The rule reads the DAG
    through the class [DagReader], which [DagState] implements. *)

From S2P Require Import Prelude Collections Weighted Committee Types Fixtures Commits StakeAggregator.
From S2P Require Import ThresholdClock LeaderScoring Storage DagState DagStateSpec DagTraversal.

Local Open Scope N_scope.

Abbreviation WaveNumber := N (only parsing).
Definition DEFAULT_WAVE_LENGTH : N := 3.

Record BaseCommitterOptions := mkBaseCommitterOptions {
  wave_length : N;
  leader_offset : N;
  round_offset : N;
}.

Definition base_committer_options_default : BaseCommitterOptions :=
  mkBaseCommitterOptions DEFAULT_WAVE_LENGTH 0 0.

(** ** What the committers read from the DAG *)

Class DagReader (D : Type) := {
  dr_committee : D → Committee;
  dr_gc_round : D → Round;
  dr_highest_accepted_round : D → Round;
  dr_get_block : D → BlockRef → outcome (option VerifiedBlock);
  dr_blocks_at_slot : D → Slot → list VerifiedBlock;
  dr_blocks_at_round : D → Round → outcome (list VerifiedBlock);
  dr_ancestors_at_round : nat → D → VerifiedBlock → Round → outcome (list VerifiedBlock);
}.

#[export] Instance dag_state_reader {S : Type} `{Store S} : DagReader (DagState S) := {
  dr_committee s := committee (ds_context s);
  dr_gc_round := gc_round;
  dr_highest_accepted_round := highest_accepted_round;
  dr_get_block := get_block;
  dr_blocks_at_slot := get_uncommitted_blocks_at_slot;
  dr_blocks_at_round := get_uncommitted_blocks_at_round;
  dr_ancestors_at_round := ancestors_at_round;
}.

(** ** Waves *)

Definition leader_round (o : BaseCommitterOptions) (wave : WaveNumber) : Round :=
  u32_add (u32_mul wave (wave_length o)) (round_offset o).
Definition decision_round (o : BaseCommitterOptions) (wave : WaveNumber) : Round :=
  u32_add (u32_sub (u32_add (u32_mul wave (wave_length o)) (wave_length o)) 1) (round_offset o).
(** The wave length is at least 3, so the division is defined. *)
Definition wave_number (o : BaseCommitterOptions) (r : Round) : WaveNumber :=
  saturating_sub r (round_offset o) `div` wave_length o.

Section base_committer.
Context {D : Type} `{DagReader D}.
Context (fuel : nat) (o : BaseCommitterOptions).
(** [LeaderSchedule::elect_leader] *)
Context (elect : Round → N → outcome AuthorityIndex).
Implicit Types d : D.

Definition base_elect_leader (r : Round) : outcome (option Slot) :=
  if negb (leader_round o (wave_number o r) =? r) then Ok None
  else let! a := elect r (leader_offset o) in Ok (Some (mkSlot r a)).

(** ** Votes and certificates *)

(** The loop of [find_supported_block] over the ancestors; [rec] is the recursive
    call. *)
Fixpoint scan_support d (rec : VerifiedBlock → outcome (option BlockRef)) (leader_slot : Slot)
    (ancs : list BlockRef) : outcome (option BlockRef) :=
  match ancs with
  | [] => Ok None
  | a :: rest =>
      if decide (slot_from a = leader_slot) then Ok (Some a)
      else if ref_round a <=? slot_round leader_slot then scan_support d rec leader_slot rest
      else
        let! ob := dr_get_block d a in
        let! b := expect ob "Block not found in storage" in
        let! support := rec b in
        match support with
        | Some r => Ok (Some r)
        | None => scan_support d rec leader_slot rest
        end
  end.

Fixpoint find_supported (n : nat) d (leader_slot : Slot) (from : VerifiedBlock) :
    outcome (option BlockRef) :=
  match n with
  | O => OutOfFuel
  | Datatypes.S n' =>
      if round from <? slot_round leader_slot then Ok None
      else scan_support d (find_supported n' d leader_slot) leader_slot (ancestors from)
  end.

(** Links go to lower rounds and the recursion stops at the leader's round, so this
    many levels are enough. *)
Definition find_supported_block d (leader_slot : Slot) (from : VerifiedBlock) :
    outcome (option BlockRef) :=
  find_supported (2 + N.to_nat (round from - slot_round leader_slot)) d leader_slot from.

Definition is_vote d (potential_vote leader_block : VerifiedBlock) : outcome bool :=
  let r := reference leader_block in
  let! support := find_supported_block d (slot_from r) potential_vote in
  Ok (bool_decide (support = Some r)).

(** The vote of an ancestor, through the cache. *)
Definition cached_vote d (leader_block : VerifiedBlock) (all_votes : gmap BlockRef bool)
    (r : BlockRef) : outcome (gmap BlockRef bool * bool) :=
  match all_votes !! r with
  | Some v => Ok (all_votes, v)
  | None =>
      let! potential_vote := dr_get_block d r in
      let! v :=
        match potential_vote with
        | Some b => is_vote d b leader_block
        | None =>
            do! rassert (ref_round r <=? dr_gc_round d)
              "Block not found in storage, and is not below gc_round" in
            Ok false
        end in
      Ok (<[r := v]> all_votes, v)
  end.

Fixpoint scan_votes d (leader_block : VerifiedBlock) (agg : StakeAggregator)
    (all_votes : gmap BlockRef bool) (refs : list BlockRef) : outcome (gmap BlockRef bool * bool) :=
  match refs with
  | [] => Ok (all_votes, false)
  | r :: rest =>
      let! '(all_votes, v) := cached_vote d leader_block all_votes r in
      if (v : bool) then
        let! '(agg, reached) := add QuorumThreshold (dr_committee d) agg (ref_author r) in
        if (reached : bool) then Ok (all_votes, true) else scan_votes d leader_block agg all_votes rest
      else scan_votes d leader_block agg all_votes rest
  end.

Definition is_certificate d (potential_certificate leader_block : VerifiedBlock)
    (all_votes : gmap BlockRef bool) : outcome (gmap BlockRef bool * bool) :=
  scan_votes d leader_block aggregator_new all_votes (ancestors potential_certificate).

(** ** Decisions *)

Definition is_blame (leader : AuthorityIndex) (voting_block : VerifiedBlock) : bool :=
  forallb (λ a, negb (ref_author a =? leader)%nat) (ancestors voting_block).

Definition enough_leader_blame d (voting_round : Round) (leader : AuthorityIndex) : outcome bool :=
  let! voting_blocks := dr_blocks_at_round d voting_round in
  add_until QuorumThreshold (dr_committee d) aggregator_new
    (author <$> filter (λ b, is_blame leader b) voting_blocks).

Fixpoint scan_certificates d (leader_block : VerifiedBlock) (agg : StakeAggregator)
    (all_votes : gmap BlockRef bool) (blocks : list VerifiedBlock) : outcome bool :=
  match blocks with
  | [] => Ok false
  | b :: rest =>
      let! '(all_votes, cert) := is_certificate d b leader_block all_votes in
      if (cert : bool) then
        let! '(agg, reached) := add QuorumThreshold (dr_committee d) agg (author b) in
        if (reached : bool) then Ok true else scan_certificates d leader_block agg all_votes rest
      else scan_certificates d leader_block agg all_votes rest
  end.

Definition enough_leader_support d (decision_round : Round) (leader_block : VerifiedBlock) : outcome bool :=
  let! decision_blocks := dr_blocks_at_round d decision_round in
  let! stakes := map_each (λ b, committee_stake (dr_committee d) (author b)) decision_blocks in
  if negb (reached_quorum (dr_committee d) (u64_sum stakes)) then Ok false
  else scan_certificates d leader_block aggregator_new ∅ decision_blocks.

Definition try_direct_decide d (leader : Slot) : outcome LeaderStatus :=
  let! blamed := enough_leader_blame d (u32_add (slot_round leader) 1) (slot_authority leader) in
  if (blamed : bool) then Ok (LeaderSkip leader) else
  let dr := decision_round o (wave_number o (slot_round leader)) in
  let! supported := filter_each (enough_leader_support d dr) (dr_blocks_at_slot d leader) in
  if (1 <? length supported)%nat then Panic "More than one candidate" else
  Ok (from_option LeaderCommit (LeaderUndecided leader) (last supported)).

(** [potential_certificates.iter().any(...)], sharing the cache of one leader block. *)
Fixpoint any_certificate d (leader_block : VerifiedBlock) (all_votes : gmap BlockRef bool)
    (blocks : list VerifiedBlock) : outcome bool :=
  match blocks with
  | [] => Ok false
  | b :: rest =>
      let! '(all_votes, cert) := is_certificate d b leader_block all_votes in
      if (cert : bool) then Ok true else any_certificate d leader_block all_votes rest
  end.

Definition decide_leader_from_anchor d (anchor : VerifiedBlock) (leader_slot : Slot) : outcome LeaderStatus :=
  let leader_blocks := dr_blocks_at_slot d leader_slot in
  let dr := decision_round o (wave_number o (slot_round leader_slot)) in
  let! potential_certificates := dr_ancestors_at_round fuel d anchor dr in
  let! certified := filter_each (λ b, any_certificate d b ∅ potential_certificates) leader_blocks in
  if (1 <? length certified)%nat then Panic "More than one certified leader" else
  Ok (from_option LeaderCommit (LeaderSkip leader_slot) (last certified)).

Fixpoint scan_anchors d (leader_slot : Slot) (anchors : list LeaderStatus) : outcome LeaderStatus :=
  match anchors with
  | [] => Ok (LeaderUndecided leader_slot)
  | LeaderCommit anchor :: _ => decide_leader_from_anchor d anchor leader_slot
  | LeaderSkip _ :: rest => scan_anchors d leader_slot rest
  | LeaderUndecided _ :: _ => Ok (LeaderUndecided leader_slot)
  end.

Definition try_indirect_decide d (leader_slot : Slot) (leaders : list LeaderStatus) : outcome LeaderStatus :=
  scan_anchors d leader_slot
    (filter (λ x, u32_add (slot_round leader_slot) (wave_length o) <=? leader_status_round x) leaders).
End base_committer.

(** ** What the committers rely on *)

Class DagReaderLaws (D : Type) `{DagReader D} := {
  dr_ok : D → Prop;
  dr_view : D → gmap BlockRef VerifiedBlock;
  (* the rounds whose blocks can be read as a whole *)
  dr_open : D → Round → Prop;
  dr_committee_law d : dr_ok d → committee_ok (dr_committee d);
  dr_key_law d r b : dr_ok d → dr_view d !! r = Some b →
    reference b = r ∧ (ref_author r < committee_size (dr_committee d))%nat;
  dr_get_block_law d r : dr_ok d → dr_get_block d r = Ok (dr_view d !! r);
  (* blocks above the GC round are found by slot and by round *)
  dr_slot_law d slot b : dr_ok d → b ∈ dr_blocks_at_slot d slot →
    dr_view d !! reference b = Some b ∧ slot_from (reference b) = slot;
  dr_slot_complete d slot b : dr_ok d → dr_view d !! reference b = Some b →
    slot_from (reference b) = slot → dr_gc_round d < slot_round slot → b ∈ dr_blocks_at_slot d slot;
  dr_slot_nodup d slot : dr_ok d → NoDup (dr_blocks_at_slot d slot);
  dr_round_law d r bs b : dr_ok d → dr_blocks_at_round d r = Ok bs → b ∈ bs →
    dr_view d !! reference b = Some b ∧ round b = r;
  dr_round_open d r : dr_ok d → dr_open d r → ∃ bs, dr_blocks_at_round d r = Ok bs;
  dr_ancestors_law n d b lo : dr_ok d → history_from (dr_view d) lo b → (size (dr_view d) < n)%nat →
    ∃ bs, dr_ancestors_at_round n d b lo = Ok bs ∧
      ∀ x, x ∈ bs ↔ dr_view d !! reference x = Some x ∧ round x = lo ∧ causal (dr_view d) b (reference x);
}.

(** ** [DagState] keeps these promises *)

Section dag_state_laws.
Context {S : Type} `{Store S, !StoreLaws S}.
Implicit Types s : DagState S.

Lemma slot_range slot (r : BlockRef) :
  ref_digest r ≤ DIGEST_MAX →
  above (Included (mkBlockRef (slot_round slot) (slot_authority slot) DIGEST_MIN)) r = true ∧
  below (Included (mkBlockRef (slot_round slot) (slot_authority slot) DIGEST_MAX)) r = true ↔
  slot_from r = slot.
Proof.
  destruct slot as [sr sa], r as [rr ra rd]. unfold slot_from. cbn [ref_digest slot_round slot_authority ref_round ref_author].
  intros Hd. unfold DIGEST_MIN. cbn [above below].
  unfold ord_leb, cmp, BlockRef_ord, cmp, ord_prod, BlockRef_tuple, cmp, ord_prod, cmp, ord_nat, ord_N. cbn [fst snd ref_round ref_author ref_digest].
  rewrite (Nat.compare_antisym sa ra).
  destruct (N.compare_spec sr rr), (N.compare_spec rr sr), (Nat.compare_spec sa ra),
    (N.compare_spec 0 rd), (N.compare_spec rd DIGEST_MAX); cbn; split; intros; try lia;
    try (split; (done || lia)); try naive_solver lia; subst; done.
Qed.

Lemma elem_of_slot s slot b :
  cache_ok s → b ∈ get_uncommitted_blocks_at_slot s slot ↔
    bi_block <$> recent_blocks s !! reference b = Some b ∧ slot_from (reference b) = slot.
Proof.
  intros Hok. unfold get_uncommitted_blocks_at_slot. rewrite list_elem_of_fmap. split.
  - intros ([r i] & -> & (Hi & Hr)%elem_of_btree_range). cbn [snd].
    destruct (co_recent s Hok r i Hi) as (Href & _ & [_ Hd] & _).
    rewrite slot_range in Hr by done. rewrite Href, Hi. done.
  - intros [(i & Hi & ->)%fmap_Some Hslot]. exists (reference (bi_block i), i). split; [done|].
    apply elem_of_btree_range. split; [done|].
    destruct (co_recent s Hok _ i Hi) as (_ & _ & [_ Hd] & _). by apply slot_range.
Qed.

Lemma NoDup_fmap_fst {A B C} (f : B → C) (l : list (A * B)) :
  NoDup l.*1 → (∀ p q, p ∈ l → q ∈ l → f p.2 = f q.2 → p.1 = q.1) → NoDup ((λ p, f p.2) <$> l).
Proof.
  induction l as [|p l IH]; intros Hnd Hinj; csimpl; [constructor|]. csimpl in Hnd.
  apply NoDup_cons in Hnd as [Hp Hnd]. constructor.
  - intros (q & Hq & Hin)%list_elem_of_fmap. apply Hp.
    rewrite (Hinj p q); [|left|by right|done]. by apply list_elem_of_fmap_2.
  - apply IH; [done|]. intros; apply Hinj; [by right..|done].
Qed.

Lemma NoDup_cached_range s lo hi :
  cache_ok s → NoDup ((λ p, bi_block p.2) <$> btree_range lo hi (recent_blocks s)).
Proof.
  intros Hok. apply (NoDup_fmap_fst bi_block); [apply NoDup_btree_range|].
  intros [r i] [r' i'] (Hi & _)%elem_of_btree_range (Hi' & _)%elem_of_btree_range Heq. cbn in *.
  destruct (co_recent s Hok r i Hi) as (<- & _). destruct (co_recent s Hok r' i' Hi') as (<- & _).
  by rewrite Heq.
Qed.

(** A block of the view above the GC round is cached. *)
Lemma view_cached s r b :
  dag_ok s → view s !! r = Some b → gc_round s < ref_round r →
  bi_block <$> recent_blocks s !! r = Some b.
Proof.
  intros Hok [Hg|[?|Hst]]%lookup_view Hgc; [|done| |done].
  - destruct (dok_genesis s Hok r b Hg) as (_ & ? & _). lia.
  - destruct (dok_stored s Hok r b Hst) as [_ Ha]. rewrite <-(dok_evicted_len s Hok) in Ha.
    destruct (lookup_lt_is_Some_2 _ _ Ha) as [e He].
    destruct (dok_evicted s Hok _ e He) as (Hle & Hin & _).
    destruct (Hin r b Hst eq_refl) as [i Hi]; [lia|]. rewrite Hi. cbn.
    by rewrite (dok_agree s Hok r b i Hst Hi).
Qed.

#[export] Instance dag_state_reader_laws : DagReaderLaws (DagState S).
Proof.
  refine (@Build_DagReaderLaws (DagState S) _ dag_ok view
    (λ s r, last_commit_round s < r ∧ r < u32_max) _ _ _ _ _ _ _ _ _).
  - intros s Hok. apply Hok.
  - intros s r b Hok Hb. split; [by eapply view_reference|]. apply lookup_view in Hb as [Hg|[(i & Hi & _)%fmap_Some|Hst]]; [..|done].
    + by destruct (dok_genesis s Hok r b Hg) as (_ & _ & ?).
    + by destruct (dok_recent s Hok r i Hi) as (_ & _ & _ & ?).
    + by destruct (dok_stored s Hok r b Hst).
  - intros s r Hok. by apply get_block_refines.
  - intros s slot b Hok [Hb Hslot]%elem_of_slot; [|apply Hok]. split; [|done]. apply lookup_view; tauto.
  - intros s slot b Hok Hb <- Hgc. apply elem_of_slot; [apply Hok|]. split; [|done]. by apply view_cached.
  - intros s slot Hok. apply NoDup_cached_range, Hok.
  - intros s r bs b Hok. cbn. unfold get_uncommitted_blocks_at_round.
    destruct (r <=? last_commit_round s); [done|]. intros Hrun Hb. outcome_inv.
    apply list_elem_of_fmap in Hb as ([r' i] & -> & (Hi & Hlo & Hhi)%elem_of_btree_range). cbn [snd] in *.
    destruct (co_recent s (dok_cache s Hok) r' i Hi) as (Href & _). split.
    { rewrite Href. apply lookup_view; [done|]. rewrite Hi. tauto. }
    rewrite above_round in Hlo. cbn in Hhi. rewrite ord_ltb_leb in Hhi. apply negb_true_iff in Hhi.
    pose proof (above_round (u32_add r 1) r') as Habove. cbn in Habove. rewrite Hhi in Habove.
    assert (¬ u32_add r 1 ≤ ref_round r') as Hlt by (rewrite <-Habove; done).
    rewrite <-Href in Hlo, Hlt. cbn in Hlo, Hlt. apply ord_leb_ref_round in E. cbn in E.
    destruct (N.lt_ge_cases (r + 1) u32_modulus) as [Hs|Hs]; [rewrite u32_add_small in Hlt by done; lia|].
    unfold u32_add in *. pose proof (N.Div0.mod_le (r + 1) u32_modulus). lia.
  - intros s r Hok [Hlo Hhi]. cbn. unfold get_uncommitted_blocks_at_round.
    rewrite (proj2 (N.leb_gt _ _) Hlo), u32_add_small by (unfold u32_max in Hhi; lia).
    rewrite rassert_true by (apply ord_leb_round_lt; cbn; lia). by eexists.
  - intros n s b lo Hok Hh Hn. destruct (ancestors_at_round_view n s b lo Hok Hh Hn) as (bs & ? & _ & ?).
    by exists bs.
Defined.
End dag_state_laws.
