(* ===== verification/CommitSafety.v ===== *)
(** * Safety of the commit rule

    The functional behaviour of the voting and certification rules of
    [BaseCommitter], and the safety argument on top of it: with less than f+1
    equivocating stake, a leader slot has at most one certified block, a blamed slot
    has none, and validators with different DAGs never decide a slot differently. *)

From S2P Require Import Prelude Collections Weighted Committee Types Fixtures Commits StakeAggregator.
From S2P Require Import Storage DagState DagStateSpec DagTraversal DagRecovery BaseCommitter.

Local Open Scope N_scope.

(** ** Votes, read off the blocks *)

(** The first ancestor of [b] in the slot. *)
Definition first_at (slot : Slot) (b : VerifiedBlock) : option BlockRef :=
  head (filter (λ a, slot_from a = slot) (ancestors b)).

(** [r] is a block of the voting round of [l]'s slot that supports [l]. *)
Definition votes (v : gmap BlockRef VerifiedBlock) (l : BlockRef) (r : BlockRef) : bool :=
  match v !! r with
  | Some b => (round b =? ref_round l + 1) && bool_decide (first_at (slot_from l) b = Some l)
  | None => false
  end.

Definition voters (v : gmap BlockRef VerifiedBlock) (l : BlockRef) (b : VerifiedBlock) : gset AuthorityIndex :=
  list_to_set (ref_author <$> filter (λ r, votes v l r) (ancestors b)).

(** [b] is a certificate for [l]: a quorum of its ancestors votes for [l]. *)
Definition certifies (c : Committee) (v : gmap BlockRef VerifiedBlock) (l : BlockRef) (b : VerifiedBlock) : bool :=
  quorum_threshold c <=? set_stake c (voters v l b).

(** ** The rules compute them *)

Section rules.
Context {D : Type} `{DagReader D, !DagReaderLaws D}.
Context (d : D).
Hypothesis Hok : dr_ok d.

(** The part of the DAG above the GC round is causally complete. *)
Definition complete_above (d : D) (lo : Round) : Prop :=
  ∀ r b p, dr_view d !! r = Some b → p ∈ ancestors b →
    ref_round p < ref_round r ∧ (ref_author p < committee_size (dr_committee d))%nat ∧
    (lo < ref_round p → is_Some (dr_view d !! p)).

Lemma scan_support_low rec slot ancs :
  (∀ a, a ∈ ancs → ref_round a ≤ slot_round slot) →
  scan_support d rec slot ancs = Ok (head (filter (λ a, slot_from a = slot) ancs)).
Proof.
  clear Hok. induction ancs as [|a ancs IH]; intros Hle; [done|]. cbn [scan_support]. rewrite filter_cons.
  case_decide; [done|]. rewrite (proj2 (N.leb_le _ _)) by (apply Hle; left).
  apply IH. intros; apply Hle; by right.
Qed.

(** On blocks up to the voting round, the search is the first ancestor in the slot. *)
Lemma find_supported_block_spec slot b :
  (∀ p, p ∈ ancestors b → ref_round p < round b) → round b ≤ slot_round slot + 1 →
  find_supported_block d slot b =
    Ok (if round b =? slot_round slot + 1 then first_at slot b else None).
Proof.
  clear Hok. intros Hlinks Hle. unfold find_supported_block. cbn [find_supported Nat.add].
  destruct (N.ltb_spec (round b) (slot_round slot)) as [Hlt|Hge].
  { by rewrite (proj2 (N.eqb_neq _ _)) by lia. }
  rewrite scan_support_low by (intros a Ha; specialize (Hlinks a Ha); lia).
  destruct (N.eqb_spec (round b) (slot_round slot + 1)); [done|]. f_equal.
  unfold first_at in *. apply head_None. destruct (filter _ _) as [|a rest] eqn:Hf; [done|].
  assert (a ∈ a :: rest) as Ha by left. rewrite <-Hf in Ha. apply list_elem_of_filter in Ha as [<- Ha].
  specialize (Hlinks a Ha). unfold slot_from in *. cbn in *. lia.
Qed.

Context (l : VerifiedBlock).
Hypothesis Hcomplete : complete_above d (dr_gc_round d).

(** The entries of the cache of votes for [l]. *)
Definition vote_cache_ok (cache : gmap BlockRef bool) : Prop :=
  ∀ r x, cache !! r = Some x → x = votes (dr_view d) (reference l) r.

Lemma cached_vote_spec cache r :
  vote_cache_ok cache → ref_round r ≤ round l + 1 →
  (dr_view d !! r = None → ref_round r ≤ dr_gc_round d) →
  ∃ cache', cached_vote d l cache r = Ok (cache', votes (dr_view d) (reference l) r) ∧ vote_cache_ok cache'.
Proof using Hok Hcomplete.
  intros Hcache Hr Hgc. unfold cached_vote. destruct (cache !! r) as [x|] eqn:Hx.
  { exists cache. by rewrite (Hcache r x Hx). }
  rewrite dr_get_block_law by done. cbn [obind].
  assert (∀ cache' x, cache' = <[r := x]> cache → x = votes (dr_view d) (reference l) r → vote_cache_ok cache') as Hins.
  { intros cache' x -> ->. intros r' x' [[<- <-]|[_ ?]]%lookup_insert_Some; [done|by apply Hcache]. }
  destruct (dr_view d !! r) as [b|] eqn:Hb.
  - destruct (dr_key_law d r b Hok Hb) as [Href _].
    assert (is_vote d b l = Ok (votes (dr_view d) (reference l) r)) as Hv.
    { unfold is_vote. rewrite find_supported_block_spec.
      - cbn [obind]. unfold votes. rewrite Hb. f_equal. cbn [slot_round slot_from ref_round reference].
        destruct (round b =? round l + 1); [done|]. by apply bool_decide_eq_false_2.
      - intros p Hp. destruct (Hcomplete r b p Hb Hp) as [? _]. by rewrite <-Href in *.
      - rewrite <-Href in Hr. done. }
    rewrite Hv. cbn [obind]. eexists; split; [done|]. by eapply Hins.
  - rewrite rassert_true by (apply N.leb_le; auto). cbn [obind].
    assert (votes (dr_view d) (reference l) r = false) as Hv by (unfold votes; by rewrite Hb).
    rewrite Hv. eexists; split; [done|]. by eapply Hins.
Qed.

(** Consecutive votes are accumulated until they reach a quorum. *)
Lemma scan_votes_spec refs : ∀ agg cache,
  agg_ok (dr_committee d) agg → set_stake (dr_committee d) (agg_votes agg) < quorum_threshold (dr_committee d) →
  vote_cache_ok cache →
  (∀ r, r ∈ refs → ref_round r ≤ round l + 1 ∧ (ref_author r < committee_size (dr_committee d))%nat ∧
     (dr_view d !! r = None → ref_round r ≤ dr_gc_round d)) →
  ∃ cache', scan_votes d l agg cache refs = Ok (cache', quorum_threshold (dr_committee d) <=?
      set_stake (dr_committee d)
        (list_to_set (ref_author <$> filter (λ r, votes (dr_view d) (reference l) r) refs) ∪ agg_votes agg)) ∧
    vote_cache_ok cache'.
Proof using Hok Hcomplete.
  pose proof (dr_committee_law d Hok) as Hc.
  induction refs as [|r refs IH]; intros agg cache Hagg Hlt Hcache Hrefs; cbn [scan_votes].
  { exists cache. rewrite filter_nil. cbn. rewrite union_empty_l_L.
    by rewrite (proj2 (N.leb_gt _ _) Hlt). }
  destruct (Hrefs r ltac:(left)) as (Hr & Ha & Hgc).
  assert (Hrest : ∀ r, r ∈ refs → _) by (intros r' Hr'; apply (Hrefs r'); by right).
  destruct (cached_vote_spec cache r Hcache Hr Hgc) as (cache1 & -> & Hcache1). cbn [obind].
  rewrite filter_cons. destruct (votes (dr_view d) (reference l) r).
  2: { rewrite decide_False by (intros []). by apply IH. }
  rewrite decide_True by done. cbn [fmap list_fmap list_to_set].
  destruct (add_spec QuorumThreshold (dr_committee d) agg (ref_author r) Hc Hagg Ha) as (agg1 & -> & Hok1 & Hv1).
  cbn [obind]. cbn [threshold quorum_threshold_impl].
  destruct (N.leb_spec (quorum_threshold (dr_committee d))
    (set_stake (dr_committee d) ({[ref_author r]} ∪ agg_votes agg))) as [Hge|Hlt1].
  - exists cache1. split; [|done]. do 2 f_equal. symmetry. apply N.leb_le. etrans; [exact Hge|].
    apply set_stake_mono. set_solver.
  - destruct (IH agg1 cache1 Hok1) as (cache2 & -> & Hcache2); [by rewrite Hv1|done|done|].
    exists cache2. split; [|done]. rewrite Hv1. do 4 f_equal. set_solver.
Qed.

(** A block of the DAG at the decision round is tested for certifying [l]. *)
Lemma is_certificate_spec b cache :
  dr_view d !! reference b = Some b → round b ≤ round l + 2 → vote_cache_ok cache →
  ∃ cache', is_certificate d b l cache =
      Ok (cache', certifies (dr_committee d) (dr_view d) (reference l) b) ∧ vote_cache_ok cache'.
Proof using Hok Hcomplete.
  intros Hb Hr Hcache. unfold is_certificate, certifies, voters.
  destruct (scan_votes_spec (ancestors b) aggregator_new cache) as (cache' & -> & Hc').
  - apply agg_ok_new.
  - cbn. rewrite set_stake_empty. by apply quorum_pos, dr_committee_law.
  - done.
  - intros p Hp. destruct (Hcomplete _ b p Hb Hp) as (Hlt & Ha & Hin). cbn in Hlt.
    split; [lia|]. split; [done|]. intros Hnone.
    destruct (N.le_gt_cases (ref_round p) (dr_gc_round d)) as [?|Hgt]; [done|].
    destruct (Hin Hgt). congruence.
  - exists cache'. cbn [agg_votes aggregator_new]. by rewrite union_empty_r_L.
Qed.

Lemma scan_certificates_spec blocks : ∀ agg cache,
  agg_ok (dr_committee d) agg → set_stake (dr_committee d) (agg_votes agg) < quorum_threshold (dr_committee d) →
  vote_cache_ok cache →
  (∀ b, b ∈ blocks → dr_view d !! reference b = Some b ∧ round b ≤ round l + 2) →
  scan_certificates d l agg cache blocks = Ok (quorum_threshold (dr_committee d) <=?
      set_stake (dr_committee d)
        (list_to_set (author <$> filter (λ b, certifies (dr_committee d) (dr_view d) (reference l) b) blocks)
         ∪ agg_votes agg)).
Proof using Hok Hcomplete.
  pose proof (dr_committee_law d Hok) as Hc.
  induction blocks as [|b blocks IH]; intros agg cache Hagg Hlt Hcache Hbs; cbn [scan_certificates].
  { rewrite filter_nil. cbn. rewrite union_empty_l_L. by rewrite (proj2 (N.leb_gt _ _) Hlt). }
  destruct (Hbs b ltac:(left)) as (Hb & Hr).
  assert (Hrest : ∀ b, b ∈ blocks → _) by (intros b' Hb'; apply (Hbs b'); by right).
  destruct (is_certificate_spec b cache Hb Hr Hcache) as (cache1 & -> & Hcache1). cbn [obind].
  rewrite filter_cons. destruct (certifies (dr_committee d) (dr_view d) (reference l) b).
  2: { rewrite decide_False by (intros []). by eapply IH. }
  rewrite decide_True by done. cbn [fmap list_fmap list_to_set].
  destruct (dr_key_law d _ b Hok Hb) as [_ Ha]. cbn in Ha.
  destruct (add_spec QuorumThreshold (dr_committee d) agg (author b) Hc Hagg Ha) as (agg1 & -> & Hok1 & Hv1).
  cbn [obind]. cbn [threshold quorum_threshold_impl].
  destruct (N.leb_spec (quorum_threshold (dr_committee d))
    (set_stake (dr_committee d) ({[author b]} ∪ agg_votes agg))) as [Hge|Hlt1].
  - f_equal. symmetry. apply N.leb_le. etrans; [exact Hge|]. apply set_stake_mono. set_solver.
  - rewrite (IH agg1 cache1 Hok1); [|by rewrite Hv1|done|done]. rewrite Hv1. do 3 f_equal. set_solver.
Qed.

Lemma any_certificate_spec blocks : ∀ cache,
  vote_cache_ok cache →
  (∀ b, b ∈ blocks → dr_view d !! reference b = Some b ∧ round b ≤ round l + 2) →
  any_certificate d l cache blocks =
    Ok (existsb (certifies (dr_committee d) (dr_view d) (reference l)) blocks).
Proof using Hok Hcomplete.
  induction blocks as [|b blocks IH]; intros cache Hcache Hbs; [done|]. cbn [any_certificate existsb].
  destruct (Hbs b ltac:(left)) as (Hb & Hr).
  destruct (is_certificate_spec b cache Hb Hr Hcache) as (cache1 & -> & Hcache1). cbn [obind].
  destruct (certifies (dr_committee d) (dr_view d) (reference l) b); [done|]. cbn [orb].
  apply IH; [done|]. intros b' Hb'. apply Hbs. by right.
Qed.

Lemma vote_cache_empty : vote_cache_ok ∅.
Proof using Type. clear Hok Hcomplete. intros r x. by rewrite lookup_empty. Qed.

(** The certificates of a round are counted. *)
Lemma scan_certificates_round bs :
  dr_blocks_at_round d (round l + 2) = Ok bs →
  scan_certificates d l aggregator_new ∅ bs = Ok (quorum_threshold (dr_committee d) <=?
    set_stake (dr_committee d)
      (list_to_set (author <$> filter (λ b, certifies (dr_committee d) (dr_view d) (reference l) b) bs))).
Proof using Hok Hcomplete.
  intros Hbs. rewrite (scan_certificates_spec bs aggregator_new ∅).
  - cbn [agg_votes aggregator_new]. by rewrite union_empty_r_L.
  - apply agg_ok_new.
  - cbn. rewrite set_stake_empty. by apply quorum_pos, dr_committee_law.
  - apply vote_cache_empty.
  - intros b Hb. destruct (dr_round_law d _ bs b Hok Hbs Hb) as [? ->]. split; [done|lia].
Qed.

(** The quick rejection on total stake never rejects a supported leader: it only
    looks at a superset of the certificates. *)
Lemma enough_leader_support_true :
  enough_leader_support d (round l + 2) l = Ok true →
  ∃ bs, dr_blocks_at_round d (round l + 2) = Ok bs ∧
    quorum_threshold (dr_committee d) ≤ set_stake (dr_committee d)
      (list_to_set (author <$> filter (λ b, certifies (dr_committee d) (dr_view d) (reference l) b) bs)).
Proof using Hok Hcomplete.
  unfold enough_leader_support. rewrite bind_Ok. intros (bs & Hbs & Hrun). exists bs. split; [done|].
  apply bind_Ok in Hrun as (stakes & _ & Hrun). destruct (negb _); [done|].
  rewrite (scan_certificates_round bs Hbs) in Hrun. injection Hrun as Hrun. by apply N.leb_le in Hrun.
Qed.

Lemma enough_leader_support_total :
  dr_open d (round l + 2) → ∃ res, enough_leader_support d (round l + 2) l = Ok res.
Proof using Hok Hcomplete.
  intros Hopen. destruct (dr_round_open d _ Hok Hopen) as [bs Hbs].
  unfold enough_leader_support. rewrite Hbs. cbn [obind].
  rewrite (map_each_pure _ (λ b, stake_of (dr_committee d) (author b))).
  2: { intros b Hb. destruct (dr_round_law d _ bs b Hok Hbs Hb) as [Hv _].
       apply committee_stake_valid, (dr_key_law d _ b Hok Hv). }
  cbn [obind]. destruct (negb _); [by eexists|]. rewrite (scan_certificates_round bs Hbs). by eexists.
Qed.
End rules.

(** The blames of a round are counted. *)
Lemma enough_leader_blame_round {D} `{DagReader D, !DagReaderLaws D} (d : D) vr a bs :
  dr_ok d → dr_blocks_at_round d vr = Ok bs →
  enough_leader_blame d vr a = Ok (quorum_threshold (dr_committee d) <=?
    set_stake (dr_committee d) (list_to_set (author <$> filter (λ b, is_blame a b) bs))).
Proof.
  intros Hok Hbs. unfold enough_leader_blame. rewrite Hbs. cbn [obind].
  rewrite (add_until_spec QuorumThreshold); [done|..].
  - by apply dr_committee_law.
  - by apply quorum_pos, dr_committee_law.
  - intros x (b & -> & [_ Hb]%list_elem_of_filter)%list_elem_of_fmap.
    destruct (dr_round_law d vr bs b Hok Hbs Hb) as [Hv _]. by destruct (dr_key_law d _ b Hok Hv).
Qed.

Lemma enough_leader_blame_true {D} `{DagReader D, !DagReaderLaws D} (d : D) vr a :
  dr_ok d → enough_leader_blame d vr a = Ok true →
  ∃ bs, dr_blocks_at_round d vr = Ok bs ∧
    quorum_threshold (dr_committee d) ≤ set_stake (dr_committee d)
      (list_to_set (author <$> filter (λ b, is_blame a b) bs)).
Proof.
  intros Hok Hrun. destruct (dr_blocks_at_round d vr) as [bs| |] eqn:Hbs.
  2,3: unfold enough_leader_blame in Hrun; by rewrite Hbs in Hrun.
  exists bs. split; [done|]. rewrite (enough_leader_blame_round d vr a bs Hok Hbs) in Hrun.
  injection Hrun as Hrun. by apply N.leb_le in Hrun.
Qed.

(** ** The world of blocks

    [G] holds every block any validator may accept.  The digest of a block
    identifies it; authorities outside [faulty] produce one block per round; every
    block links only existing blocks of lower rounds, among them a quorum of the
    previous round, as the block verifier checks.  Less than f+1 stake is faulty. *)
Record world (c : Committee) (faulty : gset AuthorityIndex) (G : gmap BlockRef VerifiedBlock) : Prop := {
  w_committee : committee_ok c;
  w_faulty : set_stake c faulty < validity_threshold c;
  w_key r b : G !! r = Some b → reference b = r;
  w_honest r r' : is_Some (G !! r) → is_Some (G !! r') → ref_author r ∉ faulty →
    ref_author r = ref_author r' → ref_round r = ref_round r' → r = r';
  w_links r b p : G !! r = Some b → p ∈ ancestors b → ref_round p < ref_round r ∧ is_Some (G !! p);
  w_parents r b : G !! r = Some b → 0 < ref_round r →
    quorum_threshold c ≤ set_stake c
      (list_to_set (ref_author <$> filter (λ p, ref_round p + 1 = ref_round r) (ancestors b)));
}.

(** A validator's DAG: a part of the world, causally complete above its GC round. *)
Record sees {D : Type} `{DagReader D, !DagReaderLaws D} (c : Committee)
    (G : gmap BlockRef VerifiedBlock) (d : D) : Prop := {
  s_ok : dr_ok d;
  s_committee : dr_committee d = c;
  s_sub : dr_view d ⊆ G;
  s_complete : complete_above d (dr_gc_round d);
}.

Section safety.
Context (c : Committee) (faulty : gset AuthorityIndex) (G : gmap BlockRef VerifiedBlock).
Hypothesis HG : world c faulty G.
Implicit Types l r : BlockRef.

Lemma honest_overlap (s1 s2 : gset AuthorityIndex) :
  quorum_threshold c ≤ set_stake c s1 → quorum_threshold c ≤ set_stake c s2 →
  ∃ h, h ∈ s1 ∧ h ∈ s2 ∧ ¬ (h ∈ faulty).
Proof using HG.
  intros H1 H2. apply (quorums_share_honest c); [apply (w_committee _ _ _ HG)|done|done|apply (w_faulty _ _ _ HG)].
Qed.

Lemma elem_of_voters v l b a :
  a ∈ voters v l b ↔ ∃ p, p ∈ ancestors b ∧ ref_author p = a ∧ votes v l p = true.
Proof using Type.
  clear HG. unfold voters. rewrite elem_of_list_to_set, list_elem_of_fmap.
  setoid_rewrite list_elem_of_filter. setoid_rewrite Is_true_true. naive_solver.
Qed.

Lemma votes_inv l p :
  votes G l p = true → ∃ b, G !! p = Some b ∧ ref_round p = ref_round l + 1 ∧
    first_at (slot_from l) b = Some l.
Proof using HG.
  unfold votes. destruct (G !! p) as [b|] eqn:Hb; [|done].
  rewrite andb_true_iff, N.eqb_eq, bool_decide_eq_true. intros [Hr Hf]. exists b.
  split; [done|]. rewrite <-(w_key _ _ _ HG p b Hb). done.
Qed.

Lemma first_at_ancestor slot b l : first_at slot b = Some l → l ∈ ancestors b ∧ slot_from l = slot.
Proof using Type.
  clear HG. unfold first_at. intros Hh. destruct (filter _ _) as [|x rest] eqn:Hf; [done|].
  injection Hh as ->. assert (l ∈ l :: rest) as Hl by left. rewrite <-Hf in Hl.
  by apply list_elem_of_filter in Hl as [? ?].
Qed.

(** At most one block of a slot is certified, whatever the certificates. *)
Lemma certified_unique l l' b b' :
  slot_from l = slot_from l' → certifies c G l b = true → certifies c G l' b' = true → l = l'.
Proof using HG.
  unfold certifies. intros Hslot Hq%N.leb_le Hq'%N.leb_le.
  destruct (honest_overlap _ _ Hq Hq') as (h & Hh & Hh' & Hhon).
  apply elem_of_voters in Hh as (p & _ & Hpa & (v & Hv & Hr & Hf)%votes_inv).
  apply elem_of_voters in Hh' as (p' & _ & Hpa' & (v' & Hv' & Hr' & Hf')%votes_inv).
  assert (ref_round l = ref_round l') as Hrl by (by injection Hslot).
  assert (p = p') as ->.
  { apply (w_honest _ _ _ HG); [by eexists|by eexists|by rewrite Hpa|congruence|lia]. }
  assert (v = v') as -> by congruence. rewrite Hslot in Hf. congruence.
Qed.

(** A slot blamed by a quorum of the voting round is certified by no block. *)
Lemma blamed_not_certified l b (bs : list VerifiedBlock) :
  (∀ x, x ∈ bs → G !! reference x = Some x ∧ round x = ref_round l + 1) →
  quorum_threshold c ≤ set_stake c
    (list_to_set (author <$> filter (λ x, is_blame (ref_author l) x) bs)) →
  certifies c G l b = false.
Proof using HG.
  intros Hbs Hblame. apply not_true_iff_false. unfold certifies. intros Hq%N.leb_le.
  destruct (honest_overlap _ _ Hblame Hq) as (h & Hh & Hh' & Hhon).
  apply elem_of_list_to_set, list_elem_of_fmap in Hh as (x & -> & [Hbl Hx]%list_elem_of_filter).
  destruct (Hbs x Hx) as [HxG Hxr].
  apply elem_of_voters in Hh' as (p & _ & Hpa & (v & Hv & Hr & Hf)%votes_inv).
  assert (p = reference x) as ->.
  { apply (w_honest _ _ _ HG); [by eexists|by eexists|by rewrite Hpa|done|cbn; lia]. }
  assert (v = x) as -> by congruence. apply first_at_ancestor in Hf as [Hin _].
  apply Is_true_true in Hbl. unfold is_blame in Hbl. rewrite forallb_forall in Hbl.
  specialize (Hbl l (proj1 (list_elem_of_In _ _) Hin)). by rewrite Nat.eqb_refl in Hbl.
Qed.

(** A quorum of certificates reaches every later block: its history at the decision
    round contains one of them. *)
Lemma certificate_reached l (bs : list VerifiedBlock) :
  (∀ x, x ∈ bs → G !! reference x = Some x ∧ round x = ref_round l + 2) →
  quorum_threshold c ≤ set_stake c (list_to_set (author <$> filter (λ x, certifies c G l x) bs)) →
  ∀ n r b, G !! r = Some b → ref_round r = ref_round l + 3 + N.of_nat n →
    ∃ x, G !! reference x = Some x ∧ round x = ref_round l + 2 ∧ certifies c G l x = true ∧
      causal G b (reference x).
Proof using HG.
  intros Hbs Hcert n. induction n as [|n IH]; intros r b Hb Hr.
  - pose proof (w_parents _ _ _ HG r b Hb ltac:(lia)) as Hpar.
    destruct (honest_overlap _ _ Hcert Hpar) as (h & Hh & Hh' & Hhon).
    apply elem_of_list_to_set, list_elem_of_fmap in Hh as (x & -> & [Hx%Is_true_true Hxin]%list_elem_of_filter).
    apply elem_of_list_to_set, list_elem_of_fmap in Hh' as (p & Hpa & [Hpr Hp]%list_elem_of_filter).
    destruct (Hbs x Hxin) as [HxG Hxr]. destruct (w_links _ _ _ HG r b p Hb Hp) as [_ HpG].
    assert (p = reference x) as ->.
    { apply (w_honest _ _ _ HG); [done|by eexists|by rewrite <-Hpa|by rewrite <-Hpa|cbn; lia]. }
    exists x. split; [done|]. split; [done|]. split; [done|]. by apply causal_direct.
  - pose proof (w_parents _ _ _ HG r b Hb ltac:(lia)) as Hpar.
    pose proof (quorum_pos c (w_committee _ _ _ HG)) as Hpos.
    destruct (filter (λ p, ref_round p + 1 = ref_round r) (ancestors b)) as [|p rest] eqn:Hf.
    { cbn in Hpar. rewrite set_stake_empty in Hpar. lia. }
    assert (p ∈ p :: rest) as Hp by left. rewrite <-Hf in Hp. apply list_elem_of_filter in Hp as [Hpr Hp].
    destruct (w_links _ _ _ HG r b p Hb Hp) as [_ [q Hq]].
    destruct (IH p q Hq ltac:(lia)) as (x & HxG & Hxr & Hxc & Hcausal).
    exists x. split; [done|]. split; [done|]. split; [done|].
    clear -Hcausal Hq Hp. induction Hcausal as [y Hy|y z w _ IH Hz Hw].
    + eapply causal_step; [by apply causal_direct|done|done].
    + by eapply causal_step.
Qed.

(** What a validator computes from its part of the world is what the world says, as
    long as the leader is above its GC round. *)
Section seen.
Context {D : Type} `{DagReader D, !DagReaderLaws D} (d : D).
Hypothesis Hd : sees c G d.

Lemma votes_seen l r b p :
  dr_gc_round d ≤ ref_round l → dr_view d !! r = Some b → p ∈ ancestors b →
  votes (dr_view d) l p = votes G l p.
Proof using HG Hd.
  intros Hgc Hb Hp. unfold votes. destruct (dr_view d !! p) as [x|] eqn:Hx.
  - by rewrite (lookup_weaken _ _ _ _ Hx (s_sub _ _ _ Hd)).
  - destruct (G !! p) as [x|] eqn:HxG; [|done].
    destruct (s_complete _ _ _ Hd r b p Hb Hp) as (_ & _ & Hin).
    rewrite (proj2 (N.eqb_neq _ _)); [done|]. intros Hr.
    pose proof (w_key _ _ _ HG p x HxG) as Href. rewrite <-Href in Hin. cbn in Hin.
    rewrite Hr, Href, Hx in Hin. destruct Hin as [? ?]; [lia|done].
Qed.

Lemma certifies_seen l b :
  dr_gc_round d ≤ ref_round l → dr_view d !! reference b = Some b →
  certifies (dr_committee d) (dr_view d) l b = certifies c G l b.
Proof using HG Hd.
  intros Hgc Hb. unfold certifies, voters. rewrite (s_committee _ _ _ Hd). do 4 f_equal.
  apply filter_ext_in. intros p Hp. by rewrite (votes_seen l _ b p Hgc Hb Hp).
Qed.

(** The causal history of a block within the validator's DAG. *)
Lemma causal_seen lo b x :
  dr_gc_round d ≤ lo → dr_view d !! reference b = Some b → causal G b (reference x) →
  lo < round x → G !! reference x = Some x →
  causal (dr_view d) b (reference x) ∧ dr_view d !! reference x = Some x.
Proof using HG Hd.
  intros Hgc Hb Hcausal Hlo HxG.
  assert (∀ r, causal G b r → lo < ref_round r → causal (dr_view d) b r ∧ is_Some (dr_view d !! r)) as Hgen.
  { clear Hcausal HxG Hlo x. intros r. induction 1 as [p Hp|q y p _ IH Hq Hp]; intros Hlo.
    - split; [by apply causal_direct|]. apply (s_complete _ _ _ Hd _ b p Hb Hp). lia.
    - destruct (w_links _ _ _ HG q y p Hq Hp) as [Hlt _].
      destruct IH as [Hc [y' Hy']]; [lia|].
      assert (y' = y) as -> by (pose proof (lookup_weaken _ _ _ _ Hy' (s_sub _ _ _ Hd)); congruence).
      split; [by eapply causal_step|]. apply (s_complete _ _ _ Hd q y p Hy' Hp). lia. }
  destruct (Hgen _ Hcausal) as [Hc [x' Hx']]; [done|]. split; [done|].
  pose proof (lookup_weaken _ _ _ _ Hx' (s_sub _ _ _ Hd)). congruence.
Qed.
End seen.
End safety.

(** ** Decisions *)

(** The slot is a leader slot of the committer, with waves of the default length. *)
Record wave_ok (o : BaseCommitterOptions) (r : Round) : Prop := {
  wk_length : wave_length o = DEFAULT_WAVE_LENGTH;
  wk_offset : round_offset o ≤ r;
  wk_leader : leader_round o (wave_number o r) = r;
  wk_bound : r + 3 < u32_modulus;
}.

(** The leader's decision round is two rounds above it. *)
Lemma decision_round_eq o r : wave_ok o r → decision_round o (wave_number o r) = r + 2.
Proof.
  intros [Hl Ho Hr Hb]. unfold leader_round, decision_round, wave_number, saturating_sub in *.
  rewrite Hl in *. unfold DEFAULT_WAVE_LENGTH in *.
  pose proof (N.Div0.mul_div_le (r - round_offset o) 3) as Hle.
  set (w := (r - round_offset o) `div` 3) in *. clearbody w.
  revert Hr. machine. lia.
Qed.

Section decisions.
Context (c : Committee) (faulty : gset AuthorityIndex) (G : gmap BlockRef VerifiedBlock).
Context (o : BaseCommitterOptions) (slot : Slot).
Hypothesis HG : world c faulty G.
Hypothesis Hwave : wave_ok o (slot_round slot).

(** What the history of the anchor [x] says about the slot. *)
Definition anchor_outcome (x : VerifiedBlock) (st : LeaderStatus) : Prop :=
  match st with
  | LeaderCommit b =>
      G !! reference b = Some b ∧ slot_from (reference b) = slot ∧
      ∃ y, G !! reference y = Some y ∧ round y = slot_round slot + 2 ∧ causal G x (reference y) ∧
        certifies c G (reference b) y = true
  | LeaderSkip s =>
      s = slot ∧ ∀ l y, slot_from l = slot → G !! reference y = Some y → round y = slot_round slot + 2 →
        causal G x (reference y) → certifies c G l y = false
  | LeaderUndecided _ => False
  end.

Lemma anchor_outcome_unique x st st' : anchor_outcome x st → anchor_outcome x st' → st = st'.
Proof using HG.
  clear Hwave. destruct st as [b|s|s], st' as [b'|s'|s']; cbn; try done.
  - intros (Hb & Hs & y & _ & _ & _ & Hy) (Hb' & Hs' & y' & _ & _ & _ & Hy').
    assert (reference b = reference b') as Heq.
    { eapply (certified_unique c faulty G HG); [congruence|exact Hy|exact Hy']. }
    rewrite Heq in Hb. congruence.
  - intros (_ & Hs & y & HyG & Hyr & Hcy & Hy) (_ & Hno). rewrite (Hno _ y) in Hy; done.
  - intros (_ & Hno) (_ & Hs & y & HyG & Hyr & Hcy & Hy). rewrite (Hno _ y) in Hy; done.
  - intros [-> _] [-> _]. done.
Qed.

(** At most one block of the slot is certified. *)
Lemma certified_at_most_one bs :
  NoDup bs →
  (∀ b, b ∈ bs → G !! reference b = Some b ∧ slot_from (reference b) = slot ∧
     ∃ y, certifies c G (reference b) y = true) →
  bs = [] ∨ ∃ b, bs = [b].
Proof using HG.
  clear Hwave. intros Hnd Hbs. destruct bs as [|b [|b' rest]]; [by left|right; by exists b|exfalso].
  destruct (Hbs b ltac:(left)) as (Hb & Hs & y & Hy).
  destruct (Hbs b' ltac:(right; left)) as (Hb' & Hs' & y' & Hy').
  assert (reference b = reference b') as Heq.
  { eapply (certified_unique c faulty G HG); [congruence|exact Hy|exact Hy']. }
  rewrite Heq in Hb. assert (b = b') as -> by congruence.
  apply NoDup_cons in Hnd as [Hn _]. apply Hn. left.
Qed.

(** A quorum of certificates is not empty. *)
Lemma quorum_certificate l bs :
  quorum_threshold c ≤ set_stake c (list_to_set (author <$> filter (λ x, certifies c G l x) bs)) →
  ∃ y, y ∈ bs ∧ certifies c G l y = true.
Proof using HG.
  clear Hwave. intros Hq. destruct (filter _ bs) as [|y rest] eqn:Hf.
  - cbn in Hq. rewrite set_stake_empty in Hq. pose proof (quorum_pos c (w_committee _ _ _ HG)). lia.
  - exists y. assert (y ∈ y :: rest) as Hy by left. rewrite <-Hf in Hy.
    apply list_elem_of_filter in Hy as [Hy ?]. split; [done|]. by apply Is_true_true.
Qed.

Section one_validator.
Context {D : Type} `{DagReader D, !DagReaderLaws D} (d : D).
Hypothesis Hd : sees c G d.
Hypothesis Hgc : dr_gc_round d < slot_round slot.

(** A block certified by a block of the DAG is in the DAG. *)
Lemma certified_present l y :
  slot_from l = slot → dr_view d !! reference y = Some y → round y = slot_round slot + 2 →
  certifies c G l y = true → ∃ b, reference b = l ∧ dr_view d !! l = Some b.
Proof using HG Hd Hgc.
  clear Hwave. intros Hs Hy Hyr Hq%N.leb_le. pose proof (quorum_pos c (w_committee _ _ _ HG)).
  destruct (decide (voters G l y = ∅)) as [He|Hne].
  { rewrite He, set_stake_empty in Hq. lia. }
  apply set_choose_L in Hne as [a (p & Hp & _ & Hv)%elem_of_voters].
  apply (votes_inv c faulty G HG) in Hv as (v & Hv & Hr & Hf). apply first_at_ancestor in Hf as [Hl _].
  assert (ref_round l = slot_round slot) as Hrl by (by rewrite <-Hs).
  destruct (s_complete _ _ _ Hd _ y p Hy Hp) as (_ & _ & [v' Hv']); [lia|].
  assert (v' = v) as -> by (pose proof (lookup_weaken _ _ _ _ Hv' (s_sub _ _ _ Hd)); congruence).
  destruct (s_complete _ _ _ Hd p v l Hv' Hl) as (_ & _ & [b Hb]); [lia|].
  exists b. split; [|done]. by destruct (dr_key_law d l b (s_ok _ _ _ Hd) Hb).
Qed.

Lemma leader_history lo x :
  dr_gc_round d < lo → dr_view d !! reference x = Some x → history_from (dr_view d) lo x.
Proof using HG Hd.
  clear Hwave Hgc. intros Hlo Hx. split.
  - intros p Hp Hle. apply (s_complete _ _ _ Hd _ x p Hx Hp). lia.
  - intros r b p Hb Hp. destruct (s_complete _ _ _ Hd r b p Hb Hp) as (? & _ & Hin).
    split; [done|]. intros ?. apply Hin. lia.
Qed.

Lemma decide_from_anchor_spec fuel x :
  dr_view d !! reference x = Some x → (size (dr_view d) < fuel)%nat →
  ∃ st, decide_leader_from_anchor fuel o d x slot = Ok st ∧ anchor_outcome x st.
Proof using HG Hd Hgc Hwave.
  intros Hx Hfuel. unfold decide_leader_from_anchor. rewrite decision_round_eq by done.
  destruct (dr_ancestors_law fuel d x (slot_round slot + 2) (s_ok _ _ _ Hd)) as (pcs & -> & Hpcs);
    [apply leader_history; [lia|done]|done|]. cbn [obind].
  set (cert b := existsb (certifies c G (reference b)) pcs).
  assert (Hslot : ∀ b, b ∈ dr_blocks_at_slot d slot → dr_view d !! reference b = Some b ∧ slot_from (reference b) = slot).
  { intros b Hb. apply (dr_slot_law d slot b (s_ok _ _ _ Hd) Hb). }
  rewrite (filter_each_pure _ cert).
  2: { intros b Hb. destruct (Hslot b Hb) as [_ Hs].
       assert (round b = slot_round slot) as Hrb by (by rewrite <-Hs).
       rewrite (any_certificate_spec d (s_ok _ _ _ Hd) b (s_complete _ _ _ Hd)); [|apply vote_cache_empty|].
       - unfold cert. f_equal.
         assert (∀ y, In y pcs → certifies (dr_committee d) (dr_view d) (reference b) y = certifies c G (reference b) y) as Heq.
         { intros y Hy%list_elem_of_In. apply Hpcs in Hy as (Hy & _). apply (certifies_seen c faulty G HG d Hd); [cbn; lia|done]. }
         clear -Heq. induction pcs as [|y pcs IH]; [done|]. cbn. rewrite Heq by (by left).
         rewrite IH; [done|]. intros z Hz. apply Heq. by right.
       - intros y Hy. apply Hpcs in Hy as (? & Hyr & _). split; [done|]. lia. }
  cbn [obind]. set (certified := filter (λ b, cert b) (dr_blocks_at_slot d slot)).
  assert (Hcert : ∀ b, b ∈ certified → G !! reference b = Some b ∧ slot_from (reference b) = slot ∧
      ∃ y, G !! reference y = Some y ∧ round y = slot_round slot + 2 ∧ causal G x (reference y) ∧
        certifies c G (reference b) y = true).
  { intros b [Hc%Is_true_true Hb]%list_elem_of_filter. destruct (Hslot b Hb) as [Hv Hs].
    split; [by eapply lookup_weaken, s_sub|]. split; [done|].
    unfold cert in Hc. apply existsb_exists in Hc as (y & Hy%list_elem_of_In & Hcy).
    apply Hpcs in Hy as (Hyv & Hyr & Hyc). exists y. split; [by eapply lookup_weaken, s_sub|].
    split; [done|]. split; [|done]. clear -Hyc Hd. induction Hyc; [by apply causal_direct|].
    eapply causal_step; [done|by eapply lookup_weaken, s_sub|done]. }
  destruct (certified_at_most_one certified) as [Hlist|[b Hlist]].
  { apply NoDup_filter, (dr_slot_nodup d slot (s_ok _ _ _ Hd)). }
  { intros b Hb. destruct (Hcert b Hb) as (? & ? & y & _ & _ & _ & ?). split_and!; [done..|by exists y]. }
  all: rewrite Hlist; cbn.
  - exists (LeaderSkip slot). split; [done|]. split; [done|]. intros l y Hs HyG Hyr Hyc.
    apply not_true_iff_false. intros Hq.
    destruct (causal_seen c faulty G HG d Hd (slot_round slot) x y) as [Hyv Hyin]; [lia|done|done|lia|done|].
    destruct (certified_present l y Hs Hyin Hyr Hq) as (b & <- & Hb).
    assert (b ∈ certified) as Hbin; [|rewrite Hlist in Hbin; by apply elem_of_nil in Hbin].
    apply list_elem_of_filter. split.
    + apply Is_true_true. unfold cert. apply existsb_exists. exists y. split; [|done].
      apply list_elem_of_In, Hpcs. done.
    + apply (dr_slot_complete d slot b (s_ok _ _ _ Hd)); done.
  - exists (LeaderCommit b). split; [done|]. apply Hcert. rewrite Hlist. left.
Qed.

Lemma certificates_seen l (bs : list VerifiedBlock) :
  dr_gc_round d ≤ ref_round l → (∀ x, x ∈ bs → dr_view d !! reference x = Some x) →
  filter (λ x, certifies c (dr_view d) l x) bs = filter (λ x, certifies c G l x) bs.
Proof using HG Hd.
  clear Hwave Hgc. intros Hl Hbs. apply filter_ext_in. intros x Hx%Hbs.
  rewrite <-(certifies_seen c faulty G HG d Hd l x), (s_committee _ _ _ Hd); done.
Qed.

(** A direct decision: either a quorum of blames, or a quorum of certificates. *)
Lemma direct_decide_inv st :
  try_direct_decide o d slot = Ok st → is_decided st = true →
  match st with
  | LeaderSkip s => s = slot ∧ ∃ bs, (∀ x, x ∈ bs → G !! reference x = Some x ∧ round x = slot_round slot + 1) ∧
      quorum_threshold c ≤ set_stake c (list_to_set (author <$> filter (λ x, is_blame (slot_authority slot) x) bs))
  | LeaderCommit b => G !! reference b = Some b ∧ slot_from (reference b) = slot ∧
      ∃ bs, (∀ x, x ∈ bs → G !! reference x = Some x ∧ round x = slot_round slot + 2) ∧
      quorum_threshold c ≤ set_stake c (list_to_set (author <$> filter (λ x, certifies c G (reference b) x) bs))
  | LeaderUndecided _ => False
  end.
Proof using HG Hd Hgc Hwave.
  pose proof (wk_bound _ _ Hwave). pose proof (s_committee _ _ _ Hd) as Hcomm.
  unfold try_direct_decide. rewrite u32_add_small, decision_round_eq by (done || lia).
  rewrite bind_Ok. intros (blamed & Hblame & Hrun) Hdec. destruct blamed.
  - injection Hrun as <-. split; [done|].
    destruct (enough_leader_blame_true d _ _ (s_ok _ _ _ Hd) Hblame) as (bs & Hbs & Hq).
    exists bs. rewrite Hcomm in Hq. split; [|done]. intros x Hx.
    destruct (dr_round_law d _ bs x (s_ok _ _ _ Hd) Hbs Hx) as [? ?].
    split; [by eapply lookup_weaken, s_sub|done].
  - apply bind_Ok in Hrun as (sup & Hsup & Hrun). destruct (1 <? length sup)%nat; [done|].
    injection Hrun as <-. destruct (last sup) as [b|] eqn:Hl; [cbn|done].
    assert (b ∈ sup) as Hb by (apply last_Some in Hl as [? ->]; set_solver).
    apply (filter_each_elem _ _ _ _ Hsup) in Hb as [Hb Htrue].
    destruct (dr_slot_law d slot b (s_ok _ _ _ Hd) Hb) as [Hv Hs].
    assert (round b = slot_round slot) as Hrb by (by rewrite <-Hs). rewrite <-Hrb in Htrue.
    destruct (enough_leader_support_true d (s_ok _ _ _ Hd) b (s_complete _ _ _ Hd) Htrue) as (bs & Hbs & Hq).
    rewrite Hrb in Hbs. split; [by eapply lookup_weaken, s_sub|]. split; [done|]. exists bs.
    assert (Hin : ∀ x, x ∈ bs → dr_view d !! reference x = Some x ∧ round x = slot_round slot + 2)
      by (intros x Hx; apply (dr_round_law d _ bs x (s_ok _ _ _ Hd) Hbs Hx)).
    split; [intros x [? ?]%Hin; split; [by eapply lookup_weaken, s_sub|done]|].
    rewrite Hcomm in Hq.
    rewrite certificates_seen in Hq; [done|cbn; lia|]. intros x Hx. by destruct (Hin x Hx).
Qed.

(** The direct rule always gives an answer: in particular it never finds two supported
    blocks of the slot, whose panic is therefore unreachable. *)
Lemma try_direct_decide_total :
  dr_open d (slot_round slot + 1) → dr_open d (slot_round slot + 2) →
  ∃ st, try_direct_decide o d slot = Ok st.
Proof using HG Hd Hgc Hwave.
  pose proof (wk_bound _ _ Hwave). pose proof (s_committee _ _ _ Hd) as Hcomm. intros Ho1 Ho2.
  unfold try_direct_decide. rewrite u32_add_small, decision_round_eq by (done || lia).
  destruct (dr_round_open d _ (s_ok _ _ _ Hd) Ho1) as [bs1 Hbs1].
  rewrite (enough_leader_blame_round d _ _ bs1 (s_ok _ _ _ Hd) Hbs1). cbn [obind].
  case_match; [by eexists|].
  assert (Htot : ∀ b, b ∈ dr_blocks_at_slot d slot →
    ∃ res, enough_leader_support d (slot_round slot + 2) b = Ok res).
  { intros b Hb. destruct (dr_slot_law d slot b (s_ok _ _ _ Hd) Hb) as [_ Hs].
    assert (slot_round slot = round b) as Hrb by (by rewrite <-Hs). rewrite Hrb in Ho2 |- *.
    apply enough_leader_support_total; [apply Hd..|done]. }
  destruct (filter_each_total _ _ Htot) as [sup Hsup]. rewrite Hsup. cbn [obind].
  destruct (certified_at_most_one sup) as [->|[b ->]]; [..|by eexists|by eexists].
  - eapply filter_each_nodup; [exact Hsup|]. apply dr_slot_nodup, Hd.
  - intros b Hb. apply (filter_each_elem _ _ _ _ Hsup) in Hb as [Hb Htrue].
    destruct (dr_slot_law d slot b (s_ok _ _ _ Hd) Hb) as [Hv Hs].
    split; [by eapply lookup_weaken, s_sub|]. split; [done|].
    assert (slot_round slot = round b) as Hrb by (by rewrite <-Hs). rewrite Hrb in Htrue.
    destruct (enough_leader_support_true d (s_ok _ _ _ Hd) b (s_complete _ _ _ Hd) Htrue) as (bs & Hbs & Hq).
    rewrite Hcomm, certificates_seen in Hq; [|cbn; lia|].
    + destruct (quorum_certificate (reference b) bs Hq) as (y & _ & Hy). by exists y.
    + intros x Hx. by destruct (dr_round_law d _ bs x (s_ok _ _ _ Hd) Hbs Hx).
Qed.

(** A direct decision is what the history of every later block says. *)
Lemma direct_anchor_outcome st r x :
  try_direct_decide o d slot = Ok st → is_decided st = true →
  G !! r = Some x → slot_round slot + 3 ≤ ref_round r → anchor_outcome x st.
Proof using HG Hd Hgc Hwave.
  intros Hrun Hdec Hx Hr. pose proof (direct_decide_inv st Hrun Hdec) as Hinv.
  destruct st as [b|s|s]; [| |done].
  - destruct Hinv as (Hb & Hs & bs & Hbs & Hq). split; [done|]. split; [done|].
    assert (ref_round (reference b) = slot_round slot) as Hrb by (by rewrite <-Hs).
    destruct (certificate_reached c faulty G HG (reference b) bs) with (n := N.to_nat (ref_round r - slot_round slot - 3)) (r := r) (b := x)
      as (y & ? & ? & ? & ?); [by rewrite Hrb|done|done|lia|].
    exists y. rewrite Hrb in *. done.
  - destruct Hinv as (-> & bs & Hbs & Hq). split; [done|]. intros l y Hl _ _ _.
    assert (ref_round l = slot_round slot ∧ ref_author l = slot_authority slot) as [Hlr Hla]
      by (rewrite <-Hl; done).
    apply (blamed_not_certified c faulty G HG l y bs); [by rewrite Hlr|by rewrite Hla].
Qed.
End one_validator.

(** C3 (safety): a leader slot directly decided by one validator, by a quorum of
    certificates or a quorum of blames, is decided the same way by every validator
    that decides it from the history of any later anchor: the indirect rule
    terminates, does not panic, and commits the same block or skips it as well. *)
Theorem direct_decision_respected {D : Type} `{DagReader D, !DagReaderLaws D} (d1 d2 : D) fuel x st :
  sees c G d1 → dr_gc_round d1 < slot_round slot →
  sees c G d2 → dr_gc_round d2 < slot_round slot →
  try_direct_decide o d1 slot = Ok st → is_decided st = true →
  dr_view d2 !! reference x = Some x → slot_round slot + 3 ≤ round x → (size (dr_view d2) < fuel)%nat →
  decide_leader_from_anchor fuel o d2 x slot = Ok st.
Proof using HG Hwave.
  intros Hd1 Hgc1 Hd2 Hgc2 Hrun Hdec Hx Hr Hfuel.
  destruct (decide_from_anchor_spec d2 Hd2 Hgc2 fuel x Hx Hfuel) as (st' & -> & Hout).
  f_equal. apply (anchor_outcome_unique x); [done|].
  apply (direct_anchor_outcome d1 Hd1 Hgc1 st (reference x) x Hrun Hdec); [|done].
  by eapply lookup_weaken, s_sub.
Qed.

(** Two validators never directly decide the same leader slot differently: not commit
    and skip, and not two different blocks of an equivocating leader. *)
Lemma direct_decisions_unique {D1 : Type} `{DagReader D1, !DagReaderLaws D1} {D2 : Type}
    `{DagReader D2, !DagReaderLaws D2} (d1 : D1) (d2 : D2) st1 st2 :
  sees c G d1 → dr_gc_round d1 < slot_round slot →
  sees c G d2 → dr_gc_round d2 < slot_round slot →
  try_direct_decide o d1 slot = Ok st1 → is_decided st1 = true →
  try_direct_decide o d2 slot = Ok st2 → is_decided st2 = true →
  st1 = st2.
Proof using HG Hwave.
  intros Hd1 Hgc1 Hd2 Hgc2 Hrun1 Hdec1 Hrun2 Hdec2.
  pose proof (direct_decide_inv d1 Hd1 Hgc1 st1 Hrun1 Hdec1) as H1.
  pose proof (direct_decide_inv d2 Hd2 Hgc2 st2 Hrun2 Hdec2) as H2.
  assert (Hno : ∀ b y bs, slot_from (reference b) = slot →
    (∀ x, x ∈ bs → G !! reference x = Some x ∧ round x = slot_round slot + 1) →
    quorum_threshold c ≤ set_stake c (list_to_set (author <$> filter (λ x, is_blame (slot_authority slot) x) bs)) →
    certifies c G (reference b) y = false).
  { intros b y bs <- Hbs Hq. by apply (blamed_not_certified c faulty G HG (reference b) y bs). }
  destruct st1 as [b1|s1|s1], st2 as [b2|s2|s2]; try done.
  - destruct H1 as (Hb1 & Hs1 & bs1 & _ & Hq1), H2 as (Hb2 & Hs2 & bs2 & _ & Hq2).
    destruct (quorum_certificate _ bs1 Hq1) as (y1 & _ & Hy1), (quorum_certificate _ bs2 Hq2) as (y2 & _ & Hy2).
    assert (reference b1 = reference b2) as Heq.
    { eapply (certified_unique c faulty G HG); [congruence|exact Hy1|exact Hy2]. }
    rewrite Heq in Hb1. congruence.
  - destruct H1 as (_ & Hs1 & bs1 & _ & Hq1), H2 as (_ & bs2 & Hbs2 & Hq2).
    destruct (quorum_certificate _ bs1 Hq1) as (y & _ & Hy). by rewrite (Hno b1 y bs2) in Hy.
  - destruct H2 as (_ & Hs2 & bs2 & _ & Hq2), H1 as (_ & bs1 & Hbs1 & Hq1).
    destruct (quorum_certificate _ bs2 Hq2) as (y & _ & Hy). by rewrite (Hno b2 y bs1) in Hy.
  - destruct H1 as [-> _], H2 as [-> _]. done.
Qed.

(** C2 (safety): deciding a leader slot from an anchor depends on the anchor only:
    two validators whose DAGs contain it decide the slot the same way, whatever else
    their DAGs contain. *)
Theorem indirect_decisions_agree {D : Type} `{DagReader D, !DagReaderLaws D} (d1 d2 : D) fuel1 fuel2 x :
  sees c G d1 → dr_gc_round d1 < slot_round slot →
  sees c G d2 → dr_gc_round d2 < slot_round slot →
  dr_view d1 !! reference x = Some x → (size (dr_view d1) < fuel1)%nat →
  dr_view d2 !! reference x = Some x → (size (dr_view d2) < fuel2)%nat →
  ∃ st, is_decided st = true ∧ decide_leader_from_anchor fuel1 o d1 x slot = Ok st ∧
        decide_leader_from_anchor fuel2 o d2 x slot = Ok st.
Proof using HG Hwave.
  intros Hd1 Hgc1 Hd2 Hgc2 Hx1 Hf1 Hx2 Hf2.
  destruct (decide_from_anchor_spec d1 Hd1 Hgc1 fuel1 x Hx1 Hf1) as (st1 & -> & Ho1).
  destruct (decide_from_anchor_spec d2 Hd2 Hgc2 fuel2 x Hx2 Hf2) as (st2 & -> & Ho2).
  exists st1. split; [by destruct st1|]. split; [done|]. f_equal. by apply (anchor_outcome_unique x).
Qed.
End decisions.

(** ** A concrete world

    The conditions are decidable on a finite world. *)

Definition worldb (c : Committee) (faulty : gset AuthorityIndex) (G : gmap BlockRef VerifiedBlock) : bool :=
  bool_decide (set_stake c faulty < validity_threshold c) &&
  bool_decide (map_Forall (λ r b, reference b = r) G) &&
  bool_decide (map_Forall (λ r _, map_Forall (λ r' _,
    ref_author r ∈ faulty ∨ ref_author r ≠ ref_author r' ∨ ref_round r ≠ ref_round r' ∨ r = r') G) G) &&
  bool_decide (map_Forall (λ r b, Forall (λ p, ref_round p < ref_round r ∧ is_Some (G !! p)) (ancestors b)) G) &&
  bool_decide (map_Forall (λ r b, ref_round r = 0 ∨ quorum_threshold c ≤ set_stake c
    (list_to_set (ref_author <$> filter (λ p, ref_round p + 1 = ref_round r) (ancestors b)))) G).

Lemma worldb_sound c faulty G : committee_ok c → worldb c faulty G = true → world c faulty G.
Proof.
  intros Hc. unfold worldb. rewrite !andb_true_iff, !bool_decide_eq_true.
  intros [[[[Hf Hkey] Hhon] Hlinks] Hpar]. split; try done.
  - intros r r' [b Hb] [b' Hb'] Hnf Ha Hr. destruct (Hhon r b Hb r' b' Hb') as [?|[?|[?|?]]]; done.
  - intros r b p Hb Hp. specialize (Hlinks r b Hb). cbn in Hlinks. rewrite Forall_forall in Hlinks. by apply Hlinks.
  - intros r b Hb Hr. destruct (Hpar r b Hb); [lia|done].
Qed.

Definition completeb (s : DagState Inner) : bool :=
  bool_decide (map_Forall (λ r b, Forall (λ p, ref_round p < ref_round r ∧
    (ref_author p < committee_size (committee (ds_context s)))%nat ∧
    (ref_round p ≤ gc_round s ∨ is_Some (view s !! p))) (ancestors b)) (view s)).

Lemma completeb_sound s : completeb s = true → complete_above s (gc_round s).
Proof.
  unfold completeb. rewrite bool_decide_eq_true. intros Hall r b p Hb Hp.
  specialize (Hall r b Hb). cbn in Hall. rewrite Forall_forall in Hall.
  destruct (Hall p Hp) as (? & ? & Hin). split; [done|]. split; [done|]. intros Hlt.
  destruct Hin; [lia|done].
Qed.

(** Seven full rounds of the authorities 1, 2 and 3 over genesis. *)
Definition layers : list VerifiedBlock :=
  [1; 2; 3; 4; 5; 6; 7] ≫= λ r, layer_block r <$> [1; 2; 3]%nat.
Definition dag7 : DagState Inner := of_outcome (accept_blocks 0 fresh4 layers) (empty_dag context4).
(** A validator that has received the first six rounds only. *)
Definition dag6 : DagState Inner := of_outcome (accept_blocks 0 fresh4 (take 18 layers)) (empty_dag context4).

Lemma layers_wf b :
  b ∈ layers → 0 < round b ∧ ref_wf (reference b) ∧ (author b < 4)%nat ∧ author b ≠ 0%nat.
Proof.
  intros Hb.
  assert (Forall (λ b, 0 < round b ∧ ref_wf (reference b) ∧ (author b < 4)%nat ∧ author b ≠ 0%nat) layers) as Hall.
  { unfold ref_wf. apply (bool_decide_unpack _). vm_compute. exact I. }
  rewrite Forall_forall in Hall. by apply Hall.
Qed.

Lemma layered_ok bs s' :
  bs ⊆ layers → accept_blocks 0 fresh4 bs = Ok s' → dag_ok s' ∧ ds_context s' = context4.
Proof.
  intros Hsub Hrun. destruct fresh4_ok as [Hok Hctx].
  destruct (accept_others fresh4 bs Hok) as (s & Hrun' & Hok' & Hc').
  - intros b Hb. destruct (layers_wf b (Hsub b Hb)) as (? & ? & ? & ?). unfold ds_committee. rewrite Hctx.
    assert (committee_size (committee context4) = 4%nat) as -> by (vm_compute; reflexivity). split_and!; assumption.
  - rewrite Hrun in Hrun'. injection Hrun' as ->. split; [done|]. by rewrite Hc', Hctx.
Qed.

Lemma dag7_Ok : accept_blocks 0 fresh4 layers = Ok dag7.
Proof. vm_compute. reflexivity. Qed.
Lemma dag6_Ok : accept_blocks 0 fresh4 (take 18 layers) = Ok dag6.
Proof. vm_compute. reflexivity. Qed.

#[global] Opaque dag7 dag6.

Lemma world7 : world committee4 ∅ (view dag7).
Proof. apply worldb_sound; [apply committee4_ok|]. vm_compute. reflexivity. Qed.

Lemma sees7 : sees committee4 (view dag7) dag7.
Proof.
  destruct (layered_ok layers dag7) as [Hok Hctx]; [done|apply dag7_Ok|].
  split; [exact Hok|cbn; by rewrite Hctx|done|].
  apply (completeb_sound dag7). vm_compute. reflexivity.
Qed.

Lemma sees6 : sees committee4 (view dag7) dag6.
Proof.
  destruct (layered_ok (take 18 layers) dag6) as [Hok Hctx]; [|apply dag6_Ok|].
  { intros b Hb. rewrite <-(take_drop 18 layers). apply elem_of_app. by left. }
  split; [exact Hok|cbn; by rewrite Hctx| |].
  - apply map_subseteq_spec. apply (bool_decide_unpack (map_Forall (λ r b, view dag7 !! r = Some b) (view dag6))).
    vm_compute. exact I.
  - apply (completeb_sound dag6). vm_compute. reflexivity.
Qed.

Definition leader3 : Slot := mkSlot 3 1.

Lemma wave3 : wave_ok base_committer_options_default (slot_round leader3).
Proof. split; vm_compute; (reflexivity || discriminate). Qed.

(** Round 3 is decided by the full certificates of round 5; its anchor is a block
    of round 6. *)
Lemma direct_decision_respected_witness :
  decide_leader_from_anchor 100 base_committer_options_default dag6 (layer_block 6 2) leader3 =
    Ok (LeaderCommit (layer_block 3 1)).
Proof.
  apply (direct_decision_respected committee4 ∅ (view dag7) base_committer_options_default leader3
    world7 wave3 dag7 dag6 100 (layer_block 6 2));
    [apply sees7|vm_compute; reflexivity|apply sees6|vm_compute; reflexivity|vm_compute; reflexivity
    |reflexivity|vm_compute; reflexivity|vm_compute; discriminate|vm_compute; lia].
Defined.

Lemma indirect_decisions_agree_witness :
  ∃ st, is_decided st = true ∧
    decide_leader_from_anchor 100 base_committer_options_default dag7 (layer_block 6 2) leader3 = Ok st ∧
    decide_leader_from_anchor 50 base_committer_options_default dag6 (layer_block 6 2) leader3 = Ok st.
Proof.
  apply (indirect_decisions_agree committee4 ∅ (view dag7) base_committer_options_default leader3
    world7 wave3 dag7 dag6 100 50 (layer_block 6 2));
    [apply sees7|vm_compute; reflexivity|apply sees6|vm_compute; reflexivity
    |vm_compute; reflexivity|vm_compute; lia|vm_compute; reflexivity|vm_compute; lia].
Defined.
