(* ===== verification/Linearizer.v ===== *)
(** * The linearizer ([core/src/linearizer.rs])

    Expands each committed leader into a sub-dag: the leader, the other uncommitted
    blocks of its round, and the uncommitted blocks its history reaches above the GC
    round, sorted.  The traversal is generic over the trait [BlockStoreAPI], which
    [DagState] implements. *)

From S2P Require Import Prelude Collections Weighted Committee Types Fixtures Commits StakeAggregator.
From S2P Require Import ThresholdClock LeaderScoring Storage DagState DagStateSpec DagTraversal DagRecovery.

Local Open Scope N_scope.

(** ** The trait *)

Class BlockStoreAPI (B : Type) := {
  bs_get_blocks : B → list BlockRef → outcome (list (option VerifiedBlock));
  bs_gc_round : B → Round;
  bs_set_committed : B → BlockRef → outcome (B * bool);
  bs_is_committed : B → BlockRef → outcome bool;
  bs_get_uncommitted_blocks_at_round : B → Round → outcome (list VerifiedBlock);
}.

#[export] Instance dag_state_block_store {S : Type} `{Store S} : BlockStoreAPI (DagState S) := {
  bs_get_blocks := get_blocks;
  bs_gc_round := gc_round;
  bs_set_committed := set_committed;
  bs_is_committed := is_committed;
  bs_get_uncommitted_blocks_at_round := get_uncommitted_blocks_at_round;
}.

Section linearize.
Context {B : Type} `{BlockStoreAPI B}.
Implicit Types d : B.

(** Committing the other blocks of the leader's round. *)
Definition commit_peer (acc : B * list VerifiedBlock) (block : VerifiedBlock) :
    outcome (B * list VerifiedBlock) :=
  let '(d, to_commit) := acc in
  let! already := bs_is_committed d (reference block) in
  if (already : bool) then Ok (d, to_commit) else
  let! '(d, fresh) := bs_set_committed d (reference block) in
  Ok (d, if (fresh : bool) then to_commit ++ [block] else to_commit).

Definition commit_ancestor (acc : B * list VerifiedBlock) (ancestor : VerifiedBlock) :
    outcome (B * list VerifiedBlock) :=
  let '(d, buffer) := acc in
  let! '(d, fresh) := bs_set_committed d (reference ancestor) in
  do! rassert fresh "Block attempted to be committed twice" in
  Ok (d, ancestor :: buffer).

(** The ancestors of [x] to visit: above the GC round and not committed. *)
Definition uncommitted_ancestors d (gc : Round) (x : VerifiedBlock) : outcome (list VerifiedBlock) :=
  let! refs := filter_each (λ a,
      if gc <? ref_round a then let! done := bs_is_committed d a in Ok (negb done) else Ok false)
    (ancestors x) in
  let! found := bs_get_blocks d refs in
  map_each (λ ob, expect ob "We should have all uncommitted blocks in dag state.") found.

(** The [while let Some(x) = buffer.pop()] loop; the top of the stack is the head of
    the list. *)
Fixpoint drain_buffer (fuel : nat) (gc : Round) d (buffer to_commit : list VerifiedBlock) :
    outcome (B * list VerifiedBlock) :=
  match fuel with
  | O => OutOfFuel
  | Datatypes.S fuel' =>
      match buffer with
      | [] => Ok (d, to_commit)
      | x :: buffer =>
          let to_commit :=
            if decide (Exists (λ b, reference b = reference x) to_commit) then to_commit
            else to_commit ++ [x] in
          let! ancs := uncommitted_ancestors d gc x in
          let! '(d, buffer) := for_each commit_ancestor (d, buffer) ancs in
          drain_buffer fuel' gc d buffer to_commit
      end
  end.

Definition linearize_sub_dag (fuel : nat) (leader_block : VerifiedBlock) d : outcome (B * list VerifiedBlock) :=
  let gc := bs_gc_round d in
  let leader_round := round leader_block in
  let! '(d, fresh) := bs_set_committed d (reference leader_block) in
  do! rassert fresh "Leader block attempted to be committed twice" in
  let! '(d, to_commit) :=
    if gc <? leader_round then
      let! peers := bs_get_uncommitted_blocks_at_round d leader_round in
      for_each commit_peer (d, []) peers
    else Ok (d, []) in
  let! '(d, to_commit) := drain_buffer fuel gc d [leader_block] to_commit in
  do! rassert (forallb (λ b, gc <? round b) to_commit) "No blocks <= gc_round should be committed." in
  Ok (d, sort_sub_dag_blocks to_commit).
End linearize.

(** ** Commit timestamps *)

Definition median_timestamps_by_stake_inner (timestamps : list (BlockTimestampMs * Stake))
    (total_stake : Stake) : outcome BlockTimestampMs :=
  let sorted := sort_by_key fst timestamps in
  match scan_until (λ cumulative, total_stake `div` 2 <? cumulative) 0 sorted with
  | Some ts => Ok ts
  | None => omap_ok fst (expect (last sorted) "called `Option::unwrap()` on a `None` value")
  end.

(** [Err] is the left injection. *)
Definition median_timestamp_by_stake (c : Committee) (blocks : list VerifiedBlock) :
    outcome (string + BlockTimestampMs) :=
  let! timestamps := map_each (λ b,
    let! a := authority c (author b) in Ok (timestamp_ms b, stake a)) blocks in
  let total := u64_sum timestamps.*2 in
  match timestamps with
  | [] => Ok (inl "No blocks provided")
  | _ => if total <? quorum_threshold c then Ok (inl "Total stake < quorum threshold")
         else let! ts := median_timestamps_by_stake_inner timestamps total in Ok (inr ts)
  end.

Definition calculate_commit_timestamp {B : Type} `{BlockStoreAPI B} (c : Committee) (d : B)
    (leader_block : VerifiedBlock) (last_commit_timestamp_ms : BlockTimestampMs) :
    outcome BlockTimestampMs :=
  let refs := filter (λ r, ref_round r = u32_sub (round leader_block) 1) (ancestors leader_block) in
  let! found := bs_get_blocks d refs in
  let! blocks := map_each (λ ob, expect ob "We should have all blocks in dag state.") found in
  let! median := median_timestamp_by_stake c blocks in
  match median with
  | inl _ => Panic "Cannot compute median timestamp for leader block"
  | inr ts => Ok (N.max ts last_commit_timestamp_ms)
  end.

(** ** Handling commits *)

Section handle_commit.
Context {S : Type} `{Store S}.
Context (cd : Codec).
Implicit Types s : DagState S.

(** Every iteration of the traversal commits a cached block, so the cache bounds it. *)
Definition linearize_fuel s : nat := (2 + size (recent_blocks s))%nat.

Definition collect_sub_dag_and_commit s (leader_block : VerifiedBlock) :
    outcome (DagState S * (CommittedSubDag * TrustedCommit)) :=
  let index := last_commit_index s in
  let digest := last_commit_digest s in
  let last_ts := last_commit_timestamp_ms s in
  let! '(s, to_commit) := linearize_sub_dag (linearize_fuel s) leader_block s in
  let! ts := calculate_commit_timestamp (committee (ds_context s)) s leader_block last_ts in
  let commit := commit_new (u32_add index 1) digest ts (reference leader_block) (reference <$> to_commit) in
  let! serialized := expect (serialize_commit cd commit) "Failed to serialize commit" in
  let commit := new_trusted cd commit serialized in
  Ok (s, (committed_sub_dag_new (reference leader_block) to_commit ts (commit_reference commit), commit)).

Definition handle_commit_leader (acc : DagState S * list CommittedSubDag) (leader_block : VerifiedBlock) :
    outcome (DagState S * list CommittedSubDag) :=
  let '(s, sub_dags) := acc in
  let! '(s, (sub_dag, commit)) := collect_sub_dag_and_commit s leader_block in
  let! s := add_commit s commit in
  Ok (s, sub_dags ++ [sub_dag]).

Definition handle_commit s (committed_leaders : list VerifiedBlock) :
    outcome (DagState S * list CommittedSubDag) :=
  for_each handle_commit_leader (s, []) committed_leaders.
End handle_commit.
