(* ===== verification/LinearizerSpec.v ===== *)
(** * What the linearizer commits

    The traversal of [linearize_sub_dag] ends within its fuel and commits, once each,
    exactly the leader, the other uncommitted blocks of its round and the
    uncommitted blocks reached from the leader, in sorted order; the commit
    timestamp lies between timestamps of honest parents.  The last part shows what
    committing the leader's round without following its links costs. *)

From S2P Require Import Prelude Collections Weighted Committee Types Fixtures Commits StakeAggregator.
From S2P Require Import ThresholdClock LeaderScoring Storage DagState DagStateSpec DagTraversal DagRecovery.
From S2P Require Import BaseCommitter Linearizer.

Local Open Scope N_scope.

(** ** What the traversal relies on *)

Abbreviation ledger := (gmap BlockRef (VerifiedBlock * bool)) (only parsing).

Class BlockStoreLaws (B : Type) `{BlockStoreAPI B} := {
  bl_ok : B → Prop;
  (* the cached blocks with their commit flags *)
  bl_ledger : B → gmap BlockRef (VerifiedBlock * bool);
  (* the rounds that can be read as a whole *)
  bl_open : B → Round → Prop;
  bl_key d r b f : bl_ok d → bl_ledger d !! r = Some (b, f) → reference b = r;
  bl_is_committed d r b f : bl_ok d → bl_ledger d !! r = Some (b, f) → bs_is_committed d r = Ok f;
  bl_set_committed d r b : bl_ok d → bl_ledger d !! r = Some (b, false) →
    ∃ d', bs_set_committed d r = Ok (d', true) ∧ bl_ok d' ∧ bs_gc_round d' = bs_gc_round d ∧
      bl_ledger d' = <[r := (b, true)]> (bl_ledger d) ∧ (∀ n, bl_open d' n ↔ bl_open d n);
  bl_get_blocks d refs bs : bl_ok d →
    Forall2 (λ r b, ∃ f, bl_ledger d !! r = Some (b, f)) refs bs →
    bs_get_blocks d refs = Ok (Some <$> bs);
  bl_round d n : bl_ok d → bl_open d n →
    ∃ bs, bs_get_uncommitted_blocks_at_round d n = Ok bs ∧ NoDup (reference <$> bs) ∧
      ∀ b, b ∈ bs ↔ round b = n ∧ ∃ f, bl_ledger d !! reference b = Some (b, f);
}.

(** ** Reachability through uncommitted blocks *)

Section reach.
Context (gc : Round).

Inductive upath (L : ledger) (x : VerifiedBlock) : BlockRef → Prop :=
| upath_direct p b : p ∈ ancestors x → gc < ref_round p → L !! p = Some (b, false) → upath L x p
| upath_step q c p b : upath L x q → L !! q = Some (c, false) → p ∈ ancestors c →
    gc < ref_round p → L !! p = Some (b, false) → upath L x p.

(** Above the GC round, links go to lower rounds, do not repeat, and stay in the cache. *)
Definition linked_ledger (L : ledger) : Prop :=
  ∀ r b f, L !! r = Some (b, f) → gc < ref_round r → NoDup (ancestors b) ∧
    ∀ p, p ∈ ancestors b → ref_round p < ref_round r ∧ (gc < ref_round p → is_Some (L !! p)).

(** Uncommitted blocks left, the measure of the traversal. *)
Definition uncommitted (L : ledger) : nat := size (filter (λ p, p.2.2 = false) L).

Lemma uncommitted_mark (L : ledger) r b :
  L !! r = Some (b, false) → uncommitted L = Datatypes.S (uncommitted (<[r := (b, true)]> L)).
Proof.
  intros Hr. unfold uncommitted. rewrite map_filter_insert_False by done.
  rewrite map_filter_delete, map_size_delete_Some; [|by exists (b, false); apply map_lookup_filter_Some].
  assert (is_Some (filter (λ p : BlockRef * (VerifiedBlock * bool), p.2.2 = false) L !! r)) as Hin
    by (exists (b, false); by apply map_lookup_filter_Some).
  destruct (size (filter _ L)) eqn:Hs; [|lia].
  apply map_size_empty_inv in Hs. rewrite Hs, lookup_empty in Hin. by destruct Hin.
Qed.

Lemma uncommitted_size (L : ledger) : (uncommitted L ≤ size L)%nat.
Proof.
  unfold uncommitted. apply map_subseteq_size, map_filter_subseteq.
Qed.
End reach.

(** Marking a list of references as committed. *)
Definition mark_all (refs : list BlockRef) (L : ledger) : ledger :=
  map_imap (λ r p, Some (p.1, p.2 || bool_decide (r ∈ refs))) L.

Lemma lookup_mark_all refs (L : ledger) r :
  mark_all refs L !! r = (λ p, (p.1, p.2 || bool_decide (r ∈ refs))) <$> L !! r.
Proof. unfold mark_all. rewrite map_lookup_imap. by destruct (L !! r). Qed.

Lemma mark_all_nil (L : ledger) : mark_all [] L = L.
Proof.
  apply map_eq. intros r. rewrite lookup_mark_all. destruct (L !! r) as [[b f]|]; [|done].
  cbn. by rewrite orb_false_r.
Qed.

Lemma mark_all_app l1 l2 (L : ledger) : mark_all (l1 ++ l2) L = mark_all l2 (mark_all l1 L).
Proof.
  apply map_eq. intros r. rewrite !lookup_mark_all. destruct (L !! r) as [[b f]|]; [|done].
  cbn. do 2 f_equal. rewrite <-orb_assoc. f_equal.
  rewrite (bool_decide_ext _ (r ∈ l1 ∨ r ∈ l2)) by apply elem_of_app. apply bool_decide_or.
Qed.

Lemma mark_one r b (L : ledger) : L !! r = Some (b, false) → <[r := (b, true)]> L = mark_all [r] L.
Proof.
  intros Hr. apply map_eq. intros q. rewrite lookup_mark_all. destruct (decide (q = r)) as [->|Hne].
  - rewrite lookup_insert_eq, Hr. cbn. by rewrite bool_decide_eq_true_2 by left.
  - rewrite lookup_insert_ne by done. destruct (L !! q) as [[c f]|]; [|done]. cbn.
    rewrite bool_decide_eq_false_2 by set_solver. by rewrite orb_false_r.
Qed.

Section traverse.
Context {B : Type} `{BlockStoreAPI B, !BlockStoreLaws B}.
Implicit Types d : B.

(** Committing a list of distinct uncommitted blocks, each once. *)
Lemma commit_ancestors_spec ancs : ∀ d buffer,
  bl_ok d → NoDup (reference <$> ancs) →
  (∀ a, a ∈ ancs → bl_ledger d !! reference a = Some (a, false)) →
  ∃ d', for_each commit_ancestor (d, buffer) ancs = Ok (d', reverse ancs ++ buffer) ∧ bl_ok d' ∧
    bs_gc_round d' = bs_gc_round d ∧
    bl_ledger d' = mark_all (reference <$> ancs) (bl_ledger d) ∧
    uncommitted (bl_ledger d) = (length ancs + uncommitted (bl_ledger d'))%nat.
Proof.
  induction ancs as [|a ancs IH]; intros d buffer Hok Hnd Hin; cbn [for_each].
  { exists d. csimpl. rewrite mark_all_nil. done. }
  csimpl in Hnd. apply NoDup_cons in Hnd as [Ha Hnd].
  pose proof (Hin a ltac:(left)) as Hla. unfold commit_ancestor at 1.
  destruct (bl_set_committed d _ a Hok Hla) as (d1 & -> & Hok1 & Hgc1 & Hl1 & _). cbn [obind rassert].
  destruct (IH d1 (a :: buffer)) as (d2 & -> & Hok2 & Hgc2 & Hl2 & Hc2); [done|done| |].
  { intros x Hx. rewrite Hl1, lookup_insert_ne; [apply Hin; by right|].
    intros Heq. apply Ha. rewrite Heq. by apply list_elem_of_fmap_2. }
  exists d2. split; [by rewrite reverse_cons, <-app_assoc|]. split; [done|]. split; [congruence|].
  split; [|rewrite (uncommitted_mark _ _ _ Hla), <-Hl1; cbn; lia].
  rewrite Hl2, Hl1, (mark_one _ _ _ Hla), <-mark_all_app. done.
Qed.

Lemma uncommitted_ancestors_spec d gc x :
  bl_ok d → (∀ p, p ∈ ancestors x → gc < ref_round p → is_Some (bl_ledger d !! p)) →
  NoDup (ancestors x) →
  ∃ ancs, uncommitted_ancestors d gc x = Ok ancs ∧ NoDup (reference <$> ancs) ∧
    (∀ a, a ∈ ancs ↔ reference a ∈ ancestors x ∧ gc < ref_round (reference a) ∧
       bl_ledger d !! reference a = Some (a, false)).
Proof.
  intros Hok Hpres Hnd. unfold uncommitted_ancestors.
  set (want a := (gc <? ref_round a) && bool_decide (snd <$> bl_ledger d !! a = Some false)).
  rewrite (filter_each_pure _ want).
  2: { intros a Ha. unfold want. destruct (N.ltb_spec gc (ref_round a)) as [Hlt|]; [|done].
       destruct (Hpres a Ha Hlt) as [[b f] Hb]. rewrite (bl_is_committed d a b f Hok Hb), Hb. by destruct f. }
  cbn [obind]. set (refs := filter (λ a, want a) (ancestors x)).
  assert (Hrefs : ∀ r, r ∈ refs ↔ r ∈ ancestors x ∧ gc < ref_round r ∧ ∃ b, bl_ledger d !! r = Some (b, false)).
  { intros r. unfold refs, want. rewrite list_elem_of_filter, Is_true_true, andb_true_iff, N.ltb_lt, bool_decide_eq_true.
    destruct (bl_ledger d !! r) as [[b f]|]; naive_solver. }
  destruct (Forall2_collect (λ r b, bl_ledger d !! r = Some (b, false)) refs) as [ancs Hancs].
  { intros r (_ & _ & ?)%Hrefs. done. }
  rewrite (bl_get_blocks d refs ancs Hok) by (eapply Forall2_impl; [exact Hancs|]; intros r b Hb; by exists false).
  cbn [obind]. exists ancs. split; [|split].
  - apply map_each_Ok, Forall2_fmap_l, Forall_Forall2_diag, Forall_forall. done.
  - assert (reference <$> ancs = refs) as ->; [|by apply NoDup_filter].
    clear -Hancs Hok BlockStoreLaws0. induction Hancs as [|r b refs ancs Hr _ IH]; csimpl; [done|].
    by rewrite IH, (bl_key d r b false Hok Hr).
  - intros a. split.
    + intros (r & Hr & Hb)%(Forall2_elem_of_r _ _ _ _ Hancs). pose proof (bl_key d r a false Hok Hb) as <-.
      apply Hrefs in Hr as (? & ? & _). done.
    + intros (Ha & Hgc & Hb). assert (reference a ∈ refs) as Hr by (apply Hrefs; eauto).
      destruct (Forall2_elem_of_l _ _ _ _ Hancs Hr) as (a' & Ha' & Hb'). congruence.
Qed.

(** *** The loop invariant

    [L] is the ledger when the loop starts, [peers] what is already in the list, and
    [new] the references committed by the loop so far. *)
Section loop.
Context (gc : Round) (L : gmap BlockRef (VerifiedBlock * bool)).
Context (leader : VerifiedBlock) (peers : list VerifiedBlock).
Hypothesis HL : linked_ledger gc L.
Hypothesis Hlead : L !! reference leader = Some (leader, true).
Hypothesis Hleadgc : gc < round leader.

Record drain_inv d (buffer to_commit : list VerifiedBlock) (new : list BlockRef) : Prop := {
  dv_ok : bl_ok d;
  dv_ledger : bl_ledger d = mark_all new L;
  dv_new r : r ∈ new → upath gc L leader r ∧ ∃ b, L !! r = Some (b, false);
  dv_buffer x : x ∈ buffer → x = leader ∨ (reference x ∈ new ∧ L !! reference x = Some (x, false));
  dv_nodup : NoDup (reference <$> to_commit);
  dv_list x : x ∈ to_commit → x ∈ peers ∨ x = leader ∨ (reference x ∈ new ∧ L !! reference x = Some (x, false));
  dv_peers x : x ∈ peers → x ∈ to_commit;
  dv_leader : leader ∈ buffer ∨ leader ∈ to_commit;
  dv_covered r b : r ∈ new → L !! r = Some (b, false) → b ∈ buffer ∨ b ∈ to_commit;
  dv_closed x p b : x ∉ buffer → (x = leader ∨ reference x ∈ new ∧ L !! reference x = Some (x, false)) →
    p ∈ ancestors x → gc < ref_round p → L !! p = Some (b, false) → p ∈ new;
}.

Hypothesis Hpeers : ∀ x, x ∈ peers → ∃ f, L !! reference x = Some (x, f).

Lemma drain_inv_start d :
  bl_ok d → bl_ledger d = L → NoDup (reference <$> peers) → drain_inv d [leader] peers [].
Proof.
  clear HL Hlead Hleadgc Hpeers. intros Hok HLd Hnd. assert (Hnil : ∀ r : BlockRef, r ∉ []) by (intros r; apply not_elem_of_nil).
  split.
  - done.
  - by rewrite mark_all_nil.
  - intros r Hr. by destruct (Hnil r).
  - intros x ->%list_elem_of_singleton. by left.
  - done.
  - intros x Hx. by left.
  - done.
  - left. left.
  - intros r b Hr. by destruct (Hnil r).
  - intros x p b Hx [->|[Hn _]]; [|by destruct (Hnil (reference x))]. destruct Hx. left.
Qed.

(** A reference stands for one block of the ledger. *)
Lemma same_reference x y f g :
  L !! reference x = Some (x, f) → L !! reference y = Some (y, g) → reference x = reference y → x = y.
Proof. intros Hx Hy Heq. rewrite Heq in Hx. congruence. Qed.

Lemma listed d buffer to_commit new x :
  drain_inv d buffer to_commit new → x ∈ to_commit → ∃ f, L !! reference x = Some (x, f).
Proof.
  intros Hi Hx. destruct (dv_list _ _ _ _ Hi x Hx) as [?|[->|[_ ?]]]; eauto.
Qed.

Lemma upath_above r : upath gc L leader r → gc < ref_round r.
Proof. by destruct 1. Qed.

Lemma drain_step d x buffer to_commit new :
  drain_inv d (x :: buffer) to_commit new →
  ∃ ancs d', uncommitted_ancestors d gc x = Ok ancs ∧
    for_each commit_ancestor (d, buffer) ancs = Ok (d', reverse ancs ++ buffer) ∧
    uncommitted (bl_ledger d) = (length ancs + uncommitted (bl_ledger d'))%nat ∧
    drain_inv d' (reverse ancs ++ buffer)
      (if decide (Exists (λ b, reference b = reference x) to_commit) then to_commit else to_commit ++ [x])
      (new ++ (reference <$> ancs)).
Proof using HL Hlead Hleadgc Hpeers.
  intros Hi. set (to_commit' := if decide _ then _ else _).
  assert (HxL : ∃ f, L !! reference x = Some (x, f) ∧ gc < ref_round (reference x)).
  { destruct (dv_buffer _ _ _ _ Hi x ltac:(left)) as [->|[Hn ?]]; [eauto|].
    exists false. split; [done|]. destruct (dv_new _ _ _ _ Hi _ Hn) as [Hu _]. by apply upath_above in Hu. }
  destruct HxL as (fx & HxL & Hxgc). destruct (HL _ x fx HxL Hxgc) as [Hndx Hanc].
  assert (Hled : ∀ r b f, bl_ledger d !! r = Some (b, f) ↔ ∃ f0, L !! r = Some (b, f0) ∧ f = f0 || bool_decide (r ∈ new)).
  { intros r b f. rewrite (dv_ledger _ _ _ _ Hi), lookup_mark_all. destruct (L !! r) as [[b0 f0]|]; cbn; naive_solver. }
  destruct (uncommitted_ancestors_spec d gc x (dv_ok _ _ _ _ Hi)) as (ancs & Hrun & Hnd & Hin).
  { intros p Hp Hgc. destruct (Hanc p Hp) as [_ [[b f] Hb]]; [done|].
    exists (b, f || bool_decide (p ∈ new)). apply Hled. eauto. }
  { done. }
  destruct (commit_ancestors_spec ancs d buffer (dv_ok _ _ _ _ Hi) Hnd) as (d' & Hrun' & Hok' & _ & Hl' & Hc').
  { intros a (_ & _ & ?)%Hin. done. }
  exists ancs, d'. split; [done|]. split; [done|]. split; [done|].
  assert (HaL : ∀ a, a ∈ ancs → L !! reference a = Some (a, false) ∧ ¬ reference a ∈ new).
  { intros a (_ & _ & (f0 & Hf0 & Hfalse)%Hled)%Hin. destruct f0; [done|]. cbn in Hfalse.
    symmetry in Hfalse. apply bool_decide_eq_false in Hfalse. done. }
  assert (Hx' : x ∈ to_commit').
  { unfold to_commit'. case_decide as Hex; [|set_solver]. apply Exists_exists in Hex as (y & Hy & Heq).
    destruct (listed _ _ _ _ y Hi Hy) as [g Hg]. by rewrite <-(same_reference y x g fx Hg HxL Heq). }
  assert (Hsub : ∀ y, y ∈ to_commit → y ∈ to_commit') by (intros y Hy; unfold to_commit'; case_decide; set_solver).
  split.
  - done.
  - by rewrite Hl', (dv_ledger _ _ _ _ Hi), mark_all_app.
  - intros r [Hr|(a & -> & Ha)%list_elem_of_fmap]%elem_of_app; [by apply (dv_new _ _ _ _ Hi)|].
    destruct (HaL a Ha) as [HaL' _]. split; [|eauto]. apply Hin in Ha as (Hax & Hagc & _).
    destruct (dv_buffer _ _ _ _ Hi x ltac:(left)) as [->|[Hn Hxf]]; [by eapply upath_direct|].
    eapply upath_step; [by apply (dv_new _ _ _ _ Hi)|exact Hxf|done|done|done].
  - intros y [Hy|Hy]%elem_of_app.
    + rewrite elem_of_reverse in Hy. right. split; [|destruct (HaL y Hy); done]. apply elem_of_app. right. by apply list_elem_of_fmap_2.
    + destruct (dv_buffer _ _ _ _ Hi y ltac:(by right)) as [?|[? ?]]; [by left|]. right. split; [set_solver|done].
  - unfold to_commit'. case_decide as Hex; [apply Hi|]. rewrite fmap_app. apply NoDup_app.
    split; [apply Hi|]. split; [|apply NoDup_singleton].
    intros r (y & -> & Hy)%list_elem_of_fmap Heq%list_elem_of_singleton. apply Hex, Exists_exists. eauto.
  - intros y Hy. unfold to_commit' in Hy.
    assert (y ∈ to_commit ∨ y = x) as [Hy'| ->] by (case_decide; set_solver).
    + destruct (dv_list _ _ _ _ Hi y Hy') as [?|[?|[? ?]]]; [tauto|tauto|]. right; right. split; [set_solver|done].
    + destruct (dv_buffer _ _ _ _ Hi x ltac:(left)) as [?|[? ?]]; [tauto|]. right; right. split; [set_solver|done].
  - intros y Hy. apply Hsub. by apply (dv_peers _ _ _ _ Hi).
  - destruct (dv_leader _ _ _ _ Hi) as [[->|?]%elem_of_cons|?]; [by right|left; set_solver|right; auto].
  - intros r b [Hr|(a & -> & Ha)%list_elem_of_fmap]%elem_of_app Hb.
    + destruct (dv_covered _ _ _ _ Hi r b Hr Hb) as [[->|?]%elem_of_cons|?]; [by right|left; set_solver|right; auto].
    + destruct (HaL a Ha). left. assert (b = a) as -> by congruence. apply elem_of_app. left. by apply elem_of_reverse.
  - intros y p b Hnb Hy Hp Hgc Hpb. apply elem_of_app.
    destruct (decide (p ∈ new)) as [?|Hpn]; [by left|right].
    destruct (decide (y = x)) as [->|Hyx].
    + assert (b ∈ ancs) as Hba; [|by apply (list_elem_of_fmap_2 reference) in Hba; assert (bl_ledger d !! p = Some (b, false)) as Hpd
          by (apply Hled; exists false; rewrite bool_decide_eq_false_2 by done; done); rewrite (bl_key d p b false (dv_ok _ _ _ _ Hi) Hpd) in Hba].
      assert (bl_ledger d !! p = Some (b, false)) as Hpd
        by (apply Hled; exists false; rewrite bool_decide_eq_false_2 by done; done).
      apply Hin. rewrite (bl_key d p b false (dv_ok _ _ _ _ Hi) Hpd). done.
    + exfalso. apply Hpn. apply (dv_closed _ _ _ _ Hi y p b); [|..|done|done|done].
      * intros [->|Hy']%elem_of_cons; [done|]. apply Hnb. apply elem_of_app. by right.
      * destruct Hy as [?|[[?|(a & Hya & Ha)%list_elem_of_fmap]%elem_of_app Hyf]]; [by left|by right|].
        exfalso. apply Hnb. apply elem_of_app. left. apply elem_of_reverse.
        assert (y = a) as ->; [|done]. destruct (HaL a Ha) as [HaL' _]. by apply (same_reference y a false false).
Qed.

Lemma drain_buffer_spec fuel : ∀ d buffer to_commit new,
  drain_inv d buffer to_commit new → (length buffer + uncommitted (bl_ledger d) < fuel)%nat →
  ∃ d' to_commit' new', drain_buffer fuel gc d buffer to_commit = Ok (d', to_commit') ∧
    drain_inv d' [] to_commit' new'.
Proof using HL Hlead Hleadgc Hpeers.
  induction fuel as [|fuel IH]; intros d buffer to_commit new Hi Hfuel; [lia|].
  destruct buffer as [|x buffer]; cbn [drain_buffer]; [by exists d, to_commit, new|].
  destruct (drain_step d x buffer to_commit new Hi) as (ancs & d' & -> & Hrun & Hc & Hi'). cbn [obind].
  rewrite Hrun. cbn [obind]. eapply IH; [exact Hi'|]. rewrite length_app, length_reverse. cbn in Hfuel. lia.
Qed.

(** When the buffer is empty, everything reachable has been committed. *)
Lemma drain_inv_done d to_commit new :
  drain_inv d [] to_commit new → ∀ r, upath gc L leader r ↔ r ∈ new.
Proof.
  intros Hi r. split; [|intros Hr; by destruct (dv_new _ _ _ _ Hi r Hr)].
  assert (Hnil : ∀ x : VerifiedBlock, x ∉ []) by (intros x; apply not_elem_of_nil).
  induction 1 as [p b Hp Hgc Hb|q c p b Hq IH Hqc Hp Hgc Hb].
  - by apply (dv_closed _ _ _ _ Hi leader p b); [|left|..].
  - apply (dv_closed _ _ _ _ Hi c p b); [done|right|done|done|done].
    assert (bl_ledger d !! q = Some (c, true)) as Hqd.
    { rewrite (dv_ledger _ _ _ _ Hi), lookup_mark_all, Hqc. cbn. by rewrite bool_decide_eq_true_2. }
    pose proof (bl_key d q c true (dv_ok _ _ _ _ Hi) Hqd) as ->. done.
Qed.
End loop.

(** *** Committing the round of the leader *)

Lemma commit_peers_spec bs : ∀ d to_commit,
  bl_ok d → NoDup (reference <$> bs) → (∀ b, b ∈ bs → ∃ f, bl_ledger d !! reference b = Some (b, f)) →
  ∃ d' added, for_each commit_peer (d, to_commit) bs = Ok (d', to_commit ++ added) ∧ bl_ok d' ∧
    bs_gc_round d' = bs_gc_round d ∧
    bl_ledger d' = mark_all (reference <$> bs) (bl_ledger d) ∧
    NoDup (reference <$> added) ∧
    (∀ b, b ∈ added ↔ b ∈ bs ∧ bl_ledger d !! reference b = Some (b, false)).
Proof.
  induction bs as [|b bs IH]; intros d to_commit Hok Hnd Hin; cbn [for_each].
  { exists d, []. rewrite app_nil_r. csimpl. rewrite mark_all_nil. split_and!; [done..|constructor|]. set_solver. }
  csimpl in Hnd. apply NoDup_cons in Hnd as [Hb Hnd]. destruct (Hin b ltac:(left)) as [f Hf].
  assert (Hother : ∀ x, x ∈ bs → reference x ≠ reference b).
  { intros x Hx Heq. apply Hb. rewrite <-Heq. by apply list_elem_of_fmap_2. }
  unfold commit_peer at 1. rewrite (bl_is_committed d _ b f Hok Hf). cbn [obind]. destruct f; cbn [obind].
  - destruct (IH d to_commit Hok Hnd) as (d' & added & -> & ? & ? & Hl & ? & Hadd); [intros; apply Hin; by right|].
    exists d', added. split_and!; try done.
    + csimpl. rewrite Hl. change (reference b :: (reference <$> bs)) with ([reference b] ++ (reference <$> bs)).
      rewrite mark_all_app. f_equal. apply map_eq. intros r. rewrite lookup_mark_all.
      destruct (decide (r = reference b)) as [->|]; [by rewrite Hf|].
      destruct (bl_ledger d !! r) as [[x g]|]; [|done]. cbn.
      rewrite bool_decide_eq_false_2 by set_solver. by rewrite orb_false_r.
    + intros x. rewrite Hadd, elem_of_cons. split; [tauto|]. intros [[->|?] ?]; [congruence|done].
  - destruct (bl_set_committed d _ b Hok Hf) as (d1 & -> & Hok1 & Hgc1 & Hl1 & _). cbn [obind].
    destruct (IH d1 (to_commit ++ [b]) Hok1 Hnd) as (d' & added & -> & ? & ? & Hl & Hnda & Hadd).
    { intros x Hx. rewrite Hl1, lookup_insert_ne by (intros ?; by eapply Hother). apply Hin. by right. }
    exists d', (b :: added). split_and!; try done.
    + by rewrite <-app_assoc.
    + congruence.
    + rewrite Hl, Hl1, (mark_one _ _ _ Hf), <-mark_all_app. done.
    + csimpl. constructor; [|done]. intros (x & Heq & [Hx _]%Hadd)%list_elem_of_fmap. by apply (Hother x Hx).
    + intros x. rewrite !elem_of_cons, Hadd, Hl1. split.
      * intros [->|[Hx Hxf]]; [tauto|]. rewrite lookup_insert_ne in Hxf by (intros ?; by eapply Hother). tauto.
      * intros [[->|Hx] Hxf]; [by left|]. right. rewrite lookup_insert_ne by (intros ?; by eapply Hother). done.
Qed.

Lemma linked_ledger_mark gc refs (L : gmap BlockRef (VerifiedBlock * bool)) :
  linked_ledger gc L → linked_ledger gc (mark_all refs L).
Proof.
  intros HL r b f Hr Hgc. rewrite lookup_mark_all in Hr. destruct (L !! r) as [[b0 f0]|] eqn:Hb; [|done].
  injection Hr as -> _. destruct (HL r b f0 Hb Hgc) as [Hnd Hp]. split; [done|]. intros p Hpa.
  destruct (Hp p Hpa) as [? Hin]. split; [done|]. intros Hpg. destruct (Hin Hpg) as [x Hx].
  rewrite lookup_mark_all, Hx. by eexists.
Qed.

(** The links from the leader go below its round. *)
Lemma upath_below gc (L : gmap BlockRef (VerifiedBlock * bool)) leader f r :
  linked_ledger gc L → L !! reference leader = Some (leader, f) → gc < round leader →
  upath gc L leader r → ref_round r < round leader.
Proof.
  intros HL Hlead Hgc. induction 1 as [p b Hp Hg Hb|q c p b Hq IH Hqc Hp Hg Hb].
  - by destruct (proj2 (HL _ _ _ Hlead Hgc) p Hp).
  - assert (gc < ref_round q) as Hgq by (by destruct Hq).
    destruct (proj2 (HL _ _ _ Hqc Hgq) p Hp). lia.
Qed.

Lemma upath_mono gc (L L' : gmap BlockRef (VerifiedBlock * bool)) leader r :
  (∀ p b, upath gc L leader p → L !! p = Some (b, false) → L' !! p = Some (b, false)) →
  upath gc L leader r → upath gc L' leader r.
Proof.
  intros Hsub. induction 1 as [p b Hp Hg Hb|q c p b Hq IH Hqc Hp Hg Hb].
  - eapply upath_direct; [done|done|]. eapply Hsub; [by eapply upath_direct|done].
  - eapply upath_step; [done|by apply Hsub|done|done|]. eapply Hsub; [by eapply upath_step|done].
Qed.

(** The ledger when the traversal starts: the whole round of the leader is marked. *)
Section round_marked.
Context (d : B) (leader : VerifiedBlock) (bs : list VerifiedBlock).
Hypothesis Hok : bl_ok d.
Hypothesis Hlead : bl_ledger d !! reference leader = Some (leader, false).
Hypothesis Hbs : ∀ b, b ∈ bs ↔ round b = round leader ∧ ∃ f, bl_ledger d !! reference b = Some (b, f).

Definition round_marked : gmap BlockRef (VerifiedBlock * bool) :=
  mark_all (reference <$> bs) (bl_ledger d).

Lemma lookup_round_marked r b f :
  round_marked !! r = Some (b, f) ↔
    ∃ f0, bl_ledger d !! r = Some (b, f0) ∧ f = f0 || bool_decide (ref_round r = round leader).
Proof using Hok Hbs.
  clear Hlead. unfold round_marked. rewrite lookup_mark_all. destruct (bl_ledger d !! r) as [[b0 f0]|] eqn:Hr; cbn; [|naive_solver].
  rewrite (bool_decide_ext (r ∈ reference <$> bs) (ref_round r = round leader)); [naive_solver|].
  pose proof (bl_key d r b0 f0 Hok Hr) as Href. rewrite list_elem_of_fmap. split.
  - intros (x & -> & [Hx _]%Hbs). done.
  - intros Hround. exists b0. split; [done|]. apply Hbs. rewrite Href. split; [|eauto].
    by rewrite <-Hround, <-Href.
Qed.

Lemma round_marked_leader : round_marked !! reference leader = Some (leader, true).
Proof using Hok Hbs Hlead.
  apply lookup_round_marked. exists false. split; [done|]. symmetry. by apply bool_decide_eq_true_2.
Qed.

(** Below the round nothing has changed. *)
Lemma round_marked_below r b :
  ref_round r ≠ round leader → round_marked !! r = Some (b, false) ↔ bl_ledger d !! r = Some (b, false).
Proof using Hok Hbs.
  clear Hlead. intros Hne. rewrite lookup_round_marked. rewrite bool_decide_eq_false_2 by done.
  setoid_rewrite orb_false_r. naive_solver.
Qed.

Lemma upath_round_marked gc r :
  linked_ledger gc (bl_ledger d) → gc < round leader →
  upath gc round_marked leader r ↔ upath gc (bl_ledger d) leader r.
Proof using Hok Hbs Hlead.
  intros HL Hgc. split; apply upath_mono.
  - intros p b Hp Hb. apply round_marked_below; [|done].
    pose proof (upath_below gc round_marked leader true p (linked_ledger_mark _ _ _ HL) round_marked_leader Hgc Hp). lia.
  - intros p b Hp Hb. apply round_marked_below; [|done].
    pose proof (upath_below gc _ leader false p HL Hlead Hgc Hp). lia.
Qed.
End round_marked.

(** Setting the leader and the rest of its round: the start of the traversal. *)
Lemma commit_round_spec d leader :
  bl_ok d → bl_ledger d !! reference leader = Some (leader, false) → bl_open d (round leader) →
  ∃ d1 d2 bs peers added,
    bs_set_committed d (reference leader) = Ok (d1, true) ∧
    bs_get_uncommitted_blocks_at_round d1 (round leader) = Ok bs ∧
    for_each commit_peer (d1, []) bs = Ok (d2, added) ∧ bl_ok d2 ∧
    bl_ledger d2 = round_marked d peers ∧
    (∀ b, b ∈ peers ↔ round b = round leader ∧ ∃ f, bl_ledger d !! reference b = Some (b, f)) ∧
    NoDup (reference <$> added) ∧
    (∀ b, b ∈ added ↔ round b = round leader ∧ b ≠ leader ∧ bl_ledger d !! reference b = Some (b, false)).
Proof.
  intros Hok Hlead Hopen.
  destruct (bl_set_committed d _ leader Hok Hlead) as (d1 & Hset & Hok1 & Hgc1 & Hl1 & Hopen1).
  destruct (bl_round d1 (round leader) Hok1) as (bs & Hbs & Hnd & Hin); [by apply Hopen1|].
  destruct (commit_peers_spec bs d1 [] Hok1 Hnd) as (d2 & added & Hrun & Hok2 & _ & Hl2 & Hnda & Hadd).
  { intros b [_ ?]%Hin. done. }
  assert (Hled : ∀ b f, bl_ledger d1 !! reference b = Some (b, f) ↔
    (b = leader ∧ f = true) ∨ (b ≠ leader ∧ bl_ledger d !! reference b = Some (b, f))).
  { intros b f. rewrite Hl1. destruct (decide (reference b = reference leader)) as [Heq|Hne].
    - rewrite Heq, lookup_insert_eq, Hlead. naive_solver.
    - rewrite lookup_insert_ne by done. naive_solver. }
  assert (Hpeers : ∀ b, b ∈ bs ↔ round b = round leader ∧ ∃ f, bl_ledger d !! reference b = Some (b, f)).
  { intros b. rewrite Hin. setoid_rewrite Hled. destruct (decide (b = leader)) as [->|]; [|naive_solver].
    split; [eauto|]. intros [? _]. split; [done|]. exists true. by left. }
  exists d1, d2, bs, bs, added. split_and!; try done.
  - rewrite Hl2, Hl1, (mark_one _ _ _ Hlead), <-mark_all_app. unfold round_marked.
    apply map_eq. intros r. rewrite !lookup_mark_all. destruct (bl_ledger d !! r) as [[x f]|]; [|done]. cbn.
    do 3 f_equal. apply bool_decide_ext. rewrite elem_of_cons.
    split; [|by right]. intros [->|?]; [|done]. apply list_elem_of_fmap_2, Hpeers. eauto.
  - intros b. rewrite Hadd, Hin, Hled. naive_solver.
Qed.

Lemma linearize_spec d leader fuel :
  bl_ok d → linked_ledger (bs_gc_round d) (bl_ledger d) →
  bl_ledger d !! reference leader = Some (leader, false) →
  bs_gc_round d < round leader → bl_open d (round leader) → (size (bl_ledger d) + 1 < fuel)%nat →
  ∃ d' bs, linearize_sub_dag fuel leader d = Ok (d', bs) ∧ bl_ok d' ∧
    StronglySorted (λ a b, block_order_leb a b) bs ∧ NoDup (reference <$> bs) ∧
    (∀ x, x ∈ bs ↔ bl_ledger d !! reference x = Some (x, false) ∧
       (round x = round leader ∨ upath (bs_gc_round d) (bl_ledger d) leader (reference x))) ∧
    bl_ledger d' = mark_all (reference <$> bs) (bl_ledger d).
Proof.
  intros Hok HL Hlead Hgc Hopen Hfuel. set (gc := bs_gc_round d) in *. unfold linearize_sub_dag. fold gc.
  destruct (commit_round_spec d leader Hok Hlead Hopen)
    as (d1 & d2 & bs & peers & added & -> & Hbs & Hrun & Hok2 & Hl2 & Hpeers & Hnda & Hadd).
  cbn [obind rassert]. rewrite (proj2 (N.ltb_lt _ _) Hgc), Hbs. cbn [obind]. rewrite Hrun. cbn [obind].
  set (L := round_marked d peers) in *.
  assert (HLL : linked_ledger gc L) by (by apply linked_ledger_mark).
  assert (HLlead : L !! reference leader = Some (leader, true)) by (by apply round_marked_leader).
  assert (Haddl : ∀ x, x ∈ added → ∃ f, L !! reference x = Some (x, f)).
  { intros x (Hr & _ & Hx)%Hadd. exists true. apply (lookup_round_marked d leader peers Hok Hpeers).
    exists false. split; [done|]. symmetry. by apply bool_decide_eq_true_2. }
  destruct (drain_buffer_spec gc L leader added HLL HLlead Hgc Haddl fuel d2 [leader] added [])
    as (d3 & tc & new & -> & Hi).
  { by apply drain_inv_start. }
  { rewrite Hl2. pose proof (uncommitted_size L). cbn [length].
    assert (size L ≤ size (bl_ledger d))%nat; [|lia]. rewrite <-!(size_dom (D:=gset BlockRef)).
    apply subseteq_size. intros r [[b f] Hb]%elem_of_dom.
    apply (lookup_round_marked d leader peers Hok Hpeers) in Hb as (f0 & ? & _). apply elem_of_dom. by eexists. }
  cbn [obind]. pose proof (drain_inv_done gc L leader added d3 tc new Hi) as Hnew.
  assert (Hup : ∀ r, upath gc L leader r ↔ upath gc (bl_ledger d) leader r)
    by (intros r; by apply (upath_round_marked d leader peers Hok Hlead Hpeers gc r)).
  assert (Helem : ∀ x, x ∈ tc ↔ bl_ledger d !! reference x = Some (x, false) ∧
    (round x = round leader ∨ upath gc (bl_ledger d) leader (reference x))).
  { intros x. rewrite <-Hup, Hnew.
    assert (Hlow : reference x ∈ new → L !! reference x = Some (x, false) ↔ bl_ledger d !! reference x = Some (x, false)).
    { intros Hx. apply (round_marked_below d leader peers Hok Hpeers). apply Hnew in Hx.
      pose proof (upath_below gc L leader true _ HLL HLlead Hgc Hx). lia. }
    split.
    - intros [(? & _ & ?)%Hadd|[->|[Hn Hx]]]%(dv_list _ _ _ _ _ _ _ _ Hi); [tauto|tauto|].
      split; [by apply Hlow|by right].
    - intros [Hx [Hr|Hn]].
      + destruct (decide (x = leader)) as [->|Hne].
        * destruct (dv_leader _ _ _ _ _ _ _ _ Hi) as [Hnil|?]; [by apply elem_of_nil in Hnil|done].
        * apply (dv_peers _ _ _ _ _ _ _ _ Hi), Hadd. done.
      + destruct (dv_covered _ _ _ _ _ _ _ _ Hi (reference x) x Hn (proj2 (Hlow Hn) Hx)) as [Hnil|?];
          [by apply elem_of_nil in Hnil|done]. }
  rewrite rassert_true.
  2: { apply forallb_forall. intros x [Hx [Hr|Hu]]%list_elem_of_In%Helem; apply N.ltb_lt; [lia|exact (upath_above gc _ leader _ Hu)]. }
  cbn [obind]. exists d3, (sort_sub_dag_blocks tc). split; [done|]. split; [apply Hi|].
  split; [apply sort_sub_dag_sorted|]. split; [rewrite sort_sub_dag_perm; apply Hi|].
  split; [intros x; by rewrite sort_sub_dag_perm|].
  rewrite (dv_ledger _ _ _ _ _ _ _ _ Hi). apply map_eq. intros r. rewrite !lookup_mark_all.
  destruct (L !! r) as [[b f]|] eqn:Hb.
  - apply (lookup_round_marked d leader peers Hok Hpeers) in Hb as (f0 & Hb & ->). rewrite Hb. cbn. do 2 f_equal.
    pose proof (bl_key d r b f0 Hok Hb) as <-. destruct f0; [done|]. cbn [orb].
    rewrite <-bool_decide_or. apply bool_decide_ext. rewrite sort_sub_dag_perm, list_elem_of_fmap.
    rewrite <-Hnew, Hup. cbn [ref_round reference]. split.
    + intros Hcase. exists b. split; [done|]. apply Helem. done.
    + intros (x & Heq & [Hx Hcase]%Helem). rewrite <-Heq in Hx. assert (x = b) as -> by congruence. done.
  - cbn. destruct (bl_ledger d !! r) as [[b f0]|] eqn:Hb0; [|done].
    assert (L !! r = Some (b, f0 || bool_decide (ref_round r = round leader))) as HLr
      by (apply (lookup_round_marked d leader peers Hok Hpeers); eauto). congruence.
Qed.
End traverse.

(** ** [DagState] keeps these promises *)

Section dag_state_store_laws.
Context {S : Type} `{Store S, !StoreLaws S}.
Implicit Types s : DagState S.

(** The flags of the cached blocks do not matter to the invariant. *)
Lemma dag_ok_flags s blocks :
  dag_ok s → (∀ r, bi_block <$> blocks !! r = bi_block <$> recent_blocks s !! r) →
  dag_ok (set_recent blocks (recent_refs_by_authority s) s) ∧
  view (set_recent blocks (recent_refs_by_authority s) s) = view s.
Proof.
  intros Hok Hsame.
  assert (Hdom : ∀ r, is_Some (blocks !! r) ↔ is_Some (recent_blocks s !! r)).
  { intros r. rewrite <-(fmap_is_Some bi_block (blocks !! r)), Hsame. by rewrite fmap_is_Some. }
  assert (Hold : ∀ r i, blocks !! r = Some i → ∃ j, recent_blocks s !! r = Some j ∧ bi_block j = bi_block i).
  { intros r i Hi. specialize (Hsame r). rewrite Hi in Hsame. symmetry in Hsame.
    apply fmap_Some in Hsame as (j & Hj & Heq). eauto. }
  split.
  - destruct Hok as [[? ? ? ? ? ? ? Hrec Hidx] ? ? Hag Hbuf Hpend Htop ? Hev]. split; cbn; try done.
    + split; cbn; try done.
      * intros r i (j & Hj & <-)%Hold. by apply Hrec.
      * intros a refs Ha r. rewrite (Hidx a refs Ha r), Hdom. done.
    + intros r b i Hb (j & Hj & <-)%Hold. by eapply Hag.
    + intros r i (j & Hj & <-)%Hold. by apply Hbuf.
    + intros b Hb. rewrite Hsame. by apply Hpend.
    + intros r b Hb. destruct (Htop r b Hb) as (l & Hl & ?). exists l. by rewrite Hdom.
    + intros a e He. destruct (Hev a e He) as (? & Hin & Hlast). split; [done|]. split.
      * intros r b Hb Ha Hlt. apply Hdom. by eapply Hin.
      * destruct Hlast as [?|(l & ? & ?)]; [by left|]. right. exists l. by rewrite Hdom.
  - unfold view. cbn. do 2 f_equal. apply map_eq. intros r. by rewrite !lookup_fmap.
Qed.

Definition dag_ledger s : gmap BlockRef (VerifiedBlock * bool) :=
  (λ i, (bi_block i, committed i)) <$> recent_blocks s.

Lemma lookup_dag_ledger s r b f :
  dag_ledger s !! r = Some (b, f) ↔ ∃ i, recent_blocks s !! r = Some i ∧ bi_block i = b ∧ committed i = f.
Proof. unfold dag_ledger. rewrite lookup_fmap, fmap_Some. naive_solver. Qed.

Lemma set_committed_spec s r b :
  dag_ok s → dag_ledger s !! r = Some (b, false) →
  ∃ s', set_committed s r = Ok (s', true) ∧ dag_ok s' ∧ gc_round s' = gc_round s ∧
    dag_ledger s' = <[r := (b, true)]> (dag_ledger s) ∧ last_commit s' = last_commit s ∧
    view s' = view s ∧ ds_context s' = ds_context s.
Proof.
  intros Hok (i & Hi & Hb & Hf)%lookup_dag_ledger. unfold set_committed. rewrite Hi, Hf. cbn [negb].
  eexists; split; [done|].
  destruct (dag_ok_flags s (<[r := mkBlockInfo (bi_block i) true (included i)]> (recent_blocks s)) Hok) as [Hok' Hv].
  { intros q. destruct (decide (r = q)) as [<-|]; [by rewrite lookup_insert_eq, Hi|by rewrite lookup_insert_ne]. }
  split_and!; try done. unfold dag_ledger. cbn. by rewrite fmap_insert, Hb.
Qed.

#[export] Instance dag_state_block_store_laws : BlockStoreLaws (DagState S).
Proof.
  refine (@Build_BlockStoreLaws (DagState S) _ dag_ok dag_ledger
    (λ s n, last_commit_round s < n ∧ n < u32_max) _ _ _ _ _).
  - intros s r b f Hok (i & Hi & <- & _)%lookup_dag_ledger. by destruct (dok_recent s Hok r i Hi).
  - intros s r b f Hok (i & Hi & _ & <-)%lookup_dag_ledger. cbn. unfold is_committed. by rewrite Hi.
  - intros s r b Hok Hb. destruct (set_committed_spec s r b Hok Hb) as (s' & ? & ? & ? & ? & Hlc & _).
    exists s'. split_and!; try done. unfold last_commit_round. by rewrite Hlc.
  - intros s refs bs Hok Hall. cbn. rewrite get_blocks_view by done. f_equal.
    induction Hall as [|r b refs bs [f (i & Hi & <- & _)%lookup_dag_ledger] _ IH]; csimpl; [done|].
    rewrite IH. f_equal. apply lookup_view; [done|]. rewrite Hi. tauto.
  - intros s n Hok [Hlo Hhi]. cbn. unfold get_uncommitted_blocks_at_round.
    rewrite (proj2 (N.leb_gt _ _) Hlo). rewrite u32_add_small by (unfold u32_max in Hhi; lia).
    rewrite rassert_true by (apply ord_leb_round_lt; cbn; lia). cbn [obind]. eexists; split; [done|]. split.
    + rewrite <-list_fmap_compose. apply (NoDup_fmap_fst (λ i, reference (bi_block i))); [apply NoDup_btree_range|].
      intros [r i] [r' i'] (Hi & _)%elem_of_btree_range (Hi' & _)%elem_of_btree_range Heq. cbn in *.
      destruct (dok_recent s Hok r i Hi) as (<- & _). by destruct (dok_recent s Hok r' i' Hi') as (<- & _).
    + intros b. rewrite list_elem_of_fmap. split.
      * intros ([r i] & -> & (Hi & Habove & Hbelow)%elem_of_btree_range). cbn [snd] in *.
        destruct (dok_recent s Hok r i Hi) as (Href & _). rewrite above_round in Habove.
        cbn in Hbelow. rewrite ord_ltb_leb in Hbelow. apply negb_true_iff in Hbelow.
        pose proof (above_round (n + 1) r) as Hab. cbn in Hab. rewrite Hbelow in Hab.
        assert (¬ n + 1 ≤ ref_round r) by (rewrite <-Hab; done).
        rewrite <-Href in *. cbn in *. split; [lia|]. exists (committed i). apply lookup_dag_ledger. eauto.
      * intros [Hr (f & (i & Hi & Hb & _)%lookup_dag_ledger)]. exists (reference b, i). split; [done|].
        apply elem_of_btree_range. split; [done|]. split; [apply above_round; cbn; lia|].
        cbn. apply ord_ltb_round. cbn. lia.
Defined.
End dag_state_store_laws.

(** ** The commit timestamp *)

Lemma match_not_nil {A B} (l : list A) (x y : B) :
  l ≠ [] → match l with [] => x | _ :: _ => y end = y.
Proof. by destruct l. Qed.

Lemma half_spec n : ∃ h, n `div` 2 = h ∧ 2 * h ≤ n ∧ n ≤ 2 * h + 1.
Proof.
  exists (n `div` 2). pose proof (N.Div0.div_mod n 2). pose proof (N.mod_lt n 2 ltac:(lia)).
  split; [done|]. generalize dependent (n `mod` 2). generalize dependent (n `div` 2). lia.
Qed.

Section median.
Context (c : Committee) (blocks : list VerifiedBlock).
Hypothesis Hc : committee_ok c.
Hypothesis Hval : ∀ b, b ∈ blocks → (author b < committee_size c)%nat.
Hypothesis Hnd : NoDup (author <$> blocks).

(** The pairs the code collects. *)
Definition stamps : list (BlockTimestampMs * Stake) := (λ b, (timestamp_ms b, stake_of c (author b))) <$> blocks.
Definition stamps_stake : N := sumN stamps.*2.

Lemma stamps_authors l : NoDup (author <$> l) →
  sumN ((λ b, stake_of c (author b)) <$> l) = set_stake c (list_to_set (author <$> l)).
Proof using Type.
  clear Hc Hval Hnd. intros Hl. unfold set_stake. rewrite elements_list_to_set by done.
  by rewrite <-list_fmap_compose.
Qed.

Lemma weight_stamps P :
  weight P stamps = set_stake c (list_to_set (author <$> filter (λ b, P (timestamp_ms b)) blocks)).
Proof using Hnd.
  clear Hc Hval. unfold weight, stamps. rewrite filter_fmap_comm, <-list_fmap_compose. cbn.
  rewrite <-stamps_authors; [done|]. revert Hnd. clear. induction blocks as [|b l IH]; csimpl; [constructor|].
  intros [Hb Hl]%NoDup_cons. rewrite filter_cons. case_decide; [|auto]. csimpl. constructor; [|auto].
  intros (x & Hx & [_ Hin]%list_elem_of_filter)%list_elem_of_fmap. apply Hb. rewrite Hx. by apply list_elem_of_fmap_2.
Qed.

Lemma stamps_stake_bound : stamps_stake ≤ total_stake c.
Proof using Hc Hnd.
  clear Hval. unfold stamps_stake, stamps. rewrite <-list_fmap_compose. cbn.
  change (sumN ((λ b, stake_of c (author b)) <$> blocks) ≤ total_stake c).
  rewrite stamps_authors by done. by apply set_stake_le_total.
Qed.

Lemma median_spec :
  blocks ≠ [] → quorum_threshold c ≤ stamps_stake →
  ∃ m, median_timestamp_by_stake c blocks = Ok (inr m) ∧ m ∈ timestamp_ms <$> blocks ∧
    stamps_stake `div` 2 < weight (λ t, t <=? m) stamps ∧
    weight (λ t, t <? m) stamps ≤ stamps_stake `div` 2.
Proof using Hc Hval Hnd.
  intros Hne Hq. unfold median_timestamp_by_stake, median_timestamps_by_stake_inner.
  destruct (half_spec stamps_stake) as (half & Hhalf & Hh1 & Hh2).
  rewrite (map_each_pure _ (λ b, (timestamp_ms b, stake_of c (author b)))).
  2: { intros b Hb%Hval. unfold authority, vec_get, stake_of. unfold committee_size in Hb.
       destruct (lookup_lt_is_Some_2 _ _ Hb) as [a ->]. done. }
  cbn [obind]. fold stamps. pose proof stamps_stake_bound as Hb. pose proof (ok_bound c Hc).
  rewrite u64_sum_small by (unfold stamps_stake in Hb; unfold u64_modulus; lia). fold stamps_stake.
  assert (stamps ≠ []) as Hsne by (unfold stamps; by destruct blocks).
  rewrite (match_not_nil stamps _ _ Hsne), (proj2 (N.ltb_ge _ _) Hq).
  rewrite Hhalf. clear Hhalf. pose proof (quorum_pos c Hc). set (sorted := sort_by_key fst stamps).
  assert (Hperm : sorted ≡ₚ stamps) by apply sort_by_key_perm.
  assert (Hsum : sumN sorted.*2 = stamps_stake) by (unfold stamps_stake; by rewrite Hperm).
  assert (Hstop : ∀ n, (half <? n) = (half + 1 <=? n)).
  { intros n. apply eq_true_iff_eq. rewrite N.ltb_lt, N.leb_le. lia. }
  destruct (scan_until _ 0 sorted) as [m|] eqn:Hscan.
  - exists m. split; [done|].
    destruct (scan_until_sorted (λ a b, a <=? b) _ (half + 1) sorted m Hstop) as (Hin & Hle & Hlt);
      [apply (sort_by_key_sorted fst)|apply N.leb_refl|rewrite Hsum; unfold u64_modulus; lia|lia|done|].
    rewrite Hperm in Hin, Hle, Hlt. split; [|split].
    + unfold stamps in Hin. rewrite <-list_fmap_compose in Hin. done.
    + lia.
    + assert (weight (λ t, t <? m) stamps = weight (λ y, negb (m <=? y)) stamps) as ->; [|lia].
      unfold weight. do 2 f_equal. apply filter_ext_in. intros p _. by rewrite N.ltb_antisym.
  - apply (scan_until_None _ (half + 1) 0 sorted Hstop) in Hscan;
      rewrite ?Hsum in *; [|unfold u64_modulus; lia|lia].
    lia.
Qed.

(** A set of blocks carrying f+1 stake has an honest author. *)
Lemma honest_stamp (faulty : gset AuthorityIndex) P :
  set_stake c faulty < weight P stamps → ∃ b, b ∈ blocks ∧ ¬ (author b ∈ faulty) ∧ P (timestamp_ms b) = true.
Proof using Hnd.
  clear Hc Hval. rewrite weight_stamps. intros Hlt.
  set (l := filter (λ b, P (timestamp_ms b)) blocks) in *.
  destruct (decide (Forall (λ b, author b ∈ faulty) l)) as [Hall|Hex].
  - assert (list_to_set (author <$> l) ⊆ faulty) as Hsub.
    { intros a. rewrite elem_of_list_to_set, list_elem_of_fmap. intros (b & -> & Hb).
      rewrite Forall_forall in Hall. by apply Hall. }
    apply (set_stake_mono c) in Hsub. lia.
  - apply not_Forall_Exists in Hex; [|intros x; apply _]. apply Exists_exists in Hex as (b & Hb & Hf).
    apply list_elem_of_filter in Hb as [HP Hb]. exists b. split; [done|]. split; [done|]. by apply Is_true_true.
Qed.

(** C33 (bounds): with a quorum of parents from distinct authorities and less than f+1
    faulty stake, the median timestamp of a commit is computed without error, is the
    timestamp of one of the parents, and lies between the timestamps of two honest
    parents, so faulty authorities cannot move it outside the honest range. *)
Theorem median_timestamp_between_honest (faulty : gset AuthorityIndex) :
  blocks ≠ [] → quorum_threshold c ≤ stamps_stake → set_stake c faulty < validity_threshold c →
  ∃ m, median_timestamp_by_stake c blocks = Ok (inr m) ∧ m ∈ timestamp_ms <$> blocks ∧
    ∃ b1 b2, b1 ∈ blocks ∧ b2 ∈ blocks ∧ ¬ (author b1 ∈ faulty) ∧ ¬ (author b2 ∈ faulty) ∧
      timestamp_ms b1 ≤ m ≤ timestamp_ms b2.
Proof using Hc Hval Hnd.
  intros Hne Hq Hf. destruct (median_spec Hne Hq) as (m & Hm & Hin & Hle & Hlt).
  exists m. split; [done|]. split; [done|].
  pose proof (committee_thresholds c Hc) as (Ht1 & Ht2 & Ht3).
  destruct (half_spec stamps_stake) as (half & Hhalf & Hh1 & Hh2). rewrite Hhalf in Hle, Hlt. clear Hhalf.
  destruct (honest_stamp faulty (λ t, t <=? m)) as (b1 & Hb1 & Hf1 & Hm1).
  { lia. }
  destruct (honest_stamp faulty (λ t, negb (t <? m))) as (b2 & Hb2 & Hf2 & Hm2).
  { pose proof (weight_split (λ t, t <? m) stamps) as Hsplit. fold stamps_stake in Hsplit. lia. }
  exists b1, b2. apply N.leb_le in Hm1. apply negb_true_iff, N.ltb_ge in Hm2. done.
Qed.
End median.

(** ** Properties *)


(** The links of a concrete cache can be checked. *)
Definition linked_ledgerb (gc : Round) (L : gmap BlockRef (VerifiedBlock * bool)) : bool :=
  bool_decide (map_Forall (λ r p, ref_round r ≤ gc ∨ (NoDup (ancestors p.1) ∧
    Forall (λ a, ref_round a < ref_round r ∧ (ref_round a ≤ gc ∨ is_Some (L !! a))) (ancestors p.1))) L).

Lemma linked_ledgerb_sound gc L : linked_ledgerb gc L = true → linked_ledger gc L.
Proof.
  unfold linked_ledgerb. rewrite bool_decide_eq_true. intros Hall r b f Hb Hgc.
  destruct (Hall r (b, f) Hb) as [?|[Hnd Hp]]; [lia|]. split; [done|]. intros p Hpa.
  rewrite Forall_forall in Hp. destruct (Hp p Hpa) as [? Hin]. split; [done|]. intros ?. destruct Hin; [lia|done].
Qed.


(** The parents of a round-2 block, one of them from a faulty authority with a
    timestamp far in the future. *)
Definition skewed_parents : list VerifiedBlock :=
  [test_block 1 1 101 10 []; test_block 1 2 102 20 []; test_block 1 3 103 1000000 []].

Lemma median_timestamp_between_honest_witness :
  ∃ m, median_timestamp_by_stake committee4 skewed_parents = Ok (inr m) ∧
    m ∈ timestamp_ms <$> skewed_parents ∧
    ∃ b1 b2, b1 ∈ skewed_parents ∧ b2 ∈ skewed_parents ∧ ¬ (author b1 ∈ ({[3%nat]} : gset AuthorityIndex)) ∧
      ¬ (author b2 ∈ ({[3%nat]} : gset AuthorityIndex)) ∧ timestamp_ms b1 ≤ m ≤ timestamp_ms b2.
Proof.
  apply (median_timestamp_between_honest committee4 skewed_parents committee4_ok); [| |done|..].
  - intros b Hb. assert (Forall (λ b, (author b < committee_size committee4)%nat) skewed_parents) as Hall
      by (apply (bool_decide_unpack _); vm_compute; exact I).
    rewrite Forall_forall in Hall. by apply Hall.
  - apply (bool_decide_unpack _). vm_compute. exact I.
  - vm_compute. discriminate.
  - vm_compute. reflexivity.
Defined.

(** ** The round of the leader

    [peer3] is a block of the leader's round with a parent that the leader does not
    link; the next leader links [peer3]. *)

Definition peer3 : VerifiedBlock := test_block 3 2 302 32 (layer_ref 2 <$> [0; 1; 2; 3]%nat).
Definition common_blocks : list VerifiedBlock :=
  (layer_block 1 <$> [0; 1; 2; 3]%nat) ++ (layer_block 2 <$> [0; 1; 2; 3]%nat) ++
  [layer_block 3 1; layer_block 3 3].
Definition with_peer : outcome (DagState Inner) :=
  accept_blocks 0 fresh4 (common_blocks ++ [peer3; layer_block 4 1]).
Definition without_peer : outcome (DagState Inner) := accept_blocks 0 fresh4 common_blocks.

Definition sub_dags_differb : bool :=
  match with_peer, without_peer with
  | Ok s1, Ok s2 =>
      match collect_sub_dag_and_commit test_codec s1 (layer_block 3 1), collect_sub_dag_and_commit test_codec s2 (layer_block 3 1) with
      | Ok (_, (_, c1)), Ok (_, (_, c2)) =>
          bool_decide (reference peer3 ∈ commit_blocks (tcm_inner c1) ∧ ¬ (reference peer3 ∈ commit_blocks (tcm_inner c2)) ∧
            commit_leader (tcm_inner c1) = commit_leader (tcm_inner c2) ∧
            commit_index (tcm_inner c1) = commit_index (tcm_inner c2))
      | _, _ => false
      end
  | _, _ => false
  end.
Lemma sub_dags_differ : sub_dags_differb = true.
Proof. vm_compute. reflexivity. Qed.


Definition ancestor_left_behind : Prop :=
  match with_peer with
  | Ok s =>
      match handle_commit test_codec s [layer_block 3 1; layer_block 4 1] with
      | Ok (s', [sd1; sd2]) =>
          bool_decide (reference peer3 ∈ ancestors (layer_block 4 1) ∧ layer_ref 2 0 ∈ ancestors peer3 ∧
            gc_round s' < ref_round (layer_ref 2 0) ∧
            ¬ (layer_ref 2 0 ∈ reference <$> sd_blocks sd1) ∧ ¬ (layer_ref 2 0 ∈ reference <$> sd_blocks sd2)) = true ∧
          view s !! reference peer3 = Some peer3 ∧ is_committed s' (layer_ref 2 0) = Ok false
      | _ => False
      end
  | _ => False
  end.
Lemma ancestor_left_behind_here : ancestor_left_behind.
Proof. vm_compute. split; [reflexivity|]. split; reflexivity. Qed.

(** A block committed as part of the leader's round has its ancestors
    skipped for good: after the next leader, which reaches the ancestor through that
    block, is committed as well, the ancestor is above the GC round, in the causal
    history of the committed leader, and in neither sub-dag. *)
Theorem ancestor_of_peer_never_committed :
  ∃ s s' sd1 sd2, with_peer = Ok s ∧
    handle_commit test_codec s [layer_block 3 1; layer_block 4 1] = Ok (s', [sd1; sd2]) ∧
    causal (view s) (layer_block 4 1) (layer_ref 2 0) ∧ gc_round s' < ref_round (layer_ref 2 0) ∧
    ¬ (layer_ref 2 0 ∈ reference <$> sd_blocks sd1) ∧ ¬ (layer_ref 2 0 ∈ reference <$> sd_blocks sd2) ∧
    is_committed s' (layer_ref 2 0) = Ok false.
Proof.
  pose proof ancestor_left_behind_here as Hd. unfold ancestor_left_behind in Hd.
  destruct with_peer as [s| |]; [|destruct Hd..].
  destruct (handle_commit _ s _) as [[s' [|sd1 [|sd2 [|]]]]| |] eqn:E; try by destruct Hd.
  destruct Hd as ((Hl & Hp & ? & ? & ?)%bool_decide_eq_true & Hv & ?). exists s, s', sd1, sd2. split_and!; try done.
  by apply (causal_step _ _ (reference peer3) peer3); [apply causal_direct|..].
Qed.
