(* ===== verification/LeaderSchedule.v ===== *)
(** * The leader schedule ([core/src/leader_schedule.rs])

    A leader is drawn from the committee by stake, with the round as the seed; if its
    reputation puts it among the bad nodes it is replaced by one of the good nodes.
    The swap table is rebuilt from the scores of each window of commits.

    The random number generator is the [rand] crate: its three functions are the
    record [Rand], and what their documentation promises is [RandLaws]. *)

From S2P Require Import Prelude Collections Weighted Committee Types Fixtures Commits StakeAggregator.
From S2P Require Import ThresholdClock LeaderScoring Storage DagState DagStateSpec DagRecovery.

Local Open Scope N_scope.

(** ** Randomness *)

Abbreviation Seed := (list N) (only parsing).
Abbreviation Node := (AuthorityIndex * string * Stake)%type (only parsing).

(** [SliceRandom::shuffle], [choose] and [choose_multiple_weighted], each on a fresh
    [StdRng::from_seed]; the weight of an item is its stake as [f32]. *)
Record Rand := mkRand {
  shuffle : Seed → list (AuthorityIndex * N) → list (AuthorityIndex * N);
  choose : Seed → list Node → option Node;
  choose_multiple_weighted : Seed → list (AuthorityIndex * Stake) → nat → option (list (AuthorityIndex * Stake));
}.

(** Shuffling permutes; choosing returns an element of the slice, or none if it is
    empty; a weighted choice of as many items as there are returns all of them. *)
Record RandLaws (rng : Rand) : Prop := {
  shuffle_law seed l : shuffle rng seed l ≡ₚ l;
  choose_law seed l x : choose rng seed l = Some x → x ∈ l;
  choose_some_law seed l : l ≠ [] → is_Some (choose rng seed l);
  choose_none_law seed : choose rng seed [] = None;
  choose_weighted_law seed l :
    ∃ l', choose_multiple_weighted rng seed l (length l) = Some l' ∧ l' ≡ₚ l;
}.

(** [u32::to_le_bytes] *)
Definition to_le_bytes (n : N) : list N :=
  [n `mod` 256; (n `div` 256) `mod` 256; (n `div` 65536) `mod` 256; (n `div` 16777216) `mod` 256].

(** ** The swap table *)

Record LeaderSwapTable := mkLeaderSwapTable {
  good_nodes : list Node;
  bad_nodes : gmap AuthorityIndex (string * Stake);
  reputation_scores_desc : list (AuthorityIndex * N);
  lst_reputation_scores : ReputationScores;
}.

Definition leader_swap_table_default : LeaderSwapTable :=
  mkLeaderSwapTable [] ∅ [] reputation_scores_default.

(** The loop of [retrieve_first_nodes]; [stake] is the stake accumulated so far. *)
Fixpoint retrieve_nodes (c : Committee) (stake_threshold : N) (acc : Stake)
    (auths : list (AuthorityIndex * N)) : outcome (list Node) :=
  match auths with
  | [] => Ok []
  | (authority_idx, _) :: rest =>
      let! s := committee_stake c authority_idx in
      let acc := u64_add acc s in
      if u64_mul stake_threshold (total_stake c) `div` 100 <? acc then Ok []
      else
        let! a := authority c authority_idx in
        let! nodes := retrieve_nodes c stake_threshold acc rest in
        Ok ((authority_idx, hostname a, stake a) :: nodes)
  end.
Definition retrieve_first_nodes (c : Committee) (auths : list (AuthorityIndex * N)) (stake_threshold : N) :
    outcome (list Node) := retrieve_nodes c stake_threshold 0 auths.

(** Descending scores. *)
Definition score_desc (a1 a2 : AuthorityIndex * N) : bool := a2.2 <=? a1.2.

Definition new_inner (rng : Rand) (c : Committee) (swap_stake_threshold : N) (index : CommitIndex)
    (scores : ReputationScores) : outcome LeaderSwapTable :=
  do! rassert (swap_stake_threshold <=? 33)
    "The swap_stake_threshold should be in range [0 - 33], out of bounds parameter detected" in
  if decide (scores_per_authority scores = []) then Ok leader_swap_table_default else
  let seed_bytes := replicate 28 0 ++ to_le_bytes index in
  let! by_score := authorities_by_score c scores in
  do! rassert (length by_score =? committee_size c)%nat "assertion failed: left == right" in
  let by_score := sort_by score_desc (shuffle rng seed_bytes by_score) in
  let! good := retrieve_first_nodes c by_score swap_stake_threshold in
  let! bad := retrieve_first_nodes c (reverse by_score) swap_stake_threshold in
  let bad_nodes := list_to_map ((λ n : Node, (n.1.1, (n.1.2, n.2))) <$> bad) in
  Ok (mkLeaderSwapTable good bad_nodes by_score scores).

Definition leader_swap_table_new (rng : Rand) (ctx : Context) (index : CommitIndex)
    (scores : ReputationScores) : outcome LeaderSwapTable :=
  new_inner rng (committee ctx) (consensus_bad_nodes_stake_threshold (protocol_config ctx)) index scores.

Definition swap (rng : Rand) (t : LeaderSwapTable) (leader : AuthorityIndex) (leader_round : Round)
    (leader_offset : N) : outcome (option AuthorityIndex) :=
  match bad_nodes t !! leader with
  | Some _ =>
      do! rassert (leader_offset =? 0) "Swap for multi-leader case not implemented yet." in
      let seed_bytes := replicate 24 0 ++ to_le_bytes leader_round ++ to_le_bytes leader_offset in
      let! '(idx, _, _) := expect (choose rng seed_bytes (good_nodes t))
        "There should be at least one good node available" in
      Ok (Some idx)
  | None => Ok None
  end.

(** ** The schedule *)

Definition CONSENSUS_COMMITS_PER_SCHEDULE : N := 300.

Record LeaderSchedule := mkLeaderSchedule {
  leader_swap_table : LeaderSwapTable;
  ls_context : Context;
  num_commits_per_schedule : N;
}.

Definition leader_schedule_new (ctx : Context) (t : LeaderSwapTable) : LeaderSchedule :=
  mkLeaderSchedule t ctx CONSENSUS_COMMITS_PER_SCHEDULE.

Definition elect_leader_stake_based (rng : Rand) (ls : LeaderSchedule) (r : Round) (offset : N) :
    outcome AuthorityIndex :=
  let c := committee (ls_context ls) in
  do! rassert (N.to_nat offset <? committee_size c)%nat
    "assertion failed: (offset as usize) < self.context.committee.size()" in
  let seed_bytes := replicate 28 0 ++ to_le_bytes r in
  let choices := imap (λ i a, (i, stake a)) (authorities c) in
  let! chosen := expect (choose_multiple_weighted rng seed_bytes choices (committee_size c))
    "Weighted choice error: stake values incorrect!" in
  expect (head (drop (N.to_nat offset) (chosen.*1))) "called `Option::unwrap()` on a `None` value".

Definition elect_leader (rng : Rand) (ls : LeaderSchedule) (r : Round) (leader_offset : N) :
    outcome AuthorityIndex :=
  let! leader := elect_leader_stake_based rng ls r leader_offset in
  let! swapped := swap rng (leader_swap_table ls) leader r leader_offset in
  Ok (default leader swapped).

(** The new table must be built from the next window of commits. *)
Definition update_leader_swap_table (ls : LeaderSchedule) (t : LeaderSwapTable) : outcome LeaderSchedule :=
  let old_commit_range := scores_commit_range (lst_reputation_scores (leader_swap_table ls)) in
  let new_commit_range := scores_commit_range (lst_reputation_scores t) in
  do!
    (if decide (old_commit_range = commit_range_default) then Ok tt
     else if negb (is_next_range old_commit_range new_commit_range) then
       Panic "The new LeaderSwapTable has an invalid CommitRange."
     else
       let! same_size := is_equal_size old_commit_range new_commit_range in
       rassert same_size "The new LeaderSwapTable has an invalid CommitRange.") in
  Ok (mkLeaderSchedule t (ls_context ls) (num_commits_per_schedule ls)).

Section with_dag_state.
Context {S : Type} `{Store S} (rng : Rand).
Implicit Types s : DagState S.

Definition leader_schedule_from_store (ctx : Context) s : outcome LeaderSchedule :=
  let! info := recover_last_commit_info s in
  let! table :=
    match info with
    | None => Ok leader_swap_table_default
    | Some (last_commit_ref, last_commit_info) =>
        leader_swap_table_new rng ctx (cref_index last_commit_ref) (reputation_scores last_commit_info)
    end in
  Ok (leader_schedule_new ctx table).

Definition commits_until_leader_schedule_update (ls : LeaderSchedule) s : outcome N :=
  let! subdag_count := scoring_subdags_count s in
  do! rassert (subdag_count <=? num_commits_per_schedule ls)
    "Committed subdags count exceeds the number of commits per schedule" in
  Ok (num_commits_per_schedule ls - subdag_count).

Definition leader_schedule_updated (ls : LeaderSchedule) s : bool := is_scoring_subdag_empty s.

Definition update_leader_schedule_v2 (ls : LeaderSchedule) s : outcome (LeaderSchedule * DagState S) :=
  let! scores := calculate_scoring_subdag_scores s in
  let! last_commit_index := scoring_subdag_commit_range s in
  let s := clear_scoring_subdag s in
  let! s := add_commit_info s scores in
  let! table := leader_swap_table_new rng (ls_context ls) last_commit_index scores in
  let! ls := update_leader_swap_table ls table in
  Ok (ls, s).
End with_dag_state.

(** ** The nodes picked by stake *)

Definition node_index (n : Node) : AuthorityIndex := n.1.1.

(** The stake of a list of authorities. *)
Definition stakes (c : Committee) (l : list AuthorityIndex) : N := sumN (stake_of c <$> l).

Lemma stakes_app c l1 l2 : stakes c (l1 ++ l2) = stakes c l1 + stakes c l2.
Proof. unfold stakes. by rewrite fmap_app, sumN_app. Qed.

#[export] Instance stakes_perm c : Proper ((≡ₚ) ==> (=)) (stakes c).
Proof. intros l1 l2 Hl. unfold stakes. by rewrite Hl. Qed.

Lemma stakes_all c : committee_ok c → stakes c (seq 0 (committee_size c)) = total_stake c.
Proof.
  intros Hc. rewrite (ok_total c Hc). unfold stakes. f_equal. apply list_eq. intros i.
  rewrite !list_lookup_fmap. unfold committee_size.
  destruct (decide (i < length (authorities c))%nat) as [Hi|Hi].
  - rewrite lookup_seq_lt by done. cbn. unfold stake_of. by destruct (lookup_lt_is_Some_2 _ _ Hi) as [a ->].
  - rewrite lookup_seq_ge by lia. by rewrite (lookup_ge_None_2 (authorities c) i) by lia.
Qed.

Section retrieve.
Context (c : Committee) (threshold : N).
Hypothesis Hc : committee_ok c.
Hypothesis Hthr : threshold * total_stake c < u64_modulus.

Definition stake_limit : N := (threshold * total_stake c) `div` 100.

(** The longest prefix whose stake stays within the limit. *)
Lemma retrieve_nodes_spec auths acc :
  (∀ x, x ∈ auths → (x.1 < committee_size c)%nat) → acc + stakes c (auths.*1) ≤ total_stake c → acc ≤ stake_limit →
  ∃ nodes rest, retrieve_nodes c threshold acc auths = Ok nodes ∧
    auths.*1 = (node_index <$> nodes) ++ rest ∧
    acc + stakes c (node_index <$> nodes) ≤ stake_limit ∧
    (∀ a rest', rest = a :: rest' → stake_limit < acc + stakes c (node_index <$> nodes) + stake_of c a).
Proof using Hc Hthr.
  revert acc. induction auths as [|[a sc] auths IH]; intros acc Hin Hsum Hacc; cbn [retrieve_nodes].
  { exists [], []. split_and!; try done. cbn. lia. }
  assert (Ha : (a < committee_size c)%nat) by (apply (Hin (a, sc)); left).
  rewrite (committee_stake_valid c a Ha). cbn [obind].
  assert (stakes c ((a, sc) :: auths).*1 = stake_of c a + stakes c (auths.*1)) as Hs by done.
  pose proof (ok_bound c Hc). rewrite u64_add_small by (unfold u64_modulus; lia).
  rewrite u64_mul_small by done. fold stake_limit. destruct (N.ltb_spec stake_limit (acc + stake_of c a)) as [Hlt|Hge].
  - exists [], (((a, sc) :: auths).*1). split_and!; try done; [cbn; lia|]. intros a' rest' [= <- <-]. cbn. lia.
  - destruct (IH (acc + stake_of c a)) as (nodes & rest & -> & Heq & Hle & Hmax); [|lia|done|].
    { intros x Hx. apply Hin. by right. }
    destruct (lookup_lt_is_Some_2 (authorities c) _ Ha) as [au Hau].
    rewrite (proj2 (authority_Ok c a au) Hau). cbn [obind].
    exists ((a, hostname au, stake au) :: nodes), rest. csimpl. rewrite Heq.
    assert (∀ l, stakes c (node_index (a, hostname au, stake au) :: l) = stake_of c a + stakes c l) as Hcons by done.
    rewrite !Hcons. split_and!; try done; [lia|]. intros a' rest' Hr. specialize (Hmax a' rest' Hr). lia.
Qed.
End retrieve.

Lemma by_score_valid c scores :
  length (scores_per_authority scores) = committee_size c →
  authorities_by_score c scores = Ok (imap (λ i x, (i, x)) (scores_per_authority scores)).
Proof.
  intros Hlen. unfold authorities_by_score. rewrite (map_each_pure _ id); [by rewrite list_fmap_id|].
  intros [i x] Hin. apply elem_of_lookup_imap in Hin as (j & y & [= -> ->] & Hj). cbn.
  unfold to_authority_index. apply lookup_lt_Some in Hj. by rewrite (proj2 (Nat.ltb_lt _ _)) by lia.
Qed.

(** What a table promises: the good nodes are the best scorers and the bad nodes the
    worst ones, each up to the stake limit, with other authorities in between. *)
Record swap_table_ok (c : Committee) (threshold : N) (scores : ReputationScores) (t : LeaderSwapTable) : Prop := {
  st_scores : lst_reputation_scores t = scores;
  st_perm : reputation_scores_desc t ≡ₚ imap (λ i x, (i, x)) (scores_per_authority scores);
  st_sorted : StronglySorted score_desc (reputation_scores_desc t);
  st_split : ∃ mid bads,
    (reputation_scores_desc t).*1 = (node_index <$> good_nodes t) ++ mid ++ reverse bads ∧ mid ≠ [] ∧
    dom (bad_nodes t) = list_to_set bads ∧
    stakes c (node_index <$> good_nodes t) ≤ stake_limit c threshold ∧
    stakes c bads ≤ stake_limit c threshold ∧
    (∀ a rest, mid ++ reverse bads = a :: rest →
       stake_limit c threshold < stakes c (node_index <$> good_nodes t) + stake_of c a) ∧
    (∀ a rest, reverse mid ++ reverse (node_index <$> good_nodes t) = a :: rest →
       stake_limit c threshold < stakes c bads + stake_of c a);
}.

Lemma score_desc_sorted l : StronglySorted score_desc (sort_by score_desc l).
Proof.
  apply sort_by_sorted; intros; unfold score_desc in *; rewrite ?N.leb_le in *; lia.
Qed.

(** Two prefixes, from both ends, that together hold less than everything leave
    something in between. *)
Lemma prefixes_apart c (l p1 r1 p2 r2 : list AuthorityIndex) :
  l = p1 ++ r1 → reverse l = p2 ++ r2 → stakes c p1 + stakes c p2 < stakes c l →
  ∃ mid, mid ≠ [] ∧ r1 = mid ++ reverse p2 ∧ r2 = reverse mid ++ reverse p1.
Proof.
  intros Hl Hrev Hlt.
  assert (l = reverse r2 ++ reverse p2) as Hl2 by (by rewrite <-reverse_app, <-Hrev, reverse_involutive).
  assert (p1 ++ r1 = reverse r2 ++ reverse p2) as Happ by congruence.
  assert (stakes c (reverse p2) = stakes c p2) as Hp2 by (by rewrite reverse_Permutation).
  apply app_eq_inv in Happ as [(k & Hk1 & Hk2)|(k & Hk1 & Hk2)].
  - exfalso. rewrite Hl2, stakes_app, Hp2 in Hlt.
    assert (stakes c p1 = stakes c (reverse r2) + stakes c k) by (by rewrite Hk1, stakes_app). lia.
  - exists k. split_and!; [|done|by rewrite <-reverse_app, <-Hk1, reverse_involutive].
    intros ->. cbn in Hk2. rewrite Hl, stakes_app, Hk2, Hp2 in Hlt. lia.
Qed.

Section new_table.
Context (rng : Rand) (c : Committee) (threshold : N) (index : CommitIndex) (scores : ReputationScores).
Hypothesis Hrng : RandLaws rng.
Hypothesis Hc : committee_ok c.
Hypothesis Hbound : 33 * total_stake c < u64_modulus.
Hypothesis Hthr : threshold ≤ 33.
Hypothesis Hlen : length (scores_per_authority scores) = committee_size c.

Lemma scores_nonempty : scores_per_authority scores ≠ [].
Proof using Hc Hlen.
  clear Hrng Hbound Hthr. intros He. rewrite He in Hlen. cbn in Hlen. pose proof (stakes_all c Hc) as Hs. rewrite <-Hlen in Hs.
  pose proof (ok_positive c Hc). cbn in Hs. lia.
Qed.

Lemma desc_authorities order :
  order ≡ₚ imap (λ i x, (i, x)) (scores_per_authority scores) → order.*1 ≡ₚ seq 0 (committee_size c).
Proof using Hlen.
  clear Hrng Hc Hbound Hthr. intros ->. rewrite <-Hlen.
  assert ((imap (λ i x, (i, x)) (scores_per_authority scores)).*1 = seq 0 (length (scores_per_authority scores))) as ->; [|done].
  apply list_eq. intros i. rewrite list_lookup_fmap, list_lookup_imap.
  destruct (decide (i < length (scores_per_authority scores))%nat) as [Hi|Hi].
  - rewrite lookup_seq_lt by done. by destruct (lookup_lt_is_Some_2 _ _ Hi) as [x ->].
  - rewrite lookup_seq_ge by lia. by rewrite lookup_ge_None_2 by lia.
Qed.

Lemma stake_limit_small : 2 * stake_limit c threshold < total_stake c.
Proof using Hc Hthr.
  clear Hrng Hbound Hlen. unfold stake_limit. pose proof (ok_positive c Hc).
  pose proof (N.Div0.mul_div_le (threshold * total_stake c) 100) as Hle.
  assert (threshold * total_stake c ≤ 33 * total_stake c) by (apply N.mul_le_mono_r; lia).
  set (q := (threshold * total_stake c) `div` 100) in *. clearbody q. lia.
Qed.

Lemma new_inner_spec : ∃ t, new_inner rng c threshold index scores = Ok t ∧ swap_table_ok c threshold scores t.
Proof using Hrng Hc Hbound Hthr Hlen.
  assert (Htc : threshold * total_stake c < u64_modulus)
    by (eapply N.le_lt_trans; [apply N.mul_le_mono_r, Hthr|done]).
  unfold new_inner. rewrite rassert_true by (by apply N.leb_le). cbn [obind].
  rewrite decide_False by apply scores_nonempty. rewrite by_score_valid by done. cbn [obind].
  rewrite rassert_true by (rewrite length_imap, Hlen; apply Nat.eqb_refl). cbn [obind].
  set (order := sort_by score_desc _).
  assert (Hperm : order ≡ₚ imap (λ i x, (i, x)) (scores_per_authority scores))
    by (unfold order; rewrite sort_by_perm; apply (shuffle_law rng Hrng)).
  pose proof (desc_authorities order Hperm) as Hauth.
  assert (Hin : ∀ x, x ∈ order → (x.1 < committee_size c)%nat).
  { intros x Hx. assert (x.1 ∈ order.*1) as Hx1 by (by apply list_elem_of_fmap_2). rewrite Hauth in Hx1.
    apply elem_of_seq in Hx1. lia. }
  assert (Htotal : stakes c (order.*1) = total_stake c) by (by rewrite Hauth, stakes_all).
  destruct (retrieve_nodes_spec c threshold Hc Htc order 0) as (good & r1 & Hgood & Hs1 & Hl1 & Hm1); [done|lia|lia|].
  destruct (retrieve_nodes_spec c threshold Hc Htc (reverse order) 0) as (bad & r2 & Hbad & Hs2 & Hl2 & Hm2);
    [intros x Hx; rewrite elem_of_reverse in Hx; by apply Hin| |lia|].
  { assert (stakes c ((reverse order).*1) = total_stake c) as -> by (by rewrite reverse_Permutation). lia. }
  unfold retrieve_first_nodes. rewrite Hgood, Hbad. cbn [obind]. eexists. split; [done|].
  rewrite fmap_reverse in Hs2. pose proof stake_limit_small as Hsmall.
  destruct (prefixes_apart c (order.*1) (node_index <$> good) r1 (node_index <$> bad) r2) as (mid & Hmid & -> & ->);
    [done|done|clear -Hl1 Hl2 Hsmall Htotal; rewrite Htotal; lia|].
  split; [done|done|apply score_desc_sorted|]. exists mid, (node_index <$> bad).
  cbn [good_nodes bad_nodes reputation_scores_desc].
  split; [done|]. split; [done|]. split.
  { rewrite dom_list_to_map_L, <-list_fmap_compose. done. }
  split_and!; [lia|lia|intros a rest Hr; specialize (Hm1 a rest Hr); lia|intros a rest Hr; specialize (Hm2 a rest Hr); lia].
Qed.
End new_table.

(** No authority is both good and bad. *)
Lemma good_not_bad c threshold scores t :
  swap_table_ok c threshold scores t → length (scores_per_authority scores) = committee_size c →
  ∀ n, n ∈ good_nodes t → node_index n ∉ dom (bad_nodes t).
Proof.
  intros [_ Hperm _ (mid & bads & Hsplit & _ & -> & _)] Hlen n Hn. rewrite elem_of_list_to_set. intros Hb.
  assert (NoDup ((reputation_scores_desc t).*1)) as Hnd.
  { rewrite (desc_authorities c scores Hlen _ Hperm). apply NoDup_seq. }
  rewrite Hsplit in Hnd. apply NoDup_app in Hnd as (_ & Hdisj & _).
  apply (Hdisj (node_index n)); [by apply list_elem_of_fmap_2|]. apply elem_of_app. right. by rewrite elem_of_reverse.
Qed.

(** A swap table is built without panicking from the scores of the
    committee.  Its good nodes are the longest run of best scorers, and its bad nodes
    the longest run of worst scorers, whose stake stays within the threshold (at most
    33 percent); there is always an authority between the two, so no authority is both
    good and bad. *)
Theorem swap_table_spec (rng : Rand) (ctx : Context) (index : CommitIndex) (scores : ReputationScores) :
  RandLaws rng → committee_ok (committee ctx) → 33 * total_stake (committee ctx) < u64_modulus →
  consensus_bad_nodes_stake_threshold (protocol_config ctx) ≤ 33 →
  length (scores_per_authority scores) = committee_size (committee ctx) →
  ∃ t, leader_swap_table_new rng ctx index scores = Ok t ∧
    swap_table_ok (committee ctx) (consensus_bad_nodes_stake_threshold (protocol_config ctx)) scores t ∧
    (∀ n, n ∈ good_nodes t → node_index n ∉ dom (bad_nodes t)).
Proof.
  intros Hrng Hc Hb Hthr Hlen.
  destruct (new_inner_spec rng (committee ctx) _ index scores Hrng Hc Hb Hthr Hlen) as (t & Ht & Hok).
  exists t. split; [done|]. split; [done|]. by eapply (good_not_bad (committee ctx) _ scores).
Qed.

(** ** Elections *)

(** The leader drawn by stake is an authority of the committee. *)
Lemma stake_based_valid rng ls r offset :
  RandLaws rng → (N.to_nat offset < committee_size (committee (ls_context ls)))%nat →
  ∃ a, elect_leader_stake_based rng ls r offset = Ok a ∧ (a < committee_size (committee (ls_context ls)))%nat.
Proof.
  intros Hrng Hoff. unfold elect_leader_stake_based. rewrite rassert_true by (by apply Nat.ltb_lt). cbn [obind].
  set (c := committee (ls_context ls)) in *. set (choices := imap (λ i a, (i, stake a)) (authorities c)).
  assert (length choices = committee_size c) as Hlen by apply length_imap.
  destruct (choose_weighted_law rng Hrng (replicate 28 0 ++ to_le_bytes r) choices) as (chosen & Hch & Hperm).
  rewrite Hlen in Hch. rewrite Hch. cbn [expect obind].
  assert (length (chosen.*1) = committee_size c) as Hl by (by rewrite length_fmap, Hperm).
  destruct (lookup_lt_is_Some_2 (chosen.*1) (N.to_nat offset)) as [a Ha]; [lia|].
  exists a. rewrite head_lookup, lookup_drop, Nat.add_0_r, Ha. split; [done|].
  apply list_elem_of_lookup_2 in Ha. rewrite Hperm in Ha. unfold choices in Ha.
  apply list_elem_of_fmap in Ha as ([i s] & -> & Hin). apply elem_of_lookup_imap in Hin as (j & y & [= -> ->] & Hj).
  by apply lookup_lt_Some in Hj.
Qed.

(** A table that can replace every bad node. *)
Record can_swap (c : Committee) (t : LeaderSwapTable) : Prop := {
  cs_good n : n ∈ good_nodes t → (node_index n < committee_size c)%nat ∧ ¬ (node_index n ∈ dom (bad_nodes t));
  cs_some : good_nodes t ≠ [] ∨ bad_nodes t = ∅;
}.

Lemma can_swap_default c : can_swap c leader_swap_table_default.
Proof. split; [intros n Hn; by apply elem_of_nil in Hn|by right]. Qed.

Lemma swap_table_can_swap c threshold scores t :
  swap_table_ok c threshold scores t → length (scores_per_authority scores) = committee_size c →
  good_nodes t ≠ [] → can_swap c t.
Proof.
  intros Hok Hlen Hne. split; [|by left]. intros n Hn. split; [|by eapply good_not_bad].
  destruct Hok as [_ Hperm _ (mid & bads & Hsplit & _)].
  assert (node_index n ∈ (reputation_scores_desc t).*1) as Hin.
  { rewrite Hsplit. apply elem_of_app. left. by apply list_elem_of_fmap_2. }
  rewrite (desc_authorities c scores Hlen _ Hperm) in Hin. apply elem_of_seq in Hin. lia.
Qed.

Lemma elect_leader_valid rng ls r :
  RandLaws rng → (0 < committee_size (committee (ls_context ls)))%nat →
  can_swap (committee (ls_context ls)) (leader_swap_table ls) →
  ∃ drawn a, elect_leader_stake_based rng ls r 0 = Ok drawn ∧ elect_leader rng ls r 0 = Ok a ∧
    (a < committee_size (committee (ls_context ls)))%nat ∧ ¬ (a ∈ dom (bad_nodes (leader_swap_table ls))) ∧
    (drawn ∉ dom (bad_nodes (leader_swap_table ls)) → a = drawn) ∧
    (drawn ∈ dom (bad_nodes (leader_swap_table ls)) → a ∈ node_index <$> good_nodes (leader_swap_table ls)).
Proof.
  intros Hrng Hsize [Hgood Hsome].
  destruct (stake_based_valid rng ls r 0 Hrng Hsize) as (drawn & Hdrawn & Hd).
  exists drawn. unfold elect_leader. rewrite Hdrawn. cbn [obind]. unfold swap.
  destruct (bad_nodes (leader_swap_table ls) !! drawn) as [x|] eqn:Hbad.
  - assert (drawn ∈ dom (bad_nodes (leader_swap_table ls))) as Hin by (by apply elem_of_dom_2 in Hbad).
    destruct Hsome as [Hne|He]; [|by rewrite He in Hbad]. rewrite rassert_true by done. cbn [obind].
    set (seed := _ ++ _).
    destruct (choose_some_law rng Hrng seed _ Hne) as [[[idx h] st] Hch]. rewrite Hch. cbn.
    apply (choose_law rng Hrng) in Hch. destruct (Hgood _ Hch) as [? ?].
    exists idx. split_and!; try done. intros _. by apply (list_elem_of_fmap_2 node_index) in Hch.
  - apply not_elem_of_dom in Hbad. cbn. exists drawn. by split_and!.
Qed.

Lemma committee_nonempty c : committee_ok c → (0 < committee_size c)%nat.
Proof.
  intros Hc. pose proof (stakes_all c Hc) as Hs. pose proof (ok_positive c Hc).
  destruct (committee_size c); [cbn in Hs; lia|lia].
Qed.

(** Leaders elected with a table built from scores, one per round, with at
    least one good node: every election succeeds, the leader is an authority of the
    committee and not a bad node; it is the one drawn by stake unless that one is bad,
    in which case it is a good node. *)
Theorem elect_leader_spec (rng : Rand) (ctx : Context) (index : CommitIndex) (scores : ReputationScores)
    (t : LeaderSwapTable) (r : Round) :
  RandLaws rng → committee_ok (committee ctx) → 33 * total_stake (committee ctx) < u64_modulus →
  consensus_bad_nodes_stake_threshold (protocol_config ctx) ≤ 33 →
  length (scores_per_authority scores) = committee_size (committee ctx) →
  leader_swap_table_new rng ctx index scores = Ok t → good_nodes t ≠ [] →
  ∃ drawn a, elect_leader_stake_based rng (leader_schedule_new ctx t) r 0 = Ok drawn ∧
    elect_leader rng (leader_schedule_new ctx t) r 0 = Ok a ∧
    (a < committee_size (committee ctx))%nat ∧ ¬ (a ∈ dom (bad_nodes t)) ∧
    (drawn ∉ dom (bad_nodes t) → a = drawn) ∧
    (drawn ∈ dom (bad_nodes t) → a ∈ node_index <$> good_nodes t).
Proof.
  intros Hrng Hc Hb Hthr Hlen Ht Hne.
  destruct (new_inner_spec rng (committee ctx) _ index scores Hrng Hc Hb Hthr Hlen) as (t' & Ht' & Hok).
  assert (t' = t) as -> by (unfold leader_swap_table_new in Ht; congruence).
  apply elect_leader_valid; [done|by apply committee_nonempty|by eapply swap_table_can_swap].
Qed.

(** ** Updates *)

(** The window of commits that may follow the one of the current table. *)
Definition next_window (old new : CommitRange) : Prop :=
  old = commit_range_default ∨
  (range_hi old = range_lo new ∧ range_lo old ≤ range_hi old ∧ range_lo new ≤ range_hi new ∧
   range_hi old - range_lo old = range_hi new - range_lo new).

Lemma update_leader_swap_table_Ok ls t ls' :
  update_leader_swap_table ls t = Ok ls' ↔
  next_window (scores_commit_range (lst_reputation_scores (leader_swap_table ls)))
    (scores_commit_range (lst_reputation_scores t)) ∧
  ls' = mkLeaderSchedule t (ls_context ls) (num_commits_per_schedule ls).
Proof.
  unfold update_leader_swap_table, next_window, is_next_range, is_equal_size, range_size.
  destruct (scores_commit_range (lst_reputation_scores (leader_swap_table ls))) as [lo hi].
  destruct (scores_commit_range (lst_reputation_scores t)) as [lo' hi']. cbn.
  case_decide as Hd; [naive_solver|].
  destruct (N.eqb_spec hi lo') as [Hn|Hn]; cbn; [|naive_solver].
  destruct (N.leb_spec lo hi); cbn; [|split; [done|]; intros [[?|?] _]; [done|lia]].
  destruct (N.leb_spec lo' hi'); cbn; [|split; [done|]; intros [[?|?] _]; [done|lia]].
  destruct (N.eqb_spec (hi - lo) (hi' - lo')); cbn; naive_solver.
Qed.

(** Scores are computed for votes of the committee. *)
Lemma distributed_votes_scores_total c ss :
  (∀ v agg, ss_votes ss !! v = Some agg → (ref_author v < committee_size c)%nat) →
  ∃ scores, distributed_votes_scores c ss = Ok scores ∧ length scores = committee_size c.
Proof.
  intros Hv. unfold distributed_votes_scores. apply for_each_total; [apply length_replicate|].
  intros l [v agg] Hin Hl. apply elem_of_btree_iter in Hin. specialize (Hv v agg Hin). unfold add_score. cbn.
  destruct (lookup_lt_is_Some_2 l (ref_author v)) as [x Hx]; [lia|].
  unfold vec_get, vec_set. rewrite Hx. cbn. rewrite decide_True by lia. eexists. split; [done|]. by rewrite length_insert.
Qed.

(** At the end of a window of commits the schedule is updated without
    panicking.  The table is rebuilt from the scores of the window, the scores are
    buffered with the last commit, and scoring starts again from an empty window of
    full length.  A validator that restarts from the buffered scores recovers the very
    table, and so elects the same leaders. *)
Theorem update_leader_schedule_spec {S : Type} `{Store S} (rng : Rand) (ls : LeaderSchedule) (s : DagState S)
    (lc : TrustedCommit) (window : CommitRange) :
  RandLaws rng → committee_ok (committee (ds_context s)) → 33 * total_stake (committee (ds_context s)) < u64_modulus →
  ls_context ls = ds_context s → consensus_bad_nodes_stake_threshold (protocol_config (ds_context s)) ≤ 33 →
  last_commit s = Some lc → commit_index (tcm_inner lc) = range_end window →
  ss_commit_range (scoring_subdag s) = Some window →
  (∀ v agg, ss_votes (scoring_subdag s) !! v = Some agg →
     (ref_author v < committee_size (committee (ds_context s)))%nat) →
  next_window (scores_commit_range (lst_reputation_scores (leader_swap_table ls))) window →
  ∃ ls' s' scores, update_leader_schedule_v2 rng ls s = Ok (ls', s') ∧
    calculate_scoring_subdag_scores s = Ok scores ∧
    swap_table_ok (committee (ds_context s)) (consensus_bad_nodes_stake_threshold (protocol_config (ds_context s)))
      scores (leader_swap_table ls') ∧
    commit_info_to_write s' =
      commit_info_to_write s ++ [(commit_reference lc, mkCommitInfo (last_committed_rounds s) scores)] ∧
    leader_schedule_updated ls' s' = true ∧
    commits_until_leader_schedule_update ls' s' = Ok (num_commits_per_schedule ls) ∧
    (∀ s'', recover_last_commit_info s'' =
              Ok (Some (commit_reference lc, mkCommitInfo (last_committed_rounds s) scores)) →
       leader_schedule_from_store rng (ds_context s) s'' =
         Ok (leader_schedule_new (ds_context s) (leader_swap_table ls'))).
Proof.
  intros Hrng Hc Hb Hctx Hthr Hlc Hidx Hwin Hvotes Hnext.
  destruct (distributed_votes_scores_total _ _ Hvotes) as (scs & Hscs & Hlen).
  assert (Hcalc : calculate_scoring_subdag_scores s = Ok (mkReputationScores scs window)).
  { unfold calculate_scoring_subdag_scores, calculate_distributed_vote_scores. by rewrite Hscs, Hwin. }
  destruct (new_inner_spec rng (committee (ds_context s)) _ (range_end window) (mkReputationScores scs window)
    Hrng Hc Hb Hthr Hlen) as (t & Ht & Hok).
  unfold update_leader_schedule_v2. rewrite Hcalc. cbn [obind].
  unfold scoring_subdag_commit_range. rewrite Hwin. cbn [expect omap_ok obind].
  unfold add_commit_info, clear_scoring_subdag. cbn [scoring_subdag set_scoring_subdag last_commit].
  rewrite rassert_true by done. cbn [obind]. rewrite Hlc. cbn [expect obind].
  unfold leader_swap_table_new. rewrite Hctx, Ht. cbn [obind].
  rewrite (proj2 (update_leader_swap_table_Ok ls t _)) by (split; [by rewrite (st_scores _ _ _ _ Hok)|done]).
  cbn [obind]. do 3 eexists. split; [done|]. split; [done|]. split; [done|]. split; [done|]. split; [done|]. split.
  { unfold commits_until_leader_schedule_update, scoring_subdags_count. cbn [scoring_subdag set_buffers set_scoring_subdag].
    change (scored_subdags_count (scoring_subdag_clear (scoring_subdag s))) with (Ok 0). cbn [obind].
    rewrite rassert_true by (apply N.leb_le; lia). cbn [obind]. by rewrite N.sub_0_r. }
  intros s'' Hrec. unfold leader_schedule_from_store. rewrite Hrec. cbn [obind].
  unfold leader_swap_table_new. cbn [commit_reference cref_index reputation_scores].
  by rewrite Hidx, Ht.
Qed.

(** ** A concrete generator and its elections *)

(** A generator that never changes the order and chooses the first element. *)
Definition first_rand : Rand :=
  mkRand (λ _ l, l) (λ _ l, head l) (λ _ l n, Some (take n l)).

Lemma first_rand_laws : RandLaws first_rand.
Proof.
  split; cbn; try done.
  - intros _ l x Hx. destruct l; [done|]. injection Hx as ->. left.
  - intros _ [|x l]; done.
  - intros _ l. exists l. by rewrite firstn_all.
Qed.

Definition scores4 : ReputationScores := mkReputationScores [5; 9; 2; 7] (commit_range_new 1 300).

(** Four authorities of equal stake tolerate one good and one bad node. *)
Lemma swap_table_spec_witness :
  ∃ t, leader_swap_table_new first_rand context4 300 scores4 = Ok t ∧
    swap_table_ok committee4 30 scores4 t ∧ (∀ n, n ∈ good_nodes t → node_index n ∉ dom (bad_nodes t)).
Proof.
  apply (swap_table_spec first_rand context4 300 scores4);
    [apply first_rand_laws|apply committee4_ok|vm_compute; reflexivity|vm_compute; discriminate|reflexivity].
Defined.

Definition table4 : LeaderSwapTable :=
  of_outcome (leader_swap_table_new first_rand context4 300 scores4) leader_swap_table_default.

Lemma elect_leader_spec_witness :
  ∃ drawn a, elect_leader_stake_based first_rand (leader_schedule_new context4 table4) 5 0 = Ok drawn ∧
    elect_leader first_rand (leader_schedule_new context4 table4) 5 0 = Ok a ∧
    (a < committee_size committee4)%nat ∧ ¬ (a ∈ dom (bad_nodes table4)) ∧
    (drawn ∉ dom (bad_nodes table4) → a = drawn) ∧
    (drawn ∈ dom (bad_nodes table4) → a ∈ node_index <$> good_nodes table4).
Proof.
  apply (elect_leader_spec first_rand context4 300 scores4 table4 5);
    [apply first_rand_laws|apply committee4_ok|vm_compute; reflexivity|vm_compute; discriminate|reflexivity
    |vm_compute; reflexivity|vm_compute; discriminate].
Defined.

(** A window of one commit: the leader of round 1 is committed and scored. *)
Definition leader_subdag4 : CommittedSubDag :=
  committed_sub_dag_new (reference (round1 1)) [round1 1] 11 (commit_reference leader_commit4).
Definition scored4 : DagState Inner :=
  of_outcome (let! s := add_commit grown4 leader_commit4 in add_scoring_subdags s [leader_subdag4])
    (empty_dag context4).
Definition schedule4 : LeaderSchedule := mkLeaderSchedule leader_swap_table_default context4 1.
Definition window1 : CommitRange := commit_range_new 1 1.

Lemma update_leader_schedule_spec_witness :
  ∃ ls' s' scores, update_leader_schedule_v2 first_rand schedule4 scored4 = Ok (ls', s') ∧
    calculate_scoring_subdag_scores scored4 = Ok scores ∧
    swap_table_ok (committee (ds_context scored4))
      (consensus_bad_nodes_stake_threshold (protocol_config (ds_context scored4))) scores (leader_swap_table ls') ∧
    commit_info_to_write s' = commit_info_to_write scored4 ++
      [(commit_reference leader_commit4, mkCommitInfo (last_committed_rounds scored4) scores)] ∧
    leader_schedule_updated ls' s' = true ∧
    commits_until_leader_schedule_update ls' s' = Ok (num_commits_per_schedule schedule4) ∧
    (∀ s'' : DagState Inner, recover_last_commit_info s'' =
        Ok (Some (commit_reference leader_commit4, mkCommitInfo (last_committed_rounds scored4) scores)) →
      leader_schedule_from_store first_rand (ds_context scored4) s'' =
        Ok (leader_schedule_new (ds_context scored4) (leader_swap_table ls'))).
Proof.
  assert (ds_context scored4 = context4) as Hctx by (vm_compute; reflexivity).
  apply (update_leader_schedule_spec first_rand schedule4 scored4 leader_commit4 window1);
    rewrite ?Hctx; [apply first_rand_laws|apply committee4_ok|vm_compute; reflexivity|reflexivity
    |vm_compute; discriminate|vm_compute; reflexivity|vm_compute; reflexivity|vm_compute; reflexivity| |by left].
  intros v agg Hv.
  assert (map_Forall (λ v _, (ref_author v < 4)%nat) (ss_votes (scoring_subdag scored4))) as Hall
    by (apply (bool_decide_unpack _); vm_compute; exact I).
  by apply (Hall v agg).
Defined.

(** ** A heavy best scorer

    One authority holds 40 of 100 stake, above the 33 percent limit. *)

Definition committee_40 : Committee := test_committee [40; 20; 20; 20].
Definition context_40 : Context := context_of committee_40.
Definition scores_40 : ReputationScores := mkReputationScores [9; 5; 4; 3] (commit_range_new 1 300).

(** When the best scorer alone exceeds the stake limit, the table has a bad
    node but no good node, so that any election that draws the bad node panics: the
    node is authority 3, and every round whose draw starts with it has no leader. *)
Theorem elect_without_good_node_panics (rng : Rand) (index : CommitIndex) :
  RandLaws rng →
  ∃ t, leader_swap_table_new rng context_40 index scores_40 = Ok t ∧ good_nodes t = [] ∧
    dom (bad_nodes t) = {[3%nat]} ∧
    ∀ r, elect_leader_stake_based rng (leader_schedule_new context_40 t) r 0 = Ok 3%nat →
      elect_leader rng (leader_schedule_new context_40 t) r 0 =
        Panic "There should be at least one good node available".
Proof.
  intros Hrng. set (order := [(0%nat, 9); (1%nat, 5); (2%nat, 4); (3%nat, 3)] : list (AuthorityIndex * N)).
  assert (Hsort : ∀ l, l ≡ₚ order → sort_by score_desc l = order).
  { intros l Hl. apply (StronglySorted_unique_strong score_desc).
    - intros x y Hx Hy Hxy Hyx. rewrite sort_by_perm, Hl in Hx. unfold order in Hy.
      repeat (apply elem_of_cons in Hx as [->|Hx]); try (by apply elem_of_nil in Hx);
      repeat (apply elem_of_cons in Hy as [->|Hy]); try (by apply elem_of_nil in Hy); done.
    - apply score_desc_sorted.
    - repeat constructor.
    - by rewrite sort_by_perm. }
  unfold leader_swap_table_new, new_inner. rewrite rassert_true by reflexivity. cbn [obind].
  rewrite decide_False by done. rewrite by_score_valid by reflexivity. cbn [obind].
  rewrite rassert_true by reflexivity. cbn [obind]. rewrite Hsort by apply (shuffle_law rng Hrng).
  eexists. split; [vm_compute; reflexivity|]. split; [done|]. split; [vm_compute; reflexivity|].
  intros r Hdraw. unfold elect_leader. rewrite Hdraw. cbn [obind]. unfold swap.
  set (seed := _ ++ _). cbn -[seed]. by rewrite (choose_none_law rng Hrng).
Qed.

(** The draw of authority 3 by a generator that reverses the order. *)
Definition last_rand : Rand :=
  mkRand (λ _ l, l) (λ _ l, head l) (λ _ l n, Some (reverse (take n l))).

Lemma last_rand_laws : RandLaws last_rand.
Proof.
  split; cbn; try done.
  - intros _ l x Hx. destruct l; [done|]. injection Hx as ->. left.
  - intros _ [|x l]; done.
  - intros _ l. exists (reverse l). rewrite firstn_all. split; [done|]. apply reverse_Permutation.
Qed.

Lemma elect_without_good_node_panics_witness :
  ∃ t, leader_swap_table_new last_rand context_40 300 scores_40 = Ok t ∧ good_nodes t = [] ∧
    dom (bad_nodes t) = {[3%nat]} ∧
    ∀ r, elect_leader_stake_based last_rand (leader_schedule_new context_40 t) r 0 = Ok 3%nat →
      elect_leader last_rand (leader_schedule_new context_40 t) r 0 =
        Panic "There should be at least one good node available".
Proof.
  apply (elect_without_good_node_panics last_rand 300 last_rand_laws).
Defined.

Example elect_round5_panics :
  obind (leader_swap_table_new last_rand context_40 300 scores_40)
    (λ t, elect_leader last_rand (leader_schedule_new context_40 t) 5 0) =
  Panic "There should be at least one good node available".
Proof. vm_compute. reflexivity. Qed.
