(* ===== verification/UniversalCommitter.v ===== *)
(** * The universal committer ([core/src/universal_committer.rs])

    A sequence of base committers, one per pipeline stage and leader offset, decides
    the leader slots from the highest round down; the decided sequence is the longest
    decided prefix, from the lowest slot up.  The theorems: the committer always
    returns, its sequence follows the schedule of slots without a gap, and the
    sequences of two validators are prefixes of one another. *)

From S2P Require Import Prelude Collections Weighted Committee Types Fixtures Commits StakeAggregator.
From S2P Require Import ThresholdClock LeaderScoring Storage DagState DagStateSpec DagTraversal.
From S2P Require Import DagRecovery BaseCommitter CommitSafety LeaderSchedule.

Local Open Scope N_scope.

(** ** The builder *)

Record UniversalCommitterBuilder := mkUniversalCommitterBuilder {
  ub_wave_length : Round;
  ub_number_of_leaders : nat;
  ub_pipeline : bool;
}.

Definition builder_new : UniversalCommitterBuilder :=
  mkUniversalCommitterBuilder DEFAULT_WAVE_LENGTH 1 false.
Definition with_wave_length (b : UniversalCommitterBuilder) (w : Round) : UniversalCommitterBuilder :=
  mkUniversalCommitterBuilder w (ub_number_of_leaders b) (ub_pipeline b).
Definition with_number_of_leaders (b : UniversalCommitterBuilder) (n : nat) : UniversalCommitterBuilder :=
  mkUniversalCommitterBuilder (ub_wave_length b) n (ub_pipeline b).
Definition with_pipeline (b : UniversalCommitterBuilder) (p : bool) : UniversalCommitterBuilder :=
  mkUniversalCommitterBuilder (ub_wave_length b) (ub_number_of_leaders b) p.

(** The options of the committers; [leader_offset as Round] truncates. *)
Definition build (b : UniversalCommitterBuilder) : list BaseCommitterOptions :=
  let pipeline_stages := if ub_pipeline b then N.to_nat (ub_wave_length b) else 1%nat in
  round_offset ← seq 0 pipeline_stages;
  (λ leader_offset, mkBaseCommitterOptions (ub_wave_length b)
     (N.of_nat leader_offset `mod` u32_modulus) (N.of_nat round_offset))
    <$> seq 0 (ub_number_of_leaders b).

(** ** Deciding a sequence of leaders *)

(** [lo..=hi] *)
Definition round_range (lo hi : Round) : list Round :=
  (λ i, lo + N.of_nat i) <$> seq 0 (N.to_nat (hi + 1 - lo)).

Section universal_committer.
Context {D : Type} `{DagReader D}.
Context (fuel : nat) (elect : Round → N → outcome AuthorityIndex).
Context (committers : list BaseCommitterOptions).
Implicit Types d : D.

(** One slot: directly, or indirectly from the statuses of the later leaders. *)
Definition decide_slot d (o : BaseCommitterOptions) (slot : Slot)
    (leaders : list (LeaderStatus * Decision)) : outcome (LeaderStatus * Decision) :=
  let! status := try_direct_decide o d slot in
  if is_decided status then Ok (status, Direct)
  else
    let! status := try_indirect_decide fuel o d slot (leaders.*1) in
    Ok (status, Indirect).

(** The inner loop, over the committers of one round; [true] is [break 'outer]. *)
Fixpoint decide_round d (last_decided : Slot) (r : Round) (cs : list BaseCommitterOptions)
    (leaders : list (LeaderStatus * Decision)) : outcome (bool * list (LeaderStatus * Decision)) :=
  match cs with
  | [] => Ok (false, leaders)
  | o :: cs' =>
      let! elected := base_elect_leader o elect r in
      match elected with
      | None => decide_round d last_decided r cs' leaders
      | Some slot =>
          if decide (slot = last_decided) then Ok (true, leaders)
          else
            let! leader := decide_slot d o slot leaders in
            decide_round d last_decided r cs' (leader :: leaders)
      end
  end.

Fixpoint decide_rounds d (last_decided : Slot) (rounds : list Round)
    (leaders : list (LeaderStatus * Decision)) : outcome (list (LeaderStatus * Decision)) :=
  match rounds with
  | [] => Ok leaders
  | r :: rounds' =>
      let! '(stop, leaders) := decide_round d last_decided r (reverse committers) leaders in
      if (stop : bool) then Ok leaders else decide_rounds d last_decided rounds' leaders
  end.

(** The longest prefix of decided leaders; [update_metrics] reads the hostname of the
    leader. *)
Fixpoint decided_sequence (c : Committee) (leaders : list (LeaderStatus * Decision)) :
    outcome (list DecidedLeader) :=
  match leaders with
  | [] => Ok []
  | (leader, decision) :: rest =>
      if leader_status_round leader =? GENESIS_ROUND then decided_sequence c rest
      else
        match into_decided_leader leader (bool_decide (decision = Direct)) with
        | None => Ok []
        | Some decided_leader =>
            do! authority c (slot_authority (decided_slot decided_leader)) in
            let! decided := decided_sequence c rest in
            Ok (decided_leader :: decided)
        end
  end.

Definition first_round (p : ProtocolConfig) (last_decided : Slot) : Round :=
  match mysticeti_num_leaders_per_round p with
  | Some 1%nat => u32_add (slot_round last_decided) 1
  | _ => slot_round last_decided
  end.

Definition try_decide (p : ProtocolConfig) d (last_decided : Slot) : outcome (list DecidedLeader) :=
  let last_round := first_round p last_decided in
  let! leaders := decide_rounds d last_decided
    (reverse (round_range last_round (saturating_sub (dr_highest_accepted_round d) 2))) [] in
  decided_sequence (dr_committee d) leaders.

Definition get_leaders (r : Round) : outcome (list AuthorityIndex) :=
  let! slots := map_each (λ o, base_elect_leader o elect r) committers in
  Ok (slot_authority <$> omap id slots).
End universal_committer.

(** ** The slots of a schedule *)

Definition status_slot (st : LeaderStatus) : Slot :=
  match st with
  | LeaderCommit b => slot_from (reference b)
  | LeaderSkip s => s
  | LeaderUndecided s => s
  end.

Lemma status_slot_round st : slot_round (status_slot st) = leader_status_round st.
Proof. by destruct st. Qed.

Lemma elem_of_round_range lo hi r : r ∈ round_range lo hi ↔ lo ≤ r ≤ hi.
Proof.
  unfold round_range. rewrite list_elem_of_fmap. setoid_rewrite elem_of_seq. split.
  - intros (i & -> & ?). lia.
  - intros ?. exists (N.to_nat (r - lo)). lia.
Qed.

(** The rounds of a longer range are read first. *)
Lemma reverse_round_range lo mid hi :
  lo ≤ mid + 1 → mid ≤ hi →
  reverse (round_range lo hi) = reverse (round_range (mid + 1) hi) ++ reverse (round_range lo mid).
Proof.
  intros Hlo Hhi. rewrite <-reverse_app. f_equal. unfold round_range.
  replace (N.to_nat (hi + 1 - lo)) with (N.to_nat (mid + 1 - lo) + N.to_nat (hi + 1 - (mid + 1)))%nat by lia.
  rewrite seq_app, fmap_app. f_equal. rewrite Nat.add_comm, <-fmap_add_seq.
  rewrite <-list_fmap_compose. apply list_fmap_ext. intros i x _. cbn. lia.
Qed.

(** ** The statuses one validator computes *)

(** Leaders are elected from the committee. *)
Definition electable (c : Committee) (elect : Round → N → outcome AuthorityIndex)
    (committers : list BaseCommitterOptions) : Prop :=
  ∀ o r, o ∈ committers → ∃ a, elect r (leader_offset o) = Ok a ∧ (a < committee_size c)%nat.

(** The leader schedule provides such an election for one leader per round. *)
Lemma schedule_electable rng ls b :
  RandLaws rng → committee_ok (committee (ls_context ls)) →
  can_swap (committee (ls_context ls)) (leader_swap_table ls) → ub_number_of_leaders b = 1%nat →
  electable (committee (ls_context ls)) (elect_leader rng ls) (build b).
Proof.
  intros Hrng Hc Hswap Hn o r. unfold build. rewrite Hn, list_elem_of_bind.
  intros (i & (j & -> & Hj%elem_of_seq)%list_elem_of_fmap & _). replace j with 0%nat by lia.
  destruct (elect_leader_valid rng ls r Hrng (committee_nonempty _ Hc) Hswap) as (_ & a & _ & ? & ? & _).
  by exists a.
Qed.

(** The DAG can be read from the first undecided round on. *)
Record ready {D : Type} `{DagReader D, !DagReaderLaws D} (p : ProtocolConfig) (d : D) (last_decided : Slot) :
    Prop := {
  rd_last : slot_round last_decided < u32_max;
  rd_gc : dr_gc_round d < first_round p last_decided;
  rd_open r : first_round p last_decided < r → r ≤ dr_highest_accepted_round d → dr_open d r;
  rd_bound : dr_highest_accepted_round d < u32_max;
}.

Lemma first_round_ge p last : slot_round last < u32_max → slot_round last ≤ first_round p last.
Proof.
  intros Hlt. unfold first_round. destruct (mysticeti_num_leaders_per_round p) as [[|[|n]]|]; try lia.
  machine_lia.
Qed.

Section one_validator.
Context {D : Type} `{DagReader D, !DagReaderLaws D} (d : D).

(** A status of the slot, whose block the validator has. *)
Definition status_ok (slot : Slot) (st : LeaderStatus) : Prop :=
  status_slot st = slot ∧
  match st with LeaderCommit b => dr_view d !! reference b = Some b | _ => True end.

Lemma status_ok_last f slot (sup : list VerifiedBlock) st :
  dr_ok d → filter_each f (dr_blocks_at_slot d slot) = Ok sup → status_slot st = slot →
  (∀ b, st ≠ LeaderCommit b) → status_ok slot (from_option LeaderCommit st (last sup)).
Proof.
  intros Hok Hsup Hst Hno. destruct (last sup) as [b|] eqn:Hl; cbn.
  - assert (b ∈ sup) as Hb by (apply last_Some in Hl as [? ->]; set_solver).
    apply (filter_each_elem _ _ _ _ Hsup) in Hb as [Hb _].
    by destruct (dr_slot_law d slot b Hok Hb) as [? <-].
  - split; [done|]. destruct st as [b| |]; [by destruct (Hno b)|done..].
Qed.

Lemma direct_status o slot st : dr_ok d → try_direct_decide o d slot = Ok st → status_ok slot st.
Proof.
  intros Hok. unfold try_direct_decide. rewrite bind_Ok. intros (blamed & _ & Hrun).
  destruct blamed; [by injection Hrun as <-|]. apply bind_Ok in Hrun as (sup & Hsup & Hrun).
  destruct (1 <? length sup)%nat; [done|]. injection Hrun as <-. by eapply status_ok_last.
Qed.

Lemma anchor_status fuel o x slot st :
  dr_ok d → decide_leader_from_anchor fuel o d x slot = Ok st → status_ok slot st.
Proof.
  intros Hok. unfold decide_leader_from_anchor. rewrite bind_Ok.
  intros (pcs & _ & (sup & Hsup & Hrun)%bind_Ok).
  destruct (1 <? length sup)%nat; [done|]. injection Hrun as <-. by eapply status_ok_last.
Qed.

(** The indirect rule decides from the first later leader that is not skipped. *)
Definition anchored (l : list LeaderStatus) (x : VerifiedBlock) : Prop :=
  ∃ pre post, l = pre ++ LeaderCommit x :: post ∧ Forall (λ st, ∃ s, st = LeaderSkip s) pre.

Lemma scan_anchors_inv fuel o slot l :
  scan_anchors fuel o d slot l = Ok (LeaderUndecided slot) ∨
  ∃ x, anchored l x ∧ scan_anchors fuel o d slot l = decide_leader_from_anchor fuel o d x slot.
Proof.
  induction l as [|[x|s|s] l IH]; cbn [scan_anchors]; [by left| | |by left].
  - right. exists x. split; [by exists [], l|done].
  - destruct IH as [->|(x & (pre & post & -> & Hpre) & ->)]; [by left|]. right. exists x. split; [|done].
    exists (LeaderSkip s :: pre), post. split; [done|]. constructor; [by exists s|done].
Qed.
End one_validator.

(** ** Built committers *)

Definition stage_ok (o : BaseCommitterOptions) : Prop :=
  wave_length o = DEFAULT_WAVE_LENGTH ∧ round_offset o < DEFAULT_WAVE_LENGTH.

Lemma build_stage_ok b : ub_wave_length b = DEFAULT_WAVE_LENGTH → Forall stage_ok (build b).
Proof.
  intros Hw. apply Forall_forall. intros o. unfold build. rewrite Hw. rewrite list_elem_of_bind.
  intros (i & (j & -> & _)%list_elem_of_fmap & Hi%elem_of_seq). split; [done|]. cbn.
  destruct (ub_pipeline b); unfold DEFAULT_WAVE_LENGTH in *; lia.
Qed.

Lemma elected_slot elect o r slot :
  stage_ok o → r + 3 < u32_modulus → base_elect_leader o elect r = Ok (Some slot) →
  slot_round slot = r ∧ wave_ok o r ∧ elect r (leader_offset o) = Ok (slot_authority slot).
Proof.
  intros [Hw Ho] Hb. unfold base_elect_leader.
  destruct (N.eqb_spec (leader_round o (wave_number o r)) r) as [Hl|]; [cbn [negb]|done].
  rewrite bind_Ok. intros (a & Ha & [= <-]). split; [done|]. split; [|done]. split; try done.
  apply N.le_ngt. intros Hlt. revert Hl. unfold leader_round, wave_number, saturating_sub.
  rewrite (proj2 (N.sub_0_le r (round_offset o))) by lia. rewrite Hw. unfold DEFAULT_WAVE_LENGTH in *.
  rewrite N.Div0.div_0_l. machine_lia.
Qed.

(** ** One slot *)

Section slots.
Context (c : Committee) (faulty : gset AuthorityIndex) (G : gmap BlockRef VerifiedBlock).
Hypothesis HG : world c faulty G.

(** The blocks of the committed leaders are known, and all leaders are of the
    committee. *)
Definition leaders_ok {D : Type} `{DagReader D, !DagReaderLaws D} (d : D) (l : list LeaderStatus) : Prop :=
  Forall (λ st, status_ok d (status_slot st) st ∧ (slot_authority (status_slot st) < committee_size c)%nat) l.

Section one_slot.
Context {D : Type} `{DagReader D, !DagReaderLaws D} (d : D) (fuel : nat).
Context (o : BaseCommitterOptions) (slot : Slot) (l : list (LeaderStatus * Decision)).
Hypothesis Hd : sees c G d.
Hypothesis Hfuel : (size (dr_view d) < fuel)%nat.
Hypothesis Hwave : wave_ok o (slot_round slot).
Hypothesis Hgc : dr_gc_round d < slot_round slot.
Hypothesis Hl : leaders_ok d (l.*1).

(** The statuses that can anchor the slot. *)
Definition later_leaders (l : list LeaderStatus) : list LeaderStatus :=
  filter (λ x, slot_round slot + 3 <=? leader_status_round x) l.

Lemma indirect_later : try_indirect_decide fuel o d slot (l.*1) = scan_anchors fuel o d slot (later_leaders (l.*1)).
Proof using Hwave.
  unfold try_indirect_decide, later_leaders.
  by rewrite (wk_length _ _ Hwave), (u32_add_small _ DEFAULT_WAVE_LENGTH) by apply (wk_bound _ _ Hwave).
Qed.

Lemma anchored_later x :
  anchored (later_leaders (l.*1)) x → dr_view d !! reference x = Some x ∧ slot_round slot + 3 ≤ round x.
Proof using Hl.
  clear HG Hd Hfuel Hwave Hgc. intros (pre & post & Heq & _).
  assert (LeaderCommit x ∈ later_leaders (l.*1)) as Hx by (rewrite Heq; set_solver).
  apply list_elem_of_filter in Hx as [Hr%Is_true_true%N.leb_le Hx]. split; [|done].
  unfold leaders_ok in Hl. rewrite Forall_forall in Hl. by destruct (Hl _ Hx) as [[_ ?] _].
Qed.

Lemma decide_slot_total :
  dr_open d (slot_round slot + 1) → dr_open d (slot_round slot + 2) →
  ∃ p, decide_slot fuel d o slot l = Ok p ∧ status_ok d slot p.1.
Proof using HG Hd Hfuel Hwave Hgc Hl.
  intros Ho1 Ho2. unfold decide_slot.
  destruct (try_direct_decide_total c faulty G o slot HG Hwave d Hd Hgc Ho1 Ho2) as [st Hst].
  rewrite Hst. cbn [obind]. destruct (is_decided st).
  { exists (st, Direct). split; [done|]. by eapply direct_status, Hst; apply Hd. }
  rewrite indirect_later. destruct (scan_anchors_inv d fuel o slot (later_leaders (l.*1))) as [->|(x & Hx & ->)].
  { by eexists. }
  destruct (anchored_later x Hx) as [Hv Hr].
  destruct (decide_from_anchor_spec c faulty G o slot HG Hwave d Hd Hgc fuel x Hv Hfuel) as (st' & Hst' & _).
  rewrite Hst'. exists (st', Indirect). split; [done|]. eapply anchor_status, Hst'. apply Hd.
Qed.

(** A decided slot was decided directly or from its anchor. *)
Lemma decide_slot_inv p :
  decide_slot fuel d o slot l = Ok p → is_decided p.1 = true →
  try_direct_decide o d slot = Ok p.1 ∨
  ∃ x, anchored (later_leaders (l.*1)) x ∧ G !! reference x = Some x ∧ slot_round slot + 3 ≤ round x ∧
    anchor_outcome c G slot x p.1.
Proof using HG Hd Hfuel Hwave Hgc Hl.
  unfold decide_slot. rewrite bind_Ok. intros (st & Hst & Hrun). destruct (is_decided st) eqn:Hdec.
  { injection Hrun as <-. by left. }
  apply bind_Ok in Hrun as (st' & Hst' & [= <-]). intros Hdec'. right. rewrite indirect_later in Hst'.
  destruct (scan_anchors_inv d fuel o slot (later_leaders (l.*1))) as [Heq|(x & Hx & Heq)]; rewrite Heq in Hst'.
  { injection Hst' as <-. done. }
  destruct (anchored_later x Hx) as [Hv Hr]. exists x. split; [done|].
  split; [by eapply lookup_weaken, s_sub|]. split; [done|].
  destruct (decide_from_anchor_spec c faulty G o slot HG Hwave d Hd Hgc fuel x Hv Hfuel) as (st2 & Hst2 & ?).
  rewrite Hst' in Hst2. by injection Hst2 as ->.
Qed.
End one_slot.

(** ** Two validators *)

(** Statuses of the same slot that do not contradict each other. *)
Definition agree (st1 st2 : LeaderStatus) : Prop :=
  status_slot st1 = status_slot st2 ∧ (is_decided st1 = true → is_decided st2 = true → st1 = st2).

(** [l2] starts with statuses that agree with [l1]. *)
Definition agree_prefix (l1 l2 : list LeaderStatus) : Prop :=
  ∃ a l, l2 = a ++ l ∧ Forall2 agree l1 a.

Lemma agree_prefix_nil l : agree_prefix [] l.
Proof using Type. exists [], l. by split. Qed.

Lemma agree_prefix_cons st1 st2 l1 l2 :
  agree_prefix (st1 :: l1) (st2 :: l2) ↔ agree st1 st2 ∧ agree_prefix l1 l2.
Proof using Type.
  split.
  - intros (a & l & Heq & Hall). inversion Hall as [|? ? ? a' Hst Ha]; subst. cbn in Heq.
    injection Heq as -> ->. split; [done|]. by exists a', l.
  - intros [Hst (a & l & -> & Hall)]. exists (st2 :: a), l. split; [done|]. by constructor.
Qed.

Lemma agree_prefix_cons_inv st1 l1 l2 :
  agree_prefix (st1 :: l1) l2 → ∃ st2 l2', l2 = st2 :: l2' ∧ agree st1 st2 ∧ agree_prefix l1 l2'.
Proof using Type.
  intros (a & l & -> & Hall). inversion Hall as [|? st2 ? a' Hst Ha]; subst.
  exists st2, (a' ++ l). split; [done|]. split; [done|]. by exists a', l.
Qed.

Lemma agree_prefix_later slot l1 l2 :
  agree_prefix l1 l2 → agree_prefix (later_leaders slot l1) (later_leaders slot l2).
Proof using Type.
  revert l2. induction l1 as [|st1 l1 IH]; intros l2; [intros _; apply agree_prefix_nil|].
  intros (st2 & l2' & -> & Hst & Hl%IH)%agree_prefix_cons_inv. unfold later_leaders in *. rewrite !filter_cons.
  assert (leader_status_round st1 = leader_status_round st2) as ->
    by (rewrite <-!status_slot_round; f_equal; apply Hst).
  case_decide; [|done]. by apply agree_prefix_cons.
Qed.

(** Both validators find the same anchor. *)
Lemma anchors_agree l1 l2 x1 x2 :
  agree_prefix l1 l2 → anchored l1 x1 → anchored l2 x2 → x1 = x2.
Proof using Type.
  intros Hl (pre1 & post1 & -> & Hpre1) (pre2 & post2 & Heq & Hpre2).
  revert l2 pre2 Hl Heq Hpre2. induction Hpre1 as [|st1 pre1 [s ->] _ IH]; intros l2 pre2 Hl Heq Hpre2;
    apply agree_prefix_cons_inv in Hl as (st2 & l2' & -> & [_ Hst] & Hl);
    (destruct Hpre2 as [|? pre2' [s2 ->] Hpre2]; cbn in Heq; injection Heq as -> ->).
  - by injection (Hst eq_refl eq_refl).
  - by specialize (Hst eq_refl eq_refl).
  - by specialize (Hst eq_refl eq_refl).
  - by eapply IH.
Qed.

Section two_validators.
Context {D1 : Type} `{DagReader D1, !DagReaderLaws D1} {D2 : Type} `{DagReader D2, !DagReaderLaws D2}.
Context (d1 : D1) (d2 : D2) (fuel1 fuel2 : nat).
Hypothesis Hd1 : sees c G d1.
Hypothesis Hd2 : sees c G d2.
Hypothesis Hfuel1 : (size (dr_view d1) < fuel1)%nat.
Hypothesis Hfuel2 : (size (dr_view d2) < fuel2)%nat.

(** Two validators whose later statuses agree do not contradict each other on a
    slot. *)
Lemma decide_slot_agree o slot l1 l2 p1 p2 :
  wave_ok o (slot_round slot) → dr_gc_round d1 < slot_round slot → dr_gc_round d2 < slot_round slot →
  leaders_ok d1 (l1.*1) → leaders_ok d2 (l2.*1) → agree_prefix (l1.*1) (l2.*1) →
  decide_slot fuel1 d1 o slot l1 = Ok p1 → decide_slot fuel2 d2 o slot l2 = Ok p2 →
  is_decided p1.1 = true → is_decided p2.1 = true → p1.1 = p2.1.
Proof using HG Hd1 Hd2 Hfuel1 Hfuel2.
  intros Hwave Hgc1 Hgc2 Hl1 Hl2 Hl Hrun1 Hrun2 Hdec1 Hdec2.
  destruct (decide_slot_inv d1 fuel1 o slot l1 Hd1 Hfuel1 Hwave Hgc1 Hl1 p1 Hrun1 Hdec1)
    as [Hdir1|(x1 & Hx1 & HG1 & Hr1 & Ho1)];
  destruct (decide_slot_inv d2 fuel2 o slot l2 Hd2 Hfuel2 Hwave Hgc2 Hl2 p2 Hrun2 Hdec2)
    as [Hdir2|(x2 & Hx2 & HG2 & Hr2 & Ho2)].
  - by eapply (direct_decisions_unique c faulty G o slot HG Hwave d1 d2).
  - apply (anchor_outcome_unique c faulty G slot HG x2); [|done].
    by eapply (direct_anchor_outcome c faulty G o slot HG Hwave d1).
  - apply (anchor_outcome_unique c faulty G slot HG x1); [done|].
    by eapply (direct_anchor_outcome c faulty G o slot HG Hwave d2).
  - assert (x1 = x2) as -> by (eapply anchors_agree; [by apply agree_prefix_later|done..]).
    by apply (anchor_outcome_unique c faulty G slot HG x2).
Qed.

(** ** The loops *)

Context (elect : Round → N → outcome AuthorityIndex) (last_decided : Slot).

Definition round_ready {D : Type} `{DagReader D, !DagReaderLaws D} (d : D) (r : Round) : Prop :=
  dr_gc_round d < r ∧ dr_open d (r + 1) ∧ dr_open d (r + 2) ∧ r + 3 < u32_modulus.

(** Both validators run the same slots of a round: they stop at the same slot and their
    statuses still agree. *)
Lemma decide_round_agree r cs l1 l2 :
  Forall stage_ok cs → electable c elect cs → round_ready d1 r → round_ready d2 r →
  leaders_ok d1 (l1.*1) → leaders_ok d2 (l2.*1) → agree_prefix (l1.*1) (l2.*1) →
  ∃ stop l1' l2', decide_round fuel1 elect d1 last_decided r cs l1 = Ok (stop, l1') ∧
    decide_round fuel2 elect d2 last_decided r cs l2 = Ok (stop, l2') ∧
    leaders_ok d1 (l1'.*1) ∧ leaders_ok d2 (l2'.*1) ∧ agree_prefix (l1'.*1) (l2'.*1).
Proof using HG Hd1 Hd2 Hfuel1 Hfuel2.
  intros Hcs Hel (Hgc1 & Ho1 & Ho1' & Hb) (Hgc2 & Ho2 & Ho2' & _). revert l1 l2.
  induction Hcs as [|o cs Ho _ IH]; intros l1 l2 Hl1 Hl2 Hl; cbn [decide_round]; [by exists false, l1, l2|].
  specialize (IH ltac:(intros o' r' Ho'; apply Hel; by right)).
  destruct (Hel o r ltac:(left)) as (a & Ha & Hac).
  destruct (base_elect_leader o elect r) as [[slot|]| |] eqn:Helect; cbn [obind].
  2: by apply IH.
  2,3: exfalso; unfold base_elect_leader in Helect; destruct (negb _); [done|]; by rewrite Ha in Helect.
  destruct (elected_slot elect o r slot Ho Hb Helect) as (Hr & Hwave & Ha'). rewrite Ha in Ha'.
  injection Ha' as ->. case_decide; [by exists true, l1, l2|]. subst r.
  destruct (decide_slot_total d1 fuel1 o slot l1) as (p1 & Hp1 & Hs1); try done.
  destruct (decide_slot_total d2 fuel2 o slot l2) as (p2 & Hp2 & Hs2); try done.
  rewrite Hp1, Hp2. cbn [obind]. apply IH.
  - constructor; [|done]. by rewrite (proj1 Hs1).
  - constructor; [|done]. by rewrite (proj1 Hs2).
  - apply agree_prefix_cons. split; [|done]. split; [by rewrite (proj1 Hs1), (proj1 Hs2)|].
    by apply (decide_slot_agree o slot l1 l2).
Qed.

Lemma decide_rounds_agree committers rounds l1 l2 :
  Forall stage_ok committers → electable c elect committers →
  Forall (round_ready d1) rounds → Forall (round_ready d2) rounds →
  leaders_ok d1 (l1.*1) → leaders_ok d2 (l2.*1) → agree_prefix (l1.*1) (l2.*1) →
  ∃ l1' l2', decide_rounds fuel1 elect committers d1 last_decided rounds l1 = Ok l1' ∧
    decide_rounds fuel2 elect committers d2 last_decided rounds l2 = Ok l2' ∧
    leaders_ok d1 (l1'.*1) ∧ leaders_ok d2 (l2'.*1) ∧ agree_prefix (l1'.*1) (l2'.*1).
Proof using HG Hd1 Hd2 Hfuel1 Hfuel2.
  intros Hcs Hel Hr1 Hr2. revert l1 l2.
  induction rounds as [|r rounds IH]; intros l1 l2 Hl1 Hl2 Hl; cbn [decide_rounds]; [by exists l1, l2|].
  inversion Hr1 as [|? ? Hr1' Hrs1]; subst. inversion Hr2 as [|? ? Hr2' Hrs2]; subst.
  destruct (decide_round_agree r (reverse committers) l1 l2) as (stop & l1' & l2' & -> & -> & Hl1' & Hl2' & Hl'); try done.
  - by apply Forall_reverse.
  - intros o r' Ho. apply Hel. by rewrite elem_of_reverse in Ho.
  - cbn [obind]. destruct stop; [by exists l1', l2'|]. by apply IH.
Qed.
End two_validators.
End slots.

Section runs.
Context {D : Type} `{DagReader D, !DagReaderLaws D} (fuel : nat).
Context (elect : Round → N → outcome AuthorityIndex) (d : D) (last_decided : Slot).

Lemma base_elect_round o r slot : base_elect_leader o elect r = Ok (Some slot) → slot_round slot = r.
Proof using Type.
  unfold base_elect_leader. destruct (negb _); [done|]. rewrite bind_Ok. by intros (a & _ & [= <-]).
Qed.

(** Only the round of the last decided slot can stop the loop. *)
Lemma decide_round_continues r cs l stop l' :
  r ≠ slot_round last_decided → decide_round fuel elect d last_decided r cs l = Ok (stop, l') → stop = false.
Proof using Type.
  intros Hr. revert l. induction cs as [|o cs IH]; intros l; cbn [decide_round]; [by intros [= <- <-]|].
  rewrite bind_Ok. intros ([slot|] & Hslot & Hrun); [|by eapply IH].
  apply base_elect_round in Hslot. case_decide; [congruence|].
  apply bind_Ok in Hrun as (leader & _ & Hrun). by eapply IH.
Qed.

Lemma decide_rounds_app committers rounds1 rounds2 l l' :
  slot_round last_decided ∉ rounds1 →
  decide_rounds fuel elect committers d last_decided rounds1 l = Ok l' →
  decide_rounds fuel elect committers d last_decided (rounds1 ++ rounds2) l =
    decide_rounds fuel elect committers d last_decided rounds2 l'.
Proof using Type.
  revert l. induction rounds1 as [|r rounds1 IH]; intros l Hn; cbn [decide_rounds app]; [by intros [= <-]|].
  apply not_elem_of_cons in Hn as [Hr Hn]. rewrite bind_Ok. intros ([stop l1] & Hrun & Hrest).
  rewrite Hrun. cbn [obind]. pose proof (decide_round_continues r _ l stop l1 ltac:(congruence) Hrun) as ->.
  by apply IH.
Qed.
End runs.

(** ** The decided prefix *)

(** What a decision says of its slot, whichever rule took it. *)
Definition leader_outcome (x : DecidedLeader) : Slot * option VerifiedBlock :=
  (decided_slot x, into_committed_block x).

Lemma into_decided_outcome st direct x :
  into_decided_leader st direct = Some x →
  is_decided st = true ∧ leader_outcome x =
    (status_slot st, match st with LeaderCommit b => Some b | _ => None end).
Proof. destruct st; cbn; intros [= <-]; done. Qed.

Lemma decided_sequence_total c {D : Type} `{DagReader D, !DagReaderLaws D} (d : D) l :
  leaders_ok c d (l.*1) → ∃ s, decided_sequence c l = Ok s.
Proof.
  induction l as [|[st dec] l IH]; cbn; [by eexists|]. intros [[_ Ha] Hl]%Forall_cons.
  destruct (IH Hl) as [s ->]. destruct (_ =? _); [by eexists|].
  destruct (into_decided_leader _ _) as [x|] eqn:Hx; [|by eexists].
  apply into_decided_outcome in Hx as [_ [= Hslot _]]. rewrite Hslot.
  destruct (lookup_lt_is_Some_2 (authorities c) _ Ha) as [y Hy].
  unfold authority, vec_get. rewrite Hy. by eexists.
Qed.

Lemma decided_sequence_agree c l1 l2 s1 s2 :
  agree_prefix (l1.*1) (l2.*1) → decided_sequence c l1 = Ok s1 → decided_sequence c l2 = Ok s2 →
  leader_outcome <$> s1 `prefix_of` leader_outcome <$> s2 ∨ leader_outcome <$> s2 `prefix_of` leader_outcome <$> s1.
Proof.
  revert l2 s1 s2. induction l1 as [|[st1 dec1] l1 IH]; intros l2 s1 s2 Hl; cbn [decided_sequence].
  { intros [= <-] _. left. apply prefix_nil. }
  cbn in Hl. apply agree_prefix_cons_inv in Hl as (st2 & l2' & Heq & [Hslot Hst] & Hl).
  destruct l2 as [|[st2' dec2] l2]; [done|]. cbn in Heq. injection Heq as <- <-. cbn [decided_sequence].
  rewrite <-!status_slot_round, Hslot. destruct (_ =? _); [by apply IH|].
  destruct (into_decided_leader st1 _) as [x1|] eqn:Hx1.
  2: { intros [= <-] _. left. apply prefix_nil. }
  destruct (into_decided_leader st2' _) as [x2|] eqn:Hx2.
  2: { intros _ [= <-]. right. apply prefix_nil. }
  apply into_decided_outcome in Hx1 as [Hd1 Ho1]. apply into_decided_outcome in Hx2 as [Hd2 Ho2].
  rewrite (Hst Hd1 Hd2), <-Ho2 in Ho1.
  intros (? & _ & (s1' & Hs1 & [= <-])%bind_Ok)%bind_Ok (? & _ & (s2' & Hs2 & [= <-])%bind_Ok)%bind_Ok.
  rewrite !fmap_cons, Ho1. destruct (IH l2 s1' s2' Hl Hs1 Hs2); [left|right]; by apply prefix_cons.
Qed.

(** ** Agreement *)

Section agreement.
Context (c : Committee) (faulty : gset AuthorityIndex) (G : gmap BlockRef VerifiedBlock).
Context (elect : Round → N → outcome AuthorityIndex) (b : UniversalCommitterBuilder).
Context (p : ProtocolConfig) (last_decided : Slot).
Hypothesis HG : world c faulty G.
Hypothesis Hwave : ub_wave_length b = DEFAULT_WAVE_LENGTH.
Hypothesis Helect : electable c elect (build b).

(** The rounds the committer goes through. *)
Definition decidable_rounds {D : Type} `{DagReader D} (d : D) : list Round :=
  round_range (first_round p last_decided) (saturating_sub (dr_highest_accepted_round d) 2).

Lemma ready_rounds {D : Type} `{DagReader D, !DagReaderLaws D} (d : D) r :
  ready p d last_decided → r ∈ decidable_rounds d → round_ready d r.
Proof using Type.
  clear HG Hwave Helect. intros [_ Hgc Hopen Hb] Hr. unfold decidable_rounds, saturating_sub in Hr. apply elem_of_round_range in Hr.
  unfold u32_max in Hb. split; [lia|]. split_and!; [apply Hopen; lia..|lia].
Qed.

Lemma ready_rounds_reverse {D : Type} `{DagReader D, !DagReaderLaws D} (d : D) :
  ready p d last_decided → Forall (round_ready d) (reverse (decidable_rounds d)).
Proof using Type.
  clear HG Hwave Helect. intros Hr. apply Forall_forall. intros r Hin. rewrite elem_of_reverse in Hin.
  by apply ready_rounds.
Qed.

(** One validator alone. *)
Lemma decide_rounds_run {D : Type} `{DagReader D, !DagReaderLaws D} (d : D) fuel rounds :
  sees c G d → (size (dr_view d) < fuel)%nat → Forall (round_ready d) rounds →
  ∃ l, decide_rounds fuel elect (build b) d last_decided rounds [] = Ok l ∧ leaders_ok c d (l.*1).
Proof using HG Hwave Helect.
  intros Hd Hf Hr.
  destruct (decide_rounds_agree c faulty G HG d d fuel fuel Hd Hd Hf Hf elect last_decided
    (build b) rounds [] [] (build_stage_ok b Hwave) Helect Hr Hr) as (l & _ & Hrun & _ & Hok & _);
    [apply Forall_nil_2..|apply agree_prefix_nil|by exists l].
Qed.

Section two.
Context {D1 D2 : Type} `{DagReader D1, !DagReaderLaws D1} `{DagReader D2, !DagReaderLaws D2}.
Context (d1 : D1) (d2 : D2) (fuel1 fuel2 : nat).
Hypothesis Hd1 : sees c G d1.
Hypothesis Hr1 : ready p d1 last_decided.
Hypothesis Hf1 : (size (dr_view d1) < fuel1)%nat.
Hypothesis Hd2 : sees c G d2.
Hypothesis Hr2 : ready p d2 last_decided.
Hypothesis Hf2 : (size (dr_view d2) < fuel2)%nat.
Hypothesis Hhi : dr_highest_accepted_round d1 ≤ dr_highest_accepted_round d2.

(** The validator with the higher rounds decides them first, and then goes through the
    rounds of the other one. *)
Lemma decide_all_agree :
  ∃ l1 l2, decide_rounds fuel1 elect (build b) d1 last_decided (reverse (decidable_rounds d1)) [] = Ok l1 ∧
    decide_rounds fuel2 elect (build b) d2 last_decided (reverse (decidable_rounds d2)) [] = Ok l2 ∧
    leaders_ok c d1 (l1.*1) ∧ leaders_ok c d2 (l2.*1) ∧ agree_prefix (l1.*1) (l2.*1).
Proof using All.
  pose proof (ready_rounds_reverse d1 Hr1) as Hrd1. pose proof (ready_rounds_reverse d2 Hr2) as Hrd2.
  set (mid := saturating_sub (dr_highest_accepted_round d1) 2).
  destruct (N.lt_ge_cases mid (first_round p last_decided)) as [Hlt|Hge].
  - assert (decidable_rounds d1 = []) as ->.
    { unfold decidable_rounds, round_range. fold mid. by replace (N.to_nat _) with 0%nat by lia. }
    destruct (decide_rounds_run d2 fuel2 _ Hd2 Hf2 Hrd2) as (l & Hrun & Hok).
    exists [], l. split; [done|]. split; [done|]. split; [apply Forall_nil_2|].
    split; [done|apply agree_prefix_nil].
  - assert (Hsplit : reverse (decidable_rounds d2) =
      reverse (round_range (mid + 1) (saturating_sub (dr_highest_accepted_round d2) 2)) ++ reverse (decidable_rounds d1)).
    { apply reverse_round_range; [lia|]. unfold mid, saturating_sub. lia. }
    rewrite Hsplit in Hrd2 |- *. apply Forall_app in Hrd2 as [Hex Hrd2].
    destruct (decide_rounds_run d2 fuel2 _ Hd2 Hf2 Hex) as (l & Hrun & Hok).
    rewrite (decide_rounds_app fuel2 elect d2 last_decided _ _ _ _ l); [| |done].
    + apply (decide_rounds_agree c faulty G HG d1 d2 fuel1 fuel2 Hd1 Hd2 Hf1 Hf2); try done;
        [by apply build_stage_ok|apply Forall_nil_2|apply agree_prefix_nil].
    + rewrite elem_of_reverse, elem_of_round_range. pose proof (first_round_ge p last_decided (rd_last _ _ _ Hr1)). lia.
Qed.

Lemma try_decide_agree_le :
  ∃ s1 s2, try_decide fuel1 elect (build b) p d1 last_decided = Ok s1 ∧
    try_decide fuel2 elect (build b) p d2 last_decided = Ok s2 ∧
    (leader_outcome <$> s1 `prefix_of` leader_outcome <$> s2 ∨
     leader_outcome <$> s2 `prefix_of` leader_outcome <$> s1).
Proof using All.
  destruct decide_all_agree as (l1 & l2 & H1 & H2 & Hok1 & Hok2 & Hl).
  unfold try_decide. fold (decidable_rounds d1) (decidable_rounds d2). rewrite H1, H2. cbn [obind].
  rewrite (s_committee _ _ _ Hd1), (s_committee _ _ _ Hd2).
  destruct (decided_sequence_total c d1 l1 Hok1) as [s1 Hs1], (decided_sequence_total c d2 l2 Hok2) as [s2 Hs2].
  exists s1, s2. split; [done|]. split; [done|]. by apply (decided_sequence_agree c l1 l2).
Qed.
End two.

(** C1 (safety): total order.  Two correct validators that follow the same leader
    schedule from the same last decided slot, with different parts of the DAG and with
    less than f+1 faulty stake, both obtain a sequence of decided leaders, and one of
    the sequences is a prefix of the other: they commit the same blocks, skip the same
    slots, and do so in the same order. *)
Theorem try_decide_agree {D1 D2 : Type} `{DagReader D1, !DagReaderLaws D1} `{DagReader D2, !DagReaderLaws D2}
    (d1 : D1) (d2 : D2) (fuel1 fuel2 : nat) :
  sees c G d1 → ready p d1 last_decided → (size (dr_view d1) < fuel1)%nat →
  sees c G d2 → ready p d2 last_decided → (size (dr_view d2) < fuel2)%nat →
  ∃ s1 s2, try_decide fuel1 elect (build b) p d1 last_decided = Ok s1 ∧
    try_decide fuel2 elect (build b) p d2 last_decided = Ok s2 ∧
    (leader_outcome <$> s1 `prefix_of` leader_outcome <$> s2 ∨
     leader_outcome <$> s2 `prefix_of` leader_outcome <$> s1).
Proof using HG Hwave Helect.
  intros Hd1 Hr1 Hf1 Hd2 Hr2 Hf2.
  destruct (N.le_ge_cases (dr_highest_accepted_round d1) (dr_highest_accepted_round d2)) as [Hle|Hle].
  - by apply try_decide_agree_le.
  - destruct (try_decide_agree_le d2 d1 fuel2 fuel1 Hd2 Hr2 Hf2 Hd1 Hr1 Hf1 Hle) as (s2 & s1 & ? & ? & ?).
    exists s1, s2. tauto.
Qed.
End agreement.

(** ** The schedule *)

(** The part of a list before the first occurrence, and after the last occurrence, of
    an element. *)
Fixpoint before {A} `{EqDecision A} (x : A) (l : list A) : list A :=
  match l with
  | [] => []
  | y :: l' => if decide (y = x) then [] else y :: before x l'
  end.
Definition after_last {A} `{EqDecision A} (x : A) (l : list A) : list A := reverse (before x (reverse l)).

Lemma before_app {A} `{EqDecision A} (x : A) l1 l2 :
  before x (l1 ++ l2) = if decide (x ∈ l1) then before x l1 else l1 ++ before x l2.
Proof.
  induction l1 as [|y l1 IH]; cbn.
  { case_decide as Hx; [by apply elem_of_nil in Hx|done]. }
  rewrite IH. destruct (decide (y = x)) as [->|Hy]; [by rewrite decide_True by (apply elem_of_cons; by left)|].
  destruct (decide (x ∈ l1)) as [Hx|Hx]; [by rewrite decide_True by (apply elem_of_cons; by right)|].
  rewrite decide_False; [done|]. rewrite elem_of_cons. by intros [->|?].
Qed.

Lemma before_none {A} `{EqDecision A} (x : A) l : x ∉ l → before x l = l.
Proof.
  intros Hx. pose proof (before_app x l []) as Heq. rewrite app_nil_r in Heq. rewrite Heq.
  rewrite decide_False by done. apply app_nil_r.
Qed.

Section schedule.
Context (elect : Round → N → outcome AuthorityIndex).

Definition elected (r : Round) (o : BaseCommitterOptions) : option Slot :=
  match base_elect_leader o elect r with Ok s => s | _ => None end.

(** The leader slots of the rounds, in order. *)
Definition scheduled (committers : list BaseCommitterOptions) (rounds : list Round) : list Slot :=
  rounds ≫= λ r, omap (elected r) committers.

Lemma scheduled_reverse committers rounds :
  scheduled (reverse committers) (reverse rounds) = reverse (scheduled committers rounds).
Proof using Type.
  assert (Homap : ∀ r cs, omap (elected r) (reverse cs) = reverse (omap (elected r) cs)).
  { intros r cs. induction cs as [|o cs IH]; [done|]. rewrite reverse_cons, omap_app, IH. csimpl.
    destruct (elected r o); csimpl; [by rewrite reverse_cons|by rewrite app_nil_r]. }
  unfold scheduled. induction rounds as [|r rounds IH]; [done|].
  rewrite reverse_cons, bind_app, IH. csimpl. rewrite app_nil_r, reverse_app. by rewrite Homap.
Qed.

Context {D : Type} `{DagReader D, !DagReaderLaws D} (d : D) (fuel : nat) (last_decided : Slot).
Hypothesis Hok : dr_ok d.

Lemma decide_slot_slot o slot l p : decide_slot fuel d o slot l = Ok p → status_slot p.1 = slot.
Proof using Hok.
  unfold decide_slot. rewrite bind_Ok. intros (st & Hst & Hrun). destruct (is_decided st).
  { injection Hrun as <-. by destruct (direct_status d o slot st Hok Hst). }
  apply bind_Ok in Hrun as (st' & Hst' & [= <-]). unfold try_indirect_decide in Hst'. cbn [fst].
  destruct (scan_anchors_inv d fuel o slot
    (filter (λ x, u32_add (slot_round slot) (wave_length o) <=? leader_status_round x) (l.*1)))
    as [Heq|(x & _ & Heq)]; rewrite Heq in Hst'; [by injection Hst' as <-|].
  by destruct (anchor_status d fuel o x slot st' Hok Hst').
Qed.

Lemma decide_round_slots r cs l stop l' :
  decide_round fuel elect d last_decided r cs l = Ok (stop, l') →
  status_slot <$> l'.*1 = reverse (before last_decided (omap (elected r) cs)) ++ (status_slot <$> l.*1) ∧
  stop = bool_decide (last_decided ∈ omap (elected r) cs).
Proof using Hok.
  revert l. induction cs as [|o cs IH]; intros l; cbn [decide_round].
  { intros [= <- <-]. split; [done|]. symmetry. apply bool_decide_eq_false, not_elem_of_nil. }
  intros (oslot & Hslot & Hrun)%bind_Ok. csimpl.
  assert (elected r o = oslot) as -> by (unfold elected; by rewrite Hslot).
  destruct oslot as [slot|]; [|by apply IH].
  case_decide as Heq; cbn [before].
  - injection Hrun as <- <-. rewrite decide_True by done. split; [done|].
    symmetry. apply bool_decide_eq_true. subst. left.
  - apply bind_Ok in Hrun as (p & Hp & Hrun). apply IH in Hrun as [-> ->]. rewrite decide_False by done.
    csimpl. rewrite (decide_slot_slot o slot l p Hp), reverse_cons, <-app_assoc. split; [done|].
    apply bool_decide_ext. rewrite elem_of_cons. split; [by right|]. intros [?|?]; [congruence|done].
Qed.

Lemma decide_rounds_slots committers rounds l l' :
  decide_rounds fuel elect committers d last_decided rounds l = Ok l' →
  status_slot <$> l'.*1 =
    reverse (before last_decided (scheduled (reverse committers) rounds)) ++ (status_slot <$> l.*1).
Proof using Hok.
  revert l. induction rounds as [|r rounds IH]; intros l; cbn [decide_rounds]; [by intros [= <-]|].
  intros ([stop l1] & Hrun & Hrest)%bind_Ok. apply decide_round_slots in Hrun as [Hl1 ->].
  unfold scheduled in *. csimpl. rewrite before_app.
  case_bool_decide as Hin; [rewrite decide_True by done; injection Hrest as <-; done|].
  rewrite decide_False by done. rewrite (IH _ Hrest), Hl1, reverse_app, app_assoc.
  by rewrite (before_none last_decided (omap (elected r) (reverse committers)) Hin).
Qed.

Lemma decided_sequence_slots c l s :
  decided_sequence c l = Ok s →
  decided_slot <$> s `prefix_of` filter (λ x, slot_round x ≠ GENESIS_ROUND) (status_slot <$> l.*1).
Proof using Type.
  clear Hok. revert s. induction l as [|[st dec] l IH]; intros s; cbn [decided_sequence].
  { intros [= <-]. apply prefix_nil. }
  csimpl. rewrite filter_cons, status_slot_round. destruct (N.eqb_spec (leader_status_round st) GENESIS_ROUND) as [Hg|Hg].
  { rewrite decide_False by (intros Hn; by apply Hn). apply IH. }
  rewrite decide_True by done. destruct (into_decided_leader _ _) as [x|] eqn:Hx.
  2: { intros [= <-]. apply prefix_nil. }
  apply into_decided_outcome in Hx as [_ [= Hslot _]].
  intros (? & _ & (s' & Hs & [= <-])%bind_Ok)%bind_Ok. csimpl. rewrite Hslot. by apply prefix_cons, IH.
Qed.
End schedule.

(** ** Properties of one validator *)

Section one_run.
Context (c : Committee) (faulty : gset AuthorityIndex) (G : gmap BlockRef VerifiedBlock).
Context (elect : Round → N → outcome AuthorityIndex) (b : UniversalCommitterBuilder).
Context (p : ProtocolConfig) (last_decided : Slot).
Hypothesis HG : world c faulty G.
Hypothesis Hwave : ub_wave_length b = DEFAULT_WAVE_LENGTH.
Hypothesis Helect : electable c elect (build b).

End one_run.

(** ** A concrete run

    Leaders rotate over the authorities 1, 2 and 3. *)

Definition rotate (r : Round) (offset : N) : outcome AuthorityIndex :=
  Ok (1 + N.to_nat ((r + offset) `mod` 3))%nat.
Definition pipelined : UniversalCommitterBuilder :=
  with_pipeline (with_number_of_leaders builder_new 1) true.
Definition genesis_slot : Slot := mkSlot 0 0.

Lemma rotate_electable : electable committee4 rotate (build pipelined).
Proof.
  intros o r _. unfold rotate. eexists; split; [done|]. change (committee_size committee4) with 4%nat.
  pose proof (N.mod_lt (r + leader_offset o) 3). lia.
Qed.

Definition readyb (p : ProtocolConfig) (s : DagState Inner) (last : Slot) : bool :=
  (slot_round last <? u32_max) && (gc_round s <? first_round p last) &&
  (last_commit_round s <=? first_round p last) && (highest_accepted_round s <? u32_max).

Lemma readyb_sound p s last : readyb p s last = true → ready p s last.
Proof.
  unfold readyb. rewrite !andb_true_iff, !N.ltb_lt, N.leb_le. intros [[[? ?] ?] ?].
  split; [done..| |done]. cbn. lia.
Qed.

Lemma ready7 : ready test_protocol_config dag7 genesis_slot.
Proof. apply readyb_sound. vm_compute. reflexivity. Qed.
Lemma ready6 : ready test_protocol_config dag6 genesis_slot.
Proof. apply readyb_sound. vm_compute. reflexivity. Qed.

Lemma try_decide_agree_witness :
  ∃ s1 s2, try_decide 100 rotate (build pipelined) test_protocol_config dag7 genesis_slot = Ok s1 ∧
    try_decide 100 rotate (build pipelined) test_protocol_config dag6 genesis_slot = Ok s2 ∧
    (leader_outcome <$> s1 `prefix_of` leader_outcome <$> s2 ∨
     leader_outcome <$> s2 `prefix_of` leader_outcome <$> s1).
Proof.
  apply (try_decide_agree committee4 ∅ (view dag7) rotate pipelined test_protocol_config genesis_slot
    world7 eq_refl rotate_electable dag7 dag6);
    [apply sees7|apply ready7|vm_compute; lia|apply sees6|apply ready6|vm_compute; lia].
Defined.


(** All five decidable rounds are committed. *)
Example try_decide_run :
  omap_ok (fmap leader_outcome) (try_decide 100 rotate (build pipelined) test_protocol_config dag7 genesis_slot) =
  Ok ((λ b, (slot_from (reference b), Some b)) <$>
      [layer_block 1 2; layer_block 2 3; layer_block 3 1; layer_block 4 2; layer_block 5 3]).
Proof. vm_compute. reflexivity. Qed.
