(* ===== verification/Errors.v ===== *)
(** * Errors ([core/src/error.rs])

    The error type of the program with all its constructors, and the error monad of
    the functions that return a [ConsensusResult].  The payloads that are errors of
    libraries (serialization, signatures, RocksDB) are left out. *)

From S2P Require Import Prelude Committee Types Commits.

Inductive ConsensusError :=
| MalformedBlock
| MalformedCommit
| SerializationFailure
| TransactionTooLarge (size : nat) (limit : N)
| TooManyTransactions (count : nat) (limit : N)
| TooManyTransactionBytes (size : nat) (limit : N)
| UnexpectedAuthority (a peer : AuthorityIndex)
| WrongEpoch (expected actual : Epoch)
| UnexpectedGenesisBlock
| UnexpectedGenesisBlockRequested
| UnexpectedNumberOfBlocksFetched (a : AuthorityIndex) (requested received : nat)
| UnexpectedFetchedBlock (index : AuthorityIndex) (block_ref : BlockRef)
| UnexpectedLastOwnBlock (index : AuthorityIndex) (block_ref : BlockRef)
| TooManyFetchedBlocksReturned (a : AuthorityIndex)
| TooManyAuthoritiesProvided (a : AuthorityIndex)
| InvalidSizeOfHighestAcceptedRounds (given expected : nat)
| InvalidAuthorityIndex (index : AuthorityIndex) (max : nat)
| MalformedSignature
| SignatureVerificationFailure
| SynchronizerSaturated (a : AuthorityIndex)
| BlockRejected (block_ref : BlockRef) (reason : string)
| InvalidAncestorPosition (block_authority ancestor_authority : AuthorityIndex) (position : nat)
| InvalidAncestorRound (ancestor block : Round)
| InvalidGenesisAncestor (ancestor : BlockRef)
| TooManyAncestors (count limit : nat)
| DuplicatedAncestorsAuthority (a : AuthorityIndex)
| InsufficientParentStakes (parent_stakes quorum : Stake)
| InvalidTransaction (msg : string)
| NoCommitReceived (peer : AuthorityIndex)
| UnexpectedStartCommit (peer : AuthorityIndex) (start : CommitIndex) (commit : Commit)
| UnexpectedCommitSequence (peer : AuthorityIndex) (prev_commit curr_commit : Commit)
| NotEnoughCommitVotes (stake : Stake) (peer : AuthorityIndex) (commit : Commit)
| UnexpectedBlockForCommit (peer : AuthorityIndex) (requested received : BlockRef)
| UnexpectedCertifiedCommitIndex (expected_commit_index commit_index : CommitIndex)
| RocksDBFailure
| UnknownNetworkPeer (msg : string)
| PeerDisconnected (msg : string)
| NetworkConfig (msg : string)
| NetworkClientConnection (msg : string)
| NetworkRequest (msg : string)
| NetworkRequestTimeout (msg : string)
| Shutdown.

(** [ConsensusResult]: an error, or a value; the computation may also panic. *)
Abbreviation result A := (outcome (ConsensusError + A)%type) (only parsing).

Definition Err {A} (e : ConsensusError) : result A := Ok (inl e).
Definition Return {A} (a : A) : result A := Ok (inr a).

(** The [?] operator. *)
Definition rbind {A B} (m : result A) (f : A → result B) : result B :=
  obind m (λ r, match r with inl e => Err e | inr a => f a end).
Notation "'let?' x := m 'in' k" := (rbind m (λ x, k))
  (at level 10, x name, m at level 200, k at level 200,
   format "'[v' 'let?'  x  :=  m  'in' '/' k ']'") : outcome_scope.
Notation "'do?' m 'in' k" := (rbind m (λ _, k))
  (at level 10, m at level 200, k at level 200,
   format "'[v' 'do?'  m  'in' '/' k ']'") : outcome_scope.

(** [ok.ok_or(err)?] and [if bad { return Err(err) }]. *)
Definition ok_or {A} (o : option A) (e : ConsensusError) : result A :=
  match o with Some a => Return a | None => Err e end.
Definition ensure (good : bool) (e : ConsensusError) : result unit :=
  if good then Return tt else Err e.
