(* ===== verification/BlockVerifier.v ===== *)
(** * Block verification ([core/src/block_verifier.rs], signatures of [core/src/block.rs])

    A received block is checked before it can enter the DAG.  The theorems: the checks
    always give an answer, a block passes exactly if it is well formed, what passes has
    the links that the commit rule relies on, and honest signatures pass.

    Signatures, serialization and hashing are libraries: the record [Crypto].  The
    verifier of transactions is supplied by the embedding application: the record
    [TransactionVerifier]. *)

From S2P Require Import Prelude Collections Weighted Committee Types Fixtures Commits StakeAggregator.
From S2P Require Import ThresholdClock LeaderScoring Storage DagState DagStateSpec DagTraversal.
From S2P Require Import DagRecovery BaseCommitter CommitSafety Errors.

Local Open Scope N_scope.

(** ** Signatures *)

Record Crypto := mkCrypto {
  Signature : Type;
  KeyPair : Type;
  bcs_block : Block → option Bytes;
  digest_bytes : Bytes → N;
  bcs_intent : N → option Bytes;
  sig_from_bytes : Bytes → option Signature;
  sig_to_bytes : Signature → Bytes;
  public_key : KeyPair → Bytes;
  sign : KeyPair → Bytes → Signature;
  verify : Bytes → Bytes → Signature → bool;
}.

(** What signatures promise: they can be sent as bytes, and verify under the public key
    of the signer. *)
Record CryptoLaws (ck : Crypto) : Prop := {
  sig_bytes_law s : sig_from_bytes ck (sig_to_bytes ck s) = Some s;
  sign_law k m : verify ck (public_key ck k) m (sign ck k m) = true;
}.

Section signatures.
Context (ck : Crypto).

Definition compute_inner_block_digest (b : Block) : result N :=
  let? bytes := ok_or (bcs_block ck b) SerializationFailure in Return (digest_bytes ck bytes).

Definition compute_block_signature (b : Block) (k : KeyPair ck) : result (Signature ck) :=
  let? digest := compute_inner_block_digest b in
  let? message := ok_or (bcs_intent ck digest) SerializationFailure in
  Return (sign ck k message).

Definition verify_block_signature (b : Block) (signature : Bytes) (protocol_pubkey : Bytes) : result unit :=
  let? digest := compute_inner_block_digest b in
  let? message := ok_or (bcs_intent ck digest) SerializationFailure in
  let? sig := ok_or (sig_from_bytes ck signature) MalformedSignature in
  ensure (verify ck protocol_pubkey message sig) SignatureVerificationFailure.

Definition signed_block_new (b : Block) (k : KeyPair ck) : result SignedBlock :=
  let? signature := compute_block_signature b k in
  Return (mkSignedBlock b (sig_to_bytes ck signature)).

Definition verify_signature (ctx : Context) (sb : SignedBlock) : result unit :=
  let b := sb_inner sb in
  do? ensure (is_valid_index (committee ctx) (block_author b))
    (InvalidAuthorityIndex (block_author b) (committee_size (committee ctx) - 1)) in
  let! a := authority (committee ctx) (block_author b) in
  verify_block_signature b (sb_signature sb) (protocol_key a).
End signatures.

(** ** Transactions *)

Record TransactionVerifier := mkTransactionVerifier {
  verify_batch : list Bytes → option string;
  verify_and_vote_batch : BlockRef → list Bytes → string + list TransactionIndex;
}.

Fixpoint check_sizes (limit : N) (batch : list Bytes) : result unit :=
  match batch with
  | [] => Return tt
  | t :: rest =>
      if (limit <? N.of_nat (length t)) && (0 <? limit) then Err (TransactionTooLarge (length t) limit)
      else check_sizes limit rest
  end.

Definition check_transactions (ctx : Context) (batch : list Bytes) : result unit :=
  do? check_sizes (max_transaction_size_bytes (protocol_config ctx)) batch in
  let count_limit := max_num_transactions_in_block (protocol_config ctx) in
  if (count_limit <? N.of_nat (length batch)) && (0 <? count_limit)
  then Err (TooManyTransactions (length batch) count_limit) else
  let total_limit := max_transactions_in_block_bytes (protocol_config ctx) in
  if (total_limit <? u64_sum ((λ t : Bytes, N.of_nat (length t)) <$> batch)) && (0 <? total_limit)
  then Err (TooManyTransactionBytes (length batch) total_limit) else
  Return tt.

(** ** Blocks *)

Record SignedBlockVerifier := mkSignedBlockVerifier {
  bv_context : Context;
  bv_genesis : gset BlockRef;
  transaction_verifier : TransactionVerifier;
}.

Definition verifier_new (cd : Codec) (ctx : Context) (tv : TransactionVerifier) : outcome SignedBlockVerifier :=
  let! blocks := genesis_blocks cd ctx in
  Ok (mkSignedBlockVerifier ctx (list_to_set (reference <$> blocks)) tv).

(** The loop over the ancestors, from position [i] on. *)
Fixpoint check_ancestors (v : SignedBlockVerifier) (b : Block) (i : nat) (seen : list bool)
    (parent_stakes : Stake) (ancs : list BlockRef) : result Stake :=
  let c := committee (bv_context v) in
  match ancs with
  | [] => Return parent_stakes
  | a :: rest =>
      do? ensure (is_valid_index c (ref_author a)) (InvalidAuthorityIndex (ref_author a) (committee_size c - 1)) in
      do? ensure (negb (((i =? 0)%nat && negb (ref_author a =? block_author b)%nat)
                        || ((0 <? i)%nat && (ref_author a =? block_author b)%nat)))
        (InvalidAncestorPosition (block_author b) (ref_author a) i) in
      do? ensure (ref_round a <? block_round b) (InvalidAncestorRound (ref_round a) (block_round b)) in
      do? ensure (negb ((ref_round a =? GENESIS_ROUND) && bool_decide (a ∉ bv_genesis v)))
        (InvalidGenesisAncestor a) in
      let! dup := vec_get seen (ref_author a) in
      do? ensure (negb dup) (DuplicatedAncestorsAuthority (ref_author a)) in
      let! seen := vec_set seen (ref_author a) true in
      let! prev := (if block_round b =? 0 then Panic "called `Option::unwrap()` on a `None` value"
                    else Ok (block_round b - 1)) in
      let! parent_stakes :=
        (if ref_round a =? prev then
           let! s := committee_stake c (ref_author a) in Ok (u64_add parent_stakes s)
         else Ok parent_stakes) in
      check_ancestors v b (S i) seen parent_stakes rest
  end.

Definition verify_block (ck : Crypto) (v : SignedBlockVerifier) (sb : SignedBlock) : result unit :=
  let b := sb_inner sb in
  let c := committee (bv_context v) in
  do? ensure (block_epoch b =? c_epoch c) (WrongEpoch (c_epoch c) (block_epoch b)) in
  do? ensure (negb (block_round b =? 0)) UnexpectedGenesisBlock in
  do? ensure (is_valid_index c (block_author b)) (InvalidAuthorityIndex (block_author b) (committee_size c - 1)) in
  do? verify_signature ck (bv_context v) sb in
  do? ensure (length (block_ancestors b) <=? committee_size c)%nat
    (TooManyAncestors (length (block_ancestors b)) (committee_size c)) in
  do? ensure (negb (length (block_ancestors b) =? 0)%nat) (InsufficientParentStakes 0 (quorum_threshold c)) in
  let? parent_stakes := check_ancestors v b 0 (replicate (committee_size c) false) 0 (block_ancestors b) in
  do? ensure (reached_quorum c parent_stakes) (InsufficientParentStakes parent_stakes (quorum_threshold c)) in
  check_transactions (bv_context v) (data <$> block_transactions b).

Definition vote (v : SignedBlockVerifier) (b : VerifiedBlock) : result (list TransactionIndex) :=
  match verify_and_vote_batch (transaction_verifier v) (reference b) (block_transactions_data (vb_inner b)) with
  | inl e => Err (InvalidTransaction e)
  | inr rejected => Return rejected
  end.

Definition verify_and_vote (ck : Crypto) (cd : Codec) (v : SignedBlockVerifier) (sb : SignedBlock)
    (serialized_block : Bytes) : result (VerifiedBlock * list TransactionIndex) :=
  do? verify_block ck v sb in
  let verified_block := new_verified cd sb serialized_block in
  let? rejected :=
    (if mysticeti_fastpath (protocol_config (bv_context v)) then vote v verified_block
     else match verify_batch (transaction_verifier v) (block_transactions_data (vb_inner verified_block)) with
          | Some e => Err (InvalidTransaction e)
          | None => Return []
          end) in
  Return (verified_block, rejected).

(** ** Specification *)

(** The ancestors start with the author's own previous block, come from distinct
    authorities of the committee and lower rounds (from the genesis blocks if of round
    0), and include a quorum of the previous round. *)
Record valid_ancestors (c : Committee) (genesis : gset BlockRef) (author : AuthorityIndex) (r : Round)
    (ancs : list BlockRef) : Prop := {
  va_own : ref_author <$> head ancs = Some author;
  va_each a : a ∈ ancs → (ref_author a < committee_size c)%nat ∧ ref_round a < r ∧
    (ref_round a = GENESIS_ROUND → a ∈ genesis);
  va_nodup : NoDup (ref_author <$> ancs);
  va_quorum : quorum_threshold c ≤ set_stake c
    (list_to_set (ref_author <$> filter (λ p, ref_round p + 1 = r) ancs));
}.

(** A limit of 0 is no limit. *)
Definition within (n limit : N) : Prop := limit = 0 ∨ n ≤ limit.

Record valid_transactions (p : ProtocolConfig) (batch : list Bytes) : Prop := {
  vt_size t : t ∈ batch → within (N.of_nat (length t)) (max_transaction_size_bytes p);
  vt_count : within (N.of_nat (length batch)) (max_num_transactions_in_block p);
  vt_total : within (sumN ((λ t : Bytes, N.of_nat (length t)) <$> batch)) (max_transactions_in_block_bytes p);
}.

Record valid_block (ck : Crypto) (v : SignedBlockVerifier) (sb : SignedBlock) : Prop := {
  vb_epoch : block_epoch (sb_inner sb) = c_epoch (committee (bv_context v));
  vb_not_genesis : block_round (sb_inner sb) ≠ 0;
  vb_author : (block_author (sb_inner sb) < committee_size (committee (bv_context v)))%nat;
  vb_signed : verify_signature ck (bv_context v) sb = Return tt;
  vb_ancestors : valid_ancestors (committee (bv_context v)) (bv_genesis v) (block_author (sb_inner sb))
    (block_round (sb_inner sb)) (block_ancestors (sb_inner sb));
  vb_transactions : valid_transactions (protocol_config (bv_context v)) (data <$> block_transactions (sb_inner sb));
}.

Lemma rbind_Return {A B} (m : result A) (f : A → result B) y :
  rbind m f = Return y ↔ ∃ a, m = Return a ∧ f a = Return y.
Proof.
  unfold rbind, Return at 1. rewrite bind_Ok. split.
  - intros ([e|a] & Hm & Hf); [done|]. by exists a.
  - intros (a & Hm & Hf). exists (inr a). done.
Qed.

Lemma ensure_Return good e u : ensure good e = Return u ↔ good = true.
Proof. destruct good, u; naive_solver. Qed.

(** A computation that gives a value or an error, without panicking. *)
Definition answers {A} (m : result A) : Prop := ∃ r, m = Ok r.

Lemma answers_rbind {A B} (m : result A) (f : A → result B) :
  answers m → (∀ a, m = Return a → answers (f a)) → answers (rbind m f).
Proof.
  intros [[e|a] Hm] Hf; unfold rbind; rewrite Hm; cbn; [by eexists|]. by apply Hf.
Qed.

Lemma answers_ensure good e : answers (ensure good e).
Proof. destruct good; by eexists. Qed.

(** ** Ancestors *)

Section ancestors.
Context (v : SignedBlockVerifier) (b : Block).
Hypothesis Hc : committee_ok (committee (bv_context v)).
Hypothesis Hround : block_round b ≠ 0.

(** The checks of one ancestor at position [i], after ancestors of [prev]. *)
Definition ancestor_okb (i : nat) (prev : gset AuthorityIndex) (a : BlockRef) : bool :=
  is_valid_index (committee (bv_context v)) (ref_author a) &&
  bool_decide (ref_author a = block_author b ↔ i = 0%nat) && (ref_round a <? block_round b) &&
  bool_decide (ref_round a = GENESIS_ROUND → a ∈ bv_genesis v) && bool_decide (ref_author a ∉ prev).

Fixpoint ancestors_okb (i : nat) (prev : gset AuthorityIndex) (ancs : list BlockRef) : bool :=
  match ancs with
  | [] => true
  | a :: rest => ancestor_okb i prev a && ancestors_okb (S i) ({[ref_author a]} ∪ prev) rest
  end.

(** The authorities of the previous round among the ancestors. *)
Definition parents (ancs : list BlockRef) : gset AuthorityIndex :=
  list_to_set (ref_author <$> filter (λ p, ref_round p + 1 = block_round b) ancs).

Definition seen_is (seen : list bool) (prev : gset AuthorityIndex) : Prop :=
  length seen = committee_size (committee (bv_context v)) ∧
  ∀ a x, seen !! a = Some x → x = bool_decide (a ∈ prev).

Lemma seen_is_insert seen prev a :
  seen_is seen prev → seen_is (<[a := true]> seen) ({[a]} ∪ prev).
Proof using Type.
  clear Hc Hround. intros [Hlen Hs]. split; [by rewrite length_insert|]. intros a' x Hx.
  apply list_lookup_insert_Some in Hx as [(-> & <- & _)|[Hne Hx]].
  - symmetry. apply bool_decide_eq_true. set_solver.
  - rewrite (Hs a' x Hx). apply bool_decide_ext. set_solver.
Qed.

Lemma check_ancestors_spec ancs : ∀ i seen prev acc,
  seen_is seen prev → acc ⊆ prev →
  if ancestors_okb i prev ancs
  then check_ancestors v b i seen (set_stake (committee (bv_context v)) acc) ancs =
         Return (set_stake (committee (bv_context v)) (parents ancs ∪ acc))
  else ∃ e, check_ancestors v b i seen (set_stake (committee (bv_context v)) acc) ancs = Err e.
Proof using Hc Hround.
  induction ancs as [|a ancs IH]; intros i seen prev acc Hseen Hacc.
  { cbn. unfold parents. cbn. by rewrite union_empty_l_L. }
  cbn [ancestors_okb check_ancestors]. unfold ancestor_okb.
  destruct (is_valid_index _ _) eqn:Hval; cbn [ensure andb]; [|by eexists].
  apply is_valid_index_true in Hval.
  assert (bool_decide (ref_author a = block_author b ↔ i = 0%nat) =
    negb (((i =? 0)%nat && negb (ref_author a =? block_author b)%nat)
          || ((0 <? i)%nat && (ref_author a =? block_author b)%nat))) as Hpos.
  { case_bool_decide; destruct (Nat.eqb_spec i 0), (Nat.ltb_spec 0 i),
      (Nat.eqb_spec (ref_author a) (block_author b)); cbn; try done; try lia; exfalso; tauto || lia. }
  rewrite Hpos. clear Hpos. destruct (negb _); cbn [ensure andb]; [|by eexists].
  destruct (ref_round a <? block_round b) eqn:Hr; cbn [ensure andb]; [|by eexists].
  assert (bool_decide (ref_round a = GENESIS_ROUND → a ∈ bv_genesis v) =
    negb ((ref_round a =? GENESIS_ROUND) && bool_decide (a ∉ bv_genesis v))) as ->.
  { case_bool_decide; destruct (N.eqb_spec (ref_round a) GENESIS_ROUND); case_bool_decide; cbn; tauto. }
  destruct (negb _); cbn [ensure andb]; [|by eexists].
  pose proof Hseen as [Hlen Hs]. rewrite <-Hlen in Hval.
  destruct (lookup_lt_is_Some_2 _ _ Hval) as [x Hx]. unfold vec_get, vec_set. rewrite Hx. cbn [expect obind rbind Return].
  pose proof (Hs _ _ Hx) as ->. rewrite bool_decide_not. destruct (bool_decide (ref_author a ∈ prev)) eqn:Hdup;
    cbn [negb ensure obind rbind Return andb]; [by eexists|]. apply bool_decide_eq_false in Hdup.
  rewrite decide_True by done. cbn [obind].
  rewrite (proj2 (N.eqb_neq _ _) Hround). cbn [obind].
  rewrite Hlen in Hval. apply (seen_is_insert _ _ (ref_author a)) in Hseen.
  unfold parents. rewrite filter_cons. destruct (N.eqb_spec (ref_round a) (block_round b - 1)) as [Hp|Hp].
  - rewrite committee_stake_valid by done. cbn [obind]. rewrite decide_True by lia.
    assert (ref_author a ∉ acc) as Hna by set_solver.
    assert (u64_add (set_stake (committee (bv_context v)) acc) (stake_of (committee (bv_context v)) (ref_author a)) =
      set_stake (committee (bv_context v)) ({[ref_author a]} ∪ acc)) as ->.
    { pose proof (set_stake_u64 (committee (bv_context v)) ({[ref_author a]} ∪ acc) Hc).
      rewrite set_stake_insert in * by done. rewrite u64_add_small; lia. }
    specialize (IH (S i) _ _ ({[ref_author a]} ∪ acc) Hseen ltac:(set_solver)).
    destruct (ancestors_okb _ _ _); [|done]. rewrite IH.
    assert (parents ancs ∪ ({[ref_author a]} ∪ acc) = list_to_set
      (ref_author <$> a :: filter (λ p, ref_round p + 1 = block_round b) ancs) ∪ acc) as ->; [|done].
    unfold parents. rewrite fmap_cons, list_to_set_cons. set_solver.
  - cbn [obind]. rewrite decide_False by lia. apply (IH (S i) _ _ acc Hseen). set_solver.
Qed.

Lemma ancestors_okb_later i prev ancs :
  (0 < i)%nat → ancestors_okb i prev ancs = true ↔
  (∀ a, a ∈ ancs → (ref_author a < committee_size (committee (bv_context v)))%nat ∧ ref_round a < block_round b ∧
     (ref_round a = GENESIS_ROUND → a ∈ bv_genesis v) ∧ ref_author a ≠ block_author b ∧ ref_author a ∉ prev) ∧
  NoDup (ref_author <$> ancs).
Proof using Type.
  clear Hc Hround. revert i prev. induction ancs as [|a ancs IH]; intros i prev Hi; cbn [ancestors_okb].
  { split; [|done]. intros _. split; [|by constructor]. intros a Ha. by apply elem_of_nil in Ha. }
  rewrite andb_true_iff, IH by lia. unfold ancestor_okb.
  rewrite !andb_true_iff, is_valid_index_true, !bool_decide_eq_true, N.ltb_lt, fmap_cons, NoDup_cons.
  split.
  - intros [((((Hv & Hp) & Hr) & Hg) & Hn) [Hall Hnd]]. split.
    + intros a' [->|Ha']%elem_of_cons; [naive_solver lia|].
      destruct (Hall a' Ha') as (? & ? & ? & ? & ?). set_solver.
    + split; [|done]. intros (a' & Heq & Ha')%list_elem_of_fmap.
      destruct (Hall a' Ha') as (_ & _ & _ & _ & Hn'). set_solver.
  - intros [Hall [Hn Hnd]]. destruct (Hall a ltac:(left)) as (? & ? & ? & ? & ?). split; [naive_solver lia|].
    split; [|done]. intros a' Ha'. destruct (Hall a' ltac:(by right)) as (? & ? & ? & ? & ?). split_and!; try done.
    intros [Heq%elem_of_singleton|?]%elem_of_union; [|done]. apply Hn. rewrite <-Heq. by apply list_elem_of_fmap_2.
Qed.

Lemma ancestors_okb_valid ancs :
  ancs ≠ [] →
  (ancestors_okb 0 ∅ ancs = true ∧
   quorum_threshold (committee (bv_context v)) ≤ set_stake (committee (bv_context v)) (parents ancs)) ↔
  valid_ancestors (committee (bv_context v)) (bv_genesis v) (block_author b) (block_round b) ancs.
Proof using Type.
  clear Hc Hround. intros Hne. destruct ancs as [|a ancs]; [done|]. cbn [ancestors_okb].
  rewrite andb_true_iff, ancestors_okb_later by lia. unfold ancestor_okb.
  rewrite !andb_true_iff, is_valid_index_true, !bool_decide_eq_true, N.ltb_lt. split.
  - intros [[((((Hv & Hp) & Hr) & Hg) & _) [Hall Hnd]] Hq]. split; [|..|done].
    + cbn. f_equal. by apply Hp.
    + intros a' [->|Ha']%elem_of_cons; [done|]. by destruct (Hall a' Ha') as (? & ? & ? & _).
    + rewrite fmap_cons, NoDup_cons. split; [|done]. intros (a' & Heq & Ha')%list_elem_of_fmap.
      destruct (Hall a' Ha') as (_ & _ & _ & _ & Hn). set_solver.
  - intros [Hown Heach Hnd Hq]. injection Hown as Hown. split; [|done].
    rewrite fmap_cons, NoDup_cons in Hnd. destruct Hnd as [Hn Hnd].
    destruct (Heach a ltac:(left)) as (? & ? & ?). split; [split_and!; try done; set_solver|].
    split; [|done]. intros a' Ha'. destruct (Heach a' ltac:(by right)) as (? & ? & ?).
    assert (ref_author a' ≠ ref_author a) as Hd.
    { intros Heq. apply Hn. rewrite <-Heq. by apply list_elem_of_fmap_2. }
    split_and!; try done; [congruence|set_solver].
Qed.

(** The committee bounds the number of ancestors. *)
Lemma valid_ancestors_length ancs :
  valid_ancestors (committee (bv_context v)) (bv_genesis v) (block_author b) (block_round b) ancs →
  ancs ≠ [] ∧ (length ancs ≤ committee_size (committee (bv_context v)))%nat.
Proof using Type.
  clear Hc Hround. intros [Hown Heach Hnd _]. split; [by intros ->|].
  rewrite <-(length_fmap ref_author), <-(length_seq (committee_size (committee (bv_context v))) 0).
  apply submseteq_length, NoDup_submseteq; [done|]. intros x (a & -> & Ha)%list_elem_of_fmap.
  apply elem_of_seq. destruct (Heach a Ha) as [? _]. lia.
Qed.
End ancestors.

(** ** Transactions *)

Lemma overb_false n limit : ((limit <? n) && (0 <? limit)) = false ↔ within n limit.
Proof.
  unfold within. rewrite andb_false_iff, !N.ltb_ge. lia.
Qed.

Lemma check_sizes_spec limit batch :
  (check_sizes limit batch = Return tt ↔ ∀ t, t ∈ batch → within (N.of_nat (length t)) limit) ∧
  answers (check_sizes limit batch).
Proof.
  induction batch as [|t batch [IH1 IH2]]; cbn.
  { split; [|by eexists]. split; [|done]. intros _ t Ht. by apply elem_of_nil in Ht. }
  destruct (_ && _) eqn:Ho.
  - split; [|by eexists]. split; [done|]. intros Hall. by rewrite (proj2 (overb_false _ _) (Hall t ltac:(left))) in Ho.
  - apply overb_false in Ho. split; [|done]. rewrite IH1. setoid_rewrite elem_of_cons. naive_solver.
Qed.

Lemma check_transactions_spec ctx batch :
  sumN ((λ t : Bytes, N.of_nat (length t)) <$> batch) < u64_modulus →
  (check_transactions ctx batch = Return tt ↔ valid_transactions (protocol_config ctx) batch) ∧
  answers (check_transactions ctx batch).
Proof.
  intros Hsmall. unfold check_transactions. rewrite u64_sum_small by done.
  destruct (check_sizes_spec (max_transaction_size_bytes (protocol_config ctx)) batch) as [Hs [r Hr]].
  rewrite Hr in *. destruct r as [e|[]]; cbn [rbind obind].
  { split; [|by eexists]. split; [done|]. intros [Ht _ _]. by apply Hs in Ht. }
  destruct (_ && _) eqn:Hn.
  { split; [|by eexists]. split; [done|]. intros [_ Ht _]. apply overb_false in Ht. congruence. }
  destruct (_ && _) eqn:Hb in |- *.
  { split; [|by eexists]. split; [done|]. intros [_ _ Ht]. apply overb_false in Ht. congruence. }
  split; [|by eexists]. apply overb_false in Hn, Hb. split; [|done]. intros _. split; [by apply Hs|done..].
Qed.

(** ** Blocks *)

Lemma answers_ok_or {A} (o : option A) e : answers (ok_or o e).
Proof. destruct o; by eexists. Qed.

Lemma answers_verify_signature ck ctx sb : answers (verify_signature ck ctx sb).
Proof.
  unfold verify_signature. apply answers_rbind; [apply answers_ensure|]. intros _ Hv%ensure_Return%is_valid_index_true.
  destruct (lookup_lt_is_Some_2 _ _ Hv) as [a Ha]. rewrite (proj2 (authority_Ok _ _ a) Ha). cbn [obind].
  unfold verify_block_signature, compute_inner_block_digest.
  apply answers_rbind; [apply answers_rbind; [apply answers_ok_or|by eexists]|intros digest _].
  apply answers_rbind; [apply answers_ok_or|intros message _].
  apply answers_rbind; [apply answers_ok_or|intros sig _]. apply answers_ensure.
Qed.

Section verify_block.
Context (ck : Crypto) (v : SignedBlockVerifier) (sb : SignedBlock).
Hypothesis Hc : committee_ok (committee (bv_context v)).
Hypothesis Hbytes :
  sumN ((λ t : Bytes, N.of_nat (length t)) <$> (data <$> block_transactions (sb_inner sb))) < u64_modulus.

Lemma seen_is_replicate : seen_is v (replicate (committee_size (committee (bv_context v))) false) ∅.
Proof using Type.
  clear Hc Hbytes. split; [apply length_replicate|]. intros a x [-> _]%lookup_replicate. symmetry.
  apply bool_decide_eq_false. set_solver.
Qed.

(** The ancestors of a block with at least one ancestor are checked. *)
Lemma check_all_ancestors :
  block_round (sb_inner sb) ≠ 0 → block_ancestors (sb_inner sb) ≠ [] →
  let run := check_ancestors v (sb_inner sb) 0 (replicate (committee_size (committee (bv_context v))) false) 0
    (block_ancestors (sb_inner sb)) in
  answers run ∧
  ((∃ s, run = Return s ∧ reached_quorum (committee (bv_context v)) s = true) ↔
   valid_ancestors (committee (bv_context v)) (bv_genesis v) (block_author (sb_inner sb))
     (block_round (sb_inner sb)) (block_ancestors (sb_inner sb))).
Proof using Hc.
  clear Hbytes. intros Hr Hne. pose proof (check_ancestors_spec v (sb_inner sb) Hc Hr (block_ancestors (sb_inner sb))
    0 _ ∅ ∅ seen_is_replicate ltac:(done)) as Hspec.
  cbn zeta. rewrite set_stake_empty, union_empty_r_L in Hspec.
  pose proof (ancestors_okb_valid v (sb_inner sb) (block_ancestors (sb_inner sb)) Hne) as Hiff. rewrite <-Hiff. clear Hiff.
  destruct (ancestors_okb _ _ _ _ _).
  - rewrite Hspec. split; [by eexists|]. unfold reached_quorum. split.
    + intros (s & [= <-] & Hq%N.leb_le). done.
    + intros [_ Hq]. eexists. split; [done|]. by apply N.leb_le.
  - destruct Hspec as [e ->]. split; [by eexists|]. split; [by intros (s & ? & _)|by intros [? _]].
Qed.

Lemma verify_block_answers : answers (verify_block ck v sb).
Proof using Hc Hbytes.
  unfold verify_block. apply answers_rbind; [apply answers_ensure|intros _ _].
  apply answers_rbind; [apply answers_ensure|intros _ Hr%ensure_Return%negb_true_iff%N.eqb_neq].
  apply answers_rbind; [apply answers_ensure|intros _ _].
  apply answers_rbind; [apply answers_verify_signature|intros _ _].
  apply answers_rbind; [apply answers_ensure|intros _ _].
  apply answers_rbind; [apply answers_ensure|intros _ Hne%ensure_Return%negb_true_iff%Nat.eqb_neq].
  apply answers_rbind; [apply check_all_ancestors; [done|by destruct (block_ancestors _)]|intros s _].
  apply answers_rbind; [apply answers_ensure|intros _ _]. by apply check_transactions_spec.
Qed.

Lemma verify_block_valid : verify_block ck v sb = Return tt ↔ valid_block ck v sb.
Proof using Hc Hbytes.
  pose proof (proj1 (check_transactions_spec (bv_context v) (data <$> block_transactions (sb_inner sb)) Hbytes)) as Htx.
  unfold verify_block. remember (check_transactions (bv_context v) (data <$> block_transactions (sb_inner sb))) as tx eqn:Etx.
  remember (verify_signature ck (bv_context v) sb) as sig eqn:Esig.
  repeat setoid_rewrite rbind_Return. setoid_rewrite ensure_Return. split.
  - intros (_ & He%N.eqb_eq & _ & Hr%negb_true_iff%N.eqb_neq & _ & Ha%is_valid_index_true & [] & Hs & _ & _ & _ &
      Hne%negb_true_iff%Nat.eqb_neq & s & Hrun & _ & Hq & Ht).
    rewrite Htx in Ht. split; try done; [by rewrite <-Esig|].
    apply check_all_ancestors; [done|by destruct (block_ancestors _)|by exists s].
  - intros [He Hr Ha Hs Hanc Ht]. destruct (valid_ancestors_length v (sb_inner sb) _ Hanc) as [Hne Hlen].
    apply check_all_ancestors in Hanc as (s & Hrun & Hq); [|done..].
    exists tt. split; [by apply N.eqb_eq|]. exists tt. split; [by apply negb_true_iff, N.eqb_neq|].
    exists tt. split; [by apply is_valid_index_true|]. exists tt. split; [by rewrite Esig|].
    exists tt. split; [by apply Nat.leb_le|]. exists tt. split.
    { apply negb_true_iff, Nat.eqb_neq. by destruct (block_ancestors _). }
    exists s. split; [done|]. exists tt. split; [done|]. by apply Htx.
Qed.

(** C25 (functional): the verification of a block always gives an answer, and accepts
    exactly the well-formed blocks: of this epoch, not a genesis block, signed by an
    authority of the committee, whose ancestors start with the author's own, come from
    distinct authorities and lower rounds and include a quorum of the previous round,
    and whose transactions keep to the limits. *)
Theorem verify_block_spec :
  (verify_block ck v sb = Return tt ↔ valid_block ck v sb) ∧ ∃ r, verify_block ck v sb = Ok r.
Proof using Hc Hbytes. split; [apply verify_block_valid|apply verify_block_answers]. Qed.

(** A received block is returned as verified, under the digest of its
    serialized bytes, exactly if it is well formed and the application accepts its
    transactions; the rejected transactions are those the application votes against,
    and without the fast path there are none. *)
Theorem verify_and_vote_spec (cd : Codec) (serialized : Bytes) (vb : VerifiedBlock) (rejected : list TransactionIndex) :
  verify_and_vote ck cd v sb serialized = Return (vb, rejected) ↔
  valid_block ck v sb ∧ vb = mkVerifiedBlock sb (hash_bytes cd serialized) serialized ∧
  (if mysticeti_fastpath (protocol_config (bv_context v))
   then verify_and_vote_batch (transaction_verifier v) (reference vb) (block_transactions_data (sb_inner sb)) = inr rejected
   else verify_batch (transaction_verifier v) (block_transactions_data (sb_inner sb)) = None ∧ rejected = []).
Proof using Hc Hbytes.
  rewrite <-verify_block_valid. unfold verify_and_vote. destruct (verify_block ck v sb) as [[e|[]]| |]; cbn [rbind obind];
    [naive_solver| |naive_solver..].
  unfold vote, new_verified. cbn [vb_inner vb_block]. destruct (mysticeti_fastpath _).
  - destruct (verify_and_vote_batch _ _ _) as [e|rej] eqn:Hv; cbn [rbind obind].
    + split; [done|]. intros (_ & -> & Hr). unfold vb_inner in Hv. cbn [vb_block] in Hv. congruence.
    + unfold vb_inner in Hv. cbn [vb_block] in Hv. split; [intros [= <- <-]; done|]. intros (_ & -> & Hr).
      rewrite Hr in Hv. by injection Hv as ->.
  - unfold vb_inner. cbn [vb_block]. destruct (verify_batch _ _); cbn [rbind obind]; naive_solver.
Qed.
End verify_block.

(** A block that an authority signs with the key whose public half the committee lists
    carries a signature that every verifier accepts. *)
Lemma signed_block_verifies (ck : Crypto) (ctx : Context) (b : Block) (k : KeyPair ck) (sb : SignedBlock) (a : Authority) :
  CryptoLaws ck → authorities (committee ctx) !! block_author b = Some a → protocol_key a = public_key ck k →
  signed_block_new ck b k = Return sb → sb_inner sb = b ∧ verify_signature ck ctx sb = Return tt.
Proof.
  intros Hck Ha Hk Hnew. unfold signed_block_new, compute_block_signature in Hnew.
  apply rbind_Return in Hnew as (sig & Hsig & [= <-]).
  apply rbind_Return in Hsig as (digest & Hdig & (msg & Hmsg & [= <-])%rbind_Return). split; [done|].
  unfold verify_signature. cbn [sb_inner sb_signature].
  rewrite (proj2 (is_valid_index_true _ _)) by (by eapply lookup_lt_Some). cbn [ensure rbind obind Return].
  rewrite (proj2 (authority_Ok _ _ a) Ha). cbn [obind]. unfold verify_block_signature.
  rewrite Hdig. cbn [rbind obind Return]. rewrite Hmsg. cbn [rbind obind Return].
  rewrite (sig_bytes_law ck Hck), Hk. cbn [ok_or rbind obind Return]. by rewrite (sign_law ck Hck).
Qed.

(** ** The world of verified blocks

    What the commit rule relies on is what the verifier checks. *)

(** Blocks of round 0 have no ancestors; all others were accepted by a verifier with
    the committee. *)
Definition all_verified (ck : Crypto) (v : SignedBlockVerifier) (G : gmap BlockRef VerifiedBlock) : Prop :=
  ∀ r b, G !! r = Some b →
    (ref_round r = 0 ∧ ancestors b = []) ∨ verify_block ck v (vb_block b) = Return tt.

(** C31 (safety): a set of blocks in which every block was accepted by the verifier,
    that contains the ancestors of its blocks, identifies blocks by their digest and
    holds one block per round of each honest authority, meets the conditions under
    which the commit rule is safe. *)
Theorem verified_blocks_form_world (ck : Crypto) (v : SignedBlockVerifier) (faulty : gset AuthorityIndex)
    (G : gmap BlockRef VerifiedBlock) :
  committee_ok (committee (bv_context v)) → set_stake (committee (bv_context v)) faulty < validity_threshold (committee (bv_context v)) →
  all_verified ck v G →
  (∀ r b, G !! r = Some b → sumN ((λ t : Bytes, N.of_nat (length t)) <$>
     (data <$> block_transactions (vb_inner b))) < u64_modulus) →
  (∀ r b, G !! r = Some b → reference b = r) →
  (∀ r b p, G !! r = Some b → p ∈ ancestors b → is_Some (G !! p)) →
  (∀ r r', is_Some (G !! r) → is_Some (G !! r') → ref_author r ∉ faulty →
     ref_author r = ref_author r' → ref_round r = ref_round r' → r = r') →
  world (committee (bv_context v)) faulty G.
Proof.
  intros Hc Hf Hver Hbytes Hkey Hclosed Hhonest. split; [done..| |].
  - intros r b p Hb Hp. split; [|by eapply Hclosed]. destruct (Hver r b Hb) as [[_ Hno]|Hv].
    + rewrite Hno in Hp. by apply elem_of_nil in Hp.
    + apply verify_block_valid in Hv as [_ _ _ _ [_ Heach _ _] _]; [|done|by eapply Hbytes].
      rewrite <-(Hkey r b Hb). by destruct (Heach p Hp) as (_ & ? & _).
  - intros r b Hb Hr. destruct (Hver r b Hb) as [[? _]|Hv]; [lia|].
    apply verify_block_valid in Hv as [_ _ _ _ [_ _ _ Hq] _]; [|done|by eapply Hbytes].
    rewrite <-(Hkey r b Hb). exact Hq.
Qed.

(** ** A concrete verifier

    A toy signature scheme in which a signature is the signed message. *)

Definition toy_crypto : Crypto :=
  mkCrypto Bytes unit (λ b, Some [block_round b; N.of_nat (block_author b)]) (λ bs, sumN bs) (λ _, Some [])
    Some id (λ _, []) (λ _ m, m) (λ _ m s, bool_decide (s = m)).

Lemma toy_crypto_laws : CryptoLaws toy_crypto.
Proof. split; [done|]. intros [] m. cbn. by apply bool_decide_eq_true. Qed.

(** The application accepts all transactions and rejects the first of each block. *)
Definition toy_transactions : TransactionVerifier :=
  mkTransactionVerifier (λ _, None) (λ _ batch, inr match batch with [] => [] | _ => [0] end).

Definition verifier4 : SignedBlockVerifier :=
  mkSignedBlockVerifier context4 (list_to_set genesis_refs4) toy_transactions.

Example verifier4_new : verifier_new test_codec context4 toy_transactions = Ok verifier4.
Proof. vm_compute. reflexivity. Qed.

(** Round-1 blocks that list the own genesis block first, with one transaction. *)
Definition own_first (a : AuthorityIndex) : list BlockRef :=
  (λ i, mkBlockRef 0 i (N.of_nat i)) <$> (a :: filter (λ i, i ≠ a) (seq 0 4)).
Definition proposal (a : AuthorityIndex) : SignedBlock :=
  mkSignedBlock (V2 (mkBlockV2 0 1 a 10 (own_first a) [mkTransaction [1; 2; 3]] [] [] [] None [])) [].

Lemma verify_block_spec_witness :
  (verify_block toy_crypto verifier4 (proposal 2) = Return tt ↔ valid_block toy_crypto verifier4 (proposal 2)) ∧
  ∃ r, verify_block toy_crypto verifier4 (proposal 2) = Ok r.
Proof. apply (verify_block_spec toy_crypto verifier4 (proposal 2) committee4_ok). vm_compute. reflexivity. Defined.

Example proposal_accepted : verify_block toy_crypto verifier4 (proposal 2) = Return tt.
Proof. vm_compute. reflexivity. Qed.

Lemma verify_and_vote_spec_witness :
  let vb := mkVerifiedBlock (proposal 2) (hash_bytes test_codec [7; 8]) [7; 8] in
  verify_and_vote toy_crypto test_codec verifier4 (proposal 2) [7; 8] = Return (vb, [0]) ↔
  valid_block toy_crypto verifier4 (proposal 2) ∧
  vb = mkVerifiedBlock (proposal 2) (hash_bytes test_codec [7; 8]) [7; 8] ∧
  verify_and_vote_batch toy_transactions (reference vb) [[1; 2; 3]] = inr [0].
Proof.
  apply (verify_and_vote_spec toy_crypto verifier4 (proposal 2) committee4_ok). vm_compute. reflexivity.
Defined.

(** The genesis blocks and the proposals of the authorities 1, 2 and 3. *)
Definition genesis4 : list VerifiedBlock := of_outcome (genesis_blocks test_codec context4) [].
Definition proposals4 : list VerifiedBlock :=
  (λ a, mkVerifiedBlock (proposal a) (100 + N.of_nat a) []) <$> [1; 2; 3]%nat.
Definition verified_world : gmap BlockRef VerifiedBlock :=
  list_to_map ((λ b, (reference b, b)) <$> (genesis4 ++ proposals4)).

Lemma verified_world_all (P : VerifiedBlock → bool) r b :
  forallb P (genesis4 ++ proposals4) = true → verified_world !! r = Some b → P b = true ∧ reference b = r.
Proof.
  intros Hall Hb. apply elem_of_list_to_map_2, list_elem_of_fmap in Hb as (b' & [= -> ->] & Hb).
  split; [|done]. rewrite forallb_forall in Hall. by apply list_elem_of_In, Hall in Hb.
Qed.

Definition acceptedb (ck : Crypto) (v : SignedBlockVerifier) (b : VerifiedBlock) : bool :=
  match verify_block ck v (vb_block b) with Ok (inr tt) => true | _ => false end.

Lemma verified_blocks_form_world_witness : world committee4 ∅ verified_world.
Proof.
  apply (verified_blocks_form_world toy_crypto verifier4 ∅ verified_world committee4_ok).
  - vm_compute. reflexivity.
  - intros r b Hb.
    destruct (verified_world_all (λ b, bool_decide (round b = 0 ∧ ancestors b = []) || acceptedb toy_crypto verifier4 b)
      r b) as [Hv <-]; [vm_compute; reflexivity|done|].
    apply orb_true_iff in Hv as [Hg%bool_decide_eq_true|Hv]; [by left|right].
    unfold acceptedb in Hv. by destruct (verify_block _ _ _) as [[?|[]]| |].
  - intros r b Hb. destruct (verified_world_all (λ b, bool_decide (sumN ((λ t : Bytes, N.of_nat (length t)) <$>
     (data <$> block_transactions (vb_inner b))) < u64_modulus)) r b) as [Hv _];
     [vm_compute; reflexivity|done|]. by apply bool_decide_eq_true in Hv.
  - intros r b Hb. by destruct (verified_world_all (λ _, true) r b).
  - intros r b p Hb Hp.
    destruct (verified_world_all (λ b, bool_decide (Forall (λ p, is_Some (verified_world !! p)) (ancestors b))) r b)
      as [Hv _]; [vm_compute; reflexivity|done|].
    apply bool_decide_eq_true in Hv. rewrite Forall_forall in Hv. by apply Hv.
  - intros r r' [b Hb] [b' Hb'] _.
    destruct (verified_world_all (λ b, bool_decide (Forall (λ b', ref_author (reference b) = ref_author (reference b') →
      ref_round (reference b) = ref_round (reference b') → reference b = reference b') (genesis4 ++ proposals4))) r b)
      as [Hv <-]; [vm_compute; reflexivity|done|].
    apply elem_of_list_to_map_2, list_elem_of_fmap in Hb' as (b'' & [= -> ->] & Hb').
    apply bool_decide_eq_true in Hv. rewrite Forall_forall in Hv. by apply Hv.
Defined.

(** A block whose transactions are too large in total is rejected with an
    error that reports the number of transactions in place of their size: two
    transactions of 12 bytes, against a limit of 10, are reported as size 2. *)
Theorem too_many_bytes_reports_count :
  let config := mkProtocolConfig (Some 60) true (Some 1%nat) 30 None (Some 10) None true in
  check_transactions (mkContext 0 0 committee4 500 config) [[1; 2; 3; 4; 5; 6]; [7; 8; 9; 10; 11; 12]] =
    Err (TooManyTransactionBytes 2 10).
Proof. vm_compute. reflexivity. Qed.
