(* ===== verification/TransactionCertifierSpec.v ===== *)
(** * Correctness of the transaction certifier

    What the votes of the certifier stand for, over every sequence of received blocks,
    own proposals and garbage collections, and the safety of the fast path. *)

From S2P Require Import Prelude Collections Weighted Committee Types Fixtures Commits StakeAggregator.
From S2P Require Import ThresholdClock LeaderScoring Storage DagState DagStateSpec DagRecovery Errors BlockVerifier.
From S2P Require Import TransactionCertifier.

Local Open Scope N_scope.

(** A block votes to reject transaction [i] of block [t]. *)
Definition votes_reject (votes : list BlockTransactionVotes) (t : BlockRef) (i : TransactionIndex) : Prop :=
  ∃ v, v ∈ votes ∧ votes_block_ref v = t ∧ i ∈ rejects v.
Definition block_rejects (b : VerifiedBlock) (t : BlockRef) (i : TransactionIndex) : Prop :=
  votes_reject (block_transaction_votes (vb_inner b)) t i.

(** A block accepts its parents, the blocks of the previous round it links to. *)
Definition accepts_parent (b : VerifiedBlock) (t : BlockRef) : Prop :=
  t ∈ ancestors b ∧ u32_add (ref_round t) 1 = round b.

(** The votes to reject transaction [i] of block [t]. *)
Definition rejecters (vi : VoteInfo) (i : TransactionIndex) : StakeAggregator :=
  default aggregator_new (reject_txn_votes vi !! i).

Section spec.
Context (ctx : Context) (Hc : committee_ok (committee ctx)).
Abbreviation c := (committee ctx).

(** ** Certified blocks *)

(** A quorum of authorities accepted every transaction that is not rejected, and a
    quorum rejected every transaction that is. *)
Record justified (seen : list VerifiedBlock) (cb : CertifiedBlock) : Prop := {
  ju_accepted i : i ∉ cb_rejected cb →
    ∃ Q, quorum_threshold c ≤ set_stake c Q ∧
      ∀ a, a ∈ Q → ∃ b, b ∈ seen ∧ author b = a ∧ accepts_parent b (reference (cb_block cb)) ∧
                         ¬ block_rejects b (reference (cb_block cb)) i;
  ju_rejected i : i ∈ cb_rejected cb →
    ∃ Q, quorum_threshold c ≤ set_stake c Q ∧
      ∀ a, a ∈ Q → ∃ b, b ∈ seen ∧ author b = a ∧ block_rejects b (reference (cb_block cb)) i;
}.

Lemma rejected_transactions_spec accepts votes rejected :
  rejected_transactions ctx accepts votes = Some rejected →
  ∀ i, (i ∈ rejected → ∃ agg, (i, agg) ∈ votes ∧ quorum_threshold c ≤ agg_stake agg) ∧
       (i ∉ rejected → ∀ agg, (i, agg) ∈ votes → quorum_threshold c ≤ accepts - agg_stake agg).
Proof.
  revert rejected. induction votes as [|[j agg] votes IH]; intros rejected; cbn.
  { intros [= <-] i. split; [by intros ?%elem_of_nil|]. intros _ agg ?%elem_of_nil. done. }
  unfold reached_threshold, is_threshold, quorum_threshold_impl, reached_quorum, saturating_sub.
  destruct (N.leb_spec (quorum_threshold c) (agg_stake agg)) as [Hq|Hq].
  - destruct (rejected_transactions ctx accepts votes) as [l|]; [|done]. intros [= <-] i.
    destruct (IH l eq_refl i) as [H1 H2]. split.
    + intros [->|Hi]%elem_of_cons; [exists agg; split; [by left|done]|].
      destruct (H1 Hi) as (agg' & ? & ?). exists agg'. split; [by right|done].
    + intros [Hne Hi]%not_elem_of_cons agg' [[= -> ->]|Hin]%elem_of_cons; [done|by apply H2].
  - destruct (N.ltb_spec (accepts - agg_stake agg) (quorum_threshold c)); [done|].
    intros Hl i. destruct (IH rejected Hl i) as [H1 H2]. split.
    + intros Hi. destruct (H1 Hi) as (agg' & ? & ?). exists agg'. split; [by right|done].
    + intros Hi agg' [[= -> ->]|Hin]%elem_of_cons; [done|by apply H2].
Qed.

Lemma justified_mono seen seen' cb : seen ⊆ seen' → justified seen cb → justified seen' cb.
Proof.
  intros Hsub [Ha Hr]. split; intros i Hi; [destruct (Ha i Hi) as (Q & Hq & HQ)|destruct (Hr i Hi) as (Q & Hq & HQ)];
    exists Q; (split; [done|]); intros a (b & Hb & Hrest)%HQ; exists b; (split; [by apply Hsub|done]).
Qed.

(** The votes on block [t] stand for votes of the blocks in [seen], the accept votes for
    votes of blocks that were completely processed. *)
Record info_ok (seen done : list VerifiedBlock) (t : BlockRef) (vi : VoteInfo) : Prop := {
  io_block b : vi_block vi = Some b → reference b = t ∧ b ∈ seen ∧ (author b < committee_size c)%nat;
  io_accepts : agg_ok c (accept_block_votes vi);
  io_accepters a : a ∈ agg_votes (accept_block_votes vi) →
    ∃ b, b ∈ done ∧ author b = a ∧ accepts_parent b t;
  io_rejects i : agg_ok c (rejecters vi i);
  io_rejecters i a : a ∈ agg_votes (rejecters vi i) → ∃ b, b ∈ seen ∧ author b = a ∧ block_rejects b t i;
}.

(** The votes on block [t] include those of every block of [done]. *)
Definition info_complete (done : list VerifiedBlock) (t : BlockRef) (vi : VoteInfo) : Prop :=
  ∀ b i, b ∈ done → block_rejects b t i → author b ∈ agg_votes (rejecters vi i).

Lemma take_certified_output_spec seen done t vi :
  done ⊆ seen → info_ok seen done t vi →
  ∃ vi' out, take_certified_output ctx vi = Ok (vi', out) ∧ info_ok seen done t vi' ∧
    reject_txn_votes vi' = reject_txn_votes vi ∧ vi_block vi' = vi_block vi ∧
    match out with
    | None => is_certified vi' = is_certified vi
    | Some cb => is_certified vi = false ∧ is_certified vi' = true ∧ vi_block vi = Some (cb_block cb) ∧
        reference (cb_block cb) = t ∧ (info_complete done t vi → justified seen cb)
    end.
Proof using Hc.
  intros Hsub Hok. unfold take_certified_output. destruct (is_certified vi) eqn:Hcert; [by exists vi, None|].
  destruct (vi_block vi) as [b|] eqn:Hb; [|by exists vi, None].
  destruct (io_block _ _ _ _ Hok b Hb) as (Href & Hseen & Ha).
  destruct (lookup_lt_is_Some_2 (authorities c) _ Ha) as [au Hau].
  rewrite (proj2 (authority_Ok _ _ _) Hau). cbn.
  unfold reached_threshold, is_threshold, quorum_threshold_impl, reached_quorum.
  destruct (N.leb_spec (quorum_threshold c) (agg_stake (accept_block_votes vi))) as [Hq|Hq];
    [cbn [negb]|by exists vi, None].
  destruct (rejected_transactions _ _ _) as [rejected|] eqn:Hrej; [|by exists vi, None].
  eexists _, _. split; [done|]. split; [by destruct Hok; split; cbn; try done; intros ? [= <-]|].
  do 6 (split; [done|]). intros Hcomp.
  pose proof (rejected_transactions_spec _ _ _ Hrej) as Hspec.
  destruct Hok as [_ Hacc Haccs Hr Hrs]. split; cbn; rewrite Href; intros i Hi.
  - exists (agg_votes (accept_block_votes vi) ∖ agg_votes (rejecters vi i)). split.
    + pose proof (agg_stake_eq _ _ Hacc) as Heq. rewrite (set_stake_diff _ _ (agg_votes (rejecters vi i))) in Heq.
      pose proof (set_stake_mono c (agg_votes (accept_block_votes vi) ∩ agg_votes (rejecters vi i))
        (agg_votes (rejecters vi i)) ltac:(set_solver)) as Hmono.
      rewrite <-(agg_stake_eq _ _ (Hr i)) in Hmono.
      unfold rejecters in *. destruct (reject_txn_votes vi !! i) as [agg|] eqn:Hlook; cbn in *; [|lia].
      assert (quorum_threshold c ≤ agg_stake (accept_block_votes vi) - agg_stake agg); [|lia].
      apply (proj2 (Hspec i) Hi). by apply elem_of_btree_iter.
    + intros a [(b' & Hb' & <- & Hpar)%Haccs Hnot]%elem_of_difference. exists b'.
      split; [by apply Hsub|]. do 2 (split; [done|]). intros Hrejects. apply Hnot. by apply Hcomp.
  - destruct (proj1 (Hspec i) Hi) as (agg & Hin%elem_of_btree_iter & Hq').
    exists (agg_votes (rejecters vi i)). split.
    + rewrite <-(agg_stake_eq _ _ (Hr i)). unfold rejecters. by rewrite Hin.
    + intros a Ha'. by apply Hrs.
Qed.

(** ** The invariant *)

(** Authority [a] is counted among those that reject transaction [i] of block [t]. *)
Definition counted (s : CertifierState) (t : BlockRef) (i : TransactionIndex) (a : AuthorityIndex) : Prop :=
  ∃ vi, cs_votes s !! t = Some vi ∧ a ∈ agg_votes (rejecters vi i).

(** Of the blocks [seen], those in [done] are completely processed; [out] are the blocks
    certified so far. *)
Record cert_inv (seen done : list VerifiedBlock) (s : CertifierState) (out : list CertifiedBlock) : Prop := {
  ci_done : done ⊆ seen;
  ci_info t vi : cs_votes s !! t = Some vi → cs_gc_round s < ref_round t ∧ info_ok seen done t vi;
  ci_complete b t i : b ∈ done → block_rejects b t i → cs_gc_round s < ref_round t → counted s t i (author b);
  ci_out cb : cb ∈ out → justified seen cb ∧
    (cs_gc_round s < ref_round (reference (cb_block cb)) →
     ∃ vi, cs_votes s !! reference (cb_block cb) = Some vi ∧ is_certified vi = true);
  ci_once : NoDup ((λ cb, reference (cb_block cb)) <$> out);
}.

Lemma info_ok_default seen done t : info_ok seen done t vote_info_default.
Proof. split; cbn; try done; intros; apply agg_ok_new. Qed.

Lemma info_of seen done s out t :
  cert_inv seen done s out → info_ok seen done t (default vote_info_default (cs_votes s !! t)).
Proof.
  intros Hinv. destruct (cs_votes s !! t) as [vi|] eqn:Hvi; [|apply info_ok_default].
  by apply (ci_info _ _ _ _ Hinv) in Hvi as [_ Hok].
Qed.

(** New votes on a block, after which it may be certified. *)
Lemma certify_entry seen done s out t vi :
  let old := default vote_info_default (cs_votes s !! t) in
  cert_inv seen done s out → cs_gc_round s < ref_round t → info_ok seen done t vi →
  (∀ i, agg_votes (rejecters old i) ⊆ agg_votes (rejecters vi i)) → is_certified vi = is_certified old →
  ∃ vi' certified, take_certified_output ctx vi = Ok (vi', certified) ∧
    cert_inv seen done (set_vote_info t vi' s) (out ++ option_list certified) ∧
    (∀ t' i a, counted s t' i a → counted (set_vote_info t vi' s) t' i a) ∧
    (∀ i a, a ∈ agg_votes (rejecters vi i) → counted (set_vote_info t vi' s) t i a).
Proof using Hc.
  intros old Hinv Hgc Hok Hmono Hcert.
  destruct (take_certified_output_spec seen done t vi (ci_done _ _ _ _ Hinv) Hok)
    as (vi' & o & -> & Hok' & Hrej & _ & Hout).
  assert (Hkeep : ∀ t' i a, counted s t' i a → counted (set_vote_info t vi' s) t' i a).
  { intros t' i a (v & Hv & Ha). unfold counted. cbn. destruct (decide (t' = t)) as [->|].
    - exists vi'. rewrite lookup_insert_eq. split; [done|]. unfold rejecters. rewrite Hrej. apply Hmono.
      unfold old. by rewrite Hv.
    - exists v. by rewrite lookup_insert_ne. }
  exists vi', o. split; [done|]. split; [|split; [done|]].
  2: { intros i a Ha. exists vi'. cbn. rewrite lookup_insert_eq. split; [done|]. unfold rejecters. by rewrite Hrej. }
  assert (Hcomp : info_complete done t vi).
  { intros b i Hb Hr. destruct (ci_complete _ _ _ _ Hinv b t i Hb Hr Hgc) as (v & Hv & Ha).
    apply Hmono. unfold old. by rewrite Hv. }
  destruct Hinv as [Hd Hinfo Hcmp Hci Honce]. split; [done|..].
  - intros t' v. cbn. rewrite lookup_insert_Some. intros [[<- <-]|[Hne Hv]]; [done|by apply Hinfo].
  - intros b t' i Hb Hr Hg. apply Hkeep. by apply (Hcmp b).
  - intros cb [Hcb|Hcb]%elem_of_app.
    + destruct (Hci cb Hcb) as [Hj Hv]. split; [done|]. cbn. intros Hg. destruct (Hv Hg) as (v & Hv' & Hc').
      destruct (decide (reference (cb_block cb) = t)) as [<-|]; [|exists v; by rewrite lookup_insert_ne].
      exists vi'. rewrite lookup_insert_eq. split; [done|]. unfold old in Hcert. rewrite Hv' in Hcert. cbn in Hcert.
      destruct o as [cb'|]; [by destruct Hout as (_ & ? & _)|congruence].
    + destruct o as [cb'|]; [|by apply elem_of_nil in Hcb]. apply list_elem_of_singleton in Hcb as ->.
      destruct Hout as (_ & Hc' & _ & Href & Hj). split; [by apply Hj|]. intros _. rewrite Href. exists vi'. cbn.
      by rewrite lookup_insert_eq.
  - destruct o as [cb'|]; cbn; [|by rewrite app_nil_r]. rewrite fmap_app. apply NoDup_app. split; [done|].
    split; [|apply NoDup_singleton]. intros r (cb & -> & Hcb)%list_elem_of_fmap.
    cbn. rewrite list_elem_of_singleton. destruct Hout as (Hnc & _ & _ & Href & _). intros Heq.
    destruct (Hci cb Hcb) as [_ Hv]. rewrite Heq, Href in Hv. destruct (Hv Hgc) as (v & Hv' & Hc').
    unfold old in Hcert. rewrite Hv' in Hcert. cbn in Hcert. congruence.
Qed.

(** ** Reject votes of a received block *)

Lemma add_rejects_spec a m idxs :
  (a < committee_size c)%nat → (∀ i, agg_ok c (default aggregator_new (m !! i))) →
  ∃ m', for_each (add_reject ctx a) m idxs = Ok m' ∧
    ∀ i, agg_ok c (default aggregator_new (m' !! i)) ∧
      agg_votes (default aggregator_new (m' !! i)) =
        (if decide (i ∈ idxs) then {[a]} else ∅) ∪ agg_votes (default aggregator_new (m !! i)).
Proof using Hc.
  intros Ha. revert m. induction idxs as [|j idxs IH]; intros m Hm.
  { exists m. split; [done|]. intros i. split; [done|]. rewrite decide_False by (by intros ?%elem_of_nil). by rewrite union_empty_l_L. }
  cbn [for_each]. unfold add_reject at 1, add_unique.
  destruct (insert_vote_spec c _ a Hc (Hm j) Ha) as (agg & -> & Hok & Hvotes). cbn [obind].
  destruct (IH (<[j := agg]> m)) as (m' & -> & Hm').
  { intros i. destruct (decide (i = j)) as [->|]; [by rewrite lookup_insert_eq|by rewrite lookup_insert_ne]. }
  exists m'. split; [done|]. intros i. destruct (Hm' i) as [Hoki ->]. split; [done|].
  destruct (decide (i = j)) as [->|Hne].
  - rewrite lookup_insert_eq. cbn. rewrite Hvotes, (decide_True (P := j ∈ j :: idxs)) by (by left).
    case_decide; set_solver.
  - rewrite lookup_insert_ne by done. f_equal.
    destruct (decide (i ∈ idxs)); [by rewrite decide_True by (by right)|]. rewrite decide_False; [done|].
    by intros [|]%elem_of_cons.
Qed.

Lemma count_rejects_spec seen done s out o b bv :
  cert_inv seen done s (out ++ o) → b ∈ seen → (author b < committee_size c)%nat →
  bv ∈ block_transaction_votes (vb_inner b) →
  ∃ s' o', count_rejects ctx (author b) (s, o) bv = Ok (s', o') ∧ cert_inv seen done s' (out ++ o') ∧
    cs_gc_round s' = cs_gc_round s ∧
    (∀ t i a, counted s t i a → counted s' t i a) ∧
    (∀ i, i ∈ rejects bv → cs_gc_round s < ref_round (votes_block_ref bv) →
      counted s' (votes_block_ref bv) i (author b)).
Proof using Hc.
  intros Hinv Hb Ha Hbv. cbn. destruct (N.leb_spec (ref_round (votes_block_ref bv)) (cs_gc_round s)) as [Hle|Hgt].
  { exists s, o. split_and!; try done. lia. }
  pose proof (info_of _ _ _ _ (votes_block_ref bv) Hinv) as Hok. set (old := default _ _) in *.
  destruct (add_rejects_spec (author b) (reject_txn_votes old) (rejects bv) Ha) as (m' & -> & Hm').
  { intros i. apply (io_rejects _ _ _ _ Hok). }
  cbn [obind]. destruct (certify_entry seen done s (out ++ o) (votes_block_ref bv)
    (mkVoteInfo (vi_block old) (own_reject_txn_votes old) (accept_block_votes old) m' (is_certified old)))
    as (vi' & cert & -> & Hinv' & Hkeep & Hnew); try done.
  - destruct Hok as [H1 H2 H3 H4 H5]. split; try done; cbn; unfold rejecters; cbn.
    + intros i. apply Hm'.
    + intros i a. destruct (Hm' i) as [_ ->]. intros [Hin|Hin]%elem_of_union; [|by apply H5].
      case_decide as Hi; [|set_solver]. apply elem_of_singleton in Hin as ->. exists b.
      split; [done|]. split; [done|]. by exists bv.
  - intros i. fold old. unfold rejecters. cbn. destruct (Hm' i) as [_ ->]. set_solver.
  - cbn [obind]. eexists _, _. split; [done|]. rewrite app_assoc. split; [done|]. split; [done|]. split; [done|].
    intros i Hi _. apply Hnew. unfold rejecters. cbn. destruct (Hm' i) as [_ ->].
    rewrite decide_True by done. set_solver.
Qed.

Lemma count_all_rejects seen done s out o b votes :
  cert_inv seen done s (out ++ o) → b ∈ seen → (author b < committee_size c)%nat →
  votes ⊆ block_transaction_votes (vb_inner b) →
  ∃ s' o', for_each (count_rejects ctx (author b)) (s, o) votes = Ok (s', o') ∧
    cert_inv seen done s' (out ++ o') ∧ cs_gc_round s' = cs_gc_round s ∧
    (∀ t i a, counted s t i a → counted s' t i a) ∧
    (∀ t i, votes_reject votes t i → cs_gc_round s < ref_round t → counted s' t i (author b)).
Proof using Hc.
  revert s o. induction votes as [|bv votes IH]; intros s o Hinv Hb Ha Hsub.
  { exists s, o. split_and!; try done. intros t i (v & Hv & _). by apply elem_of_nil in Hv. }
  destruct (count_rejects_spec seen done s out o b bv) as (s1 & o1 & Hrun & Hinv1 & Hgc1 & Hk1 & Hn1); try done.
  { apply Hsub. by left. }
  cbn [for_each]. rewrite Hrun. cbn [obind].
  destruct (IH s1 o1 Hinv1 Hb Ha) as (s' & o' & -> & Hinv' & Hgc' & Hk' & Hn').
  { intros x Hx. apply Hsub. by right. }
  exists s', o'. split_and!; [done|done|congruence|by eauto|].
  intros t i (v & [->|Hv]%elem_of_cons & <- & Hi) Hg; [by apply Hk', Hn1|].
  apply Hn'; [by exists v|by rewrite Hgc1].
Qed.

(** The blocks processed so far: a block is new unless it is below the GC round or
    another block of the same reference was received. *)
Definition note_seen (s : CertifierState) (b : VerifiedBlock) (seen : list VerifiedBlock) : list VerifiedBlock :=
  if (cs_gc_round s <? round b) && negb (bool_decide (is_Some (cs_votes s !! reference b ≫= vi_block)))
  then b :: seen else seen.

Lemma info_ok_mono seen seen' done done' t vi :
  seen ⊆ seen' → done ⊆ done' → info_ok seen done t vi → info_ok seen' done' t vi.
Proof.
  intros Hs Hd [H1 H2 H3 H4 H5]. split; try done.
  - intros b Hb. destruct (H1 b Hb) as (? & ? & ?). split_and!; try done. by apply Hs.
  - intros a Ha. destruct (H3 a Ha) as (b & ? & ? & ?). exists b. split_and!; try done. by apply Hd.
  - intros i a Ha. destruct (H5 i a Ha) as (b & ? & ? & ?). exists b. split_and!; try done. by apply Hs.
Qed.

Lemma add_voted_block_spec seen s out b reject_votes :
  cert_inv seen seen s out → (author b < committee_size c)%nat →
  ∃ s' o, add_voted_block ctx s b reject_votes = Ok (s', o) ∧
    cert_inv (note_seen s b seen) (note_seen s b seen) s' (out ++ o).
Proof using Hc.
  intros Hinv Ha. unfold add_voted_block, note_seen. rewrite N.ltb_antisym.
  destruct (N.leb_spec (round b) (cs_gc_round s)) as [Hle|Hgt]; cbn.
  { exists s, []. by rewrite app_nil_r. }
  destruct (lookup_lt_is_Some_2 (authorities c) _ Ha) as [au Hau].
  rewrite (proj2 (authority_Ok _ _ _) Hau). cbn.
  replace (cs_votes s !! reference b ≫= vi_block) with (vi_block (default vote_info_default (cs_votes s !! reference b)))
    by (by destruct (cs_votes s !! reference b)).
  pose proof (info_of _ _ _ _ (reference b) Hinv) as Hok. set (old := default _ _) in *.
  destruct (vi_block old) as [b'|] eqn:Hold; cbn.
  { exists s, []. by rewrite app_nil_r. }
  set (vi := mkVoteInfo (Some b) reject_votes (accept_block_votes old) (reject_txn_votes old) (is_certified old)).
  assert (Hsub : seen ⊆ b :: seen) by (intros x Hx; by right).
  assert (Hinv1 : cert_inv (b :: seen) seen (set_vote_info (reference b) vi s) (out ++ [])).
  { rewrite app_nil_r. destruct Hinv as [_ Hi Hcm Hco Hon]. split; [done|..|done].
    - intros t v. cbn. rewrite lookup_insert_Some. intros [[<- <-]|[_ Hv]].
      + split; [done|]. apply (info_ok_mono _ (b :: seen) _ seen) in Hok; try done.
        destruct Hok as [_ ? ? ? ?]. split; cbn; try done. intros ? [= <-]. split_and!; [done|by left|done].
      + destruct (Hi t v Hv). split; [done|]. by apply (info_ok_mono seen _ seen _).
    - intros b' t i Hb' Hr Hg. destruct (Hcm b' t i Hb' Hr Hg) as (v & Hv & Hin). unfold counted. cbn.
      destruct (decide (t = reference b)) as [->|]; [|exists v; by rewrite lookup_insert_ne].
      exists vi. rewrite lookup_insert_eq. split; [done|]. unfold rejecters, vi, old. by rewrite Hv.
    - intros cb Hcb. destruct (Hco cb Hcb) as [Hj Hv]. split; [by eapply justified_mono|]. cbn. intros Hg.
      destruct (Hv Hg) as (v & Hv' & Hcert).
      destruct (decide (reference (cb_block cb) = reference b)) as [Heq|]; [|exists v; by rewrite lookup_insert_ne].
      rewrite Heq in *. exists vi. rewrite lookup_insert_eq. split; [done|]. cbn. unfold old. by rewrite Hv'. }
  destruct (count_all_rejects (b :: seen) seen _ out [] b (block_transaction_votes (vb_inner b)) Hinv1)
    as (s' & o & Hrun & [_ Hi Hcm Hco Hon] & Hgc & Hkeep & Hnew); [by left|done|done|].
  exists s', o. split; [done|]. split; try done.
  - intros t v Hv. destruct (Hi t v Hv). split; [done|]. by apply (info_ok_mono (b :: seen) _ seen _).
  - intros b' t i [->|Hb']%elem_of_cons Hr Hg; [|by apply (Hcm b')]. apply Hnew; [done|]. by rewrite <-Hgc.
Qed.

(** ** Accept votes of an own proposal *)

Lemma count_accept_spec seen s out o vb t :
  cert_inv seen seen s (out ++ o) → vb ∈ seen → (author vb < committee_size c)%nat → t ∈ ancestors vb →
  ∃ s' o', count_accept ctx vb (s, o) t = Ok (s', o') ∧ cert_inv seen seen s' (out ++ o').
Proof using Hc.
  intros Hinv Hvb Ha Ht. cbn. destruct (N.eqb_spec (u32_add (ref_round t) 1) (round vb)) as [Hr|]; cbn; [|by exists s, o].
  destruct (cs_votes s !! t) as [vi|] eqn:Hvi; [|by exists s, o].
  destruct (ci_info _ _ _ _ Hinv t vi Hvi) as [Hgc Hok]. unfold add_unique.
  destruct (insert_vote_spec c _ (author vb) Hc (io_accepts _ _ _ _ Hok) Ha) as (agg & -> & Hagg & Hvotes).
  cbn [obind]. destruct (certify_entry seen seen s (out ++ o) t
    (mkVoteInfo (vi_block vi) (own_reject_txn_votes vi) agg (reject_txn_votes vi) (is_certified vi)))
    as (vi' & cert & -> & Hinv' & _); try done.
  - destruct Hok as [H1 H2 H3 H4 H5]. split; try done. cbn. intros a. rewrite Hvotes.
    intros [->%elem_of_singleton|Hin]%elem_of_union; [by exists vb|by apply H3].
  - intros i. rewrite Hvi. cbn. done.
  - by rewrite Hvi.
  - cbn [obind]. eexists _, _. split; [done|]. by rewrite app_assoc.
Qed.

Lemma count_voting_ancestor_spec seen s out o p va :
  cert_inv seen seen s (out ++ o) →
  ∃ s' o', count_voting_ancestor ctx p (s, o) va = Ok (s', o') ∧ cert_inv seen seen s' (out ++ o').
Proof using Hc.
  intros Hinv. unfold count_voting_ancestor. destruct (_ =? _); cbn [negb fst]; [|by exists s, o].
  destruct (cs_votes s !! va) as [vi|] eqn:Hvi; [|by exists s, o].
  destruct (vi_block vi) as [vb|] eqn:Hvb; [|by exists s, o].
  destruct (ci_info _ _ _ _ Hinv va vi Hvi) as [_ Hok]. destruct (io_block _ _ _ _ Hok vb Hvb) as (_ & Hseen & Ha).
  destruct (for_each_total (count_accept ctx vb) (λ '(s, o), cert_inv seen seen s (out ++ o)) (ancestors vb) (s, o))
    as ([s' o'] & Hrun & Hinv'); [done| |by exists s', o'].
  intros [s1 o1] t Ht Hinv1. destruct (count_accept_spec seen s1 out o1 vb t) as (s2 & o2 & ? & ?); try done.
  by exists (s2, o2).
Qed.

Lemma add_proposed_block_spec seen s out p :
  cert_inv seen seen s out →
  ∃ s' o, add_proposed_block ctx s p = Ok (s', o) ∧ cert_inv seen seen s' (out ++ o).
Proof using Hc.
  intros Hinv. unfold add_proposed_block. destruct (_ <=? _); [exists s, []; by rewrite app_nil_r|].
  destruct (cs_votes s !! reference p); [|exists s, []; by rewrite app_nil_r].
  destruct (for_each_total (count_voting_ancestor ctx p) (λ '(s, o), cert_inv seen seen s (out ++ o)) (ancestors p) (s, []))
    as ([s' o'] & Hrun & Hinv'); [by rewrite app_nil_r| |by exists s', o'].
  intros [s1 o1] t _ Hinv1. destruct (count_voting_ancestor_spec seen s1 out o1 p t Hinv1) as (s2 & o2 & ? & ?).
  by exists (s2, o2).
Qed.
End spec.

(** ** Garbage collection *)

Lemma pop_gced_spec gc order : ∀ votes,
  StronglySorted (λ a b : BlockRef, ord_leb a b) order →
  ∀ r, pop_gced gc order votes !! r = if decide (r ∈ order ∧ ref_round r ≤ gc) then None else votes !! r.
Proof.
  induction order as [|x order IH]; intros votes Hs r; cbn.
  { rewrite decide_False; [done|]. by intros [?%elem_of_nil _]. }
  apply StronglySorted_cons in Hs as [Hx Hs]. rewrite Forall_forall in Hx.
  destruct (N.leb_spec (ref_round x) gc) as [Hle|Hgt].
  - rewrite IH by done. destruct (decide (r = x)) as [->|Hne].
    + rewrite lookup_delete_eq, (decide_True (P := x ∈ x :: order ∧ _)) by (split; [by left|done]). by case_decide.
    + rewrite lookup_delete_ne by done.
      by rewrite (decide_ext (r ∈ x :: order ∧ ref_round r ≤ gc) (r ∈ order ∧ ref_round r ≤ gc)) by set_solver.
  - rewrite decide_False; [done|]. intros [[->|Hr]%elem_of_cons Hle]; [lia|].
    pose proof (ord_leb_ref_round x r (proj1 (Is_true_true _) (Hx r Hr))). lia.
Qed.

(** Exactly the entries at or below the GC round are dropped. *)
Lemma update_gc_round_lookup s gc t :
  cs_votes (update_gc_round s gc) !! t = if decide (ref_round t ≤ gc) then None else cs_votes s !! t.
Proof.
  unfold update_gc_round. cbn. rewrite pop_gced_spec by apply btree_keys_sorted.
  destruct (decide (ref_round t ≤ gc)) as [Hle|Hgt]; [|rewrite decide_False by tauto; done].
  case_decide as Hin; [done|]. destruct (cs_votes s !! t) as [vi|] eqn:Hvi; [|done].
  destruct Hin. split; [|done]. apply list_elem_of_fmap. exists (t, vi). split; [done|]. by apply elem_of_btree_iter.
Qed.

Lemma update_gc_round_inv ctx seen s out gc :
  cert_inv ctx seen seen s out → cs_gc_round s ≤ gc → cert_inv ctx seen seen (update_gc_round s gc) out.
Proof.
  intros [Hd Hi Hcm Hco Hon] Hle. split; try done.
  - intros t vi. rewrite update_gc_round_lookup. case_decide as Hg; [done|]. intros Hvi.
    destruct (Hi t vi Hvi). split; [by apply N.nle_gt|done].
  - intros b t i Hb Hr Hg. destruct (Hcm b t i Hb Hr) as (vi & Hvi & Ha); [by eapply N.le_lt_trans|].
    exists vi. by rewrite update_gc_round_lookup, decide_False by (by apply N.nle_gt).
  - intros cb Hcb. destruct (Hco cb Hcb) as [Hj Hv]. split; [done|]. intros Hg.
    destruct Hv as (vi & Hvi & Hcert); [by eapply N.le_lt_trans|]. exists vi. by rewrite update_gc_round_lookup, decide_False by (by apply N.nle_gt).
Qed.

(** ** Runs of the certifier *)

(** [certifier_run ctx seen out s]: the certifier processed the blocks [seen], output the
    certified blocks [out] and is in state [s]. *)
Inductive certifier_run (ctx : Context) : list VerifiedBlock → list CertifiedBlock → CertifierState → Prop :=
| run_new : certifier_run ctx [] [] certifier_state_new
| run_voted seen out s b reject_votes s' o :
    certifier_run ctx seen out s → (author b < committee_size (committee ctx))%nat →
    add_voted_block ctx s b reject_votes = Ok (s', o) →
    certifier_run ctx (note_seen s b seen) (out ++ o) s'
| run_proposed seen out s p s' o :
    certifier_run ctx seen out s → add_proposed_block ctx s p = Ok (s', o) →
    certifier_run ctx seen (out ++ o) s'
| run_collect seen out s gc :
    certifier_run ctx seen out s → cs_gc_round s ≤ gc →
    certifier_run ctx seen out (update_gc_round s gc).

Lemma certifier_run_inv ctx seen out s :
  committee_ok (committee ctx) → certifier_run ctx seen out s → cert_inv ctx seen seen s out.
Proof.
  intros Hc. induction 1 as [|seen out s b rv s' o _ IH Ha Hrun|seen out s p s' o _ IH Hrun|seen out s gc _ IH Hle].
  - split; cbn; [done|done|..|constructor].
    + intros b t i Hb. by apply elem_of_nil in Hb.
    + intros cb Hcb. by apply elem_of_nil in Hcb.
  - destruct (add_voted_block_spec ctx Hc seen s out b rv IH Ha) as (s1 & o1 & Hrun' & Hinv). congruence.
  - destruct (add_proposed_block_spec ctx Hc seen s out p IH) as (s1 & o1 & Hrun' & Hinv). congruence.
  - by apply update_gc_round_inv.
Qed.

(** C34 (invariant): however blocks arrive, are proposed and are collected, the certifier
    never panics on blocks of committee members; the reject stake it reports for a
    transaction is the stake of the authorities whose processed blocks reject it; a block
    is certified at most once, and then a quorum accepted each of its transactions that
    is not listed as rejected, and a quorum rejected each one that is. *)
Theorem certifier_votes_exact ctx seen out s :
  committee_ok (committee ctx) → certifier_run ctx seen out s →
  (∀ b reject_votes, (author b < committee_size (committee ctx))%nat →
     ∃ s' o, add_voted_block ctx s b reject_votes = Ok (s', o)) ∧
  (∀ p, ∃ s' o, add_proposed_block ctx s p = Ok (s', o)) ∧
  (∀ t l i stake, get_reject_votes s t = Some l → (i, stake) ∈ l →
     ∃ V, stake = set_stake (committee ctx) V ∧
       ∀ a, a ∈ V ↔ ∃ b, b ∈ seen ∧ author b = a ∧ block_rejects b t i) ∧
  NoDup ((λ cb, reference (cb_block cb)) <$> out) ∧ Forall (justified ctx seen) out.
Proof.
  intros Hc Hrun. pose proof (certifier_run_inv ctx seen out s Hc Hrun) as Hinv. split_and!.
  - intros b rv Ha. destruct (add_voted_block_spec ctx Hc seen s out b rv Hinv Ha) as (s' & o & ? & _). eauto.
  - intros p. destruct (add_proposed_block_spec ctx Hc seen s out p Hinv) as (s' & o & ? & _). eauto.
  - intros t l i st. unfold get_reject_votes. destruct (cs_votes s !! t) as [vi|] eqn:Hvi; [|done]. cbn.
    intros [= <-] ([j agg] & [= -> ->] & Hin%elem_of_btree_iter)%list_elem_of_fmap.
    destruct (ci_info _ _ _ _ _ Hinv t vi Hvi) as [Hg Hok].
    assert (Hrej : rejecters vi j = agg) by (unfold rejecters; by rewrite Hin).
    exists (agg_votes agg). split; [rewrite <-Hrej; apply (io_rejects _ _ _ _ _ Hok)|]. intros a. split.
    + rewrite <-Hrej. apply (io_rejecters _ _ _ _ _ Hok).
    + intros (b & Hb & <- & Hr). destruct (ci_complete _ _ _ _ _ Hinv b t j Hb Hr Hg) as (vi' & Hvi' & Ha).
      rewrite Hvi in Hvi'. injection Hvi' as <-. by rewrite Hrej in Ha.
  - apply (ci_once _ _ _ _ _ Hinv).
  - apply Forall_forall. intros cb Hcb. by apply (ci_out _ _ _ _ _ Hinv).
Qed.

(** Correct authorities vote on a block in the first of their blocks that includes it:
    if a block of theirs has [t] as a parent, their reject votes on [t] are in it. *)
Definition votes_with_parent (faulty : gset AuthorityIndex) (seen1 seen2 : list VerifiedBlock) : Prop :=
  ∀ b b' t i, b ∈ seen1 → b' ∈ seen2 → author b = author b' → author b ∉ faulty →
    accepts_parent b t → block_rejects b' t i → block_rejects b t i.

Lemma justified_no_quorum ctx faulty seen1 seen2 cb i Q :
  committee_ok (committee ctx) → set_stake (committee ctx) faulty < validity_threshold (committee ctx) →
  votes_with_parent faulty seen1 seen2 → justified ctx seen1 cb → i ∉ cb_rejected cb →
  (∀ a, a ∈ Q → ∃ b, b ∈ seen2 ∧ author b = a ∧ block_rejects b (reference (cb_block cb)) i) →
  set_stake (committee ctx) Q < quorum_threshold (committee ctx).
Proof.
  intros Hc Hf Hvote Hj Hi HQ. apply N.lt_nge. intros Hq.
  destruct (ju_accepted _ _ _ Hj i Hi) as (A & Ha & HA).
  destruct (quorums_share_honest (committee ctx) A Q faulty Hc Ha Hq Hf) as (a & HaA & HaQ & Hh).
  destruct (HA a HaA) as (b & Hb & <- & Hpar & Hnot). destruct (HQ _ HaQ) as (b' & Hb' & Heq & Hr).
  apply Hnot. by apply (Hvote b b').
Qed.

(** C7 (safety): the fast path is safe.  When less than f+1 stake is faulty, a transaction
    that one validator certified never gets a quorum of reject votes at another one; and
    two validators that certify the same block agree on the transactions it rejects. *)
Theorem fastpath_agreement ctx faulty seen1 out1 s1 seen2 out2 s2 cb1 :
  committee_ok (committee ctx) → set_stake (committee ctx) faulty < validity_threshold (committee ctx) →
  certifier_run ctx seen1 out1 s1 → certifier_run ctx seen2 out2 s2 →
  votes_with_parent faulty seen1 seen2 → votes_with_parent faulty seen2 seen1 → cb1 ∈ out1 →
  (∀ i l stake, i ∉ cb_rejected cb1 → get_reject_votes s2 (reference (cb_block cb1)) = Some l → (i, stake) ∈ l →
     stake < quorum_threshold (committee ctx)) ∧
  (∀ cb2 i, cb2 ∈ out2 → reference (cb_block cb2) = reference (cb_block cb1) →
     i ∈ cb_rejected cb1 ↔ i ∈ cb_rejected cb2).
Proof.
  intros Hc Hf Hrun1 Hrun2 Hv12 Hv21 Hcb1.
  pose proof (certifier_run_inv _ _ _ _ Hc Hrun1) as Hinv1. pose proof (certifier_run_inv _ _ _ _ Hc Hrun2) as Hinv2.
  destruct (ci_out _ _ _ _ _ Hinv1 cb1 Hcb1) as [Hj1 _]. split.
  - intros i l st Hi. unfold get_reject_votes. destruct (cs_votes s2 !! _) as [vi|] eqn:Hvi; [|done]. cbn.
    intros [= <-] ([j agg] & [= -> ->] & Hin%elem_of_btree_iter)%list_elem_of_fmap.
    destruct (ci_info _ _ _ _ _ Hinv2 _ vi Hvi) as [_ Hok].
    assert (Hrej : rejecters vi j = agg) by (unfold rejecters; by rewrite Hin).
    rewrite <-Hrej, (agg_stake_eq _ _ (io_rejects _ _ _ _ _ Hok j)).
    apply (justified_no_quorum ctx faulty seen1 seen2 cb1 j); try done. apply (io_rejecters _ _ _ _ _ Hok).
  - intros cb2 i Hcb2 Heq. destruct (ci_out _ _ _ _ _ Hinv2 cb2 Hcb2) as [Hj2 _]. split; intros Hi;
      apply dec_stable; intros Hno.
    + destruct (ju_rejected _ _ _ Hj1 i Hi) as (Q & Hq & HQ). rewrite <-Heq in HQ.
      pose proof (justified_no_quorum ctx faulty seen2 seen1 cb2 i Q Hc Hf Hv21 Hj2 Hno HQ). lia.
    + destruct (ju_rejected _ _ _ Hj2 i Hi) as (Q & Hq & HQ). rewrite Heq in HQ.
      pose proof (justified_no_quorum ctx faulty seen1 seen2 cb1 i Q Hc Hf Hv12 Hj1 Hno HQ). lia.
Qed.

(** ** Witnesses: a committee of four in which one authority rejects a transaction *)

Definition certifier_step (ctx : Context) (acc : list VerifiedBlock * list CertifiedBlock * CertifierState)
    (b : VerifiedBlock) : outcome (list VerifiedBlock * list CertifiedBlock * CertifierState) :=
  let '(seen, out, s) := acc in
  let! '(s', o) := add_voted_block ctx s b [] in Ok (note_seen s b seen, out ++ o, s').

Lemma certifier_steps_run ctx bs : ∀ seen out s seen' out' s',
  certifier_run ctx seen out s → Forall (λ b, (author b < committee_size (committee ctx))%nat) bs →
  for_each (certifier_step ctx) (seen, out, s) bs = Ok (seen', out', s') → certifier_run ctx seen' out' s'.
Proof.
  induction bs as [|b bs IH]; intros seen out s seen' out' s' Hrun Hbs; cbn [for_each]; [by intros [= <- <- <-]|].
  apply Forall_cons in Hbs as [Hb Hbs]. cbn.
  destruct (add_voted_block ctx s b []) as [[s1 o]| |] eqn:Hadd; cbn; try done.
  apply IH; [|done]. by eapply run_voted.
Qed.

Definition fast_block (r : Round) (a : AuthorityIndex) (anc : list BlockRef) (tv : list BlockTransactionVotes) :
    VerifiedBlock :=
  mkVerifiedBlock (mkSignedBlock (V2 (mkBlockV2 0 r a r anc [] tv [] [] None [])) []) (10 * r + N.of_nat a) [].

Definition fast_ref (r : Round) (a : AuthorityIndex) : BlockRef := mkBlockRef r a (10 * r + N.of_nat a).
Definition fast_votes (a : AuthorityIndex) : list BlockTransactionVotes :=
  if (a =? 3)%nat then [mkBlockTransactionVotes (fast_ref 1 0) [0]] else [].
Definition fast_blocks : list VerifiedBlock :=
  ((λ a, fast_block 1 a (fast_ref 0 <$> seq 0 4) []) <$> seq 0 4) ++
  ((λ a, fast_block 2 a (fast_ref 1 <$> seq 0 4) (fast_votes a)) <$> seq 0 4) ++
  [fast_block 3 0 (fast_ref 2 <$> seq 0 4) []].

Definition fast_received : list VerifiedBlock * list CertifiedBlock * CertifierState :=
  of_outcome (for_each (certifier_step context4) ([], [], certifier_state_new) fast_blocks)
    ([], [], certifier_state_new).
Definition fast_state : CertifierState * list CertifiedBlock :=
  of_outcome (add_proposed_block context4 fast_received.2 (fast_block 3 0 (fast_ref 2 <$> seq 0 4) []))
    (certifier_state_new, []).

Lemma fast_run : certifier_run context4 fast_received.1.1 (fast_received.1.2 ++ fast_state.2) fast_state.1.
Proof.
  apply (run_proposed context4 _ _ fast_received.2 (fast_block 3 0 (fast_ref 2 <$> seq 0 4) [])).
  - apply (certifier_steps_run context4 fast_blocks [] [] certifier_state_new); [constructor| |vm_compute; reflexivity].
    apply Forall_forall. vm_compute. intros b Hb. repeat (apply elem_of_cons in Hb as [->|Hb]; [cbn; lia|]).
    by apply elem_of_nil in Hb.
  - vm_compute. reflexivity.
Qed.

Lemma certifier_votes_exact_witness :
  fast_state.2 <> [] ∧ Forall (justified context4 fast_received.1.1) (fast_received.1.2 ++ fast_state.2).
Proof.
  split; [vm_compute; discriminate|].
  apply (certifier_votes_exact context4 _ _ _ committee4_ok fast_run).
Defined.

Definition votes_with_parentb (seen1 seen2 : list VerifiedBlock) : bool :=
  forallb (λ b, forallb (λ b', negb (author b =? author b')%nat ||
    forallb (λ v, negb (bool_decide (accepts_parent b (votes_block_ref v))) ||
      existsb (λ w, bool_decide (votes_block_ref w = votes_block_ref v) &&
        forallb (λ i, bool_decide (i ∈ rejects w)) (rejects v)) (block_transaction_votes (vb_inner b)))
      (block_transaction_votes (vb_inner b'))) seen2) seen1.

Lemma votes_with_parentb_ok faulty seen1 seen2 :
  votes_with_parentb seen1 seen2 = true → votes_with_parent faulty seen1 seen2.
Proof.
  intros Hb b b' t i Hb1 Hb2 Heq _ Hpar (v & Hv & <- & Hi). unfold votes_with_parentb in Hb.
  rewrite forallb_forall in Hb. setoid_rewrite forallb_forall in Hb. setoid_rewrite <-list_elem_of_In in Hb.
  specialize (Hb b Hb1 b' Hb2). rewrite Heq, Nat.eqb_refl in Hb. cbn in Hb.
  rewrite forallb_forall in Hb. setoid_rewrite <-list_elem_of_In in Hb. specialize (Hb v Hv).
  rewrite bool_decide_eq_true_2 in Hb by done. cbn in Hb.
  apply existsb_exists in Hb as (w & Hw & [Hr%bool_decide_eq_true Hall]%andb_true_iff).
  apply list_elem_of_In in Hw. exists w. split; [done|]. split; [done|].
  rewrite forallb_forall in Hall. setoid_rewrite <-list_elem_of_In in Hall. by eapply bool_decide_eq_true_1, Hall.
Qed.

Lemma fastpath_agreement_witness :
  ∃ cb, cb ∈ fast_received.1.2 ++ fast_state.2 ∧ reference (cb_block cb) = fast_ref 1 0 ∧
    ∀ i l stake, i ∉ cb_rejected cb → get_reject_votes fast_state.1 (fast_ref 1 0) = Some l → (i, stake) ∈ l →
      stake < quorum_threshold committee4.
Proof.
  set (cb := mkCertifiedBlock (fast_block 1 0 (fast_ref 0 <$> seq 0 4) []) []).
  assert (Hcb : cb ∈ fast_received.1.2 ++ fast_state.2)
    by (apply list_elem_of_lookup; exists 3%nat; vm_compute; reflexivity).
  exists cb. split; [exact Hcb|]. split; [reflexivity|].
  assert (Hvote : votes_with_parent {[3%nat]} fast_received.1.1 fast_received.1.1)
    by (apply votes_with_parentb_ok; vm_compute; reflexivity).
  apply (fastpath_agreement context4 {[3%nat]} fast_received.1.1 (fast_received.1.2 ++ fast_state.2) fast_state.1
    fast_received.1.1 (fast_received.1.2 ++ fast_state.2) fast_state.1 cb committee4_ok);
    [vm_compute; reflexivity|apply fast_run|apply fast_run|exact Hvote|exact Hvote|exact Hcb].
Defined.
