(* ===== verification/CommitSyncer.v ===== *)
(** * The commit syncer ([core/src/commit_syncer.rs])

    A validator that lags behind fetches ranges of commits from its peers, verifies them
    and hands them to the core in order.  This file models the scheduler, one fetch and
    the verification of a response; what peers send is an argument.  The theorems are in
    [CommitSyncerSpec]. *)

From S2P Require Import Prelude Collections Weighted Committee Types Fixtures Commits StakeAggregator.
From S2P Require Import ThresholdClock LeaderScoring Storage DagState DagStateSpec DagRecovery Errors BlockVerifier.
From S2P Require Import TransactionCertifier.

Local Open Scope N_scope.

(** ** Certified commits ([core/src/commit.rs]) *)

Record CertifiedCommit := mkCertifiedCommit {
  cc_commit : TrustedCommit;
  cc_blocks : list VerifiedBlock;
}.

Record CertifiedCommits := mkCertifiedCommits {
  certified_commits : list CertifiedCommit;
  certifying_votes : list VerifiedBlock;
}.

(** The parameters read by the syncer ([config/src/parameters.rs]). *)
Record SyncParameters := mkSyncParameters {
  commit_sync_parallel_fetches : nat;
  commit_sync_batch_size : N;
  commit_sync_batches_ahead : nat;
  max_blocks_per_fetch : nat;
}.

(** Deserialization ([bcs::from_bytes]). *)
Record Decoder := mkDecoder {
  commit_from_bytes : Bytes → option Commit;
  block_from_bytes : Bytes → option SignedBlock;
}.

(** ** Verification of a response *)

Section verify.
Context (ck : Crypto) (cd : Codec) (dec : Decoder) (v : SignedBlockVerifier) (ctx : Context).
Abbreviation c := (committee ctx).

(** The checks of a commit against the one before it. *)
Definition check_next_commit (peer : AuthorityIndex) (range : CommitRange) (commits : list (CommitDigest * Commit))
    (commit : Commit) : option ConsensusError :=
  match last commits with
  | None =>
      if commit_index commit =? range_start range then None
      else Some (UnexpectedStartCommit peer (range_start range) commit)
  | Some (last_digest, last_commit) =>
      if (commit_index commit =? u32_add (commit_index last_commit) 1) &&
         (commit_previous_digest commit =? last_digest) then None
      else Some (UnexpectedCommitSequence peer last_commit commit)
  end.

Fixpoint parse_commits (peer : AuthorityIndex) (range : CommitRange) (commits : list (CommitDigest * Commit))
    (serialized_commits : list Bytes) : ConsensusError + list (CommitDigest * Commit) :=
  match serialized_commits with
  | [] => inr commits
  | serialized :: rest =>
      match commit_from_bytes dec serialized with
      | None => inl MalformedCommit
      | Some commit =>
          match check_next_commit peer range commits commit with
          | Some e => inl e
          | None =>
              if range_end range <? commit_index commit then inr commits
              else parse_commits peer range (commits ++ [(hash_bytes cd serialized, commit)]) rest
          end
      end
  end.

(** [for vote in block.commit_votes()] *)
Definition count_commit_vote (end_commit : CommitRef) (a : AuthorityIndex) (agg : StakeAggregator)
    (vote : CommitVote) : outcome StakeAggregator :=
  if decide (vote = end_commit) then omap_ok fst (add QuorumThreshold c agg a) else Ok agg.

Fixpoint verify_vote_blocks (end_commit : CommitRef) (cs : CertifierState) (agg : StakeAggregator)
    (vote_blocks : list VerifiedBlock) (serialized_vote_blocks : list Bytes) :
    outcome (CertifierState * (ConsensusError + StakeAggregator * list VerifiedBlock)) :=
  match serialized_vote_blocks with
  | [] => Ok (cs, inr (agg, vote_blocks))
  | serialized :: rest =>
      match block_from_bytes dec serialized with
      | None => Ok (cs, inl MalformedBlock)
      | Some block =>
          let! r := verify_and_vote ck cd v block serialized in
          match r with
          | inl e => Ok (cs, inl e)
          | inr (block, reject_votes) =>
              let! cs :=
                if mysticeti_fastpath (protocol_config ctx)
                then omap_ok fst (certifier_add_voted_blocks ctx cs [(block, reject_votes)]) else Ok cs in
              let! agg := for_each (count_commit_vote end_commit (author block)) agg (commit_votes block) in
              verify_vote_blocks end_commit cs agg (vote_blocks ++ [block]) rest
          end
      end
  end.

Definition verify_commits (cs : CertifierState) (peer : AuthorityIndex) (range : CommitRange)
    (serialized_commits serialized_vote_blocks : list Bytes) :
    outcome (CertifierState * (ConsensusError + list TrustedCommit * list VerifiedBlock)) :=
  match parse_commits peer range [] serialized_commits with
  | inl e => Ok (cs, inl e)
  | inr commits =>
      match last commits with
      | None => Ok (cs, inl (NoCommitReceived peer))
      | Some (end_digest, end_commit) =>
          let! '(cs, r) := verify_vote_blocks (mkCommitRef (commit_index end_commit) end_digest) cs aggregator_new []
            serialized_vote_blocks in
          match r with
          | inl e => Ok (cs, inl e)
          | inr (agg, vote_blocks) =>
              if negb (reached_threshold QuorumThreshold c agg)
              then Ok (cs, inl (NotEnoughCommitVotes (agg_stake agg) peer end_commit))
              else Ok (cs, inr (zip_with (λ p s, new_trusted cd p.2 s) commits serialized_commits, vote_blocks))
          end
      end
  end.

(** ** One fetch *)

(** Checks the blocks of one response against the requested references. *)
Fixpoint match_requested (peer : AuthorityIndex) (requested : list BlockRef) (blocks : list SignedBlock)
    (serialized : list Bytes) : ConsensusError + list VerifiedBlock :=
  match requested, blocks, serialized with
  | r :: requested, b :: blocks, s :: serialized =>
      let received := mkBlockRef (block_round (sb_inner b)) (block_author (sb_inner b)) (hash_bytes cd s) in
      if decide (r = received) then
        match match_requested peer requested blocks serialized with
        | inl e => inl e
        | inr rest => inr (new_verified cd b s :: rest)
        end
      else inl (UnexpectedBlockForCommit peer r received)
  | _, _, _ => inr []
  end.

Fixpoint parse_blocks (serialized : list Bytes) : ConsensusError + list SignedBlock :=
  match serialized with
  | [] => inr []
  | s :: rest =>
      match block_from_bytes dec s with
      | None => inl MalformedBlock
      | Some b => match parse_blocks rest with inl e => inl e | inr bs => inr (b :: bs) end
      end
  end.

(** One request for blocks; [response] is what the peer answered. *)
Definition fetch_chunk (peer : AuthorityIndex) (response : list BlockRef → ConsensusError + list Bytes)
    (requested : list BlockRef) : ConsensusError + list VerifiedBlock :=
  match response requested with
  | inl e => inl e
  | inr serialized =>
      if negb (length requested =? length serialized)%nat
      then inl (UnexpectedNumberOfBlocksFetched peer (length requested) (length serialized)) else
      match parse_blocks serialized with
      | inl e => inl e
      | inr blocks => match_requested peer requested blocks serialized
      end
  end.

Fixpoint fetch_chunks (peer : AuthorityIndex) (response : list BlockRef → ConsensusError + list Bytes)
    (fetched : gmap BlockRef VerifiedBlock) (requests : list (list BlockRef)) :
    ConsensusError + gmap BlockRef VerifiedBlock :=
  match requests with
  | [] => inr fetched
  | requested :: rest =>
      match fetch_chunk peer response requested with
      | inl e => inl e
      | inr blocks => fetch_chunks peer response (foldl (λ m b, <[reference b := b]> m) fetched blocks) rest
      end
  end.

(** [fetched_blocks.remove(block_ref).expect("Block should exist")] *)
Definition take_block (acc : gmap BlockRef VerifiedBlock * list VerifiedBlock) (r : BlockRef) :
    outcome (gmap BlockRef VerifiedBlock * list VerifiedBlock) :=
  let! b := expect (acc.1 !! r) "Block should exist" in
  Ok (delete r acc.1, acc.2 ++ [b]).

Definition assign_blocks (acc : gmap BlockRef VerifiedBlock * list CertifiedCommit) (commit : TrustedCommit) :
    outcome (gmap BlockRef VerifiedBlock * list CertifiedCommit) :=
  let! '(fetched, blocks) := for_each take_block (acc.1, []) (commit_blocks (tcm_inner commit)) in
  Ok (fetched, acc.2 ++ [mkCertifiedCommit commit blocks]).

Definition fetch_once (params : SyncParameters) (cs : CertifierState) (peer : AuthorityIndex) (range : CommitRange)
    (commits_response : ConsensusError + list Bytes * list Bytes)
    (blocks_response : list BlockRef → ConsensusError + list Bytes) :
    outcome (CertifierState * (ConsensusError + CertifiedCommits)) :=
  match commits_response with
  | inl e => Ok (cs, inl e)
  | inr (serialized_commits, serialized_blocks) =>
      let! '(cs, r) := verify_commits cs peer range serialized_commits serialized_blocks in
      match r with
      | inl e => Ok (cs, inl e)
      | inr (commits, vote_blocks) =>
          let refs := sort_by ord_leb (concat ((λ c, commit_blocks (tcm_inner c)) <$> commits)) in
          do! rassert (negb (max_blocks_per_fetch params =? 0)%nat) "attempt to divide by zero" in
          match fetch_chunks peer blocks_response ∅ (chunks (length refs) (max_blocks_per_fetch params) refs) with
          | inl e => Ok (cs, inl e)
          | inr fetched =>
              let! '(_, certified) := for_each assign_blocks (fetched, []) commits in
              let! cs :=
                if mysticeti_fastpath (protocol_config ctx)
                then for_each (λ cs b, omap_ok fst (certifier_add_voted_blocks ctx cs [(b, [])])) cs
                       (concat (cc_blocks <$> certified))
                else Ok cs in
              Ok (cs, inr (mkCertifiedCommits certified vote_blocks))
          end
      end
  end.
End verify.

(** ** The scheduler *)

(** Ranges are ordered by their inclusive start and end; the model names a range by this
    pair. *)
Abbreviation SyncRange := (N * N)%type (only parsing).

Record CommitSyncer := mkCommitSyncer {
  inflight_fetches : list SyncRange;
  pending_fetches : gset SyncRange;
  fetched_ranges : gmap SyncRange CertifiedCommits;
  highest_scheduled_index : option CommitIndex;
  highest_fetched_commit_index : CommitIndex;
  synced_commit_index : CommitIndex;
  is_sync_mode : bool;
}.

Definition commit_syncer_new (last_commit : CommitIndex) : CommitSyncer :=
  mkCommitSyncer [] ∅ ∅ None 0 last_commit false.

Definition unhandled_commits_threshold (params : SyncParameters) : CommitIndex :=
  u32_mul (commit_sync_batch_size params) (N.of_nat (commit_sync_batches_ahead params)).

(** [lag as f64 / quorum as f64 * 100.0 > pct], which is exact on 32-bit integers for
    these percentages. *)
Definition lag_above_percentage (pct lag quorum : N) : bool := (0 <? quorum) && (pct * quorum <? lag * 100).

Definition should_sync (lag quorum : N) : bool := (50 <? lag) || lag_above_percentage 5 lag quorum.

Definition effective_batch_size (params : SyncParameters) (sync_mode : bool) (lag quorum : N) : N :=
  let base := commit_sync_batch_size params in
  if sync_mode then
    if (200 <? lag) || lag_above_percentage 10 lag quorum then u32_mul base 2 else u32_add base (base `div` 2)
  else base.

(** The loop that schedules ranges, one iteration for each [prev_end]. *)
Fixpoint schedule_ranges (steps : nat) (batch quorum handled_limit prev_end : N)
    (pending : gset SyncRange) (scheduled : option CommitIndex) : gset SyncRange * option CommitIndex :=
  match steps with
  | O => (pending, scheduled)
  | S steps =>
      let range_start := u32_add prev_end 1 in
      let range_end := u32_add prev_end batch in
      if quorum <? range_end then (pending, scheduled)
      else if handled_limit <? range_end then (pending, scheduled)
      else schedule_ranges steps batch quorum handled_limit (prev_end + batch)
             ({[(range_start, range_end)]} ∪ pending) (Some range_end)
  end.

(** The number of values of [(first..=last).step_by(step)]. *)
Definition step_count (first last step : N) : nat :=
  if first <=? last then S (N.to_nat ((last - first) `div` step)) else O.

Definition try_schedule_once (params : SyncParameters) (s : CommitSyncer)
    (quorum_commit_index local_commit_index highest_handled_index : CommitIndex) : outcome CommitSyncer :=
  let synced := N.max (synced_commit_index s) local_commit_index in
  let lag := saturating_sub quorum_commit_index local_commit_index in
  let sync_mode := should_sync lag quorum_commit_index in
  let fetch_after_index := N.max synced (default 0 (highest_scheduled_index s)) in
  let batch := effective_batch_size params sync_mode lag quorum_commit_index in
  do! rassert (negb (batch =? 0)) "assertion failed: step != 0" in
  let threshold := unhandled_commits_threshold params in
  let limit := u32_add highest_handled_index (if sync_mode then u32_mul threshold 2 else threshold) in
  let '(pending, scheduled) :=
    schedule_ranges (step_count fetch_after_index quorum_commit_index batch) batch quorum_commit_index limit
      fetch_after_index (pending_fetches s) (highest_scheduled_index s) in
  Ok (mkCommitSyncer (inflight_fetches s) pending (fetched_ranges s) scheduled (highest_fetched_commit_index s)
        synced sync_mode).

Definition target_parallel_fetches (params : SyncParameters) (c : Committee) (s : CommitSyncer) : nat :=
  let base := commit_sync_parallel_fetches params in
  let effective := if is_sync_mode s then Nat.min (base + base / 2) (committee_size c) else base in
  Nat.max 1 (Nat.min (Nat.min effective (committee_size c * 2 / 3))
                     (commit_sync_batches_ahead params - size (fetched_ranges s)))%nat.

(** Starts fetches of pending ranges in order while there are free slots. *)
Fixpoint start_fetches (slots : nat) (s : CommitSyncer) : CommitSyncer :=
  match slots with
  | O => s
  | S slots =>
      match bset_first (pending_fetches s) with
      | None => s
      | Some r =>
          start_fetches slots
            (mkCommitSyncer (inflight_fetches s ++ [r]) (pending_fetches s ∖ {[r]}) (fetched_ranges s)
               (highest_scheduled_index s) (highest_fetched_commit_index s) (synced_commit_index s) (is_sync_mode s))
      end
  end.

Definition try_start_fetches (params : SyncParameters) (c : Committee) (s : CommitSyncer) : CommitSyncer :=
  start_fetches (target_parallel_fetches params c s - length (inflight_fetches s)) s.

(** The core, as the syncer sees it: the index of its last commit, and the call that
    hands over commits, answered by the missing ancestors or, on shutdown, by an error. *)
Class CoreDispatcher (K : Type) := {
  core_last_commit_index : K → CommitIndex;
  core_add_certified_commits : K → CertifiedCommits → outcome (K * option (gset BlockRef));
}.

Section scheduler.
Context {K : Type} `{CoreDispatcher K} (c : Committee).

(** What the loop over the fetched ranges did: the core, the ranges left, the synced
    index, the ranges handed over and whether the core shut down. *)
Record Processed := mkProcessed {
  pr_core : K;
  pr_fetched : gmap SyncRange CertifiedCommits;
  pr_synced : CommitIndex;
  pr_delivered : list (SyncRange * CertifiedCommits);
  pr_shutdown : bool;
}.

Fixpoint process_fetched (fuel : nat) (p : Processed) : outcome Processed :=
  match fuel with
  | O => OutOfFuel
  | S fuel =>
      match btree_first (pr_fetched p) with
      | None => Ok p
      | Some (r, commits) =>
          if r.1 <=? u32_add (pr_synced p) 1 then
            let fetched := delete r (pr_fetched p) in
            if r.2 <=? pr_synced p
            then process_fetched fuel (mkProcessed (pr_core p) fetched (pr_synced p) (pr_delivered p) (pr_shutdown p))
            else
              let! '(k, reply) := core_add_certified_commits (pr_core p) commits in
              match reply with
              | None => Ok (mkProcessed k fetched (pr_synced p) (pr_delivered p) true)
              | Some missing =>
                  do! map_each (λ r, authority c (ref_author r)) (bset_iter missing) in
                  process_fetched fuel
                    (mkProcessed k fetched (N.max (pr_synced p) r.2) (pr_delivered p ++ [(r, commits)]) (pr_shutdown p))
              end
          else Ok p
      end
  end.

(** [handle_fetch_result], for the fetch of a range ending at [target_end] that is no
    longer in flight. *)
Definition handle_fetch_result (s : CommitSyncer) (k : K) (target_end : CommitIndex) (commits : CertifiedCommits) :
    outcome (CommitSyncer * Processed) :=
  let! first := expect (head (certified_commits commits)) "assertion failed: !certified_commits.commits().is_empty()" in
  let! final := expect (last (certified_commits commits)) "called `Option::unwrap()` on a `None` value" in
  let commit_start := commit_index (tcm_inner (cc_commit first)) in
  let commit_end := commit_index (tcm_inner (cc_commit final)) in
  let pending :=
    if commit_end <? target_end then {[(u32_add commit_end 1, target_end)]} ∪ pending_fetches s else pending_fetches s in
  let synced := N.max (synced_commit_index s) (core_last_commit_index k) in
  let fetched :=
    if synced <? commit_end then <[(commit_start, commit_end) := commits]> (fetched_ranges s) else fetched_ranges s in
  let! p := process_fetched (S (size fetched)) (mkProcessed k fetched synced [] false) in
  Ok (mkCommitSyncer (inflight_fetches s) pending (pr_fetched p) (highest_scheduled_index s)
        (N.max (highest_fetched_commit_index s) commit_end) (pr_synced p) (is_sync_mode s), p).
End scheduler.
Arguments Processed K : clear implicits.
