(* ===== verification/CommitSyncerSpec.v ===== *)
(** * Correctness of the commit syncer

    A verified response is a chain of commits whose end has the votes of a quorum; two
    verified responses never contradict each other; a fetch returns the blocks of the
    commits it verified. *)

From S2P Require Import Prelude Collections Weighted Committee Types Fixtures Commits StakeAggregator.
From S2P Require Import ThresholdClock LeaderScoring Storage DagState DagStateSpec DagRecovery Errors BlockVerifier.
From S2P Require Import TransactionCertifier TransactionCertifierSpec CommitSyncer.

Local Open Scope N_scope.

(** ** Verified responses *)

(** A commit read from bytes, under the digest of the bytes. *)
Definition genuine (cd : Codec) (dec : Decoder) (c : TrustedCommit) : Prop :=
  commit_from_bytes dec (tcm_serialized c) = Some (tcm_inner c) ∧ tcm_digest c = hash_bytes cd (tcm_serialized c).

(** Consecutive commits, each referring to the digest of the one before. *)
Definition commit_chain (l : list TrustedCommit) : Prop :=
  ∀ i x y, l !! i = Some x → l !! S i = Some y →
    commit_index (tcm_inner y) = commit_index (tcm_inner x) + 1 ∧
    commit_previous_digest (tcm_inner y) = tcm_digest x.

(** The authors of the blocks that vote for a commit. *)
Definition commit_voters (r : CommitRef) (votes : list VerifiedBlock) : gset AuthorityIndex :=
  list_to_set (author <$> filter (λ b, r ∈ commit_votes b) votes).

Record certified_response (ck : Crypto) (cd : Codec) (dec : Decoder) (v : SignedBlockVerifier) (range : CommitRange)
    (serialized : list Bytes) (commits : list TrustedCommit) (votes : list VerifiedBlock) : Prop := {
  cr_start x : head commits = Some x → commit_index (tcm_inner x) = range_start range;
  cr_chain : commit_chain commits;
  cr_range : Forall (λ x, commit_index (tcm_inner x) ≤ range_end range) commits;
  cr_genuine : Forall (genuine cd dec) commits;
  cr_bytes : tcm_serialized <$> commits `prefix_of` serialized;
  cr_votes : Forall (λ b, valid_block ck v (vb_block b)) votes;
  cr_quorum : ∃ e, last commits = Some e ∧
    quorum_threshold (committee (bv_context v)) ≤ set_stake (committee (bv_context v)) (commit_voters (commit_reference e) votes);
}.

Section verify.
Context (ck : Crypto) (cd : Codec) (dec : Decoder) (v : SignedBlockVerifier).
Abbreviation ctx := (bv_context v).
Abbreviation c := (committee ctx).
Hypothesis Hc : committee_ok c.
(** The transactions of a received block fit in memory. *)
Hypothesis Hbytes : ∀ s sb, block_from_bytes dec s = Some sb →
  sumN ((λ t : Bytes, N.of_nat (length t)) <$> (data <$> block_transactions (sb_inner sb))) < u64_modulus.

Lemma verify_and_vote_answer s sb :
  block_from_bytes dec s = Some sb →
  (∃ e, verify_and_vote ck cd v sb s = Ok (inl e)) ∨
  (∃ rejected, verify_and_vote ck cd v sb s = Ok (inr (new_verified cd sb s, rejected)) ∧ valid_block ck v sb).
Proof using Hc Hbytes.
  intros Hs%Hbytes. destruct (verify_block_answers ck v sb Hc Hs) as [[e|[]] Hans]; unfold verify_and_vote; rewrite Hans; cbn.
  - left. by eexists.
  - assert (Hvalid : valid_block ck v sb) by (by apply verify_block_valid).
    destruct (mysticeti_fastpath _); [unfold vote; destruct (verify_and_vote_batch _ _ _)|destruct (verify_batch _ _)];
      cbn; eauto.
Qed.

(** What is known of the commits parsed so far. *)
Record parsed (range : CommitRange) (l : list TrustedCommit) : Prop := {
  pa_start x : head l = Some x → commit_index (tcm_inner x) = range_start range;
  pa_chain : commit_chain l;
  pa_range : Forall (λ x, commit_index (tcm_inner x) ≤ range_end range) l;
  pa_genuine : Forall (genuine cd dec) l;
}.

Abbreviation pairs_of := (fmap (λ x, (tcm_digest x, tcm_inner x))).

Lemma parsed_snoc peer range l commit s :
  range_hi range ≤ u32_max → parsed range l → commit_from_bytes dec s = Some commit →
  check_next_commit peer range (pairs_of l) commit = None → commit_index commit ≤ range_end range →
  parsed range (l ++ [new_trusted cd commit s]).
Proof.
  intros Hhi [Hst Hch Hra Hge] Hdec Hnext Hle. unfold check_next_commit in Hnext. rewrite fmap_last in Hnext. split.
  - destruct l as [|y l]; [|by apply Hst]. cbn in *. intros x [= <-]. cbn.
    by destruct (N.eqb_spec (commit_index commit) (range_start range)).
  - intros i x y Hx Hy. destruct (decide (S i < length l)%nat) as [Hi|Hi].
    + rewrite lookup_app_l in Hx, Hy by lia. by apply (Hch i).
    + assert (S i = length l) as Hlen.
      { apply lookup_lt_Some in Hy. rewrite length_app in Hy. cbn in Hy. lia. }
      rewrite lookup_app_l in Hx by lia. rewrite lookup_app_r, Hlen, Nat.sub_diag in Hy by lia. injection Hy as <-.
      assert (last l = Some x) as Hlast by (rewrite last_lookup, <-Hlen; done).
      rewrite Hlast in Hnext. cbn in Hnext.
      destruct (_ && _) eqn:E; [|done]. apply andb_true_iff in E as [E1%N.eqb_eq E2%N.eqb_eq]. cbn. split; [|done].
      rewrite E1. rewrite Forall_lookup in Hra. specialize (Hra i x Hx). unfold range_end, saturating_sub in Hra.
      destruct (N.eq_dec (range_hi range) 0); [unfold range_end in Hle; machine_lia|machine_lia].
  - apply Forall_app. split; [done|]. by repeat constructor.
  - apply Forall_app. split; [done|]. by repeat constructor.
Qed.

Lemma parse_commits_spec peer range ser : ∀ l out,
  range_hi range ≤ u32_max → parsed range l → parse_commits cd dec peer range (pairs_of l) ser = inr out →
  ∃ ext, out = pairs_of (l ++ ext) ∧ parsed range (l ++ ext) ∧ tcm_serialized <$> ext `prefix_of` ser.
Proof.
  induction ser as [|s ser IH]; intros l out Hhi Hl; cbn [parse_commits].
  { intros [= <-]. exists []. rewrite app_nil_r. split; [done|]. split; [done|]. done. }
  destruct (commit_from_bytes dec s) as [commit|] eqn:Hdec; [|done].
  destruct (check_next_commit _ _ _ _) eqn:Hnext; [done|].
  destruct (N.ltb_spec (range_end range) (commit_index commit)) as [Hgt|Hle].
  { intros [= <-]. exists []. rewrite app_nil_r. split; [done|]. split; [done|]. apply prefix_nil. }
  intros Hp. destruct (IH (l ++ [new_trusted cd commit s]) out Hhi) as (ext & -> & Hpar & Hpre).
  - by eapply parsed_snoc.
  - by rewrite fmap_app.
  - exists (new_trusted cd commit s :: ext). rewrite <-app_assoc in Hpar |- *. split; [done|]. split; [done|].
    cbn. by apply prefix_cons.
Qed.

Lemma parse_commits_complete peer range ext : ∀ l,
  range_hi range ≤ u32_max → parsed range (l ++ ext) → parse_commits cd dec peer range (pairs_of l) (tcm_serialized <$> ext) = inr (pairs_of (l ++ ext)).
Proof.
  induction ext as [|x ext IH]; intros l Hmax Hp; [by rewrite app_nil_r|]. cbn [fmap list_fmap parse_commits].
  pose proof Hp as [Hst Hch Hra Hge]. apply Forall_app in Hge as [_ [[Hdec Hdig] _]%Forall_cons].
  apply Forall_app in Hra as [_ [Hle _]%Forall_cons]. rewrite Hdec.
  assert (Hnext : check_next_commit peer range (pairs_of l) (tcm_inner x) = None).
  { unfold check_next_commit. rewrite fmap_last. destruct (last l) as [y|] eqn:Hlast; cbn.
    - assert (Hln : (0 < length l)%nat) by (destruct l; [done|cbn; lia]).
      destruct (Hch (pred (length l)) y x) as [Hi Hd].
      { rewrite lookup_app_l by lia. by rewrite <-last_lookup. }
      { rewrite Nat.succ_pred_pos by done. by rewrite lookup_app_r, Nat.sub_diag by lia. }
      rewrite Hd, N.eqb_refl, andb_true_r.
      assert (u32_add (commit_index (tcm_inner y)) 1 = commit_index (tcm_inner y) + 1) as ->.
      { unfold range_end, saturating_sub in Hle. machine_lia. }
      by rewrite Hi, N.eqb_refl.
    - apply last_None in Hlast as ->. by rewrite (Hst x eq_refl), N.eqb_refl. }
  rewrite Hnext, (proj2 (N.ltb_ge _ _) Hle). 
  change (x :: ext) with ([x] ++ ext) in Hp |- *. rewrite app_assoc in Hp |- *.
  rewrite <-IH by done. rewrite fmap_app. cbn. by rewrite Hdig.
Qed.

(** Pairing the parsed commits with the bytes gives the commits back. *)
Lemma trusted_of_pairs l ser :
  Forall (genuine cd dec) l → tcm_serialized <$> l `prefix_of` ser →
  zip_with (λ (p : N * Commit) (s : Bytes), new_trusted cd p.2 s) (pairs_of l) ser = l.
Proof.
  revert ser. induction l as [|x l IH]; intros ser Hg [k Hser]; [by destruct ser|].
  apply Forall_cons in Hg as [[_ Hd] Hg]. destruct ser as [|s ser]; [done|]. injection Hser as Hs Hser.
  cbn. rewrite IH; [|done|by exists k]. f_equal. rewrite Hs. destruct x. cbn in *. by rewrite Hd.
Qed.

(** States of the certifier that some sequence of operations leads to. *)
Definition certifier_reachable (cs : CertifierState) : Prop := ∃ seen out, certifier_run ctx seen out cs.

Lemma certifier_add_block cs b rejected :
  certifier_reachable cs → (author b < committee_size c)%nat →
  ∃ cs', omap_ok fst (certifier_add_voted_blocks ctx cs [(b, rejected)]) = Ok cs' ∧ certifier_reachable cs'.
Proof using Hc.
  clear Hbytes. intros (seen & out & Hrun) Ha. pose proof (certifier_run_inv _ _ _ _ Hc Hrun) as Hinv.
  destruct (add_voted_block_spec ctx Hc seen cs out b rejected Hinv Ha) as (cs' & o & Hadd & _).
  unfold certifier_add_voted_blocks, add_voted_blocks. cbn. rewrite Hadd. cbn.
  exists cs'. split; [done|]. eexists _, _. by eapply run_voted.
Qed.

Lemma count_votes_spec r a votes : ∀ agg,
  agg_ok c agg → (a < committee_size c)%nat →
  ∃ agg', for_each (count_commit_vote ctx r a) agg votes = Ok agg' ∧ agg_ok c agg' ∧
    agg_votes agg' = (if decide (r ∈ votes) then {[a]} else ∅) ∪ agg_votes agg.
Proof using Hc.
  clear Hbytes. induction votes as [|x votes IH]; intros agg Hagg Ha.
  { exists agg. split; [done|]. split; [done|]. rewrite decide_False by (by intros ?%elem_of_nil). set_solver. }
  cbn [for_each]. unfold count_commit_vote at 1. destruct (decide (x = r)) as [->|Hne].
  - destruct (add_spec QuorumThreshold c agg a Hc Hagg Ha) as (agg1 & -> & Hok1 & Hv1). cbn.
    destruct (IH agg1 Hok1 Ha) as (agg' & -> & Hok' & Hv'). exists agg'. split; [done|]. split; [done|].
    rewrite Hv', Hv1, (decide_True (P := r ∈ r :: votes)) by (by left). case_decide; set_solver.
  - cbn [obind]. destruct (IH agg Hagg Ha) as (agg' & -> & Hok' & Hv'). exists agg'. split; [done|]. split; [done|].
    rewrite Hv'. f_equal. destruct (decide (r ∈ votes)); [by rewrite decide_True by (by right)|].
    rewrite decide_False; [done|]. by intros [|]%elem_of_cons.
Qed.

Lemma commit_voters_snoc r votes b :
  commit_voters r (votes ++ [b]) = (if decide (r ∈ commit_votes b) then {[author b]} else ∅) ∪ commit_voters r votes.
Proof.
  unfold commit_voters. rewrite filter_app, fmap_app, list_to_set_app_L. rewrite filter_cons, filter_nil.
  case_decide; cbn; set_solver.
Qed.

(** The bytes of a vote block that the verifier accepts. *)
Definition accepted_vote (s : Bytes) (b : VerifiedBlock) : Prop :=
  ∃ sb rejected, block_from_bytes dec s = Some sb ∧ verify_and_vote ck cd v sb s = Return (b, rejected).

Lemma verify_vote_blocks_spec r ser : ∀ cs agg blocks,
  certifier_reachable cs → agg_ok c agg → agg_votes agg = commit_voters r blocks →
  Forall (λ b, valid_block ck v (vb_block b)) blocks →
  ∃ cs' res, verify_vote_blocks ck cd dec v ctx r cs agg blocks ser = Ok (cs', res) ∧ certifier_reachable cs' ∧
    (∀ agg' blocks', res = inr (agg', blocks') →
      agg_ok c agg' ∧ agg_votes agg' = commit_voters r blocks' ∧ Forall (λ b, valid_block ck v (vb_block b)) blocks') ∧
    (∀ more, Forall2 accepted_vote ser more → ∃ agg', res = inr (agg', blocks ++ more)).
Proof using Hc Hbytes.
  induction ser as [|s ser IH]; intros cs agg blocks Hcs Hagg Hv Hval; cbn [verify_vote_blocks].
  { eexists _, _. split; [done|]. split; [done|]. split; [by intros ? ? [= <- <-]|].
    intros more ->%Forall2_nil_inv_l. exists agg. by rewrite app_nil_r. }
  destruct (block_from_bytes dec s) as [sb|] eqn:Hs.
  2: { eexists _, _. split; [done|]. split; [done|]. split; [done|].
       intros more (b & more' & (sb & rj & Hsb & _) & _ & _)%Forall2_cons_inv_l. congruence. }
  destruct (verify_and_vote_answer s sb Hs) as [[e He]|(rejected & He & Hvalid)]; rewrite He; cbn [obind].
  { eexists _, _. split; [done|]. split; [done|]. split; [done|].
    intros more (b & more' & (sb' & rj & Hsb & Hr) & _ & _)%Forall2_cons_inv_l. unfold Return in Hr. congruence. }
  set (b := new_verified cd sb s).
  assert (Ha : (author b < committee_size c)%nat) by apply (vb_author _ _ _ Hvalid).
  assert (Hstep : ∃ cs1, (if mysticeti_fastpath (protocol_config ctx)
    then omap_ok fst (certifier_add_voted_blocks ctx cs [(b, rejected)]) else Ok cs) = Ok cs1 ∧ certifier_reachable cs1).
  { destruct (mysticeti_fastpath _); [by apply certifier_add_block|by exists cs]. }
  destruct Hstep as (cs1 & -> & Hcs1). cbn [obind].
  destruct (count_votes_spec r (author b) (commit_votes b) agg Hagg Ha) as (agg1 & -> & Hagg1 & Hv1). cbn [obind].
  destruct (IH cs1 agg1 (blocks ++ [b])) as (cs' & res & -> & Hcs' & Hres & Hcomp); try done.
  - by rewrite Hv1, commit_voters_snoc, Hv.
  - apply Forall_app. split; [done|]. by apply Forall_singleton.
  - exists cs', res. split; [done|]. split; [done|]. split; [done|].
    intros more (b' & more' & (sb' & rj & Hsb & Hr) & Hrest & ->)%Forall2_cons_inv_l.
    assert (b' = b) as -> by (unfold Return in Hr; subst b; congruence).
    destruct (Hcomp more' Hrest) as [agg' Hres']. exists agg'. by rewrite <-app_assoc in Hres'.
Qed.

(** A response is checked without panicking, only a certified one is accepted, and a
    certified one is. *)
Lemma verify_commits_sound cs peer range ser votes :
  range_hi range ≤ u32_max → certifier_reachable cs →
  ∃ cs' res, verify_commits ck cd dec v ctx cs peer range ser votes = Ok (cs', res) ∧ certifier_reachable cs' ∧
    (∀ commits blocks, res = inr (commits, blocks) → certified_response ck cd dec v range ser commits blocks) ∧
    (∀ commits blocks, certified_response ck cd dec v range ser commits blocks → ser = tcm_serialized <$> commits →
       Forall2 accepted_vote votes blocks → res = inr (commits, blocks)).
Proof using Hc Hbytes.
  intros Hhi Hcs. unfold verify_commits.
  assert (Hcomp : ∀ commits blocks, certified_response ck cd dec v range ser commits blocks → ser = tcm_serialized <$> commits →
    parse_commits cd dec peer range [] ser = inr (pairs_of commits)).
  { intros commits blocks Hcr ->. apply (parse_commits_complete peer range commits []); [done|]. by destruct Hcr. }
  destruct (parse_commits cd dec peer range [] ser) as [e|out] eqn:Hparse.
  { eexists _, _. split; [done|]. split; [done|]. split; [done|]. intros ? ? H1 H2. by specialize (Hcomp _ _ H1 H2). }
  destruct (parse_commits_spec peer range ser [] out Hhi) as (l & -> & Hpar & Hpre); [by split|done|].
  cbn [app] in *. destruct Hpar as [H1 H2 H3 H4].
  assert (Hl : ∀ commits blocks, certified_response ck cd dec v range ser commits blocks → ser = tcm_serialized <$> commits → l = commits).
  { intros commits blocks Hcr Hser. specialize (Hcomp _ _ Hcr Hser). injection Hcomp as Heq.
    rewrite <-(trusted_of_pairs l ser H4 Hpre), Heq. apply trusted_of_pairs; by destruct Hcr. }
  rewrite fmap_last. destruct (last l) as [e|] eqn:Hlast; cbn.
  2: { eexists _, _. split; [done|]. split; [done|]. split; [done|]. intros commits blocks Hcr Hser _.
       rewrite (Hl _ _ Hcr Hser) in Hlast. destruct (cr_quorum _ _ _ _ _ _ _ _ Hcr) as (e & He & _). congruence. }
  destruct (verify_vote_blocks_spec (commit_reference e) votes cs aggregator_new [] Hcs (agg_ok_new c))
    as (cs' & res & Hrun & Hcs' & Hres & Hvotes); [done|constructor|].
  unfold commit_reference in Hrun. rewrite Hrun. cbn [obind].
  destruct res as [err|[agg blocks]].
  { eexists _, _. split; [done|]. split; [done|]. split; [done|]. intros ? ? _ _ Hb. by destruct (Hvotes _ Hb). }
  destruct (Hres agg blocks eq_refl) as (Hagg & Hv & Hval).
  assert (Hblocks : ∀ blocks', Forall2 accepted_vote votes blocks' → blocks' = blocks).
  { intros blocks' Hb. destruct (Hvotes _ Hb) as [? [= _ ->]]. done. }
  unfold reached_threshold, is_threshold, quorum_threshold_impl, reached_quorum.
  rewrite (agg_stake_eq _ _ Hagg), Hv.
  destruct (N.leb_spec (quorum_threshold c) (set_stake c (commit_voters (commit_reference e) blocks))) as [Hq|Hq]; cbn [negb].
  - eexists _, _. split; [done|]. split; [done|]. rewrite (trusted_of_pairs l ser H4 Hpre). split.
    + intros commits blocks' [= <- <-]. split; try done. by exists e.
    + intros commits blocks' Hcr Hser Hb. by rewrite (Hl _ _ Hcr Hser), (Hblocks _ Hb).
  - eexists _, _. split; [done|]. split; [done|]. split; [done|]. intros commits blocks' Hcr Hser Hb.
    rewrite (Hl _ _ Hcr Hser) in Hlast. destruct (cr_quorum _ _ _ _ _ _ _ _ Hcr) as (e' & He' & Hq').
    rewrite (Hblocks _ Hb) in Hq'. assert (e' = e) as -> by congruence. lia.
Qed.
End verify.

(** ** Agreement *)

(** The sequence of commits of one validator, from index 1. *)
Record commit_history (cd : Codec) (dec : Decoder) (h : list TrustedCommit) : Prop := {
  ch_index j x : h !! j = Some x → commit_index (tcm_inner x) = N.of_nat j + 1;
  ch_chain : commit_chain h;
  ch_genuine : Forall (genuine cd dec) h;
}.

(** The hash has no collision among the bytes of these commits. *)
Definition collision_free (cd : Codec) (l h : list TrustedCommit) : Prop :=
  ∀ x y, x ∈ l → y ∈ h → hash_bytes cd (tcm_serialized x) = hash_bytes cd (tcm_serialized y) →
    tcm_serialized x = tcm_serialized y.

Lemma same_digest_same_commit cd dec x y :
  genuine cd dec x → genuine cd dec y → tcm_serialized x = tcm_serialized y → x = y.
Proof. destruct x, y. intros [H1 H2] [H3 H4] H5. cbn in *. congruence. Qed.

Lemma chain_index_ge n l x :
  commit_chain l → (∀ y, head l = Some y → n ≤ commit_index (tcm_inner y)) → x ∈ l → n ≤ commit_index (tcm_inner x).
Proof.
  intros Hch Hhead [i Hi]%list_elem_of_lookup. revert x Hi. induction i as [|i IH]; intros x Hi.
  - apply Hhead. by rewrite head_lookup.
  - destruct (lookup_lt_is_Some_2 l i) as [y Hy]; [apply lookup_lt_Some in Hi; lia|].
    destruct (Hch i y x Hy Hi) as [-> _]. specialize (IH y Hy). lia.
Qed.

(** A chain whose end is a commit of a history is part of the history. *)
Lemma chain_in_history cd dec h l e :
  commit_history cd dec h → commit_chain l → Forall (genuine cd dec) l → collision_free cd l h →
  Forall (λ x, 1 ≤ commit_index (tcm_inner x)) l → last l = Some e → commit_reference e ∈ commit_reference <$> h →
  ∀ x, x ∈ l → x ∈ h.
Proof.
  intros [Hidx Hch Hgen] Hl Hg Hcf Hpos Hlast Href. revert e Hl Hg Hcf Hpos Hlast Href.
  induction l as [|e' l IH] using rev_ind; intros e Hl Hg Hcf Hpos Hlast Href x Hx; [by apply elem_of_nil in Hx|].
  rewrite last_snoc in Hlast. injection Hlast as ->.
  apply Forall_app in Hg as [Hg Hge]. rewrite Forall_singleton in Hge.
  apply Forall_app in Hpos as [Hpos Hpe]. rewrite Forall_forall in Hgen.
  assert (Hsame : ∀ a b, a ∈ l ++ [e] → genuine cd dec a → b ∈ h → tcm_digest a = tcm_digest b → a = b).
  { intros a b Ha Hga Hb Hd. apply (same_digest_same_commit cd dec); [done|by apply Hgen|].
    apply Hcf; [done|done|]. destruct Hga as [_ <-], (Hgen b Hb) as [_ <-]. done. }
  apply list_elem_of_fmap in Href as (y & Hy & Hyin). injection Hy as Hyi Hyd.
  assert (e = y) as <- by (apply Hsame; [apply elem_of_app; right; by left|done..]).
  apply elem_of_app in Hx as [Hx| ->%list_elem_of_singleton]; [|done].
  destruct (last l) as [e2|] eqn:Hlast; [|by apply last_None in Hlast as ->; apply elem_of_nil in Hx].
  assert (Hlen : l !! pred (length l) = Some e2) by (by rewrite <-last_lookup).
  assert (Hln : (0 < length l)%nat) by (destruct l; [done|cbn; lia]).
  destruct (Hl (pred (length l)) e2 e) as [Hi2 Hd2].
  { rewrite lookup_app_l by lia. done. }
  { rewrite Nat.succ_pred_pos by done. by rewrite lookup_app_r, Nat.sub_diag by lia. }
  apply list_elem_of_lookup in Hyin as [j Hj]. pose proof (Hidx j e Hj) as Hij.
  assert (Hp2 : 1 ≤ commit_index (tcm_inner e2)).
  { rewrite Forall_forall in Hpos. apply Hpos. apply list_elem_of_lookup. eauto. }
  destruct j as [|j]; [lia|]. destruct (lookup_lt_is_Some_2 h j) as [z Hz]; [apply lookup_lt_Some in Hj; lia|].
  destruct (Hch j z e Hz Hj) as [_ Hdz].
  assert (He2 : e2 ∈ l) by (apply list_elem_of_lookup; eauto).
  assert (e2 = z) as ->.
  { apply Hsame; [apply elem_of_app; by left| |apply list_elem_of_lookup; eauto|congruence].
    rewrite Forall_forall in Hg. by apply Hg. }
  apply (IH z); try done.
  - intros i a b Ha Hb. apply (Hl i); apply lookup_app_l_Some; done.
  - intros a b Ha. apply Hcf. apply elem_of_app. by left.
  - apply list_elem_of_fmap_2. apply list_elem_of_lookup. eauto.
Qed.

(** Every commit vote in the given blocks by a correct authority is for a commit of its
    own history. *)
Definition votes_own_commits (faulty : gset AuthorityIndex) (history : AuthorityIndex → list TrustedCommit)
    (votes : list VerifiedBlock) : Prop :=
  ∀ b r, b ∈ votes → author b ∉ faulty → r ∈ commit_votes b → r ∈ commit_reference <$> history (author b).

Lemma elem_of_commit_voters r votes a :
  a ∈ commit_voters r votes ↔ ∃ b, b ∈ votes ∧ author b = a ∧ r ∈ commit_votes b.
Proof.
  unfold commit_voters. rewrite elem_of_list_to_set, list_elem_of_fmap. setoid_rewrite list_elem_of_filter. naive_solver.
Qed.

Lemma response_in_history ck cd dec v range ser commits votes faulty history a x :
  certified_response ck cd dec v range ser commits votes → 1 ≤ range_start range →
  votes_own_commits faulty history votes → a ∉ faulty →
  commit_history cd dec (history a) → collision_free cd commits (history a) →
  (∀ e, last commits = Some e → a ∈ commit_voters (commit_reference e) votes) →
  x ∈ commits → x ∈ history a.
Proof.
  intros [Hst Hch Hra Hge _ _ (e & Hlast & _)] Hpos Hvote Ha Hh Hcf Hin.
  apply (chain_in_history cd dec (history a) commits e); try done.
  - apply Forall_forall. intros y. apply (chain_index_ge 1); [done|]. intros z Hz. by rewrite (Hst z Hz).
  - destruct (proj1 (elem_of_commit_voters _ _ _) (Hin e Hlast)) as (b & Hb & <- & Hr). by apply (Hvote b).
Qed.

(** C6 (safety): synchronization cannot fork.  When less than f+1 stake is faulty and
    correct authorities vote for their own commits, any two responses that pass
    verification, from whichever peers and for whichever ranges, hold the same commit,
    byte for byte, at every index they share. *)
Theorem verified_commits_agree ck cd dec v faulty history cs1 cs2 cs1' cs2' peer1 peer2 range1 range2
    ser1 ser2 sv1 sv2 commits1 commits2 votes1 votes2 x1 x2 :
  committee_ok (committee (bv_context v)) →
  (∀ s sb, block_from_bytes dec s = Some sb →
    sumN ((λ t : Bytes, N.of_nat (length t)) <$> (data <$> block_transactions (sb_inner sb))) < u64_modulus) →
  set_stake (committee (bv_context v)) faulty < validity_threshold (committee (bv_context v)) →
  certifier_reachable v cs1 → certifier_reachable v cs2 →
  1 ≤ range_start range1 → 1 ≤ range_start range2 → range_hi range1 ≤ u32_max → range_hi range2 ≤ u32_max →
  verify_commits ck cd dec v (bv_context v) cs1 peer1 range1 ser1 sv1 = Ok (cs1', inr (commits1, votes1)) →
  verify_commits ck cd dec v (bv_context v) cs2 peer2 range2 ser2 sv2 = Ok (cs2', inr (commits2, votes2)) →
  votes_own_commits faulty history votes1 → votes_own_commits faulty history votes2 →
  (∀ a, a ∉ faulty → commit_history cd dec (history a) ∧
     collision_free cd commits1 (history a) ∧ collision_free cd commits2 (history a)) →
  x1 ∈ commits1 → x2 ∈ commits2 → commit_index (tcm_inner x1) = commit_index (tcm_inner x2) → x1 = x2.
Proof.
  intros Hc Hb Hf Hr1 Hr2 Hp1 Hp2 Hh1 Hh2 Hv1 Hv2 Ho1 Ho2 Hhist Hx1 Hx2 Heq.
  destruct (verify_commits_sound ck cd dec v Hc Hb cs1 peer1 range1 ser1 sv1 Hh1 Hr1) as (? & ? & E1 & _ & S1 & _).
  destruct (verify_commits_sound ck cd dec v Hc Hb cs2 peer2 range2 ser2 sv2 Hh2 Hr2) as (? & ? & E2 & _ & S2 & _).
  rewrite Hv1 in E1. injection E1 as <- <-. rewrite Hv2 in E2. injection E2 as <- <-.
  specialize (S1 _ _ eq_refl). specialize (S2 _ _ eq_refl).
  destruct (cr_quorum _ _ _ _ _ _ _ _ S1) as (e1 & L1 & Q1). destruct (cr_quorum _ _ _ _ _ _ _ _ S2) as (e2 & L2 & Q2).
  destruct (quorums_share_honest _ _ _ _ Hc Q1 Q2 Hf) as (a & Ha1 & Ha2 & Ha).
  destruct (Hhist a Ha) as (Hhi & Hcf1 & Hcf2).
  assert (In1 : x1 ∈ history a).
  { apply (response_in_history ck cd dec v range1 ser1 commits1 votes1 faulty); try done. intros ? He. by simplify_eq. }
  assert (In2 : x2 ∈ history a).
  { apply (response_in_history ck cd dec v range2 ser2 commits2 votes2 faulty); try done. intros ? He. by simplify_eq. }
  apply list_elem_of_lookup in In1 as [j1 J1], In2 as [j2 J2].
  pose proof (ch_index _ _ _ Hhi _ _ J1). pose proof (ch_index _ _ _ Hhi _ _ J2).
  assert (j1 = j2) as -> by lia. congruence.
Qed.

(** ** A fetch *)

(** The blocks referenced by a list of commits, in their order. *)
Abbreviation refs_of commits := (concat ((λ x, commit_blocks (tcm_inner x)) <$> commits)).

(** A map from references to blocks with that reference. *)
Definition block_map_ok (m : gmap BlockRef VerifiedBlock) : Prop := ∀ r b, m !! r = Some b → reference b = r.

Lemma match_requested_spec cd peer requested : ∀ blocks ser out,
  length requested = length blocks → length requested = length ser →
  match_requested cd peer requested blocks ser = inr out → reference <$> out = requested.
Proof.
  induction requested as [|r requested IH]; intros [|b blocks] [|s ser] out Hb Hs; try done; cbn [match_requested].
  { by intros [= <-]. }
  case_decide as Hr; [|done]. destruct (match_requested _ _ _ _ _) as [|rest] eqn:E; [done|]. intros [= <-].
  cbn. rewrite (IH blocks ser rest); [|cbn in *; lia..|done]. f_equal. by rewrite Hr.
Qed.

Lemma parse_blocks_length dec ser : ∀ out, parse_blocks dec ser = inr out → length out = length ser.
Proof.
  induction ser as [|s ser IH]; cbn; [by intros ? [= <-]|]. destruct (block_from_bytes dec s); [|done].
  destruct (parse_blocks dec ser); [done|]. intros ? [= <-]. cbn. f_equal. by apply IH.
Qed.

Lemma fetch_chunk_spec cd dec peer response requested out :
  fetch_chunk cd dec peer response requested = inr out → reference <$> out = requested.
Proof.
  unfold fetch_chunk. destruct (response requested) as [|ser]; [done|].
  destruct (Nat.eqb_spec (length requested) (length ser)) as [Hl|]; [cbn|done].
  destruct (parse_blocks dec ser) as [|blocks] eqn:Hp; [done|]. apply parse_blocks_length in Hp.
  apply match_requested_spec; congruence.
Qed.

Lemma insert_blocks_spec blocks : ∀ m, block_map_ok m →
  let m' := foldl (λ m b, <[reference b := b]> m) m blocks in
  block_map_ok m' ∧ dom m' = dom m ∪ list_to_set (reference <$> blocks).
Proof.
  induction blocks as [|b blocks IH]; intros m Hm; cbn; [split; [done|set_solver]|].
  destruct (IH (<[reference b := b]> m)) as [H1 H2].
  - intros r x [[<- <-]|[_ Hx]]%lookup_insert_Some; [done|by apply Hm].
  - split; [done|]. rewrite H2, dom_insert_L. set_solver.
Qed.

Lemma fetch_chunks_spec cd dec peer response requests : ∀ m out,
  block_map_ok m → fetch_chunks cd dec peer response m requests = inr out →
  block_map_ok out ∧ dom out = dom m ∪ list_to_set (concat requests).
Proof.
  induction requests as [|q requests IH]; intros m out Hm; cbn [fetch_chunks].
  { intros [= <-]. split; [done|]. cbn. set_solver. }
  destruct (fetch_chunk _ _ _ _ _) as [|blocks] eqn:E; [done|]. apply fetch_chunk_spec in E. intros Hout.
  destruct (insert_blocks_spec blocks m Hm) as [H1 H2]. destruct (IH _ _ H1 Hout) as [H3 H4].
  split; [done|]. rewrite H4, H2, E. cbn. rewrite list_to_set_app_L. set_solver.
Qed.

Lemma take_blocks_spec refs : ∀ m acc,
  block_map_ok m → NoDup refs → list_to_set refs ⊆ dom m →
  ∃ m' blocks, for_each take_block (m, acc) refs = Ok (m', acc ++ blocks) ∧ reference <$> blocks = refs ∧
    block_map_ok m' ∧ dom m' = dom m ∖ list_to_set refs.
Proof.
  induction refs as [|r refs IH]; intros m acc Hm Hnd Hsub; cbn [for_each].
  { exists m, []. rewrite app_nil_r. split_and!; try done. set_solver. }
  apply NoDup_cons in Hnd as [Hni Hnd].
  destruct (m !! r) as [b|] eqn:Hr; [|apply not_elem_of_dom in Hr; set_solver].
  unfold take_block at 1. cbn [fst snd]. rewrite Hr. cbn [expect obind].
  destruct (IH (delete r m) (acc ++ [b])) as (m' & blocks & -> & Hb & Hok & Hd).
  - intros x y [_ Hx]%lookup_delete_Some. by apply Hm.
  - done.
  - rewrite dom_delete_L. set_solver.
  - exists m', (b :: blocks). rewrite <-app_assoc. split_and!; try done; cbn.
    + by rewrite Hb, (Hm r b Hr).
    + rewrite Hd, dom_delete_L. set_solver.
Qed.

Lemma assign_blocks_spec commits : ∀ m acc,
  block_map_ok m → NoDup (refs_of commits) → list_to_set (refs_of commits) ⊆ dom m →
  ∃ m' certified, for_each assign_blocks (m, acc) commits = Ok (m', acc ++ certified) ∧
    cc_commit <$> certified = commits ∧
    Forall (λ x, reference <$> cc_blocks x = commit_blocks (tcm_inner (cc_commit x))) certified.
Proof.
  induction commits as [|x commits IH]; intros m acc Hm Hnd Hsub; cbn [for_each].
  { exists m, []. rewrite app_nil_r. split_and!; try done. }
  cbn [fmap list_fmap concat] in *. apply NoDup_app in Hnd as (Hnd1 & Hdisj & Hnd2). rewrite list_to_set_app_L in Hsub.
  destruct (take_blocks_spec (commit_blocks (tcm_inner x)) m [] Hm Hnd1) as (m1 & blocks & Hrun & Hb & Hok & Hd); [set_solver|].
  unfold assign_blocks at 1. cbn [fst snd]. rewrite Hrun. cbn [obind app].
  destruct (IH m1 (acc ++ [mkCertifiedCommit x blocks])) as (m' & certified & -> & Hc & Hf); [done|done| |].
  - rewrite Hd. set_solver.
  - exists m', (mkCertifiedCommit x blocks :: certified). rewrite <-app_assoc. split_and!; [done| |by constructor].
    cbn. by rewrite Hc.
Qed.

(** The commits cover the requested range from its start, perhaps not to its end. *)
Definition response_fits (r : SyncRange) (commits : CertifiedCommits) : Prop :=
  ∃ first final, head (certified_commits commits) = Some first ∧ last (certified_commits commits) = Some final ∧
    commit_index (tcm_inner (cc_commit first)) = r.1 ∧
    r.1 ≤ commit_index (tcm_inner (cc_commit final)) ∧ commit_index (tcm_inner (cc_commit final)) ≤ r.2.

(** What correct validators commit: no block twice, and blocks of the committee only. *)
Definition commits_well_formed (c : Committee) (commits : list TrustedCommit) : Prop :=
  NoDup (refs_of commits) ∧ Forall (λ r, (ref_author r < committee_size c)%nat) (refs_of commits).

Lemma certified_response_fits ck cd dec v range ser commits votes certified :
  certified_response ck cd dec v range ser commits votes → cc_commit <$> certified_commits certified = commits →
  response_fits (range_start range, range_end range) certified.
Proof.
  intros [Hst Hch Hra _ _ _ (e & Hlast & _)] <-. rewrite fmap_last in Hlast.
  destruct (last (certified_commits certified)) as [final|] eqn:Hf; [|done]. injection Hlast as <-.
  destruct (certified_commits certified) as [|first l] eqn:El; [done|]. exists first, final. rewrite El.
  assert (Hin : cc_commit final ∈ cc_commit <$> first :: l).
  { apply list_elem_of_fmap_2. apply last_Some in Hf as [l' ->]. apply elem_of_app. right. by left. }
  split_and!; [done|done|by apply Hst| |].
  - apply (chain_index_ge _ _ _ Hch); [|done]. intros y Hy. cbn. by rewrite (Hst y Hy).
  - rewrite Forall_forall in Hra. by apply Hra.
Qed.

Lemma refs_of_blocks certified :
  Forall (λ x, reference <$> cc_blocks x = commit_blocks (tcm_inner (cc_commit x))) certified →
  reference <$> concat (cc_blocks <$> certified) = refs_of (cc_commit <$> certified).
Proof. induction 1 as [|x l Hx _ IH]; [done|]. cbn. by rewrite fmap_app, Hx, IH. Qed.

Section fetch.
Context (ck : Crypto) (cd : Codec) (dec : Decoder) (v : SignedBlockVerifier).
Abbreviation ctx := (bv_context v).
Abbreviation c := (committee ctx).
Hypothesis Hc : committee_ok c.
Hypothesis Hbytes : ∀ s sb, block_from_bytes dec s = Some sb →
  sumN ((λ t : Bytes, N.of_nat (length t)) <$> (data <$> block_transactions (sb_inner sb))) < u64_modulus.

Lemma register_blocks cs blocks :
  certifier_reachable v cs → Forall (λ b, (author b < committee_size c)%nat) blocks →
  ∃ cs', (if mysticeti_fastpath (protocol_config ctx)
          then for_each (λ cs b, omap_ok fst (certifier_add_voted_blocks ctx cs [(b, [])])) cs blocks else Ok cs) = Ok cs' ∧
    certifier_reachable v cs'.
Proof using Hc.
  clear Hbytes. intros Hcs Hb. destruct (mysticeti_fastpath _); [|by exists cs].
  apply (for_each_total _ (certifier_reachable v)); [done|]. intros s x Hx Hs.
  rewrite Forall_forall in Hb. by apply (certifier_add_block v Hc s x []); [|apply Hb].
Qed.

Lemma fetch_once_spec params cs peer range ser votes blocks_response :
  range_hi range ≤ u32_max → certifier_reachable v cs → max_blocks_per_fetch params ≠ 0%nat →
  (∀ commits vb, certified_response ck cd dec v range ser commits vb → commits_well_formed c commits) →
  ∃ cs' res, fetch_once ck cd dec v ctx params cs peer range (inr (ser, votes)) blocks_response = Ok (cs', res) ∧
    certifier_reachable v cs' ∧
    ∀ cc, res = inr cc →
      certified_response ck cd dec v range ser (cc_commit <$> certified_commits cc) (certifying_votes cc) ∧
      Forall (λ x, reference <$> cc_blocks x = commit_blocks (tcm_inner (cc_commit x))) (certified_commits cc).
Proof using Hc Hbytes.
  intros Hhi Hcs Hmax Hwf. unfold fetch_once.
  destruct (verify_commits_sound ck cd dec v Hc Hbytes cs peer range ser votes Hhi Hcs) as (cs1 & r & -> & Hcs1 & Hsound & _).
  cbn [obind]. destruct r as [e|[commits vb]]; [exists cs1, (inl e); split_and!; done|].
  specialize (Hsound _ _ eq_refl). destruct (Hwf _ _ Hsound) as [Hnd Hau].
  rewrite (proj2 (Nat.eqb_neq (max_blocks_per_fetch params) 0) Hmax). cbn [negb rassert obind].
  set (refs := sort_by _ _). assert (Hperm : refs ≡ₚ refs_of commits) by apply sort_by_perm.
  destruct (fetch_chunks _ _ _ _ _ _) as [e|fetched] eqn:Hf; [exists cs1, (inl e); split_and!; done|].
  apply fetch_chunks_spec in Hf as [Hok Hdom]; [|done]. rewrite chunks_concat in Hdom by done.
  destruct (assign_blocks_spec commits fetched [] Hok Hnd) as (m' & certified & -> & Hcc & Hrefs).
  { rewrite Hdom, Hperm. set_solver. }
  cbn [obind app].
  destruct (register_blocks cs1 (concat (cc_blocks <$> certified)) Hcs1) as (cs2 & -> & Hcs2).
  { rewrite <-Hcc, <-refs_of_blocks, Forall_fmap in Hau by done. exact Hau. }
  cbn [obind]. eexists _, _. split; [done|]. split; [done|]. intros cc [= <-]. cbn. by rewrite Hcc.
Qed.
End fetch.

(** A fetch never panics, and what it returns covers the requested range
    from its start, is a chain of commits certified by a quorum, and comes with exactly
    the blocks each commit references, in order. *)
Theorem fetched_commits_certified ck cd dec v params cs peer range ser votes blocks_response :
  committee_ok (committee (bv_context v)) →
  (∀ s sb, block_from_bytes dec s = Some sb →
    sumN ((λ t : Bytes, N.of_nat (length t)) <$> (data <$> block_transactions (sb_inner sb))) < u64_modulus) →
  range_hi range ≤ u32_max → certifier_reachable v cs → max_blocks_per_fetch params ≠ 0%nat →
  (∀ commits vb, certified_response ck cd dec v range ser commits vb → commits_well_formed (committee (bv_context v)) commits) →
  ∃ cs' res, fetch_once ck cd dec v (bv_context v) params cs peer range (inr (ser, votes)) blocks_response = Ok (cs', res) ∧
    ∀ cc, res = inr cc →
      response_fits (range_start range, range_end range) cc ∧
      certified_response ck cd dec v range ser (cc_commit <$> certified_commits cc) (certifying_votes cc) ∧
      Forall (λ x, reference <$> cc_blocks x = commit_blocks (tcm_inner (cc_commit x))) (certified_commits cc).
Proof.
  intros Hc Hb Hhi Hcs Hmax Hwf.
  destruct (fetch_once_spec ck cd dec v Hc Hb params cs peer range ser votes blocks_response Hhi Hcs Hmax Hwf)
    as (cs' & res & Hrun & _ & Hres).
  exists cs', res. split; [done|]. intros cc Hcc. destruct (Hres cc Hcc) as [H1 H2]. split; [|done].
  by eapply certified_response_fits.
Qed.

(** ** Witnesses: two commits, voted for by the blocks of round 1 *)

Definition vote_block (a : AuthorityIndex) : SignedBlock :=
  mkSignedBlock (V2 (mkBlockV2 0 1 a 10 (own_first a) [mkTransaction [1; 2; 3]] [] [mkCommitRef 2 2000] [] None [])) [].

Definition sync_commit (i : CommitIndex) (blocks : list BlockRef) : Commit :=
  CommitVersion1 (mkCommitV1 i (1000 * (i - 1)) 0 (default (mkBlockRef i 0%nat 0) (head blocks)) blocks).

Definition sync_decoder : Decoder :=
  mkDecoder
    (λ bs, match bs with
           | [1; 0] => Some (sync_commit 1 [mkBlockRef 1 0%nat 1000])
           | [2; 0] => Some (sync_commit 2 [mkBlockRef 1 1%nat 1001; mkBlockRef 1 2%nat 1002])
           | _ => None
           end)
    (λ bs, match bs with [1; a] => Some (vote_block (N.to_nat a)) | _ => None end).

Definition trusted1 : TrustedCommit := new_trusted test_codec (sync_commit 1 [mkBlockRef 1 0%nat 1000]) [1; 0].
Definition trusted2 : TrustedCommit :=
  new_trusted test_codec (sync_commit 2 [mkBlockRef 1 1%nat 1001; mkBlockRef 1 2%nat 1002]) [2; 0].
Definition voted_by (a : N) : VerifiedBlock := new_verified test_codec (vote_block (N.to_nat a)) [1; a].

Lemma sync_decoder_small s sb :
  block_from_bytes sync_decoder s = Some sb →
  sumN ((λ t : Bytes, N.of_nat (length t)) <$> (data <$> block_transactions (sb_inner sb))) < u64_modulus.
Proof.
  cbn. destruct s as [|x [|a [|? ?]]]; try done; try (by destruct x as [|[]]).
  destruct x as [|[]]; try done. intros [= <-]. reflexivity.
Qed.

Lemma certifier_new_reachable : certifier_reachable verifier4 certifier_state_new.
Proof. eexists _, _. apply run_new. Qed.

Definition verified_state (range : CommitRange) (commits votes : list Bytes) : CertifierState :=
  match verify_commits toy_crypto test_codec sync_decoder verifier4 context4 certifier_state_new 1%nat range commits votes with
  | Ok (cs, _) => cs
  | _ => certifier_state_new
  end.

Lemma test_history : commit_history test_codec sync_decoder [trusted1; trusted2].
Proof.
  split.
  - intros [|[|]] x; cbn; [by intros [= <-]..|done].
  - intros [|[|]] x y; cbn; [|done|done]. by intros [= <-] [= <-].
  - by repeat constructor.
Qed.

Lemma test_collision_free l : l ⊆ [trusted1; trusted2] → collision_free test_codec l [trusted1; trusted2].
Proof.
  intros Hl x y Hx%Hl Hy. repeat setoid_rewrite elem_of_cons in Hx. repeat setoid_rewrite elem_of_cons in Hy.
  destruct Hx as [->|[->|Hx%elem_of_nil]], Hy as [->|[->|Hy%elem_of_nil]]; done.
Qed.

Lemma test_votes_own l : Forall (λ b, commit_votes b = [commit_reference trusted2]) l →
  votes_own_commits ∅ (λ _, [trusted1; trusted2]) l.
Proof.
  intros Hl b r Hb _ Hr. rewrite Forall_forall in Hl. rewrite (Hl b Hb), list_elem_of_singleton in Hr. subst r.
  right. by left.
Qed.

Lemma verified_commits_agree_witness :
  let votes1 := [[1; 0]; [1; 1]; [1; 2]] in
  let votes2 := [[1; 1]; [1; 2]; [1; 3]] in
  verify_commits toy_crypto test_codec sync_decoder verifier4 context4 certifier_state_new 1%nat (mkCommitRange 1 3)
    [[1; 0]; [2; 0]] votes1 =
    Ok (verified_state (mkCommitRange 1 3) [[1; 0]; [2; 0]] votes1, inr ([trusted1; trusted2], [voted_by 0; voted_by 1; voted_by 2])) ∧
  ∀ x, x ∈ [trusted1; trusted2] → commit_index (tcm_inner x) = 2 → x = trusted2.
Proof.
  intros votes1 votes2.
  assert (R1 : verify_commits toy_crypto test_codec sync_decoder verifier4 context4 certifier_state_new 1%nat (mkCommitRange 1 3)
    [[1; 0]; [2; 0]] votes1 =
    Ok (verified_state (mkCommitRange 1 3) [[1; 0]; [2; 0]] votes1, inr ([trusted1; trusted2], [voted_by 0; voted_by 1; voted_by 2])))
    by (vm_compute; reflexivity).
  split; [exact R1|]. intros x Hx Hi.
  apply (verified_commits_agree toy_crypto test_codec sync_decoder verifier4 ∅ (λ _, [trusted1; trusted2])
    certifier_state_new certifier_state_new (verified_state (mkCommitRange 1 3) [[1; 0]; [2; 0]] votes1)
    (verified_state (mkCommitRange 2 3) [[2; 0]] votes2) 1%nat 1%nat (mkCommitRange 1 3) (mkCommitRange 2 3)
    [[1; 0]; [2; 0]] [[2; 0]] votes1 votes2 [trusted1; trusted2] [trusted2] [voted_by 0; voted_by 1; voted_by 2] [voted_by 1; voted_by 2; voted_by 3]
    x trusted2 committee4_ok sync_decoder_small).
  - vm_compute. reflexivity.
  - apply certifier_new_reachable.
  - apply certifier_new_reachable.
  - cbn. lia.
  - cbn. lia.
  - cbn. width_lia.
  - cbn. width_lia.
  - exact R1.
  - vm_compute. reflexivity.
  - apply test_votes_own. by repeat constructor.
  - apply test_votes_own. by repeat constructor.
  - intros a _. split; [apply test_history|]. split; apply test_collision_free; [intros y Hy; exact Hy|intros y Hy; right; exact Hy].
  - exact Hx.
  - by left.
  - exact Hi.
Defined.

Lemma fetched_commits_certified_witness :
  ∃ cs' res, fetch_once toy_crypto test_codec sync_decoder verifier4 context4 (mkSyncParameters 4 1 8 2) certifier_state_new 1%nat
      (mkCommitRange 1 3) (inr ([[1; 0]; [2; 0]], [[1; 0]; [1; 1]; [1; 2]]))
      (λ refs, inr ((λ r, [ref_round r; N.of_nat (ref_author r)]) <$> refs)) = Ok (cs', inr res) ∧
    cc_commit <$> certified_commits res = [trusted1; trusted2] ∧
    Forall (λ x, reference <$> cc_blocks x = commit_blocks (tcm_inner (cc_commit x))) (certified_commits res).
Proof.
  destruct (fetched_commits_certified toy_crypto test_codec sync_decoder verifier4 (mkSyncParameters 4 1 8 2) certifier_state_new 1%nat
    (mkCommitRange 1 3) [[1; 0]; [2; 0]] [[1; 0]; [1; 1]; [1; 2]]
    (λ refs, inr ((λ r, [ref_round r; N.of_nat (ref_author r)]) <$> refs)) committee4_ok sync_decoder_small)
    as (cs' & res & Hrun & Hres); [done|apply certifier_new_reachable|done| |].
  - intros commits vb [Hst _ _ Hge [k Hpre] _ _]. destruct commits as [|x commits]; [by split; constructor|].
    apply Forall_cons in Hge as [[Hx _] Hge]. cbn in Hpre. injection Hpre as Hx' Hpre. rewrite <-Hx' in Hx. injection Hx as Hx.
    destruct commits as [|y commits].
    + split; cbn; rewrite <-Hx; cbn; [apply NoDup_singleton|]. by repeat constructor.
    + apply Forall_cons in Hge as [[Hy _] Hge]. cbn in Hpre. injection Hpre as Hy' Hpre. rewrite <-Hy' in Hy. injection Hy as Hy.
      destruct commits; [|done]. split; cbn; rewrite <-Hx, <-Hy; cbn.
      * repeat constructor; set_solver.
      * by repeat constructor.
  - assert (Hres2 : match res with inr cc => cc_commit <$> certified_commits cc = [trusted1; trusted2] | inl _ => False end).
    { vm_compute in Hrun. injection Hrun as _ <-. reflexivity. }
    destruct res as [|cc]; [destruct Hres2|]. exists cs', cc. split; [exact Hrun|]. split; [exact Hres2|]. by apply (Hres cc).
Defined.
