(* ===== verification/CommitSchedulerSpec.v ===== *)
(** * Correctness of the commit syncer's scheduler

    The scheduler hands fetched commits to the core in order, never loses an index it
    scheduled, and has handed over everything once nothing is left to fetch. *)

From S2P Require Import Prelude Collections Weighted Committee Types Fixtures Commits StakeAggregator.
From S2P Require Import ThresholdClock LeaderScoring Storage DagState DagStateSpec DagRecovery Errors BlockVerifier.
From S2P Require Import TransactionCertifier CommitSyncer CommitSyncerSpec.

Local Open Scope N_scope.

(** ** Handing ranges to the core *)

(** The ranges handed to the core continue the synced commits without a gap, and each
    brings new commits. *)
Fixpoint in_order (synced : CommitIndex) (delivered : list SyncRange) : Prop :=
  match delivered with
  | [] => True
  | r :: rest => r.1 ≤ synced + 1 ∧ synced < r.2 ∧ in_order r.2 rest
  end.

Definition synced_after (synced : CommitIndex) (delivered : list SyncRange) : CommitIndex :=
  default synced (snd <$> last delivered).

Lemma synced_after_cons synced d ds : synced_after synced (d :: ds) = synced_after d.2 ds.
Proof. unfold synced_after. rewrite last_cons. by destruct (last ds). Qed.

Lemma in_order_snoc ds : ∀ synced r,
  in_order synced ds → r.1 ≤ synced_after synced ds + 1 → synced_after synced ds < r.2 → in_order synced (ds ++ [r]).
Proof.
  induction ds as [|d ds IH]; intros synced r; [done|]. cbn [in_order app]. intros (H1 & H2 & H3) H4 H5.
  rewrite synced_after_cons in *. split_and!; [done..|]. by apply IH.
Qed.

Lemma synced_after_snoc synced ds r : synced_after synced (ds ++ [r]) = r.2.
Proof. unfold synced_after. by rewrite last_snoc. Qed.

Definition covers (r : SyncRange) (i : CommitIndex) : Prop := r.1 ≤ i ∧ i ≤ r.2.

(** The core answers every call, naming only authorities of the committee. *)
Definition core_answers {K : Type} `{CoreDispatcher K} (c : Committee) : Prop :=
  ∀ k commits, ∃ k' reply, core_add_certified_commits k commits = Ok (k', reply) ∧
    ∀ missing r, reply = Some missing → r ∈ missing → (ref_author r < committee_size c)%nat.

Section scheduler.
Context {K : Type} `{CoreDispatcher K} (c : Committee) (Hcore : core_answers (K := K) c).

(** The state of the loop that hands over fetched ranges. *)
Record loop_inv (synced0 : CommitIndex) (fetched0 : gmap SyncRange CertifiedCommits) (p : Processed K) : Prop := {
  li_order : in_order synced0 (pr_delivered p).*1;
  li_synced : pr_synced p = synced_after synced0 (pr_delivered p).*1;
  li_bound : synced0 ≤ pr_synced p < u32_max;
  li_sub : pr_fetched p ⊆ fetched0;
  li_from r cc : (r, cc) ∈ pr_delivered p → fetched0 !! r = Some cc;
  li_gone r : is_Some (fetched0 !! r) → pr_fetched p !! r = None → r.2 ≤ pr_synced p;
}.

Lemma process_fetched_spec fuel : ∀ synced0 fetched0 p,
  (size (pr_fetched p) < fuel)%nat → pr_shutdown p = false →
  (∀ r, is_Some (fetched0 !! r) → r.2 < u32_max) → loop_inv synced0 fetched0 p →
  ∃ p', process_fetched c fuel p = Ok p' ∧
    in_order synced0 (pr_delivered p').*1 ∧ pr_synced p' = synced_after synced0 (pr_delivered p').*1 ∧
    (∀ r cc, (r, cc) ∈ pr_delivered p' → fetched0 !! r = Some cc) ∧ pr_fetched p' ⊆ fetched0 ∧
    (pr_shutdown p' = false → loop_inv synced0 fetched0 p' ∧
       ∀ r, is_Some (pr_fetched p' !! r) → pr_synced p' + 1 < r.1).
Proof using Hcore.
  induction fuel as [|fuel IH]; intros synced0 fetched0 p Hfuel Hsd Hmax Hinv; [lia|]. cbn [process_fetched].
  destruct (btree_first (pr_fetched p)) as [[r commits]|] eqn:Hfirst.
  2: { exists p. apply btree_first_None in Hfirst. destruct Hinv as [H1 H2 H3 H4 H5 H6]. split_and!; try done. intros _.
       split; [done|]. intros r [cc Hr]. by rewrite Hfirst, lookup_empty in Hr. }
  pose proof Hinv as [Hord Hsyn Hb Hsub Hfrom Hgone].
  pose proof (btree_first_Some _ _ _ Hfirst) as Hr.
  assert (Hr0 : fetched0 !! r = Some commits) by (by eapply lookup_weaken).
  assert (u32_add (pr_synced p) 1 = pr_synced p + 1) as -> by machine_lia.
  assert (Hsize : (size (delete r (pr_fetched p)) < fuel)%nat).
  { rewrite map_size_delete, Hr. assert (size (pr_fetched p) ≠ 0)%nat; [|cbn; lia].
    intros Hz%map_size_empty_iff. by rewrite Hz, lookup_empty in Hr. }
  assert (Hdel : delete r (pr_fetched p) ⊆ fetched0) by (etrans; [apply delete_subseteq|done]).
  assert (Hgone' : ∀ bound, pr_synced p ≤ bound → r.2 ≤ bound →
    ∀ x, is_Some (fetched0 !! x) → delete r (pr_fetched p) !! x = None → x.2 ≤ bound).
  { intros bound Hle1 Hle2 x Hx. rewrite lookup_delete_None. intros [<-|Hn]; [done|].
    specialize (Hgone x Hx Hn). lia. }
  destruct (N.leb_spec r.1 (pr_synced p + 1)) as [Hstart|Hgap].
  - destruct (N.leb_spec r.2 (pr_synced p)) as [Hold|Hnew].
    + apply IH; try done. split; cbn; try done. by apply Hgone'.
    + destruct (Hcore (pr_core p) commits) as (k' & reply & -> & Hmiss). cbn [obind].
      destruct reply as [missing|].
      * rewrite (map_each_pure _ (λ r, default (mkAuthority 0 "" "" [] [] []) (authorities c !! ref_author r))).
        2: { intros x Hx. unfold authority, vec_get. destruct (lookup_lt_is_Some_2 (authorities c) (ref_author x)) as [a Ha].
             - apply (Hmiss missing x eq_refl). by apply elem_of_bset_iter.
             - by rewrite Ha. }
        cbn [obind]. apply IH; try done. rewrite Hsyn in Hstart, Hnew.
        split; cbn [pr_delivered pr_synced pr_fetched]; rewrite ?fmap_app; cbn [fmap list_fmap fst]; try done.
        -- by apply in_order_snoc.
        -- rewrite synced_after_snoc, Hsyn. lia.
        -- specialize (Hmax r). rewrite Hr0 in Hmax. specialize (Hmax ltac:(eauto)). lia.
        -- intros x cc [Hx|[= -> ->]%list_elem_of_singleton]%elem_of_app; [by apply Hfrom|done].
        -- apply Hgone'; lia.
      * eexists. split; [done|]. cbn. done.
  - exists p. split_and!; try done. intros _. split; [done|]. intros x Hx.
    pose proof (btree_first_min _ _ _ x Hfirst Hx) as Hle.
    assert (r.1 ≤ x.1); [|lia]. clear -Hle. destruct r as [a b], x as [a' b'].
    unfold ord_leb, cmp, ord_prod in Hle. cbn in *. unfold cmp at 1, ord_N in Hle. destruct (N.compare_spec a a'); cbn in *; lia || done.
Qed.
End scheduler.

(** ** The ranges being tracked *)

(** The range is being fetched, waits to be fetched, or waits to be handed over. *)
Definition tracked (s : CommitSyncer) (r : SyncRange) : Prop :=
  r ∈ inflight_fetches s ∨ r ∈ pending_fetches s ∨ is_Some (fetched_ranges s !! r).

(** Every scheduled index that is not synced yet belongs to a tracked range. *)
Record syncer_inv (s : CommitSyncer) : Prop := {
  si_cover i h : synced_commit_index s < i → highest_scheduled_index s = Some h → i ≤ h →
    ∃ r, tracked s r ∧ covers r i;
  si_range r : tracked s r → r.1 ≤ r.2 ∧ r.2 < u32_max;
  si_synced : synced_commit_index s < u32_max;
  si_scheduled h : highest_scheduled_index s = Some h → h < u32_max;
}.

Definition with_inflight (s : CommitSyncer) (l : list SyncRange) : CommitSyncer :=
  mkCommitSyncer l (pending_fetches s) (fetched_ranges s) (highest_scheduled_index s) (highest_fetched_commit_index s)
    (synced_commit_index s) (is_sync_mode s).

Lemma schedule_ranges_spec batch quorum limit steps : ∀ prev pending scheduled,
  0 < batch → quorum + batch < u32_max → prev + batch * N.of_nat (pred steps) ≤ N.max prev quorum →
  prev < u32_max → N.max prev quorum = quorum ∨ steps = 0%nat →
  let '(pending', scheduled') := schedule_ranges steps batch quorum limit prev pending scheduled in
  pending ⊆ pending' ∧
  (∀ r, r ∈ pending' → r ∈ pending ∨ (r.2 = r.1 + batch - 1 ∧ prev < r.1 ∧ r.2 ≤ quorum ∧ r.2 ≤ limit)) ∧
  (scheduled' = scheduled ∨ ∃ h, scheduled' = Some h ∧ prev < h ∧ h ≤ quorum ∧ h ≤ limit ∧
     ∀ i, prev < i → i ≤ h → ∃ r, r ∈ pending' ∧ covers r i).
Proof.
  induction steps as [|steps IH]; intros prev pending scheduled Hb Hq Hsteps Hprev Hle; cbn [schedule_ranges].
  { split_and!; [done|by left|by left]. }
  assert (prev ≤ quorum) as Hpq by (destruct Hle; lia).
  assert (u32_add prev 1 = prev + 1) as -> by machine_lia.
  assert (u32_add prev batch = prev + batch) as -> by machine_lia.
  destruct (N.ltb_spec quorum (prev + batch)); [split_and!; [done|by left|by left]|].
  destruct (N.ltb_spec limit (prev + batch)); [split_and!; [done|by left|by left]|].
  specialize (IH (prev + batch) ({[(prev + 1, prev + batch)]} ∪ pending) (Some (prev + batch)) Hb Hq).
  destruct (schedule_ranges steps _ _ _ _ _ _) as [pending' scheduled'] eqn:E.
  destruct IH as (Hsub & Hrange & Hsched).
  { destruct steps; cbn [pred] in *; [lia|]. cbn [pred] in *. lia. }
  { lia. } { destruct (decide (steps = 0%nat)); [by right|left; lia]. }
  assert (Hnew : (prev + 1, prev + batch) ∈ pending') by (apply Hsub; set_solver).
  split; [set_solver|]. split.
  - intros r Hr. destruct (Hrange r Hr) as [[->%elem_of_singleton|Hin]%elem_of_union|Hc]; [right; cbn; lia|by left|right].
    destruct Hc as (-> & ? & ? & ?). lia.
  - right. destruct Hsched as [->|(h & -> & H1 & H2 & H3 & Hcov)].
    + exists (prev + batch). split_and!; try done; [lia|]. intros i Hi1 Hi2. exists (prev + 1, prev + batch).
      split; [done|]. split; cbn; lia.
    + exists h. split_and!; try done; [lia|]. intros i Hi1 Hi2.
      destruct (N.lt_ge_cases (prev + batch) i) as [Hgt|Hge]; [by apply Hcov|].
      exists (prev + 1, prev + batch). split; [done|]. split; cbn; lia.
Qed.

Lemma effective_batch_bounds params mode lag quorum :
  0 < commit_sync_batch_size params → 2 * commit_sync_batch_size params ≤ u32_max →
  0 < effective_batch_size params mode lag quorum ≤ 2 * commit_sync_batch_size params.
Proof.
  intros H1 H2. unfold effective_batch_size.
  assert (commit_sync_batch_size params `div` 2 ≤ commit_sync_batch_size params) by (apply N.Div0.div_le_upper_bound; lia).
  generalize dependent (commit_sync_batch_size params `div` 2). intros half Hhalf.
  destruct mode; [destruct (_ || _)|]; machine_lia.
Qed.

Lemma step_count_bound prev quorum batch :
  0 < batch → prev + batch * N.of_nat (pred (step_count prev quorum batch)) ≤ N.max prev quorum.
Proof.
  intros Hb. unfold step_count. destruct (N.leb_spec prev quorum); cbn [pred]; [|lia].
  rewrite N2Nat.id. pose proof (N.Div0.mul_div_le (quorum - prev) batch). lia.
Qed.

(** The configuration and the indices seen by one call of the scheduler. *)
Record schedulable (params : SyncParameters) (quorum local : CommitIndex) : Prop := {
  sc_batch : 0 < commit_sync_batch_size params;
  sc_quorum : quorum + 2 * commit_sync_batch_size params < u32_max;
  sc_local : local < u32_max;
}.

Lemma try_schedule_once_result params s quorum local handled :
  syncer_inv s → schedulable params quorum local →
  let batch := effective_batch_size params (should_sync (saturating_sub quorum local) quorum) (saturating_sub quorum local) quorum in
  let after := N.max (N.max (synced_commit_index s) local) (default 0 (highest_scheduled_index s)) in
  ∃ pending' scheduled' limit,
    try_schedule_once params s quorum local handled =
      Ok (mkCommitSyncer (inflight_fetches s) pending' (fetched_ranges s) scheduled' (highest_fetched_commit_index s)
            (N.max (synced_commit_index s) local) (should_sync (saturating_sub quorum local) quorum)) ∧
    pending_fetches s ⊆ pending' ∧
    (∀ r, r ∈ pending' → r ∈ pending_fetches s ∨ (r.2 = r.1 + batch - 1 ∧ after < r.1 ∧ r.2 ≤ quorum ∧ r.2 ≤ limit)) ∧
    (scheduled' = highest_scheduled_index s ∨ ∃ h, scheduled' = Some h ∧ after < h ∧ h ≤ quorum ∧ h ≤ limit ∧
       ∀ i, after < i → i ≤ h → ∃ r, r ∈ pending' ∧ covers r i).
Proof.
  intros [_ _ Hsync Hh] [Hb Hq Hl] batch after. unfold try_schedule_once. fold after. fold batch.
  destruct (effective_batch_bounds params (should_sync (saturating_sub quorum local) quorum)
    (saturating_sub quorum local) quorum) as [Hb1 Hb2]; [done|lia|]. fold batch in Hb1, Hb2.
  rewrite (proj2 (N.eqb_neq batch 0)) by lia. cbn [negb rassert obind].
  set (limit := u32_add handled _).
  pose proof (schedule_ranges_spec batch quorum limit (step_count after quorum batch) after (pending_fetches s)
    (highest_scheduled_index s) Hb1 ltac:(lia) (step_count_bound _ _ _ Hb1)) as Hspec.
  destruct (schedule_ranges _ _ _ _ _ _ _) as [pending' scheduled'] eqn:E.
  destruct Hspec as (H1 & H2 & H3).
  { subst after. destruct (highest_scheduled_index s) as [h|]; cbn; [specialize (Hh h eq_refl)|]; lia. }
  { unfold step_count. destruct (N.leb_spec after quorum); [left; lia|by right]. }
  exists pending', scheduled', limit. split_and!; done.
Qed.

Lemma try_schedule_once_inv params s quorum local handled s' :
  syncer_inv s → schedulable params quorum local →
  try_schedule_once params s quorum local handled = Ok s' → syncer_inv s'.
Proof.
  intros Hs Hsc Hrun. destruct (try_schedule_once_result params s quorum local handled Hs Hsc)
    as (pending' & scheduled' & limit & Hres & Hsub & Hrange & Hsched).
  rewrite Hrun in Hres. injection Hres as ->. destruct Hs as [Hcov Hr Hsy Hh], Hsc as [Hb Hq Hl].
  destruct (effective_batch_bounds params (should_sync (saturating_sub quorum local) quorum)
    (saturating_sub quorum local) quorum) as [Hb1 Hb2]; [done|lia|].
  split; cbn [synced_commit_index highest_scheduled_index tracked inflight_fetches pending_fetches fetched_ranges].
  - intros i h Hi Hh' Hle.
    assert (Hold : ∀ h0, highest_scheduled_index s = Some h0 → i ≤ h0 → ∃ r, tracked s r ∧ covers r i).
    { intros h0 Hh0 Hle0. apply (Hcov i h0); [lia|done|done]. }
    assert (Hlift : (∃ r, tracked s r ∧ covers r i) → ∃ r, (r ∈ inflight_fetches s ∨ r ∈ pending' ∨ is_Some (fetched_ranges s !! r)) ∧ covers r i).
    { intros (r & Hr' & Hc). exists r. split; [|done]. destruct Hr' as [?|[?%Hsub|?]]; [by left|by right; left|by right; right]. }
    destruct Hsched as [->|(h1 & -> & H1 & H2 & H3 & H4)]; [by apply Hlift, (Hold h)|]. injection Hh' as ->.
    destruct (highest_scheduled_index s) as [h0|] eqn:E0; cbn [default] in *.
    + destruct (N.le_gt_cases i h0); [by apply Hlift, (Hold h0)|].
      destruct (H4 i) as (r & ? & ?); [cbn in *; lia|done|]. exists r. split; [by right; left|done].
    + destruct (H4 i) as (r & ? & ?); [cbn in *; lia|done|]. exists r. split; [by right; left|done].
  - intros r [Hi|[Hp|Hf]].
    + apply Hr. by left.
    + destruct (Hrange r Hp) as [Hp'|(-> & Hlt & Hle1 & Hle2)]; [apply Hr; right; by left|lia].
    + apply Hr. by right; right.
  - lia.
  - intros h Hh'. destruct Hsched as [->|(h1 & -> & H1 & H2 & H3 & H4)]; [by apply Hh|]. injection Hh' as ->. lia.
Qed.

Lemma start_fetches_spec slots : ∀ s, syncer_inv s →
  syncer_inv (start_fetches slots s) ∧ synced_commit_index (start_fetches slots s) = synced_commit_index s ∧
  (length (inflight_fetches (start_fetches slots s)) ≤ length (inflight_fetches s) + slots)%nat ∧
  (∀ r, tracked (start_fetches slots s) r ↔ tracked s r).
Proof.
  induction slots as [|slots IH]; intros s Hs; cbn [start_fetches]; [split_and!; [done|done|lia|done]|].
  destruct (bset_first (pending_fetches s)) as [r|] eqn:Hr; [|split_and!; [done|done|lia|done]].
  set (s1 := mkCommitSyncer _ _ _ _ _ _ _).
  assert (Hrin : r ∈ pending_fetches s) by (by apply bset_first_Some).
  assert (Ht : ∀ x, tracked s1 x ↔ tracked s x).
  { intros x. unfold tracked, s1. cbn. rewrite elem_of_app, list_elem_of_singleton, elem_of_difference, elem_of_singleton.
    destruct (decide (x = r)) as [->|]; naive_solver. }
  destruct (IH s1) as (H1 & H2 & H3 & H4).
  - destruct Hs as [Hcov Hra Hsy Hh]. split; cbn; try done.
    + intros i h Hi Hh' Hle. destruct (Hcov i h Hi Hh' Hle) as (x & Hx & Hc). exists x. by rewrite Ht.
    + intros x Hx%Ht. by apply Hra.
  - split_and!; [done|by rewrite H2|cbn in H3; rewrite length_app in H3; cbn in H3; lia|].
    intros x. by rewrite H4.
Qed.

(** ** Fetch results *)

Section results.
Context {K : Type} `{CoreDispatcher K} (c : Committee) (Hcore : core_answers (K := K) c).

(** The syncer before the loop that hands over ranges: the fetched one is added. *)
Definition with_fetched (s : CommitSyncer) (synced : CommitIndex) (r : SyncRange) (commits : CertifiedCommits) :
    gmap SyncRange CertifiedCommits :=
  if synced <? r.2 then <[r := commits]> (fetched_ranges s) else fetched_ranges s.

Lemma handle_fetch_result_spec s k r commits :
  syncer_inv s → tracked s r → core_last_commit_index k < u32_max → response_fits r commits →
  let synced := N.max (synced_commit_index s) (core_last_commit_index k) in
  ∃ e s' p, handle_fetch_result c s k r.2 commits = Ok (s', p) ∧ r.1 ≤ e ∧ e ≤ r.2 ∧
    in_order synced (pr_delivered p).*1 ∧ synced_commit_index s' = synced_after synced (pr_delivered p).*1 ∧
    (∀ x cc, (x, cc) ∈ pr_delivered p → with_fetched s synced (r.1, e) commits !! x = Some cc) ∧
    (pr_shutdown p = false →
       inflight_fetches s' = inflight_fetches s ∧ highest_scheduled_index s' = highest_scheduled_index s ∧
       pending_fetches s' = (if e <? r.2 then {[(e + 1, r.2)]} ∪ pending_fetches s else pending_fetches s) ∧
       synced ≤ synced_commit_index s' ∧ synced_commit_index s' < u32_max ∧
       fetched_ranges s' ⊆ with_fetched s synced (r.1, e) commits ∧
       (∀ x, is_Some (with_fetched s synced (r.1, e) commits !! x) → fetched_ranges s' !! x = None → x.2 ≤ synced_commit_index s') ∧
       ∀ x, is_Some (fetched_ranges s' !! x) → synced_commit_index s' + 1 < x.1).
Proof using Hcore.
  intros Hs Htr Hk (first & final & Hfirst & Hfinal & Hstart & He1 & He2) synced.
  pose proof (si_range s Hs) as Hra. pose proof (Hra r Htr) as [Hr1 Hr2]. pose proof (si_synced s Hs) as Hsy.
  set (e := commit_index (tcm_inner (cc_commit final))) in *. exists e.
  unfold handle_fetch_result. rewrite Hfirst, Hfinal. cbn [expect obind]. rewrite Hstart. fold e.
  assert (u32_add e 1 = e + 1) as -> by machine_lia. fold synced.
  change (if synced <? e then _ else fetched_ranges s) with (with_fetched s synced (r.1, e) commits).
  set (f0 := with_fetched s synced (r.1, e) commits).
  destruct (process_fetched_spec c Hcore (S (size f0)) synced f0 (mkProcessed k f0 synced [] false))
    as (p & -> & Ho & Hsy' & Hfrom & Hsub & Hdone); [cbn; lia|done| | |].
  - intros x [cc Hx]. unfold f0, with_fetched in Hx. cbn [snd] in Hx. destruct (synced <? e).
    + apply lookup_insert_Some in Hx as [[<- _]|[_ Hx]]; [cbn; lia|]. apply Hra. by right; right.
    + apply Hra. by right; right.
  - split; cbn; try done; [lia|by intros ? ? ?%elem_of_nil|]. intros x [cc Hx] Hn. congruence.
  - cbn [obind]. eexists _, p. split; [done|]. cbn. split_and!; try done. intros Hsd.
    destruct (Hdone Hsd) as [[L1 L2 [L3 L3'] L4 L5 L6] Hrest]. split_and!; done.
Qed.

(** What a result for a range in flight, up to index [e], does to the syncer. *)
Record result_effect (s : CommitSyncer) (l1 : list SyncRange) (r : SyncRange) (l2 : list SyncRange) (k : K)
    (commits : CertifiedCommits) (e : CommitIndex) (s' : CommitSyncer) : Prop := {
  re_was : inflight_fetches s = l1 ++ r :: l2;
  re_end : r.1 ≤ e ∧ e ≤ r.2;
  re_inflight : inflight_fetches s' = l1 ++ l2;
  re_scheduled : highest_scheduled_index s' = highest_scheduled_index s;
  re_pending : pending_fetches s' = if e <? r.2 then {[(e + 1, r.2)]} ∪ pending_fetches s else pending_fetches s;
  re_synced : N.max (synced_commit_index s) (core_last_commit_index k) ≤ synced_commit_index s' ∧ synced_commit_index s' < u32_max;
  re_fetched : fetched_ranges s' ⊆ with_fetched s (N.max (synced_commit_index s) (core_last_commit_index k)) (r.1, e) commits;
  re_gone x : is_Some (with_fetched s (N.max (synced_commit_index s) (core_last_commit_index k)) (r.1, e) commits !! x) →
    fetched_ranges s' !! x = None → x.2 ≤ synced_commit_index s';
  re_waiting x : is_Some (fetched_ranges s' !! x) → synced_commit_index s' + 1 < x.1;
}.

Lemma handle_fetch_result_effect s l1 r l2 k commits s' p :
  syncer_inv s → inflight_fetches s = l1 ++ r :: l2 → core_last_commit_index k < u32_max → response_fits r commits →
  handle_fetch_result c (with_inflight s (l1 ++ l2)) k r.2 commits = Ok (s', p) → pr_shutdown p = false →
  ∃ e, result_effect s l1 r l2 k commits e s'.
Proof using Hcore.
  intros Hs Hin Hk Hfit Hrun Hsd.
  destruct (handle_fetch_result_spec s k r commits Hs) as (e & s1 & p1 & Hrun1 & He1 & He2 & _ & _ & _ & Hdone); try done.
  { left. rewrite Hin. apply elem_of_app. right. by left. }
  assert (Heq : s' = with_inflight s1 (l1 ++ l2) ∧ p = p1).
  { clear -Hrun Hrun1. unfold handle_fetch_result in *. cbn [with_inflight inflight_fetches pending_fetches fetched_ranges
      highest_scheduled_index highest_fetched_commit_index synced_commit_index is_sync_mode] in *.
    destruct (expect (head _) _); [|done..]. cbn [obind] in *. destruct (expect (last _) _); [|done..]. cbn [obind] in *.
    destruct (process_fetched _ _ _); [|done..]. cbn [obind] in *. by simplify_eq. }
  destruct Heq as [-> ->]. destruct (Hdone Hsd) as (Hi & Hh & Hp & Hge & Hlt & Hsub & Hgone & Hw).
  exists e. split; cbn [with_inflight inflight_fetches pending_fetches fetched_ranges highest_scheduled_index synced_commit_index]; done.
Qed.

Lemma result_tracks s l1 r l2 k commits e s' x i :
  result_effect s l1 r l2 k commits e s' → tracked s x → covers x i → synced_commit_index s' < i →
  ∃ y, tracked s' y ∧ covers y i.
Proof.
  clear c Hcore. intros [Hin [He1 He2] Hi Hh Hp [Hge Hlt] Hsub Hgone _] Hx Hcx Hi'. unfold tracked.
  set (synced := N.max _ _) in *. rewrite Hi, Hp.
  assert (Hstay : ∀ y, is_Some (with_fetched s synced (r.1, e) commits !! y) → covers y i → is_Some (fetched_ranges s' !! y)).
  { intros y Hy [_ Hy2]. destruct (fetched_ranges s' !! y) eqn:E; [by eexists|]. specialize (Hgone y Hy E). lia. }
  assert (x = r ∨ x ∈ l1 ++ l2 ∨ x ∈ pending_fetches s ∨ is_Some (fetched_ranges s !! x)) as [->|[Ha|[Ha|Ha]]].
  { destruct Hx as [Hx|[Hx|Hx]]; [|by right; right; left|by right; right; right].
    rewrite Hin in Hx. apply elem_of_app in Hx as [Hx|[->|Hx]%elem_of_cons]; [|by left|];
      right; left; apply elem_of_app; auto. }
  - destruct Hcx as [Hc1 Hc2]. destruct (N.le_gt_cases i e) as [Hie|Hie].
    + exists (r.1, e). split; [right; right|by split]. apply Hstay; [|by split].
      unfold with_fetched. cbn. destruct (N.ltb_spec synced e); [|lia]. rewrite lookup_insert_eq. by eexists.
    + exists (e + 1, r.2). split; [right; left|split; cbn; lia]. destruct (N.ltb_spec e r.2); [set_solver|lia].
  - exists x. split; [by left|done].
  - exists x. split; [right; left|done]. destruct (e <? r.2); set_solver.
  - exists x. split; [right; right|done]. apply Hstay; [|done].
    unfold with_fetched. destruct (synced <? _); [|done]. rewrite lookup_insert_is_Some'. by right.
Qed.

(** The bookkeeping survives a result, whatever part of the range it covers. *)
Lemma handle_fetch_result_inv s l1 r l2 k commits s' p :
  syncer_inv s → inflight_fetches s = l1 ++ r :: l2 → core_last_commit_index k < u32_max → response_fits r commits →
  handle_fetch_result c (with_inflight s (l1 ++ l2)) k r.2 commits = Ok (s', p) → pr_shutdown p = false → syncer_inv s'.
Proof using Hcore.
  intros Hs Hin Hk Hfit Hrun Hsd.
  destruct (handle_fetch_result_effect _ _ _ _ _ _ _ _ Hs Hin Hk Hfit Hrun Hsd) as [e He].
  destruct Hs as [Hcov Hra Hsy Hsc]. split.
  - intros i h Hi Hh Hle. rewrite (re_scheduled _ _ _ _ _ _ _ _ He) in Hh. pose proof (re_synced _ _ _ _ _ _ _ _ He).
    destruct (Hcov i h ltac:(lia) Hh Hle) as (x & Hx & Hc). by eapply result_tracks.
  - destruct He as [_ [He1 He2] Hi _ Hp _ Hsub _ _].
    assert (Hr : r.1 ≤ r.2 ∧ r.2 < u32_max) by (apply Hra; left; rewrite Hin; apply elem_of_app; right; by left).
    intros x [Hx|[Hx|[cc Hx]]].
    + rewrite Hi in Hx. apply Hra. left. rewrite Hin. apply elem_of_app in Hx as [?|?]; apply elem_of_app; [by left|right; by right].
    + rewrite Hp in Hx. destruct (N.ltb_spec e r.2); [|apply Hra; by right; left].
      apply elem_of_union in Hx as [->%elem_of_singleton|Hx]; [cbn; lia|]. apply Hra. by right; left.
    + apply (lookup_weaken _ _ _ _ Hx) in Hsub. unfold with_fetched in Hsub. clear Hp. destruct (_ <? _); [|apply Hra; right; right; by eexists].
      apply lookup_insert_Some in Hsub as [[<- _]|[_ Hsub]]; [cbn; lia|]. apply Hra. by right; right.
  - apply (re_synced _ _ _ _ _ _ _ _ He).
  - intros h Hh. rewrite (re_scheduled _ _ _ _ _ _ _ _ He) in Hh. by apply Hsc.
Qed.
End results.

(** ** The syncer as a state machine *)

Section machine.
Context {K : Type} `{CoreDispatcher K} (params : SyncParameters) (c : Committee).

(** One pass of the event loop: the scheduler, starting fetches, or the result of a
    fetch in flight. *)
Inductive sync_step : CommitSyncer → CommitSyncer → Prop :=
| step_schedule s quorum local handled s' :
    schedulable params quorum local → try_schedule_once params s quorum local handled = Ok s' → sync_step s s'
| step_start s : sync_step s (try_start_fetches params c s)
| step_result s l1 r l2 k commits s' p :
    inflight_fetches s = l1 ++ r :: l2 → core_last_commit_index k < u32_max → response_fits r commits →
    handle_fetch_result c (with_inflight s (l1 ++ l2)) k r.2 commits = Ok (s', p) → pr_shutdown p = false →
    sync_step s s'.

Inductive sync_reachable : CommitSyncer → Prop :=
| sync_init last_commit : last_commit < u32_max → sync_reachable (commit_syncer_new last_commit)
| sync_more s s' : sync_reachable s → sync_step s s' → sync_reachable s'.

Hypothesis Hcore : core_answers (K := K) c.

Lemma sync_step_inv s s' :
  syncer_inv s → sync_step s s' → syncer_inv s' ∧ synced_commit_index s ≤ synced_commit_index s'.
Proof using Hcore.
  intros Hs Hstep. destruct Hstep as [s quorum local handled s' Hsc Hrun|s|s l1 r l2 k commits s' p Hin Hk Hfit Hrun Hsd].
  - split; [by eapply try_schedule_once_inv|].
    destruct (try_schedule_once_result params s quorum local handled Hs Hsc) as (? & ? & ? & Hres & _).
    rewrite Hrun in Hres. injection Hres as ->. cbn. lia.
  - destruct (start_fetches_spec (target_parallel_fetches params c s - length (inflight_fetches s)) s Hs) as (H1 & H2 & _).
    unfold try_start_fetches. split; [done|lia].
  - split; [by eapply handle_fetch_result_inv|].
    destruct (handle_fetch_result_effect c Hcore _ _ _ _ _ _ _ _ Hs Hin Hk Hfit Hrun Hsd) as [e He].
    pose proof (re_synced _ _ _ _ _ _ _ _ He). lia.
Qed.

Lemma sync_reachable_inv s : sync_reachable s → syncer_inv s.
Proof using Hcore.
  induction 1 as [last_commit Hl|s s' _ IH Hstep]; [|by eapply sync_step_inv].
  split; cbn; [done| |done|done]. intros r [Hr%elem_of_nil|[Hr|[cc Hr]]]; [done|..]; cbn [fetched_ranges pending_fetches commit_syncer_new] in Hr; [set_solver|by rewrite lookup_empty in Hr].
Qed.
End machine.

(** C8 (invariant): no scheduled commit is lost.  Whatever the order of scheduling,
    fetch starts and complete or partial results, every index up to the highest
    scheduled one is either synced or inside a range in flight, pending or fetched, and
    the synced index never decreases. *)
Theorem no_scheduled_commit_lost {K : Type} `{CoreDispatcher K} params c s s' :
  core_answers (K := K) c → sync_reachable (K := K) params c s → sync_step (K := K) params c s s' →
  synced_commit_index s ≤ synced_commit_index s' ∧
  ∀ i h, highest_scheduled_index s' = Some h → i ≤ h →
    i ≤ synced_commit_index s' ∨ ∃ r, tracked s' r ∧ covers r i.
Proof.
  intros Hcore Hr Hstep. pose proof (sync_reachable_inv params c Hcore s Hr) as Hs.
  destruct (sync_step_inv params c Hcore s s' Hs Hstep) as [Hs' Hle]. split; [done|]. intros i h Hh Hi.
  destruct (N.le_gt_cases i (synced_commit_index s')) as [?|Hgt]; [by left|right]. by apply (si_cover s' Hs' i h).
Qed.

(** A fetch result is processed without panicking and within the loop's
    bound; the ranges handed to the core continue the synced commits without a gap, each
    with the commits that were fetched for it; afterwards the synced index is the end of
    the last range handed over, and every range still waiting is behind a gap. *)
Theorem fetched_commits_in_order {K : Type} `{CoreDispatcher K} c s k r commits :
  core_answers (K := K) c → syncer_inv s → r ∈ inflight_fetches s →
  core_last_commit_index k < u32_max → response_fits r commits →
  ∃ s' p, handle_fetch_result c s k r.2 commits = Ok (s', p) ∧
    let synced := N.max (synced_commit_index s) (core_last_commit_index k) in
    in_order synced (pr_delivered p).*1 ∧ synced_commit_index s' = synced_after synced (pr_delivered p).*1 ∧
    (∀ x cc, (x, cc) ∈ pr_delivered p → fetched_ranges s !! x = Some cc ∨ x.1 = r.1 ∧ cc = commits) ∧
    (pr_shutdown p = false → ∀ x, is_Some (fetched_ranges s' !! x) → synced_commit_index s' + 1 < x.1).
Proof.
  intros Hcore Hs Hr Hk Hfit.
  destruct (handle_fetch_result_spec c Hcore s k r commits Hs ltac:(by left) Hk Hfit)
    as (e & s' & p & Hrun & _ & _ & Ho & Hsy & Hfrom & Hdone).
  exists s', p. split; [done|]. split_and!; try done.
  - clear Hdone. intros x cc Hx%Hfrom. unfold with_fetched in Hx. destruct (_ <? _); [|by left].
    apply lookup_insert_Some in Hx as [[<- ->]|[_ Hx]]; [by right|by left].
  - intros Hsd. apply (Hdone Hsd).
Qed.


(** The scheduler asks for consecutive ranges of the batch size in force
    right after everything synced or scheduled, never beyond what a quorum committed,
    and does not panic. *)
Theorem scheduled_ranges_bounds params s quorum local handled :
  syncer_inv s → schedulable params quorum local →
  let batch := effective_batch_size params (should_sync (saturating_sub quorum local) quorum) (saturating_sub quorum local) quorum in
  let after := N.max (N.max (synced_commit_index s) local) (default 0 (highest_scheduled_index s)) in
  ∃ s', try_schedule_once params s quorum local handled = Ok s' ∧
    (∀ r, r ∈ pending_fetches s' → r ∈ pending_fetches s ∨ r.2 + 1 = r.1 + batch ∧ after < r.1 ∧ r.2 ≤ quorum) ∧
    (highest_scheduled_index s' = highest_scheduled_index s ∨ ∃ h, highest_scheduled_index s' = Some h ∧ h ≤ quorum ∧
       ∀ i, after < i → i ≤ h → ∃ r, r ∈ pending_fetches s' ∧ covers r i).
Proof.
  intros Hs Hsc batch after.
  destruct (try_schedule_once_result params s quorum local handled Hs Hsc) as (pe & sch & lim & Hres & Hsub & Hr & Hsch).
  eexists. split; [done|]. cbn. split.
  - intros r Hin. destruct (Hr r Hin) as [?|(-> & ? & ? & ?)]; [by left|right]. split_and!; [|done|lia].
    destruct Hsc as [Hb Hq _]. destruct (effective_batch_bounds params (should_sync (saturating_sub quorum local) quorum)
      (saturating_sub quorum local) quorum) as [Hb1 _]; [done|lia|]. subst batch. lia.
  - destruct Hsch as [?|(h & ? & ? & ? & ? & ?)]; [by left|right]. by exists h.
Qed.

(** ** Witnesses: four commits in two ranges, the second fetched first and in part *)

Definition idle_core : Type := unit.
#[export] Instance idle_dispatcher : CoreDispatcher idle_core := {|
  core_last_commit_index _ := 0;
  core_add_certified_commits k _ := Ok (k, Some ∅);
|}.

Lemma idle_core_answers : core_answers (K := idle_core) committee4.
Proof. intros [] commits. exists tt, (Some ∅). split; [done|]. intros missing r [= <-] Hr. set_solver. Qed.

Definition sync_params : SyncParameters := mkSyncParameters 4 1 8 100.

Definition numbered_commit (i : CommitIndex) : CertifiedCommit :=
  mkCertifiedCommit (new_trusted test_codec (CommitVersion1 (mkCommitV1 i 0 0 (mkBlockRef i 0%nat 0) [])) []) [].
Definition response (l : list CommitIndex) : CertifiedCommits := mkCertifiedCommits (numbered_commit <$> l) [].

Definition state_of {A : Type} (o : outcome (CommitSyncer * A)) : CommitSyncer :=
  match o with Ok (s, _) => s | _ => commit_syncer_new 0 end.

Definition sync0 : CommitSyncer := commit_syncer_new 0.
Definition sync1 : CommitSyncer :=
  match try_schedule_once sync_params sync0 4 0 0 with Ok s => s | _ => sync0 end.
Definition sync2 : CommitSyncer := try_start_fetches sync_params committee4 sync1.
Definition sync3 : CommitSyncer :=
  state_of (handle_fetch_result (K := idle_core) committee4 (with_inflight sync2 [(1, 2)]) tt 4 (response [3])).
Definition sync4 : CommitSyncer :=
  state_of (handle_fetch_result (K := idle_core) committee4 (with_inflight sync3 []) tt 2 (response [1; 2])).
Definition sync5 : CommitSyncer := try_start_fetches sync_params committee4 sync4.
Definition sync6 : CommitSyncer :=
  state_of (handle_fetch_result (K := idle_core) committee4 (with_inflight sync5 []) tt 4 (response [4])).

Lemma response_fits_by r l first final :
  head l = Some first → last l = Some final → first = r.1 → r.1 ≤ final → final ≤ r.2 → response_fits r (response l).
Proof.
  intros Hf Hl -> H1 H2. exists (numbered_commit r.1), (numbered_commit final). cbn. rewrite fmap_last, Hl.
  split_and!; try done. destruct l; cbn in *; congruence.
Qed.

Lemma sync_run : sync_reachable (K := idle_core) sync_params committee4 sync2 ∧
  sync_reachable (K := idle_core) sync_params committee4 sync5.
Proof.
  assert (H2 : sync_reachable (K := idle_core) sync_params committee4 sync2).
  { apply (sync_more _ _ sync1); [|apply step_start]. apply (sync_more _ _ sync0); [by apply sync_init|].
    apply (step_schedule _ _ sync0 4 0 0); [by split|]. vm_compute. done. }
  split; [done|]. apply (sync_more _ _ sync4); [|apply step_start].
  apply (sync_more _ _ sync3).
  - apply (sync_more _ _ sync2); [done|].
    eapply (step_result _ _ sync2 [(1, 2)] (3, 4) [] tt (response [3])); try done.
    by apply (response_fits_by _ _ 3 3).
  - eapply (step_result _ _ sync3 [] (1, 2) [] tt (response [1; 2])); try done.
    by apply (response_fits_by _ _ 1 2).
Qed.

Lemma no_scheduled_commit_lost_witness :
  synced_commit_index sync5 = 3 ∧ highest_scheduled_index sync5 = Some 4 ∧
  (4 ≤ synced_commit_index sync5 ∨ ∃ r, tracked sync5 r ∧ covers r 4).
Proof.
  split; [reflexivity|]. split; [reflexivity|].
  destruct (no_scheduled_commit_lost (K := idle_core) sync_params committee4 sync5
    (try_start_fetches sync_params committee4 sync5) idle_core_answers (proj2 sync_run) (step_start _ _ _)) as [_ Hall].
  apply (Hall 4 4); [reflexivity|lia].
Defined.

Lemma sync3_inv : syncer_inv (with_inflight sync3 [(1, 2)]).
Proof.
  apply (sync_reachable_inv (K := idle_core) sync_params committee4 idle_core_answers).
  apply (sync_more _ _ sync2); [apply sync_run|].
  eapply (step_result (K := idle_core) _ _ sync2 [(1, 2)] (3, 4) [] tt (response [3])); try done.
  by apply (response_fits_by _ _ 3 3).
Qed.

Lemma fetched_commits_in_order_witness :
  ∃ s' p, handle_fetch_result (K := idle_core) committee4 (with_inflight sync3 [(1, 2)]) tt 2 (response [1; 2]) = Ok (s', p) ∧
    (pr_delivered p).*1 = [(1, 2); (3, 3)] ∧ in_order 0 (pr_delivered p).*1 ∧ synced_commit_index s' = 3.
Proof.
  destruct (fetched_commits_in_order (K := idle_core) committee4 (with_inflight sync3 [(1, 2)]) tt (1, 2) (response [1; 2])
    idle_core_answers sync3_inv) as (s' & p & Hrun & Ho & Hs & _);
    [by left|reflexivity|by apply (response_fits_by _ _ 1 2)|].
  exists s', p. split; [exact Hrun|]. vm_compute in Hrun. injection Hrun as <- <-.
  split; [reflexivity|]. split; [exact Ho|reflexivity].
Defined.

Definition delivered6 : Processed idle_core :=
  match handle_fetch_result (K := idle_core) committee4 (with_inflight sync5 []) tt 4 (response [4]) with
  | Ok (_, p) => p
  | _ => mkProcessed tt ∅ 0 [] true
  end.


Lemma scheduled_ranges_bounds_witness :
  ∃ s', try_schedule_once sync_params sync0 4 0 0 = Ok s' ∧ pending_fetches s' = {[(1, 2); (3, 4)]} ∧
    ∀ r, r ∈ pending_fetches s' → r ∈ pending_fetches sync0 ∨ r.2 + 1 = r.1 + 2 ∧ 0 < r.1 ∧ r.2 ≤ 4.
Proof.
  destruct (scheduled_ranges_bounds sync_params sync0 4 0 0) as (s' & Hrun & Hr & _).
  - apply (sync_reachable_inv (K := idle_core) sync_params committee4 idle_core_answers). apply sync_init. reflexivity.
  - split; reflexivity.
  - exists s'. split; [exact Hrun|]. split; [|exact Hr]. vm_compute in Hrun. injection Hrun as <-. apply leibniz_equiv.
    intros x. cbn. set_solver.
Defined.
