(* ===== verification/CommitFinalizer.v ===== *)
(** * The commit finalizer ([core/src/commit_finalizer.rs])

    Committed sub-dags wait here until each of their transactions is finalized or
    rejected: at once when no committed or local block rejects it, otherwise by counting
    the votes of the blocks committed after it.  The votes known to the transaction
    certifier when a commit is processed are an argument, and so is the order in which
    the tasks that count votes are joined.  The theorems are in [CommitFinalizerSpec]. *)

From S2P Require Import Prelude Collections Weighted Committee Types Fixtures Commits StakeAggregator.
From S2P Require Import ThresholdClock LeaderScoring Storage DagState DagStateSpec DagRecovery BaseCommitter Errors.
From S2P Require Import BlockVerifier TransactionCertifier.

Local Open Scope N_scope.

Definition INDIRECT_REJECT_DEPTH : Round := 3.

(** ** Buffered commits *)

Abbreviation TransactionSets := (gmap BlockRef (gset TransactionIndex)) (only parsing).

Record CommitState := mkCommitState {
  cst_commit : CommittedSubDag;
  pending_blocks : gmap BlockRef nat;
  pending_transactions : TransactionSets;
  cst_rejected : TransactionSets;
}.

Definition commit_state_new (commit : CommittedSubDag) : outcome CommitState :=
  let pending := foldl (λ m b, <[reference b := length (block_transactions (vb_inner b))]> m) ∅ (sd_blocks commit) in
  do! rassert (bool_decide (pending ≠ ∅)) "assertion failed: !pending_blocks.is_empty()" in
  Ok (mkCommitState commit pending ∅ ∅).

Definition remove_pending_transactions (cs : CommitState) (r : BlockRef) (transactions : list TransactionIndex) : CommitState :=
  match pending_transactions cs !! r with
  | None => cs
  | Some pending =>
      let rest := pending ∖ list_to_set transactions in
      mkCommitState (cst_commit cs) (pending_blocks cs)
        (if decide (rest = ∅) then delete r (pending_transactions cs) else <[r := rest]> (pending_transactions cs))
        (cst_rejected cs)
  end.

(** [m.entry(r).or_default().extend(ts)] *)
Definition extend_entry (r : BlockRef) (ts : gset TransactionIndex) (m : TransactionSets) : TransactionSets :=
  <[r := default ∅ (m !! r) ∪ ts]> m.

(** [rejected_transactions.entry(r).or_default().extend(ts)] *)
Definition reject_transactions (r : BlockRef) (ts : gset TransactionIndex) (cs : CommitState) : CommitState :=
  mkCommitState (cst_commit cs) (pending_blocks cs) (pending_transactions cs) (extend_entry r ts (cst_rejected cs)).

(** ** Blocks of the buffered commits *)

Record BlockState := mkBlockState {
  bst_block : VerifiedBlock;
  children : gset BlockRef;
  reject_votes : TransactionSets;
  origin_descendants : list BlockRef;
  bst_commit_index : CommitIndex;
}.

Definition block_state_new (b : VerifiedBlock) (i : CommitIndex) : BlockState :=
  mkBlockState b ∅
    (foldl (λ m v, <[votes_block_ref v := list_to_set (rejects v)]> m) ∅ (block_transaction_votes (vb_inner b)))
    [] i.

Definition add_child (child : BlockRef) (st : BlockState) : BlockState :=
  mkBlockState (bst_block st) ({[child]} ∪ children st) (reject_votes st) (origin_descendants st) (bst_commit_index st).

Definition push_origin_descendant (r : BlockRef) (st : BlockState) : BlockState :=
  mkBlockState (bst_block st) (children st) (reject_votes st) (origin_descendants st ++ [r]) (bst_commit_index st).

Record CommitFinalizer := mkCommitFinalizer {
  last_processed_commit : option CommitIndex;
  pending_commits : list CommitState;
  fin_blocks : gmap BlockRef BlockState;
}.

Definition commit_finalizer_new : CommitFinalizer := mkCommitFinalizer None [] ∅.

Definition set_pending_commits (l : list CommitState) (f : CommitFinalizer) : CommitFinalizer :=
  mkCommitFinalizer (last_processed_commit f) l (fin_blocks f).
Definition set_fin_blocks (m : gmap BlockRef BlockState) (f : CommitFinalizer) : CommitFinalizer :=
  mkCommitFinalizer (last_processed_commit f) (pending_commits f) m.

(** [sort_by_key(|b| b.round())], stable. *)
Definition by_round (blocks : list VerifiedBlock) : list VerifiedBlock := sort_by_key round blocks.

(** The new block under one of its ancestors, if that ancestor is buffered. *)
Definition link_ancestor (child : BlockRef) (m : gmap BlockRef BlockState) (ancestor : BlockRef) : gmap BlockRef BlockState :=
  match m !! ancestor with
  | None => m
  | Some st => <[ancestor := add_child child st]> m
  end.

Definition link_block (i : CommitIndex) (m : gmap BlockRef BlockState) (b : VerifiedBlock) : gmap BlockRef BlockState :=
  let m := foldl (link_ancestor (reference b)) m (ancestors b) in
  match m !! reference b with
  | Some _ => m
  | None => <[reference b := block_state_new b i]> m
  end.

Definition link_blocks_in_last_commit (f : CommitFinalizer) : outcome CommitFinalizer :=
  let! cs := expect (last (pending_commits f)) "No pending commit." in
  Ok (set_fin_blocks
    (foldl (link_block (cref_index (sd_commit_ref (cst_commit cs)))) (fin_blocks f) (by_round (sd_blocks (cst_commit cs)))) f).

Definition origin_ancestor (b : VerifiedBlock) : outcome BlockRef :=
  expect (head (ancestors b)) "called `Option::unwrap()` on a `None` value".

(** The walk from a block to the earlier buffered blocks of its own authority. *)
Fixpoint append_origins (fuel : nat) (committed : BlockRef) (m : gmap BlockRef BlockState) (origin : BlockRef) :
    outcome (gmap BlockRef BlockState) :=
  match fuel with
  | O => OutOfFuel
  | S fuel =>
      if negb (ref_author origin =? ref_author committed)%nat then Ok m else
      match m !! origin with
      | None => Ok m
      | Some st =>
          let! next := origin_ancestor (bst_block st) in
          append_origins fuel committed (<[origin := push_origin_descendant committed st]> m) next
      end
  end.

(** References of ancestors go down in rounds, so a walk from round [r] takes at most [r]
    steps and one more to stop. *)
Definition append_block_origins (m : gmap BlockRef BlockState) (b : VerifiedBlock) : outcome (gmap BlockRef BlockState) :=
  let! st := expect (m !! reference b) "called `Option::unwrap()` on a `None` value" in
  let! origin := origin_ancestor (bst_block st) in
  append_origins (S (N.to_nat (round b))) (reference b) m origin.

Definition append_origin_descendants_from_last_commit (f : CommitFinalizer) : outcome CommitFinalizer :=
  let! cs := expect (last (pending_commits f)) "No pending commit." in
  let! m := for_each append_block_origins (fin_blocks f) (by_round (sd_blocks (cst_commit cs))) in
  Ok (set_fin_blocks m f).

(** The blocks of a finalized commit leave the buffer. *)
Definition remove_blocks (m : gmap BlockRef BlockState) (blocks : list VerifiedBlock) : gmap BlockRef BlockState :=
  foldl (λ m b, delete (reference b) m) m blocks.

(** The commit as it leaves the finalizer. *)
Definition with_rejected (commit : CommittedSubDag) (rejected : TransactionSets) : CommittedSubDag :=
  mkCommittedSubDag (sd_leader commit) (sd_blocks commit) (sd_timestamp_ms commit) (sd_commit_ref commit)
    (decided_with_local_blocks commit) (recovered_rejected_transactions commit) (sd_reputation_scores_desc commit)
    (foldl (λ m '(r, ts), <[r := bset_iter ts]> m) (rejected_transactions_by_block commit) (btree_iter rejected)).

Definition finalizedb (cs : CommitState) : bool :=
  bool_decide (pending_blocks cs = ∅) && bool_decide (pending_transactions cs = ∅).

(** The finalized prefix of the buffered commits, and what stays. *)
Fixpoint pop_commits (commits : list CommitState) (m : gmap BlockRef BlockState) :
    list CommittedSubDag * list CommitState * gmap BlockRef BlockState :=
  match commits with
  | [] => ([], [], m)
  | cs :: rest =>
      if negb (finalizedb cs) then ([], commits, m) else
      let '(out, kept, m) := pop_commits rest (remove_blocks m (sd_blocks (cst_commit cs))) in
      (with_rejected (cst_commit cs) (cst_rejected cs) :: out, kept, m)
  end.

Definition pop_finalized_commits (f : CommitFinalizer) : CommitFinalizer * list CommittedSubDag :=
  let '(out, kept, m) := pop_commits (pending_commits f) (fin_blocks f) in
  (mkCommitFinalizer (last_processed_commit f) kept m, out).

(** ** Counting votes *)

(** How the tasks that count votes end: their results in the order in which they are
    joined, or [None] when one is cancelled because the process shuts down. *)
Abbreviation TaskJoin :=
  (list (list (BlockRef * list TransactionIndex)) → option (list (list (BlockRef * list TransactionIndex)))) (only parsing).

Section finalizer.
Context (ctx : Context).
Abbreviation c := (committee ctx).

(** Votes of one block committed with a known leader certificate: transactions with no
    reject vote are final, those with a quorum of reject votes are rejected. *)
Definition direct_vote (r : BlockRef) (cs : CommitState) (vote : TransactionIndex * Stake) : CommitState :=
  let '(i, stake) := vote in
  if stake <? quorum_threshold c then
    mkCommitState (cst_commit cs) (pending_blocks cs) (extend_entry r {[i]} (pending_transactions cs)) (cst_rejected cs)
  else reject_transactions r {[i]} cs.

Definition direct_finalize_block (cert : CertifierState) (cs : CommitState) (p : BlockRef * nat) : outcome CommitState :=
  let! votes := expect (get_reject_votes cert p.1) "No vote info found" in
  do! authority c (ref_author p.1) in
  Ok (foldl (direct_vote p.1) cs votes).

Definition try_direct_finalize_commit (cert : CertifierState) (f : CommitFinalizer) (index : nat) : outcome CommitFinalizer :=
  let! cs := expect (pending_commits f !! index) "Commit does not exist" in
  do! rassert (bool_decide (pending_blocks cs ≠ ∅)) "assertion failed: !commit_state.pending_blocks.is_empty()" in
  let! cs := for_each (direct_finalize_block cert)
    (mkCommitState (cst_commit cs) ∅ (pending_transactions cs) (cst_rejected cs)) (btree_iter (pending_blocks cs)) in
  Ok (set_pending_commits (<[index := cs]> (pending_commits f)) f).

(** The loop over the buffered commits at [process_commit]; [true] ends it. *)
Definition stops_direct (cs last_cs : CommitState) : bool :=
  negb (decided_with_local_blocks (cst_commit cs)) &&
  (ref_round (sd_leader (cst_commit last_cs)) <? u32_add (ref_round (sd_leader (cst_commit cs))) DEFAULT_WAVE_LENGTH).

Fixpoint direct_loop (cert : CertifierState) (f : CommitFinalizer) (indices : list nat) : outcome CommitFinalizer :=
  match indices with
  | [] => Ok f
  | i :: indices =>
      let! cs := vec_get (pending_commits f) i in
      if decide (pending_blocks cs = ∅) then direct_loop cert f indices else
      let! last_cs := expect (last (pending_commits f)) "called `Option::unwrap()` on a `None` value" in
      if stops_direct cs last_cs then Ok f else
      let! f := try_direct_finalize_commit cert f i in
      direct_loop cert f indices
  end.

(** The pending transactions of a block that a quorum rejects by now. *)
Definition late_rejected (cert : CertifierState) (p : BlockRef * gset TransactionIndex) :
    outcome (BlockRef * list TransactionIndex) :=
  let! votes := expect (get_reject_votes cert p.1) "No vote info found" in
  let stakes : gmap TransactionIndex Stake := list_to_map votes in
  let! rejected := filter_each (λ i,
    let! stake := expect (stakes !! i) "called `Option::unwrap()` on a `None` value" in
    Ok (negb (stake <? quorum_threshold c))) (bset_iter p.2) in
  Ok (p.1, rejected).

Definition reject_late (cs : CommitState) (p : BlockRef * list TransactionIndex) : CommitState :=
  reject_transactions p.1 (list_to_set p.2) (remove_pending_transactions cs p.1 p.2).

Definition check_pending_transactions (cert : CertifierState) (cs : CommitState) : outcome CommitState :=
  let! all := map_each (late_rejected cert) (btree_iter (pending_transactions cs)) in
  Ok (foldl reject_late cs (filter (λ p, p.2 ≠ []) all)).

(** Whether the votes of a block on the pending block may be missing because of GC. *)
Definition gced_transaction_votes_for_pending_block (gc_rounds : list (CommitIndex * Round)) (pending_round : Round)
    (pending_index current_index : CommitIndex) : outcome bool :=
  do! rassert (pending_index <=? current_index) "Pending should be <= current" in
  if pending_index =? current_index then Ok false else
  let! '(index, gc) := vec_get gc_rounds (N.to_nat (u32_sub (u32_sub current_index 1) pending_index)) in
  do! rassert (index =? u32_sub current_index 1) "Commit index mismatch" in
  Ok (pending_round <=? gc).

(** The implicit accept votes of one block: the votes still counted, and the transactions
    that reach a quorum with this one. *)
Definition count_implicit (a : AuthorityIndex) (rejected : gset TransactionIndex)
    (acc : gmap TransactionIndex StakeAggregator * list TransactionIndex) (p : TransactionIndex * StakeAggregator) :
    outcome (gmap TransactionIndex StakeAggregator * list TransactionIndex) :=
  let '(votes, newly) := acc in
  if decide (p.1 ∈ rejected) then Ok acc else
  let! '(agg, reached) := add QuorumThreshold c p.2 a in
  Ok (<[p.1 := agg]> votes, if reached then newly ++ [p.1] else newly).

Definition count_block_votes (a : AuthorityIndex) (rejected : gset TransactionIndex)
    (accept_votes : gmap TransactionIndex StakeAggregator) :
    outcome (gmap TransactionIndex StakeAggregator * list TransactionIndex) :=
  let! '(votes, newly) := for_each (count_implicit a rejected) (accept_votes, []) (btree_iter accept_votes) in
  Ok (foldl (λ m i, delete i m) votes newly, newly).

Section search.
Context (blocks : gmap BlockRef BlockState) (gc_rounds : list (CommitIndex * Round))
  (pending : BlockRef) (pending_index : CommitIndex).

(** The search from the pending block through the blocks committed after it. *)
Fixpoint count_votes (fuel : nat) (accept_votes : gmap TransactionIndex StakeAggregator)
    (finalized : list TransactionIndex) (to_visit visited ignored : gset BlockRef) : outcome (list TransactionIndex) :=
  match fuel with
  | O => OutOfFuel
  | S fuel =>
      match bset_first to_visit with
      | None => Ok finalized
      | Some curr =>
          let to_visit := to_visit ∖ {[curr]} in
          if decide (curr ∈ visited) then count_votes fuel accept_votes finalized to_visit visited ignored else
          let visited := {[curr]} ∪ visited in
          let! st := expect (blocks !! curr) "Block is either incorrectly gc'ed or failed to be recovered after crash." in
          let! votes_gced := gced_transaction_votes_for_pending_block gc_rounds (ref_round pending) pending_index (bst_commit_index st) in
          let next := to_visit ∪ filter (λ r, r ∉ visited) (children st) in
          if decide (curr ∈ ignored) then count_votes fuel accept_votes finalized next visited ignored else
          let ignored := {[curr]} ∪ ignored ∪ list_to_set (origin_descendants st) in
          if consensus_skip_gced_accept_votes (protocol_config ctx) && votes_gced then
            do! authority c (ref_author curr) in
            count_votes fuel accept_votes finalized to_visit visited ignored
          else
            let! '(accept_votes, newly) :=
              count_block_votes (ref_author curr) (default ∅ (reject_votes st !! pending)) accept_votes in
            let finalized := finalized ++ newly in
            if decide (accept_votes = ∅) then Ok finalized
            else count_votes fuel accept_votes finalized next visited ignored
      end
  end.
End search.

(** Each iteration visits a new buffered block, so their number and one iteration more to
    see the end is enough. *)
Definition try_indirect_finalize_pending_transactions_in_block (blocks : gmap BlockRef BlockState)
    (gc_rounds : list (CommitIndex * Round)) (p : BlockRef * gset TransactionIndex) : outcome (list TransactionIndex) :=
  if decide (p.2 = ∅) then Ok [] else
  let! st := expect (blocks !! p.1) "called `Option::unwrap()` on a `None` value" in
  count_votes blocks gc_rounds p.1 (bst_commit_index st) (S (size blocks))
    (set_to_map (λ i, (i, aggregator_new)) p.2) [] (children st) ∅ ∅.

Definition BLOCKS_PER_INDIRECT_COMMIT_TASK : nat := 8.

(** One task: the finalized transactions of the blocks of a chunk. *)
Definition finalize_chunk (blocks : gmap BlockRef BlockState) (gc_rounds : list (CommitIndex * Round))
    (chunk : list (BlockRef * gset TransactionIndex)) : outcome (list (BlockRef * list TransactionIndex)) :=
  let! results := map_each (λ p,
    let! finalized := try_indirect_finalize_pending_transactions_in_block blocks gc_rounds p in Ok (p.1, finalized)) chunk in
  Ok (filter (λ p, p.2 ≠ []) results).

(** ** Processing commits *)

Section dag.
Context {S : Type} `{Store S}.
Implicit Types d : DagState S.

Definition set_first_commit (cs : CommitState) (f : CommitFinalizer) : CommitFinalizer :=
  set_pending_commits (<[0%nat := cs]> (pending_commits f)) f.

Definition check_pending_transactions_in_first_commit (cert : CertifierState) (f : CommitFinalizer) : outcome CommitFinalizer :=
  let! cs := vec_get (pending_commits f) 0 in
  let! cs := check_pending_transactions cert cs in
  Ok (set_first_commit cs f).

(** The GC rounds that result from the buffered commits. *)
Definition commit_gc_rounds d (f : CommitFinalizer) : list (CommitIndex * Round) :=
  (λ cs, (cref_index (sd_commit_ref (cst_commit cs)), calculate_gc_round d (ref_round (sd_leader (cst_commit cs))))) <$>
    pending_commits f.

Definition remove_finalized (cs : CommitState) (p : BlockRef * list TransactionIndex) : CommitState :=
  remove_pending_transactions cs p.1 p.2.

Definition try_indirect_finalize_pending_transactions_in_first_commit (join : TaskJoin) d (f : CommitFinalizer) :
    outcome CommitFinalizer :=
  let! cs := vec_get (pending_commits f) 0 in
  let pending := btree_iter (pending_transactions cs) in
  let! results := map_each (finalize_chunk (fin_blocks f) (commit_gc_rounds d f))
    (chunks (length pending) BLOCKS_PER_INDIRECT_COMMIT_TASK pending) in
  match join results with
  | None => Ok f
  | Some results => Ok (set_first_commit (foldl remove_finalized cs (concat results)) f)
  end.

Definition reject_pending (cs : CommitState) : CommitState :=
  foldl (λ cs '(r, ts), reject_transactions r ts cs)
    (mkCommitState (cst_commit cs) (pending_blocks cs) ∅ (cst_rejected cs)) (btree_iter (pending_transactions cs)).

Definition try_indirect_reject_pending_transactions_in_first_commit (f : CommitFinalizer) : outcome CommitFinalizer :=
  let! cs := vec_get (pending_commits f) 0 in
  let! last_cs := expect (last (pending_commits f)) "called `Option::unwrap()` on a `None` value" in
  if u32_add (ref_round (sd_leader (cst_commit cs))) INDIRECT_REJECT_DEPTH <=? ref_round (sd_leader (cst_commit last_cs)) then
    do! rassert (bool_decide (pending_blocks cs = ∅)) "assertion failed: curr_commit_state.pending_blocks.is_empty()" in
    Ok (set_first_commit (reject_pending cs) f)
  else Ok f.

Definition try_indirect_finalize_first_commit (join : TaskJoin) (cert : CertifierState) d (f : CommitFinalizer) :
    outcome CommitFinalizer :=
  do! rassert (bool_decide (pending_commits f ≠ [])) "assertion failed: !self.pending_commits.is_empty()" in
  let! cs := vec_get (pending_commits f) 0 in
  do! rassert (bool_decide (pending_blocks cs = ∅)) "assertion failed: self.pending_commits[0].pending_blocks.is_empty()" in
  let! f := check_pending_transactions_in_first_commit cert f in
  let! f := try_indirect_finalize_pending_transactions_in_first_commit join d f in
  try_indirect_reject_pending_transactions_in_first_commit f.

(** Each iteration but the last pops a commit. *)
Fixpoint indirect_loop (fuel : nat) (join : TaskJoin) (cert : CertifierState) d (f : CommitFinalizer)
    (out : list CommittedSubDag) : outcome (CommitFinalizer * list CommittedSubDag) :=
  match fuel with
  | O => OutOfFuel
  | Datatypes.S fuel =>
      if (length (pending_commits f) <=? 1)%nat then Ok (f, out) else
      let! cs := vec_get (pending_commits f) 0 in
      if decide (pending_blocks cs ≠ ∅) then Ok (f, out) else
      let! f := try_indirect_finalize_first_commit join cert d f in
      let '(f, popped) := pop_finalized_commits f in
      match popped with
      | [] => Ok (f, out)
      | _ => indirect_loop fuel join cert d f (out ++ popped)
      end
  end.

Definition process_commit (join : TaskJoin) (cert : CertifierState) d (f : CommitFinalizer) (commit : CommittedSubDag) :
    outcome (CommitFinalizer * list CommittedSubDag) :=
  let index := cref_index (sd_commit_ref commit) in
  do! match last_processed_commit f with
      | Some i => rassert (u32_add i 1 =? index) "assertion `left == right` failed"
      | None => Ok tt
      end in
  let! cs := commit_state_new commit in
  let f := mkCommitFinalizer (Some index) (pending_commits f ++ [cs]) (fin_blocks f) in
  let! f := direct_loop cert f (seq 0 (length (pending_commits f))) in
  let '(f, finalized_commits) := pop_finalized_commits f in
  if decide (pending_commits f = []) then Ok (f, finalized_commits) else
  let! f := link_blocks_in_last_commit f in
  let! f := append_origin_descendants_from_last_commit f in
  indirect_loop (Datatypes.S (length (pending_commits f))) join cert d f finalized_commits.

(** One iteration of [run]: the commits sent to execution, after they and what they
    depend on were flushed. *)
Definition run_commit (join : TaskJoin) (cert : CertifierState) d (f : CommitFinalizer) (commit : CommittedSubDag) :
    outcome (CommitFinalizer * CertifierState * DagState S * list CommittedSubDag) :=
  let already_finalized := negb (mysticeti_fastpath (protocol_config ctx)) || recovered_rejected_transactions commit in
  let! '(f, finalized_commits) := if already_finalized then Ok (f, [commit]) else process_commit join cert d f commit in
  match last finalized_commits with
  | None => Ok (f, cert, d, [])
  | Some last_commit =>
      let! cert := run_gc d cert (calculate_gc_round d (ref_round (sd_leader last_commit))) in
      let d := if already_finalized then d
        else foldl (λ d commit, add_finalized_commit d (sd_commit_ref commit) (rejected_transactions_by_block commit)) d
               finalized_commits in
      let! d := flush d in
      Ok (f, cert, d, finalized_commits)
  end.
End dag.
End finalizer.
