(* ===== verification/FinalizerVotes.v ===== *)
(** * The votes counted by the commit finalizer

    The search of [CommitFinalizer] for implicit accept votes on a pending block ends, and
    finalizes exactly the transactions that a quorum of authors accepts, each with the
    first of its blocks that links to the pending block. *)

From S2P Require Import Prelude Collections Weighted Committee Types Fixtures Commits StakeAggregator.
From S2P Require Import ThresholdClock LeaderScoring Storage DagState DagStateSpec DagTraversal DagRecovery BaseCommitter Errors.
From S2P Require Import BlockVerifier TransactionCertifier CommitFinalizer.

Local Open Scope N_scope.

(** ** The votes on one block *)

Section votes.
Context (ctx : Context) (m : gmap BlockRef BlockState) (gc_rounds : list (CommitIndex * Round)).
Context (p : BlockRef) (gced : CommitIndex → bool).
Abbreviation c := (committee ctx).

Definition links (r r' : BlockRef) : Prop := ∃ st, m !! r = Some st ∧ r' ∈ children st.
Definition origin_of (r : BlockRef) : list BlockRef := default [] (origin_descendants <$> m !! r).
Definition rejects_of (r : BlockRef) : gset TransactionIndex := default ∅ (st ← m !! r; reject_votes st !! p).
Definition index_of (r : BlockRef) : CommitIndex := default 0 (bst_commit_index <$> m !! r).

(** The votes of a block on the pending block are known to be all there. *)
Definition counts (r : BlockRef) : bool :=
  negb (consensus_skip_gced_accept_votes (protocol_config ctx) && gced (index_of r)).

(** [r] casts the first votes of its author on the pending block, and accepts [t]. *)
Definition implicit_vote (t : TransactionIndex) (r : BlockRef) : Prop :=
  tc links p r ∧ counts r = true ∧ (∀ r', tc links p r' → r ∉ origin_of r') ∧ t ∉ rejects_of r.

Definition accept_quorum (t : TransactionIndex) : Prop :=
  ∃ A : gset AuthorityIndex, (∀ a, a ∈ A → ∃ r, ref_author r = a ∧ implicit_vote t r) ∧
    quorum_threshold c ≤ set_stake c A.

Record vote_graph : Prop := {
  vg_start : is_Some (m !! p);
  vg_child r r' : links r r' → is_Some (m !! r') ∧ ref_round r < ref_round r' ∧ index_of r ≤ index_of r';
  vg_origin r r' : r' ∈ origin_of r → ref_round r < ref_round r' ∧ index_of r ≤ index_of r';
  vg_trans r r' r'' : r' ∈ origin_of r → r'' ∈ origin_of r' → r'' ∈ origin_of r;
  vg_author r : is_Some (m !! r) → (ref_author r < committee_size c)%nat;
  vg_gc r : is_Some (m !! r) → index_of p ≤ index_of r →
    gced_transaction_votes_for_pending_block gc_rounds (ref_round p) (index_of p) (index_of r) = Ok (gced (index_of r));
  vg_mono i j : i ≤ j → gced i = true → gced j = true;
}.
Context (Hc : committee_ok c) (Hg : vote_graph).

Lemma counts_mono r r' : index_of r ≤ index_of r' → counts r' = true → counts r = true.
Proof.
  unfold counts. intros Hle Hr'. destruct (consensus_skip_gced_accept_votes _); [|done]. cbn in *.
  destruct (gced (index_of r)) eqn:E; [|done]. by rewrite (vg_mono Hg _ _ Hle E) in Hr'.
Qed.

Lemma links_index r r' : rtc links r r' → index_of r ≤ index_of r'.
Proof. induction 1 as [|r r1 r' (_ & _ & ?)%(vg_child Hg) _ IH]; lia. Qed.

Lemma links_order r r' : rtc links r r' → r = r' ∨ ref_round r < ref_round r'.
Proof. induction 1 as [|r r1 r' (_ & ? & _)%(vg_child Hg) _ [->|IH]]; [by left|right; lia..]. Qed.

Lemma descendant_known x r : tc links x r → is_Some (m !! r).
Proof. induction 1 as [x r Hl|]; [|done]. by apply (vg_child Hg) in Hl as []. Qed.

Lemma descendant_index r : tc links p r → index_of p ≤ index_of r.
Proof. intros Hr. by apply links_index, tc_rtc. Qed.

(** *** The voters among the visited blocks *)

Definition votes_in (V : gset BlockRef) (t : TransactionIndex) (r : BlockRef) : Prop :=
  counts r = true ∧ ¬ set_Exists (λ v, r ∈ origin_of v) V ∧ t ∉ rejects_of r.

Definition voters (V : gset BlockRef) (t : TransactionIndex) : gset AuthorityIndex :=
  set_map ref_author (filter (votes_in V t) V).

Lemma elem_of_vote_authors V t a : a ∈ voters V t ↔ ∃ r, a = ref_author r ∧ votes_in V t r ∧ r ∈ V.
Proof. unfold voters. rewrite elem_of_map. by setoid_rewrite elem_of_filter. Qed.

Lemma voters_empty t : voters ∅ t = ∅.
Proof. apply set_eq. intros a. rewrite elem_of_vote_authors. set_solver. Qed.

Lemma voters_visit V t r :
  (∀ v, v ∈ V → ref_round v ≤ ref_round r) → r ∉ V →
  voters ({[r]} ∪ V) t = voters V t ∪ (if decide (votes_in V t r) then {[ref_author r]} else ∅).
Proof.
  intros HV Hr. assert (Hv : ∀ v, v ∈ {[r]} ∪ V → v ∉ origin_of r).
  { intros v Hv Hin. apply (vg_origin Hg) in Hin as [Hlt _].
    apply elem_of_union in Hv as [->%elem_of_singleton|Hv]; [lia|]. specialize (HV v Hv). lia. }
  assert (Hin : ∀ v, v ∈ {[r]} ∪ V → votes_in ({[r]} ∪ V) t v ↔ votes_in V t v).
  { intros v Hvin. specialize (Hv v Hvin). unfold votes_in, set_Exists. split; intros (? & Hno & ?); split_and!; try done.
    - intros (x & Hx & Ho). apply Hno. exists x. set_solver.
    - intros (x & [->%elem_of_singleton|Hx]%elem_of_union & Ho); [done|]. apply Hno. by exists x. }
  apply set_eq. intros a. rewrite elem_of_union, !elem_of_vote_authors. split.
  - intros (v & -> & Hvote & Hvin). rewrite Hin in Hvote by done.
    apply elem_of_union in Hvin as [->%elem_of_singleton|Hvin]; [|left; by exists v].
    right. by rewrite decide_True by done; apply elem_of_singleton.
  - intros [(v & -> & Hvote & Hvin)|Ha].
    + exists v. rewrite Hin by set_solver. set_solver.
    + case_decide; [|set_solver]. apply elem_of_singleton in Ha as ->. exists r. rewrite Hin by set_solver. set_solver.
Qed.

Lemma voters_valid V t :
  (∀ v, v ∈ V → is_Some (m !! v)) → voters V t ⊆ all_authorities c.
Proof.
  intros HV a (r & -> & _ & Hr)%elem_of_vote_authors. by apply elem_of_all_authorities, (vg_author Hg), HV.
Qed.

(** *** Counting the votes of one block *)

(** Every transaction still counted has the votes [W] of it, short of a quorum. *)
Definition counted_ok (W : TransactionIndex → gset AuthorityIndex) (M : gmap TransactionIndex StakeAggregator) : Prop :=
  ∀ t agg, M !! t = Some agg → agg_ok c agg ∧ agg_votes agg = W t ∧ set_stake c (W t) < quorum_threshold c.

Lemma count_implicits a rej l : ∀ M newly,
  (a < committee_size c)%nat → NoDup l.*1 → (∀ t agg, (t, agg) ∈ l → agg_ok c agg) →
  ∃ M' more, for_each (count_implicit ctx a rej) (M, newly) l = Ok (M', newly ++ more) ∧ more ⊆ l.*1 ∧ NoDup more ∧
    (∀ t, t ∉ l.*1 → M' !! t = M !! t) ∧
    (∀ t agg, (t, agg) ∈ l → t ∈ rej → M' !! t = M !! t ∧ t ∉ more) ∧
    (∀ t agg, (t, agg) ∈ l → t ∉ rej → ∃ agg', M' !! t = Some agg' ∧ agg_ok c agg' ∧
      agg_votes agg' = {[a]} ∪ agg_votes agg ∧
      (t ∈ more ↔ quorum_threshold c ≤ set_stake c ({[a]} ∪ agg_votes agg))).
Proof.
  induction l as [|[t agg] l IH]; intros M newly Ha Hnd Hok.
  { exists M, []. rewrite app_nil_r. split_and!; [done|done|constructor|done|set_solver|set_solver]. }
  cbn in Hnd. apply NoDup_cons in Hnd as [Ht Hnd]. assert (Hl : ∀ x, (t, x) ∉ l).
  { intros x Hx. apply Ht. by apply (list_elem_of_fmap_2 fst l (t, x)). }
  cbn [for_each]. unfold count_implicit at 1. cbn [fst snd]. case_decide as Hrej.
  - cbn [obind]. destruct (IH M newly Ha Hnd) as (M' & more & -> & Hsub & Hmore & Hout & Hin & Hnew); [intros ?? ?; eapply Hok; by right|].
    cbn. exists M', more. split_and!; [done|set_solver|done|set_solver| |].
    + intros u x [[= -> ->]|Hu]%elem_of_cons Hr; [|by apply (Hin _ x)]. split; [by apply Hout|set_solver].
    + intros u x [[= -> ->]|Hu]%elem_of_cons Hr; [done|by apply Hnew].
  - destruct (add_spec QuorumThreshold c agg a Hc) as (agg' & -> & Hok' & Hvotes); [eapply Hok; by left|done|]. cbn.
    set (new := if quorum_threshold c <=? _ then _ else _).
    destruct (IH (<[t := agg']> M) new Ha Hnd) as (M' & more & -> & Hsub & Hmore & Hout & Hin & Hnew);
      [intros ?? ?; eapply Hok; by right|].
    exists M', ((if quorum_threshold c <=? set_stake c ({[a]} ∪ agg_votes agg) then [t] else []) ++ more).
    assert (Htm : t ∉ more) by set_solver.
    split_and!.
    + rewrite app_assoc. unfold new. do 3 f_equal. destruct (_ <=? _); [done|]. by rewrite app_nil_r.
    + destruct (_ <=? _); set_solver.
    + apply NoDup_app. split_and!; [destruct (_ <=? _); [apply NoDup_singleton|constructor]|destruct (_ <=? _); set_solver|done].
    + intros u Hu. rewrite Hout by set_solver. apply lookup_insert_ne. set_solver.
    + intros u x [[= -> ->]|Hu]%elem_of_cons Hr; [done|]. assert (u ≠ t) by (intros ->; by apply (Hl x)).
      destruct (Hin u x Hu Hr) as [-> ?]. split; [by apply lookup_insert_ne|destruct (_ <=? _); set_solver].
    + intros u x [[= -> ->]|Hu]%elem_of_cons Hr.
      * exists agg'. rewrite Hout, lookup_insert_eq by done. split_and!; [done..|].
        destruct (N.leb_spec (quorum_threshold c) (set_stake c ({[a]} ∪ agg_votes agg))); set_solver by lia.
      * assert (u ≠ t) by (intros ->; by apply (Hl x)). destruct (Hnew u x Hu Hr) as (y & ? & ? & ? & Hiff).
        exists y. split_and!; [done..|]. rewrite <-Hiff. destruct (_ <=? _); set_solver.
Qed.
Definition with_vote (a : AuthorityIndex) (rej : gset TransactionIndex) (W : TransactionIndex → gset AuthorityIndex)
    (t : TransactionIndex) : gset AuthorityIndex := if decide (t ∈ rej) then W t else {[a]} ∪ W t.

Lemma lookup_delete_all {A} (l : list TransactionIndex) (M : gmap TransactionIndex A) t :
  foldl (λ m i, delete i m) M l !! t = if decide (t ∈ l) then None else M !! t.
Proof.
  revert M. induction l as [|i l IH]; intros M; [done|]. cbn. rewrite IH.
  destruct (decide (t = i)) as [->|Hne].
  - rewrite lookup_delete_eq. repeat case_decide; set_solver.
  - rewrite lookup_delete_ne by done. repeat case_decide; set_solver.
Qed.

Lemma count_block_votes_spec a rej W M :
  (a < committee_size c)%nat → counted_ok W M →
  ∃ M' newly, count_block_votes ctx a rej M = Ok (M', newly) ∧ NoDup newly ∧
    (∀ t, t ∈ newly → is_Some (M !! t) ∧ quorum_threshold c ≤ set_stake c (with_vote a rej W t)) ∧
    counted_ok (with_vote a rej W) M' ∧
    (∀ t, is_Some (M' !! t) ↔ is_Some (M !! t) ∧ t ∉ newly).
Proof.
  intros Ha HM. unfold count_block_votes.
  destruct (count_implicits a rej (btree_iter M) M [] Ha (NoDup_btree_iter M)) as (M' & newly & -> & Hsub & Hnd & Hout & Hrej & Hnew).
  { intros t agg Hin%elem_of_btree_iter. by apply HM in Hin as []. }
  cbn. eexists _, newly. split; [done|]. split; [done|].
  assert (Hiter : ∀ t agg, M !! t = Some agg → (t, agg) ∈ btree_iter M) by (intros; by apply elem_of_btree_iter).
  assert (Hmem : ∀ t, t ∈ (btree_iter M).*1 ↔ is_Some (M !! t)).
  { intros t. rewrite list_elem_of_fmap. split.
    - intros ([u x] & -> & Hx%elem_of_btree_iter). by exists x.
    - intros [x Hx]. exists (t, x). by rewrite elem_of_btree_iter. }
  assert (Hlk : ∀ t, M' !! t = None ↔ M !! t = None).
  { intros t. destruct (M !! t) as [agg|] eqn:E; [|rewrite Hout by (rewrite Hmem, E; by intros [??]); by rewrite E].
    apply Hiter in E as Hi. destruct (decide (t ∈ rej)) as [Hr|Hr].
    - destruct (Hrej t agg Hi Hr) as [-> _]. by rewrite E.
    - destruct (Hnew t agg Hi Hr) as (? & -> & _). done. }
  split_and!.
  - intros t Ht. apply Hsub in Ht as Hin. rewrite Hmem in Hin. split; [done|]. destruct Hin as [agg Hagg].
    apply Hiter in Hagg as Hi. unfold with_vote. case_decide as Hr; [by apply (Hrej t agg Hi) in Hr as []|].
    destruct (Hnew t agg Hi Hr) as (_ & _ & _ & _ & [Hq _]). apply HM in Hagg as (_ & <- & _). by apply Hq.
  - intros t agg'. rewrite lookup_delete_all. case_decide as Ht; [done|]. intros Hagg'.
    destruct (M !! t) as [agg|] eqn:E; [|by apply Hlk in E; rewrite E in Hagg'].
    apply Hiter in E as Hi. destruct (HM t agg E) as (Hok & Hv & Hlt). unfold with_vote. case_decide as Hr.
    + destruct (Hrej t agg Hi Hr) as [Heq _]. rewrite Heq, E in Hagg'. by simplify_eq.
    + destruct (Hnew t agg Hi Hr) as (x & Hx & Hxok & Hxv & Hq). rewrite Hx in Hagg'. simplify_eq.
      rewrite Hxv, Hv in *. split_and!; [done..|]. apply N.nle_gt. tauto.
  - intros t. rewrite lookup_delete_all, <-!not_eq_None_Some. case_decide; [tauto|]. rewrite Hlk. tauto.
Qed.

(** *** The search *)

Record search_inv (ts : gset TransactionIndex) (M : gmap TransactionIndex StakeAggregator)
    (F : list TransactionIndex) (T V I : gset BlockRef) : Prop := {
  si_todo r : r ∈ T → tc links p r ∧ r ∉ V;
  si_visited r : r ∈ V → tc links p r;
  si_order v r : v ∈ V → r ∈ T → ord_leb v r = true;
  si_cover r : tc links p r → counts r = true → r ∈ V ∨ ∃ x, x ∈ T ∧ rtc links x r;
  si_ignored r : r ∈ I → r ∈ V ∨ ∃ v, v ∈ V ∧ r ∈ origin_of v;
  si_ignores r v : counts r = true → v ∈ V → r = v ∨ r ∈ origin_of v → r ∈ I;
  si_counted : counted_ok (voters V) M;
  si_found t : t ∈ F → t ∈ ts ∧ quorum_threshold c ≤ set_stake c (voters V t);
  si_dom t : is_Some (M !! t) ↔ t ∈ ts ∧ t ∉ F;
  si_nodup : NoDup F;
}.

(** What is visited before a block that comes first in the order. *)
Lemma visited_first ts M F T V I r r' :
  search_inv ts M F T V I → r ∈ V → tc links p r' → r ∈ origin_of r' → counts r = true → r' ∈ V.
Proof.
  intros HI Hr Hr' Ho Hcnt. apply (vg_origin Hg) in Ho as [Hlt Hidx].
  destruct (si_cover _ _ _ _ _ _ HI r' Hr') as [?|(x & Hx & Hpath)]; [by eapply counts_mono|done|].
  pose proof (ord_leb_ref_round _ _ (si_order _ _ _ _ _ _ HI r x Hr Hx)).
  apply links_order in Hpath as [->|?]; lia.
Qed.

Lemma search_sound ts M F T V I t :
  search_inv ts M F T V I → quorum_threshold c ≤ set_stake c (voters V t) → accept_quorum t.
Proof.
  intros HI Hq. exists (voters V t). split; [|done]. intros a (r & -> & (Hcnt & Hno & Hrej) & Hr)%elem_of_vote_authors.
  exists r. split; [done|]. split_and!; [by apply (si_visited _ _ _ _ _ _ HI)|done| |done].
  intros r' Hr' Ho. apply Hno. exists r'. split; [|done]. by eapply visited_first.
Qed.

Lemma search_complete ts M F V I t :
  search_inv ts M F ∅ V I → t ∈ ts → accept_quorum t → t ∈ F.
Proof.
  intros HI Ht (A & HA & Hq). destruct (decide (t ∈ F)) as [|Hn]; [done|].
  destruct (proj2 (si_dom _ _ _ _ _ _ HI t) (conj Ht Hn)) as [agg Hagg].
  apply (si_counted _ _ _ _ _ _ HI) in Hagg as (_ & _ & Hlt).
  assert (set_stake c A ≤ set_stake c (voters V t)); [|lia]. apply set_stake_mono. intros a Ha.
  destruct (HA a Ha) as (r & <- & Hd & Hcnt & Hno & Hrej). apply elem_of_vote_authors. exists r. split; [done|].
  destruct (si_cover _ _ _ _ _ _ HI r Hd Hcnt) as [Hr|(x & Hx & _)]; [|set_solver]. split; [|done].
  split_and!; [done| |done]. intros (v & Hv & Ho). by apply (Hno v); [apply (si_visited _ _ _ _ _ _ HI)|].
Qed.
Lemma counted_ext W W' M : (∀ t, W t = W' t) → counted_ok W M → counted_ok W' M.
Proof. intros HW HM t agg Hagg. rewrite <-HW. by apply HM. Qed.

Section step.
Context (ts : gset TransactionIndex) (M : gmap TransactionIndex StakeAggregator) (F : list TransactionIndex).
Context (T V I : gset BlockRef) (HI : search_inv ts M F T V I).
Context (curr : BlockRef) (st : BlockState) (Hcurr : bset_first T = Some curr) (Hst : m !! curr = Some st).

Lemma step_below v : v ∈ V → ref_round v ≤ ref_round curr.
Proof. intros Hv. apply ord_leb_ref_round, (si_order _ _ _ _ _ _ HI); [done|]. by apply bset_first_Some. Qed.

Lemma step_new : tc links p curr ∧ curr ∉ V.
Proof. apply (si_todo _ _ _ _ _ _ HI). by apply bset_first_Some. Qed.

Lemma step_origins : origin_of curr = origin_descendants st.
Proof. unfold origin_of. by rewrite Hst. Qed.

(** A visit keeps the invariant, whatever it counts. *)
Lemma search_visit M' F' X I' :
  X ⊆ filter (λ r, r ∉ {[curr]} ∪ V) (children st) →
  (counts curr = true → X = filter (λ r, r ∉ {[curr]} ∪ V) (children st)) →
  (curr ∈ I ∧ I' = I) ∨ I' = {[curr]} ∪ I ∪ list_to_set (origin_descendants st) →
  counted_ok (voters ({[curr]} ∪ V)) M' →
  (∀ t, t ∈ F' → t ∈ ts ∧ quorum_threshold c ≤ set_stake c (voters ({[curr]} ∪ V) t)) →
  (∀ t, is_Some (M' !! t) ↔ t ∈ ts ∧ t ∉ F') → NoDup F' →
  search_inv ts M' F' (T ∖ {[curr]} ∪ X) ({[curr]} ∪ V) I'.
Proof.
  intros HX HXall HI' HM' HF' Hdom Hnd. destruct step_new as [Hd HcV]. pose proof step_origins as Ho.
  assert (Hlk : ∀ r, r ∈ X → links curr r ∧ ref_round curr < ref_round r ∧ r ∉ {[curr]} ∪ V).
  { intros r Hr%HX. apply elem_of_filter in Hr as [? Hr]. assert (Hl : links curr r) by by exists st.
    split; [done|]. by apply (vg_child Hg) in Hl as (_ & ? & _). }
  assert (Hmin : ∀ r, r ∈ T → ord_leb curr r = true) by (intros; by eapply bset_first_min).
  split; [| | | | | |done..].
  - intros r [Hr|Hr]%elem_of_union.
    + destruct (si_todo _ _ _ _ _ _ HI r) as [? ?]; set_solver.
    + destruct (Hlk r Hr) as (Hl & _ & ?). split; [by eapply tc_r|done].
  - intros r [->%elem_of_singleton|Hr]%elem_of_union; [done|by apply (si_visited _ _ _ _ _ _ HI)].
  - intros v r Hv [Hr|Hr]%elem_of_union.
    + apply elem_of_union in Hv as [->%elem_of_singleton|Hv]; [apply Hmin; set_solver|].
      apply (si_order _ _ _ _ _ _ HI); set_solver.
    + apply ord_leb_round_lt. apply elem_of_union in Hv as [->%elem_of_singleton|Hv]; [by apply Hlk|].
      pose proof (step_below v Hv). destruct (Hlk r Hr) as (_ & ? & _). lia.
  - intros r Hr Hcnt. destruct (si_cover _ _ _ _ _ _ HI r Hr Hcnt) as [?|(x & Hx & Hpath)]; [set_solver|].
    destruct (decide (x = curr)) as [->|Hne]; [|right; exists x; set_solver].
    pose proof (links_index _ _ Hpath) as Hidx. inversion Hpath as [|? y ? Hl Hrest]; subst; [set_solver|].
    right. exists y. split; [|done]. apply elem_of_union_r. rewrite HXall by by eapply counts_mono.
    pose proof (vg_child Hg _ _ Hl) as (_ & Hlt & _). destruct Hl as (st' & Hst' & Hy). simplify_eq.
    apply elem_of_filter. split; [|done]. intros [->%elem_of_singleton|Hv]%elem_of_union; [lia|].
    pose proof (step_below y Hv). lia.
  - intros r Hr. assert (r ∈ I ∨ r = curr ∨ r ∈ origin_of curr) as [Hi|[->|Hi]].
    { destruct HI' as [[_ ->]| ->]; [by left|]. rewrite Ho. set_solver. }
    + destruct (si_ignored _ _ _ _ _ _ HI r Hi) as [|(v & ? & ?)]; [set_solver|]. right. exists v. set_solver.
    + set_solver.
    + right. exists curr. set_solver.
  - intros r v Hcnt Hv Hrv. apply elem_of_union in Hv as [->%elem_of_singleton|Hv].
    + destruct HI' as [[Hc' ->]| ->]; [|rewrite <-Ho; set_solver]. destruct Hrv as [->|Hrv]; [done|].
      destruct (si_ignored _ _ _ _ _ _ HI curr Hc') as [|(v & Hv & Hvc)]; [done|].
      apply (si_ignores _ _ _ _ _ _ HI r v Hcnt Hv). right. by eapply vg_trans.
    + assert (r ∈ I) by by eapply si_ignores. destruct HI' as [[_ ->]| ->]; set_solver.
Qed.

(** Visiting a block whose votes do not count changes no vote. *)
Lemma voters_ignored t : (curr ∈ I ∨ counts curr = false) → voters ({[curr]} ∪ V) t = voters V t.
Proof.
  intros Hign. destruct step_new as [_ HcV]. rewrite voters_visit by (done || apply step_below).
  rewrite decide_False; [set_solver|]. intros (Hcnt & Hno & _). destruct Hign as [Hi|Hi]; [|congruence].
  destruct (si_ignored _ _ _ _ _ _ HI curr Hi) as [|(v & ? & ?)]; [done|]. apply Hno. by exists v.
Qed.

Lemma voters_counted t :
  curr ∉ I → counts curr = true →
  voters ({[curr]} ∪ V) t = with_vote (ref_author curr) (default ∅ (reject_votes st !! p)) (voters V) t.
Proof.
  intros Hign Hcnt. destruct step_new as [_ HcV]. rewrite voters_visit by (done || apply step_below).
  assert (Hrej : rejects_of curr = default ∅ (reject_votes st !! p)) by (unfold rejects_of; by rewrite Hst).
  unfold with_vote. rewrite <-Hrej. case_decide as Hv; case_decide as Hr.
  - by destruct Hv as (_ & _ & ?).
  - set_solver.
  - set_solver.
  - destruct Hv. split_and!; [done| |done]. intros (v & Hv & Ho). apply Hign. by apply (si_ignores _ _ _ _ _ _ HI curr v); auto.
Qed.
End step.
Lemma search_same ts M F T V I curr st :
  search_inv ts M F T V I → bset_first T = Some curr → m !! curr = Some st → (curr ∈ I ∨ counts curr = false) →
  counted_ok (voters ({[curr]} ∪ V)) M ∧
  (∀ t, t ∈ F → t ∈ ts ∧ quorum_threshold c ≤ set_stake c (voters ({[curr]} ∪ V) t)).
Proof.
  intros HI Hcurr Hst Hign. split.
  - eapply counted_ext; [|by apply (si_counted _ _ _ _ _ _ HI)]. intros t. symmetry. exact (voters_ignored _ _ _ _ _ _ HI _ _ Hcurr Hst t Hign).
  - intros t Ht. rewrite (voters_ignored _ _ _ _ _ _ HI _ _ Hcurr Hst t Hign). by apply (si_found _ _ _ _ _ _ HI).
Qed.

(** The part of the visit that counts votes. *)
Lemma search_count ts M F T V I curr st :
  search_inv ts M F T V I → bset_first T = Some curr → m !! curr = Some st → curr ∉ I → counts curr = true →
  ∃ M' newly, count_block_votes ctx (ref_author curr) (default ∅ (reject_votes st !! p)) M = Ok (M', newly) ∧
    search_inv ts M' (F ++ newly) (T ∖ {[curr]} ∪ filter (λ r, r ∉ {[curr]} ∪ V) (children st)) ({[curr]} ∪ V)
      ({[curr]} ∪ I ∪ list_to_set (origin_descendants st)).
Proof.
  intros HI Hcurr Hst Hign Hcnt.
  assert (Hext : ∀ t, with_vote (ref_author curr) (default ∅ (reject_votes st !! p)) (voters V) t = voters ({[curr]} ∪ V) t).
  { intros t. symmetry. by eapply voters_counted. }
  destruct (count_block_votes_spec (ref_author curr) (default ∅ (reject_votes st !! p)) (voters V) M)
    as (M' & newly & Hrun & Hnd & Hnew & HM' & Hdom); [apply (vg_author Hg); by eexists|apply HI|].
  exists M', newly. split; [done|]. assert (HF : ∀ t, t ∈ newly → t ∈ ts ∧ t ∉ F).
  { intros t [Ht _]%Hnew. by apply (si_dom _ _ _ _ _ _ HI) in Ht. }
  eapply search_visit; [done..|by right|exact (counted_ext _ _ _ Hext HM')| | |].
  - intros t [Ht|Ht]%elem_of_app.
    + destruct (si_found _ _ _ _ _ _ HI t Ht) as [? Hq]. split; [done|]. etrans; [exact Hq|].
      apply set_stake_mono. rewrite <-Hext. unfold with_vote. case_decide; set_solver.
    + split; [by apply HF|]. rewrite <-Hext. by apply Hnew.
  - intros t. rewrite Hdom, (si_dom _ _ _ _ _ _ HI), elem_of_app. tauto.
  - apply NoDup_app. split_and!; [apply HI|set_solver|done].
Qed.

Lemma search_votes_spec ts fuel : ∀ M F T V I,
  search_inv ts M F T V I → (size (dom m ∖ V) < fuel)%nat →
  ∃ F', count_votes ctx m gc_rounds p (index_of p) fuel M F T V I = Ok F' ∧ NoDup F' ∧
    ∀ t, t ∈ F' ↔ t ∈ ts ∧ accept_quorum t.
Proof.
  induction fuel as [|fuel IH]; intros M F T V I HI Hfuel; [lia|]. cbn [count_votes].
  destruct (bset_first T) as [curr|] eqn:Hcurr.
  2:{ apply bset_first_None in Hcurr as ->. exists F. split_and!; [done|apply HI|]. intros t. split.
      - intros Ht. destruct (si_found _ _ _ _ _ _ HI t Ht) as [? ?]. split; [done|]. by eapply search_sound.
      - intros [? ?]. by eapply search_complete. }
  destruct (step_new ts M F T V I HI curr Hcurr) as [Hd HcV]. rewrite decide_False by done.
  destruct (descendant_known _ _ Hd) as [st Hst]. rewrite Hst. cbn [expect obind].
  assert (Hidx : bst_commit_index st = index_of curr) by (unfold index_of; by rewrite Hst). rewrite Hidx.
  rewrite (vg_gc Hg curr) by (by eexists || by apply descendant_index). cbn [obind].
  assert (Hsize : (size (dom m ∖ ({[curr]} ∪ V)) < fuel)%nat).
  { assert (size (dom m ∖ ({[curr]} ∪ V)) < size (dom m ∖ V))%nat; [|lia]. apply subset_size.
    apply elem_of_dom_2 in Hst. set_solver. }
  case_decide as Hign.
  { destruct (search_same ts M F T V I curr st HI Hcurr Hst (or_introl Hign)) as [HM' HF']. apply IH; [|done].
    eapply search_visit; [done..|by left|done|done|apply HI|apply HI]. }
  destruct (consensus_skip_gced_accept_votes _ && gced (index_of curr)) eqn:Hskip.
  - assert (Hcnt : counts curr = false) by (unfold counts; by rewrite Hskip).
    destruct (lookup_lt_is_Some_2 (authorities c) (ref_author curr)) as [au Hau]; [apply (vg_author Hg); by eexists|].
    unfold authority, vec_get. rewrite Hau. cbn [expect obind].
    destruct (search_same ts M F T V I curr st HI Hcurr Hst (or_intror Hcnt)) as [HM' HF']. apply IH; [|done].
    replace (T ∖ {[curr]}) with (T ∖ {[curr]} ∪ ∅ : gset BlockRef) by set_solver.
    eapply search_visit; [done..|set_solver|congruence|by right|done|done|apply HI|apply HI].
  - assert (Hcnt : counts curr = true) by (unfold counts; by rewrite Hskip).
    destruct (search_count ts M F T V I curr st) as (M' & newly & -> & HI'); [done..|]. cbn [obind].
    case_decide as Hend; [|by apply IH]. subst M'. exists (F ++ newly). split_and!; [done|apply HI'|].
    intros t. split.
    + intros Ht. destruct (si_found _ _ _ _ _ _ HI' t Ht) as [? ?]. split; [done|]. by eapply search_sound.
    + intros [Ht _]. destruct (decide (t ∈ F ++ newly)); [done|].
      destruct (proj2 (si_dom _ _ _ _ _ _ HI' t)) as [? []%lookup_empty_Some]; done.
Qed.

Lemma indirect_votes_spec ts :
  ∃ F, try_indirect_finalize_pending_transactions_in_block ctx m gc_rounds (p, ts) = Ok F ∧ NoDup F ∧
    ∀ t, t ∈ F ↔ t ∈ ts ∧ accept_quorum t.
Proof.
  unfold try_indirect_finalize_pending_transactions_in_block. cbn [fst snd]. case_decide as Hts.
  { exists []. split_and!; [done|constructor|set_solver]. }
  destruct (vg_start Hg) as [st Hst]. rewrite Hst. cbn [expect obind].
  assert (Hidx : bst_commit_index st = index_of p) by (unfold index_of; by rewrite Hst). rewrite Hidx.
  assert (Hlk : ∀ r, links p r ↔ r ∈ children st) by (intros r; unfold links; rewrite Hst; naive_solver).
  apply search_votes_spec; [|rewrite difference_empty_L, size_dom; lia].
  split; [| |set_solver| |set_solver|set_solver| |set_solver| |constructor].
  - intros r Hr. split; [|set_solver]. by apply tc_once, Hlk.
  - set_solver.
  - intros r Hr _. right. inversion Hr as [? ? Hl|? y ? Hl Hrest]; subst.
    + exists r. split; [by apply Hlk|done].
    + exists y. split; [by apply Hlk|by apply tc_rtc].
  - intros t agg (i & Hi & [= <- <-])%lookup_set_to_map; [|done]. split; [apply agg_ok_new|].
    rewrite voters_empty, set_stake_empty. split; [done|]. by apply quorum_pos.
  - intros t. unfold is_Some. setoid_rewrite lookup_set_to_map; [|done]. set_solver.
Qed.
End votes.
