(* ===== verification/FinalizerGraph.v ===== *)
(** * The blocks buffered by the commit finalizer

    The map of buffered blocks mirrors the links between the committed blocks it holds:
    children are the blocks that link to a block, origin descendants the later blocks of its
    author's own chain.  Linking a commit and removing a finalized one keep it so. *)

From S2P Require Import Prelude Collections Weighted Committee Types Fixtures Commits StakeAggregator.
From S2P Require Import ThresholdClock LeaderScoring Storage DagState DagStateSpec DagTraversal DagRecovery BaseCommitter Errors.
From S2P Require Import BlockVerifier TransactionCertifier CommitFinalizer FinalizerVotes.

Local Open Scope N_scope.

(** What the verification of blocks ensures. *)
Record committed_block_ok (c : Committee) (b : VerifiedBlock) : Prop := {
  cbo_author : (author b < committee_size c)%nat;
  cbo_ancestors : ancestors b ≠ [];
  cbo_rounds a : a ∈ ancestors b → ref_round a < round b;
}.

(** [r'] is the next block after [r] in the chain of its author, among the buffered blocks. *)
Definition own_parent (m : gmap BlockRef BlockState) (r' r : BlockRef) : Prop :=
  is_Some (m !! r) ∧ ref_author r = ref_author r' ∧
  ∃ st', m !! r' = Some st' ∧ head (ancestors (bst_block st')) = Some r.

Record graph_ok (c : Committee) (m : gmap BlockRef BlockState) : Prop := {
  go_block r st : m !! r = Some st → reference (bst_block st) = r ∧ committed_block_ok c (bst_block st);
  go_rejects r st : m !! r = Some st → reject_votes st = reject_votes (block_state_new (bst_block st) 0);
  go_children r st r' : m !! r = Some st →
    r' ∈ children st ↔ ∃ st', m !! r' = Some st' ∧ r ∈ ancestors (bst_block st');
  go_causal r st r' st' : m !! r = Some st → m !! r' = Some st' → r ∈ ancestors (bst_block st') →
    bst_commit_index st ≤ bst_commit_index st';
}.

(** The origin descendants of the blocks of [D] are recorded. *)
Definition origins_ok (D : BlockRef → Prop) (m : gmap BlockRef BlockState) : Prop :=
  ∀ r st r', m !! r = Some st → r' ∈ origin_descendants st ↔ D r' ∧ tc (own_parent m) r' r.

(** Maps that differ at most in the recorded origin descendants. *)
Definition same_state (st st' : BlockState) : Prop :=
  bst_block st = bst_block st' ∧ children st = children st' ∧ reject_votes st = reject_votes st' ∧
  bst_commit_index st = bst_commit_index st'.
Definition same_graph (m m' : gmap BlockRef BlockState) : Prop := ∀ r, option_Forall2 same_state (m !! r) (m' !! r).

Lemma same_graph_refl m : same_graph m m.
Proof. intros r. destruct (m !! r); constructor. done. Qed.

Lemma same_graph_trans m1 m2 m3 : same_graph m1 m2 → same_graph m2 m3 → same_graph m1 m3.
Proof.
  intros H1 H2 r. specialize (H1 r). specialize (H2 r). destruct H1 as [x y H1|]; inversion H2 as [? z H3|]; subst; [|constructor].
  constructor. destruct H1 as (? & ? & ? & ?), H3 as (? & ? & ? & ?). unfold same_state. split_and!; congruence.
Qed.

Lemma same_graph_sym m1 m2 : same_graph m1 m2 → same_graph m2 m1.
Proof.
  intros H1 r. specialize (H1 r). destruct H1 as [x y H1|]; constructor. destruct H1 as (? & ? & ? & ?).
  unfold same_state. split_and!; congruence.
Qed.

Lemma same_graph_lookup m m' r st : same_graph m m' → m !! r = Some st → ∃ st', m' !! r = Some st' ∧ same_state st st'.
Proof. intros Hs Hr. specialize (Hs r). rewrite Hr in Hs. inversion Hs. eauto. Qed.

Lemma same_graph_parent m m' r' r : same_graph m m' → own_parent m r' r → own_parent m' r' r.
Proof.
  intros Hs ([st Hr] & Ha & st' & Hr' & Hh). destruct (same_graph_lookup _ _ _ _ Hs Hr) as (y & ? & _).
  destruct (same_graph_lookup _ _ _ _ Hs Hr') as (x & ? & Hb & _). split_and!; [by eexists|done|]. exists x. by rewrite <-Hb.
Qed.

Lemma same_graph_chain m m' r' r : same_graph m m' → tc (own_parent m) r' r ↔ tc (own_parent m') r' r.
Proof.
  intros Hs. split; intros Ht; (eapply tc_congruence with (f := id); [|exact Ht]); intros x y;
    apply same_graph_parent; [done|by apply same_graph_sym].
Qed.

Lemma graph_ok_same c m m' : same_graph m m' → graph_ok c m → graph_ok c m'.
Proof.
  intros Hs Hm. apply same_graph_sym in Hs as Hs'. split.
  - intros r st Hr. destruct (same_graph_lookup _ _ _ _ Hs' Hr) as (x & Hx & -> & _). by apply (go_block c m Hm).
  - intros r st Hr. destruct (same_graph_lookup _ _ _ _ Hs' Hr) as (x & Hx & -> & _ & -> & _). by apply (go_rejects c m Hm r).
  - intros r st r' Hr. destruct (same_graph_lookup _ _ _ _ Hs' Hr) as (x & Hx & _ & -> & _).
    rewrite (go_children c m Hm r x r' Hx). split; intros (y & Hy & Hin).
    + destruct (same_graph_lookup _ _ _ _ Hs Hy) as (z & Hz & Hb & _). exists z. by rewrite <-Hb.
    + destruct (same_graph_lookup _ _ _ _ Hs' Hy) as (z & Hz & Hb & _). exists z. by rewrite <-Hb.
  - intros r st r' st' Hr Hr'. destruct (same_graph_lookup _ _ _ _ Hs' Hr) as (x & Hx & _ & _ & _ & ->).
    destruct (same_graph_lookup _ _ _ _ Hs' Hr') as (y & Hy & -> & _ & _ & ->). by apply (go_causal c m Hm r x r' y).
Qed.

(** *** Chains of one author *)

Section chains.
Context (c : Committee) (m : gmap BlockRef BlockState) (Hm : graph_ok c m).

Lemma own_parent_facts r' r st' st :
  own_parent m r' r → m !! r' = Some st' → m !! r = Some st →
  ref_round r < ref_round r' ∧ bst_commit_index st ≤ bst_commit_index st'.
Proof.
  intros (_ & _ & x & Hx & Hh) Hr' Hr. rewrite Hr' in Hx. injection Hx as <-. apply head_Some_elem_of in Hh.
  destruct (go_block c m Hm _ _ Hr') as [<- Hok]. split; [by apply (cbo_rounds c _ Hok)|]. by eapply go_causal.
Qed.

Lemma own_chain_facts r' r :
  tc (own_parent m) r' r → ∃ st' st, m !! r' = Some st' ∧ m !! r = Some st ∧ ref_author r = ref_author r' ∧
    ref_round r < ref_round r' ∧ bst_commit_index st ≤ bst_commit_index st'.
Proof.
  induction 1 as [r' r Hp|r' x r Hp _ (stx & st & Hx & Hr & Ha & Hlt & Hidx)].
  - pose proof Hp as ([st Hr] & Ha & st' & Hr' & _). exists st', st. pose proof (own_parent_facts _ _ _ _ Hp Hr' Hr). naive_solver.
  - pose proof Hp as (_ & Ha' & st' & Hr' & _). exists st', st. pose proof (own_parent_facts _ _ _ _ Hp Hr' Hx) as [??].
    split_and!; [done|done|congruence|lia|lia].
Qed.
End chains.

(** *** Appending origin descendants *)

Definition reach_own (m : gmap BlockRef BlockState) (a : AuthorityIndex) (o r : BlockRef) : Prop :=
  ref_author o = a ∧ is_Some (m !! o) ∧ rtc (own_parent m) o r.

Lemma same_graph_reach m m' a o r : same_graph m m' → reach_own m a o r → reach_own m' a o r.
Proof.
  intros Hs (Ha & [st Ho] & Hr). destruct (same_graph_lookup _ _ _ _ Hs Ho) as (? & ? & _).
  split_and!; [done|by eexists|]. eapply rtc_congruence with (f := id); [|exact Hr]. intros ??. by apply same_graph_parent.
Qed.

Lemma reach_own_step m a o st next r :
  ref_author o = a → m !! o = Some st → head (ancestors (bst_block st)) = Some next →
  reach_own m a o r ↔ r = o ∨ reach_own m a next r.
Proof.
  intros Ha Ho Hh. split.
  - intros (_ & _ & Hr). inversion Hr as [|? y ? Hp Hrest]; subst; [by left|]. right.
    destruct Hp as (Hy & Hay & x & Hx & Hhx). rewrite Ho in Hx. injection Hx as <-. rewrite Hh in Hhx. injection Hhx as <-. done.
  - intros [->|(Ha' & Hn & Hr)]; (split_and!; [done|by eexists|]); [done|].
    eapply rtc_l; [|exact Hr]. split_and!; [done|congruence|by exists st].
Qed.

Lemma origin_ancestor_spec c b : committed_block_ok c b → ∃ o, head (ancestors b) = Some o ∧ origin_ancestor b = Ok o ∧ ref_round o < round b.
Proof.
  intros Hb. pose proof (cbo_ancestors c b Hb). unfold origin_ancestor. destruct (ancestors b) as [|o l] eqn:E; [done|].
  exists o. cbn. split_and!; [done..|]. apply (cbo_rounds c b Hb). rewrite E. by left.
Qed.

Lemma append_origins_spec c committed fuel : ∀ m origin,
  graph_ok c m → (N.to_nat (ref_round origin) < fuel)%nat →
  ∃ m', append_origins fuel committed m origin = Ok m' ∧ same_graph m m' ∧
    ∀ r st st', m !! r = Some st → m' !! r = Some st' → ∀ x,
      x ∈ origin_descendants st' ↔
      x ∈ origin_descendants st ∨ (x = committed ∧ reach_own m (ref_author committed) origin r).
Proof.
  induction fuel as [|fuel IH]; intros m origin Hm Hfuel; [lia|]. cbn [append_origins].
  destruct (Nat.eqb_spec (ref_author origin) (ref_author committed)) as [Ha|Ha]; cbn [negb].
  2:{ exists m. split_and!; [done|apply same_graph_refl|]. intros r st st' Hr Hr' x. rewrite Hr in Hr'. injection Hr' as <-.
      unfold reach_own. tauto. }
  destruct (m !! origin) as [st|] eqn:Ho.
  2:{ exists m. split_and!; [done|apply same_graph_refl|]. intros r st st' Hr Hr' x. rewrite Hr in Hr'. injection Hr' as <-.
      unfold reach_own. rewrite Ho. split; [tauto|]. intros [?|(_ & _ & [? ?] & _)]; done. }
  destruct (go_block c m Hm _ _ Ho) as [Href Hok]. destruct (origin_ancestor_spec c _ Hok) as (next & Hh & -> & Hlt). cbn [obind].
  assert (Hs : same_graph m (<[origin := push_origin_descendant committed st]> m)).
  { intros r. destruct (decide (r = origin)) as [->|Hne].
    - rewrite Ho, lookup_insert_eq. by constructor.
    - rewrite lookup_insert_ne by done. apply same_graph_refl. }
  assert (Hround : ref_round origin = round (bst_block st)) by by rewrite <-Href.
  destruct (IH _ next (graph_ok_same _ _ _ Hs Hm)) as (m' & Hrun & Hs' & Hod); [lia|].
  exists m'. split_and!; [done|by eapply same_graph_trans|]. intros r str st' Hr Hr' x.
  assert (Hreach : reach_own (<[origin := push_origin_descendant committed st]> m) (ref_author committed) next r ↔
    reach_own m (ref_author committed) next r).
  { split; apply same_graph_reach; [by apply same_graph_sym|done]. }
  rewrite (reach_own_step m (ref_author committed) origin st next r Ha Ho Hh).
  destruct (decide (r = origin)) as [->|Hne].
  - rewrite Ho in Hr. injection Hr as <-. rewrite (Hod origin _ st' (lookup_insert_eq _ _ _) Hr' x), Hreach. cbn.
    rewrite elem_of_app, list_elem_of_singleton. tauto.
  - rewrite (Hod r str st'), Hreach by (done || by rewrite lookup_insert_ne). tauto.
Qed.

Lemma append_block_origins_spec c m b st D :
  graph_ok c m → origins_ok D m → m !! reference b = Some st → bst_block st = b →
  ∃ m', append_block_origins m b = Ok m' ∧ same_graph m m' ∧ origins_ok (λ x, D x ∨ x = reference b) m'.
Proof.
  intros Hm HD Hb Hst. unfold append_block_origins. rewrite Hb. cbn [expect obind]. rewrite Hst.
  destruct (go_block c m Hm _ _ Hb) as [_ Hok]. rewrite Hst in Hok.
  destruct (origin_ancestor_spec c _ Hok) as (o & Hh & -> & Hlt). cbn [obind].
  destruct (append_origins_spec c (reference b) (S (N.to_nat (round b))) m o Hm) as (m' & -> & Hs & Hod); [lia|].
  exists m'. split_and!; [done..|]. intros r st' x Hr'.
  destruct (same_graph_lookup m' m r st' (same_graph_sym _ _ Hs) Hr') as (str & Hr & _).
  rewrite (Hod r str st' Hr Hr' x), (HD r str x Hr), <-(same_graph_chain m m' x r Hs).
  assert (Hchain : reach_own m (ref_author (reference b)) o r ↔ tc (own_parent m) (reference b) r).
  { split.
    - intros (Ha & Ho & Hr0). eapply tc_rtc_r; [|exact Hr0]. apply tc_once. split_and!; [done..|]. exists st. by rewrite Hst.
    - intros Ht. assert (∃ y, own_parent m (reference b) y ∧ rtc (own_parent m) y r) as (y & Hp & Hrest).
      { inversion Ht as [? ? Hp|? y ? Hp Hrest]; subst; [by exists r|]. exists y. split; [done|by apply tc_rtc]. }
      destruct Hp as (Hy & Ha & x' & Hx' & Hhx). rewrite Hb in Hx'. injection Hx' as <-. rewrite Hst, Hh in Hhx. by injection Hhx as <-. }
  rewrite Hchain. split; [|naive_solver]. intros [[? ?]|[-> ?]]; split; auto.
Qed.

Lemma append_all_origins c bs : ∀ m D,
  graph_ok c m → origins_ok D m → (∀ b, b ∈ bs → ∃ st, m !! reference b = Some st ∧ bst_block st = b) →
  ∃ m', for_each append_block_origins m bs = Ok m' ∧ same_graph m m' ∧
    origins_ok (λ x, D x ∨ x ∈ reference <$> bs) m'.
Proof.
  induction bs as [|b bs IH]; intros m D Hm HD Hbs; cbn [for_each].
  { exists m. split_and!; [done|apply same_graph_refl|]. intros r st x Hr. rewrite (HD r st x Hr). set_solver. }
  destruct (Hbs b) as (st & Hb & Hst); [by left|].
  destruct (append_block_origins_spec c m b st D Hm HD Hb Hst) as (m1 & -> & Hs1 & HD1). cbn [obind].
  destruct (IH m1 _ (graph_ok_same _ _ _ Hs1 Hm) HD1) as (m2 & -> & Hs2 & HD2).
  { intros b' Hb'. destruct (Hbs b') as (st' & Hl & <-); [by right|].
    destruct (same_graph_lookup _ _ _ _ Hs1 Hl) as (st1 & ? & Heq & _). by exists st1. }
  exists m2. split_and!; [done|by eapply same_graph_trans|]. intros r str x Hr. rewrite (HD2 r str x Hr). cbn. set_solver.
Qed.

(** *** Linking the blocks of a commit *)

(** [m'] is [m] with [child] under each of [refs]. *)
Definition linked_under (child : BlockRef) (refs : list BlockRef) (m m' : gmap BlockRef BlockState) : Prop :=
  ∀ r, option_Forall2 (λ st st', bst_block st' = bst_block st ∧ reject_votes st' = reject_votes st ∧
    origin_descendants st' = origin_descendants st ∧ bst_commit_index st' = bst_commit_index st ∧
    ∀ x, x ∈ children st' ↔ x ∈ children st ∨ (x = child ∧ r ∈ refs)) (m !! r) (m' !! r).

Lemma linked_under_app child l1 l2 m1 m2 m3 :
  linked_under child l1 m1 m2 → linked_under child l2 m2 m3 → linked_under child (l1 ++ l2) m1 m3.
Proof.
  intros H1 H2 r. specialize (H1 r). specialize (H2 r). destruct H1 as [x y (? & ? & ? & ? & Hxy)|];
    inversion H2 as [? z (? & ? & ? & ? & Hyz)|]; subst; constructor.
  split_and!; [congruence..|]. intros u. rewrite Hyz, Hxy, elem_of_app. tauto.
Qed.

Lemma link_ancestor_spec child m a : linked_under child [a] m (link_ancestor child m a).
Proof.
  intros r. unfold link_ancestor. destruct (m !! a) as [sta|] eqn:Ha.
  - destruct (decide (r = a)) as [->|Hne].
    + rewrite lookup_insert_eq, Ha. constructor. cbn. split_and!; [done..|]. set_solver.
    + rewrite lookup_insert_ne by done. destruct (m !! r); constructor. split_and!; [done..|]. set_solver.
  - destruct (m !! r) eqn:E; constructor. assert (r ≠ a) by congruence. split_and!; [done..|]. set_solver.
Qed.

Lemma link_ancestors_spec child refs : ∀ m, linked_under child refs m (foldl (link_ancestor child) m refs).
Proof.
  induction refs as [|a refs IH]; intros m; cbn [foldl].
  { intros r. destruct (m !! r); constructor. split_and!; [done..|]. set_solver. }
  apply (linked_under_app child [a] refs _ (link_ancestor child m a)); [apply link_ancestor_spec|apply IH].
Qed.

Lemma linked_under_lookup child refs m m' r st :
  linked_under child refs m m' → m !! r = Some st → ∃ st', m' !! r = Some st' ∧ bst_block st' = bst_block st ∧
    reject_votes st' = reject_votes st ∧ origin_descendants st' = origin_descendants st ∧
    bst_commit_index st' = bst_commit_index st ∧ ∀ x, x ∈ children st' ↔ x ∈ children st ∨ (x = child ∧ r ∈ refs).
Proof. intros Hl Hr. specialize (Hl r). rewrite Hr in Hl. inversion Hl. eauto. Qed.

Lemma linked_under_back child refs m m' r st' :
  linked_under child refs m m' → m' !! r = Some st' → ∃ st, m !! r = Some st ∧ bst_block st' = bst_block st ∧
    reject_votes st' = reject_votes st ∧ origin_descendants st' = origin_descendants st ∧
    bst_commit_index st' = bst_commit_index st ∧ ∀ x, x ∈ children st' ↔ x ∈ children st ∨ (x = child ∧ r ∈ refs).
Proof. intros Hl Hr. specialize (Hl r). rewrite Hr in Hl. inversion Hl. eauto. Qed.

Lemma link_block_lookup i m b :
  m !! reference b = None →
  ∃ m1, linked_under (reference b) (ancestors b) m m1 ∧ m1 !! reference b = None ∧
    link_block i m b = <[reference b := block_state_new b i]> m1.
Proof.
  intros Hnew. unfold link_block. pose proof (link_ancestors_spec (reference b) (ancestors b) m) as Hl.
  exists (foldl (link_ancestor (reference b)) m (ancestors b)). split; [done|].
  assert (Hn : foldl (link_ancestor (reference b)) m (ancestors b) !! reference b = None).
  { specialize (Hl (reference b)). rewrite Hnew in Hl. by inversion Hl. }
  by rewrite Hn.
Qed.

(** A block can be linked when it is new and no buffered block links to it. *)
Record linkable (c : Committee) (i : CommitIndex) (m : gmap BlockRef BlockState) (b : VerifiedBlock) : Prop := {
  lk_new : m !! reference b = None;
  lk_ok : committed_block_ok c b;
  lk_first r st : m !! r = Some st → reference b ∉ ancestors (bst_block st);
  lk_index r st : m !! r = Some st → bst_commit_index st ≤ i;
}.

(** The blocks and commits known after linking, and the origin descendants. *)
Definition extends (bs : list VerifiedBlock) (i : CommitIndex) (m m' : gmap BlockRef BlockState) : Prop :=
  (∀ r st, m !! r = Some st → ∃ st', m' !! r = Some st' ∧ bst_block st' = bst_block st ∧
    bst_commit_index st' = bst_commit_index st ∧ origin_descendants st' = origin_descendants st) ∧
  (∀ r st', m' !! r = Some st' → is_Some (m !! r) ∨
    ∃ b, b ∈ bs ∧ reference b = r ∧ bst_block st' = b ∧ bst_commit_index st' = i ∧ origin_descendants st' = []) ∧
  (∀ b, b ∈ bs → is_Some (m' !! reference b)).

Lemma link_block_ok c i m b :
  graph_ok c m → linkable c i m b → graph_ok c (link_block i m b) ∧ extends [b] i m (link_block i m b).
Proof.
  intros Hm [Hnew Hok Hfirst Hidx]. destruct (link_block_lookup i m b Hnew) as (m1 & Hl & Hn & ->).
  assert (Hself : reference b ∉ ancestors b) by (intros Hin%(cbo_rounds c b Hok); unfold reference in Hin; cbn in Hin; lia).
  assert (Hcase : ∀ r st, <[reference b := block_state_new b i]> m1 !! r = Some st →
    (r = reference b ∧ st = block_state_new b i) ∨
    ∃ st0, r ≠ reference b ∧ m !! r = Some st0 ∧ bst_block st = bst_block st0 ∧ reject_votes st = reject_votes st0 ∧
      origin_descendants st = origin_descendants st0 ∧ bst_commit_index st = bst_commit_index st0 ∧
      ∀ x, x ∈ children st ↔ x ∈ children st0 ∨ (x = reference b ∧ r ∈ ancestors b)).
  { intros r st Hr. destruct (decide (r = reference b)) as [->|Hne].
    - rewrite lookup_insert_eq in Hr. injection Hr as <-. by left.
    - rewrite lookup_insert_ne in Hr by done. right.
      destruct (linked_under_back _ _ _ _ _ _ Hl Hr) as (st0 & H0 & Hrest). by exists st0. }
  assert (Hold : ∀ r st, m !! r = Some st → ∃ st', <[reference b := block_state_new b i]> m1 !! r = Some st' ∧
    bst_block st' = bst_block st ∧ bst_commit_index st' = bst_commit_index st ∧ origin_descendants st' = origin_descendants st).
  { intros r st Hr. assert (r ≠ reference b) by congruence. rewrite lookup_insert_ne by done.
    destruct (linked_under_lookup _ _ _ _ _ _ Hl Hr) as (st' & ? & ? & ? & ? & ? & _). eauto 6. }
  split; [split|].
  - intros r st [[-> ->]|(st0 & _ & H0 & -> & _)]%Hcase; [done|]. by apply (go_block c m Hm).
  - intros r st [[-> ->]|(st0 & _ & H0 & -> & -> & _)]%Hcase; [done|]. by apply (go_rejects c m Hm r).
  - intros r st r' [[-> ->]|(st0 & Hne & H0 & _ & _ & _ & _ & Hch)]%Hcase.
    + split; [intros Hx; by apply elem_of_empty in Hx|]. intros (st' & [[-> ->]|(st1 & _ & H1 & -> & _)]%Hcase & Hin); [done|].
      by apply Hfirst in H1.
    + rewrite Hch, (go_children c m Hm r st0 r' H0). split.
      * intros [(st' & Hr' & Hin)|[-> Hin]].
        -- destruct (Hold _ _ Hr') as (st'' & ? & Hb & _). exists st''. by rewrite Hb.
        -- exists (block_state_new b i). by rewrite lookup_insert_eq.
      * intros (st' & [[-> ->]|(st1 & _ & H1 & Hb & _)]%Hcase & Hin); [by right|]. left. exists st1. by rewrite <-Hb.
  - intros r st r' st' [[-> ->]|(st0 & _ & H0 & _ & _ & _ & -> & _)]%Hcase [[-> ->]|(st1 & _ & H1 & -> & _ & _ & -> & _)]%Hcase Hin;
      cbn [bst_commit_index bst_block block_state_new] in *.
    + done.
    + by apply Hfirst in H1.
    + by eapply Hidx.
    + by eapply (go_causal c m Hm).
  - split_and!; [done| |].
    + intros r st' [[-> ->]|(st0 & _ & H0 & _)]%Hcase; [|left; by eexists]. right. exists b. cbn. set_solver.
    + intros b' ->%list_elem_of_singleton. rewrite lookup_insert_eq. by eexists.
Qed.

Lemma extends_nil i m : extends [] i m m.
Proof. split_and!; [eauto 6|intros; left; by eexists|set_solver]. Qed.

Lemma extends_app bs1 bs2 i m1 m2 m3 :
  extends bs1 i m1 m2 → extends bs2 i m2 m3 → extends (bs1 ++ bs2) i m1 m3.
Proof.
  intros (Ho1 & Hn1 & Hb1) (Ho2 & Hn2 & Hb2). split_and!.
  - intros r st Hr. destruct (Ho1 _ _ Hr) as (st1 & Hr1 & Hx1 & Hy1 & Hz1).
    destruct (Ho2 _ _ Hr1) as (st2 & Hr2 & Hx2 & Hy2 & Hz2). exists st2. split_and!; congruence.
  - intros r st Hr. destruct (Hn2 _ _ Hr) as [[st1 Hr1]|(b & Hb & ?)]; [|right; exists b; set_solver].
    destruct (Hn1 _ _ Hr1) as [?|(b & Hb & Href & Hx & Hy & Hz)]; [by left|]. right. exists b.
    destruct (Ho2 _ _ Hr1) as (st2 & Hr2 & Hx2 & Hy2 & Hz2). rewrite Hr in Hr2. injection Hr2 as <-.
    split_and!; [set_solver|congruence..].
  - intros b [Hb|Hb]%elem_of_app; [|by apply Hb2]. destruct (Hb1 b Hb) as [st1 Hr1].
    destruct (Ho2 _ _ Hr1) as (st2 & Hr2 & _). by eexists.
Qed.

Lemma link_blocks_ok c i bs : ∀ m,
  graph_ok c m → NoDup (reference <$> bs) → StronglySorted (λ a b, round a ≤ round b) bs →
  (∀ b, b ∈ bs → linkable c i m b) →
  graph_ok c (foldl (link_block i) m bs) ∧ extends bs i m (foldl (link_block i) m bs).
Proof.
  induction bs as [|b bs IH]; intros m Hm Hnd Hs Hlk; cbn [foldl]; [split; [done|apply extends_nil]|].
  cbn in Hnd. apply NoDup_cons in Hnd as [Hb Hnd]. inversion Hs as [|? ? Hs' Hle]; subst. rewrite Forall_forall in Hle.
  pose proof (Hlk b ltac:(by left)) as Hlb. destruct (link_block_ok c i m b Hm Hlb) as [Hm1 He1].
  destruct (IH _ Hm1 Hnd Hs') as [Hm2 He2].
  - intros b' Hb'. pose proof (Hlk b' ltac:(by right)) as [Hnew Hok Hfirst Hidx]. destruct He1 as (Ho & Hn & _).
    assert (Hold : ∀ r st', link_block i m b !! r = Some st' → (∃ st, m !! r = Some st ∧ bst_block st' = bst_block st ∧
      bst_commit_index st' = bst_commit_index st) ∨ (r = reference b ∧ bst_block st' = b ∧ bst_commit_index st' = i)).
    { intros r st' Hr. destruct (Hn r st' Hr) as [[st H0]|(x & ->%list_elem_of_singleton & <- & ? & ? & _)]; [|by right].
      left. exists st. destruct (Ho _ _ H0) as (y & Hy & ? & ? & _). rewrite Hr in Hy. by injection Hy as <-. }
    split; [|done| |].
    + destruct (link_block i m b !! reference b') as [st'|] eqn:E; [|done]. exfalso.
      destruct (Hold _ _ E) as [(st & H0 & _)|[Heq _]]; [congruence|]. apply Hb. rewrite <-Heq. by apply list_elem_of_fmap_2.
    + intros r st' [(st & H0 & -> & _)|(_ & -> & _)]%Hold; [by eapply Hfirst|].
      intros Hin%(cbo_rounds c b (lk_ok _ _ _ _ Hlb)). specialize (Hle b' Hb'). unfold reference in Hin. cbn in Hin. lia.
    + intros r st' [(st & H0 & _ & ->)|(_ & _ & ->)]%Hold; [by eapply Hidx|done].
  - split; [done|]. by apply (extends_app [b] bs i m _ _ He1 He2).
Qed.

(** The chains among the blocks buffered before are not changed by a commit. *)
Lemma extends_origins c i bs m m' :
  graph_ok c m → (∀ b, b ∈ bs → linkable c i m b) → extends bs i m m' →
  origins_ok (λ _, True) m → origins_ok (λ x, is_Some (m !! x)) m'.
Proof.
  intros Hm Hlk (Ho & Hn & _) HD.
  assert (Hup : ∀ x y, own_parent m x y → own_parent m' x y).
  { intros x y ([sty Hy] & Ha & stx & Hx & Hh). destruct (Ho _ _ Hy) as (? & ? & _), (Ho _ _ Hx) as (st' & ? & Hb & _).
    split_and!; [by eexists|done|]. exists st'. by rewrite Hb. }
  assert (Hdown : ∀ x y, tc (own_parent m') x y → is_Some (m !! x) → tc (own_parent m) x y ∧ is_Some (m !! y)).
  { assert (Hone : ∀ x y, own_parent m' x y → is_Some (m !! x) → own_parent m x y ∧ is_Some (m !! y)).
    { intros x y ([sty' Hy'] & Ha & stx' & Hx' & Hh) [stx Hx]. destruct (Ho _ _ Hx) as (z & Hz & Hb & _).
      rewrite Hx' in Hz. injection Hz as <-. rewrite Hb in Hh.
      destruct (Hn _ _ Hy') as [Hy|(b & Hb' & <- & _)].
      - split; [|done]. split_and!; [done..|]. by exists stx.
      - exfalso. apply head_Some_elem_of in Hh. by apply (lk_first _ _ _ _ (Hlk b Hb') x stx). }
    induction 1 as [x y Hp|x z y Hp _ IH]; intros Hx; destruct (Hone _ _ Hp Hx) as [Hp' Hz]; [split; [by apply tc_once|done]|].
    destruct (IH Hz) as [??]. split; [by eapply tc_l|done]. }
  intros r st x Hr. destruct (Hn _ _ Hr) as [[st0 H0]|(b & Hb & Href & _ & _ & ->)].
  - destruct (Ho _ _ H0) as (z & Hz & _ & _ & Hod). rewrite Hr in Hz. injection Hz as <-. rewrite Hod, (HD r st0 x H0). split.
    + intros [_ Ht]. split; [|eapply tc_congruence with (f := id); [|exact Ht]; intros ??; apply Hup].
      inversion Ht as [? ? (_ & _ & ? & ? & _)|? ? ? (_ & _ & ? & ? & _)]; by eexists.
    + intros [Hx Ht]. split; [done|]. by apply Hdown.
  - split; [set_solver|]. intros [Hx Ht]. destruct (Hdown _ _ Ht Hx) as [_ [? Hs]]. rewrite <-Href in Hs.
    by rewrite (lk_new _ _ _ _ (Hlk b Hb)) in Hs.
Qed.

(** *** Removing the blocks of the first commit *)

Definition keep_after (i : CommitIndex) (m : gmap BlockRef BlockState) : gmap BlockRef BlockState :=
  filter (λ p, i < bst_commit_index p.2) m.

Lemma lookup_keep_after i m r st : keep_after i m !! r = Some st ↔ m !! r = Some st ∧ i < bst_commit_index st.
Proof. unfold keep_after. by rewrite map_lookup_filter_Some. Qed.

Lemma keep_after_graph c i m : graph_ok c m → graph_ok c (keep_after i m).
Proof.
  intros Hm. split.
  - intros r st [Hr _]%lookup_keep_after. by apply (go_block c m Hm).
  - intros r st [Hr _]%lookup_keep_after. by apply (go_rejects c m Hm r).
  - intros r st r' [Hr Hi]%lookup_keep_after. rewrite (go_children c m Hm r st r' Hr). split.
    + intros (st' & Hr' & Hin). exists st'. rewrite lookup_keep_after. split_and!; [done| |done].
      pose proof (go_causal c m Hm _ _ _ _ Hr Hr' Hin). lia.
    + intros (st' & [Hr' _]%lookup_keep_after & Hin). eauto.
  - intros r st r' st' [Hr _]%lookup_keep_after [Hr' _]%lookup_keep_after. by apply (go_causal c m Hm r st r' st').
Qed.

Lemma keep_after_parent c i m y z sty stz :
  graph_ok c m → own_parent m y z → m !! y = Some sty → m !! z = Some stz → i < bst_commit_index stz →
  own_parent (keep_after i m) y z ∧ i < bst_commit_index sty.
Proof.
  intros Hm Hp Hy Hz Hi. pose proof (own_parent_facts c m Hm _ _ _ _ Hp Hy Hz) as [_ Hle].
  destruct Hp as (_ & Ha & st' & Hy' & Hh). rewrite Hy in Hy'. injection Hy' as <-. split; [|lia].
  split_and!; [exists stz; by rewrite lookup_keep_after|done|]. exists sty. rewrite lookup_keep_after. split_and!; [done|lia|done].
Qed.

Lemma keep_after_chain c i m x r st :
  graph_ok c m → m !! r = Some st → i < bst_commit_index st → tc (own_parent m) x r → tc (own_parent (keep_after i m)) x r.
Proof.
  intros Hm Hr Hi. induction 1 as [y r Hp|y u r Hp Ht IH].
  - pose proof Hp as (_ & _ & sty & Hy & _). apply tc_once. by eapply keep_after_parent.
  - destruct (own_chain_facts c m Hm _ _ Ht) as (stu & st' & Hu & Hr' & _ & _ & Hle). rewrite Hr in Hr'. injection Hr' as <-.
    pose proof Hp as (_ & _ & sty & Hy & _). eapply tc_l; [eapply (keep_after_parent c i m y u); [done..|lia]|by apply IH].
Qed.

Lemma keep_after_origins c i m :
  graph_ok c m → origins_ok (λ _, True) m → origins_ok (λ _, True) (keep_after i m).
Proof.
  intros Hm HD r st x [Hr Hi]%lookup_keep_after. rewrite (HD r st x Hr).
  split; intros [_ Ht]; (split; [done|]); [by eapply keep_after_chain|].
  eapply tc_congruence with (f := id); [|exact Ht].
  intros y z ([stz [Hz _]%lookup_keep_after] & Ha & sty & [Hy _]%lookup_keep_after & Hh). split_and!; [by eexists|done|eauto].
Qed.
