(* ===== verification/FinalizerDecisions.v ===== *)
(** * Decisions of the commit finalizer on one commit

    Which transactions of a commit become pending, rejected or final when the certifier's
    votes are applied to it, and when the votes of later commits are counted by tasks that
    are joined in any order. *)

From S2P Require Import Prelude Collections Weighted Committee Types Fixtures Commits StakeAggregator.
From S2P Require Import ThresholdClock LeaderScoring Storage DagState DagStateSpec DagTraversal DagRecovery BaseCommitter Errors.
From S2P Require Import BlockVerifier TransactionCertifier CommitFinalizer FinalizerVotes FinalizerGraph.

Local Open Scope N_scope.

(** ** Pending and rejected transactions of a commit *)

Definition pend (cs : CommitState) (r : BlockRef) : gset TransactionIndex := default ∅ (pending_transactions cs !! r).
Definition rejd (cs : CommitState) (r : BlockRef) : gset TransactionIndex := default ∅ (cst_rejected cs !! r).

Lemma extend_entry_default r ts (m : gmap BlockRef (gset TransactionIndex)) x :
  default ∅ (extend_entry r ts m !! x) = default ∅ (m !! x) ∪ (if decide (x = r) then ts else ∅).
Proof.
  unfold extend_entry. case_decide as Hx; [subst; by rewrite lookup_insert_eq|].
  rewrite lookup_insert_ne by done. set_solver.
Qed.

Lemma rejd_reject r ts cs x : rejd (reject_transactions r ts cs) x = rejd cs x ∪ (if decide (x = r) then ts else ∅).
Proof. apply extend_entry_default. Qed.

Lemma pend_remove cs r ts x :
  pend (remove_pending_transactions cs r ts) x = if decide (x = r) then pend cs x ∖ list_to_set ts else pend cs x.
Proof.
  unfold remove_pending_transactions, pend. destruct (pending_transactions cs !! r) as [p|] eqn:E; cbn [pending_transactions].
  - destruct (decide (x = r)) as [->|Hx].
    + rewrite E. case_decide as He; [by rewrite lookup_delete_eq|by rewrite lookup_insert_eq].
    + case_decide; [by rewrite lookup_delete_ne|by rewrite lookup_insert_ne].
  - destruct (decide (x = r)) as [->|Hx]; [|done]. rewrite E. set_solver.
Qed.

Lemma remove_pending_fields cs r ts :
  cst_commit (remove_pending_transactions cs r ts) = cst_commit cs ∧
  pending_blocks (remove_pending_transactions cs r ts) = pending_blocks cs ∧
  cst_rejected (remove_pending_transactions cs r ts) = cst_rejected cs ∧
  (∀ x, is_Some (pending_transactions (remove_pending_transactions cs r ts) !! x) → is_Some (pending_transactions cs !! x)).
Proof.
  unfold remove_pending_transactions. destruct (pending_transactions cs !! r) as [p|] eqn:E; [|done].
  split_and!; [done..|]. intros x. cbn. case_decide.
  - rewrite lookup_delete_is_Some. tauto.
  - destruct (decide (x = r)) as [->|Hne]; [rewrite E; by eexists|by rewrite lookup_insert_ne].
Qed.

(** [cs'] is [cs] after some of its pending transactions were decided: those that left were
    accepted with [A] or rejected with [X]. *)
Record settles (A X : BlockRef → TransactionIndex → Prop) (cs cs' : CommitState) : Prop := {
  se_commit : cst_commit cs' = cst_commit cs;
  se_blocks : pending_blocks cs' = pending_blocks cs;
  se_keys x : is_Some (pending_transactions cs' !! x) → is_Some (pending_transactions cs !! x);
  se_pend x t : t ∈ pend cs' x → t ∈ pend cs x;
  se_gone x t : t ∈ pend cs x → t ∈ pend cs' x ∨ t ∈ rejd cs' x ∨ A x t;
  se_kept x t : t ∈ rejd cs x → t ∈ rejd cs' x;
  se_rejd x t : t ∈ rejd cs' x → t ∈ rejd cs x ∨ (t ∈ pend cs x ∧ X x t);
}.

Lemma settles_refl A X cs : settles A X cs cs.
Proof. split; auto. Qed.

Lemma settles_trans A X cs1 cs2 cs3 : settles A X cs1 cs2 → settles A X cs2 cs3 → settles A X cs1 cs3.
Proof.
  intros [] []. split; try congruence; eauto.
  - intros x t Ht. destruct (se_gone0 x t Ht) as [?|[?|?]]; eauto.
  - intros x t Ht. destruct (se_rejd1 x t Ht) as [?|[? ?]]; eauto.
Qed.

Lemma settles_mono (A X A' X' : BlockRef → TransactionIndex → Prop) cs cs' :
  (∀ x t, A x t → A' x t) → (∀ x t, X x t → X' x t) → settles A X cs cs' → settles A' X' cs cs'.
Proof.
  intros HA HX []. split; auto.
  - intros x t Ht. destruct (se_gone0 x t Ht) as [?|[?|?]]; eauto.
  - intros x t Ht. destruct (se_rejd0 x t Ht) as [?|[? ?]]; eauto.
Qed.

(** ** The invariant of a buffered commit

    [P] holds of pending transactions, [J] of accepted and [X] of rejected ones. *)

Section commit_state.
Context (P J : BlockRef → TransactionIndex → Prop) (X : CommittedSubDag → BlockRef → TransactionIndex → Prop).

Record commit_state_ok (cs : CommitState) : Prop := {
  cso_fresh : pending_blocks cs ≠ ∅ → pending_transactions cs = ∅ ∧ cst_rejected cs = ∅;
  cso_blocks r : is_Some (pending_blocks cs !! r) → r ∈ reference <$> sd_blocks (cst_commit cs);
  cso_all r : pending_blocks cs ≠ ∅ → r ∈ reference <$> sd_blocks (cst_commit cs) → is_Some (pending_blocks cs !! r);
  cso_keys r : is_Some (pending_transactions cs !! r) → r ∈ reference <$> sd_blocks (cst_commit cs);
  cso_pending r t : t ∈ pend cs r → P r t;
  cso_rejected r t : t ∈ rejd cs r → X (cst_commit cs) r t;
  cso_accepted r t : pending_blocks cs = ∅ → r ∈ reference <$> sd_blocks (cst_commit cs) →
    t ∉ pend cs r → t ∉ rejd cs r → J r t;
}.

Lemma commit_state_settles A Y cs cs' :
  (∀ r t, A r t → J r t) → (∀ r t, r ∈ reference <$> sd_blocks (cst_commit cs) → P r t → Y r t → X (cst_commit cs) r t) →
  settles A Y cs cs' → pending_blocks cs = ∅ → commit_state_ok cs → commit_state_ok cs'.
Proof.
  intros HA HY Hs Hpb Hok. destruct Hs as [Hcm Hpb' Hkeys Hpend Hgone Hkept Hrejd]. split; rewrite ?Hcm, ?Hpb'.
  - by rewrite Hpb.
  - apply Hok.
  - apply Hok.
  - intros r Hr. by apply (cso_keys cs Hok), Hkeys.
  - intros r t Ht. by apply (cso_pending cs Hok), Hpend.
  - intros r t [Ht|[Ht HYt]]%Hrejd; [by apply (cso_rejected cs Hok)|]. apply HY; [|by apply (cso_pending cs Hok)|done].
    apply (cso_keys cs Hok). unfold pend in Ht. destruct (pending_transactions cs !! r); [by eexists|set_solver].
  - intros r t _ Hr Hp Hx. destruct (decide (t ∈ pend cs r)) as [Hin|Hn].
    + destruct (Hgone r t Hin) as [?|[?|?]]; [done|done|by apply HA].
    + apply (cso_accepted cs Hok); [done..|]. intros ?. by apply Hx, Hkept.
Qed.
End commit_state.

(** ** Decisions on the transactions of one commit *)

Section decisions.
Context (ctx : Context) (cert : CertifierState).
Abbreviation c := (committee ctx).

Definition has_vote (r : BlockRef) (t : TransactionIndex) : Prop :=
  ∃ votes, get_reject_votes cert r = Some votes ∧ t ∈ votes.*1.
Definition no_vote (r : BlockRef) (t : TransactionIndex) : Prop :=
  ∃ votes, get_reject_votes cert r = Some votes ∧ t ∉ votes.*1.
Definition reject_quorum (r : BlockRef) (t : TransactionIndex) : Prop :=
  ∃ votes s, get_reject_votes cert r = Some votes ∧ (t, s) ∈ votes ∧ quorum_threshold c ≤ s.

Lemma reject_votes_nodup r votes : get_reject_votes cert r = Some votes → NoDup votes.*1.
Proof.
  unfold get_reject_votes. destruct (cs_votes cert !! r) as [vi|]; [|done]. cbn. intros [= <-].
  rewrite <-list_fmap_compose. pose proof (NoDup_btree_iter (reject_txn_votes vi)) as Hnd.
  erewrite list_fmap_ext; [exact Hnd|]. by intros _ [i agg] _.
Qed.

Lemma get_reject_votes_known r : is_Some (cs_votes cert !! r) ↔ is_Some (get_reject_votes cert r).
Proof. unfold get_reject_votes. destruct (cs_votes cert !! r); cbn; split; intros [? ?]; done || by eexists. Qed.

(** *** Direct finalization *)

Lemma direct_votes_spec r votes : ∀ cs,
  cst_commit (foldl (direct_vote ctx r) cs votes) = cst_commit cs ∧
  pending_blocks (foldl (direct_vote ctx r) cs votes) = pending_blocks cs ∧
  (∀ x, is_Some (pending_transactions (foldl (direct_vote ctx r) cs votes) !! x) → is_Some (pending_transactions cs !! x) ∨ x = r) ∧
  (∀ x t, t ∈ pend (foldl (direct_vote ctx r) cs votes) x ↔
    t ∈ pend cs x ∨ (x = r ∧ ∃ s, (t, s) ∈ votes ∧ s < quorum_threshold c)) ∧
  (∀ x t, t ∈ rejd (foldl (direct_vote ctx r) cs votes) x ↔
    t ∈ rejd cs x ∨ (x = r ∧ ∃ s, (t, s) ∈ votes ∧ quorum_threshold c ≤ s)).
Proof.
  induction votes as [|[i s] votes IH]; intros cs; cbn [foldl]; [split_and!; set_solver|].
  destruct (IH (direct_vote ctx r cs (i, s))) as (-> & -> & Hk & Hp & Hr).
  unfold direct_vote in Hk, Hp, Hr |- *. destruct (N.ltb_spec s (quorum_threshold c)) as [Hlt|Hge]; cbn [cst_commit pending_blocks reject_transactions].
  - split_and!; [done..| | |].
    + intros x [Hx|Hx]%Hk; [|by right]. cbn in Hx. unfold extend_entry in Hx. destruct (decide (x = r)) as [->|Hne]; [by right|].
      rewrite lookup_insert_ne in Hx by done. by left.
    + intros x t. rewrite Hp. unfold pend at 1. cbn [pending_transactions]. rewrite extend_entry_default.
      change (default ∅ (pending_transactions cs !! x)) with (pend cs x).
      setoid_rewrite elem_of_cons. case_decide; set_solver.
    + intros x t. rewrite Hr. change (rejd (mkCommitState _ _ _ _) x) with (rejd cs x). setoid_rewrite elem_of_cons.
      split; [set_solver|]. intros [?|(-> & s' & [[= -> ->]|?] & ?)]; [by left|lia|]. right. eauto.
  - split_and!; [done..| |].
    + intros x t. rewrite Hp. change (pend (reject_transactions _ _ cs) x) with (pend cs x). setoid_rewrite elem_of_cons.
      split; [set_solver|]. intros [?|(-> & s' & [[= -> ->]|?] & ?)]; [by left|lia|]. right. eauto.
    + intros x t. rewrite Hr, rejd_reject. setoid_rewrite elem_of_cons. case_decide; set_solver.
Qed.

Lemma direct_blocks_spec l : ∀ cs,
  (∀ p, p ∈ l → is_Some (cs_votes cert !! p.1) ∧ (ref_author p.1 < committee_size c)%nat) →
  ∃ cs', for_each (direct_finalize_block ctx cert) cs l = Ok cs' ∧
    cst_commit cs' = cst_commit cs ∧ pending_blocks cs' = pending_blocks cs ∧
    (∀ x, is_Some (pending_transactions cs' !! x) → is_Some (pending_transactions cs !! x) ∨ x ∈ l.*1) ∧
    (∀ x t, t ∈ pend cs' x ↔ t ∈ pend cs x ∨ (x ∈ l.*1 ∧ ∃ votes s, get_reject_votes cert x = Some votes ∧
      (t, s) ∈ votes ∧ s < quorum_threshold c)) ∧
    (∀ x t, t ∈ rejd cs' x ↔ t ∈ rejd cs x ∨ (x ∈ l.*1 ∧ reject_quorum x t)).
Proof.
  induction l as [|[r n] l IH]; intros cs Hl; cbn [for_each]; [exists cs; split_and!; set_solver|].
  destruct (Hl (r, n)) as [Hk Ha]; [by left|]. cbn in Hk, Ha. apply get_reject_votes_known in Hk as [votes Hv].
  unfold direct_finalize_block at 1. cbn [fst]. rewrite Hv. cbn [expect obind].
  destruct (lookup_lt_is_Some_2 (authorities c) (ref_author r) Ha) as [au Hau]. unfold authority, vec_get. rewrite Hau. cbn [expect obind].
  destruct (direct_votes_spec r votes cs) as (Hcm & Hpb & Hkeys & Hp & Hr).
  destruct (IH (foldl (direct_vote ctx r) cs votes)) as (cs' & -> & Hcm' & Hpb' & Hkeys' & Hp' & Hr').
  { intros p Hin. apply Hl. by right. }
  exists cs'. split; [done|]. split_and!; [congruence..| | |].
  - intros x [Hx|Hx]%Hkeys'; [|right; by right]. apply Hkeys in Hx as [?| ->]; [by left|right; by left].
  - intros x t. rewrite Hp', Hp. cbn. rewrite elem_of_cons. split; [|naive_solver].
    intros [[?|(-> & s & ? & ?)]|(? & ?)]; [by left|right; eauto 8|right; eauto].
  - intros x t. rewrite Hr', Hr. cbn. rewrite elem_of_cons. unfold reject_quorum. split; [|naive_solver].
    intros [[?|(-> & s & ? & ?)]|(? & ?)]; [by left|right; eauto 8|right; eauto].
Qed.

Lemma direct_commit_ok (P J : BlockRef → TransactionIndex → Prop) (X : CommittedSubDag → BlockRef → TransactionIndex → Prop) cs :
  commit_state_ok P J X cs → pending_blocks cs ≠ ∅ →
  (∀ b, b ∈ sd_blocks (cst_commit cs) → is_Some (cs_votes cert !! reference b) ∧ (author b < committee_size c)%nat) →
  (∀ r t, has_vote r t → P r t) → (∀ r t, no_vote r t → J r t) → (∀ d r t, reject_quorum r t → X d r t) →
  ∃ cs', for_each (direct_finalize_block ctx cert)
      (mkCommitState (cst_commit cs) ∅ (pending_transactions cs) (cst_rejected cs)) (btree_iter (pending_blocks cs)) = Ok cs' ∧
    commit_state_ok P J X cs' ∧ cst_commit cs' = cst_commit cs ∧ pending_blocks cs' = ∅.
Proof.
  intros Hok Hpb Hknown HP HJ HX. destruct (cso_fresh _ _ _ _ Hok Hpb) as [Hpt Hrt].
  assert (Hin : ∀ r, r ∈ (btree_iter (pending_blocks cs)).*1 ↔ r ∈ reference <$> sd_blocks (cst_commit cs)).
  { intros r. transitivity (is_Some (pending_blocks cs !! r)).
    - rewrite list_elem_of_fmap. split; [intros ([? n] & -> & Hn%elem_of_btree_iter); by eexists|].
      intros [n Hn]. exists (r, n). by rewrite elem_of_btree_iter.
    - split; [apply Hok|]. intros Hr. by apply (cso_all _ _ _ _ Hok). }
  destruct (direct_blocks_spec (btree_iter (pending_blocks cs))
    (mkCommitState (cst_commit cs) ∅ (pending_transactions cs) (cst_rejected cs))) as (cs' & Hrun & Hcm & Hpb' & Hkeys & Hp & Hr).
  { intros p Hp. assert (p.1 ∈ reference <$> sd_blocks (cst_commit cs)) as (b & -> & Hb)%list_elem_of_fmap;
      [apply Hin; by apply list_elem_of_fmap_2|by apply Hknown]. }
  rewrite Hpt, Hrt in Hp, Hr, Hkeys. assert (Hp0 : ∀ x, pend (mkCommitState (cst_commit cs) ∅ ∅ ∅) x = ∅) by done.
  assert (Hr0 : ∀ x, rejd (mkCommitState (cst_commit cs) ∅ ∅ ∅) x = ∅) by done.
  rewrite Hpt, Hrt in Hrun. rewrite Hpt, Hrt. exists cs'. split; [done|]. cbn in Hcm, Hpb'. split; [|done]. split.
  - by rewrite Hpb'.
  - intros r [? Hx]. by rewrite Hpb' in Hx.
  - by rewrite Hpb'.
  - intros r [[? Hx]|Hx]%Hkeys; [done|]. rewrite Hcm. by apply Hin.
  - intros r t [Ht|(_ & votes & s & Hv & Hs & _)]%Hp; [by rewrite Hp0 in Ht|]. apply HP. exists votes. split; [done|].
    by apply (list_elem_of_fmap_2 fst votes (t, s)).
  - intros r t [Ht|[_ Hq]]%Hr; [by rewrite Hr0 in Ht|by apply HX].
  - intros r t _ Hrin Hnp Hnr. rewrite Hcm in Hrin. apply HJ. pose proof Hrin as (b & -> & Hb)%list_elem_of_fmap.
    destruct (Hknown b Hb) as [Hk _]. apply get_reject_votes_known in Hk as [votes Hv]. exists votes. split; [done|].
    intros ([? s] & -> & Hs)%list_elem_of_fmap. cbn in *. apply Hin in Hrin. destruct (N.lt_ge_cases s (quorum_threshold c)).
    + apply Hnp, Hp. right. split; [done|]. eauto.
    + apply Hnr, Hr. right. split; [done|]. unfold reject_quorum. eauto.
Qed.
(** *** Later rejections by a quorum *)

Definition listed (l : list (BlockRef * list TransactionIndex)) (r : BlockRef) (t : TransactionIndex) : Prop :=
  ∃ ts, (r, ts) ∈ l ∧ t ∈ ts.

Lemma listed_cons p l r t : listed (p :: l) r t ↔ (r = p.1 ∧ t ∈ p.2) ∨ listed l r t.
Proof.
  unfold listed. destruct p as [r' ts']. cbn. setoid_rewrite elem_of_cons. split.
  - intros (ts & [[= -> ->]|?] & ?); [by left|right; eauto].
  - intros [[-> ?]|(ts & ? & ?)]; eauto.
Qed.

Lemma listed_filter l r t : listed (filter (λ p, p.2 ≠ []) l) r t ↔ listed l r t.
Proof.
  unfold listed. split; intros (ts & Hin & Ht); exists ts; (split; [|done]).
  - by apply list_elem_of_filter in Hin as [_ ?].
  - apply list_elem_of_filter. split; [|done]. intros Hn. cbn in Hn. subst ts. by apply elem_of_nil in Ht.
Qed.

Lemma decide_listed l r t : base.Decision (listed l r t).
Proof.
  destruct (decide (Exists (λ p, p.1 = r ∧ t ∈ p.2) l)) as [Hy|Hn]; [left|right].
  - apply Exists_exists in Hy as ([r' ts] & Hin & <- & Ht). by exists ts.
  - intros (ts & Hin & Ht). apply Hn, Exists_exists. by exists (r, ts).
Qed.

Lemma remove_all_spec l : ∀ cs,
  let cs' := foldl remove_finalized cs l in
  cst_commit cs' = cst_commit cs ∧ pending_blocks cs' = pending_blocks cs ∧ cst_rejected cs' = cst_rejected cs ∧
  (∀ x, is_Some (pending_transactions cs' !! x) → is_Some (pending_transactions cs !! x)) ∧
  (∀ x t, t ∈ pend cs' x ↔ t ∈ pend cs x ∧ ¬ listed l x t).
Proof.
  induction l as [|[r ts] l IH]; intros cs; cbn [foldl]; cbv zeta.
  { split_and!; [done..|]. unfold listed. set_solver. }
  destruct (remove_pending_fields cs r ts) as (Hcm & Hpb & Hrt & Hk).
  destruct (IH (remove_finalized cs (r, ts))) as (Hcm' & Hpb' & Hrt' & Hk' & Hp').
  split_and!; [etrans; [exact Hcm'|exact Hcm]|etrans; [exact Hpb'|exact Hpb]|etrans; [exact Hrt'|exact Hrt]|intros x Hx; by apply Hk, Hk'|].
  intros x t. rewrite Hp'. unfold remove_finalized. cbn [fst snd]. rewrite pend_remove, listed_cons. cbn [fst snd]. case_decide; set_solver.
Qed.

Lemma reject_all_spec l : ∀ cs,
  let cs' := foldl reject_late cs l in
  cst_commit cs' = cst_commit cs ∧ pending_blocks cs' = pending_blocks cs ∧
  (∀ x, is_Some (pending_transactions cs' !! x) → is_Some (pending_transactions cs !! x)) ∧
  (∀ x t, t ∈ pend cs' x ↔ t ∈ pend cs x ∧ ¬ listed l x t) ∧
  (∀ x t, t ∈ rejd cs' x ↔ t ∈ rejd cs x ∨ listed l x t).
Proof.
  induction l as [|[r ts] l IH]; intros cs; cbn [foldl]; cbv zeta.
  { split_and!; [done..| |]; unfold listed; set_solver. }
  destruct (remove_pending_fields cs r ts) as (Hcm & Hpb & Hrt & Hk).
  destruct (IH (reject_late cs (r, ts))) as (Hcm' & Hpb' & Hk' & Hp' & Hr').
  split_and!; [etrans; [exact Hcm'|exact Hcm]|etrans; [exact Hpb'|exact Hpb]|intros x Hx; by apply Hk, Hk'| |].
  - intros x t. rewrite Hp'. change (pend (reject_late cs (r, ts)) x) with (pend (remove_pending_transactions cs r ts) x).
    rewrite pend_remove, listed_cons. cbn [fst snd]. case_decide; set_solver.
  - intros x t. rewrite Hr'. unfold reject_late. cbn [fst snd]. rewrite rejd_reject, listed_cons. cbn [fst snd].
    assert (rejd (remove_pending_transactions cs r ts) x = rejd cs x) as -> by (unfold rejd; by rewrite Hrt).
    case_decide; set_solver.
Qed.

Lemma late_rejected_spec r ts :
  is_Some (cs_votes cert !! r) → (∀ t, t ∈ ts → has_vote r t) →
  ∃ l, late_rejected ctx cert (r, ts) = Ok (r, l) ∧ ∀ t, t ∈ l ↔ t ∈ ts ∧ reject_quorum r t.
Proof.
  intros [votes Hv]%get_reject_votes_known Hts. unfold late_rejected. cbn [fst snd]. rewrite Hv. cbn [expect obind].
  pose proof (reject_votes_nodup r votes Hv) as Hnd.
  assert (Hlk : ∀ t, t ∈ ts → ∃ s, (list_to_map votes : gmap TransactionIndex Stake) !! t = Some s ∧ (t, s) ∈ votes).
  { intros t Ht. destruct (Hts t Ht) as (votes' & Hv' & Hin). rewrite Hv in Hv'. injection Hv' as <-.
    apply list_elem_of_fmap in Hin as ([t' s] & -> & Hs). exists s. split; [|done]. by apply elem_of_list_to_map_1. }
  match goal with |- context [filter_each ?g _] => set (f := g) end.
  assert (Hf : ∀ t, t ∈ ts → ∃ s, (t, s) ∈ votes ∧ f t = Ok (negb (s <? quorum_threshold c))).
  { intros t Ht. destruct (Hlk t Ht) as (s & Hs & Hin). exists s. split; [done|]. unfold f. by rewrite Hs. }
  destruct (filter_each_total f (bset_iter ts)) as [l Hl].
  { intros t Ht%elem_of_bset_iter. destruct (Hf t Ht) as (s & _ & ->). by eexists. }
  rewrite Hl. cbn [obind]. exists l. split; [done|]. intros t. rewrite (filter_each_elem _ _ _ _ Hl), elem_of_bset_iter.
  split; intros [Ht Hq]; (split; [done|]); destruct (Hf t Ht) as (s & Hs & Hft).
  - rewrite Hft in Hq. injection Hq as Hq. apply negb_true_iff, N.ltb_ge in Hq. by exists votes, s.
  - destruct Hq as (votes' & s' & Hv' & Hs' & Hq). rewrite Hv in Hv'. injection Hv' as <-.
    assert (s = s') as -> by (apply (elem_of_list_to_map_1 (M := gmap TransactionIndex)) in Hs, Hs'; [congruence|done..]). rewrite Hft. f_equal. by apply negb_true_iff, N.ltb_ge.
Qed.

Lemma check_pending_spec cs :
  (∀ r, is_Some (pending_transactions cs !! r) → is_Some (cs_votes cert !! r)) →
  (∀ r t, t ∈ pend cs r → has_vote r t) →
  ∃ cs', check_pending_transactions ctx cert cs = Ok cs' ∧ cst_commit cs' = cst_commit cs ∧ pending_blocks cs' = pending_blocks cs ∧
    (∀ x, is_Some (pending_transactions cs' !! x) → is_Some (pending_transactions cs !! x)) ∧
    (∀ x t, t ∈ pend cs' x ↔ t ∈ pend cs x ∧ ¬ reject_quorum x t) ∧
    (∀ x t, t ∈ rejd cs' x ↔ t ∈ rejd cs x ∨ (t ∈ pend cs x ∧ reject_quorum x t)).
Proof.
  intros Hknown Hvotes. unfold check_pending_transactions.
  assert (Hin : ∀ p, p ∈ btree_iter (pending_transactions cs) → pend cs p.1 = p.2 ∧ is_Some (pending_transactions cs !! p.1)).
  { intros [r ts] Hr%elem_of_btree_iter. unfold pend. cbn. rewrite Hr. split; [done|by eexists]. }
  destruct (map_each_total (late_rejected ctx cert) (btree_iter (pending_transactions cs))) as [all Hall].
  { intros [r ts] Hr. destruct (Hin _ Hr) as [Hp Hk]. destruct (late_rejected_spec r ts) as (l & -> & _); [by apply Hknown| |by eexists].
    cbn in Hp. intros t Ht. apply Hvotes. by rewrite Hp. }
  rewrite Hall. cbn [obind]. eexists. split; [done|]. destruct (reject_all_spec (filter (λ p, p.2 ≠ []) all) cs) as (Hcm & Hpb & Hk & Hp & Hr).
  assert (Hlisted : ∀ x t, listed (filter (λ p, p.2 ≠ []) all) x t ↔ t ∈ pend cs x ∧ reject_quorum x t).
  { intros x t. rewrite listed_filter. apply map_each_Ok in Hall. unfold listed. split.
    - intros (l & Hl & Ht). destruct (Forall2_elem_of_r _ _ _ _ Hall Hl) as ([r ts] & Hts & Hrun). destruct (Hin _ Hts) as [Hp' Hk'].
      cbn in Hp', Hk'. destruct (late_rejected_spec r ts) as (l' & Hrun' & Hl'); [by apply Hknown|intros u Hu; apply Hvotes; by rewrite Hp'|].
      rewrite Hrun in Hrun'. injection Hrun' as <- <-. rewrite Hp'. by apply Hl'.
    - intros [Ht Hq]. unfold pend in Ht. destruct (pending_transactions cs !! x) as [ts|] eqn:Hx; [|set_solver]. cbn in Ht.
      assert (Hts : (x, ts) ∈ btree_iter (pending_transactions cs)) by by apply elem_of_btree_iter.
      destruct (Forall2_elem_of_l _ _ _ _ Hall Hts) as (y & Hy & Hrun). destruct (Hin _ Hts) as [Hp' Hk']. cbn in Hp', Hk'.
      destruct (late_rejected_spec x ts) as (l' & Hrun' & Hl'); [by apply Hknown|intros u Hu; apply Hvotes; by rewrite Hp'|].
      rewrite Hrun in Hrun'. injection Hrun' as ->. exists l'. split; [done|]. by apply Hl'. }
  split_and!; [done..| |]; intros x t; [rewrite Hp|rewrite Hr]; rewrite Hlisted; tauto.
Qed.
End decisions.

(** ** The indirect decision on the first commit *)

Lemma reject_pending_fold l : ∀ cs,
  let cs' := foldl (λ cs '(r, ts), reject_transactions r ts cs) cs l in
  cst_commit cs' = cst_commit cs ∧ pending_blocks cs' = pending_blocks cs ∧ pending_transactions cs' = pending_transactions cs ∧
  (∀ x t, t ∈ rejd cs' x ↔ t ∈ rejd cs x ∨ ∃ ts, (x, ts) ∈ l ∧ t ∈ ts).
Proof.
  induction l as [|[r ts] l IH]; intros cs; cbn [foldl]; cbv zeta; [set_solver|].
  destruct (IH (reject_transactions r ts cs)) as (Hcm & Hpb & Hpt & Hr). split_and!; [done..|].
  intros x t. rewrite Hr, rejd_reject. setoid_rewrite elem_of_cons. case_decide; set_solver.
Qed.

Lemma reject_pending_spec cs :
  cst_commit (reject_pending cs) = cst_commit cs ∧ pending_blocks (reject_pending cs) = pending_blocks cs ∧
  pending_transactions (reject_pending cs) = ∅ ∧
  (∀ x t, t ∈ rejd (reject_pending cs) x ↔ t ∈ rejd cs x ∨ t ∈ pend cs x).
Proof.
  unfold reject_pending.
  destruct (reject_pending_fold (btree_iter (pending_transactions cs)) (mkCommitState (cst_commit cs) (pending_blocks cs) ∅ (cst_rejected cs)))
    as (Hcm & Hpb & Hpt & Hr). split_and!; [done..|]. intros x t. rewrite Hr.
  change (rejd (mkCommitState _ _ _ _) x) with (rejd cs x). setoid_rewrite elem_of_btree_iter. unfold pend.
  destruct (pending_transactions cs !! x); set_solver.
Qed.

Section tasks.
Context (ctx : Context) (m : gmap BlockRef BlockState) (gc_rounds : list (CommitIndex * Round)).
Context (accepted : BlockRef → TransactionIndex → Prop).

(** What one task returns for each of its blocks. *)
Definition task_result (p : BlockRef * gset TransactionIndex) (q : BlockRef * list TransactionIndex) : Prop :=
  q.1 = p.1 ∧ ∀ t, t ∈ q.2 ↔ t ∈ p.2 ∧ accepted p.1 t.

Context (l : list (BlockRef * gset TransactionIndex)).
Context (Hrun : ∀ p, p ∈ l → ∃ F, try_indirect_finalize_pending_transactions_in_block ctx m gc_rounds p = Ok F ∧
  ∀ t, t ∈ F ↔ t ∈ p.2 ∧ accepted p.1 t).

Lemma finalize_chunk_spec ch :
  (∀ p, p ∈ ch → p ∈ l) →
  ∃ res, finalize_chunk ctx m gc_rounds ch = Ok res ∧
    ∀ r t, listed res r t ↔ ∃ ts, (r, ts) ∈ ch ∧ t ∈ ts ∧ accepted r t.
Proof.
  intros Hch. unfold finalize_chunk. match goal with |- context [map_each ?g _] => set (f := g) end.
  destruct (map_each_total f ch) as [res Hres].
  { intros p Hp. destruct (Hrun p (Hch p Hp)) as (F & HF & _). unfold f. rewrite HF. by eexists. }
  rewrite Hres. cbn [obind]. eexists. split; [done|]. intros r t. rewrite listed_filter. apply map_each_Ok in Hres. unfold listed. split.
  - intros (F & HF & Ht). destruct (Forall2_elem_of_r _ _ _ _ Hres HF) as ([r' ts] & Hp & Hf).
    destruct (Hrun _ (Hch _ Hp)) as (F' & HF' & Hiff). unfold f in Hf. rewrite HF' in Hf. injection Hf as -> ->. cbn in Hiff.
    destruct (proj1 (Hiff t) Ht) as [Ht1 Ht2]. by exists ts.
  - intros (ts & Hp & Ht & Ha). destruct (Forall2_elem_of_l _ _ _ _ Hres Hp) as (q & Hq & Hf).
    destruct (Hrun _ (Hch _ Hp)) as (F' & HF' & Hiff). unfold f in Hf. rewrite HF' in Hf. injection Hf as <-. cbn in Hiff.
    exists F'. split; [done|]. by apply Hiff.
Qed.

Lemma finalize_chunks_spec chs :
  (∀ ch p, ch ∈ chs → p ∈ ch → p ∈ l) →
  ∃ res, map_each (finalize_chunk ctx m gc_rounds) chs = Ok res ∧
    ∀ r t, listed (concat res) r t ↔ ∃ ts, (r, ts) ∈ concat chs ∧ t ∈ ts ∧ accepted r t.
Proof.
  induction chs as [|ch chs IH]; intros Hin; cbn [map_each].
  { exists []. split; [done|]. unfold listed. set_solver. }
  destruct (finalize_chunk_spec ch) as (res1 & -> & H1); [intros p; apply Hin; by left|]. cbn [obind].
  destruct IH as (res & -> & H2); [intros ch' p Hch'; apply Hin; by right|]. cbn [obind]. eexists. split; [done|].
  intros r t. cbn [concat]. transitivity (listed res1 r t ∨ listed (concat res) r t); [unfold listed; set_solver|].
  rewrite H1, H2. set_solver.
Qed.
End tasks.

(** Joined tasks may finish in any order; none is lost unless the process shuts down. *)
Definition join_ok (join : TaskJoin) : Prop := ∀ l l', join l = Some l' → l' ≡ₚ l.
