(* ===== verification/CommitFinalizerSpec.v ===== *)
(** * Correctness of the commit finalizer

    Commits leave the finalizer in the order in which they were committed, none is lost and
    none waits for more than a few rounds; every transaction of an output commit was
    rejected or accepted for a reason. *)

From S2P Require Import Prelude Collections Weighted Committee Types Fixtures Commits StakeAggregator.
From S2P Require Import ThresholdClock LeaderScoring Storage DagState DagStateSpec DagTraversal DagRecovery BaseCommitter Errors.
From S2P Require Import BlockVerifier TransactionCertifier CommitFinalizer FinalizerVotes FinalizerGraph FinalizerDecisions.

Local Open Scope N_scope.

(** ** The queue of commits *)

Definition commit_idx (d : CommittedSubDag) : CommitIndex := cref_index (sd_commit_ref d).
Definition leader_round (d : CommittedSubDag) : Round := ref_round (sd_leader d).

(** Consecutive commits up to the last one processed, with leaders of rising rounds. *)
Record queue_ok (last_index : option CommitIndex) (q : list CommittedSubDag) : Prop := {
  qo_index k d : q !! k = Some d → ∃ i, last_index = Some i ∧ commit_idx d + N.of_nat (length q) = i + 1 + N.of_nat k;
  qo_bound k d : q !! k = Some d → commit_idx d ≤ u32_max ∧ leader_round d + 3 ≤ u32_max;
  qo_leaders k k' d d' : (k ≤ k')%nat → q !! k = Some d → q !! k' = Some d' → leader_round d ≤ leader_round d';
  qo_blocks k d : q !! k = Some d → sd_blocks d ≠ [];
}.

(** The map holds the blocks of the commits [L], and only those. *)
Record holds (L : list CommittedSubDag) (m : gmap BlockRef BlockState) : Prop := {
  ho_known d b : d ∈ L → b ∈ sd_blocks d →
    ∃ st, m !! reference b = Some st ∧ bst_block st = b ∧ bst_commit_index st = commit_idx d;
  ho_only r st : m !! r = Some st → ∃ d, d ∈ L ∧ bst_block st ∈ sd_blocks d ∧ bst_commit_index st = commit_idx d;
}.

Lemma queue_index_lt last_index q k k' d d' :
  queue_ok last_index q → q !! k = Some d → q !! k' = Some d' → (k < k')%nat ↔ commit_idx d < commit_idx d'.
Proof.
  intros Hq Hk Hk'. destruct (qo_index _ _ Hq _ _ Hk) as (i & -> & Hd), (qo_index _ _ Hq _ _ Hk') as (i' & [= <-] & Hd'). lia.
Qed.

Lemma queue_index_inj last_index q k k' d d' :
  queue_ok last_index q → q !! k = Some d → q !! k' = Some d' → commit_idx d = commit_idx d' → k = k'.
Proof.
  intros Hq Hk Hk' Heq. destruct (qo_index _ _ Hq _ _ Hk) as (i & -> & Hd), (qo_index _ _ Hq _ _ Hk') as (i' & [= <-] & Hd'). lia.
Qed.

Lemma queue_ok_drop last_index q n : queue_ok last_index q → queue_ok last_index (drop n q).
Proof.
  intros Hq. split.
  - intros k d Hk. rewrite lookup_drop in Hk. destruct (qo_index _ _ Hq _ _ Hk) as (i & -> & Hd). exists i. split; [done|].
    apply lookup_lt_Some in Hk. rewrite length_drop. lia.
  - intros k d Hk. rewrite lookup_drop in Hk. by apply (qo_bound _ _ Hq _ _ Hk).
  - intros k k' d d' Hle Hk Hk'. rewrite lookup_drop in Hk, Hk'. eapply (qo_leaders _ _ Hq (n + k) (n + k')); [lia|done..].
  - intros k d Hk. rewrite lookup_drop in Hk. by apply (qo_blocks _ _ Hq _ _ Hk).
Qed.

Lemma queue_ok_snoc last_index q d :
  queue_ok last_index q → (∀ i, last_index = Some i → commit_idx d = i + 1) → commit_idx d ≤ u32_max →
  leader_round d + 3 ≤ u32_max → (∀ d', d' ∈ q → leader_round d' ≤ leader_round d) → sd_blocks d ≠ [] →
  queue_ok (Some (commit_idx d)) (q ++ [d]).
Proof.
  intros Hq Hnext Hi Hr Hl Hb. assert (Hcase : ∀ k x, (q ++ [d]) !! k = Some x → q !! k = Some x ∨ (k = length q ∧ x = d)).
  { intros k x [?|[Hge Hx]]%lookup_app_Some; [by left|]. apply list_lookup_singleton_Some in Hx as [? <-]. right. split; [lia|done]. }
  split.
  - intros k x [Hk|[-> ->]]%Hcase; (eexists; split; [done|]); rewrite length_app; cbn; [|lia].
    destruct (qo_index _ _ Hq _ _ Hk) as (i & Hlast & Heq). rewrite (Hnext i Hlast). lia.
  - intros k x [Hk|[-> ->]]%Hcase; [by apply (qo_bound _ _ Hq _ _ Hk)|done].
  - intros k k' x x' Hle [Hk|[-> ->]]%Hcase [Hk'|[-> ->]]%Hcase; [by eapply (qo_leaders _ _ Hq)| | |done].
    + apply Hl. by eapply list_elem_of_lookup_2.
    + apply lookup_lt_Some in Hk'. lia.
  - intros k x [Hk|[-> ->]]%Hcase; [by apply (qo_blocks _ _ Hq _ _ Hk)|done].
Qed.

(** ** When votes may be missing because of GC *)

Definition commit_gced (gc_rounds : list (CommitIndex * Round)) (pending_round : Round) (pending_index i : CommitIndex) : bool :=
  (pending_index <? i) &&
  match gc_rounds !! N.to_nat (i - 1 - pending_index) with Some (_, gc) => pending_round <=? gc | None => true end.

Definition gc_rounds_of (gc : Round → Round) (q : list CommittedSubDag) : list (CommitIndex * Round) :=
  (λ d, (commit_idx d, gc (leader_round d))) <$> q.

Lemma commit_gced_mono gc last_index q pr d0 i j :
  queue_ok last_index q → (∀ x y, x ≤ y → gc x ≤ gc y) → i ≤ j →
  commit_gced (gc_rounds_of gc q) pr d0 i = true → commit_gced (gc_rounds_of gc q) pr d0 j = true.
Proof.
  intros Hq Hmono Hij. unfold commit_gced, gc_rounds_of. rewrite !andb_true_iff, !N.ltb_lt, !list_lookup_fmap. intros [Hi Hg].
  split; [lia|]. destruct (q !! N.to_nat (j - 1 - d0)) as [y|] eqn:Hy; [|done]. cbn.
  destruct (lookup_lt_is_Some_2 q (N.to_nat (i - 1 - d0))) as [x Hx]; [apply lookup_lt_Some in Hy; lia|].
  rewrite Hx in Hg. cbn in Hg. apply N.leb_le in Hg. apply N.leb_le.
  assert (leader_round x ≤ leader_round y) by (eapply (qo_leaders _ _ Hq (N.to_nat (i - 1 - d0)) (N.to_nat (j - 1 - d0))); [lia|done..]).
  specialize (Hmono (leader_round x) (leader_round y)). lia.
Qed.

Lemma commit_gced_run gc last_index q pr d0 k d :
  queue_ok last_index q → q !! 0%nat = Some d0 → q !! k = Some d →
  gced_transaction_votes_for_pending_block (gc_rounds_of gc q) pr (commit_idx d0) (commit_idx d) =
    Ok (commit_gced (gc_rounds_of gc q) pr (commit_idx d0) (commit_idx d)).
Proof.
  intros Hq H0 Hk. destruct (qo_index _ _ Hq _ _ Hk) as (i & Hlast & Hd), (qo_index _ _ Hq _ _ H0) as (i' & Hlast' & Hd0).
  assert (i' = i) as -> by congruence. destruct (qo_bound _ _ Hq _ _ Hk) as [Hb _].
  unfold gced_transaction_votes_for_pending_block, commit_gced. rewrite rassert_true by (apply N.leb_le; lia). cbn [obind].
  destruct (N.eqb_spec (commit_idx d0) (commit_idx d)) as [Heq|Hne].
  - by rewrite (proj2 (N.ltb_ge _ _)) by lia.
  - rewrite (proj2 (N.ltb_lt _ _)) by lia. machine.
    replace (commit_idx d - 1 - commit_idx d0) with (N.of_nat (k - 1)) by lia. rewrite Nat2N.id. unfold gc_rounds_of, vec_get.
    rewrite !list_lookup_fmap. destruct (lookup_lt_is_Some_2 q (k - 1)%nat) as [e He]; [apply lookup_lt_Some in Hk; lia|].
    rewrite He. cbn [fmap option_fmap option_map expect obind]. destruct (qo_index _ _ Hq _ _ He) as (i2 & Hlast2 & Hde).
    assert (i2 = i) as -> by congruence. rewrite rassert_true; [done|]. apply N.eqb_eq. lia.
Qed.

(** The buffered blocks are a graph on which the search for votes is exact. *)
Lemma buffer_vote_graph ctx gc last_index q m d0 b :
  graph_ok (committee ctx) m → origins_ok (λ _, True) m → holds q m → queue_ok last_index q → (∀ x y, x ≤ y → gc x ≤ gc y) →
  q !! 0%nat = Some d0 → b ∈ sd_blocks d0 →
  vote_graph ctx m (gc_rounds_of gc q) (reference b)
    (commit_gced (gc_rounds_of gc q) (round b) (commit_idx d0)).
Proof.
  intros Hm Ho Hh Hq Hmono H0 Hb.
  destruct (ho_known _ _ Hh d0 b) as (stb & Hstb & _ & Hib); [by eapply list_elem_of_lookup_2|done|].
  assert (Hidx : ∀ r st, m !! r = Some st → index_of m r = bst_commit_index st) by (intros r st Hr; unfold index_of; by rewrite Hr).
  assert (Hod : ∀ r r', r' ∈ origin_of m r ↔ is_Some (m !! r) ∧ tc (own_parent m) r' r).
  { intros r r'. unfold origin_of. destruct (m !! r) as [st|] eqn:Hr; cbn.
    - rewrite (Ho r st r' Hr). split; [intros []; split; [by eexists|done]|tauto].
    - split; [set_solver|]. by intros [[? ?] _]. }
  split.
  - by eexists.
  - intros r r' (st & Hr & Hin). rewrite (go_children _ m Hm r st r' Hr) in Hin. destruct Hin as (st' & Hr' & Hin).
    split; [by eexists|]. rewrite (Hidx _ _ Hr), (Hidx _ _ Hr'). split; [|by eapply go_causal].
    destruct (go_block _ m Hm _ _ Hr') as [<- Hok]. by apply (cbo_rounds _ _ Hok).
  - intros r r' [_ Ht]%Hod. destruct (own_chain_facts _ m Hm _ _ Ht) as (st' & st & Hr' & Hr & _ & ? & ?).
    by rewrite (Hidx _ _ Hr), (Hidx _ _ Hr').
  - intros r r' r'' [Hr H1]%Hod [_ H2]%Hod. apply Hod. split; [done|]. by eapply tc_trans.
  - intros r [st Hr]. destruct (go_block _ m Hm _ _ Hr) as [<- Hok]. apply Hok.
  - intros r [st Hr] _. rewrite (Hidx _ _ Hr), (Hidx _ _ Hstb), Hib. destruct (ho_only _ _ Hh r st Hr) as (d & [k Hk]%list_elem_of_lookup & _ & ->).
    by eapply commit_gced_run.
  - intros i j. by apply (commit_gced_mono gc last_index).
Qed.

(** ** Popping finalized commits *)

Definition buffer_ok (c : Committee) (L : list CommittedSubDag) (m : gmap BlockRef BlockState) : Prop :=
  graph_ok c m ∧ origins_ok (λ _, True) m ∧ holds L m.

Lemma buffer_ok_empty c : buffer_ok c [] ∅.
Proof. split_and!; [split; by intros ? ?| by intros ? ?|split; [set_solver|by intros ? ?]]. Qed.

Lemma buffer_ok_nil c m : buffer_ok c [] m → m = ∅.
Proof. intros (_ & _ & Hh). apply map_empty. intros r. destruct (m !! r) as [st|] eqn:E; [|done]. apply (ho_only _ _ Hh) in E as (? & ? & _). set_solver. Qed.

Lemma lookup_remove_blocks bs : ∀ m r, remove_blocks m bs !! r = if decide (r ∈ reference <$> bs) then None else m !! r.
Proof.
  unfold remove_blocks. induction bs as [|b bs IH]; intros m r; cbn [foldl fmap list_fmap]; [done|]. rewrite IH.
  destruct (decide (r = reference b)) as [->|Hne].
  - rewrite lookup_delete_eq, (decide_True (P := reference b ∈ reference b :: _)) by by left. by case_decide.
  - rewrite lookup_delete_ne by done. repeat case_decide; set_solver.
Qed.

Lemma remove_blocks_subseteq bs m : remove_blocks m bs ⊆ m.
Proof. apply map_subseteq_spec. intros r st. rewrite lookup_remove_blocks. by case_decide. Qed.

Lemma remove_first c last_index d L m rest :
  queue_ok last_index ((d :: L) ++ rest) → buffer_ok c (d :: L) m →
  buffer_ok c L (remove_blocks m (sd_blocks d)).
Proof.
  intros Hq (Hm & Ho & Hh). assert (Hpos : ∀ x, x ∈ L → commit_idx d < commit_idx x).
  { intros x [k Hk]%list_elem_of_lookup. apply (queue_index_lt _ _ 0 (Datatypes.S k) d x Hq); [done| |lia].
    change ((L ++ rest) !! k = Some x). rewrite lookup_app_l; [done|]. by apply lookup_lt_Some in Hk. }
  assert (remove_blocks m (sd_blocks d) = keep_after (commit_idx d) m) as ->.
  { apply map_eq. intros r. rewrite lookup_remove_blocks. case_decide as Hr.
    - apply list_elem_of_fmap in Hr as (b & -> & Hb). destruct (ho_known _ _ Hh d b) as (st & Hst & _ & Hi); [by left|done|].
      symmetry. apply map_lookup_filter_None_2. right. intros st' Hst'. cbn. rewrite Hst in Hst'. injection Hst' as <-. lia.
    - destruct (m !! r) as [st|] eqn:E; symmetry; [|apply map_lookup_filter_None_2; by left]. apply lookup_keep_after. split; [done|].
      destruct (ho_only _ _ Hh r st E) as (x & Hx & Hb & ->). apply elem_of_cons in Hx as [->|Hx]; [|by apply Hpos].
      destruct Hr. destruct (go_block _ m Hm _ _ E) as [<- _]. by apply list_elem_of_fmap_2. }
  split_and!; [by apply keep_after_graph|by eapply keep_after_origins|]. split.
  - intros x b Hx Hb. destruct (ho_known _ _ Hh x b) as (st & Hst & Hbl & Hi); [by right|done|]. exists st.
    rewrite lookup_keep_after. specialize (Hpos x Hx). split_and!; [done|lia|done|done].
  - intros r st [Hr Hi]%lookup_keep_after. destruct (ho_only _ _ Hh r st Hr) as (x & Hx & ? & Hix). exists x. split_and!; [|done..].
    apply elem_of_cons in Hx as [->|]; [lia|done].
Qed.

Definition output (cs : CommitState) : CommittedSubDag := with_rejected (cst_commit cs) (cst_rejected cs).

Lemma pop_commits_spec c last_index commits : ∀ m L rest,
  cst_commit <$> commits = L ++ rest → queue_ok last_index (L ++ rest) → buffer_ok c L m →
  ∃ popped kept m', pop_commits commits m = (output <$> popped, kept, m') ∧ commits = popped ++ kept ∧
    (∀ cs, cs ∈ popped → finalizedb cs = true) ∧ (∀ cs, head kept = Some cs → finalizedb cs = false) ∧
    buffer_ok c (drop (length popped) L) m' ∧ m' ⊆ m.
Proof.
  induction commits as [|cs commits IH]; intros m L rest Heq Hq Hb; cbn [pop_commits].
  { exists [], [], m. split_and!; [done..|set_solver|done| |done]. by rewrite drop_0. }
  destruct (finalizedb cs) eqn:Hf; cbn [negb].
  2:{ exists [], (cs :: commits), m. split_and!; [done..|set_solver|by intros ? [= <-]| |done]. by rewrite drop_0. }
  pose proof (remove_blocks_subseteq (sd_blocks (cst_commit cs)) m) as Hsub.
  cbn [fmap list_fmap] in Heq. destruct L as [|d L].
  - cbn in Heq. assert (Hm : remove_blocks m (sd_blocks (cst_commit cs)) = ∅).
    { apply buffer_ok_nil in Hb as ->. apply map_eq. intros r. rewrite lookup_remove_blocks. by case_decide. }
    rewrite Hm. destruct (IH ∅ [] (drop 1 rest)) as (popped & kept & m' & -> & -> & Hp & Hk & Hb' & Hm').
    + by rewrite <-Heq.
    + apply queue_ok_drop with (n := 1%nat) in Hq. exact Hq.
    + apply buffer_ok_empty.
    + exists (cs :: popped), kept, m'. split_and!; [done..| |done| |by etrans; [|apply map_empty_subseteq]].
      * intros x [->|?]%elem_of_cons; auto.
      * rewrite drop_nil in Hb'. by rewrite drop_nil.
  - cbn in Heq. injection Heq as Hcs Heq. rewrite Hcs.
    destruct (IH (remove_blocks m (sd_blocks d)) L rest) as (popped & kept & m' & -> & -> & Hp & Hk & Hb' & Hm'); [done| |by eapply remove_first|].
    + apply queue_ok_drop with (n := 1%nat) in Hq. exact Hq.
    + exists (cs :: popped), kept, m'. split_and!; [|done| |done|done|]; [cbn; unfold output at 2; by rewrite Hcs| |rewrite Hcs in Hsub; by etrans].
      intros x [->|?]%elem_of_cons; auto.
Qed.

(** ** The state of the finalizer *)

Abbreviation commits f := (cst_commit <$> pending_commits f).

Record state_ok (c : Committee) (P J : BlockRef → TransactionIndex → Prop)
    (X : CommittedSubDag → BlockRef → TransactionIndex → Prop) (L : list CommittedSubDag) (f : CommitFinalizer) : Prop := {
  so_queue : queue_ok (last_processed_commit f) (commits f);
  so_buffer : buffer_ok c L (fin_blocks f);
  so_commits cs : cs ∈ pending_commits f → commit_state_ok P J X cs;
}.

Lemma commits_insert f k cs cs' :
  pending_commits f !! k = Some cs → cst_commit cs' = cst_commit cs →
  cst_commit <$> <[k := cs']> (pending_commits f) = commits f.
Proof.
  intros Hk Hcm. rewrite list_fmap_insert, Hcm. apply list_insert_id. by rewrite list_lookup_fmap, Hk.
Qed.

Section run.
Context {S : Type} `{Store S} (ctx : Context) (join : TaskJoin) (cert : CertifierState) (d : DagState S).
Context (P J : BlockRef → TransactionIndex → Prop) (X : CommittedSubDag → BlockRef → TransactionIndex → Prop).
Abbreviation c := (committee ctx).

(** The certifier knows the blocks of a commit. *)
Definition knows (e : CommittedSubDag) : Prop := ∀ b, b ∈ sd_blocks e → is_Some (cs_votes cert !! reference b).

Lemma gc_mono x y : x ≤ y → calculate_gc_round d x ≤ calculate_gc_round d y.
Proof. unfold calculate_gc_round, saturating_sub. lia. Qed.

Lemma commit_gc_rounds_eq f : commit_gc_rounds d f = gc_rounds_of (calculate_gc_round d) (commits f).
Proof. unfold commit_gc_rounds, gc_rounds_of. by rewrite <-list_fmap_compose. Qed.

Lemma set_commit_ok L f k cs cs' :
  state_ok c P J X L f → pending_commits f !! k = Some cs → cst_commit cs' = cst_commit cs → commit_state_ok P J X cs' →
  state_ok c P J X L (set_pending_commits (<[k := cs']> (pending_commits f)) f) ∧
  commits (set_pending_commits (<[k := cs']> (pending_commits f)) f) = commits f.
Proof.
  intros [Hq Hb Hcs] Hk Hcm Hok. pose proof (commits_insert f k cs cs' Hk Hcm) as Heq. split; [|done]. split; cbn; [by rewrite Heq|done|].
  intros x [j Hj]%list_elem_of_lookup. apply list_lookup_insert_Some in Hj as [(_ & <- & _)|[_ Hj]]; [done|].
  apply Hcs. by eapply list_elem_of_lookup_2.
Qed.

(** *** Direct finalization *)

Lemma try_direct_spec L f k cs :
  committee_ok c → state_ok c P J X L f → pending_commits f !! k = Some cs → pending_blocks cs ≠ ∅ →
  knows (cst_commit cs) → (∀ b, b ∈ sd_blocks (cst_commit cs) → (author b < committee_size c)%nat) →
  (∀ r t, has_vote cert r t → P r t) → (∀ r t, no_vote cert r t → J r t) → (∀ e r t, reject_quorum ctx cert r t → X e r t) →
  ∃ cs', try_direct_finalize_commit ctx cert f k = Ok (set_pending_commits (<[k := cs']> (pending_commits f)) f) ∧
    commit_state_ok P J X cs' ∧ cst_commit cs' = cst_commit cs ∧ pending_blocks cs' = ∅.
Proof.
  intros Hc Hf Hk Hpb Hkn Hau HP HJ HX. unfold try_direct_finalize_commit. rewrite Hk. cbn [expect obind].
  rewrite rassert_true by by apply bool_decide_eq_true_2. cbn [obind].
  destruct (direct_commit_ok ctx cert P J X cs) as (cs' & -> & Hok & Hcm & Hpb'); [|done|by split; [apply Hkn|apply Hau]|done..|].
  { apply (so_commits _ _ _ _ _ _ Hf). by eapply list_elem_of_lookup_2. }
  cbn [obind]. by exists cs'.
Qed.

(** A commit is deep when the last commit is enough rounds above it. *)
Definition deep (q : list CommittedSubDag) (e : CommittedSubDag) : Prop :=
  ∃ e', last q = Some e' ∧ leader_round e + INDIRECT_REJECT_DEPTH ≤ leader_round e'.

Lemma stops_direct_deep last_index f cs last_cs :
  queue_ok last_index (commits f) → cs ∈ pending_commits f → last (pending_commits f) = Some last_cs →
  stops_direct cs last_cs = true → ¬ deep (commits f) (cst_commit cs).
Proof.
  intros Hq [k Hk]%list_elem_of_lookup Hl Hs (e' & He' & Hle). rewrite fmap_last, Hl in He'. injection He' as <-.
  unfold stops_direct in Hs. apply andb_true_iff in Hs as [_ Hlt%N.ltb_lt].
  assert (Hk' : commits f !! k = Some (cst_commit cs)) by by rewrite list_lookup_fmap, Hk.
  destruct (qo_bound _ _ Hq _ _ Hk') as [_ Hb]. unfold leader_round, INDIRECT_REJECT_DEPTH, DEFAULT_WAVE_LENGTH in *.
  rewrite u32_add_small in Hlt by width_lia. lia.
Qed.

Lemma deep_earlier last_index q k k' e e' :
  queue_ok last_index q → (k ≤ k')%nat → q !! k = Some e → q !! k' = Some e' → deep q e' → deep q e.
Proof.
  intros Hq Hle Hk Hk' (x & Hx & Hd). exists x. split; [done|].
  pose proof (qo_leaders _ _ Hq k k' e e' Hle Hk Hk'). lia.
Qed.

Lemma deep_suffix Q q1 q e : Q = q1 ++ q → q ≠ [] → deep q e ↔ deep Q e.
Proof using Type.
  intros -> Hq. unfold deep. rewrite last_app. destruct (last q) as [x|] eqn:E; [reflexivity|]. by apply last_None in E.
Qed.

Lemma direct_loop_spec L n : ∀ k f,
  committee_ok c → state_ok c P J X L f → (length (pending_commits f) = k + n)%nat →
  (∀ e, e ∈ commits f → knows e ∧ ∀ b, b ∈ sd_blocks e → (author b < committee_size c)%nat) →
  (∀ r t, has_vote cert r t → P r t) → (∀ r t, no_vote cert r t → J r t) → (∀ e r t, reject_quorum ctx cert r t → X e r t) →
  (∀ j cs, (j < k)%nat → pending_commits f !! j = Some cs → deep (commits f) (cst_commit cs) → pending_blocks cs = ∅) →
  ∃ f', direct_loop ctx cert f (seq k n) = Ok f' ∧ state_ok c P J X L f' ∧ commits f' = commits f ∧
    last_processed_commit f' = last_processed_commit f ∧ fin_blocks f' = fin_blocks f ∧
    (∀ cs, cs ∈ pending_commits f' → deep (commits f) (cst_commit cs) → pending_blocks cs = ∅).
Proof.
  induction n as [|n IH]; intros k f Hc Hf Hlen Hkn HP HJ HX Hbefore; cbn [seq direct_loop].
  { exists f. split_and!; [done..|]. intros cs [j Hj]%list_elem_of_lookup. apply (Hbefore j); [|done]. apply lookup_lt_Some in Hj. lia. }
  destruct (lookup_lt_is_Some_2 (pending_commits f) k) as [cs Hcs]; [lia|]. unfold vec_get at 1. rewrite Hcs. cbn [expect obind].
  pose proof (list_elem_of_lookup_2 _ _ _ Hcs) as Hin.
  assert (Hkn' := Hkn (cst_commit cs) (list_elem_of_fmap_2 _ _ _ Hin)).
  case_decide as Hpb.
  { apply IH; try done; [lia|]. intros j x Hj Hx Hd. destruct (decide (j = k)) as [->|]; [congruence|].
    eapply (Hbefore j); [lia|done..]. }
  destruct (last (pending_commits f)) as [lc|] eqn:Hlast; [|apply last_None in Hlast; by rewrite Hlast in Hcs]. cbn [expect obind].
  destruct (stops_direct cs lc) eqn:Hstop.
  { exists f. split_and!; [done..|]. intros x [j Hj]%list_elem_of_lookup Hd. destruct (decide (j < k)%nat) as [|Hge]; [by eapply Hbefore|].
    exfalso. eapply (stops_direct_deep _ f cs lc (so_queue _ _ _ _ _ _ Hf)); [done..|].
    eapply (deep_earlier _ _ k j); [by apply (so_queue _ _ _ _ _ _ Hf)|lia|by rewrite list_lookup_fmap, Hcs|by rewrite list_lookup_fmap, Hj|done]. }
  destruct (try_direct_spec L f k cs) as (cs' & -> & Hok' & Hcm' & Hpb'); try done; [apply Hkn'..|]. cbn [obind].
  destruct (set_commit_ok L f k cs cs' Hf Hcs Hcm' Hok') as [Hf' Heq].
  destruct (IH (Datatypes.S k) (set_pending_commits (<[k := cs']> (pending_commits f)) f)) as (f' & Hrun & Hst & Heq' & Hl' & Hb' & Hd'); try done.
  - cbn. rewrite length_insert. lia.
  - by rewrite Heq.
  - rewrite Heq. intros j x Hj Hx Hd. cbn in Hx. apply list_lookup_insert_Some in Hx as [(_ & <- & _)|[Hne Hx]]; [done|].
    eapply (Hbefore j); [lia|done..].
  - exists f'. rewrite Heq in *. split_and!; done.
Qed.

(** *** Linking the last commit *)

Lemma by_round_sorted bs : StronglySorted (λ a b, round a ≤ round b) (by_round bs).
Proof.
  unfold by_round. pose proof (sort_by_key_sorted round bs) as Hs. induction Hs as [|x l _ IH Hx]; constructor; [done|].
  eapply Forall_impl; [exact Hx|]. intros y. cbn. by rewrite ord_leb_N, Is_true_true, N.leb_le.
Qed.

Lemma by_round_perm bs : by_round bs ≡ₚ bs.
Proof. apply sort_by_key_perm. Qed.

Lemma linkable_subseteq i m m' b : m' ⊆ m → linkable c i m b → linkable c i m' b.
Proof.
  rewrite map_subseteq_spec. intros Hsub [Hn Hok Hf Hi]. split; [|done|eauto..].
  destruct (m' !! reference b) as [st|] eqn:E; [|done]. apply Hsub in E. congruence.
Qed.

Lemma last_commit f L e : commits f = L ++ [e] → ∃ cs, last (pending_commits f) = Some cs ∧ cst_commit cs = e.
Proof.
  intros Heq. assert (Hl : last (commits f) = Some e) by by rewrite Heq, last_snoc. rewrite fmap_last in Hl.
  destruct (last (pending_commits f)) as [cs|]; [|done]. injection Hl as <-. by exists cs.
Qed.

(** The blocks of the new commit are in the map, each under its own reference. *)
Lemma extends_known e m m1 b :
  NoDup (reference <$> sd_blocks e) → (∀ b, b ∈ sd_blocks e → linkable c (commit_idx e) m b) →
  extends (by_round (sd_blocks e)) (commit_idx e) m m1 → b ∈ sd_blocks e →
  ∃ st, m1 !! reference b = Some st ∧ bst_block st = b ∧ bst_commit_index st = commit_idx e.
Proof using Type.
  clear P J X.
  intros Hnd Hlk (_ & Hnew & Hall) Hb. destruct (Hall b) as [st Hst]; [by rewrite by_round_perm|]. exists st. split; [done|].
  destruct (Hnew _ _ Hst) as [[? Hx]|(b' & Hb' & Href & -> & -> & _)]; [by rewrite (lk_new _ _ _ _ (Hlk b Hb)) in Hx|].
  split; [|done]. rewrite by_round_perm in Hb'. apply list_elem_of_lookup in Hb as [j Hj], Hb' as [j' Hj'].
  assert (j' = j) as ->; [|congruence]. eapply (NoDup_lookup (reference <$> sd_blocks e)); [done|by rewrite list_lookup_fmap, Hj'|].
  by rewrite list_lookup_fmap, Hj, Href.
Qed.

Lemma extends_holds L e m m1 m2 :
  NoDup (reference <$> sd_blocks e) → (∀ b, b ∈ sd_blocks e → linkable c (commit_idx e) m b) →
  holds L m → extends (by_round (sd_blocks e)) (commit_idx e) m m1 → same_graph m1 m2 → holds (L ++ [e]) m2.
Proof using Type.
  clear P J X.
  intros Hnd Hlk Hh He Hs. pose proof (λ b, extends_known e m m1 b Hnd Hlk He) as Hblk. destruct He as (Hold & Hnew & _). split.
  - intros d0 b Hd Hb. assert (∃ st, m1 !! reference b = Some st ∧ bst_block st = b ∧ bst_commit_index st = commit_idx d0) as (st & Hst & Hx & Hi).
    { apply elem_of_app in Hd as [Hd| ->%list_elem_of_singleton]; [|by apply Hblk].
      destruct (ho_known _ _ Hh d0 b Hd Hb) as (st & Hst & ? & ?). destruct (Hold _ _ Hst) as (st' & ? & ? & ? & _). exists st'. split_and!; congruence. }
    destruct (same_graph_lookup _ _ _ _ Hs Hst) as (st' & ? & ? & _ & _ & ?). exists st'. split_and!; congruence.
  - intros r st Hr. destruct (same_graph_lookup _ _ _ _ (same_graph_sym _ _ Hs) Hr) as (st1 & Hr1 & -> & _ & _ & ->).
    destruct (Hnew _ _ Hr1) as [[st0 Hr0]|(b & Hb & _ & -> & -> & _)].
    + destruct (ho_only _ _ Hh r st0 Hr0) as (d0 & ? & ? & ?). destruct (Hold _ _ Hr0) as (z & Hz & Hzb & Hzi & _).
      rewrite Hr1 in Hz. injection Hz as <-. exists d0. rewrite Hzb, Hzi. set_solver.
    + exists e. rewrite by_round_perm in Hb. set_solver.
Qed.

Lemma link_last_spec f L e :
  commits f = L ++ [e] → buffer_ok c L (fin_blocks f) → NoDup (reference <$> sd_blocks e) →
  (∀ b, b ∈ sd_blocks e → linkable c (commit_idx e) (fin_blocks f) b) →
  ∃ m, (let! f := link_blocks_in_last_commit f in append_origin_descendants_from_last_commit f) = Ok (set_fin_blocks m f) ∧
    buffer_ok c (L ++ [e]) m.
Proof using Type.
  clear P J X.
  intros Heq (Hm & Ho & Hh) Hnd Hlk. destruct (last_commit f L e Heq) as (cs & Hcs & Hcm).
  unfold link_blocks_in_last_commit. rewrite Hcs. cbn [expect obind]. rewrite Hcm.
  assert (Hlk' : ∀ b, b ∈ by_round (sd_blocks e) → linkable c (commit_idx e) (fin_blocks f) b).
  { intros b Hb. apply Hlk. by rewrite <-by_round_perm. }
  destruct (link_blocks_ok c (commit_idx e) (by_round (sd_blocks e)) (fin_blocks f) Hm) as [Hm1 He];
    [by rewrite by_round_perm|apply by_round_sorted|done|].
  pose proof (extends_origins c _ _ _ _ Hm Hlk' He Ho) as Ho1. change (cref_index (sd_commit_ref e)) with (commit_idx e).
  set (m1 := foldl (link_block (commit_idx e)) (fin_blocks f) (by_round (sd_blocks e))) in *.
  unfold append_origin_descendants_from_last_commit. cbn [pending_commits set_fin_blocks fin_blocks]. rewrite Hcs. cbn [expect obind]. rewrite Hcm.
  destruct (append_all_origins c (by_round (sd_blocks e)) m1 _ Hm1 Ho1) as (m2 & -> & Hs & Ho2).
  { intros b Hb. rewrite by_round_perm in Hb. destruct (extends_known e _ m1 b Hnd Hlk He Hb) as (st & ? & ? & _). eauto. }
  cbn [obind]. exists m2. split; [done|]. split_and!; [by eapply graph_ok_same| |by eapply extends_holds].
  intros r st x Hr. rewrite (Ho2 r st x Hr). split; [tauto|]. intros [_ Ht]. split; [|done].
  assert (∃ st', m2 !! x = Some st') as [stx Hx] by (inversion Ht as [? ? (_ & _ & ? & ? & _)|? ? ? (_ & _ & ? & ? & _)]; eauto).
  destruct (same_graph_lookup _ _ _ _ (same_graph_sym _ _ Hs) Hx) as (sty & Hy & _).
  destruct (proj1 (proj2 He) _ _ Hy) as [?|(b & Hb & <- & _)]; [by left|]. right. by apply list_elem_of_fmap_2.
Qed.

(** *** Indirect decisions *)

Lemma set_first_twice cs1 cs2 f : set_first_commit cs2 (set_first_commit cs1 f) = set_first_commit cs2 f.
Proof. unfold set_first_commit, set_pending_commits. cbn. by rewrite list_insert_insert_eq. Qed.

Lemma set_first_lookup f cs cs' : pending_commits f !! 0%nat = Some cs → pending_commits (set_first_commit cs' f) !! 0%nat = Some cs'.
Proof. intros Hcs. cbn. apply list_lookup_insert_eq. by apply lookup_lt_Some in Hcs. Qed.

Lemma set_first_id f cs : pending_commits f !! 0%nat = Some cs → set_first_commit cs f = f.
Proof. intros Hcs. unfold set_first_commit, set_pending_commits. rewrite list_insert_id by done. by destruct f. Qed.

(** A quorum of the authors committed after the block accepts the transaction. *)
Definition accepted_after (f : CommitFinalizer) (e : CommittedSubDag) (r : BlockRef) (t : TransactionIndex) : Prop :=
  accept_quorum ctx (fin_blocks f) r
    (commit_gced (gc_rounds_of (calculate_gc_round d) (commits f)) (ref_round r) (commit_idx e)) t.

Lemma finalize_pending_spec f cs1 cs :
  committee_ok c → join_ok join → queue_ok (last_processed_commit f) (commits f) → buffer_ok c (commits f) (fin_blocks f) →
  pending_commits f !! 0%nat = Some cs → cst_commit cs1 = cst_commit cs →
  (∀ r, is_Some (pending_transactions cs1 !! r) → r ∈ reference <$> sd_blocks (cst_commit cs)) →
  ∃ l, try_indirect_finalize_pending_transactions_in_first_commit ctx join d (set_first_commit cs1 f) =
      Ok (set_first_commit (foldl remove_finalized cs1 l) f) ∧
    (∀ r t, listed l r t → accepted_after f (cst_commit cs) r t) ∧
    ((∀ l, is_Some (join l)) → ∀ r t, t ∈ pend cs1 r → accepted_after f (cst_commit cs) r t → listed l r t).
Proof.
  intros Hc Hjoin Hq (Hm & Ho & Hh) Hcs Hcm Hkeys. unfold try_indirect_finalize_pending_transactions_in_first_commit, vec_get.
  rewrite (set_first_lookup f cs) by done. cbn [expect obind].
  assert (Heq : commits (set_first_commit cs1 f) = commits f) by by apply (commits_insert f 0 cs). rewrite commit_gc_rounds_eq, Heq.
  change (fin_blocks (set_first_commit cs1 f)) with (fin_blocks f). set (pl := btree_iter (pending_transactions cs1)).
  assert (Hrun : ∀ p, p ∈ pl → ∃ F, try_indirect_finalize_pending_transactions_in_block ctx (fin_blocks f)
    (gc_rounds_of (calculate_gc_round d) (commits f)) p = Ok F ∧ ∀ t, t ∈ F ↔ t ∈ p.2 ∧ accepted_after f (cst_commit cs) p.1 t).
  { intros [r ts] Hp%elem_of_btree_iter. cbn [fst snd]. destruct (list_elem_of_fmap reference (sd_blocks (cst_commit cs)) r) as [Hx _].
    destruct (Hx (Hkeys r ltac:(by eexists))) as (b & -> & Hb).
    destruct (indirect_votes_spec ctx (fin_blocks f) (gc_rounds_of (calculate_gc_round d) (commits f)) (reference b) _ Hc
      (buffer_vote_graph ctx (calculate_gc_round d) _ (commits f) _ (cst_commit cs) b Hm Ho Hh Hq gc_mono
        ltac:(by rewrite list_lookup_fmap, Hcs) Hb) ts) as (F & -> & _ & HF). by exists F. }
  assert (H8 : BLOCKS_PER_INDIRECT_COMMIT_TASK ≠ 0%nat) by done.
  destruct (finalize_chunks_spec ctx (fin_blocks f) (gc_rounds_of (calculate_gc_round d) (commits f)) (accepted_after f (cst_commit cs)) pl Hrun
    (chunks (length pl) BLOCKS_PER_INDIRECT_COMMIT_TASK pl)) as (res & -> & Hres).
  { intros ch p Hch Hp. by eapply (lookup_chunks (length pl)). }
  cbn [obind]. rewrite chunks_concat in Hres by done. destruct (join res) as [res'|] eqn:Hj.
  - exists (concat res'). rewrite set_first_twice. assert (Hperm : ∀ r t, listed (concat res') r t ↔ listed (concat res) r t).
    { intros r t. unfold listed. apply Hjoin in Hj. split; intros (ts & Hin & Ht); exists ts; (split; [|done]);
        apply elem_of_concat in Hin as (z & Hz & ?); apply elem_of_concat; exists z; (split; [|done]); [by rewrite <-Hj|by rewrite Hj]. }
    split_and!; [done| |].
    + intros r t. rewrite Hperm, Hres. by intros (? & _ & _ & ?).
    + intros _ r t Ht Ha. rewrite Hperm, Hres. unfold pend in Ht. destruct (pending_transactions cs1 !! r) as [ts|] eqn:E; [|set_solver].
      exists ts. split_and!; [by apply elem_of_btree_iter|done|done].
  - exists []. split_and!; [done|by intros ? ? (? & ?%elem_of_nil & _)|]. intros Hall. destruct (Hall res) as [? ?]. congruence.
Qed.

Definition deepb (q : list CommittedSubDag) (e : CommittedSubDag) : bool :=
  match last q with Some e' => leader_round e + INDIRECT_REJECT_DEPTH <=? leader_round e' | None => false end.

Lemma deepb_spec q e : deepb q e = true ↔ deep q e.
Proof.
  unfold deepb, deep. destruct (last q) as [e'|]; [rewrite N.leb_le|]; split; [eauto|by intros (? & [= <-] & ?)|done|by intros (? & ? & _)].
Qed.

Lemma reject_first_spec f cs :
  queue_ok (last_processed_commit f) (commits f) → pending_commits f !! 0%nat = Some cs → pending_blocks cs = ∅ →
  try_indirect_reject_pending_transactions_in_first_commit f =
    Ok (set_first_commit (if deepb (commits f) (cst_commit cs) then reject_pending cs else cs) f).
Proof.
  intros Hq Hcs Hpb. unfold try_indirect_reject_pending_transactions_in_first_commit, vec_get. rewrite Hcs. cbn [expect obind].
  unfold deepb. rewrite fmap_last. destruct (last (pending_commits f)) as [lc|] eqn:Hlast; [|apply last_None in Hlast; by rewrite Hlast in Hcs].
  cbn [expect obind fmap option_fmap option_map].
  assert (Hk : commits f !! 0%nat = Some (cst_commit cs)) by by rewrite list_lookup_fmap, Hcs. destruct (qo_bound _ _ Hq _ _ Hk) as [_ Hb].
  rewrite u32_add_small by (unfold leader_round, INDIRECT_REJECT_DEPTH in *; width_lia). fold (leader_round (cst_commit cs)) (leader_round (cst_commit lc)).
  destruct (_ <=? _); [|by rewrite set_first_id]. rewrite rassert_true by by apply bool_decide_eq_true_2. done.
Qed.

(** The exact decision: [Fin] are the transactions a quorum accepts, when no task was cancelled. *)
Record first_decided (f : CommitFinalizer) (cs cs' : CommitState) (Fin : BlockRef → TransactionIndex → Prop) : Prop := {
  fd_commit : cst_commit cs' = cst_commit cs;
  fd_blocks : pending_blocks cs' = ∅;
  fd_keys r : is_Some (pending_transactions cs' !! r) → is_Some (pending_transactions cs !! r);
  fd_sound r t : Fin r t → accepted_after f (cst_commit cs) r t;
  fd_complete : (∀ l, is_Some (join l)) → ∀ r t, t ∈ pend cs r → ¬ reject_quorum ctx cert r t →
    accepted_after f (cst_commit cs) r t → Fin r t;
  fd_pend r t : t ∈ pend cs' r ↔ t ∈ pend cs r ∧ ¬ reject_quorum ctx cert r t ∧ ¬ Fin r t ∧ ¬ deep (commits f) (cst_commit cs);
  fd_rejd r t : t ∈ rejd cs' r ↔
    t ∈ rejd cs r ∨ (t ∈ pend cs r ∧ (reject_quorum ctx cert r t ∨ (¬ Fin r t ∧ deep (commits f) (cst_commit cs))));
  fd_deep : deep (commits f) (cst_commit cs) → pending_transactions cs' = ∅;
  fd_gone r t : t ∈ pend cs r → t ∈ pend cs' r ∨ t ∈ rejd cs' r ∨ Fin r t;
}.

Lemma finalize_first_spec f cs :
  committee_ok c → join_ok join → state_ok c P J X (commits f) f → pending_commits f !! 0%nat = Some cs → pending_blocks cs = ∅ →
  knows (cst_commit cs) → (∀ r t, P r t → has_vote cert r t) →
  ∃ cs' Fin, try_indirect_finalize_first_commit ctx join cert d f = Ok (set_first_commit cs' f) ∧ first_decided f cs cs' Fin.
Proof.
  intros Hc Hjoin [Hq Hbuf Hcss] Hcs Hpb Hkn HP. pose proof (Hcss cs (list_elem_of_lookup_2 _ _ _ Hcs)) as Hok.
  unfold try_indirect_finalize_first_commit. rewrite rassert_true by (apply bool_decide_eq_true_2; intros Hn; by rewrite Hn in Hcs). cbn [obind].
  unfold vec_get at 1. rewrite Hcs. cbn [expect obind]. rewrite rassert_true by by apply bool_decide_eq_true_2. cbn [obind].
  unfold check_pending_transactions_in_first_commit, vec_get. rewrite Hcs. cbn [expect obind].
  destruct (check_pending_spec ctx cert cs) as (cs1 & -> & Hcm1 & Hpb1 & Hk1 & Hp1 & Hr1).
  { intros r Hr. apply (cso_keys _ _ _ _ Hok) in Hr as (b & -> & Hb)%list_elem_of_fmap. by apply Hkn. }
  { intros r t Ht. by apply HP, (cso_pending _ _ _ _ Hok). }
  cbn [obind]. destruct (finalize_pending_spec f cs1 cs) as (l & -> & Hsound & Hcomplete); [done..| |].
  { intros r Hr. by apply (cso_keys _ _ _ _ Hok), Hk1. }
  cbn [obind]. destruct (remove_all_spec l cs1) as (Hcm2 & Hpb2 & Hrt2 & Hk2 & Hp2).
  set (cs2 := foldl remove_finalized cs1 l) in *.
  assert (Heq : commits (set_first_commit cs2 f) = commits f) by (apply (commits_insert f 0 cs); [done|congruence]).
  rewrite (reject_first_spec _ cs2); [|by rewrite Heq|by eapply set_first_lookup|congruence]. rewrite set_first_twice, Heq, Hcm2, Hcm1.
  assert (Hr2 : ∀ r, rejd cs2 r = rejd cs1 r) by (intros r; unfold rejd; by rewrite Hrt2).
  assert (Hdec : ∀ r t, t ∈ pend cs r → t ∈ rejd cs1 r ∨ (t ∈ pend cs1 r)).
  { intros r t Ht. destruct (decide (t ∈ rejd cs1 r)) as [|Hn]; [by left|]. right. apply Hp1. split; [done|]. intros Hrq. apply Hn, Hr1. auto. }
  assert (Hlist : ∀ r t, base.Decision (listed l r t)) by (intros r t; apply (decide_listed l r t)).
  eexists _, (listed l). split; [done|]. destruct (deepb (commits f) (cst_commit cs)) eqn:Hd.
  - destruct (reject_pending_spec cs2) as (Hcm3 & Hpb3 & Hpt3 & Hr3). apply deepb_spec in Hd.
    assert (Hp3 : ∀ r, pend (reject_pending cs2) r = ∅) by (intros r; unfold pend; by rewrite Hpt3).
    split; [congruence|congruence|rewrite Hpt3; by intros r [? ?]|done| | | |done|].
    + intros Hall r t Ht Hrq. apply Hcomplete; [done|]. by apply Hp1.
    + intros r t. rewrite Hp3. set_solver.
    + intros r t. rewrite Hr3, Hr2, Hr1, Hp2, Hp1. split; [tauto|]. intros [?|[Ht [?|[Hn _]]]]; [tauto..|].
      destruct (Hdec r t Ht) as [Hx%Hr1|Hx%Hp1]; [tauto|]. right. tauto.
    + intros r t Ht. destruct (Hlist r t); [tauto|]. right; left. rewrite Hr3, Hr2, Hp2. destruct (Hdec r t Ht); tauto.
  - assert (Hnd : ¬ deep (commits f) (cst_commit cs)) by (intros Hd'%deepb_spec; congruence).
    split; [congruence|congruence|auto|done| | | |done|].
    + intros Hall r t Ht Hrq. apply Hcomplete; [done|]. by apply Hp1.
    + intros r t. rewrite Hp2, Hp1. tauto.
    + intros r t. rewrite Hr2, Hr1. tauto.
    + intros r t Ht. destruct (Hlist r t); [tauto|]. rewrite Hp2, Hr2. destruct (Hdec r t Ht); tauto.
Qed.

(** *** The loop of indirect finalization *)

Lemma pop_state L rest f :
  state_ok c P J X L f → commits f = L ++ rest →
  ∃ popped f', pop_finalized_commits f = (f', output <$> popped) ∧ pending_commits f = popped ++ pending_commits f' ∧
    (∀ cs, cs ∈ popped → finalizedb cs = true ∧ commit_state_ok P J X cs) ∧
    (∀ cs, head (pending_commits f') = Some cs → finalizedb cs = false) ∧
    state_ok c P J X (drop (length popped) L) f' ∧ last_processed_commit f' = last_processed_commit f ∧ fin_blocks f' ⊆ fin_blocks f.
Proof.
  intros [Hq Hb Hcs] Heq. unfold pop_finalized_commits.
  destruct (pop_commits_spec c (last_processed_commit f) (pending_commits f) (fin_blocks f) L rest) as (popped & kept & m' & -> & Hpop & Hfin & Hhead & Hb' & Hsub);
    [done|by rewrite <-Heq|done|].
  exists popped, (mkCommitFinalizer (last_processed_commit f) kept m'). split_and!; [done..| |done| |done|done].
  - intros cs Hin. split; [by apply Hfin|]. apply Hcs. rewrite Hpop. set_solver.
  - split; cbn; [|done|intros cs Hin; apply Hcs; rewrite Hpop; set_solver].
    rewrite Hpop, fmap_app in Hq. apply queue_ok_drop with (n := length (cst_commit <$> popped)) in Hq. by rewrite drop_app_length in Hq.
Qed.

Lemma first_decided_settles f cs cs' Fin :
  pending_blocks cs = ∅ → first_decided f cs cs' Fin →
  settles (accepted_after f (cst_commit cs)) (λ r t, reject_quorum ctx cert r t ∨ deep (commits f) (cst_commit cs)) cs cs'.
Proof.
  intros Hpb Hd. split.
  - apply Hd.
  - rewrite (fd_blocks _ _ _ _ Hd). done.
  - apply Hd.
  - intros r t Ht%(fd_pend _ _ _ _ Hd). tauto.
  - intros r t Ht. destruct (fd_gone _ _ _ _ Hd r t Ht) as [?|[?|?]]; [by left|by right; left|]. right; right. by apply (fd_sound _ _ _ _ Hd).
  - intros r t Ht. apply (fd_rejd _ _ _ _ Hd). tauto.
  - intros r t Ht%(fd_rejd _ _ _ _ Hd). tauto.
Qed.

Section loop.
Context (Q : list CommittedSubDag).
Context (Hc : committee_ok c) (Hjoin : join_ok join) (Hknown : ∀ e, e ∈ Q → knows e).
Context (HP : ∀ r t, P r t → has_vote cert r t) (HX : ∀ e r t, reject_quorum ctx cert r t → X e r t).
Context (HJ : ∀ f e r t, (∀ x, x ∈ commits f → x ∈ Q) → buffer_ok c (commits f) (fin_blocks f) → accepted_after f e r t → J r t).
Context (HD : ∀ e r t, deep Q e → P r t → X e r t).

Lemma decided_ok f cs cs' Fin q1 :
  state_ok c P J X (commits f) f → Q = q1 ++ commits f → pending_commits f !! 0%nat = Some cs → pending_blocks cs = ∅ →
  first_decided f cs cs' Fin → commit_state_ok P J X cs'.
Proof.
  intros Hf HQ Hcs Hpb Hd. assert (Hne : commits f ≠ []) by (intros Hn%fmap_nil_inv; by rewrite Hn in Hcs).
  eapply commit_state_settles; [| |by eapply first_decided_settles|done|].
  - intros r t Ha. eapply HJ; [|apply Hf|exact Ha]. rewrite HQ. set_solver.
  - intros r t _ HPt [?|Hdeep]; [by apply HX|]. apply HD; [|done]. by apply (deep_suffix Q q1 (commits f)).
  - apply (so_commits _ _ _ _ _ _ Hf). by eapply list_elem_of_lookup_2.
Qed.

Definition none_deep (f : CommitFinalizer) : Prop := ∀ cs, cs ∈ pending_commits f → ¬ deep (commits f) (cst_commit cs).

Lemma head_not_deep f cs :
  state_ok c P J X (commits f) f → pending_commits f !! 0%nat = Some cs → ¬ deep (commits f) (cst_commit cs) → none_deep f.
Proof.
  intros Hf Hcs Hn x [k Hk]%list_elem_of_lookup Hd. apply Hn.
  eapply (deep_earlier _ _ 0 k); [apply Hf|lia|by rewrite list_lookup_fmap, Hcs|by rewrite list_lookup_fmap, Hk|done].
Qed.

Lemma indirect_loop_spec fuel : ∀ f out q1,
  (length (pending_commits f) < fuel)%nat → state_ok c P J X (commits f) f → Q = q1 ++ commits f →
  (∀ cs, cs ∈ pending_commits f → deep (commits f) (cst_commit cs) → pending_blocks cs = ∅) →
  ∃ f' popped, indirect_loop ctx fuel join cert d f out = Ok (f', out ++ (output <$> popped)) ∧
    state_ok c P J X (commits f') f' ∧ commits f = (cst_commit <$> popped) ++ commits f' ∧
    last_processed_commit f' = last_processed_commit f ∧
    (∀ cs, cs ∈ popped → finalizedb cs = true ∧ commit_state_ok P J X cs) ∧ none_deep f'.
Proof.
  induction fuel as [|fuel IH]; intros f out q1 Hfuel Hf HQ Hdeep; [lia|]. cbn [indirect_loop].
  assert (Hstop : none_deep f → ∃ f' popped, Ok (f, out) = Ok (f', out ++ (output <$> popped)) ∧ state_ok c P J X (commits f') f' ∧
    commits f = (cst_commit <$> popped) ++ commits f' ∧ last_processed_commit f' = last_processed_commit f ∧
    (∀ cs, cs ∈ popped → finalizedb cs = true ∧ commit_state_ok P J X cs) ∧ none_deep f').
  { intros Hn. exists f, []. rewrite app_nil_r. split_and!; [done..|set_solver|done]. }
  destruct (Nat.leb_spec (length (pending_commits f)) 1) as [Hlen|Hlen].
  { apply Hstop. intros cs Hin (e & He & Hle). destruct (pending_commits f) as [|x [|y l]]; [set_solver| |cbn in Hlen; lia].
    apply list_elem_of_singleton in Hin as ->. cbn in He. injection He as <-. unfold INDIRECT_REJECT_DEPTH in Hle. lia. }
  destruct (lookup_lt_is_Some_2 (pending_commits f) 0) as [cs Hcs]; [lia|]. unfold vec_get at 1. rewrite Hcs. cbn [expect obind].
  case_decide as Hpb.
  { apply Hstop. eapply head_not_deep; [done..|]. intros Hd. apply Hpb. apply Hdeep; [by eapply list_elem_of_lookup_2|done]. }
  assert (Hin : cst_commit cs ∈ commits f) by (apply list_elem_of_fmap_2; by eapply list_elem_of_lookup_2).
  destruct (finalize_first_spec f cs) as (cs' & Fin & -> & Hfd); [done..|apply Hknown; rewrite HQ; set_solver|done|]. cbn [obind].
  destruct (set_commit_ok (commits f) f 0 cs cs' Hf Hcs (fd_commit _ _ _ _ Hfd) (decided_ok f cs cs' Fin q1 Hf HQ Hcs Hpb Hfd)) as [Hf1 Heq1].
  fold (set_first_commit cs' f) in Hf1, Heq1. set (f1 := set_first_commit cs' f) in *.
  assert (Hf1s : pending_commits f1 !! 0%nat = Some cs') by by eapply set_first_lookup.
  destruct (pop_state (commits f) [] f1 Hf1) as (popped & f2 & -> & Hpop & Hfin & Hhead & Hf2 & Hlast2 & _); [by rewrite Heq1, app_nil_r|].
  assert (Heq2 : commits f = (cst_commit <$> popped) ++ commits f2) by by rewrite <-Heq1, Hpop, fmap_app.
  assert (Hlen2 : length (commits f) = (length popped + length (pending_commits f2))%nat) by (rewrite Heq2, length_app, !length_fmap; done).
  rewrite length_fmap in Hlen2.
  assert (Hf2' : state_ok c P J X (commits f2) f2) by (rewrite Heq2, drop_app_length' in Hf2; [done|by rewrite length_fmap]).
  destruct popped as [|cs0 popped]; cbn [fmap list_fmap].
  - cbn in Hpop. exists f2, []. rewrite app_nil_r. split_and!; [done|done|done|done|set_solver|].
    rewrite <-Hpop in Hhead. assert (Hh : head (pending_commits f1) = Some cs') by (rewrite <-Hf1s; by destruct (pending_commits f1)).
    specialize (Hhead cs' Hh). eapply head_not_deep; [done|rewrite <-Hpop; exact Hf1s|]. cbn in Heq2. rewrite <-Heq2, (fd_commit _ _ _ _ Hfd). intros Hd.
    unfold finalizedb in Hhead. rewrite (fd_blocks _ _ _ _ Hfd), (fd_deep _ _ _ _ Hfd Hd), !bool_decide_eq_true_2 in Hhead; done.
  - destruct (IH f2 (out ++ output cs0 :: (output <$> popped)) (q1 ++ (cst_commit <$> cs0 :: popped))) as (f' & more & -> & Hst & Heq & Hl & Hmore & Hnone).
    + cbn in Hlen2. lia.
    + done.
    + by rewrite HQ, Heq2, app_assoc.
    + intros x Hx Hd. assert (Hx1 : x ∈ pending_commits f1) by (rewrite Hpop; set_solver).
      apply list_elem_of_lookup in Hx1 as [k Hk]. destruct (decide (k = 0%nat)) as [->|Hk0].
      * rewrite Hf1s in Hk. injection Hk as <-. apply Hfd.
      * cbn in Hk. rewrite list_lookup_insert_ne in Hk by done. apply Hdeep; [by eapply list_elem_of_lookup_2|].
        apply (deep_suffix Q q1 (commits f)); [done|by intros Hn%fmap_nil_inv; rewrite Hn in Hcs|].
        apply (deep_suffix Q (q1 ++ (cst_commit <$> cs0 :: popped)) (commits f2)); [by rewrite HQ, Heq2, app_assoc| |done].
        intros Hn%fmap_nil_inv. rewrite Hn in Hx. set_solver.
    + exists f', (cs0 :: popped ++ more). split_and!; [|done| |by etrans; [exact Hl|exact Hlast2]| |done].
      * cbn. by rewrite fmap_app, <-app_assoc.
      * rewrite Heq2, Heq. cbn. by rewrite fmap_app, app_assoc.
      * intros x. rewrite elem_of_cons, elem_of_app. intros [->|[?|?]]; [apply Hfin; by left|apply Hfin; by right|by apply Hmore].
Qed.
End loop.
End run.

(** ** Processing a commit *)

Lemma commit_pending_lookup bs : ∀ (m0 : gmap BlockRef nat) r,
  is_Some (foldl (λ m b, <[reference b := length (block_transactions (vb_inner b))]> m) m0 bs !! r) ↔
  is_Some (m0 !! r) ∨ r ∈ reference <$> bs.
Proof.
  induction bs as [|b bs IH]; intros m0 r; cbn; [set_solver|]. rewrite IH, lookup_insert_is_Some', elem_of_cons. naive_solver.
Qed.

Lemma commit_state_new_ok P J X e :
  sd_blocks e ≠ [] → ∃ cs, commit_state_new e = Ok cs ∧ cst_commit cs = e ∧ commit_state_ok P J X cs.
Proof.
  intros Hb. unfold commit_state_new. set (m := foldl _ _ _).
  assert (Hm : ∀ r, is_Some (m !! r) ↔ r ∈ reference <$> sd_blocks e).
  { intros r. unfold m. rewrite commit_pending_lookup, lookup_empty. split; [intros [[? ?]|?]|]; [done|done|by right]. }
  assert (Hne : m ≠ ∅).
  { destruct (sd_blocks e) as [|b bs]; [done|]. intros Hn. destruct (proj2 (Hm (reference b))) as [? Hx]; [by left|]. by rewrite Hn in Hx. }
  rewrite rassert_true by by apply bool_decide_eq_true_2. cbn [obind]. eexists. split_and!; [done..|].
  split; cbn; [done|intros r Hr; by apply Hm|intros r _ Hr; by apply Hm|by intros r [? ?]|done..].
Qed.

(** The next commit: consecutive, with a later leader, of new blocks that the buffered blocks
    do not link to. *)
Record commit_follows (c : Committee) (f : CommitFinalizer) (e : CommittedSubDag) : Prop := {
  cf_next i : last_processed_commit f = Some i → commit_idx e = i + 1;
  cf_index : commit_idx e ≤ u32_max;
  cf_leader : leader_round e + 3 ≤ u32_max;
  cf_rising x : x ∈ commits f → leader_round x ≤ leader_round e;
  cf_blocks : sd_blocks e ≠ [];
  cf_refs : NoDup (reference <$> sd_blocks e);
  cf_ok b : b ∈ sd_blocks e → committed_block_ok c b;
  cf_causal b x b' : b ∈ sd_blocks e → x ∈ commits f → b' ∈ sd_blocks x →
    reference b ≠ reference b' ∧ reference b ∉ ancestors b';
}.

Lemma commit_linkable c f e b :
  queue_ok (last_processed_commit f) (commits f) → buffer_ok c (commits f) (fin_blocks f) → commit_follows c f e →
  b ∈ sd_blocks e → linkable c (commit_idx e) (fin_blocks f) b.
Proof.
  intros Hq (Hm & _ & Hh) He Hb.
  assert (Hcase : ∀ r st, fin_blocks f !! r = Some st → r = reference (bst_block st) ∧ reference b ≠ r ∧ (reference b ∉ ancestors (bst_block st)) ∧
    bst_commit_index st ≤ commit_idx e).
  { intros r st Hr. destruct (go_block _ _ Hm _ _ Hr) as [<- _]. destruct (ho_only _ _ Hh _ _ Hr) as (x & Hx & Hbx & ->).
    destruct (cf_causal _ _ _ He b x (bst_block st) Hb Hx Hbx). split_and!; [done..|]. apply list_elem_of_lookup in Hx as [k Hk].
    destruct (qo_index _ _ Hq _ _ Hk) as (i & Hi & Heq). rewrite (cf_next _ _ _ He i Hi). apply lookup_lt_Some in Hk. lia. }
  split; [|by apply (cf_ok _ _ _ He)|by intros r st (_ & _ & ? & _)%Hcase|by intros r st (_ & _ & _ & ?)%Hcase].
  destruct (fin_blocks f !! reference b) as [st|] eqn:E; [|done]. by apply Hcase in E as (_ & ? & _).
Qed.

Section process.
Context {S : Type} `{Store S} (ctx : Context) (join : TaskJoin) (cert : CertifierState) (d : DagState S).
Context (P J : BlockRef → TransactionIndex → Prop) (X : CommittedSubDag → BlockRef → TransactionIndex → Prop).
Abbreviation c := (committee ctx).
Context (f : CommitFinalizer) (e : CommittedSubDag).
Abbreviation Q := (commits f ++ [e]).
Context (Hc : committee_ok c) (Hjoin : join_ok join) (Hf : state_ok c P J X (commits f) f) (He : commit_follows c f e).
Context (Hknown : ∀ x, x ∈ Q → knows cert x) (HP : ∀ r t, P r t ↔ has_vote cert r t).
Context (HJ0 : ∀ r t, no_vote cert r t → J r t) (HX : ∀ x r t, reject_quorum ctx cert r t → X x r t).
Context (HJ : ∀ f' x r t, (∀ y, y ∈ commits f' → y ∈ Q) → buffer_ok c (commits f') (fin_blocks f') → accepted_after ctx d f' x r t → J r t).
Context (HD : ∀ x r t, deep Q x → P r t → X x r t).

Lemma buffered_authors x b : x ∈ Q → b ∈ sd_blocks x → (author b < committee_size c)%nat.
Proof.
  intros [Hx| ->%list_elem_of_singleton]%elem_of_app Hb; [|by apply (cf_ok _ _ _ He)].
  destruct (so_buffer _ _ _ _ _ _ Hf) as (Hm & _ & Hh). destruct (ho_known _ _ Hh x b Hx Hb) as (st & Hst & <- & _).
  by destruct (go_block _ _ Hm _ _ Hst) as [_ []].
Qed.

Lemma process_commit_spec :
  ∃ f' popped, process_commit ctx join cert d f e = Ok (f', output <$> popped) ∧
    state_ok c P J X (commits f') f' ∧ Q = (cst_commit <$> popped) ++ commits f' ∧
    last_processed_commit f' = Some (commit_idx e) ∧
    (∀ cs, cs ∈ popped → finalizedb cs = true ∧ commit_state_ok P J X cs) ∧ none_deep f'.
Proof.
  destruct Hf as [Hq Hb Hcss]. unfold process_commit. fold (commit_idx e).
  assert (Hnext : (match last_processed_commit f with
      | Some i => rassert (u32_add i 1 =? commit_idx e) "assertion `left == right` failed" | None => Ok tt end) = Ok tt).
  { destruct (last_processed_commit f) as [i|] eqn:Hi; [|done]. rewrite (cf_next _ _ _ He i Hi). apply rassert_true, N.eqb_eq.
    pose proof (cf_index _ _ _ He). rewrite (cf_next _ _ _ He i Hi) in *. machine. done. }
  rewrite Hnext. cbn [obind]. destruct (commit_state_new_ok P J X e (cf_blocks _ _ _ He)) as (cs & -> & Hcs & Hok). cbn [obind].
  set (f0 := mkCommitFinalizer _ _ _). assert (Heq0 : commits f0 = Q) by (cbn; by rewrite fmap_app, <-Hcs).
  assert (Hf0 : state_ok c P J X (commits f) f0).
  { split; [rewrite Heq0|done|cbn; intros x [Hx| ->%list_elem_of_singleton]%elem_of_app; auto].
    apply (queue_ok_snoc (last_processed_commit f)); [done|apply He..]. }
  destruct (direct_loop_spec ctx cert P J X (commits f) (length (pending_commits f0)) 0 f0)
    as (f1 & -> & Hf1 & Heq1 & Hl1 & Hm1 & Hdeep1); [done|done|done| |by intros r t ?%HP|done|done|by intros j x Hj; apply Nat.nlt_0_r in Hj|].
  { rewrite Heq0. intros x Hx. split; [by apply Hknown|]. intros b. by apply buffered_authors. }
  cbn [obind]. rewrite Heq0 in Heq1, Hdeep1.
  destruct (pop_state ctx P J X (commits f) [e] f1 Hf1 Heq1) as (popped & f2 & -> & Hpop & Hfin & Hhead & Hf2 & Hl2 & Hsub).
  assert (Heq2 : Q = (cst_commit <$> popped) ++ commits f2) by by rewrite <-Heq1, Hpop, fmap_app.
  assert (Hlen : (length (commits f) + 1 = length popped + length (pending_commits f2))%nat).
  { pose proof (f_equal length Heq2) as Hl. rewrite !length_app, !length_fmap in Hl. cbn in Hl. by rewrite length_fmap. }
  assert (Hlast2 : last_processed_commit f2 = Some (commit_idx e)) by (rewrite Hl2; exact Hl1).
  case_decide as Hempty.
  { exists f2, popped. split_and!; [done| |done|done|done|intros x; rewrite Hempty; set_solver].
    rewrite Hempty in Hlen |- *. rewrite drop_ge in Hf2 by (cbn in Hlen; lia). done. }
  assert (Heq2' : commits f2 = drop (length popped) (commits f) ++ [e]).
  { apply (app_inj_1 (cst_commit <$> popped) (take (length popped) (commits f))).
    - rewrite length_take, !length_fmap. rewrite length_fmap in Hlen. destruct (pending_commits f2); [done|]. cbn in Hlen. lia.
    - by rewrite <-Heq2, app_assoc, take_drop. }
  destruct (link_last_spec ctx f2 _ e Heq2' (so_buffer _ _ _ _ _ _ Hf2) (cf_refs _ _ _ He)) as (m & Hlink & Hm).
  { intros b Hbe. eapply linkable_subseteq; [exact Hsub|]. rewrite Hm1. exact (commit_linkable c f e b Hq Hb He Hbe). }
  rewrite <-Heq2' in Hm. destruct (link_blocks_in_last_commit f2) as [f3|?|]; [|done|done]. cbn [obind] in Hlink |- *. rewrite Hlink. cbn [obind].
  destruct (indirect_loop_spec ctx join cert d P J X Q Hc Hjoin Hknown ltac:(by intros r t ?%HP) HX HJ HD
    (Datatypes.S (length (pending_commits (set_fin_blocks m f2)))) (set_fin_blocks m f2) (output <$> popped) (cst_commit <$> popped))
    as (f' & more & -> & Hst & Heq & Hl & Hmore & Hnone); [lia| |done| |].
  - split; [apply Hf2|done|apply Hf2].
  - intros x Hx Hd. apply Hdeep1; [rewrite Hpop; set_solver|].
    apply (deep_suffix Q (cst_commit <$> popped) (commits f2) _ Heq2); [by intros Hn%fmap_nil_inv|done].
  - exists f', (popped ++ more). rewrite !fmap_app. split_and!; [done|done| |etrans; [exact Hl|done]| |done].
    + rewrite Heq2. change (commits (set_fin_blocks m f2)) with (commits f2) in Heq. by rewrite Heq, app_assoc.
    + intros x [?|?]%elem_of_app; auto.
Qed.
End process.
