(* ===== verification/FinalizerTraces.v ===== *)
(** * Runs of the commit finalizer

    Commits processed one after the other, each with the votes the certifier knows at that
    time.  Such a run never panics, outputs the commits in order and with every transaction
    decided for a reason, and never keeps a commit once a leader three rounds above it is
    committed.  The last part shows what a cancelled task does. *)

From S2P Require Import Prelude Collections Weighted Committee Types Fixtures Commits StakeAggregator.
From S2P Require Import ThresholdClock LeaderScoring Storage DagState DagStateSpec DagTraversal DagRecovery BaseCommitter Errors.
From S2P Require Import BlockVerifier TransactionCertifier CommitFinalizer FinalizerVotes FinalizerGraph FinalizerDecisions.
From S2P Require Import CommitFinalizerSpec.

Local Open Scope N_scope.

(** ** Votes of committed blocks *)

(** [b] links, through committed blocks, to the block [r]. *)
Definition descends (blocks : list VerifiedBlock) (r : BlockRef) (b : VerifiedBlock) : Prop :=
  tc (λ x y, ∃ b', b' ∈ blocks ∧ reference b' = y ∧ x ∈ ancestors b') r (reference b).

(** [b] does not reject the transaction [t] of the block [r]. *)
Definition accepts (b : VerifiedBlock) (r : BlockRef) (t : TransactionIndex) : Prop :=
  t ∉ default ∅ (reject_votes (block_state_new b 0) !! r).

(** A quorum of authors has committed blocks above [r] that accept [t]. *)
Definition committed_accept (c : Committee) (blocks : list VerifiedBlock) (r : BlockRef) (t : TransactionIndex) : Prop :=
  ∃ A : gset AuthorityIndex, quorum_threshold c ≤ set_stake c A ∧
    ∀ a, a ∈ A → ∃ b, b ∈ blocks ∧ author b = a ∧ descends blocks r b ∧ accepts b r t.

Abbreviation blocks_of inp := (concat (sd_blocks <$> inp)).

Lemma elem_of_blocks inp b : b ∈ blocks_of inp ↔ ∃ e, e ∈ inp ∧ b ∈ sd_blocks e.
Proof.
  rewrite elem_of_concat. split.
  - intros (l & (e & -> & He)%list_elem_of_fmap & Hb). eauto.
  - intros (e & He & Hb). exists (sd_blocks e). split; [by apply list_elem_of_fmap_2|done].
Qed.

Lemma descends_mono blocks blocks' r b : blocks ⊆ blocks' → descends blocks r b → descends blocks' r b.
Proof. intros Hsub Hd. eapply tc_congruence with (f := id); [|exact Hd]. intros x y (b' & ? & ? & ?). exists b'. auto. Qed.

Lemma committed_accept_mono c blocks blocks' r t :
  blocks ⊆ blocks' → committed_accept c blocks r t → committed_accept c blocks' r t.
Proof.
  intros Hsub (A & Hq & HA). exists A. split; [done|]. intros a Ha. destruct (HA a Ha) as (b & ? & ? & ? & ?).
  exists b. split_and!; [auto..|by eapply descends_mono|done].
Qed.

(** The votes the search counts are votes of committed blocks. *)
Lemma accepted_committed {S} ctx (d : DagState S) f e r t inp :
  (∀ x, x ∈ commits f → x ∈ inp) → buffer_ok (committee ctx) (commits f) (fin_blocks f) → accepted_after ctx d f e r t →
  committed_accept (committee ctx) (blocks_of inp) r t.
Proof.
  intros Hinp (Hm & _ & Hh) (A & HA & Hq). exists A. split; [done|]. intros a Ha. destruct (HA a Ha) as (x & <- & Hx & _ & _ & Hrej).
  assert (Hblk : ∀ y st, fin_blocks f !! y = Some st → bst_block st ∈ blocks_of inp).
  { intros y st Hy. apply elem_of_blocks. destruct (ho_only _ _ Hh _ _ Hy) as (e' & ? & ? & _). eauto. }
  assert (Hlink : ∀ y z, links (fin_blocks f) y z → ∃ st, fin_blocks f !! z = Some st ∧ y ∈ ancestors (bst_block st)).
  { intros y z (st & Hy & Hz). by apply (go_children _ _ Hm _ _ _ Hy) in Hz. }
  assert (Hknown : ∀ y z, tc (links (fin_blocks f)) y z → ∃ st, fin_blocks f !! z = Some st).
  { induction 1 as [y z Hl|]; [|done]. destruct (Hlink _ _ Hl) as (? & ? & _). eauto. }
  destruct (Hknown _ _ Hx) as [st Hst].
  destruct (go_block _ _ Hm _ _ Hst) as [Href _]. exists (bst_block st). split_and!; [by eapply Hblk|by rewrite <-Href| |].
  - unfold descends. rewrite Href. eapply tc_congruence with (f := id); [|exact Hx].
    intros y z (sz & Hz & Hy)%Hlink. exists (bst_block sz). split_and!; [by eapply Hblk| |done]. by apply (go_block _ _ Hm).
  - unfold accepts. rewrite <-(go_rejects _ _ Hm _ _ Hst). unfold rejects_of in Hrej. by rewrite Hst in Hrej.
Qed.

(** ** Why transactions are accepted and rejected *)

Definition accept_reason (ctx : Context) (certs : list CertifierState) (inp : list CommittedSubDag)
    (r : BlockRef) (t : TransactionIndex) : Prop :=
  (∃ cert, cert ∈ certs ∧ no_vote cert r t) ∨ committed_accept (committee ctx) (blocks_of inp) r t.

Definition reject_reason (ctx : Context) (certs : list CertifierState) (inp : list CommittedSubDag)
    (e : CommittedSubDag) (r : BlockRef) (t : TransactionIndex) : Prop :=
  (∃ cert, cert ∈ certs ∧ reject_quorum ctx cert r t) ∨
  ((∃ cert, cert ∈ certs ∧ has_vote cert r t) ∧ ∃ e', e' ∈ inp ∧ leader_round e + INDIRECT_REJECT_DEPTH ≤ leader_round e').

Lemma commit_state_mono (P P' J J' : BlockRef → TransactionIndex → Prop) (X X' : CommittedSubDag → BlockRef → TransactionIndex → Prop) cs :
  (∀ r t, t ∈ pend cs r → P r t → P' r t) → (∀ r t, J r t → J' r t) → (∀ e r t, X e r t → X' e r t) →
  commit_state_ok P J X cs → commit_state_ok P' J' X' cs.
Proof.
  intros HP HJ HX []. split; auto.
Qed.

(** ** Runs *)

(** The certifier still has the votes on the transactions that are pending. *)
Definition votes_kept (cert : CertifierState) (f : CommitFinalizer) : Prop :=
  ∀ cs r t, cs ∈ pending_commits f → t ∈ pend cs r → has_vote cert r t.

Record next_commit (ctx : Context) (cert : CertifierState) (f : CommitFinalizer) (e : CommittedSubDag) : Prop := {
  nc_follows : commit_follows (committee ctx) f e;
  nc_known x : x ∈ commits f ++ [e] → knows cert x;
  nc_votes : votes_kept cert f;
  nc_fresh : rejected_transactions_by_block e = ∅;
}.

(** The states of the certifier and the commits given to the finalizer, and its output. *)
Inductive finalizer_run {S} `{Store S} (ctx : Context) : list CertifierState → list CommittedSubDag →
    CommitFinalizer → list CommittedSubDag → Prop :=
| run_start : finalizer_run ctx [] [] commit_finalizer_new []
| run_step certs inp f out join cert (d : DagState S) e f' new :
    finalizer_run ctx certs inp f out → next_commit ctx cert f e → join_ok join →
    process_commit ctx join cert d f e = Ok (f', new) →
    finalizer_run ctx (certs ++ [cert]) (inp ++ [e]) f' (out ++ new).

Section runs.
Context {S : Type} `{Store S} (ctx : Context) (Hc : committee_ok (committee ctx)).
Abbreviation c := (committee ctx).

Definition run_inv (certs : list CertifierState) (inp : list CommittedSubDag) (f : CommitFinalizer) (popped : list CommitState) : Prop :=
  (∃ P, state_ok c P (accept_reason ctx certs inp) (reject_reason ctx certs inp) (commits f) f) ∧
  inp = (cst_commit <$> popped) ++ commits f ∧ none_deep f ∧
  (∀ e, e ∈ inp → rejected_transactions_by_block e = ∅) ∧
  (∀ cs, cs ∈ popped → finalizedb cs = true ∧
    commit_state_ok (λ _ _, True) (accept_reason ctx certs inp) (reject_reason ctx certs inp) cs).

Lemma run_inv_start : run_inv [] [] commit_finalizer_new [].
Proof.
  split_and!; [|done|intros ?; set_solver|intros ?; set_solver|intros ?; set_solver]. exists (λ _ _, True).
  split; [split; by intros|apply buffer_ok_empty|intros ?; set_solver].
Qed.

Lemma reasons_mono certs cert inp e :
  (∀ r t, accept_reason ctx certs inp r t → accept_reason ctx (certs ++ [cert]) (inp ++ [e]) r t) ∧
  (∀ x r t, reject_reason ctx certs inp x r t → reject_reason ctx (certs ++ [cert]) (inp ++ [e]) x r t).
Proof.
  assert (Hb : blocks_of inp ⊆ blocks_of (inp ++ [e])) by (intros b (x & ? & ?)%elem_of_blocks; apply elem_of_blocks; exists x; set_solver).
  split.
  - intros r t [(k & ? & ?)|Ha]; [left; exists k; set_solver|right; by eapply committed_accept_mono].
  - intros x r t [(k & ? & ?)|[(k & ? & ?) (e' & ? & ?)]]; [left; exists k; set_solver|]. right. split; [exists k|exists e']; set_solver.
Qed.

(** One more commit: it is processed, and the invariant holds of the result. *)
Lemma run_inv_step certs inp f popped join cert (d : DagState S) e :
  run_inv certs inp f popped → next_commit ctx cert f e → join_ok join →
  ∃ f' more, process_commit ctx join cert d f e = Ok (f', output <$> more) ∧ run_inv (certs ++ [cert]) (inp ++ [e]) f' (popped ++ more).
Proof.
  intros ([P [Hq Hb Hcs]] & Hinp & Hnd & Hrej & Hpop) [Hfol Hkn Hvotes Hfresh] Hjoin.
  destruct (reasons_mono certs cert inp e) as [HJm HXm].
  assert (Hsub : ∀ x, x ∈ commits f ++ [e] → x ∈ inp ++ [e]) by (rewrite Hinp; set_solver).
  destruct (process_commit_spec ctx join cert d (has_vote cert) (accept_reason ctx (certs ++ [cert]) (inp ++ [e]))
    (reject_reason ctx (certs ++ [cert]) (inp ++ [e])) f e) as (f' & more & -> & Hst & HQ & _ & Hmore & Hnone); try done.
  - split; [done..|]. intros cs Hin. eapply (commit_state_mono P); [by intros r t Ht _; eapply Hvotes|exact HJm|exact HXm|by apply Hcs].
  - intros r t Hn. left. exists cert. set_solver.
  - intros x r t Hn. left. exists cert. set_solver.
  - intros f0 x r t Hin Hbuf Ha. right. eapply accepted_committed; [|done|done]. intros y Hy. by apply Hsub, Hin.
  - intros x r t (z & Hz & Hle) Hv. right. split; [exists cert; set_solver|]. exists z. split; [|done].
    apply Hsub. apply last_Some in Hz as (l & ->). set_solver.
  - exists f', more. split; [done|]. split_and!; [by eexists| |done| |].
    + by rewrite Hinp, <-app_assoc, HQ, fmap_app, <-app_assoc.
    + intros x [Hx| ->%list_elem_of_singleton]%elem_of_app; [by apply Hrej|done].
    + intros cs [Hin|Hin]%elem_of_app.
      * destruct (Hpop cs Hin) as [? Hok]. split; [done|]. exact (commit_state_mono _ _ _ _ _ _ cs (λ _ _ _ _, I) HJm HXm Hok).
      * destruct (Hmore cs Hin) as [? Hok]. split; [done|]. exact (commit_state_mono _ _ _ _ _ _ cs (λ _ _ _ _, I) (λ _ _ h, h) (λ _ _ _ h, h) Hok).
Qed.

Lemma finalizer_run_inv certs inp f out :
  finalizer_run ctx certs inp f out → ∃ popped, out = output <$> popped ∧ run_inv certs inp f popped.
Proof.
  induction 1 as [|certs inp f out join cert d e f' new _ (popped & -> & Hinv) Hnext Hjoin Hrun].
  { exists []. split; [done|apply run_inv_start]. }
  destruct (run_inv_step certs inp f popped join cert d e Hinv Hnext Hjoin) as (f2 & more & Hrun' & Hinv').
  rewrite Hrun in Hrun'. injection Hrun' as -> ->. exists (popped ++ more). by rewrite fmap_app.
Qed.
End runs.

(** ** The output of a run *)

(** A commit without the record of its rejected transactions. *)
Definition body (e : CommittedSubDag) : CommittedSubDag :=
  mkCommittedSubDag (sd_leader e) (sd_blocks e) (sd_timestamp_ms e) (sd_commit_ref e) (decided_with_local_blocks e)
    (recovered_rejected_transactions e) (sd_reputation_scores_desc e) ∅.

Lemma body_output cs : rejected_transactions_by_block (cst_commit cs) = ∅ → body (output cs) = cst_commit cs.
Proof. unfold body, output, with_rejected. destruct (cst_commit cs). cbn. by intros ->. Qed.

Lemma fold_rejected_lookup (l : list (BlockRef * gset TransactionIndex)) : ∀ (m : gmap BlockRef (list TransactionIndex)) r,
  NoDup l.*1 →
  foldl (λ m '(r, ts), <[r := bset_iter ts]> m) m l !! r =
    match list_find (λ p, p.1 = r) l with Some (_, (_, ts)) => Some (bset_iter ts) | None => m !! r end.
Proof.
  induction l as [|[x ts] l IH]; intros m r Hnd; cbn [foldl]; [done|]. cbn in Hnd. apply NoDup_cons in Hnd as [Hx Hnd].
  rewrite IH by done. cbn [list_find]. case_decide as Hd; cbn in Hd.
  - subst x. assert (list_find (λ p : BlockRef * gset TransactionIndex, p.1 = r) l = None) as ->; [|by rewrite lookup_insert_eq].
    apply list_find_None, Forall_forall. intros p Hp Heq. apply Hx. rewrite <-Heq. by apply list_elem_of_fmap_2.
  - rewrite lookup_insert_ne by done. destruct (list_find _ l) as [[? [? ?]]|]; done.
Qed.

Lemma output_rejected cs r t :
  rejected_transactions_by_block (cst_commit cs) = ∅ →
  t ∈ default [] (rejected_transactions_by_block (output cs) !! r) ↔ t ∈ rejd cs r.
Proof.
  intros H0. unfold output, with_rejected, rejd. cbn [rejected_transactions_by_block]. rewrite H0, fold_rejected_lookup by apply NoDup_btree_iter.
  destruct (list_find _ _) as [[i [x ts]]|] eqn:E.
  - apply list_find_Some in E as (Hi & Hx & _). cbn in Hx. subst x. apply list_elem_of_lookup_2, elem_of_btree_iter in Hi. rewrite Hi. cbn.
    apply elem_of_bset_iter.
  - rewrite lookup_empty. destruct (cst_rejected cs !! r) as [ts|] eqn:Hr; [|cbn; set_solver].
    apply list_find_None in E. rewrite Forall_forall in E. by destruct (E (r, ts) ltac:(by apply elem_of_btree_iter)).
Qed.

Section theorems.
Context {S : Type} `{Store S} (ctx : Context).
Abbreviation c := (committee ctx).




(** No commit waits for long: when a commit is processed, every commit whose
    leader is three or more rounds below its leader has been output. *)
Theorem finalizer_latency certs inp f out e e' :
  committee_ok c → finalizer_run (S := S) ctx certs inp f out → last inp = Some e' → e ∈ commits f →
  leader_round e' < leader_round e + INDIRECT_REJECT_DEPTH.
Proof.
  intros Hc Hrun Hlast He. destruct (finalizer_run_inv ctx Hc _ _ _ _ Hrun) as (popped & -> & _ & Hinp & Hnone & _).
  apply list_elem_of_fmap in He as (cs & -> & Hcs). apply N.nle_gt. intros Hle. apply (Hnone cs Hcs).
  exists e'. split; [|done]. rewrite Hinp, last_app in Hlast. destruct (last (commits f)) eqn:E; [done|].
  apply last_None, fmap_nil_inv in E. rewrite E in Hcs. set_solver.
Qed.

Lemma reject_quorum_dec cert r t : base.Decision (reject_quorum ctx cert r t).
Proof.
  destruct (get_reject_votes cert r) as [votes|] eqn:Hv; [|right; intros (? & ? & Hv' & _); congruence].
  destruct (decide (Exists (λ p, p.1 = t ∧ quorum_threshold c ≤ p.2) votes)) as [Hy|Hn]; [left|right].
  - apply Exists_exists in Hy as ([t' s] & Hin & <- & Hq). by exists votes, s.
  - intros (votes' & s & Hv' & Hin & Hq). rewrite Hv in Hv'. injection Hv' as <-. apply Hn, Exists_exists. by exists (t, s).
Qed.

End theorems.

(** ** Witnesses *)

Section checks.
Context (ctx : Context) (cert : CertifierState) (f : CommitFinalizer) (e : CommittedSubDag).
Abbreviation c := (committee ctx).

Definition committed_blockb (b : VerifiedBlock) : bool :=
  (author b <? committee_size c)%nat && negb (bool_decide (ancestors b = [])) && forallb (λ a, ref_round a <? round b) (ancestors b).

Definition commit_followsb : bool :=
  match last_processed_commit f with Some i => commit_idx e =? i + 1 | None => true end &&
  (commit_idx e <=? u32_max) && (leader_round e + 3 <=? u32_max) &&
  forallb (λ x, leader_round x <=? leader_round e) (commits f) &&
  negb (bool_decide (sd_blocks e = [])) && bool_decide (NoDup (reference <$> sd_blocks e)) &&
  forallb committed_blockb (sd_blocks e) &&
  forallb (λ b, forallb (λ x, forallb (λ b',
    bool_decide (reference b ≠ reference b' ∧ reference b ∉ ancestors b')) (sd_blocks x)) (commits f)) (sd_blocks e).

Definition knowsb (x : CommittedSubDag) : bool :=
  forallb (λ b, bool_decide (is_Some (cs_votes cert !! reference b))) (sd_blocks x).

Definition has_voteb (r : BlockRef) (t : TransactionIndex) : bool :=
  match get_reject_votes cert r with Some votes => bool_decide (t ∈ votes.*1) | None => false end.

Definition votes_keptb : bool :=
  forallb (λ cs, forallb (λ p, forallb (has_voteb p.1) (elements p.2)) (map_to_list (pending_transactions cs))) (pending_commits f).

Definition next_commitb : bool :=
  commit_followsb && forallb knowsb (commits f ++ [e]) && votes_keptb && bool_decide (rejected_transactions_by_block e = ∅).

Lemma forallb_elem {A} (g : A → bool) l : forallb g l = true ↔ ∀ x, x ∈ l → g x = true.
Proof. rewrite forallb_forall. by setoid_rewrite <-list_elem_of_In. Qed.

Lemma committed_blockb_sound b : committed_blockb b = true → committed_block_ok c b.
Proof.
  unfold committed_blockb. rewrite !andb_true_iff, negb_true_iff, bool_decide_eq_false, forallb_elem.
  intros [[Ha%Nat.ltb_lt Hn] Hr]. split; [done..|]. intros a Ha'. by apply N.ltb_lt, Hr.
Qed.

Lemma commit_followsb_sound : commit_followsb = true → commit_follows c f e.
Proof.
  unfold commit_followsb. rewrite !andb_true_iff, !forallb_elem, negb_true_iff, bool_decide_eq_false, bool_decide_eq_true.
  intros [[[[[[[Hn Hi%N.leb_le] Hl%N.leb_le] Hr] Hb] Hnd] Hok] Hca]. split; try done.
  - intros i Hi'. rewrite Hi' in Hn. by apply N.eqb_eq.
  - intros x Hx. by apply N.leb_le, Hr.
  - intros b Hbe. by apply committed_blockb_sound, Hok.
  - intros b x b' Hbe Hx Hb'. specialize (Hca b Hbe). rewrite forallb_elem in Hca. specialize (Hca x Hx).
    rewrite forallb_elem in Hca. specialize (Hca b' Hb'). by apply bool_decide_eq_true in Hca.
Qed.

Lemma votes_keptb_sound : votes_keptb = true → votes_kept cert f.
Proof.
  unfold votes_keptb. rewrite forallb_elem. intros Hv cs r t Hcs Ht. specialize (Hv cs Hcs).
  rewrite forallb_elem in Hv. unfold pend in Ht. destruct (pending_transactions cs !! r) as [ts|] eqn:E; [|set_solver].
  specialize (Hv (r, ts) ltac:(by apply elem_of_map_to_list)). rewrite forallb_elem in Hv. cbn in Ht, Hv.
  specialize (Hv t ltac:(by apply elem_of_elements)). unfold has_voteb in Hv. destruct (get_reject_votes cert r) as [votes|] eqn:Hg; [|done].
  exists votes. split; [done|]. by apply bool_decide_eq_true in Hv.
Qed.

Lemma knowsb_sound x : knowsb x = true → knows cert x.
Proof. unfold knowsb. rewrite forallb_elem. intros Hk b Hb. specialize (Hk b Hb). by apply bool_decide_eq_true in Hk. Qed.

Lemma next_commitb_sound : next_commitb = true → next_commit ctx cert f e.
Proof.
  unfold next_commitb. rewrite !andb_true_iff, forallb_elem, bool_decide_eq_true. intros [[[Hf Hk] Hv] Hr].
  split; [by apply commit_followsb_sound|intros x Hx; by apply knowsb_sound, Hk|by apply votes_keptb_sound|done].
Qed.
End checks.

(** A block with a transaction that authority 3 rejects and the others accept, and the
    blocks of the rounds above it, up to the leader of round 4. *)
Definition voting_block (r : Round) (a : AuthorityIndex) (anc : list BlockRef) (txs : list Transaction)
    (votes : list BlockTransactionVotes) : VerifiedBlock :=
  mkVerifiedBlock (mkSignedBlock (V2 (mkBlockV2 0 r a 0 anc txs votes [] [] None [])) []) (100 * r + N.of_nat a) [].

Definition contested : VerifiedBlock := voting_block 1 0 [layer_ref 0 0; layer_ref 0 1; layer_ref 0 2] [mkTransaction [1]] [].
Definition accepting (a : AuthorityIndex) : VerifiedBlock := voting_block 2 a [layer_ref 1 a; reference contested] [] [].
Definition rejecting : VerifiedBlock :=
  voting_block 2 3 [layer_ref 1 3; reference contested] [] [mkBlockTransactionVotes (reference contested) [0]].
Definition round3 : VerifiedBlock := voting_block 3 1 (reference <$> [accepting 1; accepting 0; accepting 2; rejecting]) [] [].
Definition leader4 : VerifiedBlock := voting_block 4 2 (reference <$> [accepting 2; round3]) [] [].

Definition sub_dag (i : CommitIndex) (leader : VerifiedBlock) (blocks : list VerifiedBlock) : CommittedSubDag :=
  committed_sub_dag_new (reference leader) blocks 0 (mkCommitRef i i).
Definition commit1 : CommittedSubDag := sub_dag 1 contested [contested].
Definition commit2 : CommittedSubDag := sub_dag 2 leader4 [accepting 0; accepting 1; accepting 2; rejecting; round3; leader4].

Definition cert4 : CertifierState :=
  match add_voted_blocks context4 certifier_state_new ((λ b, (b, [])) <$> sd_blocks commit1 ++ sd_blocks commit2) with
  | Ok (s, _) => s
  | _ => certifier_state_new
  end.

(** The tasks are joined in the reverse order. *)
Definition join_reverse : TaskJoin := λ l, Some (reverse l).
Lemma join_reverse_ok : join_ok join_reverse ∧ ∀ l, is_Some (join_reverse l).
Proof. split; [intros l l' [= <-]; apply reverse_Permutation|by eexists]. Qed.

(** The finalizer after the first commit: its transaction is pending. *)
Definition buffered1 : CommitFinalizer :=
  match process_commit context4 join_reverse cert4 grown4 commit_finalizer_new commit1 with Ok (f, _) => f | _ => commit_finalizer_new end.

Lemma buffered1_run : process_commit context4 join_reverse cert4 grown4 commit_finalizer_new commit1 = Ok (buffered1, []).
Proof. vm_compute. reflexivity. Qed.

Lemma buffered1_reached : finalizer_run (S := Inner) context4 [cert4] [commit1] buffered1 [].
Proof.
  apply (run_step context4 [] [] commit_finalizer_new [] join_reverse cert4 grown4 commit1 buffered1 []);
    [apply run_start|apply next_commitb_sound; vm_compute; reflexivity|apply join_reverse_ok|apply buffered1_run].
Qed.

Lemma commit2_next : next_commit context4 cert4 buffered1 commit2.
Proof. apply next_commitb_sound. vm_compute. reflexivity. Qed.

(** The second commit decides the transaction: three of four authorities accept it. *)
Definition decided2 : CommitFinalizer * list CommittedSubDag :=
  match process_commit context4 join_reverse cert4 grown4 buffered1 commit2 with Ok r => r | _ => (buffered1, []) end.

Lemma decided2_reached :
  finalizer_run (S := Inner) context4 [cert4; cert4] [commit1; commit2] decided2.1 decided2.2.
Proof.
  apply (run_step context4 [cert4] [commit1] buffered1 [] join_reverse cert4 grown4 commit2 decided2.1 decided2.2);
    [apply buffered1_reached|apply commit2_next|apply join_reverse_ok|vm_compute; reflexivity].
Qed.




Lemma finalizer_latency_witness : leader_round commit1 < leader_round commit1 + INDIRECT_REJECT_DEPTH.
Proof.
  apply (finalizer_latency context4 [cert4] [commit1] buffered1 [] commit1 commit1 committee4_ok buffered1_reached eq_refl).
  assert (commits buffered1 = [commit1]) as -> by (vm_compute; reflexivity). apply list_elem_of_here.
Defined.

Definition first1 : CommitState :=
  match pending_commits buffered1 with cs :: _ => cs | [] => mkCommitState commit1 ∅ ∅ ∅ end.


(** ** A cancelled task

    The vote counting tasks of the first commit are cancelled when the runtime shuts down.
    [try_indirect_finalize_pending_transactions_in_first_commit] then returns without having
    looked at their blocks, and its caller goes on to reject what is still pending. *)
Definition cancelled : TaskJoin := λ _, None.

