(* ===== verification/TransactionConsumer.v ===== *)
(** * Submission and consumption of transactions ([core/src/transaction.rs])

    Clients submit bundles of transactions through a channel; the consumer packs them
    into blocks within the limits of the protocol, acknowledges their positions once the
    block exists, and reports what became of the block.  The theorems: bundles are taken
    in order and none is lost, the packed transactions pass the checks of the block
    verifier, every submitter is told the positions of its transactions, and every
    waiting submitter is answered once its block is committed or garbage collected. *)

From S2P Require Import Prelude Collections Weighted Committee Types Fixtures Commits StakeAggregator.
From S2P Require Import Storage DagState DagStateSpec Errors BlockVerifier.

Local Open Scope N_scope.

(** ** Data *)

Definition u16_max : N := 65535.
Definition NUM_RESERVED_TRANSACTION_INDICES : TransactionIndex := 8.
Definition PING_TRANSACTION_INDEX : TransactionIndex := u16_max.

(** A bundle with the channel on which its submitter waits.  The channels of one
    submission (inclusion and block status) are named by one number. *)
Abbreviation Submitter := nat (only parsing).
Record TransactionsGuard := mkTransactionsGuard {
  guard_transactions : list Transaction;
  included_in_block_ack : Submitter;
}.

Inductive BlockStatus :=
| Sequenced (r : BlockRef)
| GarbageCollected (r : BlockRef).

Inductive LimitReached :=
| MaxNumOfTransactions
| MaxBytes
| AllTransactionsIncluded.

Inductive ClientError :=
| ConsensusShuttingDown (reason : string)
| OversizedTransaction (size limit : N)
| OversizedTransactionBundleBytes (size limit : N)
| OversizedTransactionBundleCount (count limit : N).

Record TransactionConsumer := mkTransactionConsumer {
  tx_receiver : list TransactionsGuard;
  consumer_max_bytes : N;
  consumer_max_count : N;
  pending_transactions : option TransactionsGuard;
  block_status_subscribers : gmap BlockRef (list Submitter);
}.

Definition transaction_consumer_new (ctx : Context) (tx_receiver : list TransactionsGuard) :
    outcome TransactionConsumer :=
  let p := protocol_config ctx in
  do! rassert (saturating_sub (max_num_transactions_in_block p) 1 <?
               saturating_sub u16_max NUM_RESERVED_TRANSACTION_INDICES)
    "Unsupported max_num_transactions_in_block" in
  Ok (mkTransactionConsumer tx_receiver (max_transactions_in_block_bytes p) (max_num_transactions_in_block p) None ∅).

(** ** Packing a block *)

Definition bundle_bytes (l : list Transaction) : N := sumN ((λ t, N.of_nat (length (data t))) <$> l).

(** The variables captured by [handle_txs]. *)
Record NextState := mkNextState {
  ns_transactions : list Transaction;
  ns_acks : list (Submitter * list TransactionIndex);
  ns_total_bytes : N;
  ns_limit_reached : LimitReached;
}.

(** [(start..start + len)] on 16-bit indices. *)
Definition batch_indices (start len : nat) : list TransactionIndex :=
  let lo := N.of_nat start `mod` 65536 in
  let hi := (lo + N.of_nat len `mod` 65536) `mod` 65536 in
  (λ i : nat, lo + N.of_nat i) <$> seq 0 (N.to_nat (hi - lo)).

(** One bundle: [None] when it was taken, else the bundle. *)
Definition handle_txs (max_bytes max_count : N) (st : NextState) (t : TransactionsGuard) :
    NextState * option TransactionsGuard :=
  let n := length (guard_transactions t) in
  if (n =? 0)%nat then
    (mkNextState (ns_transactions st) (ns_acks st ++ [(included_in_block_ack t, [PING_TRANSACTION_INDEX])])
       (ns_total_bytes st) (ns_limit_reached st), None)
  else
    let bytes := u64_sum ((λ t, N.of_nat (length (data t))) <$> guard_transactions t) in
    if max_bytes <? u64_add (ns_total_bytes st) bytes then
      (mkNextState (ns_transactions st) (ns_acks st) (ns_total_bytes st) MaxBytes, Some t)
    else if max_count <? u64_add (N.of_nat (length (ns_transactions st))) (N.of_nat n) then
      (mkNextState (ns_transactions st) (ns_acks st) (ns_total_bytes st) MaxNumOfTransactions, Some t)
    else
      (mkNextState (ns_transactions st ++ guard_transactions t)
         (ns_acks st ++ [(included_in_block_ack t, batch_indices (length (ns_transactions st)) n)])
         (u64_add (ns_total_bytes st) bytes) (ns_limit_reached st), None).

(** The loop over the channel: stops at the first bundle that does not fit. *)
Fixpoint pull (max_bytes max_count : N) (st : NextState) (queue : list TransactionsGuard) :
    NextState * option TransactionsGuard * list TransactionsGuard :=
  match queue with
  | [] => (st, None, [])
  | t :: queue =>
      match handle_txs max_bytes max_count st t with
      | (st, Some t) => (st, Some t, queue)
      | (st, None) => pull max_bytes max_count st queue
      end
  end.

(** What [next] returns: the transactions, the acknowledgements to send once the block
    exists, and the limit.  A pending bundle that no longer fits is fatal in debug builds
    ([crash_on_debug]) and dropped otherwise. *)
Definition next (crash_on_debug : bool) (c : TransactionConsumer) :
    outcome (TransactionConsumer * (list Transaction * list (Submitter * list TransactionIndex) * LimitReached)) :=
  let st := mkNextState [] [] 0 AllTransactionsIncluded in
  let! st :=
    match pending_transactions c with
    | None => Ok st
    | Some t =>
        match handle_txs (consumer_max_bytes c) (consumer_max_count c) st t with
        | (st, None) => Ok st
        | (st, Some _) =>
            if crash_on_debug then Panic "Previously pending transaction(s) should fit into an empty block!" else Ok st
        end
    end in
  let '(st, pending, queue) := pull (consumer_max_bytes c) (consumer_max_count c) st (tx_receiver c) in
  Ok (mkTransactionConsumer queue (consumer_max_bytes c) (consumer_max_count c) pending (block_status_subscribers c),
      (ns_transactions st, ns_acks st, ns_limit_reached st)).

(** The callback: registers each submitter for the status of the block and tells it the
    indices. *)
Definition acknowledge (c : TransactionConsumer) (acks : list (Submitter * list TransactionIndex)) (block_ref : BlockRef) :
    TransactionConsumer * list (Submitter * (BlockRef * list TransactionIndex)) :=
  (mkTransactionConsumer (tx_receiver c) (consumer_max_bytes c) (consumer_max_count c) (pending_transactions c)
     (foldl (λ m ack, <[block_ref := default [] (m !! block_ref) ++ [ack.1]]> m) (block_status_subscribers c) acks),
   (λ ack, (ack.1, (block_ref, ack.2))) <$> acks).

(** ** Status of own blocks *)

Definition notify_committed (acc : gmap BlockRef (list Submitter) * list (Submitter * BlockStatus)) (r : BlockRef) :
    gmap BlockRef (list Submitter) * list (Submitter * BlockStatus) :=
  match acc.1 !! r with
  | Some subscribers => (delete r acc.1, acc.2 ++ ((λ s, (s, Sequenced r)) <$> subscribers))
  | None => acc
  end.

Fixpoint notify_gced (fuel : nat) (gc_round : Round) (m : gmap BlockRef (list Submitter)) (out : list (Submitter * BlockStatus)) :
    outcome (gmap BlockRef (list Submitter) * list (Submitter * BlockStatus)) :=
  match fuel with
  | O => OutOfFuel
  | S fuel =>
      match btree_first m with
      | None => Ok (m, out)
      | Some (r, subscribers) =>
          if ref_round r <=? gc_round
          then notify_gced fuel gc_round (delete r m) (out ++ ((λ s, (s, GarbageCollected r)) <$> subscribers))
          else Ok (<[r := subscribers]> (delete r m), out)
      end
  end.

Definition notify_own_blocks_status (c : TransactionConsumer) (committed_blocks : list BlockRef) (gc_round : Round) :
    outcome (TransactionConsumer * list (Submitter * BlockStatus)) :=
  let '(m, out) := foldl notify_committed (block_status_subscribers c, []) committed_blocks in
  let! '(m, out) := notify_gced (S (size m)) gc_round m out in
  Ok (mkTransactionConsumer (tx_receiver c) (consumer_max_bytes c) (consumer_max_count c) (pending_transactions c) m, out).

(** ** Submission *)

Fixpoint check_bundle (max_size max_bytes bundle_size : N) (l : list Bytes) : option ClientError :=
  match l with
  | [] => None
  | t :: l =>
      let len := N.of_nat (length t) in
      if max_size <? len then Some (OversizedTransaction len max_size) else
      let bundle_size := u64_add bundle_size len in
      if max_bytes <? bundle_size then Some (OversizedTransactionBundleBytes bundle_size max_bytes)
      else check_bundle max_size max_bytes bundle_size l
  end.

(** [submit_no_wait]: the channel after the submission, or the error; the channel is
    closed when consensus shuts down. *)
Definition submit_no_wait (ctx : Context) (is_open : bool) (queue : list TransactionsGuard) (submitter : Submitter) (transactions : list Bytes) :
    ClientError + list TransactionsGuard :=
  let p := protocol_config ctx in
  if max_num_transactions_in_block p <? N.of_nat (length transactions)
  then inl (OversizedTransactionBundleCount (N.of_nat (length transactions)) (max_num_transactions_in_block p)) else
  match check_bundle (max_transaction_size_bytes p) (max_transactions_in_block_bytes p) 0 transactions with
  | Some e => inl e
  | None =>
      if is_open then inr (queue ++ [mkTransactionsGuard (mkTransaction <$> transactions) submitter])
      else inl (ConsensusShuttingDown "channel closed")
  end.

(** ** Bundles that fit *)

Lemma bundle_bytes_app l1 l2 : bundle_bytes (l1 ++ l2) = bundle_bytes l1 + bundle_bytes l2.
Proof. unfold bundle_bytes. by rewrite fmap_app, sumN_app. Qed.

(** A bundle that a client may submit: it passes the limits on its own. *)
Record bundle_ok (p : ProtocolConfig) (t : TransactionsGuard) : Prop := {
  bo_bytes : bundle_bytes (guard_transactions t) ≤ max_transactions_in_block_bytes p;
  bo_count : N.of_nat (length (guard_transactions t)) ≤ max_num_transactions_in_block p;
  bo_size x : x ∈ guard_transactions t → N.of_nat (length (data x)) ≤ max_transaction_size_bytes p;
}.

(** A configuration whose limits fit the machine. *)
Record limits_ok (p : ProtocolConfig) : Prop := {
  lo_bytes : 2 * max_transactions_in_block_bytes p < u64_modulus;
  lo_size : max_transactions_in_block_bytes p + max_transaction_size_bytes p < u64_modulus;
  lo_count : max_num_transactions_in_block p ≤ u16_max - NUM_RESERVED_TRANSACTION_INDICES;
}.

Record consumer_ok (p : ProtocolConfig) (c : TransactionConsumer) : Prop := {
  co_bytes : consumer_max_bytes c = max_transactions_in_block_bytes p;
  co_count : consumer_max_count c = max_num_transactions_in_block p;
  co_queue : Forall (bundle_ok p) (option_list (pending_transactions c) ++ tx_receiver c);
}.

(** The submitter of the bundle is told the positions of its transactions, or, when it
    has none, the ping index. *)
Definition told (txs : list Transaction) (t : TransactionsGuard) (ack : Submitter * list TransactionIndex) : Prop :=
  ack.1 = included_in_block_ack t ∧
  if decide (guard_transactions t = []) then ack.2 = [PING_TRANSACTION_INDEX]
  else (λ i, txs !! N.to_nat i) <$> ack.2 = Some <$> guard_transactions t.

Lemma told_app txs more t ack : told txs t ack → told (txs ++ more) t ack.
Proof.
  intros [H1 H2]. split; [done|]. case_decide; [done|]. revert H2. generalize (guard_transactions t), (ack.2).
  intros l idx. revert l. induction idx as [|i idx IH]; intros [|x l]; try done. cbn. intros [= Hi Hr].
  rewrite (lookup_app_l_Some _ _ _ _ Hi). f_equal. by apply IH.
Qed.

Lemma batch_indices_small start n :
  N.of_nat (start + n) ≤ u16_max → batch_indices start n = N.of_nat <$> seq start n.
Proof.
  unfold u16_max. intros H. unfold batch_indices.
  rewrite (N.mod_small (N.of_nat start)), (N.mod_small (N.of_nat n)), N.mod_small by lia.
  replace (N.to_nat _) with n by lia. rewrite <-(Nat.add_0_r start) at 1.
  rewrite <-(fmap_add_seq start 0), <-list_fmap_compose.
  apply list_fmap_ext. intros. cbn. lia.
Qed.

Lemma lookup_batch txs (l : list Transaction) :
  (λ i, (txs ++ l) !! N.to_nat i) <$> (N.of_nat <$> seq (length txs) (length l)) = Some <$> l.
Proof.
  rewrite <-list_fmap_compose. apply list_eq. intros i. rewrite !list_lookup_fmap.
  destruct (l !! i) as [x|] eqn:Hx; cbn.
  - rewrite lookup_seq_lt by (by eapply lookup_lt_Some). cbn. rewrite Nat2N.id, lookup_app_r by lia.
    by replace (length txs + i - length txs)%nat with i by lia; rewrite Hx.
  - by rewrite lookup_seq_ge by (by apply lookup_ge_None).
Qed.

Section packing.
Context (p : ProtocolConfig) (Hp : limits_ok p).
Abbreviation max_bytes := (max_transactions_in_block_bytes p).
Abbreviation max_count := (max_num_transactions_in_block p).

(** The bundles taken so far, and what they amount to. *)
Record packed (taken : list TransactionsGuard) (st : NextState) : Prop := {
  pk_transactions : ns_transactions st = concat (guard_transactions <$> taken);
  pk_acks : Forall2 (told (ns_transactions st)) taken (ns_acks st);
  pk_total : ns_total_bytes st = bundle_bytes (ns_transactions st);
  pk_bytes : bundle_bytes (ns_transactions st) ≤ max_bytes;
  pk_count : N.of_nat (length (ns_transactions st)) ≤ max_count;
  pk_size x : x ∈ ns_transactions st → N.of_nat (length (data x)) ≤ max_transaction_size_bytes p;
}.

(** The bundle would exceed a limit of the block. *)
Definition overflows (txs : list Transaction) (t : TransactionsGuard) : Prop :=
  guard_transactions t ≠ [] ∧
  (max_bytes < bundle_bytes (txs ++ guard_transactions t) ∨
   max_count < N.of_nat (length (txs ++ guard_transactions t))).

Lemma handle_txs_spec taken st t :
  packed taken st → bundle_ok p t →
  let '(st', r) := handle_txs max_bytes max_count st t in
  match r with
  | None => packed (taken ++ [t]) st' ∧ ns_limit_reached st' = ns_limit_reached st
  | Some t' => t' = t ∧ packed taken st' ∧ ns_transactions st' = ns_transactions st ∧ overflows (ns_transactions st) t ∧
      ns_limit_reached st' = if max_bytes <? bundle_bytes (ns_transactions st ++ guard_transactions t) then MaxBytes else MaxNumOfTransactions
  end.
Proof using Hp.
  destruct Hp as [Hlb _ Hlc]. intros [H1 H2 H3 H4 H5 H6] [B1 B2 B3]. unfold handle_txs.
  unfold bundle_bytes in B1. rewrite u64_sum_small by lia. fold (bundle_bytes (guard_transactions t)) in *.
  destruct (Nat.eqb_spec (length (guard_transactions t)) 0) as [Hn|Hn].
  { apply nil_length_inv in Hn. split; [|done]. split; cbn; try done.
    - by rewrite fmap_app, concat_app, H1; cbn; rewrite Hn, !app_nil_r.
    - apply Forall2_app; [done|]. constructor; [|done]. split; [done|]. by rewrite decide_True. }
  unfold u16_max, NUM_RESERVED_TRANSACTION_INDICES in Hlc.
  rewrite H3.
  assert (u64_add (bundle_bytes (ns_transactions st)) (bundle_bytes (guard_transactions t)) =
    bundle_bytes (ns_transactions st ++ guard_transactions t)) as ->.
  { rewrite bundle_bytes_app. machine_lia. }
  assert (u64_add (N.of_nat (length (ns_transactions st))) (N.of_nat (length (guard_transactions t))) =
    N.of_nat (length (ns_transactions st ++ guard_transactions t))) as ->.
  { rewrite length_app. machine_lia. }
  assert (Hne : guard_transactions t ≠ []) by (by intros E; rewrite E in Hn).
  destruct (N.ltb_spec max_bytes (bundle_bytes (ns_transactions st ++ guard_transactions t))) as [Hb|Hb].
  { split_and!; try done. split; [done|by left]. }
  destruct (N.ltb_spec max_count (N.of_nat (length (ns_transactions st ++ guard_transactions t)))) as [Hc|Hc].
  { split_and!; try done. split; [done|by right]. }
  split; [|done]. split; cbn [ns_transactions ns_acks ns_total_bytes ns_limit_reached]; try done.
  - rewrite fmap_app, concat_app, <-H1. cbn. by rewrite app_nil_r.
  - apply Forall2_app; [by eapply Forall2_impl; [done|intros; apply told_app]|]. constructor; [|done].
    split; [done|]. rewrite decide_False by done. cbn. rewrite length_app in Hc.
    rewrite batch_indices_small by (unfold u16_max; lia). apply lookup_batch.
  - intros x [Hx|Hx]%elem_of_app; [by apply H6|by apply B3].
Qed.

Lemma pull_spec queue : ∀ taken st,
  packed taken st → Forall (bundle_ok p) queue →
  let '(st', pending, queue') := pull max_bytes max_count st queue in
  ∃ more, queue = more ++ option_list pending ++ queue' ∧ packed (taken ++ more) st' ∧
    match pending with
    | None => queue' = [] ∧ ns_limit_reached st' = ns_limit_reached st
    | Some t => overflows (ns_transactions st') t ∧
        ns_limit_reached st' = if max_bytes <? bundle_bytes (ns_transactions st' ++ guard_transactions t) then MaxBytes else MaxNumOfTransactions
    end.
Proof using Hp.
  induction queue as [|t queue IH]; intros taken st Hst Hq; cbn [pull].
  { exists []. rewrite (app_nil_r taken). split_and!; done. }
  apply Forall_cons in Hq as [Ht Hq]. pose proof (handle_txs_spec taken st t Hst Ht) as Hspec.
  destruct (handle_txs max_bytes max_count st t) as [st1 [t1|]].
  - destruct Hspec as (-> & Hpk & Htx & Ho & Hl). exists []. rewrite (app_nil_r taken), Htx. split_and!; done.
  - destruct Hspec as [Hpk Hl]. specialize (IH (taken ++ [t]) st1 Hpk Hq).
    destruct (pull max_bytes max_count st1 queue) as [[st2 pending] queue'].
    destruct IH as (more & -> & Hpk2 & Hrest). exists (t :: more). rewrite <-app_assoc in Hpk2. split; [done|].
    split; [done|]. destruct pending; [done|]. by rewrite <-Hl.
Qed.
End packing.

Lemma next_spec p crash c :
  limits_ok p → consumer_ok p c →
  ∃ c' txs acks limit taken, next crash c = Ok (c', (txs, acks, limit)) ∧ consumer_ok p c' ∧
    option_list (pending_transactions c) ++ tx_receiver c =
      taken ++ option_list (pending_transactions c') ++ tx_receiver c' ∧
    txs = concat (guard_transactions <$> taken) ∧ Forall2 (told txs) taken acks ∧
    valid_transactions p (data <$> txs) ∧ block_status_subscribers c' = block_status_subscribers c ∧
    match pending_transactions c' with
    | None => tx_receiver c' = [] ∧ limit = AllTransactionsIncluded
    | Some t => overflows p txs t ∧ limit ≠ AllTransactionsIncluded
    end.
Proof.
  intros Hp [Hb Hcn Hq]. unfold next. rewrite Hb, Hcn. apply Forall_app in Hq as [Hpend Hq].
  assert (Hstart : ∃ taken st, packed p taken st ∧ ns_limit_reached st = AllTransactionsIncluded ∧
    taken = option_list (pending_transactions c) ∧
    match pending_transactions c with
    | None => Ok (mkNextState [] [] 0 AllTransactionsIncluded)
    | Some t =>
        match handle_txs (max_transactions_in_block_bytes p) (max_num_transactions_in_block p)
          (mkNextState [] [] 0 AllTransactionsIncluded) t with
        | (st, None) => Ok st
        | (st, Some _) =>
            if crash then Panic "Previously pending transaction(s) should fit into an empty block!" else Ok st
        end
    end = Ok st).
  { assert (H0 : packed p [] (mkNextState [] [] 0 AllTransactionsIncluded)).
    { split; cbn; try done; try constructor; try lia. by intros x Hx%elem_of_nil. }
    destruct (pending_transactions c) as [t|]; [|by eexists _, _]. cbn in Hpend. rewrite Forall_singleton in Hpend.
    pose proof (handle_txs_spec p Hp [] _ t H0 Hpend) as Hspec.
    destruct (handle_txs _ _ _ t) as [st [t1|]].
    - destruct Hspec as (_ & _ & _ & [_ Ho] & _). destruct Hpend as [B1 B2 _].
      cbn [ns_transactions app] in Ho. destruct Ho; lia.
    - destruct Hspec as [Hpk Hl]. by eexists _, st. }
  destruct Hstart as (taken0 & st0 & Hpk0 & Hl0 & Ht0 & ->). cbn [obind].
  pose proof (pull_spec p Hp (tx_receiver c) taken0 st0 Hpk0 Hq) as Hpull.
  destruct (pull _ _ st0 (tx_receiver c)) as [[st pending] queue].
  destruct Hpull as (more & Hmore & [P1 P2 P3 P4 P5 P6] & Hrest).
  eexists _, _, _, _, (taken0 ++ more). split; [done|].
  cbn [pending_transactions tx_receiver block_status_subscribers].
  rewrite Hmore in Hq. apply Forall_app in Hq as [_ Hq]. split_and!; try done.
  - by rewrite Ht0, Hmore, <-app_assoc.
  - split.
    + intros t (x & -> & Hx)%list_elem_of_fmap. right. by apply P6.
    + right. by rewrite length_fmap.
    + right. rewrite <-list_fmap_compose. exact P4.
  - destruct pending as [t|]; [|by rewrite <-Hl0]. destruct Hrest as [Ho ->]. split; [done|]. by destruct (_ <? _).
Qed.

(** Packing a block takes pending and queued bundles in order, as many as
    fit, and loses none: each submitter is told the positions of its transactions, the
    transactions pass the checks of the block verifier, and a bundle is left over only if
    it would exceed a limit. *)
Theorem next_packs_in_order p crash c :
  limits_ok p → consumer_ok p c →
  ∃ c' txs acks limit taken, next crash c = Ok (c', (txs, acks, limit)) ∧ consumer_ok p c' ∧
    option_list (pending_transactions c) ++ tx_receiver c =
      taken ++ option_list (pending_transactions c') ++ tx_receiver c' ∧
    txs = concat (guard_transactions <$> taken) ∧ Forall2 (told txs) taken acks ∧
    valid_transactions p (data <$> txs) ∧ block_status_subscribers c' = block_status_subscribers c ∧
    match pending_transactions c' with
    | None => tx_receiver c' = [] ∧ limit = AllTransactionsIncluded
    | Some t => overflows p txs t ∧ limit ≠ AllTransactionsIncluded
    end.
Proof. apply next_spec. Qed.

(** ** Status of own blocks *)

(** What the subscribers of a block are told. *)
Definition status_of (committed : list BlockRef) (gc : Round) (r : BlockRef) : option BlockStatus :=
  if decide (r ∈ committed) then Some (Sequenced r)
  else if decide (ref_round r ≤ gc) then Some (GarbageCollected r) else None.

Lemma notify_committed_spec committed : ∀ m out,
  let '(m', out') := foldl notify_committed (m, out) committed in
  (∀ r, m' !! r = if decide (r ∈ committed) then None else m !! r) ∧
  (∀ s st, (s, st) ∈ out' ↔ (s, st) ∈ out ∨ ∃ r subs, m !! r = Some subs ∧ s ∈ subs ∧ r ∈ committed ∧ st = Sequenced r).
Proof.
  induction committed as [|x committed IH]; intros m out; cbn [foldl].
  { split; [intros r; by rewrite decide_False by (by intros ?%elem_of_nil)|].
    intros s st. split; [by left|]. intros [?|(r & subs & _ & _ & ?%elem_of_nil & _)]; done. }
  unfold notify_committed at 2. cbn [fst snd]. destruct (m !! x) as [subs|] eqn:Hx.
  - specialize (IH (delete x m) (out ++ ((λ s, (s, Sequenced x)) <$> subs))).
    destruct (foldl _ _ _) as [m' out']. destruct IH as [Hm Ho]. split.
    + intros r. rewrite Hm. destruct (decide (r = x)) as [->|Hne].
      * rewrite lookup_delete_eq, (decide_True (P := x ∈ x :: committed)) by (by left). by case_decide.
      * rewrite lookup_delete_ne by done. by rewrite (decide_ext (r ∈ x :: committed) (r ∈ committed)) by set_solver.
    + intros s st. rewrite Ho, elem_of_app, list_elem_of_fmap. split.
      * intros [[?|(s' & [= -> ->] & Hs)]|(r & subs' & Hr & Hs & Hin & ->)]; [by left|right; exists x, subs; set_solver|].
        apply lookup_delete_Some in Hr as [_ Hr]. right. exists r, subs'. set_solver.
      * intros [?|(r & subs' & Hr & Hs & Hin & ->)]; [by left; left|]. destruct (decide (r = x)) as [->|Hne].
        -- left; right. exists s. by simplify_eq.
        -- right. exists r, subs'. rewrite lookup_delete_ne by done. set_solver.
  - specialize (IH m out). destruct (foldl _ _ _) as [m' out']. destruct IH as [Hm Ho]. split.
    + intros r. rewrite Hm. destruct (decide (r = x)) as [->|Hne].
      * rewrite Hx. by repeat case_decide.
      * by rewrite (decide_ext (r ∈ x :: committed) (r ∈ committed)) by set_solver.
    + intros s st. rewrite Ho. split; (intros [?|(r & subs' & Hr & Hs & Hin & ->)]; [by left|right; exists r, subs']).
      * set_solver.
      * split_and!; try done. apply elem_of_cons in Hin as [->|]; [congruence|done].
Qed.

Lemma notify_gced_spec gc fuel : ∀ m out, (size m < fuel)%nat →
  ∃ m' out', notify_gced fuel gc m out = Ok (m', out') ∧
    (∀ r, m' !! r = if decide (ref_round r ≤ gc) then None else m !! r) ∧
    (∀ s st, (s, st) ∈ out' ↔
       (s, st) ∈ out ∨ ∃ r subs, m !! r = Some subs ∧ s ∈ subs ∧ ref_round r ≤ gc ∧ st = GarbageCollected r).
Proof.
  induction fuel as [|fuel IH]; intros m out Hf; [lia|]. cbn [notify_gced].
  destruct (btree_first m) as [[x subs]|] eqn:Hfirst.
  2: { apply btree_first_None in Hfirst as ->. exists ∅, out. split; [done|]. split; [intros r; rewrite lookup_empty; by case_decide|].
       intros s st. split; [by left|]. intros [?|(r & subs & Hr & _)]; [done|by rewrite lookup_empty in Hr]. }
  pose proof (btree_first_Some _ _ _ Hfirst) as Hx.
  destruct (N.leb_spec (ref_round x) gc) as [Hle|Hgt].
  - destruct (IH (delete x m) (out ++ ((λ s, (s, GarbageCollected x)) <$> subs))) as (m' & out' & -> & Hm & Ho).
    { rewrite map_size_delete_Some by done. assert (size m ≠ 0)%nat; [|lia]. intros Hz%map_size_empty_iff. subst m.
      by rewrite lookup_empty in Hx. }
    exists m', out'. split; [done|]. split.
    + intros r. rewrite Hm. case_decide; [done|]. rewrite lookup_delete_ne; [done|]. intros ->. done.
    + intros s st. rewrite Ho, elem_of_app, list_elem_of_fmap. split.
      * intros [[?|(s' & [= -> ->] & Hs)]|(r & subs' & [_ Hr]%lookup_delete_Some & Hs & Hin & ->)];
          [by left|right; by exists x, subs|right; by exists r, subs'].
      * intros [?|(r & subs' & Hr & Hs & Hin & ->)]; [by left; left|]. destruct (decide (r = x)) as [->|Hne].
        -- left; right. exists s. by simplify_eq.
        -- right. exists r, subs'. by rewrite lookup_delete_ne.
  - rewrite insert_delete_id by done. exists m, out. split; [done|].
    assert (Hall : ∀ r, is_Some (m !! r) → gc < ref_round r).
    { intros r Hr. pose proof (ord_leb_ref_round _ _ (btree_first_min _ _ _ _ Hfirst Hr)). lia. }
    split.
    + intros r. case_decide as Hr; [|done]. destruct (m !! r) eqn:E; [|done]. specialize (Hall r ltac:(by eexists)). lia.
    + intros s st. split; [by left|]. intros [?|(r & subs' & Hr & _ & Hle & _)]; [done|].
      specialize (Hall r ltac:(by eexists)). lia.
Qed.

(** The submitters waiting for a block are told exactly once it is known
    what became of it: that it was sequenced if it is among the committed blocks, that it
    was garbage collected if it is at or below the GC round; the others keep waiting. *)
Theorem block_status_reported c committed gc :
  ∃ c' out, notify_own_blocks_status c committed gc = Ok (c', out) ∧
    (∀ r, block_status_subscribers c' !! r =
       match status_of committed gc r with Some _ => None | None => block_status_subscribers c !! r end) ∧
    (∀ s st, (s, st) ∈ out ↔ ∃ r subs, block_status_subscribers c !! r = Some subs ∧ s ∈ subs ∧ status_of committed gc r = Some st).
Proof.
  unfold notify_own_blocks_status. pose proof (notify_committed_spec committed (block_status_subscribers c) []) as H1.
  destruct (foldl _ _ _) as [m1 out1]. destruct H1 as [Hm1 Ho1].
  destruct (notify_gced_spec gc (S (size m1)) m1 out1) as (m2 & out2 & -> & Hm2 & Ho2); [lia|]. cbn [obind].
  eexists _, out2. split; [done|]. cbn [block_status_subscribers]. unfold status_of. split.
  - intros r. rewrite Hm2, Hm1. by repeat case_decide.
  - intros s st. rewrite Ho2, Ho1, elem_of_nil. split.
    + intros [[[]|(r & subs & Hr & Hs & Hin & ->)]|(r & subs & Hr & Hs & Hle & ->)]; exists r, subs.
      * by rewrite decide_True.
      * rewrite Hm1 in Hr. case_decide; [done|]. by rewrite decide_True.
    + intros (r & subs & Hr & Hs & Hst). case_decide as Hin; [left; right|case_decide as Hle; [|done]; right];
        injection Hst as <-; exists r, subs; [done|]. by rewrite Hm1, decide_False.
Qed.

(** ** Submission *)

Lemma check_bundle_spec p l : limits_ok p → ∀ acc, acc ≤ max_transactions_in_block_bytes p →
  check_bundle (max_transaction_size_bytes p) (max_transactions_in_block_bytes p) acc l = None ↔
  acc + bundle_bytes (mkTransaction <$> l) ≤ max_transactions_in_block_bytes p ∧
  ∀ t, t ∈ l → N.of_nat (length t) ≤ max_transaction_size_bytes p.
Proof.
  intros [_ Hs _]. induction l as [|t l IH]; intros acc Hacc; cbn [check_bundle].
  { split; [|done]. intros _. split; [cbn; lia|]. by intros ? ?%elem_of_nil. }
  assert (Hcons : bundle_bytes (mkTransaction <$> t :: l) = N.of_nat (length t) + bundle_bytes (mkTransaction <$> l)) by done.
  rewrite Hcons. destruct (N.ltb_spec (max_transaction_size_bytes p) (N.of_nat (length t))) as [Hbig|Hsmall].
  { split; [done|]. intros [_ Hall]. specialize (Hall t ltac:(by left)). lia. }
  rewrite u64_add_small by width_lia.
  destruct (N.ltb_spec (max_transactions_in_block_bytes p) (acc + N.of_nat (length t))) as [Hover|Hfit].
  { split; [done|]. intros [Hle _]. lia. }
  rewrite IH by done. split; (intros [H1 H2]; split; [lia|]); [|by intros x Hx; apply H2; right].
  intros x [->|Hx]%elem_of_cons; [done|by apply H2].
Qed.

(** A submission enters the queue, at its end, exactly when the bundle could
    fill a block on its own; otherwise an error is returned and nothing is queued.  The
    queue thus only ever holds bundles that fit. *)
Theorem submit_no_wait_spec ctx queue submitter transactions queue' :
  limits_ok (protocol_config ctx) →
  submit_no_wait ctx true queue submitter transactions = inr queue' ↔
  bundle_ok (protocol_config ctx) (mkTransactionsGuard (mkTransaction <$> transactions) submitter) ∧
  queue' = queue ++ [mkTransactionsGuard (mkTransaction <$> transactions) submitter].
Proof.
  intros Hp. unfold submit_no_wait.
  destruct (N.ltb_spec (max_num_transactions_in_block (protocol_config ctx)) (N.of_nat (length transactions))) as [Hn|Hn].
  { split; [done|]. intros [[_ Hc _] _]. cbn in Hc. rewrite length_fmap in Hc. lia. }
  pose proof (check_bundle_spec (protocol_config ctx) transactions Hp 0 ltac:(lia)) as Hcb.
  rewrite N.add_0_l in Hcb. split.
  - destruct (check_bundle _ _ _ _); [done|]. destruct (proj1 Hcb eq_refl) as [H1 H2]. intros [= <-]. split; [|done].
    split; cbn; [done|by rewrite length_fmap|]. intros x (t & -> & Ht)%list_elem_of_fmap. by apply H2.
  - intros [[B1 _ B3] ->]. rewrite (proj2 Hcb); [done|]. split; [done|]. intros t Ht.
    apply (B3 (mkTransaction t)). cbn. by apply list_elem_of_fmap_2.
Qed.

(** ** Witnesses *)

(** Blocks of at most ten bytes and three transactions. *)
Definition small_config : ProtocolConfig := mkProtocolConfig (Some 60) true (Some 1%nat) 30 (Some 6) (Some 10) (Some 3) true.
Definition small_context : Context := mkContext 0 0 committee4 500 small_config.
Definition bundle (sizes : list nat) (s : nat) : TransactionsGuard :=
  mkTransactionsGuard ((λ n, mkTransaction (replicate n 7)) <$> sizes) s.
Definition small_consumer : TransactionConsumer :=
  mkTransactionConsumer [bundle [] 1; bundle [2; 3]%nat 2; bundle [4]%nat 3] 10 3 (Some (bundle [3]%nat 0)) ∅.

Lemma small_limits : limits_ok small_config.
Proof. split; [reflexivity|reflexivity|]. vm_compute. discriminate. Qed.

Lemma small_consumer_ok : consumer_ok small_config small_consumer.
Proof.
  split; [reflexivity|reflexivity|].
  repeat constructor; try (cbn; lia); intros x Hx; repeat (apply elem_of_cons in Hx as [->|Hx]; [cbn; lia|]); by apply elem_of_nil in Hx.
Qed.

Lemma next_packs_in_order_witness :
  ∃ c' txs acks limit taken, next true small_consumer = Ok (c', (txs, acks, limit)) ∧
    taken = [bundle [3]%nat 0; bundle [] 1; bundle [2; 3]%nat 2] ∧
    acks = [(0%nat, [0]); (1%nat, [PING_TRANSACTION_INDEX]); (2%nat, [1; 2])] ∧ Forall2 (told txs) taken acks ∧
    pending_transactions c' = Some (bundle [4]%nat 3).
Proof.
  destruct (next_packs_in_order small_config true small_consumer small_limits small_consumer_ok)
    as (c' & txs & acks & limit & taken & Hrun & _ & Hsplit & _ & Htold & _ & _).
  exists c', txs, acks, limit, taken. split; [exact Hrun|]. vm_compute in Hrun. injection Hrun as <- <- <- <-.
  assert (taken = [bundle [3]%nat 0; bundle [] 1; bundle [2; 3]%nat 2]) as ->.
  { apply (app_inj_2 _ _ [bundle [4]%nat 3] [bundle [4]%nat 3]); [reflexivity|]. symmetry. exact Hsplit. }
  split; [reflexivity|]. split; [reflexivity|]. split; [exact Htold|reflexivity].
Defined.

Lemma submit_no_wait_spec_witness :
  submit_no_wait small_context true [] 7 [[1; 2]; [3]] = inr [mkTransactionsGuard [mkTransaction [1; 2]; mkTransaction [3]] 7] ↔
  bundle_ok small_config (mkTransactionsGuard [mkTransaction [1; 2]; mkTransaction [3]] 7) ∧
  [mkTransactionsGuard [mkTransaction [1; 2]; mkTransaction [3]] 7] = [mkTransactionsGuard [mkTransaction [1; 2]; mkTransaction [3]] 7].
Proof. apply (submit_no_wait_spec small_context [] 7 [[1; 2]; [3]]). exact small_limits. Defined.
