(* ===== verification/BlockManager.v ===== *)
(** * The block manager ([core/src/block_manager.rs])

    Blocks whose ancestors are not all known are suspended; accepting a block, or
    moving the GC round, releases the blocks that waited for it.  The manager uses the
    DAG through the class [DagWriter], which [DagState] implements. *)

From S2P Require Import Prelude Collections Weighted Committee Types Fixtures Commits StakeAggregator.
From S2P Require Import ThresholdClock LeaderScoring Storage DagState DagStateSpec DagTraversal.
From S2P Require Import DagRecovery.

Local Open Scope N_scope.

(** ** What the manager needs from the DAG *)

Class DagWriter (D : Type) := {
  dw_gc_round : D → Round;
  dw_contains_block : D → BlockRef → outcome bool;
  dw_contains_blocks : D → list BlockRef → outcome (list bool);
  dw_accept_blocks : Instant → D → list VerifiedBlock → outcome D;
}.

#[export] Instance dag_state_writer {S : Type} `{Store S} : DagWriter (DagState S) := {
  dw_gc_round := gc_round;
  dw_contains_block := contains_block;
  dw_contains_blocks := contains_blocks;
  dw_accept_blocks := accept_blocks;
}.

(** ** State *)

Record SuspendedBlock := mkSuspendedBlock {
  su_block : VerifiedBlock;
  su_missing : gset BlockRef;
  su_timestamp : Instant;
}.

Record BlockManager := mkBlockManager {
  bm_context : Context;
  suspended_blocks : gmap BlockRef SuspendedBlock;
  missing_ancestors : gmap BlockRef (gset BlockRef);
  missing_blocks : gset BlockRef;
  received_block_rounds : list (option (Round * Round));
}.

Definition block_manager_new (ctx : Context) : BlockManager :=
  mkBlockManager ctx ∅ ∅ ∅ (replicate (committee_size (committee ctx)) None).

Definition set_suspended (su : gmap BlockRef SuspendedBlock) (bm : BlockManager) : BlockManager :=
  mkBlockManager (bm_context bm) su (missing_ancestors bm) (missing_blocks bm) (received_block_rounds bm).
Definition set_missing_ancestors (ma : gmap BlockRef (gset BlockRef)) (bm : BlockManager) : BlockManager :=
  mkBlockManager (bm_context bm) (suspended_blocks bm) ma (missing_blocks bm) (received_block_rounds bm).
Definition set_missing_blocks (mb : gset BlockRef) (bm : BlockManager) : BlockManager :=
  mkBlockManager (bm_context bm) (suspended_blocks bm) (missing_ancestors bm) mb (received_block_rounds bm).
Definition set_received (rr : list (option (Round * Round))) (bm : BlockManager) : BlockManager :=
  mkBlockManager (bm_context bm) (suspended_blocks bm) (missing_ancestors bm) (missing_blocks bm) rr.

Inductive TryAcceptResult :=
| Accepted (b : VerifiedBlock)
| Suspended (ancestors_to_fetch : gset BlockRef)
| Processed
| Skipped.

(** The hostname that labels a metric. *)
Definition hostname_of (bm : BlockManager) (a : AuthorityIndex) : outcome string :=
  omap_ok hostname (authority (committee (bm_context bm)) a).

Definition update_block_received_metrics (bm : BlockManager) (block : VerifiedBlock) : outcome BlockManager :=
  let! cur := vec_get (received_block_rounds bm) (author block) in
  let rounds :=
    match cur with
    | Some (curr_min, curr_max) => (N.min curr_min (round block), N.max curr_max (round block))
    | None => (round block, round block)
    end in
  let! rr := vec_set (received_block_rounds bm) (author block) (Some rounds) in
  do! hostname_of bm (author block) in
  Ok (set_received rr bm).

(** ** Releasing suspended blocks *)

Definition try_unsuspend_block (bm : BlockManager) (block_ref accepted_dependency : BlockRef) :
    outcome (BlockManager * option SuspendedBlock) :=
  let! block := expect (suspended_blocks bm !! block_ref) "Block should be in suspended map" in
  do! rassert (bool_decide (accepted_dependency ∈ su_missing block))
    "Block reference should be present in missing dependencies" in
  let block := mkSuspendedBlock (su_block block) (su_missing block ∖ {[accepted_dependency]}) (su_timestamp block) in
  if decide (su_missing block = ∅) then
    Ok (set_suspended (delete block_ref (suspended_blocks bm)) bm, Some block)
  else Ok (set_suspended (<[block_ref := block]> (suspended_blocks bm)) bm, None).

(** The inner [for] loop; the head of [to_process] is the top of the stack. *)
Definition unsuspend_child (dependency : BlockRef)
    (acc : BlockManager * list BlockRef * list SuspendedBlock) (r : BlockRef) :
    outcome (BlockManager * list BlockRef * list SuspendedBlock) :=
  let '(bm, to_process, unsuspended) := acc in
  let! '(bm, released) := try_unsuspend_block bm r dependency in
  match released with
  | Some block => Ok (bm, reference (su_block block) :: to_process, unsuspended ++ [block])
  | None => Ok (bm, to_process, unsuspended)
  end.

Fixpoint unsuspend_loop (fuel : nat) (bm : BlockManager) (to_process : list BlockRef)
    (unsuspended : list SuspendedBlock) : outcome (BlockManager * list SuspendedBlock) :=
  match fuel with
  | O => OutOfFuel
  | Datatypes.S fuel' =>
      match to_process with
      | [] => Ok (bm, unsuspended)
      | block_ref :: to_process =>
          match missing_ancestors bm !! block_ref with
          | None => unsuspend_loop fuel' bm to_process unsuspended
          | Some children =>
              let bm := set_missing_ancestors (delete block_ref (missing_ancestors bm)) bm in
              let! '(bm, to_process, unsuspended) :=
                for_each (unsuspend_child block_ref) (bm, to_process, unsuspended) (bset_iter children) in
              unsuspend_loop fuel' bm to_process unsuspended
          end
      end
  end.

(** Every block is released and put on the stack at most once. *)
Definition unsuspend_fuel (bm : BlockManager) : nat := 2 + size (suspended_blocks bm).

Definition try_unsuspend_children_blocks (bm : BlockManager) (accepted_block : BlockRef) :
    outcome (BlockManager * list VerifiedBlock) :=
  let! '(bm, unsuspended) := unsuspend_loop (unsuspend_fuel bm) bm [accepted_block] [] in
  do! map_each (λ b, hostname_of bm (author (su_block b))) unsuspended in
  Ok (bm, su_block <$> unsuspended).

(** ** Accepting blocks *)

Section with_dag.
Context {D : Type} `{DagWriter D} (now : Instant).
Implicit Types d : D.

(** The loop over the ancestors of a block and whether they were found. *)
Definition note_ancestor (block_ref : BlockRef) (acc : BlockManager * gset BlockRef * gset BlockRef)
    (p : bool * BlockRef) : outcome (BlockManager * gset BlockRef * gset BlockRef) :=
  let '(bm, missing, to_fetch) := acc in
  let '(found, ancestor) := p in
  if (found : bool) then Ok acc
  else
    let children := default ∅ (missing_ancestors bm !! ancestor) in
    let bm := set_missing_ancestors (<[ancestor := {[block_ref]} ∪ children]> (missing_ancestors bm)) bm in
    do! hostname_of bm (ref_author ancestor) in
    match suspended_blocks bm !! ancestor with
    | Some _ => Ok (bm, {[ancestor]} ∪ missing, to_fetch)
    | None => Ok (set_missing_blocks ({[ancestor]} ∪ missing_blocks bm) bm,
                  {[ancestor]} ∪ missing, {[ancestor]} ∪ to_fetch)
    end.

Definition try_accept_one_block (bm : BlockManager) d (block : VerifiedBlock) :
    outcome (BlockManager * TryAcceptResult) :=
  let block_ref := reference block in
  let gc_round := dw_gc_round d in
  let! known :=
    match suspended_blocks bm !! block_ref with
    | Some _ => Ok true
    | None => dw_contains_block d block_ref
    end in
  if (known : bool) then Ok (bm, Processed) else
  if round block <=? gc_round then
    do! hostname_of bm (author block) in Ok (bm, Skipped)
  else
    let ancs := filter (λ a, ref_round a = GENESIS_ROUND ∨ gc_round < ref_round a) (ancestors block) in
    let! found := dw_contains_blocks d ancs in
    let! '(bm, missing, to_fetch) := for_each (note_ancestor block_ref) (bm, ∅, ∅) (zip found ancs) in
    let bm := set_missing_blocks (missing_blocks bm ∖ {[block_ref]}) bm in
    if decide (missing = ∅) then Ok (bm, Accepted block)
    else
      do! hostname_of bm (author block) in
      Ok (set_suspended (<[block_ref := mkSuspendedBlock block missing now]> (suspended_blocks bm)) bm,
          Suspended to_fetch).

(** The references a committed block leaves behind when it was suspended. *)
Definition forget_child (block_ref : BlockRef) (ma : gmap BlockRef (gset BlockRef)) (ancestor : BlockRef) :
    gmap BlockRef (gset BlockRef) :=
  alter (λ children, children ∖ {[block_ref]}) ancestor ma.

Definition try_accept_one_committed_block (bm : BlockManager) d (block : VerifiedBlock) :
    outcome (BlockManager * D * TryAcceptResult) :=
  let block_ref := reference block in
  let! known := dw_contains_block d block_ref in
  if (known : bool) then Ok (bm, d, Processed) else
  let bm := set_missing_blocks (missing_blocks bm ∖ {[block_ref]}) bm in
  let bm :=
    match suspended_blocks bm !! block_ref with
    | Some suspended =>
        set_missing_ancestors
          (foldl (forget_child block_ref) (missing_ancestors bm) (bset_iter (su_missing suspended)))
          (set_suspended (delete block_ref (suspended_blocks bm)) bm)
    | None => bm
    end in
  let! d := dw_accept_blocks now d [block] in
  Ok (bm, d, Accepted block).

(** The body of the loop over the received blocks. *)
Definition release_and_accept (bm : BlockManager) d (block_ref : BlockRef) (blocks_to_accept : list VerifiedBlock)
    (accepted : list VerifiedBlock) (missing : gset BlockRef) :
    outcome (BlockManager * D * list VerifiedBlock * gset BlockRef) :=
  let! '(bm, unsuspended) := try_unsuspend_children_blocks bm block_ref in
  let blocks_to_accept := blocks_to_accept ++ unsuspended in
  let! d := dw_accept_blocks now d blocks_to_accept in
  Ok (bm, d, accepted ++ blocks_to_accept, missing).

Definition accept_received (committed : bool) (acc : BlockManager * D * list VerifiedBlock * gset BlockRef)
    (block : VerifiedBlock) : outcome (BlockManager * D * list VerifiedBlock * gset BlockRef) :=
  let '(bm, d, accepted, missing) := acc in
  let! bm := update_block_received_metrics bm block in
  let block_ref := reference block in
  if committed then
    let! '(bm, d, res) := try_accept_one_committed_block bm d block in
    match res with
    | Accepted block => release_and_accept bm d block_ref [] (accepted ++ [block]) missing
    | Processed => Ok (bm, d, accepted, missing)
    | Suspended _ | Skipped => Panic "Did not expect to suspend or skip a committed block"
    end
  else
    let! '(bm, res) := try_accept_one_block bm d block in
    match res with
    | Accepted block => release_and_accept bm d block_ref [block] accepted missing
    | Suspended ancestors_to_fetch => Ok (bm, d, accepted, missing ∪ ancestors_to_fetch)
    | Processed | Skipped => Ok (bm, d, accepted, missing)
    end.

Definition try_accept_blocks_internal (bm : BlockManager) d (blocks : list VerifiedBlock) (committed : bool) :
    outcome (BlockManager * D * list VerifiedBlock * gset BlockRef) :=
  for_each (accept_received committed) (bm, d, [], ∅) (sort_by_key round blocks).

Definition try_accept_blocks (bm : BlockManager) d (blocks : list VerifiedBlock) :
    outcome (BlockManager * D * list VerifiedBlock * gset BlockRef) :=
  try_accept_blocks_internal bm d blocks false.

Definition try_accept_committed_blocks (bm : BlockManager) d (blocks : list VerifiedBlock) :
    outcome (BlockManager * D * list VerifiedBlock) :=
  let! '(bm, d, accepted, missing) := try_accept_blocks_internal bm d blocks true in
  do! rassert (bool_decide (missing = ∅)) "No missing blocks should be returned for committed blocks" in
  Ok (bm, d, accepted).

(** ** Looking for blocks *)

Definition note_wanted (acc : BlockManager * gset BlockRef) (p : bool * BlockRef) :
    outcome (BlockManager * gset BlockRef) :=
  let '(bm, missing) := acc in
  let '(found, r) := p in
  if (found : bool) || bool_decide (is_Some (suspended_blocks bm !! r)) then Ok acc
  else
    let missing := {[r]} ∪ missing in
    if decide (r ∈ missing_blocks bm) then Ok (bm, missing)
    else
      let bm := set_missing_blocks ({[r]} ∪ missing_blocks bm) bm in
      let bm := set_missing_ancestors
        (<[r := default ∅ (missing_ancestors bm !! r)]> (missing_ancestors bm)) bm in
      do! hostname_of bm (ref_author r) in
      Ok (bm, missing).

Definition try_find_blocks (bm : BlockManager) d (block_refs : list BlockRef) :
    outcome (BlockManager * gset BlockRef) :=
  let refs := filter (λ r, dw_gc_round d < ref_round r) block_refs in
  if decide (refs = []) then Ok (bm, ∅) else
  let refs := sort_by_key ref_round refs in
  let! found := dw_contains_blocks d refs in
  for_each note_wanted (bm, ∅) (zip found refs).

(** ** Garbage collection *)

Fixpoint gc_loop (fuel : nat) (gc_round : Round) (bm : BlockManager) d : outcome (BlockManager * D) :=
  match fuel with
  | O => OutOfFuel
  | Datatypes.S fuel' =>
      match btree_first (missing_ancestors bm) with
      | None => Ok (bm, d)
      | Some (block_ref, _) =>
          if gc_round <? ref_round block_ref then Ok (bm, d)
          else
            do! hostname_of bm (ref_author block_ref) in
            do! rassert (bool_decide (suspended_blocks bm !! block_ref = None))
              "Block should not be suspended, as we are causally GC'ing and no suspended block should exist for a missing ancestor." in
            let bm := set_missing_blocks (missing_blocks bm ∖ {[block_ref]}) bm in
            let! '(bm, unsuspended) := try_unsuspend_children_blocks bm block_ref in
            let! d := dw_accept_blocks now d unsuspended in
            do! map_each (λ b, hostname_of bm (author b)) unsuspended in
            gc_loop fuel' gc_round bm d
      end
  end.

(** Every iteration removes the first missing ancestor. *)
Definition try_unsuspend_blocks_for_latest_gc_round (bm : BlockManager) d : outcome (BlockManager * D) :=
  gc_loop (1 + size (missing_ancestors bm)) (dw_gc_round d) bm d.
End with_dag.
