(* ===== verification/BlockManagerSpec.v ===== *)
(** * Correctness of the block manager

    The invariant that ties suspended blocks to their missing ancestors, and what every
    operation of [BlockManager] does to it and to the DAG. *)

From S2P Require Import Prelude Collections Weighted Committee Types Fixtures Commits StakeAggregator.
From S2P Require Import ThresholdClock LeaderScoring Storage DagState DagStateSpec DagTraversal.
From S2P Require Import DagRecovery BaseCommitter CommitSafety BlockManager.

Local Open Scope N_scope.

(** ** What the DAG promises to the manager *)

(** Accepting keeps a block that is already there. *)
Definition add_block_to (m : gmap BlockRef VerifiedBlock) (b : VerifiedBlock) : gmap BlockRef VerifiedBlock :=
  if decide (is_Some (m !! reference b)) then m else <[reference b := b]> m.
Definition add_blocks (bs : list VerifiedBlock) (m : gmap BlockRef VerifiedBlock) : gmap BlockRef VerifiedBlock :=
  foldl add_block_to m bs.

(** A verified block of another authority. *)
Record receivable (ctx : Context) (b : VerifiedBlock) : Prop := {
  rc_round : 0 < round b;
  rc_wf : ref_wf (reference b);
  rc_author : (author b < committee_size (committee ctx))%nat;
  rc_foreign : author b ≠ own_index ctx;
  rc_links a : a ∈ ancestors b → (ref_author a < committee_size (committee ctx))%nat ∧ ref_round a < round b;
}.

Class DagWriterLaws (D : Type) `{DagWriter D} := {
  dw_ok : D → Prop;
  dw_context : D → Context;
  dw_view : D → gmap BlockRef VerifiedBlock;
  dw_contains_law d refs : dw_ok d →
    (∀ r, r ∈ refs → (ref_author r < committee_size (committee (dw_context d)))%nat) →
    dw_contains_blocks d refs = Ok ((λ r, bool_decide (is_Some (dw_view d !! r))) <$> refs);
  dw_contains_one d r : dw_ok d → (ref_author r < committee_size (committee (dw_context d)))%nat →
    dw_contains_block d r = Ok (bool_decide (is_Some (dw_view d !! r)));
  dw_accept_law now d bs : dw_ok d → Forall (receivable (dw_context d)) bs →
    ∃ d', dw_accept_blocks now d bs = Ok d' ∧ dw_ok d' ∧ dw_context d' = dw_context d ∧
      dw_gc_round d' = dw_gc_round d ∧ dw_view d' = add_blocks bs (dw_view d);
}.

#[export] Instance dag_state_writer_laws {S : Type} `{Store S, !StoreLaws S} : DagWriterLaws (DagState S).
Proof.
  refine (@Build_DagWriterLaws (DagState S) _ dag_ok ds_context view _ _ _).
  - intros s refs Hok Hrefs. by apply contains_blocks_view.
  - intros s r Hok Hr. by apply contains_block_view.
  - intros now s bs Hok Hbs. revert s Hok Hbs. induction bs as [|b bs IH]; intros s Hok Hbs.
    { exists s. split_and!; done. }
    apply Forall_cons in Hbs as [[Hr Hwf Ha Hown _] Hbs].
    destruct (accept_block_spec now s b Hok Hr Hwf Ha) as (s1 & Hrun & Hok1 & Hv1 & Hc1 & Hl1 & _); [done|].
    rewrite <-Hc1 in Hbs. destruct (IH s1 Hok1 Hbs) as (s2 & Hrun2 & Hok2 & Hc2 & Hg2 & Hv2).
    exists s2. cbn. unfold accept_blocks in *. cbn [for_each]. rewrite Hrun. cbn [obind]. cbn in Hrun2, Hg2.
    split; [done|]. split; [done|]. split; [congruence|]. split.
    + rewrite Hg2. unfold gc_round, calculate_gc_round, last_commit_round. by rewrite Hc1, Hl1.
    + rewrite Hv2, Hv1. done.
Defined.

Lemma lookup_add_blocks bs m r b :
  add_blocks bs m !! r = Some b → m !! r = Some b ∨ (b ∈ bs ∧ reference b = r).
Proof.
  revert m. induction bs as [|x bs IH]; intros m; cbn; [by left|].
  intros [Hm|[Hin Hr]]%IH; [|right; split; [by right|done]].
  unfold add_block_to in Hm. case_decide; [by left|].
  apply lookup_insert_Some in Hm as [[<- <-]|[_ ?]]; [right; split; [left|done]|by left].
Qed.

Lemma add_blocks_mono bs m r b : m !! r = Some b → add_blocks bs m !! r = Some b.
Proof.
  revert m. induction bs as [|x bs IH]; intros m Hm; cbn; [done|]. apply IH. unfold add_block_to.
  case_decide as Hd; [done|]. rewrite lookup_insert_ne; [done|]. intros <-. by apply Hd.
Qed.

Lemma add_blocks_in bs m b : b ∈ bs → is_Some (add_blocks bs m !! reference b).
Proof.
  revert m. induction bs as [|x bs IH]; intros m Hb; [by apply elem_of_nil in Hb|].
  apply elem_of_cons in Hb as [->|Hb]; cbn; [|by apply IH].
  destruct (decide (is_Some (m !! reference x))) as [Hd|Hd].
  - destruct Hd as [y Hy]. exists y. apply add_blocks_mono. unfold add_block_to. by rewrite decide_True by done.
  - exists x. apply add_blocks_mono. unfold add_block_to. rewrite decide_False by done. apply lookup_insert_eq.
Qed.

Lemma add_blocks_app bs1 bs2 m : add_blocks (bs1 ++ bs2) m = add_blocks bs2 (add_blocks bs1 m).
Proof. apply foldl_app. Qed.

(** ** The invariant

    [V] are the blocks of the DAG together with those about to be accepted; [stack] are
    the references whose children are still to be looked at. *)

Definition settled (gc : Round) (V : gmap BlockRef VerifiedBlock) (r : BlockRef) : Prop :=
  is_Some (V !! r) ∨ ref_round r ≤ gc.

(** Every ancestor above the GC round is there, for the blocks outside [E]: the blocks of
    certified commits are accepted without looking at their ancestors. *)
Definition closed_above (gc : Round) (E : gset BlockRef) (V : gmap BlockRef VerifiedBlock) : Prop :=
  ∀ r b p, V !! r = Some b → r ∉ E → p ∈ ancestors b → gc < ref_round p → is_Some (V !! p).

(** The suspended blocks and their missing ancestors refer to each other, apart from
    the blocks of [pend], which still list [x]. *)
Record manager_inv (gc : Round) (V : gmap BlockRef VerifiedBlock) (stack : list BlockRef)
    (x : BlockRef) (pend : list BlockRef) (bm : BlockManager) : Prop := {
  mi_received : length (received_block_rounds bm) = committee_size (committee (bm_context bm));
  mi_suspended r su : suspended_blocks bm !! r = Some su →
    reference (su_block su) = r ∧ receivable (bm_context bm) (su_block su) ∧ su_missing su ≠ ∅ ∧ V !! r = None;
  mi_missing r su a : suspended_blocks bm !! r = Some su → a ∈ su_missing su →
    a ∈ ancestors (su_block su) ∧
    ((∃ ch, missing_ancestors bm !! a = Some ch ∧ r ∈ ch) ∨ (a = x ∧ r ∈ pend));
  mi_children a ch r : missing_ancestors bm !! a = Some ch → r ∈ ch →
    ∃ su, suspended_blocks bm !! r = Some su ∧ a ∈ su_missing su;
  mi_pend r : r ∈ pend → ∃ su, suspended_blocks bm !! r = Some su ∧ x ∈ su_missing su;
  mi_absent a ch : missing_ancestors bm !! a = Some ch → is_Some (V !! a) → a ∈ stack;
  mi_rest r su p : suspended_blocks bm !! r = Some su → p ∈ ancestors (su_block su) → p ∉ su_missing su →
    gc < ref_round p → is_Some (V !! p);
  mi_authors a ch : missing_ancestors bm !! a = Some ch → (ref_author a < committee_size (committee (bm_context bm)))%nat;
  mi_missing_blocks : missing_blocks bm =
    dom (missing_ancestors bm) ∖ dom (suspended_blocks bm) ∖ list_to_set stack;
}.

Lemma hostname_of_valid bm a :
  (a < committee_size (committee (bm_context bm)))%nat → ∃ h, hostname_of bm a = Ok h.
Proof.
  intros Ha. destruct (lookup_lt_is_Some_2 _ _ Ha) as [au Hau]. unfold hostname_of.
  rewrite (proj2 (authority_Ok _ _ au) Hau). by eexists.
Qed.

(** A suspended block stays suspended or is released. *)
Definition no_loss (bm bm' : BlockManager) (V' : gmap BlockRef VerifiedBlock) : Prop :=
  ∀ r, is_Some (suspended_blocks bm !! r) → is_Some (suspended_blocks bm' !! r) ∨ is_Some (V' !! r).

Section release.
Context (gc : Round) (E : gset BlockRef) (x : BlockRef).

(** One child that still misses another ancestor. *)
Lemma unsuspend_keeps V stack r pend bm su :
  manager_inv gc V stack x (r :: pend) bm → settled gc V x → missing_ancestors bm !! x = None → r ∉ pend →
  suspended_blocks bm !! r = Some su → su_missing su ∖ {[x]} ≠ ∅ →
  manager_inv gc V stack x pend (set_suspended
    (<[r := mkSuspendedBlock (su_block su) (su_missing su ∖ {[x]}) (su_timestamp su)]> (suspended_blocks bm)) bm).
Proof.
  intros Hinv Hset Hx Hr Hsu Hne. destruct (mi_suspended _ _ _ _ _ _ Hinv r su Hsu) as (Hr1 & Hr2 & _ & Hr4).
  split; cbn.
  - apply Hinv.
  - intros r' su' [[<- <-]|[_ Hsu']]%lookup_insert_Some; [done|by apply (mi_suspended _ _ _ _ _ _ Hinv)].
  - intros r' su' a [[<- <-]|[Hn Hsu']]%lookup_insert_Some Ha; cbn in *.
    + apply elem_of_difference in Ha as [Ha Hax]. destruct (mi_missing _ _ _ _ _ _ Hinv r su a Hsu Ha) as [? [?|[-> _]]]; [tauto|].
      by rewrite elem_of_singleton in Hax.
    + destruct (mi_missing _ _ _ _ _ _ Hinv r' su' a Hsu' Ha) as [? [?|[-> [->|?]%elem_of_cons]]]; [tauto|done|tauto].
  - intros a ch r' Ha Hr'. destruct (mi_children _ _ _ _ _ _ Hinv a ch r' Ha Hr') as (su' & Hsu' & Hin).
    destruct (decide (r = r')) as [<-|Hn]; [|exists su'; by rewrite lookup_insert_ne].
    assert (su' = su) as -> by congruence. eexists. split; [by apply lookup_insert_eq|]. cbn.
    rewrite elem_of_difference, elem_of_singleton. split; [done|]. congruence.
  - intros r' Hr'. destruct (mi_pend _ _ _ _ _ _ Hinv r') as (su' & ? & ?); [by right|]. exists su'.
    rewrite lookup_insert_ne by (intros ->; done). done.
  - apply Hinv.
  - intros r' su' p [[<- <-]|[_ Hsu']]%lookup_insert_Some Hp Hm Hgc; cbn in *;
      [|by apply (mi_rest _ _ _ _ _ _ Hinv r' su' p)].
    destruct (decide (p = x)) as [->|Hpx]; [by destruct Hset; [|lia]|].
    apply (mi_rest _ _ _ _ _ _ Hinv r su p); [done..| |done]. set_solver.
  - apply Hinv.
  - rewrite (mi_missing_blocks _ _ _ _ _ _ Hinv), dom_insert_L.
    assert ({[r]} ∪ dom (suspended_blocks bm) = dom (suspended_blocks bm)) as ->; [|done].
    apply subseteq_union_1_L, singleton_subseteq_l. by apply elem_of_dom_2 in Hsu.
Qed.

(** One child whose last missing ancestor is settled. *)
Lemma unsuspend_releases V stack r pend bm su :
  manager_inv gc V stack x (r :: pend) bm → settled gc V x → missing_ancestors bm !! x = None → r ∉ pend →
  suspended_blocks bm !! r = Some su → su_missing su ∖ {[x]} = ∅ → closed_above gc E V →
  manager_inv gc (<[r := su_block su]> V) (r :: stack) x pend (set_suspended (delete r (suspended_blocks bm)) bm) ∧
  closed_above gc E (<[r := su_block su]> V).
Proof.
  intros Hinv Hset Hx Hr Hsu He Hcl. destruct (mi_suspended _ _ _ _ _ _ Hinv r su Hsu) as (Hr1 & Hr2 & _ & Hr4).
  assert (Honly : ∀ a, a ∈ su_missing su → a = x).
  { intros a Ha. destruct (decide (a = x)) as [?|Hax]; [done|].
    assert (a ∈ su_missing su ∖ {[x]}) as Hin by (by rewrite elem_of_difference, elem_of_singleton).
    rewrite He in Hin. by apply not_elem_of_empty in Hin. }
  assert (Hmono : ∀ p, is_Some (V !! p) → is_Some (<[r := su_block su]> V !! p)).
  { intros p Hp. rewrite lookup_insert_is_Some'. tauto. }
  split; [split; cbn|].
  - apply Hinv.
  - intros r' su' [Hn Hsu']%lookup_delete_Some. rewrite lookup_insert_ne by done.
    by apply (mi_suspended _ _ _ _ _ _ Hinv).
  - intros r' su' a [Hn Hsu']%lookup_delete_Some Ha.
    destruct (mi_missing _ _ _ _ _ _ Hinv r' su' a Hsu' Ha) as [? [?|[-> [->|?]%elem_of_cons]]]; [tauto|done|tauto].
  - intros a ch r' Ha Hr'. destruct (mi_children _ _ _ _ _ _ Hinv a ch r' Ha Hr') as (su' & Hsu' & Hin).
    exists su'. split; [|done]. rewrite lookup_delete_ne; [done|]. intros <-.
    assert (su' = su) as -> by congruence. rewrite (Honly a Hin) in Ha. congruence.
  - intros r' Hr'. destruct (mi_pend _ _ _ _ _ _ Hinv r') as (su' & ? & ?); [by right|]. exists su'.
    rewrite lookup_delete_ne by (intros ->; done). done.
  - intros a ch Ha Hv. destruct (decide (a = r)) as [->|Hn]; [left|right].
    rewrite lookup_insert_ne in Hv by done. by apply (mi_absent _ _ _ _ _ _ Hinv a ch).
  - intros r' su' p [Hn Hsu']%lookup_delete_Some Hp Hm Hgc. by apply Hmono, (mi_rest _ _ _ _ _ _ Hinv r' su' p).
  - apply Hinv.
  - rewrite (mi_missing_blocks _ _ _ _ _ _ Hinv), dom_delete_L.
    assert (r ∈ dom (suspended_blocks bm)) by (by apply elem_of_dom_2 in Hsu).
    apply set_eq. intros y. rewrite !elem_of_difference, elem_of_union, elem_of_singleton.
    destruct (decide (y = r)); naive_solver.
  - intros r' b p [[<- <-]|[_ Hb]]%lookup_insert_Some HE Hp Hgc; [|by apply Hmono, (Hcl r' b p)].
    apply Hmono. destruct (decide (p ∈ su_missing su)) as [Hm|Hm].
    + rewrite (Honly p Hm) in *. destruct Hset; [done|lia].
    + by apply (mi_rest _ _ _ _ _ _ Hinv r su p).
Qed.

(** All the children of a settled reference. *)
Lemma unsuspend_children l : ∀ V stack us bm,
  manager_inv gc V stack x l bm → settled gc V x → missing_ancestors bm !! x = None → NoDup l → closed_above gc E V →
  ∃ bm' new, for_each (unsuspend_child x) (bm, stack, us) l =
      Ok (bm', reverse (reference ∘ su_block <$> new) ++ stack, us ++ new) ∧
    manager_inv gc (add_blocks (su_block <$> new) V) (reverse (reference ∘ su_block <$> new) ++ stack) x [] bm' ∧
    closed_above gc E (add_blocks (su_block <$> new) V) ∧
    missing_ancestors bm' = missing_ancestors bm ∧ bm_context bm' = bm_context bm ∧
    Forall (λ su, receivable (bm_context bm) (su_block su)) new ∧
    (size (suspended_blocks bm') + length new = size (suspended_blocks bm))%nat ∧
    no_loss bm bm' (add_blocks (su_block <$> new) V).
Proof.
  induction l as [|r l IH]; intros V stack us bm Hinv Hset Hx Hnd Hcl.
  { exists bm, []. cbn. rewrite app_nil_r. split_and!; try done. intros r; tauto. }
  apply NoDup_cons in Hnd as [Hr Hnd]. destruct (mi_pend _ _ _ _ _ _ Hinv r ltac:(left)) as (su & Hsu & Hin).
  cbn [for_each unsuspend_child]. unfold try_unsuspend_block. rewrite Hsu. cbn [expect obind].
  rewrite rassert_true by (by apply bool_decide_eq_true). cbn [obind su_missing].
  case_decide as Hm; cbn [obind].
  - destruct (unsuspend_releases V stack r l bm su Hinv Hset Hx Hr Hsu Hm Hcl) as [Hinv' Hcl'].
    destruct (mi_suspended _ _ _ _ _ _ Hinv r su Hsu) as (Href & Hrec & _ & Hnone).
    cbn [su_block]. rewrite Href.
    destruct (IH _ _ (us ++ [mkSuspendedBlock (su_block su) (su_missing su ∖ {[x]}) (su_timestamp su)]) _ Hinv')
      as (bm' & new & Hrun & Hinv2 & Hcl2 & Hma & Hctx & Hrecs & Hsize & Hloss); [|done..|].
    { destruct Hset as [?|?]; [left|by right]. rewrite lookup_insert_is_Some'. tauto. }
    exists bm', (mkSuspendedBlock (su_block su) (su_missing su ∖ {[x]}) (su_timestamp su) :: new).
    assert (add_blocks (su_block <$> mkSuspendedBlock (su_block su) (su_missing su ∖ {[x]}) (su_timestamp su) :: new) V =
      add_blocks (su_block <$> new) (<[r := su_block su]> V)) as ->.
    { cbn. unfold add_block_to. by rewrite Href, decide_False by (rewrite Hnone; by intros []). }
    rewrite fmap_cons, reverse_cons, <-!app_assoc. cbn [app compose su_block]. rewrite Href.
    rewrite Hrun, <-app_assoc. split_and!; try done; [by constructor|..].
    + cbn in Hsize |- *. rewrite map_size_delete, Hsu in Hsize.
      pose proof (map_size_ne_0_lookup_2 (suspended_blocks bm) r (mk_is_Some _ _ Hsu)). lia.
    + intros r' Hr'. destruct (decide (r' = r)) as [->|Hn].
      * right. exists (su_block su). apply add_blocks_mono, lookup_insert_eq.
      * apply Hloss. cbn. by rewrite lookup_delete_ne.
  - destruct (IH _ _ us _ (unsuspend_keeps V stack r l bm su Hinv Hset Hx Hr Hsu Hm)) as
      (bm' & new & Hrun & Hinv2 & Hcl2 & Hma & Hctx & Hrecs & Hsize & Hloss); [done..|].
    exists bm', new. split_and!; try done.
    + cbn in Hsize. rewrite map_size_insert, Hsu in Hsize. done.
    + intros r' Hr'. apply Hloss. cbn. rewrite lookup_insert_is_Some'. tauto.
Qed.
End release.

Abbreviation manager_ok gc V stack bm := (manager_inv gc V stack (mkBlockRef 0 0 0) [] bm).

Lemma manager_inv_any gc V stack x y bm : manager_inv gc V stack x [] bm → manager_inv gc V stack y [] bm.
Proof.
  intros Hinv. split; try apply Hinv.
  - intros r su a Hsu Ha. destruct (mi_missing _ _ _ _ _ _ Hinv r su a Hsu Ha) as [? [?|[_ Hp]]]; [tauto|].
    by apply elem_of_nil in Hp.
  - intros r Hr. by apply elem_of_nil in Hr.
Qed.

Section loop.
Context (gc : Round) (E : gset BlockRef).

(** A reference without children is popped. *)
Lemma manager_inv_pop V y stack bm :
  manager_ok gc V (y :: stack) bm → missing_ancestors bm !! y = None → manager_ok gc V stack bm.
Proof.
  intros Hinv Hy. split; try apply Hinv.
  - intros a ch Ha Hv. apply (mi_absent _ _ _ _ _ _ Hinv a ch Ha), elem_of_cons in Hv as [->|?]; [congruence|done].
  - rewrite (mi_missing_blocks _ _ _ _ _ _ Hinv). apply not_elem_of_dom in Hy. apply set_eq. intros z.
    cbn. rewrite !elem_of_difference, elem_of_union, elem_of_singleton. naive_solver.
Qed.

(** A reference with children is popped and its children are pending. *)
Lemma manager_inv_pop_children V y stack bm children :
  manager_ok gc V (y :: stack) bm → missing_ancestors bm !! y = Some children →
  manager_inv gc V stack y (bset_iter children) (set_missing_ancestors (delete y (missing_ancestors bm)) bm).
Proof.
  intros Hinv Hy. split; cbn; try apply Hinv.
  - intros r su a Hsu Ha. destruct (mi_missing _ _ _ _ _ _ Hinv r su a Hsu Ha) as [Hanc [(ch & Hch & Hr)|[_ Hp]]];
      [|by apply elem_of_nil in Hp]. split; [done|].
    destruct (decide (a = y)) as [->|Hn]; [right|left].
    + split; [done|]. apply elem_of_bset_iter. congruence.
    + exists ch. by rewrite lookup_delete_ne.
  - intros a ch r [_ Ha]%lookup_delete_Some Hr. by apply (mi_children _ _ _ _ _ _ Hinv a ch).
  - intros r Hr%elem_of_bset_iter. by apply (mi_children _ _ _ _ _ _ Hinv y children).
  - intros a ch [Hn Ha]%lookup_delete_Some Hv.
    apply (mi_absent _ _ _ _ _ _ Hinv a ch Ha), elem_of_cons in Hv as [->|?]; done.
  - intros a ch [_ Ha]%lookup_delete_Some. by apply (mi_authors _ _ _ _ _ _ Hinv a ch).
  - rewrite (mi_missing_blocks _ _ _ _ _ _ Hinv), dom_delete_L. apply set_eq. intros z.
    cbn. rewrite !elem_of_difference, elem_of_union, elem_of_singleton. naive_solver.
Qed.

Lemma settled_mono V bs r : settled gc V r → settled gc (add_blocks bs V) r.
Proof. intros [[b Hb]|?]; [left|by right]. exists b. by apply add_blocks_mono. Qed.

Lemma unsuspend_loop_spec fuel : ∀ V stack us bm,
  manager_ok gc V stack bm → Forall (settled gc V) stack → closed_above gc E V →
  (length stack + size (suspended_blocks bm) < fuel)%nat →
  ∃ bm' new, unsuspend_loop fuel bm stack us = Ok (bm', us ++ new) ∧
    manager_ok gc (add_blocks (su_block <$> new) V) [] bm' ∧ closed_above gc E (add_blocks (su_block <$> new) V) ∧
    bm_context bm' = bm_context bm ∧ Forall (λ su, receivable (bm_context bm) (su_block su)) new ∧
    dom (missing_ancestors bm') ⊆ dom (missing_ancestors bm) ∧
    (∀ y, y ∈ stack → missing_ancestors bm' !! y = None) ∧ no_loss bm bm' (add_blocks (su_block <$> new) V).
Proof.
  induction fuel as [|fuel IH]; intros V stack us bm Hinv Hst Hcl Hf; [lia|]. cbn [unsuspend_loop].
  destruct stack as [|y stack].
  { exists bm, []. cbn. rewrite app_nil_r. split_and!; try done; [|intros r; tauto].
    intros y Hy. by apply elem_of_nil in Hy. }
  apply Forall_cons in Hst as [Hy Hst]. cbn in Hf.
  destruct (missing_ancestors bm !! y) as [children|] eqn:Hch.
  - pose proof (manager_inv_pop_children V y stack bm children Hinv Hch) as Hinv1.
    destruct (unsuspend_children gc E y (bset_iter children) V stack us _ Hinv1 Hy) as
      (bm1 & new1 & -> & Hinv2 & Hcl2 & Hma & Hctx & Hrec & Hsize & Hloss); [apply lookup_delete_eq|apply NoDup_bset_iter|done|].
    cbn [obind]. cbn in Hma, Hctx, Hsize.
    apply (manager_inv_any _ _ _ _ (mkBlockRef 0 0 0)) in Hinv2.
    destruct (IH _ _ (us ++ new1) bm1 Hinv2) as
      (bm2 & new2 & Hrun & Hinv3 & Hcl3 & Hctx3 & Hrec3 & Hdom3 & Hst3 & Hloss3); [|done|..].
    { apply Forall_app. split; [|eapply Forall_impl; [done|]; intros; by apply settled_mono].
      apply Forall_reverse, Forall_forall. intros r (su & -> & Hsu)%list_elem_of_fmap. left. cbn.
      apply add_blocks_in. by apply list_elem_of_fmap_2. }
    { rewrite length_app, length_reverse, length_fmap. lia. }
    exists bm2, (new1 ++ new2). rewrite Hrun, app_assoc, fmap_app, add_blocks_app. split; [done|].
    split; [done|]. split; [done|]. split; [congruence|].
    split; [apply Forall_app; rewrite Hctx in Hrec3; done|]. rewrite Hma, dom_delete_L in Hdom3. split; [set_solver|]. split.
    + intros z [->|Hz]%elem_of_cons; [|apply Hst3, elem_of_app; by right].
      apply not_elem_of_dom. set_solver.
    + intros r Hr. destruct (Hloss r Hr) as [?|[b Hb]]; [by apply Hloss3|right]. exists b. by apply add_blocks_mono.
  - destruct (IH V stack us bm) as
      (bm2 & new2 & Hrun & Hinv3 & Hcl3 & Hctx3 & Hrec3 & Hdom3 & Hst3 & Hloss3);
      [by eapply manager_inv_pop|done|done|lia|].
    exists bm2, new2. split_and!; try done. intros z [->|Hz]%elem_of_cons; [|by apply Hst3].
    apply not_elem_of_dom. apply not_elem_of_dom in Hch. set_solver.
Qed.

(** Releasing the children of one settled reference. *)
Lemma try_unsuspend_children_spec V x bm :
  manager_ok gc V [x] bm → settled gc V x → closed_above gc E V →
  ∃ bm' new, try_unsuspend_children_blocks bm x = Ok (bm', new) ∧
    manager_ok gc (add_blocks new V) [] bm' ∧ closed_above gc E (add_blocks new V) ∧
    bm_context bm' = bm_context bm ∧ Forall (receivable (bm_context bm)) new ∧
    dom (missing_ancestors bm') ⊆ dom (missing_ancestors bm) ∧ missing_ancestors bm' !! x = None ∧
    no_loss bm bm' (add_blocks new V).
Proof.
  intros Hinv Hx Hcl. unfold try_unsuspend_children_blocks.
  destruct (unsuspend_loop_spec (unsuspend_fuel bm) V [x] [] bm Hinv) as
    (bm' & new & Hrun & Hinv' & Hcl' & Hctx & Hrec & Hdom & Hst & Hloss);
    [by constructor|done|unfold unsuspend_fuel; cbn; lia|].
  rewrite Hrun. cbn [obind app].
  destruct (map_each_total (λ b, hostname_of bm' (author (su_block b))) new) as [hs ->].
  { intros su Hsu. rewrite Forall_forall in Hrec. apply hostname_of_valid. rewrite Hctx. by apply Hrec. }
  cbn [obind]. exists bm', (su_block <$> new). split_and!; try done.
  - apply Forall_fmap. done.
  - apply Hst. left.
Qed.
End loop.

(** ** Noting the missing ancestors of a block *)

Section note.
Context (V : gmap BlockRef VerifiedBlock) (r : BlockRef).

Definition unknown (ancs : list BlockRef) : gset BlockRef := list_to_set (filter (λ a, V !! a = None) ancs).

Lemma elem_of_unknown ancs a : a ∈ unknown ancs ↔ V !! a = None ∧ a ∈ ancs.
Proof. unfold unknown. by rewrite elem_of_list_to_set, list_elem_of_filter. Qed.

(** [ma'] is [ma] with [r] waiting for the references of [m]. *)
Definition marked (m : gset BlockRef) (ma ma' : gmap BlockRef (gset BlockRef)) : Prop :=
  ∀ a, ma' !! a = if decide (a ∈ m) then Some ({[r]} ∪ default ∅ (ma !! a)) else ma !! a.

Lemma marked_insert m ma ma' a :
  marked m ma ma' → marked ({[a]} ∪ m) ma (<[a := {[r]} ∪ default ∅ (ma' !! a)]> ma').
Proof.
  intros Hm b. destruct (decide (b = a)) as [->|Hn].
  - rewrite lookup_insert_eq, decide_True by set_solver. rewrite (Hm a). case_decide; cbn; [|done].
    f_equal. set_solver.
  - rewrite lookup_insert_ne, (Hm b) by done. case_decide; [rewrite decide_True by set_solver|rewrite decide_False by set_solver]; done.
Qed.

Lemma note_ancestors_spec ancs : ∀ bm m f ma0,
  (∀ a, a ∈ ancs → (ref_author a < committee_size (committee (bm_context bm)))%nat) →
  marked m ma0 (missing_ancestors bm) →
  ∃ bm', for_each (note_ancestor r) (bm, m, f) (zip ((λ a, bool_decide (is_Some (V !! a))) <$> ancs) ancs) =
      Ok (bm', m ∪ unknown ancs, f ∪ (unknown ancs ∖ dom (suspended_blocks bm))) ∧
    bm_context bm' = bm_context bm ∧ suspended_blocks bm' = suspended_blocks bm ∧
    received_block_rounds bm' = received_block_rounds bm ∧
    missing_blocks bm' = missing_blocks bm ∪ (unknown ancs ∖ dom (suspended_blocks bm)) ∧
    marked (m ∪ unknown ancs) ma0 (missing_ancestors bm').
Proof.
  induction ancs as [|a ancs IH]; intros bm m f ma0 Hval Hm.
  { exists bm. unfold unknown. cbn. assert (∅ ∖ dom (suspended_blocks bm) = (∅ : gset BlockRef)) as -> by set_solver.
    rewrite !union_empty_r_L. done. }
  assert (Hval' : ∀ a, a ∈ ancs → (ref_author a < committee_size (committee (bm_context bm)))%nat)
    by (intros b Hb; apply Hval; by right).
  cbn [fmap list_fmap zip zip_with for_each note_ancestor]. case_bool_decide as Hv.
  - destruct (IH bm m f ma0 Hval' Hm) as (bm' & Hrun & Hrest). exists bm'.
    assert (unknown (a :: ancs) = unknown ancs) as ->; [|done].
    unfold unknown. rewrite filter_cons, decide_False; [done|]. intros Hn. rewrite Hn in Hv. by destruct Hv.
  - assert (Hnone : V !! a = None) by (by apply eq_None_not_Some).
    assert (Hun : unknown (a :: ancs) = {[a]} ∪ unknown ancs).
    { unfold unknown. by rewrite filter_cons, decide_True by done. }
    assert (Hassoc : ∀ u w : gset BlockRef, u ∪ ({[a]} ∪ w) = {[a]} ∪ u ∪ w) by set_solver.
    rewrite Hun. set (bm1 := set_missing_ancestors _ bm).
    destruct (hostname_of_valid bm1 (ref_author a)) as [h ->]; [apply Hval; left|]. cbn [obind].
    pose proof (marked_insert m ma0 _ a Hm) as Hm1. change (suspended_blocks bm1) with (suspended_blocks bm).
    destruct (suspended_blocks bm !! a) as [su|] eqn:Hsu; cbn [obind].
    + destruct (IH bm1 ({[a]} ∪ m) f ma0 Hval' Hm1) as (bm' & Hrun & Hc & Hs & Hr & Hmb & Hma). exists bm'.
      apply elem_of_dom_2 in Hsu. change (suspended_blocks bm1) with (suspended_blocks bm) in *.
      assert (({[a]} ∪ unknown ancs) ∖ dom (suspended_blocks bm) = unknown ancs ∖ dom (suspended_blocks bm)) as ->
        by set_solver.
      by rewrite Hassoc.
    + destruct (IH (set_missing_blocks ({[a]} ∪ missing_blocks bm1) bm1) ({[a]} ∪ m) ({[a]} ∪ f) ma0 Hval' Hm1)
        as (bm' & Hrun & Hc & Hs & Hr & Hmb & Hma). exists bm'. apply not_elem_of_dom in Hsu.
      cbn [set_missing_blocks suspended_blocks missing_blocks bm_context received_block_rounds] in *.
      change (suspended_blocks bm1) with (suspended_blocks bm) in *.
      change (missing_blocks bm1) with (missing_blocks bm) in *.
      assert (({[a]} ∪ unknown ancs) ∖ dom (suspended_blocks bm) =
        {[a]} ∪ (unknown ancs ∖ dom (suspended_blocks bm))) as -> by set_solver.
      by rewrite !Hassoc.
Qed.
End note.

(** ** Receiving a block *)

(** The ancestors a block needs. *)
Definition needed (gc : Round) (b : VerifiedBlock) : list BlockRef :=
  filter (λ a, ref_round a = GENESIS_ROUND ∨ gc < ref_round a) (ancestors b).

Section receive.
Context (gc : Round) (V : gmap BlockRef VerifiedBlock) (bm bm1 : BlockManager) (block : VerifiedBlock).
Hypothesis Hinv : manager_ok gc V [] bm.
Hypothesis Hrec : receivable (bm_context bm) block.
Hypothesis Hsus : suspended_blocks bm !! reference block = None.
Hypothesis Hnew : V !! reference block = None.
(** The manager after noting the missing ancestors. *)
Hypothesis Hctx : bm_context bm1 = bm_context bm.
Hypothesis Hrounds : received_block_rounds bm1 = received_block_rounds bm.
Hypothesis Hsusp : suspended_blocks bm1 = suspended_blocks bm.
Hypothesis Hmb : missing_blocks bm1 =
  (missing_blocks bm ∪ (unknown V (needed gc block) ∖ dom (suspended_blocks bm))) ∖ {[reference block]}.
Hypothesis Hma : marked (reference block) (unknown V (needed gc block)) (missing_ancestors bm) (missing_ancestors bm1).

(** All ancestors are there. *)
Lemma accept_inv :
  unknown V (needed gc block) = ∅ → manager_ok gc (<[reference block := block]> V) [reference block] bm1.
Proof using All.
  intros He. rewrite He in *.
  assert (Hmaeq : ∀ a, missing_ancestors bm1 !! a = missing_ancestors bm !! a) by (intros a; rewrite (Hma a); done).
  split; rewrite ?Hctx, ?Hrounds, ?Hsusp.
  - apply Hinv.
  - intros r su Hsu. rewrite lookup_insert_ne by congruence. by apply (mi_suspended _ _ _ _ _ _ Hinv).
  - intros r su a Hsu Ha. rewrite Hmaeq. by apply (mi_missing _ _ _ _ _ _ Hinv r su a).
  - intros a ch r. rewrite Hmaeq. apply (mi_children _ _ _ _ _ _ Hinv).
  - intros r Hr. by apply elem_of_nil in Hr.
  - intros a ch. rewrite Hmaeq. intros Ha Hv. apply list_elem_of_singleton.
    destruct (decide (a = reference block)) as [?|Hn]; [done|]. rewrite lookup_insert_ne in Hv by done.
    by apply (mi_absent _ _ _ _ _ _ Hinv a ch), elem_of_nil in Hv.
  - intros r su p Hsu Hp Hm Hgc. rewrite lookup_insert_is_Some'. right. by apply (mi_rest _ _ _ _ _ _ Hinv r su p).
  - intros a ch. rewrite Hmaeq. apply (mi_authors _ _ _ _ _ _ Hinv).
  - assert (missing_ancestors bm1 = missing_ancestors bm) as -> by (by apply map_eq).
    rewrite Hmb, (mi_missing_blocks _ _ _ _ _ _ Hinv). set_solver.
Qed.

Lemma accept_closed E :
  unknown V (needed gc block) = ∅ → closed_above gc E V → closed_above gc E (<[reference block := block]> V).
Proof using Type.
  clear Hinv Hrec Hsus Hnew Hctx Hrounds Hsusp Hmb Hma. intros He Hcl r b p Hb HE Hp Hgc. rewrite lookup_insert_is_Some'. right.
  apply lookup_insert_Some in Hb as [[_ <-]|[_ Hb]]; [|by apply (Hcl r b p)].
  destruct (V !! p) eqn:Hv; [by eexists|]. exfalso.
  assert (p ∈ unknown V (needed gc block)) as Hin; [|rewrite He in Hin; by apply not_elem_of_empty in Hin].
  apply elem_of_unknown. split; [done|]. apply list_elem_of_filter. tauto.
Qed.

(** Some ancestor is missing. *)
Lemma suspend_inv (now : Instant) :
  unknown V (needed gc block) ≠ ∅ →
  manager_ok gc V [] (set_suspended
    (<[reference block := mkSuspendedBlock block (unknown V (needed gc block)) now]> (suspended_blocks bm1)) bm1).
Proof using All.
  intros Hne.
  assert (Hunk : ∀ a, a ∈ unknown V (needed gc block) → V !! a = None ∧ a ∈ ancestors block).
  { intros a [? [_ ?]%list_elem_of_filter]%elem_of_unknown. done. }
  assert (Hch : ∀ a ch, missing_ancestors bm1 !! a = Some ch →
    (a ∈ unknown V (needed gc block) ∧ ch = {[reference block]} ∪ default ∅ (missing_ancestors bm !! a)) ∨
    (¬ (a ∈ unknown V (needed gc block)) ∧ missing_ancestors bm !! a = Some ch)).
  { intros a ch. rewrite (Hma a). case_decide; [intros [= <-]; tauto|tauto]. }
  split; cbn; rewrite ?Hctx, ?Hrounds, ?Hsusp.
  - apply Hinv.
  - intros r su [[<- <-]|[_ Hsu]]%lookup_insert_Some; [done|]. by apply (mi_suspended _ _ _ _ _ _ Hinv).
  - intros r su a [[<- <-]|[Hn Hsu]]%lookup_insert_Some Ha; cbn in *.
    + split; [by apply Hunk|left]. rewrite (Hma a), decide_True by done. eexists. split; [done|]. set_solver.
    + destruct (mi_missing _ _ _ _ _ _ Hinv r su a Hsu Ha) as [? [(ch & Hch' & ?)|[_ Hp]]]; [|by apply elem_of_nil in Hp].
      split; [done|left]. rewrite (Hma a), Hch'. case_decide; eexists; (split; [done|]); [cbn; set_solver|done].
  - intros a ch r Ha Hr.
    assert (Hold : ∀ ch', missing_ancestors bm !! a = Some ch' → r ∈ ch' → ∃ su,
      <[reference block := mkSuspendedBlock block (unknown V (needed gc block)) now]> (suspended_blocks bm) !! r = Some su ∧
      a ∈ su_missing su).
    { intros ch' Hch' Hr'. destruct (mi_children _ _ _ _ _ _ Hinv a ch' r Hch' Hr') as (su & Hsu & ?).
      exists su. rewrite lookup_insert_ne; [done|]. congruence. }
    destruct (Hch a ch Ha) as [[Hu ->]|[_ Ha']]; [|by apply (Hold ch)].
    apply elem_of_union in Hr as [->%elem_of_singleton|Hr]; [eexists; split; [apply lookup_insert_eq|done]|].
    destruct (missing_ancestors bm !! a) as [ch'|] eqn:Hc; [by apply (Hold ch')|]. by apply not_elem_of_empty in Hr.
  - intros r Hr. by apply elem_of_nil in Hr.
  - intros a ch Ha Hv. destruct (Hch a ch Ha) as [[Hu _]|[_ Ha']].
    + destruct (Hunk a Hu) as [Hnone _]. rewrite Hnone in Hv. by destruct Hv.
    + by apply (mi_absent _ _ _ _ _ _ Hinv a ch).
  - intros r su p [[<- <-]|[_ Hsu]]%lookup_insert_Some Hp Hm Hgc; cbn in *; [|by apply (mi_rest _ _ _ _ _ _ Hinv r su p)].
    destruct (V !! p) eqn:Hv; [by eexists|]. exfalso. apply Hm, elem_of_unknown. split; [done|].
    apply list_elem_of_filter. tauto.
  - intros a ch Ha. destruct (Hch a ch Ha) as [[Hu _]|[_ Ha']]; [|by apply (mi_authors _ _ _ _ _ _ Hinv a ch)].
    apply (rc_links _ _ Hrec), Hunk, Hu.
  - rewrite Hmb, (mi_missing_blocks _ _ _ _ _ _ Hinv), dom_insert_L.
    assert (dom (missing_ancestors bm1) = dom (missing_ancestors bm) ∪ unknown V (needed gc block)) as ->.
    { apply set_eq. intros a. rewrite elem_of_union, !elem_of_dom, (Hma a).
      case_decide; [|tauto]. split; [tauto|by eexists]. }
    set_solver.
Qed.
End receive.

(** Blocks are filed under their reference and link downwards. *)
Definition linked (ctx : Context) (V : gmap BlockRef VerifiedBlock) : Prop :=
  ∀ r b, V !! r = Some b → reference b = r ∧
    ∀ p, p ∈ ancestors b → (ref_author p < committee_size (committee ctx))%nat ∧ ref_round p < round b.

Lemma linked_add ctx V bs : linked ctx V → Forall (receivable ctx) bs → linked ctx (add_blocks bs V).
Proof.
  intros HV Hbs r b [Hb|[Hb Hr]]%lookup_add_blocks; [by apply HV|]. split; [done|].
  rewrite Forall_forall in Hbs. apply (rc_links _ _ (Hbs b Hb)).
Qed.

Section accepting.
Context {D : Type} `{DagWriter D, !DagWriterLaws D} (now : Instant) (E : gset BlockRef).
Implicit Types d : D.

(** The manager and the DAG between two calls. *)
Record manager_state (bm : BlockManager) d : Prop := {
  ms_ok : dw_ok d;
  ms_context : bm_context bm = dw_context d;
  ms_inv : manager_ok (dw_gc_round d) (dw_view d) [] bm;
  ms_closed : closed_above (dw_gc_round d) E (dw_view d);
  ms_linked : linked (dw_context d) (dw_view d);
}.

Lemma add_block_new V b : V !! reference b = None → add_blocks [b] V = <[reference b := b]> V.
Proof. intros Hn. cbn. unfold add_block_to. rewrite decide_False; [done|]. rewrite Hn. by intros []. Qed.

Lemma release_and_accept_spec bm d r bs accepted missing :
  dw_ok d → bm_context bm = dw_context d → linked (dw_context d) (dw_view d) → Forall (receivable (dw_context d)) bs →
  manager_ok (dw_gc_round d) (add_blocks bs (dw_view d)) [r] bm →
  closed_above (dw_gc_round d) E (add_blocks bs (dw_view d)) →
  settled (dw_gc_round d) (add_blocks bs (dw_view d)) r →
  ∃ bm' d' new, release_and_accept now bm d r bs accepted missing = Ok (bm', d', accepted ++ bs ++ new, missing) ∧
    manager_state bm' d' ∧ dw_context d' = dw_context d ∧ dw_gc_round d' = dw_gc_round d ∧
    dw_view d' = add_blocks (bs ++ new) (dw_view d) ∧ Forall (receivable (dw_context d)) new ∧
    no_loss bm bm' (dw_view d').
Proof using Type*.
  intros Hok Hctx Hlk Hbs Hinv Hcl Hset. unfold release_and_accept.
  destruct (try_unsuspend_children_spec (dw_gc_round d) E _ r bm Hinv Hset Hcl) as
    (bm' & new & -> & Hinv' & Hcl' & Hctx' & Hrec & _ & _ & Hloss). cbn [obind]. rewrite Hctx in Hrec.
  destruct (dw_accept_law now d (bs ++ new) Hok) as (d' & -> & Hok' & Hc' & Hg' & Hv'); [by apply Forall_app|].
  cbn [obind]. exists bm', d', new. split; [done|]. rewrite <-add_blocks_app, <-Hv', <-Hg' in Hinv', Hcl'.
  rewrite <-add_blocks_app, <-Hv' in Hloss. split; [|done]. split; [done|congruence|done..|].
  rewrite Hv', Hc'. apply linked_add; [done|]. by apply Forall_app.
Qed.

(** What receiving one block does. *)
Definition received (gc : Round) (V : gmap BlockRef VerifiedBlock) (bm : BlockManager) (block : VerifiedBlock)
    (bm' : BlockManager) (res : TryAcceptResult) : Prop :=
  match res with
  | Processed => bm' = bm ∧ (is_Some (V !! reference block) ∨ is_Some (suspended_blocks bm !! reference block))
  | Skipped => bm' = bm ∧ round block ≤ gc
  | Accepted b => b = block ∧ V !! reference block = None ∧ bm_context bm' = bm_context bm ∧
      manager_ok gc (<[reference block := block]> V) [reference block] bm' ∧
      closed_above gc E (<[reference block := block]> V) ∧ suspended_blocks bm' = suspended_blocks bm
  | Suspended to_fetch => manager_ok gc V [] bm' ∧ bm_context bm' = bm_context bm ∧
      (∃ su, suspended_blocks bm' = <[reference block := su]> (suspended_blocks bm)) ∧
      (∀ a, a ∈ to_fetch ↔ a ∈ needed gc block ∧ V !! a = None ∧ suspended_blocks bm !! a = None)
  end.

Lemma try_accept_one_block_spec bm d block :
  manager_state bm d → receivable (dw_context d) block →
  ∃ bm' res, try_accept_one_block now bm d block = Ok (bm', res) ∧
    received (dw_gc_round d) (dw_view d) bm block bm' res.
Proof using Type*.
  intros [Hok Hctx Hinv Hcl _] Hrec. unfold try_accept_one_block.
  destruct (suspended_blocks bm !! reference block) as [su|] eqn:Hsu; cbn [obind].
  { exists bm, Processed. split; [done|]. split; [done|]. right. rewrite Hsu. by eexists. }
  rewrite dw_contains_one by (done || apply Hrec). cbn [obind]. case_bool_decide as Hv.
  { exists bm, Processed. split; [done|]. split; [done|by left]. }
  apply eq_None_not_Some in Hv.
  destruct (N.leb_spec (round block) (dw_gc_round d)) as [Hgc|Hgc].
  { destruct (hostname_of_valid bm (author block)) as [h ->]; [rewrite Hctx; apply Hrec|].
    exists bm, Skipped. done. }
  fold (needed (dw_gc_round d) block).
  assert (Hval : ∀ a, a ∈ needed (dw_gc_round d) block → (ref_author a < committee_size (committee (dw_context d)))%nat).
  { intros a [_ Ha]%list_elem_of_filter. by apply (rc_links _ _ Hrec). }
  rewrite dw_contains_law by done. cbn [obind].
  destruct (note_ancestors_spec (dw_view d) (reference block) (needed (dw_gc_round d) block) bm ∅ ∅ (missing_ancestors bm))
    as (bm1 & Hrun & Hc1 & Hs1 & Hr1 & Hmb1 & Hma1); [by rewrite Hctx|intros a; by rewrite decide_False by set_solver|].
  rewrite Hrun. cbn [obind]. rewrite !union_empty_l_L in *.
  set (bm2 := set_missing_blocks _ bm1). rewrite <-Hctx in Hrec.
  assert (Hmb2 : missing_blocks bm2 = (missing_blocks bm ∪ (unknown (dw_view d) (needed (dw_gc_round d) block)
    ∖ dom (suspended_blocks bm))) ∖ {[reference block]}) by (unfold bm2; cbn; by rewrite Hmb1).
  case_decide as He.
  - exists bm2, (Accepted block). split; [done|]. split; [done|]. split; [done|]. split; [done|]. split_and!; [| |done].
    + by apply (accept_inv _ _ bm bm2 block).
    + by apply accept_closed.
  - destruct (hostname_of_valid bm2 (author block)) as [h ->].
    { change (bm_context bm2) with (bm_context bm1). rewrite Hc1. apply Hrec. }
    cbn [obind]. do 2 eexists. split; [done|]. split; [|split; [done|split]].
    + by apply (suspend_inv _ _ bm bm2 block).
    + cbn. rewrite Hs1. by eexists.
    + intros a. rewrite elem_of_difference, elem_of_unknown, not_elem_of_dom. tauto.
Qed.

Lemma update_metrics_spec gc V stack bm block :
  manager_ok gc V stack bm → (author block < committee_size (committee (bm_context bm)))%nat →
  ∃ bm', update_block_received_metrics bm block = Ok bm' ∧ manager_ok gc V stack bm' ∧
    bm_context bm' = bm_context bm ∧ suspended_blocks bm' = suspended_blocks bm.
Proof using Type.
  intros Hinv Ha. unfold update_block_received_metrics. pose proof (mi_received _ _ _ _ _ _ Hinv) as Hlen.
  destruct (lookup_lt_is_Some_2 (received_block_rounds bm) (author block)) as [cur Hcur]; [lia|].
  unfold vec_get, vec_set. rewrite Hcur. cbn [expect obind]. rewrite decide_True by lia. cbn [obind].
  destruct (hostname_of_valid bm (author block) Ha) as [h ->]. cbn [obind]. eexists. split; [done|].
  split; [|done]. split; cbn; try apply Hinv. by rewrite length_insert.
Qed.

(** Where a received block is afterwards. *)
Definition placed (gc : Round) (V : gmap BlockRef VerifiedBlock) (bm : BlockManager) (b : VerifiedBlock) : Prop :=
  is_Some (V !! reference b) ∨ is_Some (suspended_blocks bm !! reference b) ∨ round b ≤ gc.

Lemma accept_received_spec bm d accepted missing block :
  manager_state bm d → receivable (dw_context d) block →
  ∃ bm' d' new fetch, accept_received now false (bm, d, accepted, missing) block =
      Ok (bm', d', accepted ++ new, missing ∪ fetch) ∧
    manager_state bm' d' ∧ dw_context d' = dw_context d ∧ dw_gc_round d' = dw_gc_round d ∧
    dw_view d' = add_blocks new (dw_view d) ∧ placed (dw_gc_round d) (dw_view d') bm' block ∧
    no_loss bm bm' (dw_view d') ∧ (∀ a, a ∈ fetch → a ∈ needed (dw_gc_round d) block ∧ dw_view d !! a = None).
Proof using Type*.
  intros Hms Hrec. pose proof Hms as [Hok Hctx Hinv Hcl Hlk]. cbn [accept_received].
  destruct (update_metrics_spec _ _ _ bm block Hinv) as (bm0 & -> & Hinv0 & Hctx0 & Hs0); [rewrite Hctx; apply Hrec|].
  cbn [obind]. assert (Hms0 : manager_state bm0 d) by (split; [done|congruence|done..]).
  destruct (try_accept_one_block_spec bm0 d block Hms0 Hrec) as (bm1 & res & -> & Hres). cbn [obind].
  destruct res as [b|fetch| |]; cbn [received] in Hres.
  - destruct Hres as (-> & Hnew & Hctx1 & Hinv1 & Hcl1 & Hs1).
    rewrite <-(add_block_new (dw_view d) block Hnew) in Hinv1, Hcl1.
    destruct (release_and_accept_spec bm1 d (reference block) [block] accepted missing) as
      (bm' & d' & new & -> & Hms' & Hc' & Hg' & Hv' & _ & Hloss); [done|congruence|done|by constructor|done..| |].
    { left. apply add_blocks_in. left. }
    exists bm', d', ([block] ++ new), ∅. rewrite union_empty_r_L. split; [done|]. split; [done|]. split; [done|].
    split; [done|]. split; [done|]. split; [left; rewrite Hv'; apply add_blocks_in, elem_of_app; left; left|].
    split; [|by intros a Ha%not_elem_of_empty]. intros r Hr. apply Hloss. by rewrite Hs1, Hs0.
  - destruct Hres as (Hinv1 & Hctx1 & (su & Hsu) & Hf). exists bm1, d, [], fetch. rewrite app_nil_r.
    split; [done|]. split; [split; [done|congruence|done..]|]. split; [done|]. split; [done|]. split; [done|].
    split; [right; left; rewrite Hsu, lookup_insert_eq; by eexists|]. split; [|intros a Ha%Hf; tauto].
    intros r Hr. left. rewrite Hsu, Hs0, lookup_insert_is_Some'. tauto.
  - destruct Hres as (-> & Hp). exists bm0, d, [], ∅. rewrite app_nil_r, union_empty_r_L.
    split; [done|]. split; [done|]. split; [done|]. split; [done|]. split; [done|].
    split; [unfold placed; tauto|]. split; [|by intros a Ha%not_elem_of_empty]. intros r Hr. rewrite Hs0. tauto.
  - destruct Hres as (-> & Hp). exists bm0, d, [], ∅. rewrite app_nil_r, union_empty_r_L.
    split; [done|]. split; [done|]. split; [done|]. split; [done|]. split; [done|].
    split; [unfold placed; tauto|]. split; [|by intros a Ha%not_elem_of_empty]. intros r Hr. rewrite Hs0. tauto.
Qed.

Lemma placed_mono gc V V' bm bm' b bs :
  placed gc V bm b → no_loss bm bm' V' → V' = add_blocks bs V → placed gc V' bm' b.
Proof using Type.
  intros [[x Hx]|[Hs|?]] Hloss ->; [|destruct (Hloss _ Hs); unfold placed; tauto|by right; right].
  left. exists x. by apply add_blocks_mono.
Qed.

Lemma accept_all_spec blocks : ∀ bm d accepted missing,
  manager_state bm d → Forall (receivable (dw_context d)) blocks →
  ∃ bm' d' new fetch, for_each (accept_received now false) (bm, d, accepted, missing) blocks =
      Ok (bm', d', accepted ++ new, missing ∪ fetch) ∧
    manager_state bm' d' ∧ dw_context d' = dw_context d ∧ dw_gc_round d' = dw_gc_round d ∧
    dw_view d' = add_blocks new (dw_view d) ∧ Forall (placed (dw_gc_round d) (dw_view d') bm') blocks ∧
    no_loss bm bm' (dw_view d') ∧
    (∀ a, a ∈ fetch → dw_view d !! a = None ∧ ∃ b, b ∈ blocks ∧ a ∈ needed (dw_gc_round d) b).
Proof using Type*.
  induction blocks as [|b blocks IH]; intros bm d accepted missing Hms Hrec.
  { exists bm, d, [], ∅. rewrite app_nil_r, union_empty_r_L. split_and!; try done. intros r; tauto. }
  apply Forall_cons in Hrec as [Hb Hrec]. cbn [for_each].
  destruct (accept_received_spec bm d accepted missing b Hms Hb) as
    (bm1 & d1 & new1 & fetch1 & -> & Hms1 & Hc1 & Hg1 & Hv1 & Hp1 & Hl1 & Hf1). cbn [obind].
  destruct (IH bm1 d1 (accepted ++ new1) (missing ∪ fetch1)) as
    (bm2 & d2 & new2 & fetch2 & -> & Hms2 & Hc2 & Hg2 & Hv2 & Hp2 & Hl2 & Hf2); [done|by rewrite Hc1|].
  exists bm2, d2, (new1 ++ new2), (fetch1 ∪ fetch2). rewrite <-app_assoc, <-(assoc_L (∪)).
  split; [done|]. split; [done|]. split; [congruence|]. split; [congruence|].
  split; [by rewrite add_blocks_app, <-Hv1|]. split; [|split].
  - constructor; [by eapply placed_mono|]. by rewrite <-Hg1.
  - intros r Hr. destruct (Hl1 r Hr) as [?|[x Hx]]; [by apply Hl2|right]. exists x. rewrite Hv2. by apply add_blocks_mono.
  - intros a [Ha|Ha]%elem_of_union.
    + destruct (Hf1 a Ha) as [? ?]. split; [done|]. exists b. split; [left|done].
    + destruct (Hf2 a Ha) as (Hn & x & Hx & Hnx). split.
      * destruct (dw_view d !! a) eqn:Hd; [|done]. rewrite Hv1, (add_blocks_mono new1 (dw_view d) _ _ Hd) in Hn. done.
      * exists x. rewrite Hg1 in Hnx. split; [by right|done].
Qed.


(** ** Committed blocks *)

Lemma lookup_forget_children r l : ∀ ma a,
  foldl (forget_child r) ma l !! a =
    if decide (a ∈ l) then (λ ch, ch ∖ {[r]}) <$> ma !! a else ma !! a.
Proof using Type.
  induction l as [|x l IH]; intros ma a; cbn; [done|]. rewrite IH. unfold forget_child.
  destruct (decide (a = x)) as [->|Hn].
  - rewrite lookup_alter_eq, (decide_True (P := x ∈ x :: l)) by left.
    case_decide; destruct (ma !! x); cbn; [|done..]. f_equal. set_solver.
  - rewrite lookup_alter_ne by done. destruct (decide (a ∈ l)).
    + rewrite decide_True; [done|by right].
    + rewrite decide_False; [done|]. by intros [?|?]%elem_of_cons.
Qed.

(** The manager once a committed block is taken out of it. *)
Definition without_block (bm : BlockManager) (r : BlockRef) : BlockManager :=
  let bm := set_missing_blocks (missing_blocks bm ∖ {[r]}) bm in
  match suspended_blocks bm !! r with
  | Some suspended =>
      set_missing_ancestors (foldl (forget_child r) (missing_ancestors bm) (bset_iter (su_missing suspended)))
        (set_suspended (delete r (suspended_blocks bm)) bm)
  | None => bm
  end.

Lemma without_block_inv gc V bm block :
  manager_ok gc V [] bm → V !! reference block = None →
  manager_ok gc (<[reference block := block]> V) [reference block] (without_block bm (reference block)) ∧
  bm_context (without_block bm (reference block)) = bm_context bm ∧
  suspended_blocks (without_block bm (reference block)) = delete (reference block) (suspended_blocks bm).
Proof using Type.
  intros Hinv Hnew. set (r := reference block).
  assert (Hmono : ∀ p, is_Some (V !! p) → is_Some (<[r := block]> V !! p)).
  { intros p Hp. rewrite lookup_insert_is_Some'. tauto. }
  assert (Habs : ∀ a ch, missing_ancestors bm !! a = Some ch → is_Some (<[r := block]> V !! a) → a ∈ [r]).
  { intros a ch Ha Hv. apply list_elem_of_singleton. destruct (decide (a = r)); [done|].
    rewrite lookup_insert_ne in Hv by done. by apply (mi_absent _ _ _ _ _ _ Hinv a ch), elem_of_nil in Hv. }
  unfold without_block. cbn [set_missing_blocks suspended_blocks missing_ancestors].
  destruct (suspended_blocks bm !! r) as [su|] eqn:Hsu; cbn -[bset_iter].
  - set (ma := foldl _ _ _). split; [|done].
    assert (Hma : ∀ a, ma !! a = if decide (a ∈ su_missing su) then (λ ch, ch ∖ {[r]}) <$> missing_ancestors bm !! a
      else missing_ancestors bm !! a).
    { intros a. unfold ma. rewrite lookup_forget_children. case_decide as H1; case_decide as H2; try done;
      rewrite elem_of_bset_iter in H1; done. }
    assert (Hch : ∀ a ch, ma !! a = Some ch → ∃ ch', missing_ancestors bm !! a = Some ch' ∧
      ∀ r', r' ∈ ch ↔ r' ∈ ch' ∧ r' ≠ r).
    { intros a ch. rewrite Hma. case_decide as Hin.
      - intros (ch' & -> & Ha)%fmap_Some. exists ch'. split; [done|]. set_solver.
      - intros Ha. exists ch. split; [done|]. intros r'. split; [|tauto]. intros Hr'. split; [done|]. intros ->.
        destruct (mi_children _ _ _ _ _ _ Hinv a ch r Ha Hr') as (su' & Hsu' & ?). congruence. }
    split; cbn -[bset_iter].
    + apply Hinv.
    + intros r' su' [Hn Hsu']%lookup_delete_Some. rewrite lookup_insert_ne by done. by apply (mi_suspended _ _ _ _ _ _ Hinv).
    + intros r' su' a [Hn Hsu']%lookup_delete_Some Ha.
      destruct (mi_missing _ _ _ _ _ _ Hinv r' su' a Hsu' Ha) as [? [(ch & Ha' & Hr')|[_ Hp]]]; [|by apply elem_of_nil in Hp].
      split; [done|left]. rewrite Hma, Ha'. case_decide; cbn; eexists; (split; [done|]); set_solver.
    + intros a ch r' (ch' & Ha & Hiff)%Hch [Hr' Hn]%Hiff. destruct (mi_children _ _ _ _ _ _ Hinv a ch' r' Ha Hr') as (su' & ? & ?).
      exists su'. by rewrite lookup_delete_ne.
    + intros r' Hr'. by apply elem_of_nil in Hr'.
    + intros a ch (ch' & Ha & _)%Hch. by apply (Habs a ch').
    + intros r' su' p [Hn Hsu']%lookup_delete_Some Hp Hm Hgc. by apply Hmono, (mi_rest _ _ _ _ _ _ Hinv r' su' p).
    + intros a ch (ch' & Ha & _)%Hch. by apply (mi_authors _ _ _ _ _ _ Hinv a ch').
    + assert (dom ma = dom (missing_ancestors bm)) as ->.
      { apply set_eq. intros a. rewrite !elem_of_dom, Hma. case_decide; [by rewrite fmap_is_Some|done]. }
      rewrite (mi_missing_blocks _ _ _ _ _ _ Hinv), dom_delete_L. apply set_eq. intros y.
      cbn. rewrite !elem_of_difference, elem_of_union, elem_of_singleton. apply elem_of_dom_2 in Hsu. naive_solver.
  - split; [|split; [done|by rewrite delete_id]]. split; cbn.
    + apply Hinv.
    + intros r' su' Hsu'. rewrite lookup_insert_ne by congruence. by apply (mi_suspended _ _ _ _ _ _ Hinv).
    + apply Hinv.
    + apply Hinv.
    + intros r' Hr'. by apply elem_of_nil in Hr'.
    + done.
    + intros r' su' p Hsu' Hp Hm Hgc. by apply Hmono, (mi_rest _ _ _ _ _ _ Hinv r' su' p).
    + apply Hinv.
    + rewrite (mi_missing_blocks _ _ _ _ _ _ Hinv). set_solver.
Qed.
End accepting.

Lemma closed_above_weaken gc E E' V : E ⊆ E' → closed_above gc E V → closed_above gc E' V.
Proof. intros HE Hcl r b p Hb Hn. apply (Hcl r b p Hb). set_solver. Qed.

Section committed.
Context {D : Type} `{DagWriter D, !DagWriterLaws D} (now : Instant).
Implicit Types d : D.

Lemma try_accept_one_committed_eq bm d block :
  try_accept_one_committed_block now bm d block =
  let! known := dw_contains_block d (reference block) in
  if (known : bool) then Ok (bm, d, Processed) else
  let! d := dw_accept_blocks now d [block] in
  Ok (without_block bm (reference block), d, Accepted block).
Proof using Type. done. Qed.

Lemma accept_committed_spec E bm d accepted block :
  manager_state E bm d → receivable (dw_context d) block →
  ∃ bm' d' new, accept_received now true (bm, d, accepted, ∅) block = Ok (bm', d', accepted ++ new, ∅) ∧
    manager_state ({[reference block]} ∪ E) bm' d' ∧ dw_context d' = dw_context d ∧
    dw_gc_round d' = dw_gc_round d ∧ dw_view d' = add_blocks new (dw_view d) ∧
    is_Some (dw_view d' !! reference block) ∧ no_loss bm bm' (dw_view d').
Proof using Type*.
  intros Hms Hrec. pose proof Hms as [Hok Hctx Hinv Hcl Hlk]. cbn [accept_received].
  destruct (update_metrics_spec _ _ _ bm block Hinv) as (bm0 & -> & Hinv0 & Hctx0 & Hs0); [rewrite Hctx; apply Hrec|].
  cbn [obind]. rewrite try_accept_one_committed_eq, dw_contains_one by (done || apply Hrec). cbn [obind].
  assert (HE : E ⊆ {[reference block]} ∪ E) by set_solver.
  case_bool_decide as Hv; cbn [obind].
  { exists bm0, d, []. rewrite app_nil_r. split; [done|].
    split; [split; [done|congruence|done|by eapply closed_above_weaken|done]|]. split_and!; try done.
    intros r Hr. rewrite Hs0. tauto. }
  apply eq_None_not_Some in Hv.
  destruct (dw_accept_law now d [block] Hok) as (d1 & -> & Hok1 & Hc1 & Hg1 & Hv1); [by constructor|]. cbn [obind].
  rewrite (add_block_new (dw_view d) block Hv) in Hv1.
  destruct (without_block_inv (dw_gc_round d) (dw_view d) bm0 block Hinv0 Hv) as (Hinv1 & Hctx1 & Hs1).
  rewrite <-Hv1, <-Hg1 in Hinv1.
  destruct (release_and_accept_spec now ({[reference block]} ∪ E) (without_block bm0 (reference block)) d1
    (reference block) [] (accepted ++ [block]) ∅) as (bm' & d' & new & -> & Hms' & Hc' & Hg' & Hv' & _ & Hloss);
    [done|congruence| |by constructor|done| | |].
  { rewrite Hv1, Hc1, <-(add_block_new (dw_view d) block Hv). apply linked_add; [done|by constructor]. }
  { cbn [add_blocks foldl]. rewrite Hv1, Hg1. intros r b p Hb HnE Hp Hgc. rewrite lookup_insert_is_Some'. right.
    apply lookup_insert_Some in Hb as [[<- _]|[_ Hb]]; [set_solver|]. apply (Hcl r b p); [done|set_solver|done..]. }
  { left. cbn [add_blocks foldl]. rewrite Hv1, lookup_insert_eq. by eexists. }
  exists bm', d', ([block] ++ new). rewrite <-app_assoc. cbn [app] in Hv' |- *.
  assert (Hview : dw_view d' = add_blocks (block :: new) (dw_view d)).
  { rewrite Hv', Hv1. cbn. unfold add_block_to. rewrite decide_False; [done|]. rewrite Hv. by intros []. }
  split; [done|]. split; [done|]. split; [congruence|]. split; [congruence|]. split; [done|]. split.
  { rewrite Hview. apply add_blocks_in. left. }
  intros r Hr. destruct (decide (r = reference block)) as [->|Hn].
  - right. rewrite Hview. apply add_blocks_in. left.
  - apply Hloss. by rewrite Hs1, Hs0, lookup_delete_ne.
Qed.

Lemma accept_all_committed_spec blocks : ∀ E bm d accepted,
  manager_state E bm d → Forall (receivable (dw_context d)) blocks →
  ∃ bm' d' new, for_each (accept_received now true) (bm, d, accepted, ∅) blocks = Ok (bm', d', accepted ++ new, ∅) ∧
    manager_state (list_to_set (reference <$> blocks) ∪ E) bm' d' ∧ dw_context d' = dw_context d ∧
    dw_gc_round d' = dw_gc_round d ∧ dw_view d' = add_blocks new (dw_view d) ∧
    Forall (λ b, is_Some (dw_view d' !! reference b)) blocks ∧ no_loss bm bm' (dw_view d').
Proof using Type*.
  induction blocks as [|b blocks IH]; intros E bm d accepted Hms Hrec.
  { exists bm, d, []. cbn. rewrite app_nil_r, union_empty_l_L. split_and!; try done. intros r; tauto. }
  apply Forall_cons in Hrec as [Hb Hrec]. cbn [for_each].
  destruct (accept_committed_spec E bm d accepted b Hms Hb) as
    (bm1 & d1 & new1 & -> & Hms1 & Hc1 & Hg1 & Hv1 & [x Hx] & Hl1). cbn [obind].
  destruct (IH _ bm1 d1 (accepted ++ new1) Hms1) as (bm2 & d2 & new2 & -> & Hms2 & Hc2 & Hg2 & Hv2 & Hp2 & Hl2);
    [by rewrite Hc1|].
  exists bm2, d2, (new1 ++ new2). rewrite <-app_assoc. split; [done|]. split.
  { cbn [fmap list_fmap list_to_set]. assert (({[reference b]} ∪ list_to_set (reference <$> blocks)) ∪ E =
      list_to_set (reference <$> blocks) ∪ ({[reference b]} ∪ E)) as ->; [|done]. set_solver. }
  split; [congruence|]. split; [congruence|]. split; [by rewrite add_blocks_app, <-Hv1|]. split.
  - constructor; [|done]. exists x. rewrite Hv2. by apply add_blocks_mono.
  - intros r Hr. destruct (Hl1 r Hr) as [?|[y Hy]]; [by apply Hl2|right]. exists y. rewrite Hv2. by apply add_blocks_mono.
Qed.

(** Blocks of certified commits are all accepted, whether or not they
    were suspended before and without waiting for their ancestors; no suspended block
    is lost, nothing is reported as missing, neither of the two panics is reached, and
    the links between suspended blocks and missing ancestors stay exact. *)
Theorem try_accept_committed_blocks_spec E bm d blocks :
  manager_state E bm d → Forall (receivable (dw_context d)) blocks →
  ∃ bm' d' accepted, try_accept_committed_blocks now bm d blocks = Ok (bm', d', accepted) ∧
    manager_state (list_to_set (reference <$> blocks) ∪ E) bm' d' ∧ dw_gc_round d' = dw_gc_round d ∧
    dw_view d' = add_blocks accepted (dw_view d) ∧ Forall (λ b, is_Some (dw_view d' !! reference b)) blocks ∧
    no_loss bm bm' (dw_view d').
Proof using Type*.
  intros Hms Hrec. unfold try_accept_committed_blocks, try_accept_blocks_internal.
  assert (Hperm : sort_by_key round blocks ≡ₚ blocks) by apply sort_by_perm.
  destruct (accept_all_committed_spec (sort_by_key round blocks) E bm d [] Hms) as
    (bm' & d' & new & -> & Hms' & _ & Hg & Hv & Hp & Hl); [by rewrite Hperm|].
  cbn [obind app]. rewrite rassert_true by (by apply bool_decide_eq_true). cbn [obind]. exists bm', d', new.
  rewrite Hperm in Hp. rewrite (list_to_set_perm_L _ (reference <$> blocks)) in Hms' by (by rewrite Hperm). done.
Qed.
End committed.

(** ** Garbage collection *)

(** The invariant survives an advance of the GC round. *)
Lemma manager_inv_gc gc gc' V stack bm :
  gc ≤ gc' → manager_ok gc V stack bm → manager_ok gc' V stack bm.
Proof.
  intros Hle Hinv. split; try apply Hinv. intros r su p Hsu Hp Hm Hlt.
  apply (mi_rest _ _ _ _ _ _ Hinv r su p); [done..|lia].
Qed.

Lemma closed_above_gc gc gc' E V : gc ≤ gc' → closed_above gc E V → closed_above gc' E V.
Proof. intros Hle Hcl r b p Hb HE Hp Hlt. apply (Hcl r b p); [done..|lia]. Qed.

(** The lowest missing ancestor is not itself suspended: it would wait for a lower
    one. *)
Lemma first_missing_not_suspended gc V bm r ch :
  manager_ok gc V [] bm → btree_first (missing_ancestors bm) = Some (r, ch) → suspended_blocks bm !! r = None.
Proof.
  intros Hinv Hfirst. apply eq_None_not_Some. intros [su Hsu].
  destruct (mi_suspended _ _ _ _ _ _ Hinv r su Hsu) as (Href & Hrec & Hne & _).
  apply set_choose_L in Hne as [a Ha].
  destruct (mi_missing _ _ _ _ _ _ Hinv r su a Hsu Ha) as [Hanc [(ch' & Ha' & _)|[_ Hp]]]; [|by apply elem_of_nil in Hp].
  pose proof (btree_first_min _ _ _ a Hfirst (mk_is_Some _ _ Ha')) as Hle%ord_leb_ref_round.
  destruct (rc_links _ _ Hrec a Hanc) as [_ Hlt]. rewrite <-Href in Hle. cbn in Hle. lia.
Qed.

Section gc.
Context {D : Type} `{DagWriter D, !DagWriterLaws D} (now : Instant) (E : gset BlockRef).
Implicit Types d : D.

(** Taking a garbage-collected reference off the missing blocks. *)
Lemma gc_reference_inv gc V bm r :
  manager_ok gc V [] bm → manager_ok gc V [r] (set_missing_blocks (missing_blocks bm ∖ {[r]}) bm).
Proof using Type.
  intros Hinv. split; cbn; try apply Hinv.
  - intros a ch Ha Hv. by apply (mi_absent _ _ _ _ _ _ Hinv a ch), elem_of_nil in Hv.
  - rewrite (mi_missing_blocks _ _ _ _ _ _ Hinv). set_solver.
Qed.

Lemma gc_loop_spec fuel : ∀ bm d,
  manager_state E bm d → (size (missing_ancestors bm) < fuel)%nat →
  ∃ bm' d' new, gc_loop now fuel (dw_gc_round d) bm d = Ok (bm', d') ∧ manager_state E bm' d' ∧
    dw_context d' = dw_context d ∧ dw_gc_round d' = dw_gc_round d ∧ dw_view d' = add_blocks new (dw_view d) ∧
    (∀ a, a ∈ dom (missing_ancestors bm') → dw_gc_round d < ref_round a) ∧ no_loss bm bm' (dw_view d').
Proof using Type*.
  induction fuel as [|fuel IH]; intros bm d Hms Hf; [lia|]. pose proof Hms as [Hok Hctx Hinv Hcl Hlk]. cbn [gc_loop].
  destruct (btree_first (missing_ancestors bm)) as [[r ch]|] eqn:Hfirst.
  2: { apply btree_first_None in Hfirst. exists bm, d, []. split_and!; try done; [rewrite Hfirst; set_solver|intros r; tauto]. }
  destruct (N.ltb_spec (dw_gc_round d) (ref_round r)) as [Hlt|Hge].
  { exists bm, d, []. split_and!; try done; [|intros r'; tauto].
    intros a [ch' Ha]%elem_of_dom. pose proof (btree_first_min _ _ _ a Hfirst (mk_is_Some _ _ Ha)) as Hle%ord_leb_ref_round. lia. }
  pose proof (btree_first_Some _ _ _ Hfirst) as Hr.
  destruct (hostname_of_valid bm (ref_author r)) as [h ->]; [by eapply (mi_authors _ _ _ _ _ _ Hinv)|]. cbn [obind].
  rewrite rassert_true by (apply bool_decide_eq_true; by eapply first_missing_not_suspended). cbn [obind].
  destruct (try_unsuspend_children_spec (dw_gc_round d) E (dw_view d) r _ (gc_reference_inv _ _ bm r Hinv)) as
    (bm1 & new & -> & Hinv1 & Hcl1 & Hctx1 & Hrec1 & Hdom1 & Hr1 & Hloss1); [by right|done|]. cbn [obind]. cbn in Hctx1, Hdom1.
  change (Forall (receivable (bm_context bm)) new) in Hrec1.
  destruct (dw_accept_law now d new Hok) as (d1 & -> & Hok1 & Hc1 & Hg1 & Hv1); [by rewrite <-Hctx|]. cbn [obind].
  destruct (map_each_total (λ b, hostname_of bm1 (author b)) new) as [hs ->].
  { intros b Hb. rewrite Forall_forall in Hrec1. apply hostname_of_valid. rewrite Hctx1. by apply (Hrec1 b Hb). }
  cbn [obind]. rewrite <-Hv1, <-Hg1 in Hinv1, Hcl1.
  destruct (IH bm1 d1) as (bm2 & d2 & new2 & Hrun & Hms2 & Hc2 & Hg2 & Hv2 & Hgc2 & Hloss2).
  { split; [done|congruence|done..|]. rewrite Hv1, Hc1. apply linked_add; [done|by rewrite <-Hctx]. }
  { rewrite <-!size_dom. apply Nat.lt_le_trans with (size (dom (missing_ancestors bm))); [|rewrite size_dom; lia].
    apply subset_size. split; [done|]. intros Hsub. apply not_elem_of_dom in Hr1. apply Hr1, Hsub. by apply elem_of_dom_2 in Hr. }
  rewrite Hg1 in Hrun, Hgc2. exists bm2, d2, (new ++ new2). rewrite add_blocks_app, <-Hv1.
  split; [done|]. split; [done|]. split; [congruence|]. split; [congruence|]. split; [done|]. split; [done|].
  intros r' Hr'. rewrite <-Hv1 in Hloss1.
  destruct (Hloss1 r' Hr') as [?|[x Hx]]; [by apply Hloss2|right]. exists x. rewrite Hv2. by apply add_blocks_mono.
Qed.

(** C32 (termination): after the GC round has moved, releasing the blocks that waited for
    collected ancestors ends without panicking: no missing ancestor at or below the GC
    round is left, so no block waits for one, released blocks are added to the DAG, no
    suspended block is lost, and the DAG stays complete above the GC round. *)
Theorem unsuspend_for_gc_spec bm d :
  manager_state E bm d →
  ∃ bm' d' accepted, try_unsuspend_blocks_for_latest_gc_round now bm d = Ok (bm', d') ∧ manager_state E bm' d' ∧
    dw_view d' = add_blocks accepted (dw_view d) ∧
    (∀ a, a ∈ dom (missing_ancestors bm') → dw_gc_round d < ref_round a) ∧
    (∀ r su a, suspended_blocks bm' !! r = Some su → a ∈ su_missing su → dw_gc_round d < ref_round a) ∧
    no_loss bm bm' (dw_view d').
Proof using Type*.
  intros Hms. unfold try_unsuspend_blocks_for_latest_gc_round.
  destruct (gc_loop_spec (1 + size (missing_ancestors bm)) bm d Hms) as
    (bm' & d' & new & Hrun & Hms' & _ & _ & Hv & Hgc & Hl); [lia|].
  exists bm', d', new. split_and!; try done. intros r su a Hsu Ha.
  destruct (mi_missing _ _ _ _ _ _ (ms_inv _ _ _ Hms') r su a Hsu Ha) as [_ [(ch & Ha' & _)|[_ Hp]]]; [|by apply elem_of_nil in Hp].
  apply Hgc. by apply elem_of_dom_2 in Ha'.
Qed.
End gc.

(** ** Looking for blocks *)

Section find.
Context {D : Type} `{DagWriter D, !DagWriterLaws D} (E : gset BlockRef).
Implicit Types d : D.

(** References that are neither in the DAG nor suspended. *)
Definition wanted (V : gmap BlockRef VerifiedBlock) (su : gmap BlockRef SuspendedBlock) (refs : list BlockRef) :
    gset BlockRef := list_to_set (filter (λ r, V !! r = None ∧ su !! r = None) refs).

Lemma want_inv gc V bm r :
  manager_ok gc V [] bm → V !! r = None → suspended_blocks bm !! r = None →
  (ref_author r < committee_size (committee (bm_context bm)))%nat →
  manager_ok gc V [] (set_missing_ancestors (<[r := default ∅ (missing_ancestors bm !! r)]> (missing_ancestors bm))
    (set_missing_blocks ({[r]} ∪ missing_blocks bm) bm)).
Proof using Type.
  intros Hinv Hv Hs Ha. split; cbn; try apply Hinv.
  - intros r' su a Hsu Ha'. destruct (mi_missing _ _ _ _ _ _ Hinv r' su a Hsu Ha') as [? [(ch & Hch & ?)|[_ Hp]]];
      [|by apply elem_of_nil in Hp]. split; [done|left]. destruct (decide (a = r)) as [->|Hn].
    + exists ch. by rewrite lookup_insert_eq, Hch.
    + exists ch. by rewrite lookup_insert_ne.
  - intros a ch r' [[<- <-]|[Hn Hch]]%lookup_insert_Some Hr'; [|by apply (mi_children _ _ _ _ _ _ Hinv a ch)].
    destruct (missing_ancestors bm !! r) as [ch|] eqn:Hch; [by apply (mi_children _ _ _ _ _ _ Hinv r ch)|].
    by apply not_elem_of_empty in Hr'.
  - intros a ch [[<- <-]|[Hn Hch]]%lookup_insert_Some Hva; [|by apply (mi_absent _ _ _ _ _ _ Hinv a ch)].
    rewrite Hv in Hva. by destruct Hva.
  - intros a ch [[<- <-]|[Hn Hch]]%lookup_insert_Some; [done|by apply (mi_authors _ _ _ _ _ _ Hinv a ch)].
  - rewrite (mi_missing_blocks _ _ _ _ _ _ Hinv), dom_insert_L. apply not_elem_of_dom in Hs. set_solver.
Qed.

Lemma find_loop_spec gc V refs : ∀ bm missing,
  manager_ok gc V [] bm → (∀ r, r ∈ refs → (ref_author r < committee_size (committee (bm_context bm)))%nat) →
  missing ⊆ missing_blocks bm →
  ∃ bm', for_each note_wanted (bm, missing) (zip ((λ r, bool_decide (is_Some (V !! r))) <$> refs) refs) =
      Ok (bm', wanted V (suspended_blocks bm) refs ∪ missing) ∧ manager_ok gc V [] bm' ∧
    bm_context bm' = bm_context bm ∧ suspended_blocks bm' = suspended_blocks bm ∧
    wanted V (suspended_blocks bm) refs ∪ missing ⊆ missing_blocks bm'.
Proof using Type.
  induction refs as [|r refs IH]; intros bm missing Hinv Hval Hm.
  { exists bm. cbn. rewrite union_empty_l_L. done. }
  cbn [fmap list_fmap zip zip_with for_each note_wanted]. unfold wanted. rewrite filter_cons.
  assert (Hval' : ∀ x, x ∈ refs → (ref_author x < committee_size (committee (bm_context bm)))%nat)
    by (intros x Hx; apply Hval; by right).
  destruct (bool_decide (is_Some (V !! r)) || bool_decide (is_Some (suspended_blocks bm !! r))) eqn:Hknown.
  - rewrite decide_False; [by apply IH|]. intros [Hv Hs]. apply orb_true_iff in Hknown.
    rewrite !bool_decide_eq_true, Hv, Hs in Hknown. by destruct Hknown as [[? ?]|[? ?]].
  - apply orb_false_iff in Hknown as [Hv%bool_decide_eq_false%eq_None_not_Some Hs%bool_decide_eq_false%eq_None_not_Some].
    rewrite !(decide_True (P := V !! r = None ∧ suspended_blocks bm !! r = None)) by done. cbn [list_to_set fmap].
    assert (Hset : ∀ u : gset BlockRef, {[r]} ∪ u ∪ missing = u ∪ ({[r]} ∪ missing)) by set_solver.
    fold (wanted V (suspended_blocks bm) refs). case_decide as Hin; cbn [obind].
    + destruct (IH bm ({[r]} ∪ missing) Hinv Hval') as (bm' & Hrun & Hinv' & Hc & Hsu & Hsub); [set_solver|].
      exists bm'. rewrite Hset. done.
    + pose proof (want_inv gc V bm r Hinv Hv Hs (Hval r ltac:(left))) as Hinv1.
      set (bm1 := set_missing_ancestors _ _) in *.
      destruct (hostname_of_valid bm1 (ref_author r)) as [h Hh]; [apply (Hval r); left|].
      change (set_missing_ancestors _ _) with bm1. rewrite Hh. cbn [obind].
      destruct (IH bm1 ({[r]} ∪ missing) Hinv1 Hval') as (bm' & Hrun & Hinv' & Hc & Hsu & Hsub); [unfold bm1; cbn; set_solver|].
      exists bm'. change (suspended_blocks bm1) with (suspended_blocks bm) in *. rewrite Hset. done.
Qed.

(** Looking for references reports exactly those above the GC round that
    are neither in the DAG nor suspended, remembers each of them as missing, and keeps
    the invariant. *)
Lemma try_find_blocks_spec bm d refs :
  manager_state E bm d → (∀ r, r ∈ refs → (ref_author r < committee_size (committee (dw_context d)))%nat) →
  ∃ bm' found, try_find_blocks bm d refs = Ok (bm', found) ∧ manager_state E bm' d ∧
    (∀ r, r ∈ found ↔ r ∈ refs ∧ dw_gc_round d < ref_round r ∧ dw_view d !! r = None ∧
       suspended_blocks bm !! r = None) ∧
    found ⊆ missing_blocks bm' ∧ suspended_blocks bm' = suspended_blocks bm.
Proof using Type*.
  intros [Hok Hctx Hinv Hcl Hlk] Hval. unfold try_find_blocks.
  set (above := filter (λ r, dw_gc_round d < ref_round r) refs).
  assert (Habove : ∀ r, r ∈ above ↔ r ∈ refs ∧ dw_gc_round d < ref_round r).
  { intros r. unfold above. rewrite list_elem_of_filter. tauto. }
  case_decide as He.
  { exists bm, ∅. split_and!; try done. intros r. split; [by intros ?%not_elem_of_empty|].
    intros (Hr & Hgc & _). assert (r ∈ above) as Hin by (by apply Habove). rewrite He in Hin. by apply elem_of_nil in Hin. }
  assert (Hperm : sort_by_key ref_round above ≡ₚ above) by apply sort_by_perm.
  assert (Hval' : ∀ r, r ∈ sort_by_key ref_round above → (ref_author r < committee_size (committee (dw_context d)))%nat).
  { intros r Hr. rewrite Hperm in Hr. by apply Hval, Habove. }
  rewrite dw_contains_law by done. cbn [obind].
  destruct (find_loop_spec (dw_gc_round d) (dw_view d) (sort_by_key ref_round above) bm ∅ Hinv) as
    (bm' & Hrun & Hinv' & Hc & Hs & Hsub); [by rewrite Hctx|set_solver|].
  rewrite union_empty_r_L in Hrun, Hsub. rewrite Hrun. do 2 eexists. split; [done|].
  split; [split; [done|congruence|done..]|]. split; [|done].
  intros r. unfold wanted. rewrite elem_of_list_to_set, list_elem_of_filter, Hperm, Habove. tauto.
Qed.
End find.

(** ** Reachable states

    A validator starts from a complete DAG, receives blocks, looks for blocks, commits
    (which leaves the blocks and may move the GC round up) and releases blocks. *)

Section reach.
Context {D : Type} `{DagWriter D, !DagWriterLaws D} (ctx : Context).
Implicit Types d : D.

Inductive reachable : BlockManager → D → Prop :=
| reach_start d : dw_ok d → dw_context d = ctx → linked ctx (dw_view d) →
    closed_above (dw_gc_round d) ∅ (dw_view d) → reachable (block_manager_new ctx) d
| reach_receive now bm d blocks bm' d' accepted fetch : reachable bm d → Forall (receivable ctx) blocks →
    try_accept_blocks now bm d blocks = Ok (bm', d', accepted, fetch) → reachable bm' d'
| reach_find bm d refs bm' found : reachable bm d →
    (∀ r, r ∈ refs → (ref_author r < committee_size (committee ctx))%nat) →
    try_find_blocks bm d refs = Ok (bm', found) → reachable bm' d
| reach_commit bm d d' : reachable bm d → dw_ok d' → dw_context d' = dw_context d → dw_view d' = dw_view d →
    dw_gc_round d ≤ dw_gc_round d' → reachable bm d'
| reach_release now bm d bm' d' : reachable bm d →
    try_unsuspend_blocks_for_latest_gc_round now bm d = Ok (bm', d') → reachable bm' d'.

Lemma manager_state_start d :
  dw_ok d → dw_context d = ctx → linked ctx (dw_view d) → closed_above (dw_gc_round d) ∅ (dw_view d) →
  manager_state ∅ (block_manager_new ctx) d.
Proof using Type.
  intros Hok Hctx Hlk Hcl. split; [done|done| |done|by rewrite Hctx]. split; cbn; try done; [apply length_replicate|].
  intros r Hr. by apply elem_of_nil in Hr.
Qed.

Lemma reachable_state bm d : reachable bm d → manager_state ∅ bm d ∧ dw_context d = ctx.
Proof using Type*.
  induction 1 as [d ? ? ? ?|now bm d blocks bm' d' acc fetch _ [Hms Hc] Hrec Hrun|bm d refs bm' found _ [Hms Hc] Hval Hrun
    |bm d d' _ [Hms Hc] Hok Hctx Hview Hgc|now bm d bm' d' _ [Hms Hc] Hrun].
  - split; [by apply manager_state_start|done].
  - unfold try_accept_blocks, try_accept_blocks_internal in Hrun.
    assert (Hperm : sort_by_key round blocks ≡ₚ blocks) by apply sort_by_perm.
    destruct (accept_all_spec now ∅ (sort_by_key round blocks) bm d [] ∅ Hms) as
      (bm1 & d1 & new & f & Hrun1 & Hms1 & Hc1 & _); [by rewrite Hperm, Hc|].
    rewrite Hrun in Hrun1. injection Hrun1 as -> -> _ _. split; [done|congruence].
  - destruct (try_find_blocks_spec ∅ bm d refs Hms) as (bm1 & f & Hrun1 & Hms1 & _); [by rewrite Hc|].
    rewrite Hrun in Hrun1. by injection Hrun1 as -> ->.
  - destruct Hms as [_ Hbc Hinv Hcl Hlk]. split; [|congruence]. split; [done|congruence|..]; rewrite ?Hview, ?Hctx; [..|done].
    + by apply (manager_inv_gc (dw_gc_round d)).
    + by apply (closed_above_gc (dw_gc_round d)).
  - destruct (gc_loop_spec now ∅ (1 + size (missing_ancestors bm)) bm d Hms) as
      (bm1 & d1 & new & Hrun1 & Hms1 & Hc1 & _); [lia|].
    unfold try_unsuspend_blocks_for_latest_gc_round in Hrun. rewrite Hrun in Hrun1. injection Hrun1 as -> ->.
    split; [done|congruence].
Qed.
End reach.


(** ** A concrete run

    Blocks of rounds 1 and 2 arrive at a fresh validator, those of round 2 first. *)

Definition early : list VerifiedBlock := layer_block 2 <$> [1; 2]%nat.
Definition late : list VerifiedBlock := layer_block 1 <$> [1; 2; 3]%nat.
Definition manager4 : BlockManager := block_manager_new context4.

Definition linkedb (ctx : Context) (V : gmap BlockRef VerifiedBlock) : bool :=
  bool_decide (map_Forall (λ r b, reference b = r ∧ Forall (λ p,
    (ref_author p < committee_size (committee ctx))%nat ∧ ref_round p < round b) (ancestors b)) V).
Lemma linkedb_sound ctx V : linkedb ctx V = true → linked ctx V.
Proof.
  unfold linkedb. rewrite bool_decide_eq_true. intros Hall r b Hb. destruct (Hall r b Hb) as [? Hp].
  split; [done|]. by rewrite Forall_forall in Hp.
Qed.

Definition closedb (gc : Round) (V : gmap BlockRef VerifiedBlock) : bool :=
  bool_decide (map_Forall (λ _ b, Forall (λ p, gc < ref_round p → is_Some (V !! p)) (ancestors b)) V).
Lemma closedb_sound gc E V : closedb gc V = true → closed_above gc E V.
Proof.
  unfold closedb. rewrite bool_decide_eq_true. intros Hall r b p Hb _ Hp. specialize (Hall r b Hb). cbn in Hall.
  rewrite Forall_forall in Hall. by apply Hall.
Qed.

Lemma fresh4_reachable : reachable context4 manager4 fresh4.
Proof.
  destruct fresh4_ok as [Hok Hctx]. apply reach_start; [exact Hok|exact Hctx|..].
  - apply linkedb_sound. vm_compute. reflexivity.
  - apply closedb_sound. vm_compute. reflexivity.
Qed.

Lemma fresh4_state : manager_state ∅ manager4 fresh4.
Proof. exact (proj1 (reachable_state _ _ _ fresh4_reachable)). Qed.

Definition receivableb (ctx : Context) (b : VerifiedBlock) : bool :=
  bool_decide (0 < round b ∧ ref_round (reference b) ≤ u32_max ∧ ref_digest (reference b) ≤ DIGEST_MAX ∧
    (author b < committee_size (committee ctx))%nat ∧ author b ≠ own_index ctx ∧
    Forall (λ a, (ref_author a < committee_size (committee ctx))%nat ∧ ref_round a < round b) (ancestors b)).
Lemma receivableb_sound ctx bs : forallb (receivableb ctx) bs = true → Forall (receivable ctx) bs.
Proof.
  rewrite forallb_forall. intros Hall. apply Forall_forall. intros b Hb%list_elem_of_In%Hall.
  unfold receivableb in Hb. apply bool_decide_eq_true in Hb as (? & ? & ? & ? & ? & Hp). rewrite Forall_forall in Hp.
  by split.
Qed.

Lemma early_receivable : Forall (receivable context4) early.
Proof. apply receivableb_sound. vm_compute. reflexivity. Qed.
Lemma late_receivable : Forall (receivable context4) late.
Proof. apply receivableb_sound. vm_compute. reflexivity. Qed.


(** The blocks of round 2 wait for those of round 1 and are released by them. *)
Definition after_early : outcome (BlockManager * DagState Inner * list VerifiedBlock * gset BlockRef) :=
  try_accept_blocks 0 manager4 fresh4 early.
Example early_suspended :
  omap_ok (λ r, (bset_iter (dom (suspended_blocks r.1.1.1)), r.1.2)) after_early =
    Ok (reference <$> [layer_block 2 1; layer_block 2 2], []).
Proof. vm_compute. reflexivity. Qed.
Example late_releases :
  obind after_early (λ r, omap_ok (λ r, (reference <$> r.1.2, elements (dom (suspended_blocks r.1.1.1))))
    (try_accept_blocks 0 r.1.1.1 r.1.1.2 late)) =
    Ok (reference <$> (late ++ early), []).
Proof. vm_compute. reflexivity. Qed.

Definition no_manager : BlockManager * DagState Inner * list VerifiedBlock * gset BlockRef := (manager4, fresh4, [], ∅).
Definition suspended4 : BlockManager := (of_outcome after_early no_manager).1.1.1.
Definition suspended4_dag : DagState Inner := (of_outcome after_early no_manager).1.1.2.
Lemma suspended4_reachable : reachable context4 suspended4 suspended4_dag.
Proof.
  apply (reach_receive context4 0 manager4 fresh4 early _ _ (of_outcome after_early no_manager).1.2
    (of_outcome after_early no_manager).2 fresh4_reachable early_receivable). vm_compute. reflexivity.
Qed.
#[global] Opaque suspended4 suspended4_dag.


(** The suspended blocks arrive again as part of a certified commit. *)
Lemma try_accept_committed_blocks_spec_witness :
  ∃ bm' d' accepted, try_accept_committed_blocks 0 suspended4 suspended4_dag early = Ok (bm', d', accepted) ∧
    manager_state (list_to_set (reference <$> early) ∪ ∅) bm' d' ∧ dw_gc_round d' = dw_gc_round suspended4_dag ∧
    dw_view d' = add_blocks accepted (dw_view suspended4_dag) ∧ Forall (λ b, is_Some (dw_view d' !! reference b)) early ∧
    no_loss suspended4 bm' (dw_view d').
Proof.
  destruct (reachable_state _ _ _ suspended4_reachable) as [Hms Hctx].
  apply (try_accept_committed_blocks_spec 0 ∅ suspended4 suspended4_dag early Hms). rewrite Hctx. apply early_receivable.
Defined.

Lemma unsuspend_for_gc_spec_witness :
  ∃ bm' d' accepted, try_unsuspend_blocks_for_latest_gc_round 0 suspended4 suspended4_dag = Ok (bm', d') ∧
    manager_state ∅ bm' d' ∧ dw_view d' = add_blocks accepted (dw_view suspended4_dag) ∧
    (∀ a, a ∈ dom (missing_ancestors bm') → dw_gc_round suspended4_dag < ref_round a) ∧
    (∀ r su a, suspended_blocks bm' !! r = Some su → a ∈ su_missing su → dw_gc_round suspended4_dag < ref_round a) ∧
    no_loss suspended4 bm' (dw_view d').
Proof.
  destruct (reachable_state _ _ _ suspended4_reachable) as [Hms _].
  apply (unsuspend_for_gc_spec 0 ∅ suspended4 suspended4_dag Hms).
Defined.
