(* ===== verification/Proposal.v ===== *)
(** * Selection of the ancestors of a proposal ([core/src/core.rs], [smart_ancestors_to_propose])

    The ancestors of an own block: the own last block, the latest blocks of the
    authorities in good standing, as many blocks of excluded authorities as a quorum of
    the parent round needs, and what a quorum has accepted of the others.  The functions
    act on the components of the core; [Core] composes them. *)

From S2P Require Import Prelude Collections Weighted Committee Types Fixtures Commits StakeAggregator.
From S2P Require Import ThresholdClock LeaderScoring RoundTracker Storage DagState DagStateSpec Ancestor.

Local Open Scope N_scope.

(** What the loops below have collected: the ancestors to propose, the excluded ones with
    their scores, and the references that are reported as excluded or equivocating. *)
Record Selection := mkSelection {
  sel_included : list VerifiedBlock;
  sel_pending : list (N * VerifiedBlock);
  sel_excluded : gset BlockRef;
}.

(** The [flat_map] over the last block of each authority. *)
Definition classify_ancestor (own : AuthorityIndex) (last_included : list (option BlockRef))
    (states : list AncestorState) (acc : Selection) (p : VerifiedBlock * list BlockRef) : outcome Selection :=
  let '(ancestor, equivocating) := p in
  if (author ancestor =? own)%nat then Ok acc else
  let! last := vec_get last_included (author ancestor) in
  if match last with Some r => round ancestor <=? ref_round r | None => false end then Ok acc else
  let excluded := list_to_set equivocating ∪ sel_excluded acc in
  let! state := vec_get states (author ancestor) in
  match state with
  | Include => Ok (mkSelection (sel_included acc ++ [ancestor]) (sel_pending acc) excluded)
  | Exclude score => Ok (mkSelection (sel_included acc) (sel_pending acc ++ [(score, ancestor)]) excluded)
  end.

(** The stake of the included blocks of the parent round. *)
Definition parent_round_stake (c : Committee) (quorum_round : Round) (included : list VerifiedBlock) :
    outcome StakeAggregator :=
  for_each (λ agg b, omap_ok fst (add QuorumThreshold c agg (author b))) aggregator_new
    (filter (λ b, round b = quorum_round) included).

(** The loop over the pending excluded ancestors, best score first: parent round blocks
    are included until they reach a quorum. *)
Definition include_parent (c : Committee) (quorum_round : Round)
    (acc : StakeAggregator * list VerifiedBlock * list (N * VerifiedBlock)) (p : N * VerifiedBlock) :
    outcome (StakeAggregator * list VerifiedBlock * list (N * VerifiedBlock)) :=
  let '(agg, to_propose, excluded) := acc in
  do! authority c (author p.2) in
  if negb (reached_threshold QuorumThreshold c agg) && (round p.2 =? quorum_round) then
    let! '(agg, _) := add QuorumThreshold c agg (author p.2) in
    Ok (agg, to_propose ++ [p.2], excluded)
  else Ok (agg, to_propose, excluded ++ [p]).

Section dag.
Context {S : Type} `{Store S}.

(** The loop over the ancestors still excluded: the ancestor, or an earlier block of its
    author, is included when a quorum has accepted it. *)
Definition include_accepted (c : Committee) (s : DagState S) (quorum_round : Round) (accepted_quorum_rounds : list QuorumRound)
    (acc : list (option BlockRef) * list VerifiedBlock * gset BlockRef) (p : N * VerifiedBlock) :
    outcome (list (option BlockRef) * list VerifiedBlock * gset BlockRef) :=
  let '(last_included, to_propose, excluded) := acc in
  let ancestor := p.2 in
  let excluded_author := author ancestor in
  do! authority c excluded_author in
  let! low_high := vec_get accepted_quorum_rounds excluded_author in
  let low := N.min low_high.1 quorum_round in
  let! last := vec_get last_included excluded_author in
  let last_round := from_option ref_round GENESIS_ROUND last in
  if round ancestor <=? last_round then Ok acc else
  if low <=? last_round then Ok (last_included, to_propose, {[reference ancestor]} ∪ excluded) else
  let! '(chosen, excluded) :=
    if round ancestor <=? low then Ok (Some ancestor, excluded)
    else
      let! earlier := get_last_cached_block_in_range s excluded_author (u32_add last_round 1) (u32_add low 1) in
      Ok (earlier, {[reference ancestor]} ∪ excluded) in
  match chosen with
  | None => Ok (last_included, to_propose, excluded)
  | Some b =>
      let! last_included := vec_set last_included excluded_author (Some (reference b)) in
      Ok (last_included, to_propose ++ [b], excluded)
  end.

(** What the selection returns: the states it updated, the ancestors and the excluded
    references. *)
Definition smart_ancestors_to_propose (ctx : Context) (s : DagState S) (rounds : PeerRoundTracker)
    (m : AncestorStateManager) (last_included : list (option BlockRef)) (clock_round : Round) (smart_select : bool) :
    outcome (AncestorStateManager * list (option BlockRef) * (list VerifiedBlock * gset BlockRef)) :=
  let c := committee ctx in
  let! all_ancestors := get_last_cached_block_per_authority s clock_round in
  do! rassert (length all_ancestors =? committee_size c)%nat
    "Fatal error, number of returned ancestors don't match committee size." in
  let! accepted_quorum_rounds := compute_accepted_quorum_rounds ctx rounds in
  let! m := update_all_ancestors_state ctx s m accepted_quorum_rounds in
  let quorum_round := saturating_sub clock_round 1 in
  let! own := get_last_proposed_block s in
  let! sel :=
    for_each (classify_ancestor (own_index ctx) last_included (get_ancestor_states m)) (mkSelection [own] [] ∅) all_ancestors in
  let! agg := parent_round_stake c quorum_round (sel_included sel) in
  if smart_select && negb (reached_threshold QuorumThreshold c agg) then Ok (m, last_included, ([], ∅)) else
  let! '(agg, to_propose, excluded) :=
    for_each (include_parent c quorum_round) (agg, sel_included sel, []) (sort_by (λ a b, b.1 <=? a.1) (sel_pending sel)) in
  let! '(last_included, to_propose, excluded_refs) :=
    for_each (include_accepted c s quorum_round accepted_quorum_rounds) (last_included, to_propose, sel_excluded sel) excluded in
  do! rassert (reached_threshold QuorumThreshold c agg)
    "Fatal error, quorum not reached for parent round when proposing" in
  Ok (m, last_included, (to_propose, excluded_refs)).
End dag.
