(* ===== verification/ProposalSpec.v ===== *)
(** * The ancestors of a proposal form a valid block

    The selected ancestors are what [BlockVerifier] demands of a block: the own last block
    first, distinct authors, lower rounds, and a quorum of the parent round. *)

From S2P Require Import Prelude Collections Weighted Committee Types Fixtures Commits StakeAggregator.
From S2P Require Import ThresholdClock QuorumIndex LeaderScoring RoundTracker Storage DagState DagStateSpec DagTraversal.
From S2P Require Import DagRecovery Ancestor Errors BlockVerifier Proposal.

Local Open Scope N_scope.

(** ** Reads of the cache *)

Lemma split_last_round_head last refs : last ≠ 0 → (split_last_round last refs).1 = None.
Proof.
  revert last. induction refs as [|r refs IH]; intros last Hl; [done|]. cbn.
  destruct (N.eqb_spec last 0); [done|]. destruct (_ <? _); [done|].
  specialize (IH last Hl). destruct (split_last_round last refs). done.
Qed.

Lemma split_last_round_some refs :
  (∀ r, r ∈ refs → 0 < ref_round r) → (split_last_round 0 refs).1 = head refs.
Proof.
  intros Hpos. destruct refs as [|r refs]; [done|]. cbn.
  pose proof (split_last_round_head (ref_round r) refs ltac:(specialize (Hpos r ltac:(by left)); lia)) as Hn.
  destruct (split_last_round (ref_round r) refs) as [o eqv]. cbn in *. by subst.
Qed.

(** A range over the references of one authority is a range of rounds. *)
Lemma author_rounds_range lo hi a r :
  ref_author r = a →
  above (Included (mkBlockRef lo a DIGEST_MIN)) r = true ∧ below (Excluded (mkBlockRef hi a DIGEST_MIN)) r = true ↔
  lo ≤ ref_round r ∧ ref_round r < hi.
Proof.
  intros <-. destruct r as [rr ra rd]. unfold above, below, ord_leb, ord_ltb, cmp, BlockRef_ord, cmp, ord_prod, BlockRef_tuple, cmp, ord_prod, cmp, ord_nat, ord_N.
  cbn [fst snd ref_round ref_author ref_digest]. rewrite Nat.compare_refl.
  unfold DIGEST_MIN. destruct (N.compare_spec lo rr), (N.compare_spec rr hi), (N.compare_spec 0 rd), (N.compare_spec rd 0); cbn; split; intros; try (split; lia); try lia; try done; naive_solver lia.
Qed.

Section reads.
Context {S : Type} `{Store S, !StoreLaws S}.
Implicit Types s : DagState S.

(** [b] is the latest cached block of authority [a] below round [hi], or the block [b0]
    when there is none above the eviction round. *)
Definition latest_cached s (a : AuthorityIndex) (hi : Round) (b0 b : VerifiedBlock) : Prop :=
  ((b = b0 ∨ (author b = a ∧ round b < hi ∧ bi_block <$> recent_blocks s !! reference b = Some b)) ∧
   ∀ r e, is_Some (recent_blocks s !! r) → ref_author r = a → evicted_rounds s !! a = Some e → e < ref_round r → ref_round r < hi →
     ref_round r ≤ round b).

Lemma descending_head (l : list BlockRef) r x :
  StronglySorted (λ a b, ord_leb a b) l → head (reverse l) = Some r → x ∈ l → ref_round x ≤ ref_round r.
Proof.
  intros Hs Hh Hx. rewrite head_reverse in Hh. apply last_Some in Hh as [l' ->].
  apply elem_of_app in Hx as [Hx| ->%list_elem_of_singleton]; [|done].
  apply ord_leb_ref_round, Is_true_true. clear -Hs Hx. induction l' as [|y l' IH]; [by apply elem_of_nil in Hx|].
  cbn in Hs. apply StronglySorted_cons in Hs as [Hy Hs]. apply elem_of_cons in Hx as [->|Hx]; [|by apply IH].
  rewrite Forall_forall in Hy. apply Hy, elem_of_app. right. by left.
Qed.

Lemma last_cached_for_authority_spec s hi i blocks eqs b0 :
  cache_ok s → (∀ e, evicted_rounds s !! i = Some e → e + 1 < hi) → hi ≤ u32_max →
  (i < committee_size (ds_committee s))%nat → length eqs = committee_size (ds_committee s) → blocks !! i = Some b0 →
  ∃ b eqs', last_cached_for_authority s hi i (cached_refs s i) (blocks, eqs) = Ok (<[i := b]> blocks, eqs') ∧
    length eqs' = length eqs ∧ latest_cached s i hi b0 b.
Proof.
  intros Hok Hev Hhi Hi Heqs Hb0. unfold last_cached_for_authority. unfold ds_committee in *.
  unfold to_authority_index. rewrite (proj2 (Nat.ltb_lt _ _) Hi). cbn [expect obind].
  destruct (lookup_lt_is_Some_2 (evicted_rounds s) i) as [e He]; [by rewrite (co_evicted_len s Hok)|].
  unfold vec_get at 1. rewrite He. cbn [expect obind]. specialize (Hev e He).
  rewrite (proj2 (N.leb_gt _ _)) by width_lia. rewrite u32_add_small by width_lia.
  set (range := bset_range _ _ _).
  assert (Hin : ∀ r, r ∈ range ↔ ref_author r = i ∧ is_Some (recent_blocks s !! r) ∧ e < ref_round r ∧ ref_round r < hi).
  { intros r. unfold range. rewrite elem_of_bset_range, elem_of_cached_refs by done. split.
    - intros [[Ha Hr] Hrange]. apply (author_rounds_range _ _ i r Ha) in Hrange. split_and!; [done|done|lia|lia].
    - intros (Ha & Hr & H1 & H2). split; [done|]. apply (author_rounds_range _ _ i r Ha). lia. }
  pose proof (split_last_round_some (reverse range)) as Hsplit.
  destruct (split_last_round 0 (reverse range)) as [o eqv]. cbn [fst] in Hsplit.
  rewrite Hsplit; [clear Hsplit o|intros r Hr; rewrite elem_of_reverse, Hin in Hr; lia].
  destruct (head (reverse range)) as [r|] eqn:Hhead.
  - assert (Hr : r ∈ range). { rewrite head_reverse in Hhead. apply last_Some in Hhead as [l ->]. apply elem_of_app. right. by left. }
    pose proof (proj1 (Hin r) Hr) as (Ha & [info Hinfo] & Hlo & Hlt). rewrite Hinfo. cbn [expect obind].
    destruct (co_recent s Hok r info Hinfo) as (Href & _).
    unfold vec_set at 1. rewrite decide_True by (by eapply lookup_lt_Some). cbn [obind].
    destruct (lookup_lt_is_Some_2 eqs i) as [old Hold]; [lia|]. unfold vec_get. rewrite Hold. cbn [expect obind].
    unfold vec_set. rewrite decide_True by lia. cbn [obind]. eexists _, _. split; [done|]. split; [by rewrite length_insert|].
    assert (Hau : author (bi_block info) = i) by (by rewrite <-Ha, <-Href).
    assert (Hro : round (bi_block info) = ref_round r) by (by rewrite <-Href).
    split; [right; rewrite Href, Hinfo; split_and!; [done|lia|done]|].
    intros x e' Hx Hax He' Hex Hxh. assert (e' = e) as -> by congruence. rewrite Hro. apply (descending_head range); [|done|by apply Hin].
    unfold range, bset_range. by apply StronglySorted_filter, bset_iter_sorted.
  - exists b0, eqs. rewrite list_insert_id by done. split; [done|]. split; [done|]. split; [by left|].
    intros x e' Hx Hax He' Hex Hxh. assert (e' = e) as -> by congruence.
    rewrite head_reverse, last_None in Hhead. assert (Hxin : x ∈ range) by (by apply Hin).
    rewrite Hhead in Hxin. by apply elem_of_nil in Hxin.
Qed.

Lemma last_cached_loop s hi l : ∀ k blocks eqs,
  cache_ok s → (∀ a e, evicted_rounds s !! a = Some e → e + 1 < hi) → hi ≤ u32_max →
  (∀ i refs, l !! i = Some refs → recent_refs_by_authority s !! (k + i)%nat = Some refs) →
  (k + length l ≤ committee_size (ds_committee s))%nat → length blocks = committee_size (ds_committee s) →
  length eqs = committee_size (ds_committee s) →
  ∃ blocks' eqs',
    for_each (λ acc (p : nat * gset BlockRef), last_cached_for_authority s hi p.1 p.2 acc) (blocks, eqs)
      (imap (λ i refs, ((k + i)%nat, refs)) l) = Ok (blocks', eqs') ∧
    length blocks' = length blocks ∧ length eqs' = length eqs ∧
    (∀ j, (j < k)%nat → blocks' !! j = blocks !! j) ∧
    (∀ j, (k ≤ j)%nat → (j < k + length l)%nat →
       ∃ b0 b, blocks !! j = Some b0 ∧ blocks' !! j = Some b ∧ latest_cached s j hi b0 b) ∧
    (∀ j, (k + length l ≤ j)%nat → blocks' !! j = blocks !! j).
Proof.
  induction l as [|refs l IH]; intros k blocks eqs Hok Hev Hhi Hl Hk Hb Heq.
  { exists blocks, eqs. split_and!; try done. cbn. intros j ? ?. lia. }
  cbn [imap for_each length] in *. rewrite Nat.add_0_r. cbn [fst snd].
  assert (Hrefs : refs = cached_refs s k).
  { unfold cached_refs. rewrite <-(Nat.add_0_r k). by rewrite (Hl 0%nat refs eq_refl). }
  destruct (lookup_lt_is_Some_2 blocks k) as [b0 Hb0]; [lia|]. rewrite Hrefs.
  destruct (last_cached_for_authority_spec s hi k blocks eqs b0 Hok (Hev k) Hhi ltac:(lia) Heq Hb0)
    as (b & eqs1 & -> & Hlen1 & Hlatest). cbn [obind].
  replace (imap ((λ (i : nat) refs0, ((k + i)%nat, refs0)) ∘ Datatypes.S) l) with (imap (λ i refs0, ((Datatypes.S k + i)%nat, refs0)) l)
    by (apply imap_ext; intros; cbn; f_equal; lia).
  destruct (IH (Datatypes.S k) (<[k := b]> blocks) eqs1) as (blocks' & eqs' & -> & Hlb & Hle & H1 & H2 & H3); try done.
  - intros i r Hi. rewrite <-(Hl (Datatypes.S i) r Hi). f_equal. lia.
  - lia.
  - by rewrite length_insert.
  - lia.
  - rewrite length_insert in Hlb. exists blocks', eqs'. split_and!; [done|lia|lia| | |].
    + intros j Hj. rewrite H1 by lia. by rewrite list_lookup_insert_ne by lia.
    + intros j Hj1 Hj2. destruct (decide (j = k)) as [->|Hne].
      * exists b0, b. rewrite H1 by lia. rewrite list_lookup_insert_eq by lia. done.
      * destruct (H2 j) as (c0 & c & Hc0 & Hc & Hlc); [lia|lia|]. rewrite list_lookup_insert_ne in Hc0 by lia. by exists c0, c.
    + intros j Hj. rewrite H3 by lia. by rewrite list_lookup_insert_ne by lia.
Qed.

(** The genesis blocks are those of the authorities, in order. *)
Definition genesis_in_order s : Prop :=
  author <$> (btree_iter (genesis s)).*2 = seq 0 (committee_size (ds_committee s)).

(** Cached blocks are reported as the DAG holds them. *)
Lemma view_of_cached s b : dag_ok s → bi_block <$> recent_blocks s !! reference b = Some b → view s !! reference b = Some b.
Proof. intros Hok Hb. apply lookup_view; [done|]. by right; left. Qed.

Lemma view_of_genesis s b : dag_ok s → b ∈ (btree_iter (genesis s)).*2 → round b = 0 ∧ view s !! reference b = Some b.
Proof.
  intros Hok ([r b'] & -> & Hin)%list_elem_of_fmap. cbn. apply elem_of_btree_iter in Hin.
  destruct (dok_genesis s Hok r b' Hin) as (Href & Hr & _). rewrite Href. split; [by rewrite <-Hr, <-Href|].
  apply lookup_view; [done|by left].
Qed.

(** What a proposer sees: for each authority its latest block below the round. *)
Definition latest_block s (hi : Round) (i : AuthorityIndex) (b : VerifiedBlock) : Prop :=
  author b = i ∧ round b < hi ∧ view s !! reference b = Some b ∧
  ∀ r, is_Some (recent_blocks s !! r) → ref_author r = i → ref_round r + 1 = hi → round b + 1 = hi.

Lemma get_last_cached_block_per_authority_spec s hi :
  dag_ok s → genesis_in_order s → 1 ≤ hi → hi ≤ u32_max →
  (hi = 1 ∨ ∀ a e, evicted_rounds s !! a = Some e → e + 1 < hi) →
  ∃ l, get_last_cached_block_per_authority s hi = Ok l ∧ length l = committee_size (ds_committee s) ∧
    ∀ i p, l !! i = Some p → latest_block s hi i p.1.
Proof.
  intros Hok Hgen H1 Hhi Hev. unfold get_last_cached_block_per_authority, GENESIS_ROUND.
  unfold genesis_in_order in Hgen. set (gs := (btree_iter (genesis s)).*2) in *.
  assert (Hlen : length gs = committee_size (ds_committee s)).
  { rewrite <-(length_fmap author), Hgen. apply length_seq. }
  assert (Hg : ∀ i b, gs !! i = Some b → author b = i ∧ round b = 0 ∧ view s !! reference b = Some b).
  { intros i b Hb. destruct (view_of_genesis s b Hok) as [Hr Hv]; [by eapply list_elem_of_lookup_2|].
    split_and!; [|done|done]. assert (Ha : (author <$> gs) !! i = Some (author b)) by (by rewrite list_lookup_fmap, Hb).
    rewrite Hgen in Ha. by apply lookup_seq in Ha as [-> _]. }
  rewrite (proj2 (N.eqb_neq hi 0)) by lia. destruct (N.eqb_spec hi (0 + 1)) as [->|Hne].
  { exists ((λ b, (b, [])) <$> gs). split; [done|]. rewrite length_fmap. split; [done|]. intros i p.
    rewrite list_lookup_fmap. intros (b & Hb & ->)%fmap_Some. destruct (Hg i b Hb) as (Ha & Hr & Hv). cbn.
    split_and!; [done|lia|done|]. intros r _ _ Hround. lia. }
  destruct Hev as [->|Hev]; [done|].
  destruct (last_cached_loop s hi (recent_refs_by_authority s) 0 gs
    (replicate (committee_size (committee (ds_context s))) [])) as (blocks & eqs & Hrun & Hlb & Hle & _ & Hmid & _); try done.
  { apply (dok_cache s Hok). } { cbn. by rewrite (dok_refs_len s Hok). } { by rewrite length_replicate. }
  cbn [Nat.add] in *. rewrite Hrun. cbn [obind]. rewrite length_replicate in Hle. exists (zip blocks eqs). split; [done|].
  split; [rewrite length_zip_with; unfold ds_committee in *; lia|]. intros i [b eqv] Hp. cbn.
  apply lookup_zip_Some in Hp as [Hb _]. rewrite (dok_refs_len s Hok) in Hmid.
  destruct (Hmid i) as (b0 & b' & Hb0 & Hb' & [Hlt Hmax]); [lia|by rewrite <-Hlen, <-Hlb; eapply lookup_lt_Some|].
  assert (b' = b) as -> by congruence. destruct (Hg i b0 Hb0) as (Ha0 & Hr0 & Hv0).
  destruct (lookup_lt_is_Some_2 (evicted_rounds s) i) as [e He].
  { rewrite (dok_evicted_len s Hok), <-Hlen, <-Hlb. by eapply lookup_lt_Some. }
  assert (Hlatest : ∀ r, is_Some (recent_blocks s !! r) → ref_author r = i → ref_round r + 1 = hi → hi ≤ round b + 1).
  { intros r Hr Ha Hround. specialize (Hev i e He). specialize (Hmax r e Hr Ha He ltac:(lia) ltac:(lia)). lia. }
  destruct Hlt as [->|(Hab & Hrb & Hvb)].
  - split_and!; [done|lia|done|]. intros r Hr Ha Hround. specialize (Hlatest r Hr Ha Hround). lia.
  - split_and!; [done|done|by apply view_of_cached|]. intros r Hr Ha Hround. specialize (Hlatest r Hr Ha Hround). lia.
Qed.

Lemma get_last_block_spec s a :
  dag_ok s → (a < committee_size (ds_committee s))%nat →
  ∃ b, get_last_block_for_authority s a = Ok b ∧ author b = a ∧ view s !! reference b = Some b ∧
    ∀ r, is_Some (recent_blocks s !! r) → ref_author r = a → ref_round r ≤ round b.
Proof.
  intros Hok Hown. unfold get_last_block_for_authority. pose proof (dok_cache s Hok) as Hc.
  rewrite cached_refs_lookup by done. cbn [obind].
  destruct (bset_last (cached_refs s a)) as [l|] eqn:Hl.
  - pose proof (bset_last_Some _ _ Hl) as Hin. apply elem_of_cached_refs in Hin as [Hla [i Hi]]; [|done|done].
    rewrite Hi. cbn. destruct (co_recent s Hc l i Hi) as (Href & _). eexists. split; [done|].
    split; [by rewrite <-Hla, <-Href|]. split; [apply view_of_cached; [done|by rewrite Href, Hi]|].
    intros r Hr Ha. rewrite <-Href in Hl. apply (ord_leb_ref_round r (reference (bi_block i))), (bset_last_max _ _ _ Hl).
    by apply elem_of_cached_refs.
  - destruct (get_last_block_total s a Hc Hown) as (b & Hb & Hab).
    unfold get_last_block_for_authority in Hb. rewrite cached_refs_lookup in Hb by done. cbn [obind] in Hb. rewrite Hl in Hb.
    exists b. split; [done|]. split; [done|]. split.
    + destruct (list_find _ _) as [[n p]|] eqn:Hf; [|done]. cbn in Hb. injection Hb as <-.
      apply list_find_Some in Hf as (Hn & _ & _). apply (view_of_genesis s _ Hok).
      apply list_elem_of_fmap_2. by eapply list_elem_of_lookup_2.
    + intros r Hr Ha. apply bset_last_None in Hl. assert (Hin : r ∈ cached_refs s a) by (by apply elem_of_cached_refs). set_solver.
Qed.

Lemma get_last_proposed_block_spec s :
  dag_ok s → ∃ b, get_last_proposed_block s = Ok b ∧ author b = own_index (ds_context s) ∧ view s !! reference b = Some b ∧
    ∀ r, is_Some (recent_blocks s !! r) → ref_author r = own_index (ds_context s) → ref_round r ≤ round b.
Proof. intros Hok. apply get_last_block_spec; [done|by apply dok_own]. Qed.

Lemma round_range_below hi (r : BlockRef) : below (Excluded (mkBlockRef hi 0 DIGEST_MIN)) r = true → ref_round r < hi.
Proof.
  cbn. intros Hlt. destruct (N.lt_ge_cases (ref_round r) hi) as [?|Hge]; [done|exfalso].
  rewrite ord_ltb_leb in Hlt. apply (proj2 (above_round hi r)) in Hge. cbn in Hge. by rewrite Hge in Hlt.
Qed.

Lemma get_last_cached_block_in_range_spec s a lo hi :
  dag_ok s → (a < committee_size (ds_committee s))%nat →
  ∃ o, get_last_cached_block_in_range s a lo hi = Ok o ∧
    ∀ b, o = Some b → author b = a ∧ lo ≤ round b ∧ round b < hi ∧ view s !! reference b = Some b.
Proof.
  intros Hok Ha. unfold get_last_cached_block_in_range, cached_refs_in_range. pose proof (dok_cache s Hok) as Hc.
  destruct (hi <=? lo); [by exists None|]. rewrite cached_refs_lookup by done. cbn [obind]. eexists. split; [done|].
  intros b (r & Hr & (i & Hi & ->)%fmap_Some)%bind_Some. apply last_Some in Hr as [l Hl].
  assert (Hin : r ∈ bset_range (Included (mkBlockRef lo a DIGEST_MIN)) (Excluded (mkBlockRef hi 0 DIGEST_MIN)) (cached_refs s a)).
  { rewrite Hl. apply elem_of_app. right. by left. }
  apply elem_of_bset_range in Hin as (Hin & Hlo & Hhi). apply elem_of_cached_refs in Hin as [Hra _]; [|done|done].
  destruct (co_recent s Hc r i Hi) as (Href & _). split; [by rewrite <-Hra, <-Href|].
  apply round_range_below in Hhi. cbn in Hlo. apply ord_leb_ref_round in Hlo. cbn in Hlo.
  rewrite <-Href in Hlo, Hhi. split_and!; [done|done|]. apply view_of_cached; [done|by rewrite Href, Hi].
Qed.
End reads.

(** ** The loops of the selection *)

Section loops.
Context (own : AuthorityIndex) (last_included : list (option BlockRef)) (states : list AncestorState).

(** The block is new and from another authority. *)
Definition kept (p : VerifiedBlock * list BlockRef) : bool :=
  negb (author p.1 =? own)%nat &&
  negb match last_included !! author p.1 with Some (Some r) => round p.1 <=? ref_round r | _ => false end.
Definition standing (p : VerifiedBlock * list BlockRef) : AncestorState := default Include (states !! author p.1).

Definition good_ones (l : list (VerifiedBlock * list BlockRef)) : list VerifiedBlock :=
  omap (λ p, if kept p then match standing p with Include => Some p.1 | Exclude _ => None end else None) l.
Definition bad_ones (l : list (VerifiedBlock * list BlockRef)) : list (N * VerifiedBlock) :=
  omap (λ p, if kept p then match standing p with Include => None | Exclude score => Some (score, p.1) end else None) l.

Lemma classify_spec l : ∀ acc,
  (∀ p, p ∈ l → (author p.1 < length last_included)%nat ∧ (author p.1 < length states)%nat) →
  ∃ excluded, for_each (classify_ancestor own last_included states) acc l =
    Ok (mkSelection (sel_included acc ++ good_ones l) (sel_pending acc ++ bad_ones l) excluded).
Proof.
  induction l as [|[b eqv] l IH]; intros acc Hl; cbn [for_each].
  { exists (sel_excluded acc). cbn. rewrite !app_nil_r. by destruct acc. }
  destruct (Hl (b, eqv) ltac:(by left)) as [H1 H2]. cbn [fst] in H1, H2.
  destruct (lookup_lt_is_Some_2 _ _ H1) as [li Hli]. destruct (lookup_lt_is_Some_2 _ _ H2) as [st Hst].
  assert (Hrest : ∀ acc', ∃ excluded, for_each (classify_ancestor own last_included states) acc' l =
    Ok (mkSelection (sel_included acc' ++ good_ones l) (sel_pending acc' ++ bad_ones l) excluded)).
  { intros acc'. apply IH. intros p Hp. apply Hl. by right. }
  assert (Hkept : kept (b, eqv) = negb (author b =? own)%nat &&
    negb match li with Some r => round b <=? ref_round r | None => false end).
  { unfold kept. cbn [fst]. rewrite Hli. by destruct li. }
  assert (Hgood : ∀ x, good_ones (x :: l) = (if kept x then match standing x with Include => [x.1] | Exclude _ => [] end else []) ++ good_ones l).
  { intros x. unfold good_ones. cbn. destruct (kept x); [|done]. by destruct (standing x). }
  assert (Hbad : ∀ x, bad_ones (x :: l) = (if kept x then match standing x with Include => [] | Exclude sc => [(sc, x.1)] end else []) ++ bad_ones l).
  { intros x. unfold bad_ones. cbn. destruct (kept x); [|done]. by destruct (standing x). }
  rewrite Hgood, Hbad, Hkept. unfold standing at 1 2. cbn [fst]. rewrite Hst. cbn [default].
  unfold classify_ancestor at 1. destruct (author b =? own)%nat; cbn [negb andb app obind]; [apply Hrest|].
  unfold vec_get. rewrite Hli, Hst. cbn [expect obind].
  destruct (match li with Some r => round b <=? ref_round r | None => false end); cbn [negb app obind]; [apply Hrest|].
  destruct st; cbn [obind app]; (edestruct Hrest as [ex Hex]; exists ex; rewrite Hex; cbn [sel_included sel_pending]; by rewrite <-?app_assoc).
Qed.

(** Together the two lists hold the kept blocks. *)
Lemma good_bad_perm l : good_ones l ++ (bad_ones l).*2 ≡ₚ (filter (λ p, kept p) l).*1.
Proof.
  induction l as [|x l IH]; [done|]. rewrite filter_cons. unfold good_ones, bad_ones in *. cbn [omap list_omap].
  destruct (kept x); [rewrite decide_True by done|by rewrite decide_False by (by intros ?)].
  destruct (standing x); cbn; [by rewrite IH|]. by rewrite <-Permutation_middle, IH.
Qed.

Lemma kept_authors l : NoDup (author <$> l.*1) →
  NoDup (author <$> (good_ones l ++ (bad_ones l).*2)) ∧ own ∉ author <$> (good_ones l ++ (bad_ones l).*2).
Proof.
  intros Hnd. rewrite good_bad_perm. split.
  - rewrite <-list_fmap_compose in *. apply (sublist_NoDup _ (author ∘ fst <$> l)); [done|apply fmap_sublist, sublist_filter].
  - rewrite <-list_fmap_compose. intros (p & Hp & Hin)%list_elem_of_fmap. apply list_elem_of_filter in Hin as [Hk _].
    unfold kept in Hk. apply Is_true_true, andb_true_iff in Hk as [Hk _]. apply negb_true_iff, Nat.eqb_neq in Hk. cbn in Hp. congruence.
Qed.
End loops.

Section stake.
Context (c : Committee) (Hc : committee_ok c) (q : Round).

(** The authors of the parent round blocks in the list. *)
Definition parents (l : list VerifiedBlock) : gset AuthorityIndex := list_to_set (author <$> filter (λ b, round b = q) l).

Lemma parents_app l1 l2 : parents (l1 ++ l2) = parents l1 ∪ parents l2.
Proof. unfold parents. by rewrite filter_app, fmap_app, list_to_set_app_L. Qed.

Lemma elem_of_parents l a : a ∈ parents l ↔ ∃ b, b ∈ l ∧ author b = a ∧ round b = q.
Proof. unfold parents. rewrite elem_of_list_to_set, list_elem_of_fmap. setoid_rewrite list_elem_of_filter. naive_solver. Qed.

Lemma parent_round_stake_spec included :
  (∀ b, b ∈ included → (author b < committee_size c)%nat) →
  ∃ agg, parent_round_stake c q included = Ok agg ∧ agg_ok c agg ∧ agg_votes agg = parents included.
Proof using Hc.
  intros Hin. unfold parent_round_stake, parents.
  assert (Hgen : ∀ l agg, (∀ b, b ∈ l → (author b < committee_size c)%nat) → agg_ok c agg →
    ∃ agg', for_each (λ agg b, omap_ok fst (add QuorumThreshold c agg (author b))) agg l = Ok agg' ∧ agg_ok c agg' ∧
      agg_votes agg' = list_to_set (author <$> l) ∪ agg_votes agg).
  { induction l as [|b l IH]; intros agg Hl Hagg; cbn [for_each].
    { exists agg. split_and!; try done. cbn. set_solver. }
    destruct (add_spec QuorumThreshold c agg (author b) Hc Hagg) as (agg1 & -> & Hok1 & Hv1); [apply Hl; by left|]. cbn.
    destruct (IH agg1) as (agg' & -> & Hok' & Hv'); [intros x Hx; apply Hl; by right|done|].
    exists agg'. split_and!; try done. rewrite Hv', Hv1. set_solver. }
  destruct (Hgen (filter (λ b, round b = q) included) aggregator_new) as (agg & -> & Hok & Hv).
  { intros b [_ Hb]%list_elem_of_filter. by apply Hin. } { apply agg_ok_new. }
  exists agg. split_and!; try done. rewrite Hv. cbn. set_solver.
Qed.

Lemma reached_parents agg l :
  agg_ok c agg → agg_votes agg = parents l →
  reached_threshold QuorumThreshold c agg = true ↔ quorum_threshold c ≤ set_stake c (parents l).
Proof.
  intros Hagg Hv. unfold reached_threshold, is_threshold, quorum_threshold_impl, reached_quorum.
  by rewrite (agg_stake_eq _ _ Hagg), Hv, N.leb_le.
Qed.

Lemma include_parent_spec l : ∀ agg to_propose excluded,
  (∀ p, p ∈ l → (author p.2 < committee_size c)%nat) → agg_ok c agg → agg_votes agg = parents to_propose →
  ∃ agg' added excluded', for_each (include_parent c q) (agg, to_propose, excluded) l = Ok (agg', to_propose ++ added, excluded ++ excluded') ∧
    agg_ok c agg' ∧ agg_votes agg' = parents (to_propose ++ added) ∧ added ++ excluded'.*2 ≡ₚ l.*2 ∧
    (∀ b, b ∈ added → round b = q) ∧
    (reached_threshold QuorumThreshold c agg' = true ∨ ∀ p, p ∈ excluded' → round p.2 ≠ q) ∧
    (reached_threshold QuorumThreshold c agg = true → agg' = agg).
Proof using Hc.
  induction l as [|p l IH]; intros agg tp ex Hl Hagg Hv; cbn [for_each].
  { exists agg, [], []. rewrite !app_nil_r. split_and!; try done; [by intros ? ?%elem_of_nil|right; by intros ? ?%elem_of_nil]. }
  assert (Hp : (author p.2 < committee_size c)%nat) by (apply Hl; by left).
  assert (Hl' : ∀ x, x ∈ l → (author x.2 < committee_size c)%nat) by (intros x Hx; apply Hl; by right).
  unfold include_parent at 1, authority, vec_get. destruct (lookup_lt_is_Some_2 (authorities c) _ Hp) as [a ->]. cbn [expect obind].
  destruct (reached_threshold QuorumThreshold c agg) eqn:Hreach; cbn [negb andb].
  - cbn [obind]. destruct (IH agg tp (ex ++ [p]) Hl' Hagg Hv) as (agg' & added & ex' & -> & H1 & H2 & H3 & H4 & H5 & H6).
    exists agg', added, (p :: ex'). rewrite <-app_assoc. split_and!; try done.
    + cbn. by rewrite <-Permutation_middle, H3.
    + left. specialize (H6 Hreach). by subst.
    + intros _. by apply H6.
  - destruct (N.eqb_spec (round p.2) q) as [Hq|Hq]; cbn [andb].
    + destruct (add_spec QuorumThreshold c agg (author p.2) Hc Hagg Hp) as (agg1 & -> & Hok1 & Hv1). cbn [obind].
      destruct (IH agg1 (tp ++ [p.2]) ex Hl' Hok1) as (agg' & added & ex' & -> & H1 & H2 & H3 & H4 & H5 & H6).
      { rewrite Hv1, parents_app, Hv. unfold parents at 3. rewrite filter_cons, decide_True, filter_nil by done. cbn. set_solver. }
      exists agg', (p.2 :: added), ex'. rewrite <-app_assoc in H2 |- *. split_and!; try done.
      * cbn. by rewrite H3.
      * intros b [->|Hb]%elem_of_cons; [done|by apply H4].
    + cbn [obind]. destruct (IH agg tp (ex ++ [p]) Hl' Hagg Hv) as (agg' & added & ex' & -> & H1 & H2 & H3 & H4 & H5 & H6).
      exists agg', added, (p :: ex'). rewrite <-app_assoc. split_and!; try done.
      * cbn. by rewrite <-Permutation_middle, H3.
      * destruct H5 as [H5|H5]; [by left|right]. intros x [->|Hx]%elem_of_cons; [done|by apply H5].
Qed.
End stake.

Section accepted.
Context {S : Type} `{Store S, !StoreLaws S} (s : DagState S) (Hok : dag_ok s) (q : Round) (accepted : list QuorumRound).
Abbreviation c := (ds_committee s).
Hypothesis Hq : q < u32_max.
Hypothesis Haccepted : length accepted = committee_size c.

Lemma include_accepted_spec l : ∀ last_included to_propose excluded,
  length last_included = committee_size c →
  (∀ p, p ∈ l → (author p.2 < committee_size c)%nat ∧ round p.2 ≤ q ∧ view s !! reference p.2 = Some p.2) →
  ∃ last_included' more excluded',
    for_each (include_accepted c s q accepted) (last_included, to_propose, excluded) l = Ok (last_included', to_propose ++ more, excluded') ∧
    length last_included' = length last_included ∧ author <$> more `sublist_of` author <$> l.*2 ∧
    ∀ b, b ∈ more → (author b < committee_size c)%nat ∧ round b ≤ q ∧ view s !! reference b = Some b.
Proof using Hok Hq Haccepted.
  induction l as [|p l IH]; intros li tp ex Hli Hl; cbn [for_each].
  { exists li, [], ex. rewrite app_nil_r. split_and!; try done. by intros ? ?%elem_of_nil. }
  destruct (Hl p ltac:(by left)) as (Ha & Hr & Hvp).
  assert (Hl' : ∀ x, x ∈ l → (author x.2 < committee_size c)%nat ∧ round x.2 ≤ q ∧ view s !! reference x.2 = Some x.2)
    by (intros x Hx; apply Hl; by right).
  assert (Hskip : ∀ li1 ex1, length li1 = length li → ∃ li' more ex',
    for_each (include_accepted c s q accepted) (li1, tp, ex1) l = Ok (li', tp ++ more, ex') ∧ length li' = length li ∧
    author <$> more `sublist_of` author <$> (p :: l).*2 ∧
    ∀ b, b ∈ more → (author b < committee_size c)%nat ∧ round b ≤ q ∧ view s !! reference b = Some b).
  { intros li1 ex1 H1. destruct (IH li1 tp ex1 ltac:(lia) Hl') as (li' & more & ex' & Hrun & H2 & H3 & H4).
    exists li', more, ex'. split_and!; [done|lia| |done]. cbn. by apply sublist_cons. }
  assert (Htake : ∀ b ex1, author b = author p.2 → round b ≤ q → view s !! reference b = Some b →
    ∃ li' more ex', obind (obind (vec_set li (author p.2) (Some (reference b))) (λ li1, Ok (li1, tp ++ [b], ex1)))
      (λ acc, for_each (include_accepted c s q accepted) acc l) = Ok (li', tp ++ more, ex') ∧ length li' = length li ∧
    author <$> more `sublist_of` author <$> (p :: l).*2 ∧
    ∀ b, b ∈ more → (author b < committee_size c)%nat ∧ round b ≤ q ∧ view s !! reference b = Some b).
  { intros b ex1 Hab Hrb Hvb. unfold vec_set. rewrite decide_True by lia. cbn [obind].
    destruct (IH (<[author p.2 := Some (reference b)]> li) (tp ++ [b]) ex1) as (li' & more & ex' & Hrun & H2 & H3 & H4);
      [by rewrite length_insert|done|].
    rewrite length_insert in H2. exists li', (b :: more), ex'. rewrite <-app_assoc in Hrun. split_and!; [done|done| |].
    - cbn. rewrite Hab. by apply sublist_skip.
    - intros x [->|Hx]%elem_of_cons; [by rewrite Hab|by apply H4]. }
  unfold include_accepted at 1, authority, vec_get. destruct (lookup_lt_is_Some_2 (authorities c) _ Ha) as [au ->].
  destruct (lookup_lt_is_Some_2 accepted (author p.2)) as [lh ->]; [lia|].
  destruct (lookup_lt_is_Some_2 li (author p.2)) as [last ->]; [lia|]. cbn [expect obind].
  set (last_round := from_option ref_round GENESIS_ROUND last). set (low := N.min lh.1 q).
  destruct (round p.2 <=? last_round); [cbn [obind]; by apply Hskip|].
  destruct (N.leb_spec low last_round) as [Hlow|Hlow]; [cbn [obind]; by apply Hskip|].
  destruct (N.leb_spec (round p.2) low) as [Hin|Hout].
  - cbn [obind]. apply Htake; done.
  - destruct (get_last_cached_block_in_range_spec s (author p.2) (u32_add last_round 1) (u32_add low 1) Hok Ha) as (o & -> & Ho).
    cbn [obind]. destruct o as [b|]; [|cbn [obind]; by apply Hskip].
    destruct (Ho b eq_refl) as (Hab & _ & Hrb & Hvb).
    assert (round b ≤ q). { rewrite u32_add_small in Hrb by (subst low; width_lia). subst low. lia. }
    apply Htake; done.
Qed.
End accepted.

(** ** The selection *)

Definition square (n : nat) (m : list (list Round)) : Prop := length m = n ∧ Forall (λ row, length row = n) m.

Record tracker_ok (n : nat) (t : PeerRoundTracker) : Prop := {
  to_block : square n (block_accepted_rounds t);
  to_accepted : square n (probed_accepted_rounds t);
  to_received : square n (probed_received_rounds t);
}.

Lemma compute_accepted_total ctx t :
  tracker_ok (committee_size (committee ctx)) t →
  ∃ l, compute_accepted_quorum_rounds ctx t = Ok l ∧ length l = committee_size (committee ctx).
Proof.
  intros [[Hb1 Hb2] [Ha1 Ha2] _]. unfold compute_accepted_quorum_rounds, compute_quorum_rounds.
  set (rows := zip_with _ _ _).
  assert (Hlen : length rows = committee_size (committee ctx)) by (unfold rows; rewrite length_zip_with; lia).
  assert (Hrow : ∀ row, row ∈ rows → length row = committee_size (committee ctx)).
  { intros row [i Hi]%list_elem_of_lookup. apply lookup_zip_with_Some in Hi as (x & y & -> & Hx & Hy).
    rewrite Forall_lookup in Hb2, Ha2. rewrite length_zip_with, (Ha2 i x Hx), (Hb2 i y Hy). lia. }
  rewrite (map_each_pure _ (λ peer, quorum_bounds (committee ctx) (with_stakes (committee ctx) (column rows peer)))).
  - eexists. split; [done|]. by rewrite length_fmap, length_seq.
  - intros peer Hp%elem_of_seq. apply compute_quorum_round_eq; [done|]. intros row Hr. rewrite (Hrow row Hr). lia.
Qed.

Section select.
Context {S : Type} `{Store S, !StoreLaws S}.

(** The state of a validator that may propose at round [clock]: nothing was proposed or
    included at that height yet, and a quorum of the parent round is in memory. *)
Record proposer_ok (s : DagState S) (rounds : PeerRoundTracker) (m : AncestorStateManager)
    (last_included : list (option BlockRef)) (clock : Round) : Prop := {
  po_dag : dag_ok s;
  po_genesis : genesis_in_order s;
  po_clock : 1 ≤ clock ∧ clock ≤ u32_max;
  po_evicted : clock = 1 ∨ ∀ a e, evicted_rounds s !! a = Some e → e + 1 < clock;
  po_own b : get_last_proposed_block s = Ok b → round b < clock;
  po_length : length last_included = committee_size (ds_committee s);
  po_included a r : last_included !! a = Some (Some r) → ref_round r + 1 < clock;
  po_tracker : tracker_ok (committee_size (ds_committee s)) rounds;
  po_ancestors : ancestors_ok (ds_context s) m;
  po_quorum : ∃ Q, quorum_threshold (ds_committee s) ≤ set_stake (ds_committee s) Q ∧
    ∀ a, a ∈ Q → (a < committee_size (ds_committee s))%nat ∧
      (clock = 1 ∨ ∃ r, is_Some (recent_blocks s !! r) ∧ ref_author r = a ∧ ref_round r + 1 = clock);
}.

(** The blocks can be the ancestors of a block of the round. *)
Record selected_ok (s : DagState S) (clock : Round) (own : VerifiedBlock) (l : list VerifiedBlock) : Prop := {
  so_head : head l = Some own;
  so_nodup : NoDup (author <$> l);
  so_each b : b ∈ l → (author b < committee_size (ds_committee s))%nat ∧ round b < clock ∧ view s !! reference b = Some b;
  so_quorum : quorum_threshold (ds_committee s) ≤ set_stake (ds_committee s) (parents (clock - 1) l);
}.

Lemma selected_valid s clock own l :
  dag_ok s → author own = own_index (ds_context s) → 1 ≤ clock → selected_ok s clock own l →
  valid_ancestors (ds_committee s) (dom (genesis s)) (own_index (ds_context s)) clock (reference <$> l).
Proof.
  intros Hok Hown H1 [Hh Hnd He Hq]. split.
  - destruct l as [|b l]; [done|]. cbn in *. injection Hh as ->. by rewrite Hown.
  - intros a (b & -> & Hb)%list_elem_of_fmap. destruct (He b Hb) as (Ha & Hr & Hv). split_and!; [done|done|].
    intros H0. apply lookup_view in Hv as [Hg|[(i & Hi & _)%fmap_Some|Hst]]; [by apply elem_of_dom| | |done].
    + destruct (dok_recent s Hok _ i Hi) as (_ & ? & _). unfold GENESIS_ROUND in *. lia.
    + destruct (dok_stored s Hok _ b Hst). unfold GENESIS_ROUND in *. lia.
  - by rewrite <-list_fmap_compose.
  - assert (Heq : parents (clock - 1) l = list_to_set (ref_author <$> filter (λ p, ref_round p + 1 = clock) (reference <$> l))).
    { apply set_eq. intros a. rewrite elem_of_parents, elem_of_list_to_set, list_elem_of_fmap.
      setoid_rewrite list_elem_of_filter. setoid_rewrite list_elem_of_fmap. split.
      - intros (b & Hb & <- & Hr). exists (reference b). split; [done|]. split; [cbn; lia|]. by exists b.
      - intros (r & -> & Hr & b & -> & Hb). exists b. cbn in *. split_and!; [done|done|lia]. }
    by rewrite <-Heq.
Qed.

Section run.
Context (s : DagState S) (rounds : PeerRoundTracker) (m0 m : AncestorStateManager) (last_included : list (option BlockRef)) (clock : Round).
Context (Hpo : proposer_ok s rounds m0 last_included clock).
Context (own : VerifiedBlock) (Hown : get_last_proposed_block s = Ok own).
Context (all : list (VerifiedBlock * list BlockRef)) (Hlen : length all = committee_size (ds_committee s)).
Hypothesis Hall : ∀ i p, all !! i = Some p → latest_block s clock i p.1.

Abbreviation good := (good_ones (own_index (ds_context s)) last_included (get_ancestor_states m) all).
Abbreviation bad := (bad_ones (own_index (ds_context s)) last_included (get_ancestor_states m) all).
Abbreviation c := (ds_committee s).

Lemma own_facts : author own = own_index (ds_context s) ∧ round own < clock ∧ view s !! reference own = Some own ∧
  ∀ r, is_Some (recent_blocks s !! r) → ref_author r = own_index (ds_context s) → ref_round r ≤ round own.
Proof using Hpo Hown.
  destruct (get_last_proposed_block_spec s (po_dag _ _ _ _ _ Hpo)) as (b & Hb & H1 & H2 & H3).
  assert (b = own) as -> by congruence. split_and!; try done. by apply (po_own _ _ _ _ _ Hpo).
Qed.

Lemma all_authors : author <$> all.*1 = seq 0 (committee_size c).
Proof using Hall Hlen.
  clear Hpo. apply list_eq. intros i. rewrite <-list_fmap_compose, list_lookup_fmap.
  destruct (all !! i) as [p|] eqn:Hp; cbn.
  - destruct (Hall i p Hp) as (-> & _). symmetry. apply lookup_seq. split; [done|]. rewrite <-Hlen. by eapply lookup_lt_Some.
  - symmetry. apply lookup_ge_None. rewrite length_seq, <-Hlen. by apply lookup_ge_None.
Qed.

(** The candidates are members of the committee with blocks of earlier rounds. *)
Lemma candidate b : b ∈ own :: good ++ bad.*2 → (author b < committee_size c)%nat ∧ round b < clock ∧ view s !! reference b = Some b.
Proof using Hpo Hown Hall Hlen.
  intros [->|Hb]%elem_of_cons.
  - destruct own_facts as (Ha & Hr & Hv & _). split_and!; [|done|done]. rewrite Ha. apply (dok_own s (po_dag _ _ _ _ _ Hpo)).
  - rewrite good_bad_perm in Hb. apply list_elem_of_fmap in Hb as (p & -> & [_ Hp]%list_elem_of_filter).
    apply list_elem_of_lookup in Hp as [i Hi]. destruct (Hall i p Hi) as (Ha & Hr & Hv & _). split_and!; [|done|done].
    rewrite Ha, <-Hlen. by eapply lookup_lt_Some.
Qed.

Lemma candidates_nodup : NoDup (author <$> own :: good ++ bad.*2).
Proof using Hpo Hown Hall Hlen.
  destruct (kept_authors (own_index (ds_context s)) last_included (get_ancestor_states m) all) as [Hnd Hni].
  { rewrite all_authors. apply NoDup_seq. }
  cbn [fmap list_fmap]. apply NoDup_cons. split; [|done]. by rewrite (proj1 own_facts).
Qed.

(** The quorum of the parent round is among the candidates. *)
Lemma quorum_candidates : quorum_threshold c ≤ set_stake c (parents (clock - 1) (own :: good ++ bad.*2)).
Proof using Hpo Hown Hall Hlen.
  destruct (po_quorum _ _ _ _ _ Hpo) as (Q & HQ & Hin). etrans; [exact HQ|]. apply set_stake_mono. intros a Ha.
  destruct (Hin a Ha) as [Hac Hr]. apply elem_of_parents. destruct (po_clock _ _ _ _ _ Hpo) as [Hcl _].
  destruct (decide (a = own_index (ds_context s))) as [->|Hne].
  - destruct own_facts as (Hoa & Hor & _ & Hmax). exists own. split; [by left|]. split; [done|].
    destruct Hr as [->|(r & Hrs & Hra & Hrr)]; [lia|]. specialize (Hmax r Hrs Hra). lia.
  - destruct (lookup_lt_is_Some_2 all a) as [p Hp]; [lia|]. destruct (Hall a p Hp) as (Hpa & Hpr & _ & Hlat).
    assert (Hround : round p.1 = clock - 1).
    { destruct Hr as [->|(r & Hrs & Hra & Hrr)]; [lia|]. specialize (Hlat r Hrs Hra Hrr). lia. }
    exists p.1. split; [|done]. right. rewrite good_bad_perm. apply list_elem_of_fmap_2, list_elem_of_filter.
    split; [|by eapply list_elem_of_lookup_2]. unfold kept. rewrite Hpa. apply Is_true_true, andb_true_iff.
    split; [by apply negb_true_iff, Nat.eqb_neq|]. apply negb_true_iff.
    destruct (last_included !! a) as [[r|]|] eqn:Hli; try done.
    pose proof (po_included _ _ _ _ _ Hpo a r Hli). apply N.leb_gt. lia.
Qed.

Lemma select_rest accepted smart agg ex0 :
  length accepted = committee_size c → agg_ok c agg → agg_votes agg = parents (clock - 1) (own :: good) →
  ∃ last_included' l excluded,
    (if smart && negb (reached_threshold QuorumThreshold c agg) then Ok (m, last_included, ([], ∅)) else
     let! '(agg, to_propose, excluded) :=
       for_each (include_parent c (clock - 1)) (agg, own :: good, []) (sort_by (λ a b, b.1 <=? a.1) bad) in
     let! '(last_included, to_propose, excluded_refs) :=
       for_each (include_accepted c s (clock - 1) accepted) (last_included, to_propose, ex0) excluded in
     do! rassert (reached_threshold QuorumThreshold c agg)
       "Fatal error, quorum not reached for parent round when proposing" in
     Ok (m, last_included, (to_propose, excluded_refs))) = Ok (m, last_included', (l, excluded)) ∧
    length last_included' = length last_included ∧ (smart = true ∧ l = [] ∨ selected_ok s clock own l).
Proof using Hpo Hown Hall Hlen.
  intros Hacc Hagg Hv. pose proof (dok_committee s (po_dag _ _ _ _ _ Hpo)) as Hc. destruct (po_clock _ _ _ _ _ Hpo) as [Hcl Hmax].
  destruct (smart && _) eqn:Hsmart.
  { apply andb_true_iff in Hsmart as [-> _]. eexists _, _, _. split; [done|]. split; [done|by left]. }
  clear Hsmart. assert (Hperm : (sort_by (λ a b : N * VerifiedBlock, b.1 <=? a.1) bad).*2 ≡ₚ bad.*2) by (by rewrite sort_by_perm).
  destruct (include_parent_spec c Hc (clock - 1) (sort_by (λ a b, b.1 <=? a.1) bad) agg (own :: good) [])
    as (agg' & added & ex' & Hrun & Hagg' & Hv' & Hsplit & Hround & Hreach & _); [|done|done|].
  { intros p Hp. apply candidate. right. apply elem_of_app. right. rewrite <-Hperm. by apply list_elem_of_fmap_2. }
  rewrite Hrun. cbn [obind app]. rewrite Hperm in Hsplit. clear Hrun.
  assert (Hcand : (own :: good ++ added) ++ ex'.*2 ≡ₚ own :: good ++ bad.*2) by (cbn; by rewrite <-app_assoc, Hsplit).
  assert (Hex : ∀ p, p ∈ ex' → (author p.2 < committee_size c)%nat ∧ round p.2 ≤ clock - 1 ∧ view s !! reference p.2 = Some p.2).
  { intros p Hp. destruct (candidate p.2) as (H1 & H2 & H3); [|split_and!; [done|lia|done]].
    rewrite <-Hcand. apply elem_of_app. right. by apply list_elem_of_fmap_2. }
  destruct (include_accepted_spec s (po_dag _ _ _ _ _ Hpo) (clock - 1) accepted ltac:(lia) Hacc ex' last_included
    (own :: good ++ added) ex0 (po_length _ _ _ _ _ Hpo) Hex) as (li' & more & refs & Hrun & Hli & Hsub & Hmore).
  rewrite Hrun. cbn [obind]. clear Hrun. change ((own :: good) ++ added) with (own :: good ++ added) in *.
  assert (Hquorum : reached_threshold QuorumThreshold c agg' = true).
  { destruct Hreach as [?|Hno]; [done|]. apply (reached_parents c (clock - 1) agg' _ Hagg' Hv').
    etrans; [apply quorum_candidates|]. apply set_stake_mono. intros a. rewrite !elem_of_parents.
    intros (b & Hb & <- & Hr). exists b. split; [|done]. rewrite <-Hcand in Hb.
    apply elem_of_app in Hb as [?|(p & -> & Hp)%list_elem_of_fmap]; [done|]. by destruct (Hno p Hp). }
  rewrite Hquorum. cbn [rassert obind]. exists li', (own :: (good ++ added) ++ more), refs. split; [done|]. split; [done|]. right.
  pose proof candidates_nodup as Hnd. rewrite <-Hcand in Hnd. split.
  - done.
  - change (own :: (good ++ added) ++ more) with ((own :: good ++ added) ++ more). rewrite fmap_app in *.
    refine (sublist_NoDup _ _ Hnd _). by apply sublist_app.
  - intros b. change (own :: (good ++ added) ++ more) with ((own :: good ++ added) ++ more).
    intros [Hb|Hb]%elem_of_app.
    + apply candidate. rewrite <-Hcand. apply elem_of_app. by left.
    + destruct (Hmore b Hb) as (H1 & H2 & H3). split_and!; [done|lia|done].
  - etrans; [apply (reached_parents c (clock - 1) agg' _ Hagg' Hv'), Hquorum|]. apply set_stake_mono.
    change (own :: (good ++ added) ++ more) with ((own :: good ++ added) ++ more). rewrite (parents_app _ _ more). set_solver.
Qed.
End run.

(** The selection never panics: it waits, when told to select only good ancestors and too
    few are there, or returns ancestors that make the block valid. *)
Lemma smart_ancestors_spec s rounds m last_included clock smart :
  proposer_ok s rounds m last_included clock →
  ∃ m' last_included' l excluded own,
    smart_ancestors_to_propose (ds_context s) s rounds m last_included clock smart = Ok (m', last_included', (l, excluded)) ∧
    get_last_proposed_block s = Ok own ∧
    ancestors_ok (ds_context s) m' ∧ length last_included' = length last_included ∧
    (smart = true ∧ l = [] ∨ selected_ok s clock own l).
Proof.
  intros Hpo. pose proof Hpo as [Hok Hgen [Hcl Hmax] Hev Hown Hlen Hinc Htr Hanc HQ].
  pose proof (dok_committee s Hok) as Hc. unfold smart_ancestors_to_propose.
  destruct (get_last_cached_block_per_authority_spec s clock Hok Hgen Hcl Hmax Hev) as (all & -> & Hla & Hall). cbn [obind].
  unfold ds_committee in Hla. rewrite Hla, Nat.eqb_refl. cbn [rassert obind].
  destruct (compute_accepted_total (ds_context s) rounds Htr) as (accepted & -> & Hlacc). cbn [obind].
  destruct (update_by_transition (ds_context s) s m accepted Hc Hanc Hlacc) as (m' & -> & Hm' & _). cbn [obind].
  destruct (get_last_proposed_block_spec s Hok) as (own & Hrun & _). rewrite Hrun. cbn [obind].
  destruct (classify_spec (own_index (ds_context s)) last_included (get_ancestor_states m') all (mkSelection [own] [] ∅))
    as (ex & ->).
  { intros p [i Hi]%list_elem_of_lookup. destruct (Hall i p Hi) as (-> & _). apply lookup_lt_Some in Hi.
    unfold get_ancestor_states. rewrite length_fmap, (ao_length _ _ Hm'). unfold ds_committee in Hlen. lia. }
  cbn [obind sel_included sel_pending sel_excluded app].
  destruct (parent_round_stake_spec (ds_committee s) Hc (clock - 1)
    (own :: good_ones (own_index (ds_context s)) last_included (get_ancestor_states m') all)) as (agg & Hagg & Haok & Hav).
  { intros b Hb. apply (candidate s rounds m m' last_included clock Hpo own Hrun all Hla Hall).
    apply elem_of_cons in Hb as [->|Hb]; [by left|right]. apply elem_of_app. by left. }
  unfold saturating_sub. unfold ds_committee in Hagg. rewrite Hagg. cbn [obind].
  destruct (select_rest s rounds m m' last_included clock Hpo own Hrun all Hla Hall accepted smart agg ex Hlacc Haok Hav)
    as (li' & l & refs & Hrest & Hli & Hres).
  unfold ds_committee in Hrest. rewrite Hrest. by exists m', li', l, refs, own.
Qed.
End select.
