(* ===== verification/Core.v ===== *)
(** * The core of a validator ([core/src/core.rs], [core/src/commit_observer.rs])

    The core owns the components of a validator and reacts to blocks, commits fetched from
    peers and timeouts: it accepts blocks, runs the commit rule and proposes blocks.  What
    it sends to the other threads is recorded as events; the clock, the adaptive delay
    and the metric read by the code are arguments.  The theorems are in [CoreSpec]. *)

From S2P Require Import Prelude Collections Weighted Committee Types Fixtures Commits StakeAggregator.
From S2P Require Import ThresholdClock QuorumIndex LeaderScoring RoundTracker Storage DagState DagStateSpec Ancestor.
From S2P Require Import BaseCommitter Linearizer LeaderSchedule UniversalCommitter Errors BlockVerifier BlockManager.
From S2P Require Import TransactionCertifier TransactionConsumer CommitSyncer Proposal.

Local Open Scope N_scope.

Definition MAX_COMMIT_VOTES_PER_BLOCK : nat := 100.

(** The parameters read by the core ([config/src/parameters.rs]), in milliseconds and
    rounds. *)
Record CoreParameters := mkCoreParameters {
  min_round_delay : N;
  propagation_delay_stop_proposal_threshold : N;
}.

(** What the core reads from outside during one call: the clocks, the quorum commit index
    left in the metrics by the commit syncer, the adaptive delay, the epoch change data of
    the application, and whether the receivers of its channels are alive. *)
Record CoreEnv := mkCoreEnv {
  env_instant : Instant;
  timestamp_utc_ms : N;
  commit_sync_quorum_index : CommitIndex;
  adaptive_delay_ms : N;
  epoch_change_data : option Bytes * list Bytes;
  block_receivers : bool;
  finalizer_alive : bool;
  crash_on_debug : bool;
}.

(** What the core sends. *)
Inductive CoreEvent :=
| NewBlock (eb : ExtendedBlock)
| NewRound (r : Round)
| SubDagCommitted (d : CommittedSubDag)
| FastPathCertified (blocks : list CertifiedBlock)
| TransactionsIncluded (acks : list (nat * (BlockRef * list TransactionIndex)))
| BlockStatuses (l : list (nat * BlockStatus)).

Section core.
Context {S : Type} `{Store S}.

Record Core := mkCore {
  transaction_consumer : TransactionConsumer;
  transaction_certifier : CertifierState;
  block_manager : BlockManager;
  propagation_delay : Round;
  last_signaled_round : Round;
  last_included_ancestors : list (option BlockRef);
  last_decided_leader : Slot;
  leader_schedule : LeaderSchedule;
  dag_state : DagState S;
  last_known_proposed_round : option Round;
  ancestor_state_manager : AncestorStateManager;
  round_tracker : PeerRoundTracker;
  core_events : list CoreEvent;
}.

Implicit Types co : Core.

Definition set_consumer (x : TransactionConsumer) co : Core :=
  mkCore x (transaction_certifier co) (block_manager co) (propagation_delay co) (last_signaled_round co)
    (last_included_ancestors co) (last_decided_leader co) (leader_schedule co) (dag_state co)
    (last_known_proposed_round co) (ancestor_state_manager co) (round_tracker co) (core_events co).
Definition set_certifier (x : CertifierState) co : Core :=
  mkCore (transaction_consumer co) x (block_manager co) (propagation_delay co) (last_signaled_round co)
    (last_included_ancestors co) (last_decided_leader co) (leader_schedule co) (dag_state co)
    (last_known_proposed_round co) (ancestor_state_manager co) (round_tracker co) (core_events co).
Definition set_blocks (bm : BlockManager) (d : DagState S) co : Core :=
  mkCore (transaction_consumer co) (transaction_certifier co) bm (propagation_delay co) (last_signaled_round co)
    (last_included_ancestors co) (last_decided_leader co) (leader_schedule co) d
    (last_known_proposed_round co) (ancestor_state_manager co) (round_tracker co) (core_events co).
Definition set_dag (d : DagState S) co : Core := set_blocks (block_manager co) d co.
Definition set_delay (x : Round) co : Core :=
  mkCore (transaction_consumer co) (transaction_certifier co) (block_manager co) x (last_signaled_round co)
    (last_included_ancestors co) (last_decided_leader co) (leader_schedule co) (dag_state co)
    (last_known_proposed_round co) (ancestor_state_manager co) (round_tracker co) (core_events co).
Definition set_signaled (x : Round) co : Core :=
  mkCore (transaction_consumer co) (transaction_certifier co) (block_manager co) (propagation_delay co) x
    (last_included_ancestors co) (last_decided_leader co) (leader_schedule co) (dag_state co)
    (last_known_proposed_round co) (ancestor_state_manager co) (round_tracker co) (core_events co).
Definition set_ancestors (m : AncestorStateManager) (li : list (option BlockRef)) co : Core :=
  mkCore (transaction_consumer co) (transaction_certifier co) (block_manager co) (propagation_delay co) (last_signaled_round co)
    li (last_decided_leader co) (leader_schedule co) (dag_state co)
    (last_known_proposed_round co) m (round_tracker co) (core_events co).
Definition set_decided (x : Slot) co : Core :=
  mkCore (transaction_consumer co) (transaction_certifier co) (block_manager co) (propagation_delay co) (last_signaled_round co)
    (last_included_ancestors co) x (leader_schedule co) (dag_state co)
    (last_known_proposed_round co) (ancestor_state_manager co) (round_tracker co) (core_events co).
Definition set_schedule (x : LeaderSchedule) co : Core :=
  mkCore (transaction_consumer co) (transaction_certifier co) (block_manager co) (propagation_delay co) (last_signaled_round co)
    (last_included_ancestors co) (last_decided_leader co) x (dag_state co)
    (last_known_proposed_round co) (ancestor_state_manager co) (round_tracker co) (core_events co).
Definition set_known_round (x : option Round) co : Core :=
  mkCore (transaction_consumer co) (transaction_certifier co) (block_manager co) (propagation_delay co) (last_signaled_round co)
    (last_included_ancestors co) (last_decided_leader co) (leader_schedule co) (dag_state co)
    x (ancestor_state_manager co) (round_tracker co) (core_events co).
Definition set_tracker (x : PeerRoundTracker) co : Core :=
  mkCore (transaction_consumer co) (transaction_certifier co) (block_manager co) (propagation_delay co) (last_signaled_round co)
    (last_included_ancestors co) (last_decided_leader co) (leader_schedule co) (dag_state co)
    (last_known_proposed_round co) (ancestor_state_manager co) x (core_events co).
Definition emit (e : CoreEvent) co : Core :=
  mkCore (transaction_consumer co) (transaction_certifier co) (block_manager co) (propagation_delay co) (last_signaled_round co)
    (last_included_ancestors co) (last_decided_leader co) (leader_schedule co) (dag_state co)
    (last_known_proposed_round co) (ancestor_state_manager co) (round_tracker co) (core_events co ++ [e]).

(** A call that changes the core and gives a value or an error ([ConsensusResult]). *)
Abbreviation attempt A := (outcome (Core * (ConsensusError + A))) (only parsing).
Definition try_bind {A B} (m : attempt A) (k : Core → A → attempt B) : attempt B :=
  let! '(co, r) := m in
  match r with inl e => Ok (co, inl e) | inr a => k co a end.
End core.
Arguments Core S : clear implicits.

Notation "'try!' co ',' x := m 'in' k" := (try_bind m (λ co x, k))
  (at level 10, co name, x name, m at level 200, k at level 200,
   format "'[v' 'try!'  co ','  x  :=  m  'in' '/' k ']'") : outcome_scope.

Section operations.
Context {S : Type} `{Store S} (ck : Crypto) (cd : Codec) (rng : Rand).
Context (ctx : Context) (params : CoreParameters) (signer : KeyPair ck).
(** Enough fuel for the searches of the commit rule in a given DAG. *)
Context (decide_fuel : DagState S → nat).
Implicit Types co : Core S.
Abbreviation c := (committee ctx).
Abbreviation attempt A := (outcome (Core S * (ConsensusError + A))) (only parsing).

Definition committers : list BaseCommitterOptions :=
  build (with_pipeline (with_number_of_leaders builder_new
    (default 1%nat (mysticeti_num_leaders_per_round (protocol_config ctx)))) true).

Definition elect_now co : Round → N → outcome AuthorityIndex := elect_leader rng (leader_schedule co).

(** ** Signals *)

Definition signal_new_block (env : CoreEnv) co (eb : ExtendedBlock) : attempt unit :=
  if (1 <? committee_size c)%nat then
    if round (eb_block eb) =? GENESIS_ROUND then Ok (co, inr tt)
    else if block_receivers env then Ok (emit (NewBlock eb) co, inr tt) else Ok (co, inl Shutdown)
  else Ok (co, inr tt).

Definition try_signal_new_round co : Core S :=
  let new_clock_round := threshold_clock_round (dag_state co) in
  if new_clock_round <=? last_signaled_round co then co
  else set_signaled new_clock_round (emit (NewRound new_clock_round) co).

(** ** Reading the state *)

Definition leaders co (r : Round) : outcome (list Slot) :=
  let! l := get_leaders (elect_now co) committers r in Ok (mkSlot r <$> l).

Fixpoint all_leaders_cached (s : DagState S) (l : list Slot) : outcome bool :=
  match l with
  | [] => Ok true
  | slot :: l =>
      let! known := contains_cached_block_at_slot s slot in
      if (known : bool) then all_leaders_cached s l else Ok false
  end.
Definition leaders_exist co (r : Round) : outcome bool :=
  let! l := leaders co r in all_leaders_cached (dag_state co) l.

Definition first_leader co (r : Round) : outcome AuthorityIndex :=
  let! l := leaders co r in
  let! s := expect (head l) "called `Option::unwrap()` on a `None` value" in
  Ok (slot_authority s).

Definition should_propose (env : CoreEnv) co : bool :=
  let clock_round := threshold_clock_round (dag_state co) in
  let quorum := commit_sync_quorum_index env in
  let lag := saturating_sub quorum (last_commit_index (dag_state co)) in
  if (100 <? lag) || lag_above_percentage 10 lag quorum then false else
  if propagation_delay_stop_proposal_threshold params <? propagation_delay co then false else
  match last_known_proposed_round co with
  | None => false
  | Some last_known => if clock_round <=? last_known then false else true
  end.

Definition set_propagation_delay (delay : Round) co : Core S := set_delay delay co.
Definition set_last_known_proposed_round (r : Round) co : outcome (Core S) :=
  match last_known_proposed_round co with
  | Some _ => Panic "Should not attempt to set the last known proposed round if that has been already set"
  | None => Ok (set_known_round (Some r) co)
  end.
Definition get_missing_blocks co : gset BlockRef := missing_blocks (block_manager co).

(** ** Proposing *)

(** The block built from the ancestors. *)
Definition build_block (env : CoreEnv) (clock_round : Round) (ancestors : list BlockRef) (transactions : list Transaction)
    (commit_votes : list CommitVote) (transaction_votes : list BlockTransactionVotes) : Block :=
  let block :=
    if mysticeti_fastpath (protocol_config ctx) then
      V2 (mkBlockV2 (c_epoch c) clock_round (own_index ctx) (timestamp_utc_ms env) ancestors transactions
            transaction_votes commit_votes [] None [])
    else
      V1 (mkBlockV1 (c_epoch c) clock_round (own_index ctx) (timestamp_utc_ms env) ancestors transactions commit_votes
            [] None []) in
  set_epoch_change_votes (epoch_change_data env).2 (set_epoch_change_proposal (epoch_change_data env).1 block).

(** [SignedBlock::new(..).expect(..)], serialized. *)
Definition sign_block (b : Block) : outcome VerifiedBlock :=
  let! r := signed_block_new ck b signer in
  match r with
  | inl _ => Panic "Block signing failed."
  | inr signed =>
      let! serialized := expect (serialize_block cd signed) "Block serialization failed." in
      Ok (new_verified cd signed serialized)
  end.

Definition link_all (s : DagState S) (l : list VerifiedBlock) : outcome (DagState S * list BlockRef) :=
  for_each (λ acc b,
    let! '(s, linked) := link_causal_history acc.1 (reference b) in
    Ok (s, acc.2 ++ linked)) (s, []) l.

(** The checks before the ancestors are selected: whether to go on. *)
Definition ready_to_propose (env : CoreEnv) co (clock_round : Round) (force : bool) : outcome bool :=
  if force then Ok true else
  let! exist := leaders_exist co (saturating_sub clock_round 1) in
  if negb exist then Ok false else
  let! last := get_last_proposed_block (dag_state co) in
  Ok (negb (saturating_sub (timestamp_utc_ms env) (timestamp_ms last) <? min_round_delay params + adaptive_delay_ms env)).

Definition emit_certified (o : option (list CertifiedBlock)) co : Core S :=
  match o with Some l => emit (FastPathCertified l) co | None => co end.

(** From the selected ancestors to the accepted block. *)
Definition make_block (env : CoreEnv) co (clock_round : Round) (ancestors : list VerifiedBlock)
    (excluded : gset BlockRef) : outcome (Core S * ExtendedBlock) :=
  let excluded_ancestors := take (committee_size c * 2) (bset_iter excluded) in
  let! last_included := for_each (λ li b, vec_set li (author b) (Some (reference b))) (last_included_ancestors co) ancestors in
  let co := set_ancestors (ancestor_state_manager co) last_included co in
  let! leader := first_leader co (saturating_sub clock_round 1) in
  do! authority c leader in
  do! map_each (λ b, authority c (author b)) ancestors in
  let! '(consumer, (transactions, acks, _)) := next (crash_on_debug env) (transaction_consumer co) in
  let co := set_consumer consumer co in
  let '(s, votes) := take_commit_votes (dag_state co) MAX_COMMIT_VOTES_PER_BLOCK in
  let! '(s, transaction_votes) :=
    if mysticeti_fastpath (protocol_config ctx) then
      let! '(s, linked) := link_all s ancestors in
      let! votes := get_own_votes (transaction_certifier co) linked in
      Ok (s, votes)
    else Ok (s, []) in
  let! block := sign_block (build_block env clock_round (reference <$> ancestors) transactions votes transaction_votes) in
  do! get_last_proposed_block s in
  let! '(bm, s, accepted, missing) := try_accept_blocks (env_instant env) (block_manager co) s [block] in
  do! rassert (length accepted =? 1)%nat "assertion `left == right` failed" in
  do! rassert (bool_decide (missing = ∅)) "assertion failed: missing.is_empty()" in
  let co := set_blocks bm s co in
  let! co :=
    if mysticeti_fastpath (protocol_config ctx) then
      let! '(cs, certified) := certifier_add_voted_blocks ctx (transaction_certifier co) [(block, [])] in
      let! '(s, _) := link_causal_history s (reference block) in
      Ok (emit_certified certified (set_dag s (set_certifier cs co)))
    else Ok co in
  let! s := flush (dag_state co) in
  let co := set_dag s co in
  let '(consumer, sent) := acknowledge (transaction_consumer co) acks (reference block) in
  let co := emit (TransactionsIncluded sent) (set_consumer consumer co) in
  let eb := mkExtendedBlock block excluded_ancestors in
  let! t := update_from_verified_block (round_tracker co) eb in
  Ok (set_tracker t co, eb).

Definition try_new_block (env : CoreEnv) co (force : bool) : outcome (Core S * option ExtendedBlock) :=
  let clock_round := threshold_clock_round (dag_state co) in
  let! last := get_last_proposed_block (dag_state co) in
  if clock_round <=? round last then Ok (co, None) else
  let! ready := ready_to_propose env co clock_round force in
  if negb ready then Ok (co, None) else
  let! '(m, last_included, (ancestors, excluded)) :=
    smart_ancestors_to_propose ctx (dag_state co) (round_tracker co) (ancestor_state_manager co)
      (last_included_ancestors co) clock_round (negb force) in
  let co := set_ancestors m last_included co in
  match ancestors with
  | [] => do! rassert (negb force) "Ancestors should have been returned if force is true!" in Ok (co, None)
  | _ =>
      let! '(co, eb) := make_block env co clock_round ancestors excluded in
      Ok (co, Some eb)
  end.

(** ** Committing *)

Definition with_local (local : bool) (d : CommittedSubDag) : CommittedSubDag :=
  mkCommittedSubDag (sd_leader d) (sd_blocks d) (sd_timestamp_ms d) (sd_commit_ref d) local
    (recovered_rejected_transactions d) (sd_reputation_scores_desc d) (rejected_transactions_by_block d).
Definition with_scores (scores : list (AuthorityIndex * N)) (d : CommittedSubDag) : CommittedSubDag :=
  mkCommittedSubDag (sd_leader d) (sd_blocks d) (sd_timestamp_ms d) (sd_commit_ref d) (decided_with_local_blocks d)
    (recovered_rejected_transactions d) scores (rejected_transactions_by_block d).

(** [CommitObserver::handle_commit] *)
Definition observe_commit (env : CoreEnv) co (committed_leaders : list VerifiedBlock) (local : bool) :
    attempt (list CommittedSubDag) :=
  let! '(s, sub_dags) := handle_commit cd (dag_state co) committed_leaders in
  let co := set_dag s co in
  let sub_dags := with_local local <$> sub_dags in
  let! sub_dags :=
    if leader_schedule_updated (leader_schedule co) s then
      let! first := vec_get sub_dags 0 in
      vec_set sub_dags 0 (with_scores (reputation_scores_desc (leader_swap_table (leader_schedule co))) first)
    else Ok sub_dags in
  if negb (finalizer_alive env) && negb (length sub_dags =? 0)%nat then Ok (co, inl Shutdown) else
  let co := foldl (λ co d, emit (SubDagCommitted d) co) co sub_dags in
  let! s := add_scoring_subdags (dag_state co) sub_dags in
  Ok (set_dag s co, inr sub_dags).

(** One certified commit as a decided leader. *)
Definition certified_leader (commit : CertifiedCommit) : outcome (DecidedLeader * CertifiedCommit) :=
  let! leader := expect (last (cc_blocks commit)) "Certified commit should have at least one block" in
  do! rassert (bool_decide (reference leader = commit_leader (tcm_inner (cc_commit commit))))
    "Last block of the committed sub dag should have the same digest as the leader of the commit" in
  do! authority c (author leader) in
  Ok (DecidedCommit leader false, commit).

(** The certified commits left, and the leaders and commits selected. *)
Definition try_select_certified_leaders (certified_commits : list CertifiedCommit) (limit : nat) :
    outcome (list CertifiedCommit * list (DecidedLeader * CertifiedCommit)) :=
  do! rassert (0 <? limit)%nat "limit should be greater than 0" in
  let! selected := map_each certified_leader (take limit certified_commits) in
  Ok (drop limit certified_commits, selected).

(** The number of commits before the next change of the leader schedule, which is
    changed when it is 0. *)
Definition commits_before_update co : outcome (Core S * N) :=
  let! n := commits_until_leader_schedule_update (leader_schedule co) (dag_state co) in
  if n =? 0 then
    let! '(ls, s) := update_leader_schedule_v2 rng (leader_schedule co) (dag_state co) in
    let co := set_dag s (set_schedule ls co) in
    let co := set_ancestors
      (set_propagation_scores (ancestor_state_manager co) (lst_reputation_scores (leader_swap_table ls)))
      (last_included_ancestors co) co in
    let! n := commits_until_leader_schedule_update ls s in
    Ok (co, n)
  else Ok (co, n).

(** The next decided leaders: those of the certified commits, or those the commit rule
    decides, at most [limit]. *)
Definition next_leaders (env : CoreEnv) co (certified_commits : list CertifiedCommit) (limit : nat) :
    outcome (Core S * list CertifiedCommit * (list DecidedLeader * bool)) :=
  let! '(rest, selected) := try_select_certified_leaders certified_commits limit in
  let blocks := concat ((λ p, cc_blocks p.2) <$> selected) in
  let! '(bm, s, _) := try_accept_committed_blocks (env_instant env) (block_manager co) (dag_state co) blocks in
  let co := set_blocks bm s co in
  match selected with
  | [] =>
      let! decided := try_decide (decide_fuel s) (elect_now co) committers (protocol_config ctx) s (last_decided_leader co) in
      Ok (co, rest, (take limit decided, true))
  | _ => Ok (co, rest, (selected.*1, false))
  end.

Fixpoint commit_loop (fuel : nat) (env : CoreEnv) co (certified_commits : list CertifiedCommit)
    (committed_sub_dags : list CommittedSubDag) : attempt (list CommittedSubDag) :=
  match fuel with
  | O => OutOfFuel
  | Datatypes.S fuel =>
      let! '(co, until_update) := commits_before_update co in
      do! rassert (0 <? until_update) "assertion failed: commits_until_update > 0" in
      let! '(co, certified_commits, (decided, local)) := next_leaders env co certified_commits (N.to_nat until_update) in
      match last decided with
      | None => Ok (co, inr committed_sub_dags)
      | Some last_decided =>
          let co := set_decided (decided_slot last_decided) co in
          match omap into_committed_block decided with
          | [] => Ok (co, inr committed_sub_dags)
          | sequenced_leaders =>
              try! co, sub_dags := observe_commit env co sequenced_leaders local in
              let! '(bm, s) := try_unsuspend_blocks_for_latest_gc_round (env_instant env) (block_manager co) (dag_state co) in
              commit_loop fuel env (set_blocks bm s co) certified_commits (committed_sub_dags ++ sub_dags)
          end
      end
  end.

(** The check that certified commits were committed as they are. *)
Definition check_certified (m : gmap CommitIndex CommitRef) (d : CommittedSubDag) : outcome (gmap CommitIndex CommitRef) :=
  match m !! cref_index (sd_commit_ref d) with
  | None => Ok m
  | Some r =>
      do! rassert (bool_decide (r = sd_commit_ref d))
        "Certified commit has different reference than the committed sub dag" in
      Ok (delete (cref_index (sd_commit_ref d)) m)
  end.

Definition try_commit (fuel : nat) (env : CoreEnv) co (certified_commits : list CertifiedCommit) :
    attempt (list CommittedSubDag) :=
  let certified_commits_map := foldl (λ (m : gmap CommitIndex CommitRef) x,
    <[commit_index (tcm_inner (cc_commit x)) := commit_reference (cc_commit x)]> m) ∅ certified_commits in
  try! co, sub_dags := commit_loop fuel env co certified_commits [] in
  do! for_each check_certified certified_commits_map sub_dags in
  let committed := reference <$> filter (λ b, author b = own_index ctx) (concat (sd_blocks <$> sub_dags)) in
  let! '(consumer, statuses) := notify_own_blocks_status (transaction_consumer co) committed (gc_round (dag_state co)) in
  Ok (emit (BlockStatuses statuses) (set_consumer consumer co), inr sub_dags).

(** ** Calls from the other threads *)

Definition try_propose (fuel : nat) (env : CoreEnv) co (force : bool) : attempt (option VerifiedBlock) :=
  if negb (should_propose env co) then Ok (co, inr None) else
  let! '(co, o) := try_new_block env co force in
  match o with
  | None => Ok (co, inr None)
  | Some eb =>
      try! co, _ := signal_new_block env co eb in
      try! co, _ := try_commit fuel env co [] in
      Ok (co, inr (Some (eb_block eb)))
  end.

Definition add_blocks (fuel : nat) (env : CoreEnv) co (blocks : list VerifiedBlock) : attempt (gset BlockRef) :=
  let! '(bm, s, accepted, missing) := try_accept_blocks (env_instant env) (block_manager co) (dag_state co) blocks in
  let co := set_blocks bm s co in
  match accepted with
  | [] => Ok (co, inr missing)
  | _ =>
      try! co, _ := try_commit fuel env co [] in
      try! co, _ := try_propose fuel env co false in
      Ok (try_signal_new_round co, inr missing)
  end.

(** Keeps the commits above the last commit; the first of them must follow it. *)
Definition filter_new_commits co (commits : list CertifiedCommit) : ConsensusError + list CertifiedCommit :=
  let last_commit_index := last_commit_index (dag_state co) in
  let commits := filter (λ x, last_commit_index < commit_index (tcm_inner (cc_commit x))) commits in
  match commits with
  | [] => inr commits
  | x :: _ =>
      if commit_index (tcm_inner (cc_commit x)) =? u32_add last_commit_index 1 then inr commits
      else inl (UnexpectedCertifiedCommitIndex (u32_add last_commit_index 1) (commit_index (tcm_inner (cc_commit x))))
  end.

Definition add_certified_commits (fuel : nat) (env : CoreEnv) co (certified : CertifiedCommits) : attempt (gset BlockRef) :=
  match filter_new_commits co (certified_commits certified) with
  | inl _ => Panic "Certified commits validation failed"
  | inr commits =>
      let! '(bm, s, _, missing) :=
        try_accept_blocks (env_instant env) (block_manager co) (dag_state co) (certifying_votes certified) in
      let co := set_blocks bm s co in
      try! co, _ := try_commit fuel env co commits in
      try! co, _ := try_propose fuel env co false in
      Ok (try_signal_new_round co, inr missing)
  end.

Definition check_block_refs co (refs : list BlockRef) : outcome (Core S * gset BlockRef) :=
  let! '(bm, missing) := try_find_blocks (block_manager co) (dag_state co) refs in
  Ok (set_blocks bm (dag_state co) co, missing).

Definition new_block (fuel : nat) (env : CoreEnv) co (r : Round) (force : bool) : attempt (option VerifiedBlock) :=
  let! last := get_last_proposed_block (dag_state co) in
  if round last <? r then
    let! '(co, res) := try_propose fuel env co force in
    Ok (try_signal_new_round co, res)
  else Ok (co, inr None).

(** ** Construction *)

(** [Core::new] before the recovery. *)
Definition core_init (consumer : TransactionConsumer) (cs : CertifierState) (bm : BlockManager) (ls : LeaderSchedule)
    (s : DagState S) (tracker : PeerRoundTracker) (sync_last_known_own_block : bool) : outcome (Core S) :=
  let! last_decided := last_commit_leader s in
  let! last_proposed := get_last_proposed_block s in
  let! last_included := for_each (λ li r, vec_set li (ref_author r) (Some r))
    (replicate (committee_size c) None) (ancestors last_proposed) in
  let m := set_propagation_scores (ancestor_state_manager_new ctx) (lst_reputation_scores (leader_swap_table ls)) in
  Ok (mkCore consumer cs bm 0 (round last_proposed) last_included last_decided ls s
        (if sync_last_known_own_block then None else Some 0) m tracker []).

(** [.unwrap()] of a [ConsensusResult] *)
Definition unwrap {A} (m : attempt A) : outcome (Core S * A) :=
  let! '(co, r) := m in
  match r with inl _ => Panic "called `Result::unwrap()` on an `Err` value" | inr a => Ok (co, a) end.

Definition recover (fuel : nat) (env : CoreEnv) co : outcome (Core S) :=
  let! '(co, _) := unwrap (try_commit fuel env co []) in
  let! '(co, proposed) := unwrap (try_propose fuel env co true) in
  let! co :=
    match proposed with
    | Some _ => Ok co
    | None =>
        let! last := get_last_proposed_block (dag_state co) in
        do! (if should_propose env co then
               rassert (GENESIS_ROUND <? round last)
                 "At minimum a block of round higher than genesis should have been produced during recovery"
             else Ok tt) in
        let! '(co, _) := unwrap (signal_new_block env co (mkExtendedBlock last [])) in
        Ok co
    end in
  Ok (try_signal_new_round co).

Definition core_new (fuel : nat) (env : CoreEnv) (consumer : TransactionConsumer) (cs : CertifierState) (bm : BlockManager)
    (ls : LeaderSchedule) (s : DagState S) (tracker : PeerRoundTracker) (sync_last_known_own_block : bool) : outcome (Core S) :=
  let! co := core_init consumer cs bm ls s tracker sync_last_known_own_block in
  recover fuel env co.
End operations.
