(* ===== verification/CoreSpec.v ===== *)
(** * Correctness of the core

    The blocks a validator proposes pass the verification of its peers and never share a
    round with an earlier own block; certified commits are taken in order. *)

From S2P Require Import Prelude Collections Weighted Committee Types Fixtures Commits StakeAggregator.
From S2P Require Import ThresholdClock QuorumIndex LeaderScoring RoundTracker Storage DagState DagStateSpec DagTraversal.
From S2P Require Import DagRecovery Ancestor BaseCommitter Linearizer LeaderSchedule UniversalCommitter Errors.
From S2P Require Import BlockVerifier BlockManager TransactionCertifier TransactionConsumer CommitSyncer CommitSyncerSpec Proposal ProposalSpec Core.

Local Open Scope N_scope.

Section proposals.
Context {S : Type} `{Store S, !StoreLaws S} (ck : Crypto) (cd : Codec) (rng : Rand).
Context (ctx : Context) (params : CoreParameters) (signer : KeyPair ck).
Implicit Types co : Core S.

(** The newest own block is the last proposed one. *)
Lemma own_blocks_below s r b l :
  dag_ok s → view s !! r = Some b → ref_author r = own_index (ds_context s) →
  get_last_proposed_block s = Ok l → ref_round r ≤ round l.
Proof.
  intros Hok Hv Ha Hl. destruct (get_last_proposed_block_spec s Hok) as (l' & Hl' & _ & _ & Hmax).
  assert (l' = l) as -> by congruence. apply lookup_view in Hv as [Hg|[(i & Hi & _)%fmap_Some|Hst]]; [| | |done].
  - destruct (dok_genesis s Hok r b Hg) as (_ & -> & _). lia.
  - apply Hmax; [by eexists|done].
  - destruct (dok_top s Hok r b Hst) as (t & Ht & Hat & Hle). etrans; [exact Hle|]. apply Hmax; [done|congruence].
Qed.

Lemma build_block_fields env clock ancs txs votes tvotes :
  let b := build_block ctx env clock ancs txs votes tvotes in
  block_epoch b = c_epoch (committee ctx) ∧ block_round b = clock ∧ block_author b = own_index ctx ∧
  block_ancestors b = ancs ∧ block_transactions b = txs.
Proof. unfold build_block. by destruct (mysticeti_fastpath _). Qed.

(** The block is the signed block built from the given ancestors and a valid set of
    transactions. *)
Lemma make_block_inv env co clock ancs excluded co' eb :
  limits_ok (protocol_config ctx) → consumer_ok (protocol_config ctx) (transaction_consumer co) →
  make_block ck cd rng ctx signer env co clock ancs excluded = Ok (co', eb) →
  (length (excluded_ancestors eb) ≤ committee_size (committee ctx) * 2)%nat ∧
  ∃ txs votes tvotes, valid_transactions (protocol_config ctx) (data <$> txs) ∧
    sign_block ck cd signer (build_block ctx env clock (reference <$> ancs) txs votes tvotes) = Ok (eb_block eb).
Proof.
  intros Hlim Hco. unfold make_block. intros Hrun.
  apply bind_Ok in Hrun as (li & _ & Hrun). apply bind_Ok in Hrun as (leader & _ & Hrun).
  apply bind_Ok in Hrun as (? & _ & Hrun). apply bind_Ok in Hrun as (? & _ & Hrun).
  apply bind_Ok in Hrun as ([consumer [[txs acks] limit]] & Hnext & Hrun). cbn [transaction_consumer set_ancestors] in Hnext.
  destruct (next_spec (protocol_config ctx) (crash_on_debug env) (transaction_consumer co) Hlim Hco)
    as (? & txs' & ? & ? & ? & Hnext' & _ & _ & _ & _ & Hval & _). rewrite Hnext in Hnext'. injection Hnext' as _ <- _ _.
  destruct (take_commit_votes _ _) as [s votes].
  apply bind_Ok in Hrun as ([s1 tvotes] & _ & Hrun). apply bind_Ok in Hrun as (block & Hsign & Hrun).
  apply bind_Ok in Hrun as (? & _ & Hrun). apply bind_Ok in Hrun as ([[[bm s2] accepted] missing] & _ & Hrun).
  apply bind_Ok in Hrun as (? & _ & Hrun). apply bind_Ok in Hrun as (? & _ & Hrun).
  apply bind_Ok in Hrun as (co1 & _ & Hrun). apply bind_Ok in Hrun as (s3 & _ & Hrun).
  destruct (acknowledge _ _ _) as [consumer' sent]. apply bind_Ok in Hrun as (t & _ & Hrun). injection Hrun as _ <-.
  cbn. split; [rewrite length_take; lia|]. by exists txs, votes, tvotes.
Qed.

Lemma signed_block_valid v (s : DagState S) env clock ancs txs votes tvotes own b a :
  CryptoLaws ck → dag_ok s → ds_context s = ctx → bv_context v = ctx → bv_genesis v = dom (genesis s) →
  authorities (committee ctx) !! own_index ctx = Some a → protocol_key a = public_key ck signer →
  1 ≤ clock → author own = own_index ctx → selected_ok s clock own ancs → valid_transactions (protocol_config ctx) (data <$> txs) →
  sign_block ck cd signer (build_block ctx env clock (reference <$> ancs) txs votes tvotes) = Ok b →
  valid_block ck v (vb_block b) ∧ author b = own_index ctx ∧ round b = clock ∧ ancestors b = reference <$> ancs.
Proof.
  intros Hck Hok Hctx Hv Hgen Ha Hkey Hcl Hown Hsel Htx Hsign. unfold sign_block in Hsign.
  destruct (build_block_fields env clock (reference <$> ancs) txs votes tvotes) as (Fe & Fr & Fa & Fn & Ft).
  set (blk := build_block _ _ _ _ _ _ _) in *. apply bind_Ok in Hsign as ([e|signed] & Hnew & Hsign); [done|].
  apply bind_Ok in Hsign as (ser & _ & [= <-]).
  destruct (signed_block_verifies ck ctx blk signer signed a Hck) as [Hin Hver]; [by rewrite Fa|done|done|].
  unfold author, round, ancestors, vb_inner. cbn [vb_block new_verified]. rewrite Hin. split; [|done].
  split; rewrite ?Hin, ?Hv, ?Hgen, ?Fe, ?Fr, ?Fa, ?Fn, ?Ft; try done.
  - lia.
  - by eapply lookup_lt_Some.
  - subst ctx. apply (selected_valid s clock own); done.
Qed.

End proposals.

(** ** Commits from the syncer *)

Lemma filter_consecutive lo l : ∀ first,
  (∀ i x, l !! i = Some x → commit_index (tcm_inner (cc_commit x)) = first + N.of_nat i) →
  filter (λ x, lo < commit_index (tcm_inner (cc_commit x))) l = drop (N.to_nat (lo + 1 - first)) l.
Proof.
  induction l as [|x l IH]; intros first Hl; [by rewrite drop_nil|]. rewrite filter_cons.
  pose proof (Hl 0%nat x eq_refl) as Hx. rewrite N.add_0_r in Hx.
  assert (Hl' : ∀ i y, l !! i = Some y → commit_index (tcm_inner (cc_commit y)) = (first + 1) + N.of_nat i).
  { intros i y Hy. specialize (Hl (S i) y Hy). lia. }
  rewrite (IH (first + 1) Hl'). case_decide as Hc.
  - replace (N.to_nat (lo + 1 - first)) with 0%nat by lia. by replace (N.to_nat (lo + 1 - (first + 1))) with 0%nat by lia.
  - replace (N.to_nat (lo + 1 - first)) with (S (N.to_nat (lo + 1 - (first + 1)))) by lia. done.
Qed.

Lemma chain_indices l first : commit_chain l → (commit_index ∘ tcm_inner <$> head l) = Some first →
  ∀ i x, l !! i = Some x → commit_index (tcm_inner x) = first + N.of_nat i.
Proof.
  intros Hch Hh i. induction i as [|i IH]; intros x Hx.
  - rewrite head_lookup, Hx in Hh. injection Hh as <-. cbn. lia.
  - destruct (lookup_lt_is_Some_2 l i) as [y Hy]; [apply lookup_lt_Some in Hx; lia|].
    destruct (Hch i y x Hy Hx) as [-> _]. rewrite (IH y Hy). lia.
Qed.

(** A chain of commits that starts no later than the next index, which is
    what the syncer hands over, is never refused by the core: exactly the commits above
    the last one are kept, and the first of them follows it. *)
Theorem synced_commits_accepted {S : Type} `{Store S} (co : Core S) r certified :
  commit_chain (cc_commit <$> certified_commits certified) → response_fits r certified →
  r.1 ≤ last_commit_index (dag_state co) + 1 → last_commit_index (dag_state co) < u32_max →
  filter_new_commits co (certified_commits certified) =
    inr (drop (N.to_nat (last_commit_index (dag_state co) + 1 - r.1)) (certified_commits certified)).
Proof.
  intros Hch (first & final & Hf & _ & Hfi & _) Hle Hmax. set (l := certified_commits certified) in *.
  set (n := last_commit_index (dag_state co)) in *.
  assert (Hidx : ∀ i x, l !! i = Some x → commit_index (tcm_inner (cc_commit x)) = r.1 + N.of_nat i).
  { intros i x Hx. apply (chain_indices (cc_commit <$> l) r.1 Hch); [|by rewrite list_lookup_fmap, Hx].
    destruct l; [done|]. cbn in *. injection Hf as ->. by rewrite Hfi. }
  unfold filter_new_commits. fold n. rewrite (filter_consecutive n l r.1 Hidx).
  destruct (drop _ l) as [|x rest] eqn:Hd; [done|].
  assert (Hx : l !! N.to_nat (n + 1 - r.1) = Some x).
  { assert (Hd0 : drop (N.to_nat (n + 1 - r.1)) l !! 0%nat = Some x) by (by rewrite Hd). by rewrite lookup_drop, Nat.add_0_r in Hd0. }
  rewrite (Hidx _ x Hx), u32_add_small by width_lia. by rewrite (proj2 (N.eqb_eq _ _)) by lia.
Qed.

(** ** Witnesses: authority 0 proposes for round 2, on three blocks of round 1 *)

Definition voted4 : CertifierState :=
  match certifier_add_voted_blocks context4 certifier_state_new ((λ a, (round1 a, [])) <$> [1; 2; 3]%nat) with
  | Ok (cs, _) => cs
  | _ => certifier_state_new
  end.
Definition core4 : Core Inner :=
  mkCore (mkTransactionConsumer [bundle [4]%nat 9] 524288 512 None ∅) voted4 (block_manager_new context4) 0 0 (replicate 4 None)
    (mkSlot 0 0) (mkLeaderSchedule leader_swap_table_default context4 300) grown4 (Some 0)
    (ancestor_state_manager_new context4) (peer_round_tracker_new context4) [].
Definition env4 : CoreEnv := mkCoreEnv 0 1000 0 0 (None, []) true true true.
Definition params4 : CoreParameters := mkCoreParameters 50 20.
Definition proposed4 : outcome (Core Inner * option ExtendedBlock) :=
  try_new_block toy_crypto test_codec first_rand context4 params4 tt env4 core4 true.

Lemma proposer4_ok : proposer_ok grown4 (peer_round_tracker_new context4) (ancestor_state_manager_new context4) (replicate 4 None) 2.
Proof.
  destruct grown4_ok as [Hok Hctx]. assert (Hc : ds_committee grown4 = committee4) by (unfold ds_committee; by rewrite Hctx).
  split; rewrite ?Hc, ?Hctx.
  - exact Hok.
  - unfold genesis_in_order. rewrite Hc. vm_compute. reflexivity.
  - split; width_lia.
  - right. intros a e He. assert (Hev : evicted_rounds grown4 = [0; 0; 0; 0]) by (vm_compute; reflexivity).
    rewrite Hev in He. clear Hev Hok Hctx Hc. destruct a as [|[|[|[|a]]]]; cbn in He; try discriminate; injection He as <-; reflexivity.
  - intros b Hb. assert (He : omap_ok round (get_last_proposed_block grown4) = Ok 0) by (vm_compute; reflexivity).
    rewrite Hb in He. cbn in He. injection He as ->. lia.
  - reflexivity.
  - intros a r Hr. by apply lookup_replicate in Hr as [? _].
  - clear Hok Hctx Hc. split; (split; [reflexivity|]); repeat constructor.
  - apply ancestors_new_ok.
  - exists ({[1%nat; 2%nat; 3%nat]} : gset nat). clear Hok Hctx Hc. split; [vm_compute; discriminate|]. intros a Ha.
    assert (a = 1 ∨ a = 2 ∨ a = 3)%nat as Hcases by (clear -Ha; set_solver).
    assert (Hblocks : forallb (λ a, bool_decide (is_Some (recent_blocks grown4 !! reference (round1 a)))) [1; 2; 3]%nat = true)
      by (vm_compute; reflexivity).
    rewrite forallb_forall in Hblocks. split; [vm_compute; lia|]. right. exists (reference (round1 a)).
    split_and!; [|done|done]. apply (bool_decide_eq_true_1 (is_Some _)), Hblocks. destruct Hcases as [->|[->| ->]]; cbn; auto.
Qed.

Lemma consumer4_ok : consumer_ok test_protocol_config (transaction_consumer core4).
Proof.
  split; [reflexivity|reflexivity|]. repeat constructor; try (vm_compute; discriminate).
  intros x Hx. cbn in Hx. apply list_elem_of_singleton in Hx as ->. vm_compute. discriminate.
Qed.


Definition two_commits : CertifiedCommits := mkCertifiedCommits ((λ x, mkCertifiedCommit x []) <$> [trusted1; trusted2]) [].

Lemma synced_commits_accepted_witness :
  last_commit_index (dag_state core4) = 0 ∧ filter_new_commits core4 (certified_commits two_commits) = inr (certified_commits two_commits).
Proof.
  assert (Hlast : last_commit_index (dag_state core4) = 0) by (vm_compute; reflexivity). split; [exact Hlast|].
  pose proof (synced_commits_accepted core4 (1, 2) two_commits) as Hacc. rewrite Hlast in Hacc. apply Hacc; clear Hacc Hlast.
  - intros [|[|i]] x y Hx Hy; cbn in Hx, Hy; try discriminate. by simplify_eq.
  - eexists _, _. split; [reflexivity|]. split; [reflexivity|]. split; [reflexivity|]. split; vm_compute; discriminate.
  - vm_compute. discriminate.
  - reflexivity.
Defined.
