(* ===== verification/CoreThread.v ===== *)
(** * The thread of the core ([core/src/core_thread.rs])

    The other tasks of a validator reach the core through commands that its thread
    processes one at a time, and through two watched values.  [CoreThreadDispatcher] is the
    interface they use, with the state they share with the core; the channel dispatcher
    is its instance.  The theorems of the tasks are stated against the interface. *)

From S2P Require Import Prelude Collections Weighted Committee Types Fixtures Commits StakeAggregator.
From S2P Require Import ThresholdClock QuorumIndex LeaderScoring RoundTracker Storage DagState DagStateSpec Ancestor.
From S2P Require Import BaseCommitter Linearizer LeaderSchedule UniversalCommitter Errors BlockVerifier BlockManager.
From S2P Require Import TransactionCertifier TransactionConsumer CommitSyncer Proposal Core.

Local Open Scope N_scope.

(** ** The interface

    [None] stands for the error of a core that has shut down. *)
Class CoreThreadDispatcher (S D : Type) `{Store S} := {
  d_add_blocks : CoreEnv → D → list VerifiedBlock → outcome (D * option (gset BlockRef));
  d_check_block_refs : CoreEnv → D → list BlockRef → outcome (D * option (gset BlockRef));
  d_add_certified_commits : CoreEnv → D → CertifiedCommits → outcome (D * option (gset BlockRef));
  d_new_block : CoreEnv → D → Round → bool → outcome (D * option unit);
  d_get_missing_blocks : CoreEnv → D → outcome (D * option (gset BlockRef));
  d_set_propagation_delay : D → Round → D * option unit;
  d_set_last_known_proposed_round : D → Round → D * option unit;
  d_highest_received_rounds : D → list Round;
  (** What the core shares with the tasks. *)
  d_dag_state : D → DagState S;
  d_certifier : D → CertifierState;
  d_set_certifier : CertifierState → option (list CertifiedBlock) → D → D;
  d_round_tracker : D → PeerRoundTracker;
  d_set_round_tracker : PeerRoundTracker → D → D;
}.

Class DispatcherLaws (S D : Type) `{CoreThreadDispatcher S D} := {
  certifier_set_certifier cs out (d : D) : d_certifier (d_set_certifier cs out d) = cs;
  dag_set_certifier cs out (d : D) : d_dag_state (d_set_certifier cs out d) = d_dag_state d;
  tracker_set_certifier cs out (d : D) : d_round_tracker (d_set_certifier cs out d) = d_round_tracker d;
  certifier_set_tracker t (d : D) : d_certifier (d_set_round_tracker t d) = d_certifier d;
  dag_set_tracker t (d : D) : d_dag_state (d_set_round_tracker t d) = d_dag_state d;
  tracker_set_tracker t (d : D) : d_round_tracker (d_set_round_tracker t d) = t;
}.

(** ** The thread *)

Inductive CoreThreadCommand :=
| AddBlocks (blocks : list VerifiedBlock)
| CheckBlockRefs (block_refs : list BlockRef)
| AddCertifiedCommits (commits : CertifiedCommits)
| NewBlockCommand (r : Round) (force : bool)
| GetMissing.

(** What a command is answered with: missing references, or a unit. *)
Abbreviation CoreReply := (gset BlockRef) (only parsing).

(** The thread and the senders of its watched values; the thread has ended when it is not
    [running].  A watched value is [Some] while the thread has not seen its last change. *)
Record CoreThread (S : Type) `{Store S} := mkCoreThread {
  ct_core : Core S;
  running : bool;
  watched_propagation_delay : option Round;
  watched_last_known_proposed_round : option Round;
  highest_received_rounds : list Round;
}.
Arguments mkCoreThread {S _}.
Arguments ct_core {S _}.
Arguments running {S _}.
Arguments watched_propagation_delay {S _}.
Arguments watched_last_known_proposed_round {S _}.
Arguments highest_received_rounds {S _}.

Section thread.
Context {S : Type} `{Store S} (ck : Crypto) (cd : Codec) (rng : Rand).
Context (ctx : Context) (params : CoreParameters) (signer : KeyPair ck).
Context (decide_fuel : DagState S → nat) (commit_fuel : Core S → nat).
Implicit Types t : CoreThread S.
Implicit Types co : Core S.

Definition set_core co t : CoreThread S :=
  mkCoreThread co (running t) (watched_propagation_delay t) (watched_last_known_proposed_round t) (highest_received_rounds t).
Definition stop t : CoreThread S :=
  mkCoreThread (ct_core t) false (watched_propagation_delay t) (watched_last_known_proposed_round t) (highest_received_rounds t).
Definition set_received (l : list Round) t : CoreThread S :=
  mkCoreThread (ct_core t) (running t) (watched_propagation_delay t) (watched_last_known_proposed_round t) l.

(** The arms of the match on the received command. *)
Definition run_command (env : CoreEnv) co (command : CoreThreadCommand) :
    outcome (Core S * (ConsensusError + CoreReply)) :=
  let fuel := commit_fuel co in
  match command with
  | AddBlocks blocks => add_blocks ck cd rng ctx params signer decide_fuel fuel env co blocks
  | CheckBlockRefs refs => let! '(co, missing) := check_block_refs co refs in Ok (co, inr missing)
  | AddCertifiedCommits commits => add_certified_commits ck cd rng ctx params signer decide_fuel fuel env co commits
  | NewBlockCommand r force =>
      try! co, _ := new_block ck cd rng ctx params signer decide_fuel fuel env co r force in Ok (co, inr ∅)
  | GetMissing => Ok (co, inr (get_missing_blocks co))
  end.

(** An error ends the loop; the task panics unless the error is [Shutdown]. *)
Definition end_on_error {A} t (r : outcome (Core S * (ConsensusError + A))) : outcome (CoreThread S * option A) :=
  let! '(co, res) := r in
  match res with
  | inr a => Ok (set_core co t, Some a)
  | inl Shutdown => Ok (stop (set_core co t), None)
  | inl _ => Panic "Fatal error occurred"
  end.

(** A command sent to the thread and its answer.  A command for a thread that has ended is
    dropped with its answer channel. *)
Definition send (env : CoreEnv) t (command : CoreThreadCommand) : outcome (CoreThread S * option CoreReply) :=
  if negb (running t) then Ok (t, None) else end_on_error t (run_command env (ct_core t) command).

(** The arm of the last known proposed round. *)
Definition on_last_known_proposed_round (env : CoreEnv) t : outcome (CoreThread S) :=
  match running t, watched_last_known_proposed_round t with
  | true, Some r =>
      let! co := set_last_known_proposed_round r (ct_core t) in
      let t := mkCoreThread co true (watched_propagation_delay t) None (highest_received_rounds t) in
      omap_ok fst (end_on_error t (new_block ck cd rng ctx params signer decide_fuel (commit_fuel co) env co (u32_add r 1) true))
  | _, _ => Ok t
  end.

(** The arm of the propagation delay. *)
Definition on_propagation_delay (env : CoreEnv) t : outcome (CoreThread S) :=
  match running t, watched_propagation_delay t with
  | true, Some delay =>
      let should_propose_before := should_propose params env (ct_core t) in
      let co := set_propagation_delay delay (ct_core t) in
      let t := mkCoreThread co true None (watched_last_known_proposed_round t) (highest_received_rounds t) in
      if negb should_propose_before && should_propose params env co then
        omap_ok fst (end_on_error t (new_block ck cd rng ctx params signer decide_fuel (commit_fuel co) env co u32_max true))
      else Ok t
  | _, _ => Ok t
  end.

(** ** The channel dispatcher *)

(** [start]: the highest received rounds are those of the DAG. *)
Definition core_thread_start co : outcome (CoreThread S) :=
  let! received := map_each (λ a, let! b := get_last_block_for_authority (dag_state co) a in Ok (round b))
    (seq 0 (committee_size (committee ctx))) in
  Ok (mkCoreThread co true None None received).

(** [highest_received_rounds[block.author()].fetch_max(block.round())] *)
Definition fetch_max (l : list Round) (b : VerifiedBlock) : outcome (list Round) :=
  let! r := vec_get l (author b) in
  vec_set l (author b) (N.max r (round b)).

Definition dispatch_add_blocks (env : CoreEnv) t (blocks : list VerifiedBlock) : outcome (CoreThread S * option CoreReply) :=
  let! received := for_each fetch_max (highest_received_rounds t) blocks in
  send env (set_received received t) (AddBlocks blocks).

Definition dispatch_add_certified_commits (env : CoreEnv) t (commits : CertifiedCommits) :
    outcome (CoreThread S * option CoreReply) :=
  let! received := for_each fetch_max (highest_received_rounds t) (concat (cc_blocks <$> certified_commits commits)) in
  send env (set_received received t) (AddCertifiedCommits commits).

Definition dispatch_new_block (env : CoreEnv) t (r : Round) (force : bool) : outcome (CoreThread S * option unit) :=
  let! '(t, reply) := send env t (NewBlockCommand r force) in
  Ok (t, (λ _, tt) <$> reply).

(** A watched value is sent as long as the thread holds the receiver. *)
Definition send_propagation_delay t (delay : Round) : CoreThread S * option unit :=
  if running t then
    (mkCoreThread (ct_core t) true (Some delay) (watched_last_known_proposed_round t) (highest_received_rounds t), Some tt)
  else (t, None).
Definition send_last_known_proposed_round t (r : Round) : CoreThread S * option unit :=
  if running t then
    (mkCoreThread (ct_core t) true (watched_propagation_delay t) (Some r) (highest_received_rounds t), Some tt)
  else (t, None).

#[global] Instance channel_dispatcher : CoreThreadDispatcher S (CoreThread S) := {|
  d_add_blocks := dispatch_add_blocks;
  d_check_block_refs env t refs := send env t (CheckBlockRefs refs);
  d_add_certified_commits := dispatch_add_certified_commits;
  d_new_block := dispatch_new_block;
  d_get_missing_blocks env t := send env t GetMissing;
  d_set_propagation_delay := send_propagation_delay;
  d_set_last_known_proposed_round := send_last_known_proposed_round;
  d_highest_received_rounds := highest_received_rounds;
  d_dag_state t := dag_state (ct_core t);
  d_certifier t := transaction_certifier (ct_core t);
  d_set_certifier cs out t := set_core (emit_certified out (set_certifier cs (ct_core t))) t;
  d_round_tracker t := round_tracker (ct_core t);
  d_set_round_tracker x t := set_core (set_tracker x (ct_core t)) t;
|}.

#[global] Instance channel_dispatcher_laws : DispatcherLaws S (CoreThread S).
Proof. by split; intros; try destruct out. Qed.
End thread.
