(* ===== verification/CoreThreadSpec.v ===== *)
(** * What the core proposes once it knows its last round

    A validator that restarts without its state learns from its peers for which round it
    last proposed ([Synchronizer.fetch_own_last_block]).  Until then the core proposes
    nothing, and afterwards only for higher rounds, whatever commands its thread gets. *)

From S2P Require Import Prelude Collections Weighted Committee Types Fixtures Commits StakeAggregator.
From S2P Require Import ThresholdClock QuorumIndex LeaderScoring RoundTracker Storage DagState DagStateSpec DagTraversal.
From S2P Require Import DagRecovery Ancestor BaseCommitter Linearizer LeaderSchedule UniversalCommitter Errors.
From S2P Require Import BlockVerifier BlockManager TransactionCertifier TransactionConsumer CommitSyncer CommitSyncerSpec.
From S2P Require Import Proposal ProposalSpec Core CoreSpec CoreThread.

Local Open Scope N_scope.

(** The proposals among the events. *)
Definition proposals (l : list CoreEvent) : list ExtendedBlock :=
  omap (λ e, match e with NewBlock eb => Some eb | _ => None end) l.

Section core.
Context {S : Type} `{Store S} (ck : Crypto) (cd : Codec) (rng : Rand).
Context (ctx : Context) (params : CoreParameters) (signer : KeyPair ck).
Context (decide_fuel : DagState S → nat).
Implicit Types co : Core S.

(** Nothing is proposed, and the known round stays. *)
Definition quiet co co' : Prop :=
  last_known_proposed_round co' = last_known_proposed_round co ∧ proposals (core_events co') = proposals (core_events co).

#[export] Instance quiet_preorder : PreOrder quiet.
Proof. split; [done|]. intros x y z [E1 E2] [E3 E4]. split; congruence. Qed.

Lemma quiet_emit e co : proposals [e] = [] → quiet co (emit e co).
Proof.
  intros He. split; [done|]. cbn [core_events emit]. unfold proposals. rewrite omap_app. fold (proposals [e]).
  by rewrite He, app_nil_r.
Qed.

Lemma quiet_emit_certified o co : quiet co (emit_certified o co).
Proof. destruct o; [by apply quiet_emit|done]. Qed.

Lemma quiet_signal_round co : quiet co (try_signal_new_round co).
Proof. unfold try_signal_new_round. destruct (_ <=? _); [done|]. by apply (quiet_emit (NewRound _) co). Qed.

Lemma quiet_emit_commits l co : quiet co (foldl (λ co d, emit (SubDagCommitted d) co) co l).
Proof. revert co. induction l as [|d l IH]; intros co; cbn [foldl]; [done|]. etrans; [|apply IH]. by apply quiet_emit. Qed.

Lemma sign_block_round b vb : sign_block ck cd signer b = Ok vb → round vb = block_round b.
Proof.
  unfold sign_block. intros ([e|signed] & Hs & Hrun)%bind_Ok; [done|]. apply bind_Ok in Hrun as (bytes & _ & [= <-]).
  unfold signed_block_new in Hs. apply bind_Ok in Hs as ([e|signature] & _ & Hs); [done|]. by injection Hs as <-.
Qed.

Lemma make_block_quiet env co clock ancs excluded co' eb :
  make_block ck cd rng ctx signer env co clock ancs excluded = Ok (co', eb) → quiet co co' ∧ round (eb_block eb) = clock.
Proof.
  unfold make_block. intros (li & _ & Hrun)%bind_Ok. apply bind_Ok in Hrun as (leader & _ & Hrun).
  apply bind_Ok in Hrun as (? & _ & Hrun). apply bind_Ok in Hrun as (? & _ & Hrun).
  apply bind_Ok in Hrun as ([consumer [[txs acks] limit]] & _ & Hrun). destruct (take_commit_votes _ _) as [s votes].
  apply bind_Ok in Hrun as ([s1 tvotes] & _ & Hrun). apply bind_Ok in Hrun as (block & Hsign & Hrun).
  apply bind_Ok in Hrun as (? & _ & Hrun). apply bind_Ok in Hrun as ([[[bm s2] accepted] missing] & _ & Hrun).
  apply bind_Ok in Hrun as (? & _ & Hrun). apply bind_Ok in Hrun as (? & _ & Hrun).
  apply bind_Ok in Hrun as (co1 & Hco1 & Hrun). apply bind_Ok in Hrun as (s3 & _ & Hrun).
  destruct (acknowledge _ _ _) as [consumer' sent]. apply bind_Ok in Hrun as (t & _ & [= <- <-]).
  split; [|cbn; apply sign_block_round in Hsign as ->; by apply build_block_fields].
  assert (Hq : quiet co co1).
  { destruct (mysticeti_fastpath _); [|by injection Hco1 as <-].
    apply bind_Ok in Hco1 as ([cs certified] & _ & Hco1). apply bind_Ok in Hco1 as ([s4 ?] & _ & [= <-]).
    etrans; [|apply quiet_emit_certified]. done. }
  etrans; [exact Hq|]. exact (quiet_emit (TransactionsIncluded sent) co1 eq_refl).
Qed.

Lemma try_new_block_quiet env co force co' o :
  try_new_block ck cd rng ctx params signer env co force = Ok (co', o) →
  quiet co co' ∧ ∀ eb, o = Some eb → round (eb_block eb) = threshold_clock_round (dag_state co).
Proof.
  unfold try_new_block. intros (last & _ & Hrun)%bind_Ok. destruct (_ <=? _); [by injection Hrun as <- <-|].
  apply bind_Ok in Hrun as ([] & _ & Hrun); cbn [negb] in Hrun; [|by injection Hrun as <- <-].
  apply bind_Ok in Hrun as ([[m li] [ancs ex]] & _ & Hrun). destruct ancs as [|b ancs].
  - apply bind_Ok in Hrun as (? & _ & [= <- <-]). done.
  - apply bind_Ok in Hrun as ([co1 eb] & Hmake & [= <- <-]). apply make_block_quiet in Hmake as [Hq Hr].
    split; [exact Hq|]. by intros ? [= <-].
Qed.

Lemma commits_before_update_quiet co co' n : commits_before_update rng co = Ok (co', n) → quiet co co'.
Proof.
  unfold commits_before_update. intros (k & _ & Hrun)%bind_Ok. destruct (k =? 0); [|by injection Hrun as <- _].
  apply bind_Ok in Hrun as ([ls s] & _ & Hrun). by apply bind_Ok in Hrun as (? & _ & [= <- _]).
Qed.

Lemma next_leaders_quiet env co cc limit co' rest r :
  next_leaders rng ctx decide_fuel env co cc limit = Ok (co', rest, r) → quiet co co'.
Proof.
  unfold next_leaders. intros ([rest1 selected] & _ & Hrun)%bind_Ok. apply bind_Ok in Hrun as ([[bm s] ?] & _ & Hrun).
  destruct selected; [|by injection Hrun as <- _ _]. by apply bind_Ok in Hrun as (? & _ & [= <- _ _]).
Qed.

Lemma observe_commit_quiet env co leaders local co' r : observe_commit cd env co leaders local = Ok (co', r) → quiet co co'.
Proof.
  unfold observe_commit. intros ([s sub_dags] & _ & Hrun)%bind_Ok. apply bind_Ok in Hrun as (sub_dags1 & _ & Hrun).
  destruct (_ && _); [by injection Hrun as <- _|]. apply bind_Ok in Hrun as (s1 & _ & [= <- _]).
  etrans; [|exact (quiet_emit_commits sub_dags1 (set_dag s co))]. done.
Qed.

Lemma commit_loop_quiet fuel env : ∀ co cc acc co' r,
  commit_loop cd rng ctx decide_fuel fuel env co cc acc = Ok (co', r) → quiet co co'.
Proof.
  induction fuel as [|fuel IH]; intros co cc acc co' r; [done|]. cbn [commit_loop].
  intros ([co1 n] & Hu%commits_before_update_quiet & Hrun)%bind_Ok. apply bind_Ok in Hrun as (? & _ & Hrun).
  apply bind_Ok in Hrun as ([[co2 rest] [decided local]] & Hn%next_leaders_quiet & Hrun). assert (Hq : quiet co co2) by (by etrans).
  destruct (last decided) as [ld|]; [|by injection Hrun as <- _]. destruct (omap _ decided); [by injection Hrun as <- _|].
  apply bind_Ok in Hrun as ([co3 [e|sub_dags]] & Ho%observe_commit_quiet & Hrun).
  - injection Hrun as <- _. by etrans.
  - apply bind_Ok in Hrun as ([bm s] & _ & Hrun%IH). etrans; [exact Hq|]. etrans; [exact Ho|exact Hrun].
Qed.

Lemma try_commit_quiet fuel env co cc co' r : try_commit cd rng ctx decide_fuel fuel env co cc = Ok (co', r) → quiet co co'.
Proof.
  unfold try_commit. intros ([co1 [e|sub_dags]] & Hl%commit_loop_quiet & Hrun)%bind_Ok; [by injection Hrun as <- _|].
  apply bind_Ok in Hrun as (? & _ & Hrun). apply bind_Ok in Hrun as ([consumer statuses] & _ & [= <- _]).
  etrans; [exact Hl|]. exact (quiet_emit (BlockStatuses statuses) co1 eq_refl).
Qed.

(** ** The known round bounds the proposals *)

(** No proposal without a known round, and none at or below it. *)
Definition proposes_above co : Prop :=
  match last_known_proposed_round co with
  | None => proposals (core_events co) = []
  | Some h => ∀ eb, eb ∈ proposals (core_events co) → h < round (eb_block eb)
  end.

Lemma proposes_above_quiet co co' : quiet co co' → proposes_above co → proposes_above co'.
Proof. intros [E1 E2]. unfold proposes_above. by rewrite E1, E2. Qed.

Lemma try_propose_above fuel env co force co' r :
  proposes_above co → try_propose ck cd rng ctx params signer decide_fuel fuel env co force = Ok (co', r) →
  proposes_above co' ∧ last_known_proposed_round co' = last_known_proposed_round co.
Proof.
  intros Ha. unfold try_propose. destruct (should_propose params env co) eqn:Hp; cbn [negb]; [|by intros [= <- _]].
  intros ([co1 o] & Hn & Hrun)%bind_Ok. apply try_new_block_quiet in Hn as [Hq Hr].
  pose proof (proposes_above_quiet _ _ Hq Ha) as Ha1. destruct o as [eb|]; [|injection Hrun as <- _; split; [done|apply Hq]].
  specialize (Hr eb eq_refl).
  apply bind_Ok in Hrun as ([co2 r2] & Hs & Hrun).
  assert (Ha2 : proposes_above co2 ∧ last_known_proposed_round co2 = last_known_proposed_round co).
  { unfold signal_new_block in Hs. destruct (1 <? _)%nat; [|injection Hs as <- _; split; [done|apply Hq]].
    destruct (_ =? _); [injection Hs as <- _; split; [done|apply Hq]|]. destruct (block_receivers env); [|injection Hs as <- _; split; [done|apply Hq]].
    injection Hs as <- _. split; [|apply Hq]. unfold proposes_above in *. cbn [last_known_proposed_round core_events emit].
    unfold should_propose in Hp. destruct (_ || _); [done|]. destruct (_ <? _); [done|]. rewrite (proj1 Hq) in *.
    destruct (last_known_proposed_round co) as [h|]; [|done]. destruct (N.leb_spec (threshold_clock_round (dag_state co)) h); [done|].
    intros x. unfold proposals. rewrite omap_app, elem_of_app. cbn [omap list_omap]. intros [Hx| ->%list_elem_of_singleton]; [by apply Ha1|lia]. }
  destruct r2 as [e|[]]; [by injection Hrun as <- _|]. apply bind_Ok in Hrun as ([co3 r3] & Hc%try_commit_quiet & Hrun).
  assert (co' = co3) as -> by (destruct r3; congruence). destruct Ha2 as [Ha2 Hk2].
  split; [by eapply proposes_above_quiet|]. destruct Hc. congruence.
Qed.
End core.

(** ** Runs of the thread *)

Section thread.
Context {S : Type} `{Store S} (ck : Crypto) (cd : Codec) (rng : Rand).
Context (ctx : Context) (params : CoreParameters) (signer : KeyPair ck).
Context (decide_fuel : DagState S → nat) (commit_fuel : Core S → nat).
Implicit Types t : CoreThread S.
Implicit Types co : Core S.

(** The proposals of a core with the known round [o]. *)
Definition knows_round (o : option Round) co : Prop := proposes_above co ∧ last_known_proposed_round co = o.

Lemma knows_round_quiet o co co' : quiet co co' → knows_round o co → knows_round o co'.
Proof. intros Hq [Ha Hk]. split; [by eapply proposes_above_quiet|]. destruct Hq. congruence. Qed.

Lemma try_propose_knows o fuel env co force co' r :
  knows_round o co → try_propose ck cd rng ctx params signer decide_fuel fuel env co force = Ok (co', r) → knows_round o co'.
Proof. intros [Ha Hk] Hp. apply try_propose_above in Hp as [? ?]; [|done]. split; [done|congruence]. Qed.

(** Accepted blocks are committed, then a block is proposed. *)
Lemma commit_and_propose_knows o fuel env co co1 cc co' (missing : gset BlockRef) r :
  knows_round o co → quiet co co1 →
  (try! co, _ := try_commit cd rng ctx decide_fuel fuel env co1 cc in
   try! co, _ := try_propose ck cd rng ctx params signer decide_fuel fuel env co false in
   Ok (try_signal_new_round co, inr missing)) = Ok (co', r) → knows_round o co'.
Proof.
  intros Hk Hq. intros ([co2 [e|sub]] & Hc%try_commit_quiet & Hrun)%bind_Ok.
  - injection Hrun as <- _. eapply knows_round_quiet; [|exact Hk]. by etrans.
  - assert (Hk2 : knows_round o co2) by (eapply knows_round_quiet; [|exact Hk]; by etrans).
    apply bind_Ok in Hrun as ([co3 [e|p]] & Hp & Hrun); apply (try_propose_knows o) in Hp; try done; injection Hrun as <- _; [done|].
    eapply knows_round_quiet; [apply quiet_signal_round|done].
Qed.

Lemma new_block_knows o fuel env co r force co' res :
  knows_round o co → new_block ck cd rng ctx params signer decide_fuel fuel env co r force = Ok (co', res) → knows_round o co'.
Proof.
  intros Hk. unfold new_block. intros (last & _ & Hrun)%bind_Ok. destruct (_ <? _); [|by injection Hrun as <- _].
  apply bind_Ok in Hrun as ([co1 res1] & Hp & [= <- _]). apply (try_propose_knows o) in Hp; [|done].
  eapply knows_round_quiet; [apply quiet_signal_round|done].
Qed.

Lemma run_command_knows o env co command co' r :
  knows_round o co → run_command ck cd rng ctx params signer decide_fuel commit_fuel env co command = Ok (co', r) → knows_round o co'.
Proof.
  intros Hk. destruct command as [blocks|refs|commits|n force|]; cbn [run_command].
  - unfold add_blocks. intros ([[[bm s] accepted] missing] & _ & Hrun)%bind_Ok. destruct accepted as [|b accepted].
    + injection Hrun as <- _. by apply (knows_round_quiet o co).
    + by eapply (commit_and_propose_knows o _ _ co) in Hrun.
  - intros ([co1 missing] & Hrun & [= <- _])%bind_Ok. unfold check_block_refs in Hrun.
    apply bind_Ok in Hrun as ([bm m] & _ & [= <- _]). by apply (knows_round_quiet o co).
  - unfold add_certified_commits. destruct (filter_new_commits _ _) as [e|cc]; [done|].
    intros ([[[bm s] accepted] missing] & _ & Hrun)%bind_Ok. by eapply (commit_and_propose_knows o _ _ co) in Hrun.
  - intros ([co1 [e|p]] & Hrun & Heq)%bind_Ok; apply (new_block_knows o) in Hrun; try done; by injection Heq as <- _.
  - by intros [= <- _].
Qed.

Lemma end_on_error_core {A} t r t' (x : option A) : end_on_error t r = Ok (t', x) → ∃ res, r = Ok (ct_core t', res).
Proof.
  unfold end_on_error. intros ([co [e|a]] & -> & Hrun)%bind_Ok; [|injection Hrun as <- _; by eexists].
  destruct e; try done. injection Hrun as <- _. by eexists.
Qed.

(** What happens to the thread: commands, the watched values, and what the other tasks do
    with the state they share with the core. *)
Inductive thread_step t : CoreThread S → Prop :=
| thread_command env command t' reply :
    send ck cd rng ctx params signer decide_fuel commit_fuel env t command = Ok (t', reply) → thread_step t t'
| thread_received l : thread_step t (set_received l t)
| thread_delay_sent delay : thread_step t (send_propagation_delay t delay).1
| thread_round_sent r : thread_step t (send_last_known_proposed_round t r).1
| thread_delay env t' :
    on_propagation_delay ck cd rng ctx params signer decide_fuel commit_fuel env t = Ok t' → thread_step t t'
| thread_round env t' :
    on_last_known_proposed_round ck cd rng ctx params signer decide_fuel commit_fuel env t = Ok t' → thread_step t t'
| thread_dag d : thread_step t (set_core (set_dag d (ct_core t)) t)
| thread_certifier cs out : thread_step t (d_set_certifier (CoreThreadDispatcher := channel_dispatcher ck cd rng ctx params signer decide_fuel commit_fuel) cs out t)
| thread_tracker x : thread_step t (set_core (set_tracker x (ct_core t)) t).

Lemma send_round_core t r : ct_core (send_last_known_proposed_round t r).1 = ct_core t.
Proof. unfold send_last_known_proposed_round. by destruct (running t). Qed.

(** The round that the thread is told is the known one. *)
Lemma told_round_known h env t t' :
  last_known_proposed_round (ct_core t) = None → proposals (core_events (ct_core t)) = [] → running t = true →
  watched_last_known_proposed_round t = Some h →
  on_last_known_proposed_round ck cd rng ctx params signer decide_fuel commit_fuel env t = Ok t' →
  knows_round (Some h) (ct_core t').
Proof.
  intros Hnone Hno Hrun Hw. unfold on_last_known_proposed_round. rewrite Hrun, Hw. unfold set_last_known_proposed_round. rewrite Hnone.
  cbn [obind]. intros ([t1 x] & He & <-)%fmap_Ok. apply end_on_error_core in He as [res Hnew].
  eapply new_block_knows; [|exact Hnew]. split; [|done]. unfold proposes_above. cbn [last_known_proposed_round core_events set_known_round]. rewrite Hno. set_solver.
Qed.

(** The known round stays, and an unknown one becomes known only when the thread is told. *)
Lemma thread_step_knows o t t' :
  thread_step t t' → knows_round o (ct_core t) →
  knows_round o (ct_core t') ∨ (o = None ∧ ∃ h, watched_last_known_proposed_round t = Some h ∧ knows_round (Some h) (ct_core t')).
Proof.
  intros Hstep Hk. destruct Hstep as [env command t' reply Hs| |delay|r|env t' Hd|env t' Hr| |cs out|].
  - left. unfold send in Hs. destruct (negb (running t)); [by injection Hs as <- _|].
    apply end_on_error_core in Hs as [res Hrun]. by eapply run_command_knows.
  - by left.
  - left. unfold send_propagation_delay. by destruct (running t).
  - left. by rewrite send_round_core.
  - left. unfold on_propagation_delay in Hd. destruct (running t), (watched_propagation_delay t) as [delay|]; try by injection Hd as <-.
    destruct (_ && _); [|injection Hd as <-; by apply (knows_round_quiet _ (ct_core t))].
    apply fmap_Ok in Hd as ([t1 x] & He & <-). apply end_on_error_core in He as [res Hrun].
    eapply new_block_knows; [|exact Hrun]. by apply (knows_round_quiet _ (ct_core t)).
  - destruct (running t) eqn:Hrun, (watched_last_known_proposed_round t) as [h|] eqn:Hw;
      try (left; unfold on_last_known_proposed_round in Hr; rewrite Hrun, ?Hw in Hr; by injection Hr as <-).
    destruct Hk as [Ha Hn]. destruct o as [h'|].
    + unfold on_last_known_proposed_round, set_last_known_proposed_round in Hr. rewrite Hrun, Hw, Hn in Hr. discriminate.
    + right. split; [done|]. exists h. split; [done|]. unfold proposes_above in Ha. rewrite Hn in Ha. by eapply told_round_known.
  - left. by apply (knows_round_quiet _ (ct_core t)).
  - left. eapply knows_round_quiet; [|exact Hk]. cbn. etrans; [|apply quiet_emit_certified]. done.
  - left. by apply (knows_round_quiet _ (ct_core t)).
Qed.

Lemma thread_run_known h t t' : rtc thread_step t t' → knows_round (Some h) (ct_core t) → knows_round (Some h) (ct_core t').
Proof. induction 1 as [|? ? ? Hs _ IH]; [done|]. intros Hk. apply IH. by destruct (thread_step_knows _ _ _ Hs Hk) as [?|[? _]]. Qed.

(** A core that starts without a known round, and has proposed nothing, proposes nothing
    before it is told one and only above it afterwards. *)
Lemma thread_run_unknown t t' :
  rtc thread_step t t' → knows_round None (ct_core t) → ∃ o, knows_round o (ct_core t').
Proof.
  induction 1 as [|? ? ? Hs Hrun IH]; [by exists None|]. intros Hk. destruct (thread_step_knows _ _ _ Hs Hk) as [?|[_ (h & _ & Hh)]]; [auto|].
  exists (Some h). by eapply thread_run_known.
Qed.
End thread.
