(* ===== verification/Synchronizer.v ===== *)
(** * The synchronizer ([core/src/synchronizer.rs])

    Missing blocks are fetched from peers: on demand from the peer that sent a block whose
    ancestors are missing, and periodically from a few peers.  A block is fetched from at
    most two authorities at a time, which locks held by the requests ensure.  This file
    models the locks, the requests of both kinds as steps of the tasks, the processing of
    the responses and the recovery of the last own block.  What peers answer, and when, is
    an argument of the steps; stopping the tasks is left out.  The theorems are in
    [SynchronizerSpec]. *)

From S2P Require Import Prelude Collections Weighted Committee Types Fixtures Commits StakeAggregator.
From S2P Require Import ThresholdClock QuorumIndex CommitVoteMonitor LeaderScoring RoundTracker Storage DagState DagStateSpec.
From S2P Require Import Errors BlockVerifier BlockManager TransactionCertifier CommitSyncer Core CoreThread.

Local Open Scope N_scope.

Definition FETCH_BLOCKS_CONCURRENCY : nat := 5.
Definition MAX_AUTHORITIES_TO_FETCH_PER_BLOCK : nat := 2.
Definition MAX_PERIODIC_SYNC_PEERS : nat := 3.
Definition MAX_RETRIES : N := 3.
Definition COMMIT_LAG_MULTIPLIER : N := 5.
Definition COMMANDS_CHANNEL_SIZE : nat := 1000.

(** The parameters read here ([config/src/parameters.rs]). *)
Record FetchParameters := mkFetchParameters {
  max_blocks_per_sync : nat;
  commit_parameters : SyncParameters;
}.

(** ** Locks on the blocks that are being fetched *)

Record BlocksGuard := mkBlocksGuard {
  guard_refs : gset BlockRef;
  guard_peer : AuthorityIndex;
}.

Abbreviation InflightBlocksMap := (gmap BlockRef (gset AuthorityIndex)) (only parsing).

Definition inflight_new : InflightBlocksMap := ∅.

Definition lock_block (peer : AuthorityIndex) (acc : InflightBlocksMap * gset BlockRef) (r : BlockRef) :
    outcome (InflightBlocksMap * gset BlockRef) :=
  let '(inner, blocks) := acc in
  let authorities := default ∅ (inner !! r) in
  let inner := <[r := authorities]> inner in
  if (size authorities <? MAX_AUTHORITIES_TO_FETCH_PER_BLOCK)%nat && negb (bool_decide (peer ∈ authorities)) then
    do! rassert (negb (bool_decide (peer ∈ authorities))) "assertion failed: authorities.insert(peer)" in
    Ok (<[r := {[peer]} ∪ authorities]> inner, {[r]} ∪ blocks)
  else Ok (inner, blocks).

Definition lock_blocks (inner : InflightBlocksMap) (missing_block_refs : gset BlockRef) (peer : AuthorityIndex) :
    outcome (InflightBlocksMap * option BlocksGuard) :=
  let! '(inner, blocks) := for_each (lock_block peer) (inner, ∅) (bset_iter missing_block_refs) in
  Ok (inner, if decide (blocks = ∅) then None else Some (mkBlocksGuard blocks peer)).

Definition unlock_block (peer : AuthorityIndex) (inner : InflightBlocksMap) (r : BlockRef) : outcome InflightBlocksMap :=
  let! authorities := expect (inner !! r) "Should have found a non empty map" in
  do! rassert (bool_decide (peer ∈ authorities)) "Peer index should be present!" in
  let authorities := authorities ∖ {[peer]} in
  Ok (if decide (authorities = ∅) then delete r inner else <[r := authorities]> inner).

Definition unlock_blocks (inner : InflightBlocksMap) (block_refs : gset BlockRef) (peer : AuthorityIndex) :
    outcome InflightBlocksMap :=
  for_each (unlock_block peer) inner (bset_iter block_refs).

(** [Drop] of a guard *)
Definition drop_guard (inner : InflightBlocksMap) (g : BlocksGuard) : outcome InflightBlocksMap :=
  unlock_blocks inner (guard_refs g) (guard_peer g).

Definition swap_locks (inner : InflightBlocksMap) (g : BlocksGuard) (peer : AuthorityIndex) :
    outcome (InflightBlocksMap * option BlocksGuard) :=
  let! inner := drop_guard inner g in
  lock_blocks inner (guard_refs g) peer.

(** ** State *)

Inductive Command :=
| FetchBlocks (missing_block_refs : gset BlockRef) (peer_index : AuthorityIndex)
| FetchOwnLastBlock
| KickOffScheduler.

(** A request sent to a peer and not answered yet. *)
Record Request := mkRequest {
  rq_peer : AuthorityIndex;
  rq_guard : BlocksGuard;
  rq_highest_rounds : list Round;
  rq_breadth_first : bool;
  rq_retries : N;
}.

(** The task of the periodic sync: the peers left to ask, the requests on their way, the
    responses to process, and whether it still waits for responses. *)
Record PeriodicSync := mkPeriodicSync {
  ps_fetching : bool;
  ps_peers : list AuthorityIndex;
  ps_requests : list Request;
  ps_results : list (BlocksGuard * list Bytes * AuthorityIndex);
}.

(** The channel to the task of each peer, and the requests of that task, are maps from
    the other authorities. *)
Record Synchronizer (D : Type) := mkSynchronizer {
  core_dispatcher : D;
  commit_vote_monitor : CommitVoteMonitor;
  inflight_blocks_map : InflightBlocksMap;
  commands : list Command;
  fetch_block_senders : gmap AuthorityIndex (list BlocksGuard);
  live_requests : gmap AuthorityIndex (list Request);
  fetch_blocks_scheduler_task : option PeriodicSync;
}.
Arguments mkSynchronizer {D}.
Arguments core_dispatcher {D}.
Arguments commit_vote_monitor {D}.
Arguments inflight_blocks_map {D}.
Arguments commands {D}.
Arguments fetch_block_senders {D}.
Arguments live_requests {D}.
Arguments fetch_blocks_scheduler_task {D}.

Section synchronizer.
Context {S D : Type} `{CoreThreadDispatcher S D} (ck : Crypto) (cd : Codec) (dec : Decoder).
Context (v : SignedBlockVerifier) (ctx : Context) (params : FetchParameters).
Implicit Types s : Synchronizer D.
Abbreviation c := (committee ctx).

Definition set_inflight (m : InflightBlocksMap) s : Synchronizer D :=
  mkSynchronizer (core_dispatcher s) (commit_vote_monitor s) m (commands s) (fetch_block_senders s) (live_requests s)
    (fetch_blocks_scheduler_task s).
Definition set_dispatcher (d : D) s : Synchronizer D :=
  mkSynchronizer d (commit_vote_monitor s) (inflight_blocks_map s) (commands s) (fetch_block_senders s) (live_requests s)
    (fetch_blocks_scheduler_task s).
Definition set_monitor (m : CommitVoteMonitor) s : Synchronizer D :=
  mkSynchronizer (core_dispatcher s) m (inflight_blocks_map s) (commands s) (fetch_block_senders s) (live_requests s)
    (fetch_blocks_scheduler_task s).
Definition set_commands (l : list Command) s : Synchronizer D :=
  mkSynchronizer (core_dispatcher s) (commit_vote_monitor s) (inflight_blocks_map s) l (fetch_block_senders s) (live_requests s)
    (fetch_blocks_scheduler_task s).
Definition set_queue (peer : AuthorityIndex) (q : list BlocksGuard) s : Synchronizer D :=
  mkSynchronizer (core_dispatcher s) (commit_vote_monitor s) (inflight_blocks_map s) (commands s)
    (<[peer := q]> (fetch_block_senders s)) (live_requests s) (fetch_blocks_scheduler_task s).
Definition set_requests (peer : AuthorityIndex) (l : list Request) s : Synchronizer D :=
  mkSynchronizer (core_dispatcher s) (commit_vote_monitor s) (inflight_blocks_map s) (commands s)
    (fetch_block_senders s) (<[peer := l]> (live_requests s)) (fetch_blocks_scheduler_task s).
Definition set_task (p : option PeriodicSync) s : Synchronizer D :=
  mkSynchronizer (core_dispatcher s) (commit_vote_monitor s) (inflight_blocks_map s) (commands s) (fetch_block_senders s)
    (live_requests s) p.

Definition release (g : BlocksGuard) s : outcome (Synchronizer D) :=
  let! m := drop_guard (inflight_blocks_map s) g in Ok (set_inflight m s).

(** [Synchronizer::start]: a channel and a task for each other authority. *)
Definition other_authorities : list AuthorityIndex := filter (λ a, a ≠ own_index ctx) (seq 0 (committee_size c)).

Definition synchronizer_start (d : D) (monitor : CommitVoteMonitor) (sync_last_known_own_block : bool) : Synchronizer D :=
  mkSynchronizer d monitor inflight_new (if sync_last_known_own_block then [FetchOwnLastBlock] else [])
    (list_to_map ((λ a, (a, [])) <$> other_authorities)) (list_to_map ((λ a, (a, [])) <$> other_authorities)) None.

(** ** Blocks from peers *)

(** The blocks before the first one that is malformed or invalid, with their votes, and
    the error that ends the loop. *)
Definition verify_fetched (now : N) (peer : AuthorityIndex) (acc : list (VerifiedBlock * list TransactionIndex)) (bytes : Bytes) :
    result (list (VerifiedBlock * list TransactionIndex)) :=
  let? signed_block := ok_or (block_from_bytes dec bytes) MalformedBlock in
  let! r := verify_and_vote ck cd v signed_block bytes in
  match r with
  | inl e => do! authority c peer in Err e
  | inr (b, rejects) =>
      do! (if 0 <? saturating_sub (timestamp_ms b) now then omap_ok (λ _, tt) (authority c (author b)) else Ok tt) in
      Return (acc ++ [(b, rejects)])
  end.

Fixpoint verify_loop (now : N) (peer : AuthorityIndex) (acc : list (VerifiedBlock * list TransactionIndex))
    (serialized_blocks : list Bytes) : result (list (VerifiedBlock * list TransactionIndex)) :=
  match serialized_blocks with
  | [] => Return acc
  | bytes :: rest => let? acc := verify_fetched now peer acc bytes in verify_loop now peer acc rest
  end.

Definition verify_blocks (now : N) (d : D) (serialized_blocks : list Bytes) (peer : AuthorityIndex) :
    outcome (D * (ConsensusError + list VerifiedBlock)) :=
  let! r := verify_loop now peer [] serialized_blocks in
  match r with
  | inl e => Ok (d, inl e)
  | inr voted =>
      let! d :=
        if mysticeti_fastpath (protocol_config ctx) then
          let! '(cs, out) := certifier_add_voted_blocks ctx (d_certifier d) voted in Ok (d_set_certifier cs out d)
        else Ok d in
      Ok (d, inr voted.*1)
  end.

(** [commands_sender.try_send(KickOffScheduler)] *)
Definition kick_off s : Synchronizer D :=
  if (length (commands s) <? COMMANDS_CHANNEL_SIZE)%nat then set_commands (commands s ++ [KickOffScheduler]) s else s.

(** The guard is dropped on every way out. *)
Definition process_fetched_blocks (env : CoreEnv) s (serialized_blocks : list Bytes) (peer : AuthorityIndex) (g : BlocksGuard) :
    outcome (Synchronizer D * (ConsensusError + unit)) :=
  match serialized_blocks with
  | [] => let! s := release g s in Ok (s, inr tt)
  | _ =>
      let! '(d, r) := verify_blocks (timestamp_utc_ms env) (core_dispatcher s) (take (max_blocks_per_sync params) serialized_blocks) peer in
      let s := set_dispatcher d s in
      match r with
      | inl e => let! s := release g s in Ok (s, inl e)
      | inr blocks =>
          let! monitor := for_each observe_block (commit_vote_monitor s) blocks in
          let s := set_monitor monitor s in
          do! authority c peer in
          do! map_each (λ b, authority c (author b)) blocks in
          let! '(d, missing) := d_add_blocks env (core_dispatcher s) blocks in
          let s := set_dispatcher d s in
          let! s := release g s in
          match missing with
          | None => Ok (s, inl Shutdown)
          | Some missing => Ok (if decide (missing = ∅) then s else kick_off s, inr tt)
          end
      end
  end.

Definition get_highest_accepted_rounds (d : DagState S) : outcome (list Round) :=
  let! blocks := get_last_cached_block_per_authority d u32_max in
  do! rassert (length blocks =? committee_size c)%nat "assertion `left == right` failed" in
  Ok ((λ p, round p.1) <$> blocks).

(** ** Requests on demand *)

(** The arm of [FetchBlocks]: the new state and what is sent back. *)
Definition on_fetch_blocks s (missing_block_refs : gset BlockRef) (peer : AuthorityIndex) :
    outcome (Synchronizer D * option (ConsensusError + unit)) :=
  if (peer =? own_index ctx)%nat then Ok (s, None) else
  let refs := list_to_set (take (max_blocks_per_sync params) (bset_iter missing_block_refs)) in
  let! '(m, guard) := lock_blocks (inflight_blocks_map s) refs peer in
  let s := set_inflight m s in
  match guard with
  | None => Ok (s, Some (inr tt))
  | Some g =>
      let! q := expect (fetch_block_senders s !! peer) "Fatal error, sender should be present" in
      if (length q <? FETCH_BLOCKS_CONCURRENCY)%nat then Ok (set_queue peer (q ++ [g]) s, Some (inr tt))
      else
        do! authority c peer in
        let! s := release g s in
        Ok (s, Some (inl (SynchronizerSaturated peer)))
  end.

(** [receiver.recv()] in the task of a peer, while it has fewer requests than the limit. *)
Definition start_request s (peer : AuthorityIndex) : outcome (Synchronizer D) :=
  match fetch_block_senders s !! peer, live_requests s !! peer with
  | Some (g :: q), Some requests =>
      if (length requests <? FETCH_BLOCKS_CONCURRENCY)%nat then
        let! rounds := get_highest_accepted_rounds (d_dag_state (core_dispatcher s)) in
        Ok (set_requests peer (requests ++ [mkRequest peer g rounds true 1]) (set_queue peer q s))
      else Ok s
  | _, _ => Ok s
  end.

(** [requests.next()] in the task of a peer: the answer to its [k]-th request. *)
Definition finish_request (env : CoreEnv) s (peer : AuthorityIndex) (k : nat) (response : ConsensusError + list Bytes) :
    outcome (Synchronizer D) :=
  match live_requests s !! peer with
  | None => Ok s
  | Some requests =>
      match requests !! k with
      | None => Ok s
      | Some rq =>
          let s := set_requests peer (delete k requests) s in
          match response with
          | inr blocks =>
              let! '(s, r) := process_fetched_blocks env s blocks peer (rq_guard rq) in
              Ok s
          | inl _ =>
              let retries := rq_retries rq + 1 in
              if retries <=? MAX_RETRIES then
                Ok (set_requests peer (delete k requests ++ [mkRequest peer (rq_guard rq) (rq_highest_rounds rq) true retries]) s)
              else release (rq_guard rq) s
          end
      end
  end.

(** ** Periodic requests *)

Definition is_commit_lagging s : bool :=
  u32_add (last_commit_index (d_dag_state (core_dispatcher s)))
    (u32_mul (commit_sync_batch_size (commit_parameters params)) COMMIT_LAG_MULTIPLIER)
  <? quorum_commit_index ctx (commit_vote_monitor s).

(** The missing references of each author, in order. *)
Definition by_author (refs : list BlockRef) : gmap AuthorityIndex (list BlockRef) :=
  foldl (λ m r, <[ref_author r := default [] (m !! ref_author r) ++ [r]]> m) ∅ refs.

Definition div_ceil (a b : nat) : nat := ((a + b - 1) / b)%nat.

(** One request of the periodic sync: the lowest references of its authors. *)
Definition batch_refs (batch : list (list BlockRef)) : gset BlockRef :=
  list_to_set (take (max_blocks_per_sync params) (bset_iter (list_to_set (concat batch)))).

Fixpoint send_batches (crash : bool) (rounds : list Round) (m : InflightBlocksMap) (peers : list AuthorityIndex)
    (requests : list Request) (batches : list (list (list BlockRef))) {struct batches} :
    outcome (InflightBlocksMap * list AuthorityIndex * list Request) :=
  match batches with
  | [] => Ok (m, peers, requests)
  | batch :: batches =>
      match peers with
      | [] => do! rassert (negb crash) "No more peers left to fetch blocks!" in Ok (m, peers, requests)
      | peer :: peers =>
          do! authority c peer in
          let! '(m, guard) := lock_blocks m (batch_refs batch) peer in
          let requests := match guard with
            | Some g => requests ++ [mkRequest peer g rounds false 1]
            | None => requests
            end in
          send_batches crash rounds m peers requests batches
      end
  end.

(** [fetch_blocks_from_authorities] up to its loop; the shuffles are arguments. *)
Definition start_periodic (env : CoreEnv) (shuffle_peers : list AuthorityIndex → list AuthorityIndex)
    (shuffle_authorities : list (list BlockRef) → list (list BlockRef)) s (missing_blocks : gset BlockRef) :
    outcome (Synchronizer D) :=
  let missing := take (2 * MAX_PERIODIC_SYNC_PEERS * max_blocks_per_sync params) (bset_iter missing_blocks) in
  let authorities := by_author missing in
  let per_peer := div_ceil (size authorities) (Nat.min (committee_size c - 1) MAX_PERIODIC_SYNC_PEERS) in
  do! map_each (λ p : AuthorityIndex * list BlockRef, vec_get (replicate (committee_size c) tt) p.1) (btree_iter authorities) in
  let peers := shuffle_peers other_authorities in
  let! rounds := get_highest_accepted_rounds (d_dag_state (core_dispatcher s)) in
  let groups := shuffle_authorities (btree_iter authorities).*2 in
  do! rassert (negb (per_peer =? 0)%nat) "chunk size must be non-zero" in
  let! '(m, peers, requests) := send_batches (crash_on_debug env) rounds (inflight_blocks_map s) peers []
    (chunks (length groups) per_peer groups) in
  Ok (set_task (Some (mkPeriodicSync true peers requests [])) (set_inflight m s)).

Definition start_fetch_missing_blocks_task (env : CoreEnv) (shuffle_peers : list AuthorityIndex → list AuthorityIndex)
    (shuffle_authorities : list (list BlockRef) → list (list BlockRef)) s :
    outcome (Synchronizer D * (ConsensusError + unit)) :=
  if (committee_size c =? 1)%nat then Ok (s, inr tt) else
  let! '(d, missing) := d_get_missing_blocks env (core_dispatcher s) in
  let s := set_dispatcher d s in
  match missing with
  | None => Ok (s, inl Shutdown)
  | Some missing =>
      if decide (missing = ∅) then Ok (s, inr tt) else
      if is_commit_lagging s then Ok (s, inr tt) else
      let! s := start_periodic env shuffle_peers shuffle_authorities s missing in
      Ok (s, inr tt)
  end.

(** The answer to the [k]-th request of the periodic sync. *)
Definition finish_periodic_request s (k : nat) (response : ConsensusError + list Bytes) : outcome (Synchronizer D) :=
  match fetch_blocks_scheduler_task s with
  | Some (mkPeriodicSync true peers requests results) =>
      match requests !! k with
      | None => Ok s
      | Some rq =>
          do! authority c (rq_peer rq) in
          let requests := delete k requests in
          match response with
          | inr blocks =>
              let results := results ++ [(rq_guard rq, blocks, rq_peer rq)] in
              Ok (set_task (Some (mkPeriodicSync (negb (bool_decide (requests = []))) peers requests results)) s)
          | inl _ =>
              match peers with
              | [] =>
                  let! s := release (rq_guard rq) s in
                  Ok (set_task (Some (mkPeriodicSync true [] requests results)) s)
              | next_peer :: peers =>
                  let! '(m, guard) := swap_locks (inflight_blocks_map s) (rq_guard rq) next_peer in
                  let requests := match guard with
                    | Some g => requests ++ [mkRequest next_peer g (rq_highest_rounds rq) false 1]
                    | None => requests
                    end in
                  Ok (set_task (Some (mkPeriodicSync true peers requests results)) (set_inflight m s))
              end
          end
      end
  | _ => Ok s
  end.

(** The timeout of the periodic sync: the requests on their way are dropped with their
    guards. *)
Definition time_out_periodic s : outcome (Synchronizer D) :=
  match fetch_blocks_scheduler_task s with
  | Some (mkPeriodicSync true peers requests results) =>
      let! m := for_each drop_guard (inflight_blocks_map s) (rq_guard <$> requests) in
      Ok (set_task (Some (mkPeriodicSync false [] [] results)) (set_inflight m s))
  | _ => Ok s
  end.

(** The results are processed one after the other, and the task ends. *)
Definition process_periodic_result (env : CoreEnv) s : outcome (Synchronizer D) :=
  match fetch_blocks_scheduler_task s with
  | Some (mkPeriodicSync false peers requests results) =>
      match results with
      | [] => Ok (set_task None s)
      | (g, blocks, peer) :: results =>
          let! '(s, r) := process_fetched_blocks env (set_task (Some (mkPeriodicSync false peers requests results)) s) blocks peer g in
          do! (match r with inl _ => omap_ok (λ _, tt) (authority c peer) | inr _ => Ok tt end) in
          Ok s
      end
  | _ => Ok s
  end.

(** ** The last own block *)

(** [process_blocks] in the task that asks for it. *)
Fixpoint process_own_blocks (peer : AuthorityIndex) (blocks : list Bytes) : result (list VerifiedBlock) :=
  match blocks with
  | [] => Return []
  | bytes :: rest =>
      let? signed_block := ok_or (block_from_bytes dec bytes) MalformedBlock in
      let! r := verify_and_vote ck cd v signed_block bytes in
      match r with
      | inl e => do! authority c peer in Err e
      | inr (b, _) =>
          if negb (author b =? own_index ctx)%nat then Err (UnexpectedLastOwnBlock peer (reference b)) else
          let? rest := process_own_blocks peer rest in
          Return (b :: rest)
      end
  end.

(** One result, in the order in which they arrive before the timer; a failed request is
    repeated. *)
Definition gather_own_block (acc : Stake * Round) (result : AuthorityIndex * (ConsensusError + list Bytes)) :
    outcome (Stake * Round) :=
  let '(total_stake, highest_round) := acc in
  match result.2 with
  | inl _ => Ok acc
  | inr blocks =>
      let! r := process_own_blocks result.1 blocks in
      match r with
      | inl _ => Ok acc
      | inr blocks =>
          let! stake := committee_stake c result.1 in
          Ok (u64_add total_stake stake, N.max highest_round (foldr N.max 0 (round <$> blocks)))
      end
  end.

(** The attempts to gather enough results, each given by the results it sees. *)
Fixpoint own_block_attempts (attempts : list (list (AuthorityIndex * (ConsensusError + list Bytes)))) : outcome (option Round) :=
  match attempts with
  | [] => Ok None
  | results :: attempts =>
      let! '(total_stake, highest_round) := for_each gather_own_block (0, 0) results in
      if reached_validity c total_stake then Ok (Some highest_round) else own_block_attempts attempts
  end.

(** The task sets the round in the core; [None] while it still asks. *)
Definition fetch_own_last_block s (attempts : list (list (AuthorityIndex * (ConsensusError + list Bytes)))) :
    outcome (Synchronizer D * option Round) :=
  let! found :=
    if (committee_size c =? 1)%nat then
      let! b := get_last_proposed_block (d_dag_state (core_dispatcher s)) in Ok (Some (round b))
    else own_block_attempts attempts in
  match found with
  | None => Ok (s, None)
  | Some r => Ok (set_dispatcher (d_set_last_known_proposed_round (core_dispatcher s) r).1 s, Some r)
  end.
End synchronizer.
