(* ===== verification/SynchronizerSpec.v ===== *)
(** * Correctness of the synchronizer

    The locks are exactly those of the requests that exist, so that none is lost, none is
    released twice and no block is fetched from more than two authorities.  What is asked
    for and what becomes of the answers is in [BlockSyncSpec]. *)

From S2P Require Import Prelude Collections Weighted Committee Types Fixtures Commits StakeAggregator.
From S2P Require Import ThresholdClock QuorumIndex CommitVoteMonitor LeaderScoring RoundTracker Storage DagState DagStateSpec.
From S2P Require Import DagTraversal DagRecovery Ancestor BaseCommitter Linearizer LeaderSchedule UniversalCommitter.
From S2P Require Import Errors BlockVerifier BlockManager TransactionCertifier TransactionConsumer CommitSyncer CommitSyncerSpec.
From S2P Require Import Proposal ProposalSpec Core CoreSpec CoreThread Synchronizer.

Local Open Scope N_scope.

(** ** Locks *)

Definition guard_locks (g : BlocksGuard) : list (BlockRef * AuthorityIndex) :=
  (λ r, (r, guard_peer g)) <$> elements (guard_refs g).
Definition locks (gs : list BlocksGuard) : list (BlockRef * AuthorityIndex) := gs ≫= guard_locks.

(** The map of locks is that of the guards [gs]: no lock is held twice, an entry is never
    empty, and a block is locked for at most two authorities. *)
Record held (gs : list BlocksGuard) (m : gmap BlockRef (gset AuthorityIndex)) : Prop := {
  held_nodup : NoDup (locks gs);
  held_iff r a : a ∈ default ∅ (m !! r) ↔ (r, a) ∈ locks gs;
  held_size r A : m !! r = Some A → A ≠ ∅ ∧ (size A ≤ MAX_AUTHORITIES_TO_FETCH_PER_BLOCK)%nat;
}.

#[export] Instance locks_proper : Proper ((≡ₚ) ==> (≡ₚ)) locks.
Proof. intros gs gs' Hp. unfold locks. by rewrite Hp. Qed.

#[export] Instance held_proper : Proper ((≡ₚ) ==> (=) ==> iff) held.
Proof.
  assert (∀ gs gs' m, gs ≡ₚ gs' → held gs m → held gs' m) as Himp.
  { intros gs gs' m Hp [Hn Hi Hs]. split; [by rewrite <-Hp| |done]. intros r a. by rewrite Hi, Hp. }
  intros gs gs' Hp m m' <-. split; apply Himp; by rewrite Hp.
Qed.

Lemma elem_of_guard_locks g r a : (r, a) ∈ guard_locks g ↔ r ∈ guard_refs g ∧ a = guard_peer g.
Proof.
  unfold guard_locks. rewrite list_elem_of_fmap. setoid_rewrite elem_of_elements. split.
  - intros (? & [= -> ->] & ?). done.
  - intros [? ->]. eauto.
Qed.

Lemma elem_of_locks gs r a : (r, a) ∈ locks gs ↔ ∃ g, g ∈ gs ∧ r ∈ guard_refs g ∧ a = guard_peer g.
Proof. unfold locks. rewrite list_elem_of_bind. setoid_rewrite elem_of_guard_locks. naive_solver. Qed.

Lemma locks_cons g gs : locks (g :: gs) = guard_locks g ++ locks gs.
Proof. done. Qed.

Lemma held_empty : held [] inflight_new.
Proof. split; [apply NoDup_nil_2| |done]. intros r a. unfold inflight_new. rewrite lookup_empty. set_solver. Qed.

Lemma held_nil_guard peer gs m : held gs m ↔ held (mkBlocksGuard ∅ peer :: gs) m.
Proof. assert (locks (mkBlocksGuard ∅ peer :: gs) = locks gs) as Heq by done. split; intros [? Hi ?]; split; try done; intros; rewrite Hi; done. Qed.

(** One reference more for a guard. *)
Lemma guard_locks_insert B r peer :
  r ∉ B → guard_locks (mkBlocksGuard ({[r]} ∪ B) peer) ≡ₚ (r, peer) :: guard_locks (mkBlocksGuard B peer).
Proof. intros Hr. unfold guard_locks. cbn [guard_refs guard_peer]. by rewrite elements_union_singleton by done. Qed.

Lemma lock_block_spec peer gs m B r :
  held (mkBlocksGuard B peer :: gs) m → r ∉ B →
  ∃ m' B', lock_block peer (m, B) r = Ok (m', B') ∧ held (mkBlocksGuard B' peer :: gs) m' ∧
    B ⊆ B' ∧ B' ⊆ {[r]} ∪ B ∧ default ∅ (m' !! r) ≠ ∅ ∧ (∀ x, default ∅ (m !! x) ⊆ default ∅ (m' !! x)).
Proof.
  intros [Hn Hi Hs] Hr. unfold lock_block. set (A := default ∅ (m !! r)).
  destruct (_ && _) eqn:Hfree.
  - apply andb_true_iff in Hfree as [Hsz%Nat.ltb_lt Hp]. rewrite Hp. cbn [rassert obind].
    apply negb_true_iff, bool_decide_eq_false in Hp. rewrite insert_insert_eq.
    eexists _, _. split; [reflexivity|]. split_and!; [|set_solver|set_solver|by rewrite lookup_insert_eq; set_solver|].
    2: { intros x. destruct (decide (x = r)) as [->|Hx]; [rewrite lookup_insert_eq; set_solver|by rewrite lookup_insert_ne]. }
    split.
    + rewrite locks_cons, guard_locks_insert by done. apply NoDup_cons. split; [|done]. by rewrite <-locks_cons, <-Hi.
    + intros x a. rewrite locks_cons, guard_locks_insert by done. cbn [app]. rewrite elem_of_cons, <-locks_cons, <-Hi.
      destruct (decide (x = r)) as [->|Hx]; [rewrite lookup_insert_eq|rewrite lookup_insert_ne by done]; set_solver.
    + intros x X. destruct (decide (x = r)) as [->|Hx]; [rewrite lookup_insert_eq|rewrite lookup_insert_ne by done; apply Hs].
      intros [= <-]. split; [set_solver|]. rewrite size_union, size_singleton by set_solver. cbn. lia.
  - assert (HA : A ≠ ∅).
    { apply andb_false_iff in Hfree as [Hsz%Nat.ltb_ge|Hp%negb_false_iff%bool_decide_eq_true]; [|set_solver].
      intros HA. rewrite HA, size_empty in Hsz. unfold MAX_AUTHORITIES_TO_FETCH_PER_BLOCK in Hsz. lia. }
    assert (m !! r = Some A) as Hm by (subst A; by destruct (m !! r)).
    rewrite insert_id by done. exists m, B. split_and!; [done|by split|done|set_solver|by rewrite Hm|done].
Qed.

Lemma lock_all_spec peer gs l : ∀ m B,
  NoDup l → (∀ r, r ∈ l → r ∉ B) → held (mkBlocksGuard B peer :: gs) m →
  ∃ m' B', for_each (lock_block peer) (m, B) l = Ok (m', B') ∧ held (mkBlocksGuard B' peer :: gs) m' ∧
    B ⊆ B' ∧ B' ⊆ list_to_set l ∪ B ∧ (∀ r, r ∈ l → default ∅ (m' !! r) ≠ ∅) ∧
    (∀ x, default ∅ (m !! x) ⊆ default ∅ (m' !! x)).
Proof.
  induction l as [|r l IH]; intros m B Hnd Hl Hh; [exists m, B; split_and!; try done; set_solver|].
  apply NoDup_cons in Hnd as [Hr Hnd]. cbn [for_each].
  destruct (lock_block_spec peer gs m B r Hh ltac:(apply Hl; by left)) as (m1 & B1 & -> & Hh1 & Hsub & Hsup & Hne & Hm1).
  cbn [obind]. destruct (IH m1 B1 Hnd ltac:(set_solver) Hh1) as (m' & B' & -> & Hh' & Hsub' & Hsup' & Hall & Hm').
  exists m', B'. split_and!; [done|done|by etrans| | |intros x; etrans; [apply Hm1|apply Hm']].
  { clear -Hsup Hsup'. rewrite list_to_set_cons. set_solver. }
  intros x [->|Hx]%elem_of_cons; [|by apply Hall]. specialize (Hm' r). set_solver.
Qed.

(** Locking never fails.  The guard holds some of the references for the peer; each of the
    references is locked afterwards, for the peer or for others. *)
Lemma lock_blocks_spec peer gs m refs :
  held gs m →
  ∃ m' o, lock_blocks m refs peer = Ok (m', o) ∧ held (option_list o ++ gs) m' ∧
    (∀ g, o = Some g → guard_peer g = peer ∧ guard_refs g ⊆ refs ∧ guard_refs g ≠ ∅) ∧
    (∀ r, r ∈ refs → default ∅ (m' !! r) ≠ ∅) ∧ (∀ x, default ∅ (m !! x) ⊆ default ∅ (m' !! x)).
Proof.
  intros Hh. unfold lock_blocks.
  destruct (lock_all_spec peer gs (bset_iter refs) m ∅) as (m' & B & -> & Hh' & _ & Hsup & Hall & Hm').
  { apply NoDup_bset_iter. } { set_solver. } { by apply held_nil_guard. }
  cbn [obind]. assert (HB : B ⊆ refs) by (intros r Hr; specialize (Hsup r Hr); rewrite elem_of_union, elem_of_list_to_set, elem_of_bset_iter in Hsup; set_solver).
  assert (Hall' : ∀ r, r ∈ refs → default ∅ (m' !! r) ≠ ∅) by (intros r Hr; apply Hall; by apply elem_of_bset_iter).
  destruct (decide (B = ∅)) as [->|HBne]; eexists _, _; (split; [reflexivity|]); split_and!; try done.
  - by apply held_nil_guard in Hh'.
  - intros g [= <-]. done.
Qed.

(** ** Releasing *)

Lemma unlock_block_spec peer gs m B r :
  held (mkBlocksGuard ({[r]} ∪ B) peer :: gs) m → r ∉ B →
  ∃ m', unlock_block peer m r = Ok m' ∧ held (mkBlocksGuard B peer :: gs) m'.
Proof.
  intros [Hn Hi Hs] Hr. unfold unlock_block. rewrite locks_cons, guard_locks_insert in Hn by done.
  apply NoDup_cons in Hn as [Hnot Hn].
  assert (Hin : peer ∈ default ∅ (m !! r)) by (apply Hi; rewrite locks_cons, guard_locks_insert by done; by left).
  destruct (m !! r) as [A|] eqn:HA; [|set_solver]. cbn in Hin. cbn [expect obind]. rewrite bool_decide_true by done. cbn [rassert obind].
  eexists. split; [reflexivity|].
  assert (Hlk : ∀ x, default ∅ ((if decide (A ∖ {[peer]} = ∅) then delete r m else <[r:=A ∖ {[peer]}]> m) !! x) =
    if decide (x = r) then A ∖ {[peer]} else default ∅ (m !! x)).
  { intros x. destruct (decide (x = r)) as [->|Hx]; destruct (decide (A ∖ {[peer]} = ∅)) as [He|].
    - by rewrite lookup_delete_eq, He.
    - by rewrite lookup_insert_eq.
    - by rewrite lookup_delete_ne by done.
    - by rewrite lookup_insert_ne by done. }
  split; [done| |].
  - intros x a. rewrite Hlk. destruct (decide (x = r)) as [->|Hx].
    + rewrite elem_of_difference, elem_of_singleton. specialize (Hi r a). rewrite HA in Hi. cbn in Hi. rewrite Hi.
      rewrite locks_cons, guard_locks_insert by done. cbn [app]. rewrite elem_of_cons, <-locks_cons. split; [naive_solver|].
      intros Hl. split; [by right|]. intros ->. done.
    + rewrite Hi, locks_cons, guard_locks_insert by done. cbn [app]. rewrite elem_of_cons, <-locks_cons. naive_solver.
  - intros x X. destruct (decide (A ∖ {[peer]} = ∅)) as [He|Hne]; (destruct (decide (x = r)) as [->|Hx];
      [|rewrite ?lookup_delete_ne, ?lookup_insert_ne by done; apply Hs]).
    + by rewrite lookup_delete_eq.
    + rewrite lookup_insert_eq. intros [= <-]. split; [done|]. destruct (Hs r A HA) as [_ Hsz].
      etrans; [|exact Hsz]. apply subseteq_size. set_solver.
Qed.

Lemma unlock_all_spec peer gs l : ∀ m B,
  NoDup l → B = list_to_set l → held (mkBlocksGuard B peer :: gs) m →
  ∃ m', for_each (unlock_block peer) m l = Ok m' ∧ held gs m'.
Proof.
  induction l as [|r l IH]; intros m B Hnd -> Hh; [exists m; split; [done|by apply held_nil_guard in Hh]|].
  apply NoDup_cons in Hnd as [Hr Hnd]. cbn [for_each].
  destruct (unlock_block_spec peer gs m (list_to_set l) r Hh ltac:(by rewrite elem_of_list_to_set)) as (m1 & -> & Hh1).
  cbn [obind]. by eapply IH.
Qed.

(** The guard of an existing request can be dropped, and only its locks go. *)
Lemma drop_guard_spec g gs m : held (g :: gs) m → ∃ m', drop_guard m g = Ok m' ∧ held gs m'.
Proof.
  intros Hh. destruct g as [refs peer]. eapply unlock_all_spec; [apply NoDup_bset_iter| |exact Hh].
  cbn. apply set_eq. intros r. by rewrite elem_of_list_to_set, elem_of_bset_iter.
Qed.

Lemma drop_guards_spec gs gs' : ∀ m, held (gs ++ gs') m → ∃ m', for_each drop_guard m gs = Ok m' ∧ held gs' m'.
Proof.
  induction gs as [|g gs IH]; intros m Hh; [by exists m|]. cbn [for_each].
  destruct (drop_guard_spec g (gs ++ gs') m Hh) as (m1 & -> & Hh1). cbn [obind]. by apply IH.
Qed.

Lemma swap_locks_spec g gs m peer :
  held (g :: gs) m →
  ∃ m' o, swap_locks m g peer = Ok (m', o) ∧ held (option_list o ++ gs) m' ∧
    (∀ g', o = Some g' → guard_peer g' = peer ∧ guard_refs g' ⊆ guard_refs g ∧ guard_refs g' ≠ ∅).
Proof.
  intros Hh. unfold swap_locks. destruct (drop_guard_spec g gs m Hh) as (m1 & -> & Hh1). cbn [obind].
  destruct (lock_blocks_spec peer gs m1 (guard_refs g) Hh1) as (m' & o & -> & ? & ? & _). by exists m', o.
Qed.

(** ** The requests of a state *)

Definition values {A} (m : gmap AuthorityIndex (list A)) : list A := concat (map_to_list m).*2.

Lemma values_lookup {A} (m : gmap AuthorityIndex (list A)) k l : m !! k = Some l → values m ≡ₚ l ++ values (delete k m).
Proof. intros Hk. unfold values. by rewrite <-(map_to_list_delete m k l) by done. Qed.

Lemma values_insert {A} (m : gmap AuthorityIndex (list A)) k l : values (<[k := l]> m) ≡ₚ l ++ values (delete k m).
Proof. rewrite (values_lookup _ k l) by apply lookup_insert_eq. by rewrite delete_insert_eq. Qed.

Lemma elem_of_values {A} (m : gmap AuthorityIndex (list A)) x : x ∈ values m ↔ ∃ k l, m !! k = Some l ∧ x ∈ l.
Proof.
  unfold values. rewrite elem_of_concat. split.
  - intros (l & ([k l'] & -> & Hk)%list_elem_of_fmap & Hx). exists k, l'. by rewrite elem_of_map_to_list in Hk.
  - intros (k & l & Hk & Hx). exists l. split; [|done]. apply list_elem_of_fmap. exists (k, l). by rewrite elem_of_map_to_list.
Qed.

Definition periodic_guards (o : option PeriodicSync) : list BlocksGuard :=
  match o with
  | None => []
  | Some p => (rq_guard <$> ps_requests p) ++ ((λ x, x.1.1) <$> ps_results p)
  end.

Definition guards {D} (s : Synchronizer D) : list BlocksGuard :=
  values (fetch_block_senders s) ++ (rq_guard <$> values (live_requests s)) ++ periodic_guards (fetch_blocks_scheduler_task s).

Section requests.
Context {S D : Type} `{CoreThreadDispatcher S D} (ck : Crypto) (cd : Codec) (dec : Decoder).
Context (v : SignedBlockVerifier) (ctx : Context) (params : FetchParameters).
Implicit Types s : Synchronizer D.
Abbreviation c := (committee ctx).

Definition guard_ok (g : BlocksGuard) : Prop := guard_refs g ≠ ∅ ∧ (size (guard_refs g) ≤ max_blocks_per_sync params)%nat.

Definition other_authority (a : AuthorityIndex) : Prop := (a < committee_size c)%nat ∧ a ≠ own_index ctx.

Definition request_ok (peer : AuthorityIndex) (rq : Request) : Prop :=
  rq_peer rq = peer ∧ guard_peer (rq_guard rq) = peer ∧ 1 ≤ rq_retries rq ≤ MAX_RETRIES.

Definition periodic_request (rq : Request) : Prop :=
  guard_peer (rq_guard rq) = rq_peer rq ∧ other_authority (rq_peer rq) ∧ guard_ok (rq_guard rq).

Record periodic_ok (p : PeriodicSync) : Prop := {
  po_peers a : a ∈ ps_peers p → other_authority a;
  po_requests rq : rq ∈ ps_requests p → periodic_request rq;
  po_results x : x ∈ ps_results p → other_authority x.2 ∧ guard_ok x.1.1;
  po_few : (length (ps_requests p) + length (ps_results p) ≤ MAX_PERIODIC_SYNC_PEERS)%nat;
  po_done : ps_fetching p = false → ps_requests p = [];
}.

Record requests_wf (s : Synchronizer D) : Prop := {
  sy_guards g : g ∈ guards s → guard_ok g;
  sy_senders peer q : fetch_block_senders s !! peer = Some q →
    other_authority peer ∧ (length q ≤ FETCH_BLOCKS_CONCURRENCY)%nat ∧ ∀ g, g ∈ q → guard_peer g = peer;
  sy_live peer l : live_requests s !! peer = Some l →
    other_authority peer ∧ (length l ≤ FETCH_BLOCKS_CONCURRENCY)%nat ∧ ∀ rq, rq ∈ l → request_ok peer rq;
  sy_periodic p : fetch_blocks_scheduler_task s = Some p → periodic_ok p;
}.

Definition sync_ok (s : Synchronizer D) : Prop := held (guards s) (inflight_blocks_map s) ∧ requests_wf s.

(** What a change of the dispatcher, the monitor or the commands leaves alone. *)
Definition same_requests (s s' : Synchronizer D) : Prop :=
  fetch_block_senders s' = fetch_block_senders s ∧ live_requests s' = live_requests s ∧
  fetch_blocks_scheduler_task s' = fetch_blocks_scheduler_task s.

Lemma same_requests_guards s s' : same_requests s s' → guards s' = guards s.
Proof. intros (E1 & E2 & E3). unfold guards. by rewrite E1, E2, E3. Qed.

Lemma requests_wf_same s s' : same_requests s s' → requests_wf s → requests_wf s'.
Proof.
  intros Hsame [Hg Hse Hl Hp]. pose proof (same_requests_guards _ _ Hsame) as Heq. destruct Hsame as (E1 & E2 & E3).
  split; [by rewrite Heq|by rewrite E1|by rewrite E2|by rewrite E3].
Qed.

Lemma release_spec g gs s :
  held (g :: gs) (inflight_blocks_map s) →
  ∃ s', release g s = Ok s' ∧ same_requests s s' ∧ held gs (inflight_blocks_map s').
Proof. intros Hh. unfold release. destruct (drop_guard_spec g gs _ Hh) as (m & -> & ?). cbn [obind]. by eexists. Qed.

Lemma kick_off_same s : same_requests s (kick_off s) ∧ inflight_blocks_map (kick_off s) = inflight_blocks_map s.
Proof. unfold kick_off. by case_match. Qed.

(** However a response is processed, its guard is dropped and the other requests stay. *)
Lemma process_fetched_locks env s blocks peer g gs s' r :
  held (g :: gs) (inflight_blocks_map s) →
  process_fetched_blocks ck cd dec v ctx params env s blocks peer g = Ok (s', r) →
  same_requests s s' ∧ held gs (inflight_blocks_map s').
Proof.
  intros Hh. unfold process_fetched_blocks. destruct blocks as [|b blocks].
  { destruct (release_spec g gs s Hh) as (s1 & -> & ?). by intros [= <- _]. }
  intros ([d r1] & _ & Hrun)%bind_Ok. destruct r1 as [e|verified].
  - destruct (release_spec g gs (set_dispatcher d s) Hh) as (s1 & Hr & ?). rewrite Hr in Hrun. by injection Hrun as <- _.
  - apply bind_Ok in Hrun as (monitor & _ & Hrun). apply bind_Ok in Hrun as (? & _ & Hrun). apply bind_Ok in Hrun as (? & _ & Hrun).
    apply bind_Ok in Hrun as ([d' missing] & _ & Hrun).
    destruct (release_spec g gs (set_dispatcher d' (set_monitor monitor (set_dispatcher d s))) Hh) as (s1 & Hr & Hsame & Hh1).
    rewrite Hr in Hrun. cbn [obind] in Hrun. destruct missing as [missing|]; [|by injection Hrun as <- _].
    destruct (decide (missing = ∅)); injection Hrun as <- _; [done|].
    destruct (kick_off_same s1) as [(E1 & E2 & E3) ->]. split; [|done]. destruct Hsame as (? & ? & ?). unfold same_requests. by rewrite E1, E2, E3.
Qed.

Lemma guards_set_queue s peer q q' :
  fetch_block_senders s !! peer = Some q →
  ∃ rest, guards s ≡ₚ q ++ rest ∧ guards (set_queue peer q' s) ≡ₚ q' ++ rest.
Proof.
  intros Hq. eexists. unfold guards. rewrite (values_lookup _ _ _ Hq), <-app_assoc. split; [reflexivity|].
  cbn [fetch_block_senders live_requests fetch_blocks_scheduler_task set_queue]. by rewrite values_insert, <-app_assoc.
Qed.

Lemma guards_set_requests s peer l l' :
  live_requests s !! peer = Some l →
  ∃ rest, guards s ≡ₚ (rq_guard <$> l) ++ rest ∧ guards (set_requests peer l' s) ≡ₚ (rq_guard <$> l') ++ rest.
Proof.
  intros Hl. exists (values (fetch_block_senders s) ++ (rq_guard <$> values (delete peer (live_requests s))) ++
    periodic_guards (fetch_blocks_scheduler_task s)).
  unfold guards. cbn [fetch_block_senders live_requests fetch_blocks_scheduler_task set_requests].
  split; [rewrite (values_lookup _ _ _ Hl)|rewrite values_insert]; rewrite fmap_app; solve_Permutation.
Qed.

Lemma delete_lookup_perm {A} (l : list A) k x : l !! k = Some x → l ≡ₚ x :: delete k l.
Proof. apply delete_Permutation. Qed.

(** A queue with a new guard at its end. *)
Lemma push_queue s peer q g :
  requests_wf s → fetch_block_senders s !! peer = Some q → (length q < FETCH_BLOCKS_CONCURRENCY)%nat →
  guard_peer g = peer → guard_ok g →
  guards (set_queue peer (q ++ [g]) s) ≡ₚ g :: guards s ∧ requests_wf (set_queue peer (q ++ [g]) s).
Proof.
  intros [Hg Hse Hl Hp] Hq Hlen Hpeer Hgok. destruct (guards_set_queue s peer q (q ++ [g]) Hq) as (rest & E1 & E2).
  assert (E : guards (set_queue peer (q ++ [g]) s) ≡ₚ g :: guards s) by (rewrite E2, E1; solve_Permutation).
  split; [done|]. split; [| |done|done].
  - intros g'. rewrite E. intros [->|Hin]%elem_of_cons; auto.
  - cbn [fetch_block_senders set_queue]. intros peer' q'.
    destruct (decide (peer' = peer)) as [->|Hne]; [|rewrite lookup_insert_ne by done; apply Hse].
    rewrite lookup_insert_eq. intros [= <-]. destruct (Hse peer q Hq) as (? & ? & Hall). split_and!; [done|rewrite length_app; cbn; lia|].
    intros g' [Hin| ->%list_elem_of_singleton]%elem_of_app; auto.
Qed.

Lemma pop_queue s peer g q :
  requests_wf s → fetch_block_senders s !! peer = Some (g :: q) →
  guards s ≡ₚ g :: guards (set_queue peer q s) ∧ guard_peer g = peer ∧ requests_wf (set_queue peer q s).
Proof.
  intros [Hg Hse Hl Hp] Hq. destruct (guards_set_queue s peer (g :: q) q Hq) as (rest & E1 & E2).
  assert (E : guards s ≡ₚ g :: guards (set_queue peer q s)) by by rewrite E1, E2.
  destruct (Hse peer (g :: q) Hq) as (Hoth & Hlen & Hall). split; [done|]. split; [apply Hall; by left|]. split; [| |done|done].
  - intros g' Hin. apply Hg. rewrite E. by right.
  - cbn [fetch_block_senders set_queue]. intros peer' q'.
    destruct (decide (peer' = peer)) as [->|Hne]; [|rewrite lookup_insert_ne by done; apply Hse].
    rewrite lookup_insert_eq. intros [= <-]. split_and!; [done|cbn in Hlen; lia|]. intros g' Hin. apply Hall. by right.
Qed.

(** The task of a peer with one request more, and with one request less. *)
Lemma push_request s peer l rq :
  requests_wf s → live_requests s !! peer = Some l → (length l < FETCH_BLOCKS_CONCURRENCY)%nat →
  request_ok peer rq → guard_ok (rq_guard rq) →
  guards (set_requests peer (l ++ [rq]) s) ≡ₚ rq_guard rq :: guards s ∧ requests_wf (set_requests peer (l ++ [rq]) s).
Proof.
  intros [Hg Hse Hl Hp] Hlive Hlen Hrq Hgok. destruct (guards_set_requests s peer l (l ++ [rq]) Hlive) as (rest & E1 & E2).
  assert (E : guards (set_requests peer (l ++ [rq]) s) ≡ₚ rq_guard rq :: guards s) by (rewrite E2, E1, fmap_app; cbn; solve_Permutation).
  split; [done|]. split; [|done| |done].
  - intros g'. rewrite E. intros [->|Hin]%elem_of_cons; auto.
  - cbn [live_requests set_requests]. intros peer' l0.
    destruct (decide (peer' = peer)) as [->|Hne]; [|rewrite lookup_insert_ne by done; apply Hl].
    rewrite lookup_insert_eq. intros [= <-]. destruct (Hl peer l Hlive) as (? & ? & Hall). split_and!; [done|rewrite length_app; cbn; lia|].
    intros x [Hin| ->%list_elem_of_singleton]%elem_of_app; auto.
Qed.

Lemma pop_request s peer l k rq :
  requests_wf s → live_requests s !! peer = Some l → l !! k = Some rq →
  guards s ≡ₚ rq_guard rq :: guards (set_requests peer (delete k l) s) ∧ request_ok peer rq ∧
  guard_ok (rq_guard rq) ∧ (length (delete k l) < FETCH_BLOCKS_CONCURRENCY)%nat ∧
  requests_wf (set_requests peer (delete k l) s).
Proof.
  intros [Hg Hse Hl Hp] Hlive Hk. destruct (guards_set_requests s peer l (delete k l) Hlive) as (rest & E1 & E2).
  pose proof (delete_Permutation l k rq Hk) as Hperm.
  assert (E : guards s ≡ₚ rq_guard rq :: guards (set_requests peer (delete k l) s)) by (rewrite E1, E2, Hperm at 1; done).
  destruct (Hl peer l Hlive) as (Hoth & Hlen & Hall). rewrite Hperm in Hlen. cbn [length] in Hlen.
  split; [done|]. split; [apply Hall; by eapply list_elem_of_lookup_2|]. split; [apply Hg; rewrite E; by left|]. split; [lia|].
  split; [|done| |done].
  - intros g' Hin. apply Hg. rewrite E. by right.
  - cbn [live_requests set_requests]. intros peer' l0.
    destruct (decide (peer' = peer)) as [->|Hne]; [|rewrite lookup_insert_ne by done; apply Hl].
    rewrite lookup_insert_eq. intros [= <-]. split_and!; [done|lia|]. intros x Hx. apply Hall. rewrite Hperm. by right.
Qed.

Lemma size_take_refs n (X : gset BlockRef) : (size (list_to_set (take n (bset_iter X)) : gset BlockRef) ≤ n)%nat.
Proof.
  rewrite size_list_to_set; [rewrite length_take; lia|]. eapply sublist_NoDup; [apply NoDup_bset_iter|apply sublist_take].
Qed.

Lemma guard_within refs n g :
  n = max_blocks_per_sync params → guard_refs g ⊆ list_to_set (take n (bset_iter refs)) → guard_refs g ≠ ∅ → guard_ok g.
Proof. intros -> Hsub Hne. split; [done|]. etrans; [by apply subseteq_size|apply size_take_refs]. Qed.

Lemma on_fetch_blocks_ok s refs peer s' reply :
  sync_ok s → on_fetch_blocks ctx params s refs peer = Ok (s', reply) → sync_ok s'.
Proof.
  intros [Hheld Hwf]. unfold on_fetch_blocks. destruct (Nat.eqb_spec peer (own_index ctx)); [by intros [= <- _]|].
  destruct (lock_blocks_spec peer (guards s) _ (list_to_set (take (max_blocks_per_sync params) (bset_iter refs))) Hheld)
    as (m & o & -> & Hh & Hg & _). cbn [obind].
  assert (Hwf' : requests_wf (set_inflight m s)) by by apply (requests_wf_same s).
  destruct o as [g|]; [|by intros [= <- _]].
  destruct (Hg g eq_refl) as (Hpeer & Hsub & Hne). intros (q & Hq%expect_Ok & Hrun)%bind_Ok.
  destruct (Nat.ltb_spec (length q) FETCH_BLOCKS_CONCURRENCY).
  - injection Hrun as <- _. destruct (push_queue (set_inflight m s) peer q g) as [E Hwf1]; try done; [by eapply guard_within|].
    split; [|done]. rewrite E. exact Hh.
  - apply bind_Ok in Hrun as (? & _ & Hrun). destruct (release_spec g (guards s) (set_inflight m s) Hh) as (s1 & Hr & Hsame & Hh1).
    rewrite Hr in Hrun. injection Hrun as <- _. split; [by rewrite (same_requests_guards _ _ Hsame)|by eapply requests_wf_same].
Qed.

Lemma start_request_ok s peer s' : sync_ok s → start_request ctx s peer = Ok s' → sync_ok s'.
Proof.
  intros [Hheld Hwf]. unfold start_request.
  destruct (fetch_block_senders s !! peer) as [[|g q]|] eqn:Hq; [by intros [= <-]| |by intros [= <-]].
  destruct (live_requests s !! peer) as [l|] eqn:Hl; [|by intros [= <-]].
  destruct (Nat.ltb_spec (length l) FETCH_BLOCKS_CONCURRENCY) as [Hlen|]; [|by intros [= <-]].
  intros (rounds & _ & [= <-])%bind_Ok. destruct (pop_queue s peer g q Hwf Hq) as (E & Hpeer & Hwf1).
  destruct (push_request (set_queue peer q s) peer l (mkRequest peer g rounds true 1)) as [E' Hwf2]; try done.
  { apply (sy_guards s Hwf). rewrite E. by left. }
  split; [|done]. rewrite E'. cbn [rq_guard]. rewrite <-E. exact Hheld.
Qed.

Lemma finish_request_ok env s peer k response s' :
  sync_ok s → finish_request ck cd dec v ctx params env s peer k response = Ok s' → sync_ok s'.
Proof.
  intros [Hheld Hwf]. unfold finish_request. destruct (live_requests s !! peer) as [l|] eqn:Hl; [|by intros [= <-]].
  destruct (l !! k) as [rq|] eqn:Hk; [|by intros [= <-]].
  destruct (pop_request s peer l k rq Hwf Hl Hk) as (E & (Hpeer & Hgp & Hre) & Hgok & Hlen & Hwf1). rewrite E in Hheld.
  destruct response as [e|blocks].
  - destruct (N.leb_spec (rq_retries rq + 1) MAX_RETRIES).
    + intros [= <-]. destruct (push_request (set_requests peer (delete k l) s) peer (delete k l)
        (mkRequest peer (rq_guard rq) (rq_highest_rounds rq) true (rq_retries rq + 1))) as [E' Hwf2]; try done.
      { cbn. by rewrite lookup_insert_eq. } { split_and!; [done|done|cbn; lia|cbn; lia]. }
      split; [|done]. rewrite E'. exact Hheld.
    + intros Hrel. destruct (release_spec (rq_guard rq) _ (set_requests peer (delete k l) s) Hheld) as (s1 & Hr & Hsame & Hh1).
      rewrite Hr in Hrel. injection Hrel as <-. split; [by rewrite (same_requests_guards _ _ Hsame)|by eapply requests_wf_same].
  - intros ([s1 r] & Hrun & [= <-])%bind_Ok. eapply process_fetched_locks in Hrun as [Hsame Hh]; [|exact Hheld].
    split; [by rewrite (same_requests_guards _ _ Hsame)|by eapply requests_wf_same].
Qed.

(** ** The periodic sync *)

Definition standing (s : Synchronizer D) : list BlocksGuard := values (fetch_block_senders s) ++ (rq_guard <$> values (live_requests s)).

Lemma guards_task s : guards s = standing s ++ periodic_guards (fetch_blocks_scheduler_task s).
Proof. unfold guards, standing. by rewrite app_assoc. Qed.

Lemma task_change s p m :
  requests_wf s → periodic_ok p → held (standing s ++ periodic_guards (Some p)) m →
  sync_ok (set_task (Some p) (set_inflight m s)).
Proof.
  intros [Hg Hse Hl Hp] Hpo Hh. split; [by rewrite guards_task|]. split; [|done|done|by intros ? [= <-]].
  intros g. rewrite guards_task. intros [Hin|Hin]%elem_of_app.
  - apply Hg. rewrite guards_task. apply elem_of_app. by left.
  - cbn in Hin. apply elem_of_app in Hin as [(x & -> & Hx)%list_elem_of_fmap|(x & -> & Hx)%list_elem_of_fmap].
    + by apply (po_requests p Hpo).
    + by apply (po_results p Hpo).
Qed.

Lemma batch_guard_ok batch g : guard_refs g ⊆ batch_refs params batch → guard_refs g ≠ ∅ → guard_ok g.
Proof. intros. by eapply guard_within. Qed.

(** With a peer for every batch, each batch is locked: whatever it asks for is being
    fetched afterwards. *)
Lemma send_batches_spec crash rounds gs batches : ∀ m peers requests,
  held (gs ++ (rq_guard <$> requests)) m → (∀ a, a ∈ peers → other_authority a) → (length batches ≤ length peers)%nat →
  (∀ rq, rq ∈ requests → periodic_request rq) →
  ∃ m' peers' requests', send_batches ctx params crash rounds m peers requests batches = Ok (m', peers', requests') ∧
    held (gs ++ (rq_guard <$> requests')) m' ∧ (∀ a, a ∈ peers' → other_authority a) ∧
    (∀ rq, rq ∈ requests' → periodic_request rq) ∧ (length requests' ≤ length requests + length batches)%nat ∧
    (∀ batch r, batch ∈ batches → r ∈ batch_refs params batch → default ∅ (m' !! r) ≠ ∅) ∧
    (∀ x, default ∅ (m !! x) ⊆ default ∅ (m' !! x)).
Proof.
  induction batches as [|batch batches IH]; intros m peers requests Hh Hpeers Hlen Hrq; cbn [send_batches].
  { exists m, peers, requests. split_and!; try done; [cbn [length]; lia|intros ? ? ?%elem_of_nil; done]. }
  destruct peers as [|peer peers]; [cbn in Hlen; lia|].
  destruct (Hpeers peer ltac:(by left)) as [Hlt Hown].
  destruct (lookup_lt_is_Some_2 (authorities c) peer Hlt) as [au Hau].
  assert (authority c peer = Ok au) as -> by by apply authority_Ok. cbn [obind].
  destruct (lock_blocks_spec peer _ m (batch_refs params batch) Hh) as (m1 & o & -> & Hh1 & Hg & Hall & Hm1). cbn [obind].
  set (requests1 := match o with Some g => requests ++ [mkRequest peer g rounds false 1] | None => requests end).
  destruct (IH m1 peers requests1) as (m' & peers' & requests' & -> & Hh' & ? & ? & Hlen' & Hall' & Hm').
  - subst requests1. destruct o as [g|]; cbn [option_list] in Hh1; [|done]. rewrite fmap_app. cbn [fmap list_fmap rq_guard].
    rewrite app_assoc, <-Permutation_cons_append. exact Hh1.
  - intros a Ha. apply Hpeers. by right.
  - cbn in Hlen. lia.
  - subst requests1. destruct o as [g|]; [|done]. intros rq [Hin| ->%list_elem_of_singleton]%elem_of_app; [by apply Hrq|].
    destruct (Hg g eq_refl) as (? & ? & ?). split_and!; [done|done|by eapply batch_guard_ok].
  - exists m', peers', requests'. split_and!; try done.
    + subst requests1. cbn [length]. destruct o; [rewrite length_app in Hlen'; cbn in Hlen'|]; lia.
    + intros b r [->|Hb]%elem_of_cons Hr; [|by eapply Hall']. specialize (Hall r Hr). specialize (Hm' r). set_solver.
    + intros x. etrans; [apply Hm1|apply Hm'].
Qed.

Lemma elem_of_other_authorities a : a ∈ other_authorities ctx ↔ other_authority a.
Proof. unfold other_authorities, other_authority. rewrite list_elem_of_filter, elem_of_seq. naive_solver lia. Qed.

Lemma length_other_authorities : (committee_size c - 1 ≤ length (other_authorities ctx))%nat.
Proof.
  unfold other_authorities. generalize (committee_size c). intros n. generalize (own_index ctx). intros own.
  assert (Hsub : seq 0 n ⊆+ own :: filter (λ a, a ≠ own) (seq 0 n)).
  { apply NoDup_submseteq; [apply NoDup_seq|]. intros a Ha. apply elem_of_cons.
    destruct (decide (a = own)); [by left|right]. by apply list_elem_of_filter. }
  apply submseteq_length in Hsub. rewrite length_seq in Hsub. cbn in Hsub. lia.
Qed.

(** The batches are no more than the peers they are divided among. *)
Lemma div_ceil_bound a k : k ≠ 0%nat → (a ≤ k * div_ceil a k)%nat.
Proof.
  intros Hk. unfold div_ceil. pose proof (Nat.div_mod_eq (a + k - 1) k) as Hd.
  pose proof (Nat.mod_upper_bound (a + k - 1) k Hk). lia.
Qed.

Definition is_shuffle {A} (f : list A → list A) : Prop := ∀ l, f l ≡ₚ l.

(** The groups of missing references that are shared out. *)
Definition groups (shuffle_authorities : list (list BlockRef) → list (list BlockRef)) (missing_blocks : gset BlockRef) :
    list (list BlockRef) :=
  shuffle_authorities (btree_iter (by_author
    (take (2 * MAX_PERIODIC_SYNC_PEERS * max_blocks_per_sync params) (bset_iter missing_blocks)))).*2.
Definition group_size (missing_blocks : gset BlockRef) : nat :=
  div_ceil (size (by_author (take (2 * MAX_PERIODIC_SYNC_PEERS * max_blocks_per_sync params) (bset_iter missing_blocks))))
    (Nat.min (committee_size c - 1) MAX_PERIODIC_SYNC_PEERS).
Definition batches shuffle_authorities missing_blocks : list (list (list BlockRef)) :=
  chunks (length (groups shuffle_authorities missing_blocks)) (group_size missing_blocks) (groups shuffle_authorities missing_blocks).

Lemma few_batches shuffle_authorities missing :
  is_shuffle shuffle_authorities → group_size missing ≠ 0%nat →
  (length (batches shuffle_authorities missing) ≤ Nat.min (committee_size c - 1) MAX_PERIODIC_SYNC_PEERS)%nat.
Proof.
  intros Hsh Hne. unfold batches. apply few_chunks. unfold groups. rewrite Hsh, length_fmap, btree_iter_perm, length_map_to_list.
  unfold group_size in *. apply div_ceil_bound. intros Hk. rewrite Hk in Hne. unfold div_ceil in Hne. cbn in Hne. done.
Qed.

Lemma start_periodic_ok env sp sa s missing s' :
  is_shuffle sp → is_shuffle sa → fetch_blocks_scheduler_task s = None → sync_ok s →
  start_periodic ctx params env sp sa s missing = Ok s' →
  sync_ok s' ∧ (∀ batch r, batch ∈ batches sa missing → r ∈ batch_refs params batch → default ∅ (inflight_blocks_map s' !! r) ≠ ∅).
Proof.
  intros Hsp Hsa Htask [Hheld Hwf]. unfold start_periodic. intros (? & _ & Hrun)%bind_Ok.
  apply bind_Ok in Hrun as (rounds & _ & Hrun). apply bind_Ok in Hrun as (? & Hper%rassert_Ok & Hrun).
  apply negb_true_iff, Nat.eqb_neq in Hper. fold (group_size missing) (groups sa missing) in Hrun, Hper. fold (batches sa missing) in Hrun.
  pose proof (few_batches sa missing Hsa Hper) as Hfew. pose proof length_other_authorities as Hmany.
  rewrite guards_task, Htask in Hheld. cbn [periodic_guards] in Hheld.
  destruct (send_batches_spec (crash_on_debug env) rounds (standing s) (batches sa missing) (inflight_blocks_map s)
    (sp (other_authorities ctx)) []) as (m & peers & requests & Heq & Hh & Hp & Hrq & Hlen & Hall & _).
  - done.
  - intros a. rewrite (Hsp (other_authorities ctx)). apply elem_of_other_authorities.
  - rewrite (Permutation_length (Hsp (other_authorities ctx))). lia.
  - set_solver.
  - rewrite Heq in Hrun. injection Hrun as <-. split; [|done]. apply task_change; [done| |].
    + split; cbn; [done|done|set_solver|cbn in Hlen; lia|done].
    + cbn [periodic_guards ps_requests ps_results fmap list_fmap]. rewrite app_nil_r. exact Hh.
Qed.

(** A request of the task that is taken out. *)
Lemma take_periodic s peers requests results k rq :
  sync_ok s → fetch_blocks_scheduler_task s = Some (mkPeriodicSync true peers requests results) → requests !! k = Some rq →
  periodic_request rq ∧ periodic_ok (mkPeriodicSync true peers (delete k requests) results) ∧
  (length (delete k requests) + length results < MAX_PERIODIC_SYNC_PEERS)%nat ∧
  held (rq_guard rq :: standing s ++ (rq_guard <$> delete k requests) ++ ((λ x, x.1.1) <$> results)) (inflight_blocks_map s).
Proof.
  intros [Hheld Hwf] Htask Hk. pose proof (sy_periodic s Hwf _ Htask) as [Hpe Hrq Hre Hfew _]. cbn in Hpe, Hrq, Hre, Hfew.
  pose proof (delete_Permutation requests k rq Hk) as Hperm. rewrite guards_task, Htask in Hheld.
  cbn [periodic_guards ps_requests ps_results] in Hheld. rewrite Hperm in Hheld, Hfew. cbn [length] in Hfew.
  split; [apply Hrq; by eapply list_elem_of_lookup_2|]. split_and!; [split; cbn| |]; try done; try lia.
  - intros x Hx. apply Hrq. rewrite Hperm. by right.
  - revert Hheld. apply held_proper; [|done]. cbn [fmap list_fmap]. solve_Permutation.
Qed.

Lemma answered_periodic s peers requests results k rq blocks :
  sync_ok s → fetch_blocks_scheduler_task s = Some (mkPeriodicSync true peers requests results) → requests !! k = Some rq →
  sync_ok (set_task (Some (mkPeriodicSync (negb (bool_decide (delete k requests = []))) peers (delete k requests)
    (results ++ [(rq_guard rq, blocks, rq_peer rq)]))) s).
Proof.
  intros Hok Htask Hk. destruct (take_periodic s peers requests results k rq Hok Htask Hk) as ((_ & Hoth & Hgok) & [Hpe Hrq Hre _ _] & Hfew & Hh).
  apply (task_change s _ (inflight_blocks_map s)); [apply Hok| |].
  - split; cbn; try done.
    + intros y [Hin| ->%list_elem_of_singleton]%elem_of_app; [by apply Hre|done].
    + rewrite length_app. cbn. lia.
    + by intros Hd%negb_false_iff%bool_decide_eq_true.
  - revert Hh. apply held_proper; [|done]. cbn [periodic_guards ps_requests ps_results]. rewrite fmap_app. cbn [fmap list_fmap fst]. solve_Permutation.
Qed.

Lemma finish_periodic_ok s k response s' :
  sync_ok s → finish_periodic_request ctx s k response = Ok s' → sync_ok s'.
Proof.
  intros Hok. unfold finish_periodic_request.
  destruct (fetch_blocks_scheduler_task s) as [[[] peers requests results]|] eqn:Htask; [|by intros [= <-]|by intros [= <-]].
  destruct (requests !! k) as [rq|] eqn:Hk; [|by intros [= <-]]. intros (? & _ & Hrun)%bind_Ok.
  destruct response as [e|blocks]; [|injection Hrun as <-; by apply answered_periodic].
  destruct (take_periodic s peers requests results k rq Hok Htask Hk) as ((_ & Hoth & Hgok) & [Hpe Hrq Hre _ _] & Hfew & Hh).
  destruct peers as [|next peers].
  - apply bind_Ok in Hrun as (s1 & Hr & [= <-]). unfold release in Hr. destruct (drop_guard_spec _ _ _ Hh) as (m & Hd & Hh1).
    rewrite Hd in Hr. injection Hr as <-. apply task_change; [apply Hok| |done]. split; cbn; try done. lia.
  - destruct (swap_locks_spec _ _ _ next Hh) as (m & o & Hsw & Hh1 & Hg). rewrite Hsw in Hrun. injection Hrun as <-.
    apply task_change; [apply Hok|split; cbn; try done|].
    + intros a Ha. apply Hpe. by right.
    + destruct o as [g|]; [|done]. intros y [Hin| ->%list_elem_of_singleton]%elem_of_app; [by apply Hrq|].
      destruct (Hg g eq_refl) as (? & Hsub & Hne). split_and!; [done|apply Hpe; by left|]. split; [done|].
      cbn. etrans; [by apply subseteq_size|apply Hgok].
    + destruct o; [rewrite length_app; cbn|]; lia.
    + revert Hh1. apply held_proper; [|done]. cbn [periodic_guards ps_requests ps_results].
      destruct o; cbn [option_list]; [rewrite fmap_app; cbn [fmap list_fmap rq_guard]|]; solve_Permutation.
Qed.

Lemma time_out_ok s s' : sync_ok s → time_out_periodic s = Ok s' → sync_ok s'.
Proof.
  intros [Hheld Hwf]. unfold time_out_periodic.
  destruct (fetch_blocks_scheduler_task s) as [[[] peers requests results]|] eqn:Htask; [|by intros [= <-]|by intros [= <-]].
  pose proof (sy_periodic s Hwf _ Htask) as [_ _ Hre Hfew _]. cbn in Hre, Hfew.
  rewrite guards_task, Htask in Hheld. cbn [periodic_guards ps_requests ps_results] in Hheld.
  destruct (drop_guards_spec (rq_guard <$> requests) (standing s ++ ((λ x, x.1.1) <$> results)) (inflight_blocks_map s)) as (m & -> & Hh).
  { revert Hheld. apply held_proper; [|done]. solve_Permutation. }
  intros [= <-]. apply task_change; [done| |done]. split; cbn; [set_solver|set_solver|done|lia|done].
Qed.

Lemma process_result_ok env s s' : sync_ok s → process_periodic_result ck cd dec v ctx params env s = Ok s' → sync_ok s'.
Proof.
  intros [Hheld Hwf]. unfold process_periodic_result.
  destruct (fetch_blocks_scheduler_task s) as [[[] peers requests results]|] eqn:Htask; [by intros [= <-]| |by intros [= <-]].
  pose proof (sy_periodic s Hwf _ Htask) as [Hpe Hrq Hre Hfew Hdone]. cbn in Hpe, Hrq, Hre, Hfew, Hdone.
  rewrite guards_task, Htask in Hheld. cbn [periodic_guards ps_requests ps_results] in Hheld.
  destruct results as [|[[g blocks] peer] results].
  - intros [= <-]. rewrite (Hdone eq_refl) in Hheld. split; [rewrite guards_task; exact Hheld|].
    split; [|apply Hwf|apply Hwf|done]. intros g. rewrite guards_task. cbn [periodic_guards fetch_blocks_scheduler_task set_task].
    rewrite app_nil_r. intros Hin. apply (sy_guards s Hwf). rewrite guards_task. apply elem_of_app. by left.
  - intros ([s1 r] & Hrun & Hend)%bind_Ok. apply bind_Ok in Hend as (? & _ & [= <-]).
    set (p := mkPeriodicSync false peers requests results) in Hrun. cbn [fmap list_fmap fst] in Hheld.
    eapply (process_fetched_locks env _ blocks peer g (standing s ++ periodic_guards (Some p))) in Hrun as [Hsame Hh].
    2: { revert Hheld. apply held_proper; [|done]. cbn [periodic_guards p ps_requests ps_results]. solve_Permutation. }
    assert (Hok : sync_ok (set_task (Some p) (set_inflight (inflight_blocks_map s1) s))).
    { apply task_change; [done| |done]. split; cbn; try done; [intros y Hy; apply Hre; by right|cbn in Hfew; lia]. }
    destruct Hok as [_ Hwf1]. split; [rewrite (same_requests_guards _ _ Hsame), guards_task; exact Hh|].
    eapply requests_wf_same; [|exact Hwf1]. exact Hsame.
Qed.

Lemma start_task_ok env sp sa s s' r :
  is_shuffle sp → is_shuffle sa → fetch_blocks_scheduler_task s = None → sync_ok s →
  start_fetch_missing_blocks_task ctx params env sp sa s = Ok (s', r) → sync_ok s'.
Proof.
  intros Hsp Hsa Htask Hok. unfold start_fetch_missing_blocks_task. destruct (_ =? 1)%nat; [by intros [= <- _]|].
  intros ([d missing] & _ & Hrun)%bind_Ok. assert (Hok' : sync_ok (set_dispatcher d s)) by (destruct Hok; split; [done|by apply (requests_wf_same s)]).
  destruct missing as [missing|]; [|by injection Hrun as <- _]. destruct (decide _); [by injection Hrun as <- _|].
  destruct (is_commit_lagging _ _ _); [by injection Hrun as <- _|]. apply bind_Ok in Hrun as (s1 & Hrun & [= <- _]).
  by eapply start_periodic_ok in Hrun as [? _].
Qed.
End requests.

(** ** Runs of the synchronizer *)

Section runs.
Context {S D : Type} `{CoreThreadDispatcher S D} (ck : Crypto) (cd : Codec) (dec : Decoder).
Context (v : SignedBlockVerifier) (ctx : Context) (params : FetchParameters).
Implicit Types s : Synchronizer D.

(** One step of one of the tasks, with whatever a peer answers.  The core and the monitor
    change at any time; the shuffles are any permutations. *)
Inductive sync_step s : Synchronizer D → Prop :=
| send_command command :
    (length (commands s) < COMMANDS_CHANNEL_SIZE)%nat → sync_step s (set_commands (commands s ++ [command]) s)
| fetch_command refs peer rest s' reply :
    commands s = FetchBlocks refs peer :: rest →
    on_fetch_blocks ctx params (set_commands rest s) refs peer = Ok (s', reply) → sync_step s s'
| other_command command rest :
    commands s = command :: rest → (∀ refs peer, command ≠ FetchBlocks refs peer) → sync_step s (set_commands rest s)
| request_started peer s' : start_request ctx s peer = Ok s' → sync_step s s'
| request_finished env peer k response s' :
    finish_request ck cd dec v ctx params env s peer k response = Ok s' → sync_step s s'
| task_started env sp sa s' r :
    fetch_blocks_scheduler_task s = None → is_shuffle sp → is_shuffle sa →
    start_fetch_missing_blocks_task ctx params env sp sa s = Ok (s', r) → sync_step s s'
| periodic_finished k response s' : finish_periodic_request ctx s k response = Ok s' → sync_step s s'
| periodic_timed_out s' : time_out_periodic s = Ok s' → sync_step s s'
| result_processed env s' : process_periodic_result ck cd dec v ctx params env s = Ok s' → sync_step s s'
| own_block_fetched attempts s' r : fetch_own_last_block ck cd dec v ctx s attempts = Ok (s', r) → sync_step s s'
| core_changed d : sync_step s (set_dispatcher d s)
| monitor_changed m : sync_step s (set_monitor m s).

Definition sync_started s : Prop := ∃ d monitor own, s = synchronizer_start ctx d monitor own.
Definition sync_reachable s : Prop := ∃ s0, sync_started s0 ∧ rtc sync_step s0 s.

Lemma started_lookup {A} (l : list AuthorityIndex) peer (q : list A) :
  (list_to_map ((λ a, (a, [])) <$> l) : gmap AuthorityIndex (list A)) !! peer = Some q → q = [] ∧ peer ∈ l.
Proof. intros (a & [= -> ->] & Ha)%elem_of_list_to_map_2%list_elem_of_fmap. done. Qed.

Lemma started_values {A} (l : list AuthorityIndex) :
  values (list_to_map ((λ a, (a, [])) <$> l) : gmap AuthorityIndex (list A)) = [].
Proof.
  destruct (values _) as [|x xs] eqn:E; [done|]. exfalso.
  assert (Hx : x ∈ values (list_to_map ((λ a, (a, [])) <$> l) : gmap AuthorityIndex (list A))) by (rewrite E; by left).
  apply elem_of_values in Hx as (k & q & [-> _]%started_lookup & Hin). set_solver.
Qed.

Lemma sync_started_ok s : sync_started s → sync_ok ctx params s.
Proof.
  intros (d & monitor & own & ->).
  assert (Hg : guards (synchronizer_start ctx d monitor own) = []) by (unfold guards, synchronizer_start; cbn; by rewrite !started_values).
  split; [rewrite Hg; apply held_empty|]. split; [by rewrite Hg; set_solver| | |done].
  - cbn. intros peer q [-> Hp]%started_lookup. split; [by apply elem_of_other_authorities|]. split; [cbn; lia|set_solver].
  - cbn. intros peer q [-> Hp]%started_lookup. split; [by apply elem_of_other_authorities|]. split; [cbn; lia|set_solver].
Qed.

Lemma sync_step_ok s s' : sync_step s s' → sync_ok ctx params s → sync_ok ctx params s'.
Proof.
  intros Hstep Hok.
  assert (Hsame : ∀ s', same_requests s s' → inflight_blocks_map s' = inflight_blocks_map s → sync_ok ctx params s').
  { intros s1 Hs Hm. destruct Hok as [Hh Hw]. split; [by rewrite (same_requests_guards _ _ Hs), Hm|by eapply requests_wf_same]. }
  destruct Hstep as [|? ? ? ? ? Hc Hrun| | | | | | | |? ? ? Hrun| |].
  - by apply Hsame.
  - eapply on_fetch_blocks_ok; [|exact Hrun]. by apply Hsame.
  - by apply Hsame.
  - by eapply start_request_ok.
  - by eapply finish_request_ok.
  - by eapply start_task_ok.
  - by eapply finish_periodic_ok.
  - by eapply time_out_ok.
  - by eapply process_result_ok.
  - unfold fetch_own_last_block in Hrun. apply bind_Ok in Hrun as ([r'|] & _ & [= <- _]); by apply Hsame.
  - by apply Hsame.
  - by apply Hsame.
Qed.

Lemma sync_reachable_ok s : sync_reachable s → sync_ok ctx params s.
Proof. intros (s0 & Hs%sync_started_ok & Hr). revert Hs. induction Hr; eauto using sync_step_ok. Qed.

(** C10 (invariant): In every reachable state of the synchronizer, whatever the peers answer
    and in whatever order the tasks run, the locks are exactly those of the requests that
    are queued, on their way or answered and not yet processed: a block is locked for an
    authority if and only if such a request to that authority asks for it.  So dropping the
    guard of a request never panics, no lock outlives its request, and a block is fetched
    from at most two authorities at a time.  A request asks for at most
    [max_blocks_per_sync] blocks; a peer has at most five requests queued and five on their
    way on demand, each sent at most three times, and the periodic sync has at most three. *)
Theorem sync_locks_exact s :
  sync_reachable s →
  (∀ r a, a ∈ default ∅ (inflight_blocks_map s !! r) ↔ ∃ g, g ∈ guards s ∧ r ∈ guard_refs g ∧ a = guard_peer g) ∧
  (∀ g, g ∈ guards s → (∃ m, drop_guard (inflight_blocks_map s) g = Ok m) ∧ (size (guard_refs g) ≤ max_blocks_per_sync params)%nat) ∧
  (guards s = [] → inflight_blocks_map s = ∅) ∧
  (∀ r, (size (default ∅ (inflight_blocks_map s !! r)) ≤ MAX_AUTHORITIES_TO_FETCH_PER_BLOCK)%nat) ∧
  (∀ peer q, fetch_block_senders s !! peer = Some q → (length q ≤ FETCH_BLOCKS_CONCURRENCY)%nat) ∧
  (∀ peer l, live_requests s !! peer = Some l →
    (length l ≤ FETCH_BLOCKS_CONCURRENCY)%nat ∧ ∀ rq, rq ∈ l → rq_retries rq ≤ MAX_RETRIES) ∧
  (∀ p, fetch_blocks_scheduler_task s = Some p → (length (ps_requests p) + length (ps_results p) ≤ MAX_PERIODIC_SYNC_PEERS)%nat).
Proof.
  intros [Hheld Hwf]%sync_reachable_ok. split; [intros r a; by rewrite (held_iff _ _ Hheld), elem_of_locks|]. split_and!.
  - intros g Hg. split; [|by apply (sy_guards _ _ _ Hwf)]. apply elem_of_Permutation in Hg as (gs & Hp). rewrite Hp in Hheld.
    destruct (drop_guard_spec g gs _ Hheld) as (m & ? & _). by exists m.
  - intros Hg. apply map_empty. intros r. destruct (inflight_blocks_map s !! r) as [A|] eqn:HA; [|done]. exfalso.
    destruct (held_size _ _ Hheld r A HA) as [Hne _]. apply set_choose_L in Hne as [a Ha].
    assert (Hl : (r, a) ∈ locks (guards s)) by (apply (held_iff _ _ Hheld); by rewrite HA). rewrite Hg in Hl. set_solver.
  - intros r. destruct (inflight_blocks_map s !! r) as [A|] eqn:HA; [by apply (held_size _ _ Hheld r A)|cbn; rewrite size_empty; lia].
  - intros peer q Hq. by destruct (sy_senders _ _ _ Hwf peer q Hq) as (_ & ? & _).
  - intros peer l Hl. destruct (sy_live _ _ _ Hwf peer l Hl) as (_ & ? & Hall). split; [done|]. intros rq Hrq. apply (Hall rq Hrq).
  - intros p Hp. apply (po_few _ _ _ (sy_periodic _ _ _ Hwf p Hp)).
Qed.
End runs.
