(* ===== verification/BlockSyncSpec.v ===== *)
(** * What the synchronizer fetches

    The periodic sync always asks for the lowest missing blocks; only verified blocks reach
    the core; the recovered own round covers every own block that a quorum has accepted, so
    that a validator that lost its state does not propose for a round twice. *)

From S2P Require Import Prelude Collections Weighted Committee Types Fixtures Commits StakeAggregator.
From S2P Require Import ThresholdClock QuorumIndex CommitVoteMonitor LeaderScoring RoundTracker Storage DagState DagStateSpec.
From S2P Require Import DagTraversal DagRecovery Ancestor BaseCommitter Linearizer LeaderSchedule UniversalCommitter.
From S2P Require Import Errors BlockVerifier BlockManager TransactionCertifier TransactionConsumer CommitSyncer CommitSyncerSpec.
From S2P Require Import Proposal ProposalSpec Core CoreSpec CoreThread CoreThreadSpec Synchronizer SynchronizerSpec.

Local Open Scope N_scope.

(** ** What the periodic sync asks for *)

Lemma by_author_app l r : by_author (l ++ [r]) = <[ref_author r := default [] (by_author l !! ref_author r) ++ [r]]> (by_author l).
Proof. unfold by_author. by rewrite foldl_app. Qed.

Lemma by_author_lookup refs a :
  by_author refs !! a = (let l := filter (λ r, ref_author r = a) refs in if decide (l = []) then None else Some l).
Proof.
  cbn zeta. induction refs as [|r refs IH] using rev_ind; [by rewrite filter_nil|].
  rewrite by_author_app, filter_app, filter_cons, filter_nil. destruct (decide (ref_author r = a)) as [<-|Hne].
  - rewrite lookup_insert_eq, IH. rewrite (decide_False (P := _ ++ [r] = [])) by by destruct (filter _ refs).
    by destruct (decide _) as [->|].
  - by rewrite lookup_insert_ne, IH, app_nil_r by done.
Qed.

Section asks.
Context (ctx : Context) (params : FetchParameters) (sa : list (list BlockRef) → list (list BlockRef)) (Hsa : is_shuffle sa).
Abbreviation c := (committee ctx).

(** The lowest missing references, as many as fit into one request, are all in the
    requests of some batch. *)
Lemma lowest_in_batches missing r :
  group_size ctx params missing ≠ 0%nat → r ∈ take (max_blocks_per_sync params) (bset_iter missing) →
  ∃ batch, batch ∈ batches ctx params sa missing ∧ r ∈ batch_refs params batch.
Proof.
  intros Hne Hr. set (kept := take (2 * MAX_PERIODIC_SYNC_PEERS * max_blocks_per_sync params) (bset_iter missing)).
  assert (Hkept : r ∈ kept).
  { apply elem_of_take in Hr as (i & Hi & Hlt). apply elem_of_take. exists i. split; [done|]. unfold MAX_PERIODIC_SYNC_PEERS. lia. }
  assert (Hgroup : filter (λ x, ref_author x = ref_author r) kept ∈ groups params sa missing).
  { unfold groups. rewrite (Hsa _). apply list_elem_of_fmap. exists (ref_author r, filter (λ x, ref_author x = ref_author r) kept).
    split; [done|]. apply elem_of_btree_iter. fold kept. rewrite by_author_lookup. cbn zeta. rewrite decide_False; [done|].
    intros Hnil. assert (Hin : r ∈ filter (λ x, ref_author x = ref_author r) kept) by by apply list_elem_of_filter.
    rewrite Hnil in Hin. set_solver. }
  rewrite <-(chunks_concat (length (groups params sa missing)) (group_size ctx params missing) (groups params sa missing)) in Hgroup by done.
  apply elem_of_concat in Hgroup as (batch & Hb & Hg). exists batch. split; [done|].
  assert (Hrb : r ∈ concat batch).
  { apply elem_of_concat. exists (filter (λ x, ref_author x = ref_author r) kept). split; [done|]. by apply list_elem_of_filter. }
  unfold batch_refs. apply elem_of_list_to_set. apply (take_bset_iter _ missing); [|by apply elem_of_list_to_set|done].
  intros x Hx%elem_of_list_to_set. apply elem_of_bset_iter.
  apply elem_of_concat in Hx as (l & Hl & Hx).
  assert (Hlg : l ∈ groups params sa missing).
  { rewrite <-(chunks_concat (length (groups params sa missing)) (group_size ctx params missing) (groups params sa missing)) by done.
    apply elem_of_concat. by exists batch. }
  unfold groups in Hlg. rewrite (Hsa _) in Hlg. apply list_elem_of_fmap in Hlg as ([a l'] & -> & Hp). apply elem_of_btree_iter in Hp.
  rewrite by_author_lookup in Hp. cbn zeta in Hp. destruct (decide _); [done|]. injection Hp as <-. cbn in Hx.
  apply list_elem_of_filter in Hx as [_ Hx]. by eapply elem_of_take in Hx as (i & Hi%list_elem_of_lookup_2 & _).
Qed.
End asks.

Section periodic.
Context {S D : Type} `{CoreThreadDispatcher S D, !StoreLaws S} (ck : Crypto) (cd : Codec) (dec : Decoder).
Context (v : SignedBlockVerifier) (ctx : Context) (params : FetchParameters).
Implicit Types s : Synchronizer D.
Abbreviation c := (committee ctx).

(** The highest accepted rounds are read from a DAG whose genesis is that of the committee. *)
Definition readable (d : DagState S) : Prop :=
  dag_ok d ∧ genesis_in_order d ∧ ds_context d = ctx ∧ ∀ a e, evicted_rounds d !! a = Some e → e + 1 < u32_max.

Lemma highest_accepted_total d : readable d → ∃ rounds, get_highest_accepted_rounds ctx d = Ok rounds ∧ length rounds = committee_size c.
Proof.
  intros (Hok & Hgen & Hctx & Hev). unfold get_highest_accepted_rounds.
  destruct (get_last_cached_block_per_authority_spec d u32_max Hok Hgen) as (l & -> & Hlen & _); [done|done|by right|].
  cbn [obind]. unfold ds_committee in Hlen. rewrite Hctx in Hlen. rewrite Hlen, Nat.eqb_refl. cbn [rassert obind].
  eexists. split; [done|]. by rewrite length_fmap.
Qed.

Lemma by_author_valid refs :
  (∀ r, r ∈ refs → (ref_author r < committee_size c)%nat) →
  ∃ l, map_each (λ p : AuthorityIndex * list BlockRef, vec_get (replicate (committee_size c) tt) p.1) (btree_iter (by_author refs)) = Ok l.
Proof.
  intros Hr. apply map_each_total. intros [a l] Hp%elem_of_btree_iter. rewrite by_author_lookup in Hp. cbn zeta in Hp.
  destruct (decide _) as [|Hne]; [done|]. injection Hp as <-. destruct (filter _ refs) as [|r l] eqn:E; [done|].
  assert (Hin : r ∈ filter (λ x, ref_author x = a) refs) by (rewrite E; by left). apply list_elem_of_filter in Hin as [<- Hin].
  exists tt. apply vec_get_Ok, lookup_replicate. split; [done|by apply Hr].
Qed.

Lemma group_size_pos missing :
  missing ≠ ∅ → (1 ≤ max_blocks_per_sync params)%nat → (2 ≤ committee_size c)%nat → group_size ctx params missing ≠ 0%nat.
Proof.
  intros Hne Hmax Hsize Hz. pose proof (div_ceil_bound (size (by_author (take (2 * MAX_PERIODIC_SYNC_PEERS * max_blocks_per_sync params)
    (bset_iter missing)))) (Nat.min (committee_size c - 1) MAX_PERIODIC_SYNC_PEERS) ltac:(unfold MAX_PERIODIC_SYNC_PEERS; lia)) as Hb.
  fold (group_size ctx params missing) in Hb. rewrite Hz in Hb. rewrite Nat.mul_0_r in Hb.
  destruct (bset_iter missing) as [|r l] eqn:E.
  - apply Hne, elem_of_equiv_empty_L. intros x Hx. apply elem_of_bset_iter in Hx. rewrite E in Hx. set_solver.
  - assert (Hlk : is_Some (by_author (take (2 * MAX_PERIODIC_SYNC_PEERS * max_blocks_per_sync params) (r :: l)) !! ref_author r)).
    { rewrite by_author_lookup. cbn zeta. destruct (2 * _ * _)%nat as [|k] eqn:Hk; [unfold MAX_PERIODIC_SYNC_PEERS in Hk; lia|].
      cbn [take]. rewrite filter_cons, (decide_True (P := ref_author r = ref_author r)), decide_False by done. by eexists. }
    apply Nat.le_0_r, map_size_empty_inv in Hb. rewrite Hb, lookup_empty in Hlk. by destruct Hlk.
Qed.

(** C28 (liveness): Every run of the periodic sync makes progress from below: in a reachable
    state with no periodic sync running, where the core reports missing blocks and the
    validator does not lag behind the quorum, the task starts without a panic, however the
    peers and the authors are shuffled, and afterwards each of the lowest
    [max_blocks_per_sync] missing blocks is asked for by some request. *)
Theorem periodic_sync_fetches_lowest env sp sa s d' missing :
  sync_reachable ck cd dec v ctx params s → fetch_blocks_scheduler_task s = None → is_shuffle sp → is_shuffle sa →
  (2 ≤ committee_size c)%nat → (1 ≤ max_blocks_per_sync params)%nat →
  d_get_missing_blocks env (core_dispatcher s) = Ok (d', Some missing) → missing ≠ ∅ →
  (∀ r, r ∈ missing → (ref_author r < committee_size c)%nat) → readable (d_dag_state d') →
  is_commit_lagging ctx params (set_dispatcher d' s) = false →
  ∃ s', start_fetch_missing_blocks_task ctx params env sp sa s = Ok (s', inr tt) ∧
    ∀ r, r ∈ take (max_blocks_per_sync params) (bset_iter missing) → ∃ g, g ∈ guards s' ∧ r ∈ guard_refs g.
Proof.
  intros Hreach Htask Hsp Hsa Hsize Hmax Hget Hne Hval Hread Hlag. unfold start_fetch_missing_blocks_task.
  destruct (Nat.eqb_spec (committee_size c) 1); [lia|]. rewrite Hget. cbn [obind]. rewrite decide_False, Hlag by done.
  assert (Hok : sync_ok ctx params (set_dispatcher d' s)) by (apply (sync_step_ok ck cd dec v ctx params s); [apply core_changed|by apply (sync_reachable_ok ck cd dec v)]).
  pose proof (group_size_pos missing Hne Hmax Hsize) as Hgs.
  assert (Hrun : ∃ s', start_periodic ctx params env sp sa (set_dispatcher d' s) missing = Ok s').
  { unfold start_periodic. destruct (by_author_valid (take (2 * MAX_PERIODIC_SYNC_PEERS * max_blocks_per_sync params) (bset_iter missing))) as [l ->].
    { intros r (i & Hi%list_elem_of_lookup_2 & _)%elem_of_take. by apply Hval, elem_of_bset_iter. }
    cbn [obind core_dispatcher set_dispatcher]. destruct (highest_accepted_total _ Hread) as (rounds & -> & _). cbn [obind].
    fold (group_size ctx params missing) (groups params sa missing). fold (batches ctx params sa missing).
    rewrite (proj2 (Nat.eqb_neq _ _) Hgs). cbn [negb rassert obind]. destruct Hok as [Hheld _]. rewrite guards_task in Hheld.
    replace (fetch_blocks_scheduler_task (set_dispatcher d' s)) with (@None PeriodicSync) in Hheld by done.
    pose proof (few_batches ctx params sa missing Hsa Hgs) as Hfew. pose proof (length_other_authorities ctx).
    destruct (send_batches_spec ctx params (crash_on_debug env) rounds (standing (set_dispatcher d' s)) (batches ctx params sa missing)
      (inflight_blocks_map (set_dispatcher d' s)) (sp (other_authorities ctx)) []) as (m & peers & requests & -> & _).
    - exact Hheld.
    - intros a. rewrite (Hsp (other_authorities ctx)). apply elem_of_other_authorities.
    - rewrite (Permutation_length (Hsp (other_authorities ctx))). lia.
    - set_solver.
    - cbn [obind]. by eexists. }
  destruct Hrun as [s' Hrun]. rewrite Hrun. cbn [obind]. exists s'. split; [done|]. intros r Hr.
  destruct (start_periodic_ok ctx params env sp sa (set_dispatcher d' s) missing s' Hsp Hsa Htask Hok Hrun) as [[Hheld _] Hall].
  destruct (lowest_in_batches ctx params sa Hsa missing r Hgs Hr) as (batch & Hb & Hrb).
  specialize (Hall batch r Hb Hrb). apply set_choose_L in Hall as [a Ha].
  apply (held_iff _ _ Hheld), elem_of_locks in Ha as (g & ? & ? & _). by exists g.
Qed.
End periodic.

(** ** What reaches the core *)

(** The transactions of a received block fit in memory. *)
Definition fits_in_memory (dec : Decoder) : Prop := ∀ bytes sb, block_from_bytes dec bytes = Some sb →
  sumN ((λ t : Bytes, N.of_nat (length t)) <$> (data <$> block_transactions (sb_inner sb))) < u64_modulus.

Section verified.
Context (ck : Crypto) (cd : Codec) (dec : Decoder) (v : SignedBlockVerifier) (ctx : Context).
Hypothesis Hc : committee_ok (committee (bv_context v)).
Hypothesis Hbytes : fits_in_memory dec.

(** [b] is the block in these bytes, and it is valid. *)
Definition verified_from (bytes : Bytes) (b : VerifiedBlock) : Prop :=
  ∃ sb, block_from_bytes dec bytes = Some sb ∧ valid_block ck v sb ∧ b = new_verified cd sb bytes.

Lemma verified_answer bytes sb b rejects :
  block_from_bytes dec bytes = Some sb → verify_and_vote ck cd v sb bytes = Ok (inr (b, rejects)) → verified_from bytes b.
Proof using Hc Hbytes.
  intros Hb Hv. exists sb. split; [done|]. destruct (verify_and_vote_answer ck cd dec v Hc Hbytes bytes sb Hb) as [[e He]|(rej & He & ?)]; [congruence|].
  split; [done|congruence].
Qed.

Lemma verify_loop_sound now peer blocks : ∀ acc voted,
  verify_loop ck cd dec v ctx now peer acc blocks = Ok (inr voted) →
  ∃ new, voted = acc ++ new ∧ Forall2 verified_from blocks new.*1.
Proof using Hc Hbytes.
  induction blocks as [|bytes blocks IH]; intros acc voted; cbn [verify_loop].
  { intros [= <-]. exists []. by rewrite app_nil_r. }
  intros ([e|acc1] & Hf & Hrun)%bind_Ok; [done|]. unfold verify_fetched in Hf.
  destruct (block_from_bytes dec bytes) as [sb|] eqn:Hb; [|done]. cbn [ok_or Return rbind obind] in Hf.
  apply bind_Ok in Hf as ([e|[b rejects]] & Hv & Hf); [by apply bind_Ok in Hf as (? & _ & Hf)|].
  apply bind_Ok in Hf as (? & _ & [= <-]). apply IH in Hrun as (new & -> & Hnew). exists ((b, rejects) :: new).
  rewrite <-app_assoc. split; [done|]. constructor; [by eapply verified_answer|done].
Qed.

(** ** The last own round *)

Abbreviation own_results := (list (AuthorityIndex * (ConsensusError + list Bytes))) (only parsing).

(** The authorities that answered; none is asked again after its answer. *)
Definition answerers (results : own_results) : list AuthorityIndex :=
  omap (λ x, match x.2 with inr _ => Some x.1 | inl _ => None end) results.

Definition results_ok (results : own_results) : Prop :=
  NoDup (answerers results) ∧ ∀ a, a ∈ answerers results → (a < committee_size (committee ctx))%nat.

Lemma process_own_sound peer blocks : ∀ own,
  process_own_blocks ck cd dec v ctx peer blocks = Ok (inr own) →
  Forall2 verified_from blocks own ∧ ∀ b, b ∈ own → author b = own_index ctx.
Proof using Hc Hbytes.
  induction blocks as [|bytes blocks IH]; intros own; cbn [process_own_blocks]; [intros [= <-]; split; [done|set_solver]|].
  destruct (block_from_bytes dec bytes) as [sb|] eqn:Hb; [|done]. cbn [ok_or Return rbind obind].
  intros ([e|[b rejects]] & Hv & Hrun)%bind_Ok; [by apply bind_Ok in Hrun as (? & _ & Hrun)|].
  destruct (Nat.eqb_spec (author b) (own_index ctx)) as [Ha|]; [|done]. cbn [negb] in Hrun.
  apply bind_Ok in Hrun as ([e|rest] & Hrest & Hrun); [done|]. injection Hrun as <-. apply IH in Hrest as [Hf Hall].
  split; [constructor; [by eapply verified_answer|done]|]. intros x [->|Hx]%elem_of_cons; auto.
Qed.

Lemma foldr_max_ge (l : list N) x : x ∈ l → x ≤ foldr N.max 0 l.
Proof using.
  clear Hc Hbytes. induction l as [|y l IH]; [set_solver|]. cbn. intros [->|?%IH]%elem_of_cons; lia. Qed.

(** The answers that are counted: their stake, and a round that none of them exceeds. *)
Record gathered (results : own_results) (A : gset AuthorityIndex) (h : Round) : Prop := {
  ga_answers a : a ∈ A → ∃ blocks own, (a, inr blocks) ∈ results ∧
    process_own_blocks ck cd dec v ctx a blocks = Ok (inr own) ∧ ∀ b, b ∈ own → round b ≤ h;
}.

Lemma gather_spec (Hctx : committee_ok (committee ctx)) todo : ∀ results A h,
  results_ok (results ++ todo) → gathered results A h → (∀ a, a ∈ A → a ∈ answerers results) →
  ∀ t h', for_each (gather_own_block ck cd dec v ctx) (set_stake (committee ctx) A, h) todo = Ok (t, h') →
  ∃ A', gathered (results ++ todo) A' h' ∧ t = set_stake (committee ctx) A'.
Proof using.
  clear Hc Hbytes.
  induction todo as [|[a res] todo IH]; intros results A h Hok Hg HA t h'; cbn [for_each].
  { intros [= <- <-]. exists A. by rewrite app_nil_r. }
  assert (Hmono : ∀ B h1, gathered results B h → h ≤ h1 → gathered (results ++ [(a, res)]) B h1).
  { intros B h1 [Hb] Hle. split. intros x Hx. destruct (Hb x Hx) as (bl & own & ? & ? & Hr). exists bl, own.
    split_and!; [apply elem_of_app; by left|done|]. intros b Hb'. specialize (Hr b Hb'). lia. }
  assert (HA' : ∀ x, x ∈ A → x ∈ answerers (results ++ [(a, res)])) by (intros x Hx; unfold answerers; rewrite omap_app, elem_of_app; left; by apply HA).
  assert (Hassoc : results ++ (a, res) :: todo = (results ++ [(a, res)]) ++ todo) by by rewrite <-app_assoc.
  rewrite Hassoc in *. destruct res as [e|blocks]; cbn [gather_own_block fst snd obind].
  { apply IH; [done|by apply Hmono|done]. }
  intros ([t1 h1] & Hone & Hrun)%bind_Ok. apply bind_Ok in Hone as ([e|own] & Hown & Hone).
  { injection Hone as <- <-. revert Hrun. apply IH; [done|by apply Hmono|done]. }
  apply bind_Ok in Hone as (st & [Hlt ->]%committee_stake_Ok & [= <- <-]).
  assert (Hnew : a ∉ A).
  { intros Hin%HA. destruct Hok as [Hnd _]. unfold answerers in Hnd. rewrite <-Hassoc, omap_app in Hnd. cbn in Hnd.
    apply NoDup_app in Hnd as (_ & Hdisj & _). apply (Hdisj a Hin). by left. }
  rewrite u64_add_small in Hrun.
  2: { rewrite N.add_comm, <-set_stake_insert by done. by apply set_stake_u64. }
  rewrite N.add_comm, <-set_stake_insert in Hrun by done. revert Hrun. apply IH; [done| |].
  - split. intros x [->%elem_of_singleton|Hx]%elem_of_union.
    + exists blocks, own. split_and!; [apply elem_of_app; right; by left|done|]. intros b Hb.
      assert (round b ≤ foldr N.max 0 (round <$> own)) by (apply foldr_max_ge; by apply list_elem_of_fmap_2). lia.
    + apply (Hmono A (N.max h (foldr N.max 0 (round <$> own))) Hg); [lia|done].
  - intros x [->%elem_of_singleton|Hx]%elem_of_union; [|by apply HA']. unfold answerers. rewrite omap_app, elem_of_app. right. by left.
Qed.

(** Some attempt heard answers of a validity threshold, none with a block above [h]. *)
Lemma own_attempts_spec (Hctx : committee_ok (committee ctx)) attempts h :
  (∀ results, results ∈ attempts → results_ok results) → own_block_attempts ck cd dec v ctx attempts = Ok (Some h) →
  ∃ results A, results ∈ attempts ∧ validity_threshold (committee ctx) ≤ set_stake (committee ctx) A ∧ gathered results A h.
Proof using.
  clear Hc Hbytes.
  induction attempts as [|results attempts IH]; intros Hok; cbn [own_block_attempts]; [done|].
  intros ([t h1] & Hg & Hrun)%bind_Ok. rewrite <-(set_stake_empty (committee ctx)) in Hg.
  apply (gather_spec Hctx results [] ∅ 0) in Hg as (A & Hg & ->); [|apply Hok; by left|split; set_solver|set_solver].
  unfold reached_validity in Hrun. destruct (N.leb_spec (validity_threshold (committee ctx)) (set_stake (committee ctx) A)).
  - injection Hrun as <-. exists results, A. split_and!; [by left|done|done].
  - apply IH in Hrun as (r & A' & ? & ? & ?); [|intros r Hr; apply Hok; by right]. exists r, A'. split_and!; [by right|done|done].
Qed.

(** A validity threshold of answers reaches into every quorum. *)
Lemma own_round_covers (Hctx : committee_ok (committee ctx)) attempts h Q r :
  (∀ results, results ∈ attempts → results_ok results) → own_block_attempts ck cd dec v ctx attempts = Ok (Some h) →
  quorum_threshold (committee ctx) ≤ set_stake (committee ctx) Q →
  (∀ results a blocks own, results ∈ attempts → a ∈ Q → (a, inr blocks) ∈ results →
    process_own_blocks ck cd dec v ctx a blocks = Ok (inr own) → ∃ b, b ∈ own ∧ r ≤ round b) →
  r ≤ h.
Proof using.
  clear Hc Hbytes.
  intros Hok Hrun HQ Hhonest. destruct (own_attempts_spec Hctx attempts h Hok Hrun) as (results & A & Hin & HA & [Hg]).
  pose proof (set_stake_inclusion_exclusion (committee ctx) Q A) as Hie. pose proof (set_stake_le_total (committee ctx) (Q ∪ A) Hctx) as Htot.
  pose proof (committee_thresholds (committee ctx) Hctx) as (_ & _ & Hth).
  assert (Hne : Q ∩ A ≠ ∅) by (intros He; rewrite He, set_stake_empty in Hie; lia).
  apply set_choose_L in Hne as [a Ha]. apply elem_of_intersection in Ha as [HaQ HaA].
  destruct (Hg a HaA) as (blocks & own & Hans & Hp & Hle). destruct (Hhonest results a blocks own Hin HaQ Hans Hp) as (b & Hb & Hr).
  specialize (Hle b Hb). lia.
Qed.
End verified.

Section blocks.
Context {S D : Type} `{CoreThreadDispatcher S D, !DispatcherLaws S D} (ck : Crypto) (cd : Codec) (dec : Decoder).
Context (v : SignedBlockVerifier) (ctx : Context) (params : FetchParameters).
Implicit Types s : Synchronizer D.

(** C26 (safety): Of what a peer sends back, only verified blocks reach the core, and all of
    them or none: either the first [max_blocks_per_sync] of the response all decode to
    valid blocks and exactly these are handed to the core, in order, or the core and its
    DAG are left as they were and the response is an error or empty. *)
Theorem only_verified_blocks_reach_core env s blocks peer g s' r :
  committee_ok (committee (bv_context v)) → fits_in_memory dec →
  process_fetched_blocks ck cd dec v ctx params env s blocks peer g = Ok (s', r) →
  (core_dispatcher s' = core_dispatcher s ∧ (blocks = [] ∧ r = inr tt ∨ ∃ e, r = inl e)) ∨
  (∃ verified d reply, Forall2 (verified_from ck cd dec v) (take (max_blocks_per_sync params) blocks) verified ∧
    d_dag_state d = d_dag_state (core_dispatcher s) ∧ d_add_blocks env d verified = Ok (core_dispatcher s', reply) ∧
    r = match reply with Some _ => inr tt | None => inl Shutdown end).
Proof.
  intros Hc Hbytes.
  assert (Hrel : ∀ s1 s2, release g s1 = Ok s2 → core_dispatcher s2 = core_dispatcher s1) by (intros s1 s2 (m & _ & [= <-])%bind_Ok; done).
  unfold process_fetched_blocks. destruct blocks as [|b blocks].
  { intros (s1 & Hr%Hrel & [= <- <-])%bind_Ok. left. split; [done|by left]. }
  intros ([d [e|verified]] & Hv & Hrun)%bind_Ok; unfold verify_blocks in Hv; apply bind_Ok in Hv as ([e'|voted] & Hloop & Hv).
  - injection Hv as -> ->. apply bind_Ok in Hrun as (s1 & Hr%Hrel & [= <- <-]). left. split; [done|]. right. by exists e.
  - by apply bind_Ok in Hv as (? & _ & ?).
  - done.
  - right. apply (verify_loop_sound ck cd dec v ctx Hc Hbytes) in Hloop as (new & -> & Hnew). cbn [app] in Hv.
    assert (Hd : d_dag_state d = d_dag_state (core_dispatcher s) ∧ verified = new.*1).
    { apply bind_Ok in Hv as (d1 & Hd1 & [= <- <-]). split; [|done]. destruct (mysticeti_fastpath _); [|by injection Hd1 as <-].
      apply bind_Ok in Hd1 as ([cs out] & _ & [= <-]). apply dag_set_certifier. }
    destruct Hd as [Hd ->]. apply bind_Ok in Hrun as (monitor & _ & Hrun). apply bind_Ok in Hrun as (? & _ & Hrun).
    apply bind_Ok in Hrun as (? & _ & Hrun). apply bind_Ok in Hrun as ([d' reply] & Hadd & Hrun).
    apply bind_Ok in Hrun as (s1 & Hr%Hrel & Hrun). cbn in Hr. exists new.*1, d, reply. split_and!; [done|done| |].
    + cbn [core_dispatcher set_monitor set_dispatcher] in Hadd. rewrite Hadd, <-Hr. f_equal. f_equal. destruct reply as [missing|]; [|by injection Hrun as <- _].
      injection Hrun as <- _. destruct (decide _); [done|]. unfold kick_off. by destruct (_ <? _)%nat.
    + destruct reply; by injection Hrun as _ <-.
Qed.
End blocks.

(** ** Recovery of a validator that lost its state *)

Section amnesia.
Context {S : Type} `{Store S} (ck : Crypto) (cd : Codec) (dec : Decoder) (rng : Rand) (v : SignedBlockVerifier).
Context (ctx : Context) (params : CoreParameters) (signer : KeyPair ck).
Context (decide_fuel : DagState S → nat) (commit_fuel : Core S → nat).
#[local] Instance dispatcher : CoreThreadDispatcher S (CoreThread S) :=
  channel_dispatcher ck cd rng ctx params signer decide_fuel commit_fuel.
Implicit Types s : Synchronizer (CoreThread S).
Abbreviation step := (thread_step ck cd rng ctx params signer decide_fuel commit_fuel).

(** A validator that starts without its state does not propose for a round
    twice.  Suppose a quorum has accepted an own block of round [r], and those of the quorum
    that answer name an own block of that round or a higher one.  If the task that asks the
    peers ends with the round [h], then whatever the thread of the core did before it saw
    that round and does after it, every block it proposes is above [r]. *)
Theorem fetched_round_respected s attempts s' h Q r env t0 t1 t eb :
  committee_ok (committee ctx) → (1 < committee_size (committee ctx))%nat →
  (∀ results, results ∈ attempts → results_ok ctx results) →
  fetch_own_last_block (D := CoreThread S) ck cd dec v ctx s attempts = Ok (s', Some h) →
  quorum_threshold (committee ctx) ≤ set_stake (committee ctx) Q →
  (∀ results a blocks own, results ∈ attempts → a ∈ Q → (a, inr blocks) ∈ results →
    process_own_blocks ck cd dec v ctx a blocks = Ok (inr own) → ∃ b, b ∈ own ∧ r ≤ round b) →
  last_known_proposed_round (ct_core (core_dispatcher s)) = None → proposals (core_events (ct_core (core_dispatcher s))) = [] →
  rtc step (core_dispatcher s') t0 → running t0 = true → watched_last_known_proposed_round t0 = Some h →
  on_last_known_proposed_round ck cd rng ctx params signer decide_fuel commit_fuel env t0 = Ok t1 → rtc step t1 t →
  eb ∈ proposals (core_events (ct_core t)) → r < round (eb_block eb).
Proof.
  intros Hc Hsize Hres Hfetch HQ Hhonest Hnone Hno Hpre Hrun Hw Htold Hpost Heb.
  unfold fetch_own_last_block in Hfetch. apply bind_Ok in Hfetch as (found & Hfound & Hfetch).
  destruct (Nat.eqb_spec (committee_size (committee ctx)) 1); [lia|]. destruct found as [h'|]; [|done]. injection Hfetch as <- ->.
  pose proof (own_round_covers ck cd dec v ctx Hc attempts h Q r Hres Hfound HQ Hhonest) as Hle.
  assert (Hstart : knows_round None (ct_core (core_dispatcher (set_dispatcher (d_set_last_known_proposed_round (core_dispatcher s) h).1 s)))).
  { cbn [core_dispatcher set_dispatcher d_set_last_known_proposed_round dispatcher channel_dispatcher]. rewrite send_round_core.
    split; [|done]. unfold proposes_above. by rewrite Hnone. }
  destruct (thread_run_unknown _ _ _ _ _ _ _ _ _ _ Hpre Hstart) as ([h'|] & Ha & Hk).
  { unfold on_last_known_proposed_round, set_last_known_proposed_round in Htold. rewrite Hrun, Hw, Hk in Htold. done. }
  unfold proposes_above in Ha. rewrite Hk in Ha.
  pose proof (told_round_known _ _ _ _ _ _ _ _ h env t0 t1 Hk Ha Hrun Hw Htold) as Hknown.
  destruct (thread_run_known _ _ _ _ _ _ _ _ h t1 t Hpost Hknown) as [Hab Hkt]. unfold proposes_above in Hab. rewrite Hkt in Hab.
  specialize (Hab eb Heb). lia.
Qed.
End amnesia.

(** ** Witnesses

    Authority 0 has lost its state; the authorities 1 and 2 have its block of round 1. *)

Definition commit_fuel4 (co : Core Inner) : nat := 10.
Definition decide_fuel4 (s : DagState Inner) : nat := 100.
#[local] Instance dispatcher4 : CoreThreadDispatcher Inner (CoreThread Inner) :=
  channel_dispatcher toy_crypto test_codec first_rand context4 params4 tt decide_fuel4 commit_fuel4.
#[local] Instance dispatcher4_laws : DispatcherLaws Inner (CoreThread Inner) :=
  channel_dispatcher_laws toy_crypto test_codec first_rand context4 params4 tt decide_fuel4 commit_fuel4.

Definition lost_thread4 : CoreThread Inner := mkCoreThread (set_known_round None core4) true None None (replicate 4 0).
Definition lost_sync4 : Synchronizer (CoreThread Inner) :=
  synchronizer_start context4 lost_thread4 (commit_vote_monitor_new context4) true.
Definition own_answers4 : list (AuthorityIndex * (ConsensusError + list Bytes)) :=
  [(1%nat, inl (NetworkRequest "refused")); (2%nat, inr [[1; 0]]); (1%nat, inr [[1; 0]])].
Definition told_thread4 : CoreThread Inner := (send_last_known_proposed_round lost_thread4 1).1.
Definition proposing_thread4 : outcome (CoreThread Inner) :=
  on_last_known_proposed_round toy_crypto test_codec first_rand context4 params4 tt decide_fuel4 commit_fuel4 env4 told_thread4.

Lemma proposing_thread4_proposes :
  ∃ t eb, proposing_thread4 = Ok t ∧ proposals (core_events (ct_core t)) = [eb] ∧ round (eb_block eb) = 2.
Proof.
  assert (Hev : match proposing_thread4 with
    | Ok t => match proposals (core_events (ct_core t)) with [eb] => round (eb_block eb) = 2 | _ => False end
    | _ => False end) by (vm_compute; reflexivity).
  destruct proposing_thread4 as [t| |]; [|destruct Hev..].
  destruct (proposals (core_events (ct_core t))) as [|eb [|]] eqn:E; [destruct Hev| |destruct Hev]. by exists t, eb.
Qed.

Lemma fetched_round_respected_witness :
  ∃ t eb, proposing_thread4 = Ok t ∧ eb ∈ proposals (core_events (ct_core t)) ∧ 1 < round (eb_block eb).
Proof.
  destruct proposing_thread4_proposes as (t & eb & Hrun & Hp & _). exists t, eb. split; [exact Hrun|].
  assert (Hin : eb ∈ proposals (core_events (ct_core t))) by (rewrite Hp; apply list_elem_of_here). split; [exact Hin|].
  apply (fetched_round_respected toy_crypto test_codec sync_decoder first_rand verifier4 context4 params4 tt decide_fuel4
    commit_fuel4 lost_sync4 [own_answers4] (set_dispatcher told_thread4 lost_sync4) 1 {[1%nat; 2%nat; 3%nat]} 1 env4
    told_thread4 t t eb committee4_ok).
  - vm_compute. lia.
  - intros results ->%list_elem_of_singleton. split; [apply (bool_decide_unpack _); vm_compute; exact I|].
    assert (Hall : Forall (λ a, (a < committee_size (committee context4))%nat) (answerers own_answers4)) by (apply (bool_decide_unpack _); vm_compute; exact I).
    intros a Ha. rewrite Forall_forall in Hall. by apply Hall.
  - assert (Hrounds : own_block_attempts toy_crypto test_codec sync_decoder verifier4 context4 [own_answers4] = Ok (Some 1)) by (vm_compute; reflexivity).
    unfold fetch_own_last_block. rewrite Hrounds. reflexivity.
  - vm_compute. discriminate.
  - intros results a blocks own ->%list_elem_of_singleton _ Ha Hown.
    assert (Hblocks : blocks = [[1; 0]]).
    { clear -Ha. unfold own_answers4 in Ha. rewrite !elem_of_cons, elem_of_nil in Ha.
      destruct Ha as [Ha|[Ha|[Ha|Ha]]]; [discriminate|injection Ha as _ ->; reflexivity..|destruct Ha]. }
    subst blocks. assert (Hone : ∃ b, process_own_blocks toy_crypto test_codec sync_decoder verifier4 context4 a [[1; 0]] = Ok (inr [b]) ∧ round b = 1).
    { eexists. split; [vm_compute; reflexivity|reflexivity]. }
    destruct Hone as (b & Heq & Hb). rewrite Heq in Hown. injection Hown as <-. exists b. split; [apply list_elem_of_here|rewrite Hb; apply N.le_refl].
  - reflexivity.
  - vm_compute. reflexivity.
  - apply rtc_refl.
  - reflexivity.
  - reflexivity.
  - exact Hrun.
  - apply rtc_refl.
  - exact Hin.
Defined.

(** Authority 0 misses two blocks, one of round 1 and one of round 3. *)
Definition missing4 : list BlockRef := [mkBlockRef 1 1%nat 77; mkBlockRef 3 2%nat 5].
Definition gap_core4 : Core Inner := match check_block_refs core4 missing4 with Ok (co, _) => co | _ => core4 end.
Definition gap_sync4 : Synchronizer (CoreThread Inner) :=
  synchronizer_start context4 (mkCoreThread gap_core4 true None None (replicate 4 0)) (commit_vote_monitor_new context4) false.
Definition fetch_params4 : FetchParameters := mkFetchParameters 1 (mkSyncParameters 4 1 8 2).
Definition periodic4 : outcome (Synchronizer (CoreThread Inner) * (ConsensusError + unit)) :=
  start_fetch_missing_blocks_task context4 fetch_params4 env4 (λ l, l) (λ l, l) gap_sync4.

Lemma gap_sync4_reachable : sync_reachable toy_crypto test_codec sync_decoder verifier4 context4 fetch_params4 gap_sync4.
Proof. exists gap_sync4. split; [by eexists _, _, _|apply rtc_refl]. Qed.

Lemma gap_core4_dag : dag_state gap_core4 = grown4.
Proof. vm_compute. reflexivity. Qed.

Lemma periodic_sync_fetches_lowest_witness :
  ∃ s', periodic4 = Ok (s', inr tt) ∧ ∃ g, g ∈ guards s' ∧ mkBlockRef 1 1%nat 77 ∈ guard_refs g.
Proof.
  destruct (periodic_sync_fetches_lowest toy_crypto test_codec sync_decoder verifier4 context4 fetch_params4 env4 (λ l, l) (λ l, l)
    gap_sync4 (core_dispatcher gap_sync4) (list_to_set missing4)) as (s' & Hrun & Hall).
  - exact gap_sync4_reachable.
  - reflexivity.
  - intros l. reflexivity.
  - intros l. reflexivity.
  - vm_compute. lia.
  - cbn. lia.
  - assert (Hm : get_missing_blocks gap_core4 = list_to_set missing4) by (vm_compute; reflexivity).
    exact (f_equal (λ m, Ok (core_dispatcher gap_sync4, Some m)) Hm).
  - apply (bool_decide_unpack _). vm_compute. exact I.
  - intros r Hr. assert (Hv : set_Forall (λ r, (ref_author r < committee_size (committee context4))%nat) (list_to_set missing4 : gset BlockRef))
      by (apply (bool_decide_unpack _); vm_compute; exact I). by apply Hv.
  - cbn [d_dag_state dispatcher4 channel_dispatcher core_dispatcher gap_sync4 synchronizer_start ct_core]. rewrite gap_core4_dag.
    destruct proposer4_ok as [Hok Hgen _ Hev _ _ _ _ _ _]. split_and!; [exact Hok|exact Hgen|apply grown4_ok|].
    intros a e He. destruct Hev as [Hev|Hev]; [discriminate Hev|]. specialize (Hev a e He). width_lia.
  - vm_compute. reflexivity.
  - exists s'. split; [exact Hrun|]. apply Hall. apply (bool_decide_unpack _). vm_compute. exact I.
Defined.

Definition fetching4 : Synchronizer (CoreThread Inner) := match periodic4 with Ok (s, _) => s | _ => gap_sync4 end.

Lemma fetching4_started : periodic4 = Ok (fetching4, inr tt).
Proof.
  assert (Hev : match periodic4 with Ok (_, inr _) => true | _ => false end = true) by (vm_compute; reflexivity).
  unfold fetching4. destruct periodic4 as [[s [e|[]]]| |]; [discriminate Hev|reflexivity|discriminate Hev..].
Qed.

Lemma sync_locks_exact_witness :
  guards fetching4 ≠ [] ∧
  ∀ r a, a ∈ default ∅ (inflight_blocks_map fetching4 !! r) ↔ ∃ g, g ∈ guards fetching4 ∧ r ∈ guard_refs g ∧ a = guard_peer g.
Proof.
  split; [vm_compute; discriminate|].
  apply (sync_locks_exact toy_crypto test_codec sync_decoder verifier4 context4 fetch_params4 fetching4).
  exists gap_sync4. split; [by eexists _, _, _|]. apply rtc_once.
  apply (task_started _ _ _ _ _ _ gap_sync4 env4 (λ l, l) (λ l, l) fetching4 (inr tt)); [reflexivity|intros l; reflexivity..|].
  exact fetching4_started.
Defined.

(** A peer answers with one block, and the answer is processed. *)
Definition answered4 : outcome (Synchronizer (CoreThread Inner) * (ConsensusError + unit)) :=
  process_fetched_blocks toy_crypto test_codec sync_decoder verifier4 context4 fetch_params4 env4 gap_sync4 [[1; 1]] 1%nat
    (mkBlocksGuard ∅ 1%nat).

Lemma only_verified_blocks_reach_core_witness :
  ∃ s' r, answered4 = Ok (s', r) ∧
    ((core_dispatcher s' = core_dispatcher gap_sync4 ∧ ([[1; 1]] = [] ∧ r = inr tt ∨ ∃ e, r = inl e)) ∨
     ∃ verified d reply, Forall2 (verified_from toy_crypto test_codec sync_decoder verifier4) [[1; 1]] verified ∧
       d_dag_state d = d_dag_state (core_dispatcher gap_sync4) ∧ d_add_blocks env4 d verified = Ok (core_dispatcher s', reply) ∧
       r = match reply with Some _ => inr tt | None => inl Shutdown end).
Proof.
  assert (Hrun : ∃ s' r, answered4 = Ok (s', r)).
  { assert (Hev : match answered4 with Ok (_, inr _) => True | _ => False end) by (vm_compute; exact I).
    destruct answered4 as [[s' r]| |]; [|destruct Hev..]. by exists s', r. }
  destruct Hrun as (s' & r & Hrun). exists s', r. split; [exact Hrun|].
  exact (only_verified_blocks_reach_core toy_crypto test_codec sync_decoder verifier4 context4 fetch_params4 env4 gap_sync4 [[1; 1]] 1%nat
    (mkBlocksGuard ∅ 1%nat) s' r committee4_ok sync_decoder_small Hrun).
Defined.
