(* ===== verification/AuthorityService.v ===== *)
(** * The service of an authority ([core/src/authority_service.rs])

    The handlers of the requests that peers send: a new block, the subscription to own
    blocks, and the reads of blocks, commits and rounds.  The service shares the core, its
    DAG and store, the certifier and the round tracker through [CoreThreadDispatcher], and
    asks the synchronizer for what a received block misses.  Metrics and logs are left out,
    except for the lookups in them that can panic.  The theorems are in
    [AuthorityServiceSpec]. *)

From stdpp Require Import pretty.
From S2P Require Import Prelude Collections Weighted Committee Types Fixtures Commits StakeAggregator.
From S2P Require Import ThresholdClock QuorumIndex CommitVoteMonitor LeaderScoring RoundTracker Storage DagState DagStateSpec.
From S2P Require Import Errors BlockVerifier BlockManager TransactionCertifier CommitSyncer Core CoreThread Synchronizer.

Local Open Scope N_scope.

(** ** Messages *)

(** [ExtendedSerializedBlock] ([core/src/network/mod.rs]) *)
Record ExtendedSerializedBlock := mkExtendedSerializedBlock {
  es_block : Bytes;
  es_excluded_ancestors : list Bytes;
}.

(** Messages of an epoch change ([core/src/epoch_change.rs]). *)
Record EpochChangeProposal := mkEpochChangeProposal {
  new_epoch : N;
  new_epoch_timestamp_ms : N;
  proposal_commit_index : N;
  proposer_value : N;
  proposal_signature_bytes : Bytes;
  created_at_seconds : N;
}.
Record EpochChangeVote := mkEpochChangeVote {
  vote_proposal_hash : Bytes;
  voter_value : N;
  approve : bool;
  vote_signature_bytes : Bytes;
}.

(** Serialization ([bcs]) of what the service reads and forwards. *)
Record WireCodec := mkWireCodec {
  ref_to_bytes : BlockRef → option Bytes;
  ref_from_bytes : Bytes → option BlockRef;
  proposal_to_bytes : EpochChangeProposal → option Bytes;
  vote_to_bytes : EpochChangeVote → option Bytes;
}.

(** [ExtendedSerializedBlock::from] *)
Definition extended_serialized_from (w : WireCodec) (eb : ExtendedBlock) : ExtendedSerializedBlock :=
  mkExtendedSerializedBlock (vb_serialized (eb_block eb)) (omap (ref_to_bytes w) (excluded_ancestors eb)).

(** ** Subscriptions *)

Record Counter := mkCounter {
  count : N;
  subscriptions_by_authority : list N;
}.

Definition counter_new (c : Committee) : Counter := mkCounter 0 (replicate (committee_size c) 0).

Definition increment (c : Committee) (k : Counter) (peer : AuthorityIndex) : outcome Counter :=
  let! n := vec_get (subscriptions_by_authority k) peer in
  let! l := vec_set (subscriptions_by_authority k) peer (u64_add n 1) in
  do! authority c peer in
  Ok (mkCounter (u64_add (count k) 1) l).

Definition decrement (c : Committee) (k : Counter) (peer : AuthorityIndex) : outcome Counter :=
  let! n := vec_get (subscriptions_by_authority k) peer in
  let! l := vec_set (subscriptions_by_authority k) peer (u64_sub n 1) in
  do! (if u64_sub n 1 =? 0 then omap_ok (λ _, tt) (authority c peer) else Ok tt) in
  Ok (mkCounter (u64_sub (count k) 1) l).

(** What a receiver of the broadcast channel yields. *)
Inductive Received :=
| ReceivedBlock (eb : ExtendedBlock)
| Lagged (n : N)
| Closed.

(** [BroadcastStream::poll_next]: lags are skipped; [None] while nothing is there.  The
    second component is what is left of the channel. *)
Fixpoint poll_next (received : list Received) : option (option ExtendedBlock * list Received) :=
  match received with
  | [] => None
  | ReceivedBlock eb :: rest => Some (Some eb, rest)
  | Lagged _ :: rest => poll_next rest
  | Closed :: rest => Some (None, rest)
  end.

(** ** The service *)

(** Calls of the processor of epoch changes ([core/src/epoch_change_provider.rs]). *)
Inductive EpochCall :=
| ProcessProposal (bytes : Bytes)
| ProcessVote (bytes : Bytes).

(** [process_block_epoch_change] *)
Definition process_block_epoch_change (processor : option (list EpochCall)) (proposal : option Bytes) (votes : list Bytes) :
    option (list EpochCall) :=
  match processor with
  | None => None
  | Some calls => Some (calls ++ (match proposal with Some p => [ProcessProposal p] | None => [] end) ++ (ProcessVote <$> votes))
  end.

(** [scheduled] are the requests given to the synchronizer in the background; a processor
    is the list of the calls it got, when there is one: the service's own, and the global
    one that the data in blocks is for. *)
Record AuthorityService (D : Type) := mkAuthorityService {
  sv_dispatcher : D;
  sv_monitor : CommitVoteMonitor;
  subscription_counter : Counter;
  scheduled : list Command;
  epoch_change_processor : option (list EpochCall);
  block_epoch_change_processor : option (list EpochCall);
}.
Arguments mkAuthorityService {D}.
Arguments sv_dispatcher {D}.
Arguments sv_monitor {D}.
Arguments subscription_counter {D}.
Arguments scheduled {D}.
Arguments epoch_change_processor {D}.
Arguments block_epoch_change_processor {D}.

(** The answer to a request for commits. *)
Abbreviation FetchedCommits := (list TrustedCommit * list VerifiedBlock)%type (only parsing).

(** [Vec::dedup] *)
Fixpoint dedup {A} `{EqDecision A} (l : list A) : list A :=
  match l with
  | [] => []
  | x :: rest =>
      match dedup rest with
      | [] => [x]
      | y :: rest' => if decide (x = y) then y :: rest' else x :: y :: rest'
      end
  end.

Section service.
Context {S D : Type} `{CoreThreadDispatcher S D} (ck : Crypto) (cd : Codec) (dec : Decoder) (w : WireCodec).
Context (v : SignedBlockVerifier) (ctx : Context) (params : FetchParameters).
Implicit Types s : AuthorityService D.
Abbreviation c := (committee ctx).

Definition sv_dag s : DagState S := d_dag_state (sv_dispatcher s).

Definition with_dispatcher (d : D) s : AuthorityService D :=
  mkAuthorityService d (sv_monitor s) (subscription_counter s) (scheduled s) (epoch_change_processor s) (block_epoch_change_processor s).
Definition with_monitor (m : CommitVoteMonitor) s : AuthorityService D :=
  mkAuthorityService (sv_dispatcher s) m (subscription_counter s) (scheduled s) (epoch_change_processor s) (block_epoch_change_processor s).
Definition with_counter (k : Counter) s : AuthorityService D :=
  mkAuthorityService (sv_dispatcher s) (sv_monitor s) k (scheduled s) (epoch_change_processor s) (block_epoch_change_processor s).
Definition with_scheduled (l : list Command) s : AuthorityService D :=
  mkAuthorityService (sv_dispatcher s) (sv_monitor s) (subscription_counter s) l (epoch_change_processor s) (block_epoch_change_processor s).
Definition with_processor (p : option (list EpochCall)) s : AuthorityService D :=
  mkAuthorityService (sv_dispatcher s) (sv_monitor s) (subscription_counter s) (scheduled s) p (block_epoch_change_processor s).
Definition with_block_processor (p : option (list EpochCall)) s : AuthorityService D :=
  mkAuthorityService (sv_dispatcher s) (sv_monitor s) (subscription_counter s) (scheduled s) (epoch_change_processor s) p.

Definition authority_service_new (d : D) (monitor : CommitVoteMonitor) (processor global : option (list EpochCall)) : AuthorityService D :=
  mkAuthorityService d monitor (counter_new c) [] processor global.

(** *** A new block of a peer *)

(** One serialized reference of an excluded ancestor. *)
Definition parse_excluded_ancestor (block : VerifiedBlock) (serialized : Bytes) : ConsensusError + BlockRef :=
  match ref_from_bytes w serialized with
  | None => inl MalformedBlock
  | Some r =>
      if negb (is_valid_index c (ref_author r)) then inl (InvalidAuthorityIndex (ref_author r) (committee_size c))
      else if round block <=? ref_round r then inl (InvalidAncestorRound (ref_round r) (round block))
      else inr r
  end.

(** [collect] into a result: the first error, or all. *)
Fixpoint collect_results {A B} (f : A → ConsensusError + B) (l : list A) : ConsensusError + list B :=
  match l with
  | [] => inr []
  | x :: rest =>
      match f x with
      | inl e => inl e
      | inr y => match collect_results f rest with inl e => inl e | inr ys => inr (y :: ys) end
      end
  end.

Definition parse_excluded_ancestors (peer : AuthorityIndex) (block : VerifiedBlock) (excluded : list Bytes) :
    result (list BlockRef) :=
  do! authority c peer in
  let limit := (committee_size c * 2)%nat in
  match collect_results (parse_excluded_ancestor block) (take limit excluded) with
  | inl e => Err e
  | inr refs => do! map_each (λ r, authority c (ref_author r)) refs in Return refs
  end.

(** [synchronizer.fetch_blocks(missing, peer)] in the background, when something is missing *)
Definition schedule_fetch (missing : gset BlockRef) (peer : AuthorityIndex) s : AuthorityService D :=
  if decide (missing = ∅) then s else with_scheduled (scheduled s ++ [FetchBlocks missing peer]) s.

(** The local commit index is lagging too far behind the quorum. *)
Definition commit_lagging s : bool :=
  u32_add (last_commit_index (sv_dag s)) (u32_mul (commit_sync_batch_size (commit_parameters params)) COMMIT_LAG_MULTIPLIER)
  <? quorum_commit_index ctx (sv_monitor s).

Definition lag_reason s : string :=
  ("Last commit index is lagging quorum commit index too much (" +:+ pretty (last_commit_index (sv_dag s)) +:+ " < " +:+
    pretty (quorum_commit_index ctx (sv_monitor s)) +:+ ")")%string.

(** The excluded ancestors, after the block is processed. *)
Definition process_excluded_ancestors (env : CoreEnv) s (peer : AuthorityIndex) (b : VerifiedBlock) (excluded : list Bytes) :
    outcome (AuthorityService D * (ConsensusError + unit)) :=
  let! r := parse_excluded_ancestors peer b excluded in
  match r with
  | inl e => Ok (s, inl e)
  | inr refs =>
      let! tracker := update_from_verified_block (d_round_tracker (sv_dispatcher s)) (mkExtendedBlock b refs) in
      let d := d_set_round_tracker tracker (sv_dispatcher s) in
      let! '(d, missing) := d_check_block_refs env d refs in
      let s := with_dispatcher d s in
      match missing with
      | None => Ok (s, inl Shutdown)
      | Some missing => Ok (schedule_fetch missing peer s, inr tt)
      end
  end.

(** What is done with a block that is verified and current. *)
Definition process_current_block (env : CoreEnv) s (peer : AuthorityIndex) (b : VerifiedBlock) (rejects : list TransactionIndex)
    (excluded : list Bytes) : outcome (AuthorityService D * (ConsensusError + unit)) :=
  let! d :=
    if mysticeti_fastpath (protocol_config ctx) then
      let! '(cs, out) := certifier_add_voted_blocks ctx (d_certifier (sv_dispatcher s)) [(b, rejects)] in
      Ok (d_set_certifier cs out (sv_dispatcher s))
    else Ok (sv_dispatcher s) in
  let s := with_dispatcher d s in
  let proposal := epoch_change_proposal (vb_inner b) in
  let votes := epoch_change_votes (vb_inner b) in
  let s :=
    if bool_decide (is_Some proposal) || negb (bool_decide (votes = [])) then
      with_block_processor (process_block_epoch_change (block_epoch_change_processor s) proposal votes) s
    else s in
  let! '(d, missing) := d_add_blocks env (sv_dispatcher s) [b] in
  let s := with_dispatcher d s in
  match missing with
  | None => Ok (s, inl Shutdown)
  | Some missing => process_excluded_ancestors env (schedule_fetch missing peer s) peer b excluded
  end.

Definition handle_send_block (env : CoreEnv) s (peer : AuthorityIndex) (serialized_block : ExtendedSerializedBlock) :
    outcome (AuthorityService D * (ConsensusError + unit)) :=
  do! authority c peer in
  match block_from_bytes dec (es_block serialized_block) with
  | None => Ok (s, inl MalformedBlock)
  | Some signed_block =>
      let a := block_author (sb_inner signed_block) in
      if negb (peer =? a)%nat then Ok (s, inl (UnexpectedAuthority a peer)) else
      let! r := verify_and_vote ck cd v signed_block (es_block serialized_block) in
      match r with
      | inl e => Ok (s, inl e)
      | inr (b, rejects) =>
          let! monitor := observe_block (sv_monitor s) b in
          let s := with_monitor monitor s in
          if commit_lagging s then Ok (s, inl (BlockRejected (reference b) (lag_reason s)))
          else process_current_block env s peer b rejects (es_excluded_ancestors serialized_block)
      end
  end.

(** *** Subscription to own blocks *)

(** The blocks that the stream starts with; the blocks broadcast later follow, as
    [poll_next] yields them.  Dropping the stream unsubscribes. *)
Definition handle_subscribe_blocks s (peer : AuthorityIndex) (last_received : Round) :
    outcome (AuthorityService D * list ExtendedSerializedBlock) :=
  let! blocks := get_cached_blocks (sv_dag s) (own_index ctx) (u32_add last_received 1) in
  let missed := (λ b, mkExtendedSerializedBlock (vb_serialized b) []) <$> blocks in
  let! k := increment c (subscription_counter s) peer in
  Ok (with_counter k s, missed).

Definition drop_subscription s (peer : AuthorityIndex) : outcome (AuthorityService D) :=
  let! k := decrement c (subscription_counter s) peer in Ok (with_counter k s).

(** *** Blocks *)

(** The quick validation of the requested references. *)
Fixpoint validate_refs (refs : list BlockRef) : option ConsensusError :=
  match refs with
  | [] => None
  | r :: rest =>
      if negb (is_valid_index c (ref_author r)) then Some (InvalidAuthorityIndex (ref_author r) (committee_size c))
      else if ref_round r =? GENESIS_ROUND then Some UnexpectedGenesisBlockRequested
      else validate_refs rest
  end.

(** The ancestors of the requested blocks that the peer does not have, in order; the random
    choice among too many is an argument. *)
Definition unaccepted (highest_accepted_rounds : list Round) (refs : list BlockRef) : outcome (list BlockRef) :=
  for_each (λ acc r, let! h := vec_get highest_accepted_rounds (ref_author r) in
    Ok (if h <? ref_round r then acc ++ [r] else acc)) [] refs.

Definition fetch_breadth_first (choose_multiple : list BlockRef → nat → list BlockRef) (d : DagState S) (blocks : list VerifiedBlock)
    (highest_accepted_rounds : list Round) (max_response_num_blocks : nat) : outcome (list VerifiedBlock) :=
  let! missing := unaccepted highest_accepted_rounds (concat (ancestors <$> blocks)) in
  let missing := bset_iter (list_to_set missing : gset BlockRef) in
  let selected := (max_response_num_blocks - length blocks)%nat in
  let missing := if (selected <? length missing)%nat then choose_multiple missing selected else missing in
  let! ancestor_blocks := get_blocks d missing in
  Ok (blocks ++ omap id ancestor_blocks).

(** The lowest round of the requested blocks of each author. *)
Definition lowest_missing_rounds (blocks : list VerifiedBlock) : gmap AuthorityIndex Round :=
  foldl (λ m b, <[author b := N.min (default (round b) (m !! author b)) (round b)]> m) ∅ blocks.

(** Blocks between what the peer has and what it asks for, by author. *)
Fixpoint fetch_depth_first (d : DagState S) (highest_accepted_rounds : list Round) (blocks : list VerifiedBlock)
    (lowest : list (AuthorityIndex * Round)) {struct lowest} : outcome (list VerifiedBlock) :=
  match lowest with
  | [] => Ok blocks
  | (a, lowest_missing_round) :: rest =>
      let! h := vec_get highest_accepted_rounds a in
      if lowest_missing_round <=? h then fetch_depth_first d highest_accepted_rounds blocks rest else
      let! more := get_cached_blocks_in_range d a (u32_add h 1) lowest_missing_round (max_blocks_per_sync params - length blocks) in
      let blocks := blocks ++ more in
      if (max_blocks_per_sync params <=? length blocks)%nat then Ok (take (max_blocks_per_sync params) blocks)
      else fetch_depth_first d highest_accepted_rounds blocks rest
  end.

Definition max_response_num_blocks (highest_accepted_rounds : list Round) : nat :=
  match highest_accepted_rounds with
  | [] => max_blocks_per_fetch (commit_parameters params)
  | _ => max_blocks_per_sync params
  end.

Definition handle_fetch_blocks (choose_multiple : list BlockRef → nat → list BlockRef) s (block_refs : list BlockRef)
    (highest_accepted_rounds : list Round) (breadth_first : bool) : result (list Bytes) :=
  if negb (bool_decide (highest_accepted_rounds = [])) && negb (length highest_accepted_rounds =? committee_size c)%nat
  then Err (InvalidSizeOfHighestAcceptedRounds (length highest_accepted_rounds) (committee_size c)) else
  let limit := max_response_num_blocks highest_accepted_rounds in
  let refs := take limit block_refs in
  match validate_refs refs with
  | Some e => Err e
  | None =>
      let d := sv_dag s in
      let! blocks :=
        if bool_decide (highest_accepted_rounds = []) then
          let! blocks := get_blocks d refs in Ok (omap id blocks)
        else
          let! found := get_blocks d (dedup (sort_by ord_leb refs)) in
          let blocks := omap id found in
          if breadth_first then fetch_breadth_first choose_multiple d blocks highest_accepted_rounds limit
          else fetch_depth_first d highest_accepted_rounds blocks (btree_iter (lowest_missing_rounds blocks)) in
      Return (vb_serialized <$> blocks)
  end.

(** *** Commits *)

(** Drops commits from the end, here from the front of the reversed list, until one has
    the votes of a quorum. *)
Fixpoint certified_prefix (st : S) (commits_reversed : list TrustedCommit) : outcome (list TrustedCommit * list BlockRef) :=
  match commits_reversed with
  | [] => Ok ([], [])
  | x :: rest =>
      let! votes := read_commit_votes st (commit_index (tcm_inner x)) in
      let! agg := for_each (λ agg r, omap_ok fst (add QuorumThreshold c agg (ref_author r))) aggregator_new votes in
      if reached_threshold QuorumThreshold c agg then Ok (reverse commits_reversed, votes)
      else certified_prefix st rest
  end.

Definition handle_fetch_commits s (range : CommitRange) : outcome FetchedCommits :=
  let st := store (sv_dag s) in
  let inclusive_end := N.min (range_end range)
    (u32_sub (u32_add (range_start range) (commit_sync_batch_size (commit_parameters params))) 1) in
  let! commits := scan_commits st (commit_range_new (range_start range) inclusive_end) in
  let! '(commits, certifier_block_refs) := certified_prefix st (reverse commits) in
  let! certifier_blocks := read_blocks st certifier_block_refs in
  Ok (commits, omap id certifier_blocks).

(** *** Latest blocks and rounds *)

Fixpoint validate_authorities (l : list AuthorityIndex) : option ConsensusError :=
  match l with
  | [] => None
  | a :: rest => if is_valid_index c a then validate_authorities rest else Some (InvalidAuthorityIndex a (committee_size c))
  end.

Definition handle_fetch_latest_blocks s (peer : AuthorityIndex) (authorities : list AuthorityIndex) : result (list Bytes) :=
  if (committee_size c <? length authorities)%nat then Err (TooManyAuthoritiesProvided peer) else
  match validate_authorities authorities with
  | Some e => Err e
  | None =>
      let! blocks := map_each (get_last_block_for_authority (sv_dag s)) authorities in
      Return (vb_serialized <$> filter (λ b, round b ≠ GENESIS_ROUND) blocks)
  end.

Definition handle_get_latest_rounds s : outcome (list Round * list Round) :=
  let received := d_highest_received_rounds (sv_dispatcher s) in
  let! blocks := get_last_cached_block_per_authority (sv_dag s) u32_max in
  let accepted := (λ p : VerifiedBlock * list BlockRef, round p.1) <$> blocks in
  let! own := vec_get accepted (own_index ctx) in
  let! received := vec_set received (own_index ctx) own in
  Ok (received, accepted).

(** *** Messages of an epoch change *)

Definition handle_send_epoch_change_proposal s (proposal : EpochChangeProposal) : AuthorityService D * (ConsensusError + unit) :=
  match epoch_change_processor s with
  | None => (s, inr tt)
  | Some calls =>
      match proposal_to_bytes w proposal with
      | None => (s, inl (NetworkRequest "serialize proposal failed"))
      | Some bytes => (with_processor (Some (calls ++ [ProcessProposal bytes])) s, inr tt)
      end
  end.

Definition handle_send_epoch_change_vote s (vote : EpochChangeVote) : AuthorityService D * (ConsensusError + unit) :=
  match epoch_change_processor s with
  | None => (s, inr tt)
  | Some calls =>
      match vote_to_bytes w vote with
      | None => (s, inl (NetworkRequest "serialize vote failed"))
      | Some bytes => (with_processor (Some (calls ++ [ProcessVote bytes])) s, inr tt)
      end
  end.
End service.
