(* ===== verification/AuthorityServiceSpec.v ===== *)
(** * Correctness of the authority service

    What becomes of a block that a peer sends; what is served of the DAG; the subscription
    counter; and the recovery of a validator that lost its state, with the handlers of its
    peers in place of what they answer. *)

From S2P Require Import Prelude Collections Weighted Committee Types Fixtures Commits StakeAggregator.
From S2P Require Import ThresholdClock QuorumIndex CommitVoteMonitor LeaderScoring RoundTracker Storage DagState DagStateSpec.
From S2P Require Import DagRecovery Ancestor BaseCommitter Linearizer LeaderSchedule UniversalCommitter.
From S2P Require Import Errors BlockVerifier BlockManager TransactionCertifier TransactionCertifierSpec TransactionConsumer.
From S2P Require Import CommitSyncer CommitSyncerSpec Proposal ProposalSpec Core CoreSpec CoreThread CoreThreadSpec.
From S2P Require Import Synchronizer SynchronizerSpec BlockSyncSpec AuthorityService.

Local Open Scope N_scope.

(** ** A block that a peer sends *)

Section send_block.
Context {S D : Type} `{CoreThreadDispatcher S D, !DispatcherLaws S D} (ck : Crypto) (cd : Codec) (dec : Decoder) (w : WireCodec).
Context (v : SignedBlockVerifier) (ctx : Context) (params : FetchParameters).
Implicit Types s : AuthorityService D.
Abbreviation c := (committee ctx).

(** The references parsed from the excluded ancestors of a block. *)
Definition excluded_ok (b : VerifiedBlock) (excluded : list Bytes) (refs : list BlockRef) : Prop :=
  Forall2 (λ bytes r, ref_from_bytes w bytes = Some r ∧ (ref_author r < committee_size c)%nat ∧ ref_round r < round b)
    (take (committee_size c * 2) excluded) refs.

Lemma collect_results_inr {A B} (f : A → ConsensusError + B) l ys :
  collect_results f l = inr ys ↔ Forall2 (λ x y, f x = inr y) l ys.
Proof.
  revert ys. induction l as [|x l IH]; intros ys; cbn [collect_results].
  { split; [by intros [= <-]|by intros ->%Forall2_nil_inv_l]. }
  destruct (f x) as [e|y] eqn:Hx.
  { split; [done|]. intros (y & ? & ? & _ & _)%Forall2_cons_inv_l. congruence. }
  destruct (collect_results f l) as [e|zs] eqn:Hl.
  - split; [done|]. intros (y' & ys' & _ & Hrest & _)%Forall2_cons_inv_l. by apply IH in Hrest.
  - split.
    + intros [= <-]. constructor; [done|]. by apply IH.
    + intros (y' & ys' & Hy & Hrest & ->)%Forall2_cons_inv_l. apply IH in Hrest. congruence.
Qed.

Lemma parse_excluded_spec peer b excluded r :
  parse_excluded_ancestors w ctx peer b excluded = Ok r →
  match r with inr refs => excluded_ok b excluded refs | inl _ => ¬ ∃ refs, excluded_ok b excluded refs end.
Proof.
  unfold parse_excluded_ancestors, excluded_ok. intros (_ & _ & Hrun)%bind_Ok.
  assert (Hiff : ∀ refs, Forall2 (λ x y, parse_excluded_ancestor w ctx b x = inr y) (take (committee_size c * 2) excluded) refs ↔
    Forall2 (λ bytes r, ref_from_bytes w bytes = Some r ∧ (ref_author r < committee_size c)%nat ∧ ref_round r < round b)
      (take (committee_size c * 2) excluded) refs).
  { intros refs. split; intros Hf; eapply Forall2_impl; try exact Hf; cbn; intros bytes x; unfold parse_excluded_ancestor, is_valid_index;
      destruct (ref_from_bytes w bytes) as [y|]; try (by intros (? & _)); try done;
      destruct (Nat.ltb_spec (ref_author y) (committee_size c)), (N.leb_spec (round b) (ref_round y)); cbn [negb];
      intros Hx; try done; try (by injection Hx as <-); destruct Hx as ([= <-] & ? & ?); (done || lia). }
  destruct (collect_results _ _) as [e|refs] eqn:E.
  - injection Hrun as <-. intros [refs Hrefs]. apply Hiff, collect_results_inr in Hrefs. congruence.
  - apply bind_Ok in Hrun as (_ & _ & [= <-]). by apply Hiff, collect_results_inr.
Qed.

Lemma scheduled_fetch missing peer s :
  missing ≠ ∅ → FetchBlocks missing peer ∈ scheduled (schedule_fetch missing peer s).
Proof. intros Hne. unfold schedule_fetch. rewrite decide_False by done. cbn. apply elem_of_app. right. by left. Qed.

Lemma scheduled_kept missing peer s x : x ∈ scheduled s → x ∈ scheduled (schedule_fetch missing peer s).
Proof. intros Hx. unfold schedule_fetch. case_decide; [done|]. cbn. apply elem_of_app. by left. Qed.

Lemma monitor_schedule missing peer s : sv_monitor (schedule_fetch missing peer s) = sv_monitor s.
Proof. unfold schedule_fetch. by case_decide. Qed.

(** The core is asked about the excluded ancestors after it has got the block. *)
Lemma process_excluded_spec env s peer b excluded s' r :
  process_excluded_ancestors w ctx env s peer b excluded = Ok (s', r) →
  sv_monitor s' = sv_monitor s ∧ (∀ x, x ∈ scheduled s → x ∈ scheduled s') ∧
  (r = inr tt → ∃ refs, excluded_ok b excluded refs).
Proof.
  unfold process_excluded_ancestors. intros (res & Hp & Hrun)%bind_Ok. apply parse_excluded_spec in Hp.
  destruct res as [e|refs]; [by injection Hrun as <- <-|].
  apply bind_Ok in Hrun as (tr & _ & Hrun). apply bind_Ok in Hrun as ([d missing] & _ & Hrun).
  destruct missing as [missing|]; injection Hrun as <- <-; split_and!; try done.
  - by rewrite monitor_schedule.
  - intros x Hx. by apply scheduled_kept.
  - intros _. by exists refs.
Qed.

(** What a current block does to the core. *)
Record block_delivered (env : CoreEnv) s (peer : AuthorityIndex) (b : VerifiedBlock) (excluded : list Bytes)
    s' (r : ConsensusError + unit) : Prop := {
  bd_core : ∃ d d' reply, d_dag_state d = sv_dag s ∧ d_add_blocks env d [b] = Ok (d', reply) ∧
    match reply with
    | None => r = inl Shutdown
    | Some missing => missing ≠ ∅ → FetchBlocks missing peer ∈ scheduled s'
    end;
  bd_excluded : r = inr tt → ∃ refs, excluded_ok b excluded refs;
}.

Lemma process_current_spec env s peer b rejects excluded s' r :
  process_current_block w ctx env s peer b rejects excluded = Ok (s', r) →
  sv_monitor s' = sv_monitor s ∧ block_delivered env s peer b excluded s' r.
Proof.
  unfold process_current_block. intros (d & Hd & Hrun)%bind_Ok.
  assert (Hdag : d_dag_state d = sv_dag s).
  { destruct (mysticeti_fastpath _); [|by injection Hd as <-]. apply bind_Ok in Hd as ([cs out] & _ & [= <-]). apply dag_set_certifier. }
  cbn zeta in Hrun. set (s1 := if _ : bool then _ else _) in Hrun.
  assert (Hs1 : sv_dispatcher s1 = d ∧ sv_monitor s1 = sv_monitor s) by (subst s1; by destruct (_ || _)).
  destruct Hs1 as [Hs1 Hm1]. rewrite Hs1 in Hrun. apply bind_Ok in Hrun as ([d' reply] & Hadd & Hrun). destruct reply as [missing|].
  - apply process_excluded_spec in Hrun as (Hm & Hk & Hex). rewrite monitor_schedule in Hm. split; [by rewrite Hm|].
    split; [|done]. exists d, d', (Some missing). split_and!; [done|done|]. intros Hne. by apply Hk, scheduled_fetch.
  - injection Hrun as <- <-. split; [done|]. split; [|done]. by exists d, d', None.
Qed.

(** The peer sent a block of its own that is valid. *)
Definition sent_valid (peer : AuthorityIndex) (m : ExtendedSerializedBlock) (b : VerifiedBlock) : Prop :=
  author b = peer ∧ ∃ sb rejects, block_from_bytes dec (es_block m) = Some sb ∧ verify_and_vote ck cd v sb (es_block m) = Return (b, rejects).

Lemma verified_author sb bytes b rejects :
  verify_and_vote ck cd v sb bytes = Ok (inr (b, rejects)) → author b = block_author (sb_inner sb).
Proof.
  unfold verify_and_vote. intros ([e|?] & _ & Hv)%bind_Ok; [done|]. apply bind_Ok in Hv as ([e|?] & _ & Hv); [done|]. by injection Hv as <- _.
Qed.

End send_block.

(** ** Blocks that are served *)

Section dedup.
Context {A : Type} `{EqDecision A}.

Lemma elem_of_dedup (l : list A) x : x ∈ dedup l ↔ x ∈ l.
Proof.
  induction l as [|y l IH]; [done|]. cbn [dedup]. rewrite elem_of_cons, <-IH.
  destruct (dedup l) as [|z l']; [set_solver|]. case_decide; set_solver.
Qed.

Lemma length_dedup (l : list A) : (length (dedup l) ≤ length l)%nat.
Proof. induction l as [|y l IH]; [done|]. cbn [dedup length]. destruct (dedup l) as [|z l']; [cbn; lia|]. case_decide; cbn in *; lia. Qed.
End dedup.

Lemma omap_id_fmap {A B} (f : A → option B) (l : list A) : omap id (f <$> l) = omap f l.
Proof. induction l as [|x l IH]; [done|]. cbn. by rewrite IH. Qed.

Section served.
Context {S D : Type} `{CoreThreadDispatcher S D, !StoreLaws S} (ctx : Context) (params : FetchParameters).
Implicit Types s : AuthorityService D.
Implicit Types d : DagState S.
Abbreviation c := (committee ctx).

(** The blocks of the DAG under these references. *)
Definition stored_blocks d (refs : list BlockRef) : list VerifiedBlock := omap (λ r, view d !! r) refs.

Lemma get_blocks_stored d refs : dag_ok d → ∃ found, get_blocks d refs = Ok found ∧ omap id found = stored_blocks d refs.
Proof. intros Hok. rewrite get_blocks_view by done. eexists. split; [done|]. apply omap_id_fmap. Qed.

Lemma elem_of_stored d refs b : b ∈ stored_blocks d refs ↔ ∃ r, r ∈ refs ∧ view d !! r = Some b.
Proof. unfold stored_blocks. apply list_elem_of_omap. Qed.

Lemma length_stored d refs : (length (stored_blocks d refs) ≤ length refs)%nat.
Proof.
  unfold stored_blocks. induction refs as [|r refs IH]; [done|]. cbn. destruct (view d !! r); cbn in *; lia.
Qed.

Lemma get_cached_blocks_in_range_spec d a lo hi limit :
  dag_ok d → (a < committee_size (ds_committee d))%nat →
  ∃ l, get_cached_blocks_in_range d a lo hi limit = Ok l ∧ (length l ≤ limit)%nat ∧
    ∀ b, b ∈ l → author b = a ∧ lo ≤ round b ∧ round b < hi ∧ view d !! reference b = Some b.
Proof.
  intros Hok Ha. unfold get_cached_blocks_in_range, cached_refs_in_range. pose proof (dok_cache d Hok) as Hc.
  destruct (_ || _); [exists []; split_and!; [done|cbn; lia|set_solver]|]. rewrite cached_refs_lookup by done. cbn [obind].
  set (refs := take limit _).
  assert (Hrefs : ∀ r, r ∈ refs → ref_author r = a ∧ lo ≤ ref_round r ∧ ref_round r < hi ∧ is_Some (recent_blocks d !! r)).
  { intros r (i & Hi%list_elem_of_lookup_2 & _)%elem_of_take. apply elem_of_bset_range in Hi as (Hin & Hlo & Hhi).
    apply elem_of_cached_refs in Hin as [Hra Hr]; [|done|done]. apply round_range_below in Hhi. cbn in Hlo.
    apply ord_leb_ref_round in Hlo. done. }
  destruct (map_each_total (λ r, omap_ok bi_block (expect (recent_blocks d !! r) "Block should exist in recent blocks")) refs) as [l Hl].
  { intros r Hr. destruct (Hrefs r Hr) as (_ & _ & _ & [i ->]). by eexists. }
  exists l. split; [done|]. apply map_each_Ok in Hl. split.
  { apply Forall2_length in Hl. rewrite <-Hl. subst refs. rewrite length_take. lia. }
  intros b Hb. apply list_elem_of_lookup in Hb as [i Hb]. apply (Forall2_lookup_r _ _ _ _ _ Hl) in Hb as (r & Hr & Hrb).
  apply list_elem_of_lookup_2 in Hr. destruct (Hrefs r Hr) as (Hra & Hlo & Hhi & [info Hi]). rewrite Hi in Hrb. injection Hrb as <-.
  destruct (co_recent d Hc r info Hi) as (Href & _). rewrite <-Href in Hra, Hlo, Hhi. split_and!; [done..|].
  apply view_of_cached; [done|by rewrite Href, Hi].
Qed.

(** A block above what the peer says it has accepted. *)
Definition unseen (rounds : list Round) (r : BlockRef) : Prop := ∃ h, rounds !! ref_author r = Some h ∧ h < ref_round r.

Lemma unaccepted_spec rounds refs :
  (∀ r, r ∈ refs → (ref_author r < length rounds)%nat) →
  ∃ l, unaccepted rounds refs = Ok l ∧ ∀ r, r ∈ l → r ∈ refs ∧ unseen rounds r.
Proof.
  intros Hval. apply for_each_total; [set_solver|]. intros acc r Hr Hacc.
  destruct (lookup_lt_is_Some_2 _ _ (Hval r Hr)) as [h Hh]. unfold vec_get. rewrite Hh. cbn [expect obind].
  eexists. split; [done|]. destruct (N.ltb_spec h (ref_round r)); [|done].
  intros x [Hx| ->%list_elem_of_singleton]%elem_of_app; [by apply Hacc|]. split; [done|by exists h].
Qed.

(** A random choice of [n] elements. *)
Definition is_choice (choose : list BlockRef → nat → list BlockRef) : Prop :=
  ∀ l n, (n ≤ length l)%nat → length (choose l n) = n ∧ ∀ r, r ∈ choose l n → r ∈ l.

(** The part of a response that follows the requested blocks. *)
Record response_ok d rounds limit (asked response : list VerifiedBlock) : Prop := {
  rs_limit : (length response ≤ limit)%nat;
  rs_asked b : b ∈ asked → b ∈ response;
  rs_extra b : b ∈ response → b ∈ asked ∨ view d !! reference b = Some b ∧ unseen rounds (reference b);
}.

Lemma fetch_breadth_first_spec choose d asked rounds limit :
  is_choice choose → dag_ok d → length rounds = committee_size (ds_committee d) → (length asked ≤ limit)%nat →
  (∀ b r, b ∈ asked → r ∈ ancestors b → (ref_author r < committee_size (ds_committee d))%nat) →
  ∃ response, fetch_breadth_first choose d asked rounds limit = Ok response ∧ response_ok d rounds limit asked response.
Proof.
  intros Hch Hok Hlen Hlim Hanc. unfold fetch_breadth_first.
  destruct (unaccepted_spec rounds (concat (ancestors <$> asked))) as (l & -> & Hl).
  { intros r (ls & (b & -> & Hb)%list_elem_of_fmap & Hr)%elem_of_concat. rewrite Hlen. by apply (Hanc b). }
  cbn [obind]. set (missing := bset_iter _). set (sel := (limit - length asked)%nat). set (chosen := if (_ <? _)%nat then _ else _).
  assert (Hchosen : (length chosen ≤ sel)%nat ∧ ∀ r, r ∈ chosen → r ∈ missing).
  { subst chosen. destruct (Nat.ltb_spec sel (length missing)) as [Hlt|Hge]; [|done].
    destruct (Hch missing sel ltac:(lia)) as [-> ?]. done. }
  destruct Hchosen as [Hn Hsub]. destruct (get_blocks_stored d chosen Hok) as (found & -> & Hf). cbn [obind]. eexists. split; [done|].
  rewrite Hf. split.
  - rewrite length_app. pose proof (length_stored d chosen). lia.
  - intros b Hb. apply elem_of_app. by left.
  - intros b [Hb|(r & Hr & Hv)%elem_of_stored]%elem_of_app; [by left|right].
    pose proof (view_reference d r b Hok Hv) as Href. rewrite Href. split; [done|].
    apply Hsub, elem_of_bset_iter, elem_of_list_to_set, Hl in Hr. tauto.
Qed.

Lemma lowest_missing_spec blocks : ∀ a r, lowest_missing_rounds blocks !! a = Some r → ∃ b, b ∈ blocks ∧ author b = a ∧ round b = r.
Proof.
  unfold lowest_missing_rounds. induction blocks as [|b blocks IH] using rev_ind; intros a r; [cbn [foldl]; by rewrite lookup_empty|].
  rewrite foldl_snoc. intros [[<- Hr]|[_ Hr]]%lookup_insert_Some.
  - destruct (foldl _ ∅ blocks !! author b) as [r'|] eqn:Ho; cbn in Hr.
    + apply IH in Ho as (b' & Hb' & Ha & <-). destruct (N.min_spec (round b') (round b)) as [[_ E]|[_ E]]; rewrite E in Hr.
      * exists b'. split_and!; [set_solver|done|done].
      * exists b. split_and!; [set_solver|done|done].
    + rewrite N.min_id in Hr. exists b. split_and!; [set_solver|done|done].
  - apply IH in Hr as (b' & Hb' & ? & ?). exists b'. split_and!; [set_solver|done|done].
Qed.

Lemma fetch_depth_first_spec d rounds asked lowest :
  dag_ok d → length rounds = committee_size (ds_committee d) →
  (∀ a r, (a, r) ∈ lowest → (a < committee_size (ds_committee d))%nat ∧ r ≤ u32_max) →
  ∀ blocks, response_ok d rounds (max_blocks_per_sync params) asked blocks →
  ∃ response, fetch_depth_first params d rounds blocks lowest = Ok response ∧
    response_ok d rounds (max_blocks_per_sync params) asked response.
Proof.
  intros Hok Hlen. induction lowest as [|[a low] lowest IH]; intros Hlow blocks Hr; cbn [fetch_depth_first]; [by exists blocks|].
  destruct (Hlow a low ltac:(by left)) as [Ha Hu].
  assert (Hlow' : ∀ a r, (a, r) ∈ lowest → (a < committee_size (ds_committee d))%nat ∧ r ≤ u32_max) by (intros ???; apply Hlow; by right).
  destruct (lookup_lt_is_Some_2 rounds a) as [h Hh]; [lia|]. unfold vec_get. rewrite Hh. cbn [expect obind].
  destruct (N.leb_spec low h) as [Hle|Hlt]; [by apply IH|].
  assert (Hadd : u32_add h 1 = h + 1) by (apply u32_add_small; width_lia). rewrite Hadd.
  destruct (get_cached_blocks_in_range_spec d a (h + 1) low (max_blocks_per_sync params - length blocks) Hok Ha) as (more & -> & Hmore & Hin).
  cbn [obind]. destruct Hr as [Hlim Hasked Hextra].
  assert (Hnew : response_ok d rounds (max_blocks_per_sync params) asked (blocks ++ more)).
  { split.
    - rewrite length_app. lia.
    - intros b Hb. apply elem_of_app. left. by apply Hasked.
    - intros b [Hb|Hb]%elem_of_app; [by apply Hextra|right]. destruct (Hin b Hb) as (<- & ? & ? & ?). split; [done|].
      exists h. split; [done|]. change (h < round b). lia. }
  destruct (Nat.leb_spec (max_blocks_per_sync params) (length (blocks ++ more))) as [_|Hless].
  - rewrite take_ge by apply (rs_limit _ _ _ _ _ Hnew). by eexists.
  - by apply IH.
Qed.

Lemma validate_refs_ok refs :
  validate_refs ctx refs = None ↔ ∀ r, r ∈ refs → (ref_author r < committee_size c)%nat ∧ ref_round r ≠ GENESIS_ROUND.
Proof.
  induction refs as [|r refs IH]; cbn [validate_refs]; [split; [set_solver|done]|]. unfold is_valid_index.
  destruct (Nat.ltb_spec (ref_author r) (committee_size c)) as [Ha|Ha], (N.eqb_spec (ref_round r) GENESIS_ROUND) as [Hr|Hr]; cbn [negb].
  1,3,4: split; [done|]; intros Hall; destruct (Hall r ltac:(by left)); (done || lia).
  rewrite IH. split; [|intros Hall x Hx; apply Hall; by right]. intros Hall x [->|Hx]%elem_of_cons; auto.
Qed.
Lemma view_round_u32 d r b : dag_ok d → view d !! r = Some b → ref_round r ≤ u32_max.
Proof.
  intros Hok [Hg|[(i & Hi & ->)%fmap_Some|Hst]]%lookup_view; [..|done].
  - destruct (dok_genesis d Hok r b Hg) as (_ & -> & _). done.
  - destruct (dok_recent d Hok r i Hi) as (_ & _ & [? _] & _). done.
  - destruct (store_ok_key _ _ _ (dok_store d Hok) Hst) as [_ [? _]]. done.
Qed.

(** The peer may ask this: the rounds are of the committee, the references of the
    committee and above genesis. *)
Definition fair_request (refs : list BlockRef) (rounds : list Round) : Prop :=
  (rounds = [] ∨ length rounds = committee_size c) ∧
  ∀ r, r ∈ take (max_response_num_blocks params rounds) refs → (ref_author r < committee_size c)%nat ∧ ref_round r ≠ GENESIS_ROUND.

(** The ancestors of the blocks of the DAG are of the committee. *)
Definition ancestors_valid d : Prop :=
  ∀ r b x, view d !! r = Some b → x ∈ ancestors b → (ref_author x < committee_size (ds_committee d))%nat.

(** The response to a request for missing blocks. *)
Lemma sync_response choose d refs rounds (breadth_first : bool) :
  dag_ok d → ds_committee d = c → ancestors_valid d → is_choice choose → length rounds = committee_size c →
  let asked := take (max_blocks_per_sync params) refs in
  validate_refs ctx asked = None →
  ∃ found response, get_blocks d (dedup (sort_by ord_leb asked)) = Ok found ∧
    (if breadth_first then fetch_breadth_first choose d (omap id found) rounds (max_blocks_per_sync params)
     else fetch_depth_first params d rounds (omap id found) (btree_iter (lowest_missing_rounds (omap id found)))) = Ok response ∧
    response_ok d rounds (max_blocks_per_sync params) (stored_blocks d asked) response.
Proof.
  intros Hok Hcm Hanc Hch Hlen asked Hv. set (sorted := dedup _).
  destruct (get_blocks_stored d sorted Hok) as (found & -> & Hf). exists found. rewrite Hf. set (blocks := stored_blocks d sorted).
  assert (Hblocks : ∀ b, b ∈ blocks ↔ b ∈ stored_blocks d asked).
  { intros b. unfold blocks. rewrite !elem_of_stored. apply exist_proper. intros r. unfold sorted. by rewrite elem_of_dedup, sort_by_perm. }
  assert (Hla : (length blocks ≤ max_blocks_per_sync params)%nat).
  { pose proof (length_stored d sorted). pose proof (length_dedup (sort_by ord_leb asked)) as Hd.
    rewrite (Permutation_length (sort_by_perm _ _)) in Hd. unfold asked in Hd at 2. rewrite length_take in Hd. unfold blocks, sorted in *. lia. }
  assert (Hstored : ∀ b, b ∈ blocks → view d !! reference b = Some b ∧ reference b ∈ asked).
  { intros b Hb. apply Hblocks, elem_of_stored in Hb as (r & Hin & Hr). by rewrite (view_reference d r b Hok Hr). }
  rewrite <-Hcm in Hlen.
  assert (Hres : ∃ response, (if breadth_first then fetch_breadth_first choose d blocks rounds (max_blocks_per_sync params)
    else fetch_depth_first params d rounds blocks (btree_iter (lowest_missing_rounds blocks))) = Ok response ∧
    response_ok d rounds (max_blocks_per_sync params) blocks response).
  { destruct breadth_first.
    - apply fetch_breadth_first_spec; try done. intros b r Hb Hr. destruct (Hstored b Hb). by eapply Hanc.
    - apply fetch_depth_first_spec; [done|done| |by split; [|done|left]].
      intros a r (b & Hb & <- & <-)%elem_of_btree_iter%lowest_missing_spec. destruct (Hstored b Hb) as [Hvw Hin].
      split; [|by apply (view_round_u32 d (reference b) b Hok)]. rewrite Hcm. by destruct (proj1 (validate_refs_ok _) Hv _ Hin). }
  destruct Hres as (response & -> & [H1 H2 H3]). exists response. split; [done|]. split; [done|].
  split; [done|intros b Hb; by apply H2, Hblocks|]. intros b Hb. rewrite <-Hblocks. by apply H3.
Qed.

(** C30 (bounds): The handler for blocks never panics, and it answers exactly the requests
    that are fair.  The answer is no longer than the limit for its kind of request, has
    every block of the DAG among the first requested ones up to that limit, and besides
    them only blocks of the DAG that are above what the peer says it has accepted of their
    author, and none at all when the peer syncs commits. *)
Theorem fetch_blocks_response choose s refs rounds breadth_first :
  dag_ok (sv_dag s) → ds_committee (sv_dag s) = c → ancestors_valid (sv_dag s) → is_choice choose →
  ∃ res, handle_fetch_blocks ctx params choose s refs rounds breadth_first = Ok res ∧
    match res with
    | inl _ => ¬ fair_request refs rounds
    | inr bytes => fair_request refs rounds ∧ ∃ response, bytes = vb_serialized <$> response ∧
        let limit := max_response_num_blocks params rounds in
        let asked := stored_blocks (sv_dag s) (take limit refs) in
        (length response ≤ limit)%nat ∧ (∀ b, b ∈ asked → b ∈ response) ∧
        (∀ b, b ∈ response → b ∈ asked ∨ rounds ≠ [] ∧ view (sv_dag s) !! reference b = Some b ∧ unseen rounds (reference b))
    end.
Proof.
  intros Hok Hcm Hanc Hch. set (d := sv_dag s) in *. unfold handle_fetch_blocks. fold d. set (limit := max_response_num_blocks params rounds).
  destruct (bool_decide_reflect (rounds = [])) as [He|Hne]; cbn [negb andb].
  - destruct (validate_refs ctx (take limit refs)) as [e|] eqn:Hv.
    { eexists. split; [done|]. intros [_ Hfair]. apply validate_refs_ok in Hfair. fold limit in Hfair. congruence. }
    destruct (get_blocks_stored d (take limit refs) Hok) as (found & -> & Hf). cbn [obind]. eexists. split; [done|].
    split; [split; [by left|]; by apply validate_refs_ok|]. eexists. split; [done|]. rewrite Hf. cbn zeta. split_and!; [|done|by left].
    pose proof (length_stored d (take limit refs)). rewrite length_take in *. lia.
  - destruct (Nat.eqb_spec (length rounds) (committee_size c)) as [Hlen|Hlen]; cbn [negb andb].
    2: { eexists. split; [done|]. by intros [[?|?] _]. }
    destruct (validate_refs ctx (take limit refs)) as [e|] eqn:Hv.
    { eexists. split; [done|]. intros [_ Hfair]. apply validate_refs_ok in Hfair. fold limit in Hfair. congruence. }
    assert (Hlimit : limit = max_blocks_per_sync params) by (subst limit; by destruct rounds).
    destruct (sync_response choose d refs rounds breadth_first Hok Hcm Hanc Hch Hlen) as (found & response & Hf & Hr & Hresp); [by rewrite <-Hlimit|].
    rewrite <-Hlimit in Hf, Hr, Hresp. rewrite Hf. cbn [obind]. rewrite Hr. cbn [obind]. destruct Hresp as [H1 H2 H3]. eexists. split; [done|].
    split; [split; [by right|]; by apply validate_refs_ok|]. exists response. split; [done|]. cbn zeta. fold limit.
    split_and!; [done|done|]. intros b Hb. destruct (H3 b Hb); tauto.
Qed.
End served.

(** ** The latest block of an authority *)

Section latest.
Context {S D : Type} `{CoreThreadDispatcher S D, !StoreLaws S} (dec : Decoder) (ctx : Context).
Implicit Types s : AuthorityService D.
Abbreviation c := (committee ctx).

(** Every block of the DAG has an own one of its author in memory that is not below it. *)
Lemma view_below_cached (d : DagState S) r b :
  dag_ok d → view d !! r = Some b → 0 < ref_round r →
  ∃ l, is_Some (recent_blocks d !! l) ∧ ref_author l = ref_author r ∧ ref_round r ≤ ref_round l.
Proof.
  intros Hok [Hg|[(i & Hi & ->)%fmap_Some|Hst]]%lookup_view Hr; [..|done].
  - destruct (dok_genesis d Hok r b Hg) as (_ & H1 & _). lia.
  - exists r. split; [by eexists|done].
  - by eapply dok_top.
Qed.

(** The service holds a block of [a] of the given round, and its blocks are what was
    received. *)
Record holds_block s (a : AuthorityIndex) (round : Round) : Prop := {
  hb_dag : dag_ok (sv_dag s);
  hb_committee : ds_committee (sv_dag s) = c;
  hb_decodes r b : view (sv_dag s) !! r = Some b → 0 < ref_round r → block_from_bytes dec (vb_serialized b) = Some (vb_block b);
  hb_held : ∃ r, is_Some (view (sv_dag s) !! r) ∧ ref_author r = a ∧ ref_round r = round;
}.

Lemma latest_block_served s peer a r :
  (a < committee_size c)%nat → 0 < r → holds_block s a r →
  ∃ b, handle_fetch_latest_blocks ctx s peer [a] = Return [vb_serialized b] ∧
    block_from_bytes dec (vb_serialized b) = Some (vb_block b) ∧ r ≤ round b.
Proof.
  intros Ha Hr [Hok Hcm Hdec (x & [b Hb] & Hxa & Hxr)]. unfold handle_fetch_latest_blocks, validate_authorities, is_valid_index.
  destruct (Nat.ltb_spec (committee_size c) (length [a])) as [Hlt|_]; [cbn in Hlt; lia|].
  rewrite (proj2 (Nat.ltb_lt _ _) Ha). cbn [map_each].
  destruct (get_last_block_spec (sv_dag s) a Hok) as (l & -> & Hla & Hlv & Hmax); [by rewrite Hcm|]. cbn [obind].
  destruct (view_below_cached (sv_dag s) x b Hok Hb) as (y & Hy & Hya & Hxy); [lia|].
  specialize (Hmax y Hy ltac:(congruence)). exists l. rewrite filter_cons_True by (unfold GENESIS_ROUND; lia).
  rewrite filter_nil. split; [done|]. split; [|lia]. apply (Hdec (reference l)); [done|]. change (0 < round l). lia.
Qed.
End latest.

(** ** Recovery of a validator that lost its state, with its peers *)

Section amnesia.
Context {S : Type} `{Store S} {S2 D : Type} `{CoreThreadDispatcher S2 D, !StoreLaws S2}.
Context (ck : Crypto) (cd : Codec) (dec : Decoder) (rng : Rand) (v : SignedBlockVerifier).
Context (ctx : Context) (params : CoreParameters) (signer : KeyPair ck).
Context (decide_fuel : DagState S → nat) (commit_fuel : Core S → nat).
#[local] Instance own_dispatcher : CoreThreadDispatcher S (CoreThread S) :=
  channel_dispatcher ck cd rng ctx params signer decide_fuel commit_fuel.
Abbreviation step := (thread_step ck cd rng ctx params signer decide_fuel commit_fuel).
Abbreviation own := (own_index ctx).

(** The answer of a peer that holds an own block of round [r]. *)
Definition answered_by_holder (r : Round) (blocks : list Bytes) : Prop :=
  ∃ (peer_ctx : Context) (peer : AuthorityService D), committee peer_ctx = committee ctx ∧
    holds_block dec peer_ctx peer own r ∧ handle_fetch_latest_blocks peer_ctx peer own [own] = Return blocks.

Lemma holder_names_block a r blocks own_blocks :
  committee_ok (committee (bv_context v)) → fits_in_memory dec → (own < committee_size (committee ctx))%nat → 0 < r →
  answered_by_holder r blocks → process_own_blocks ck cd dec v ctx a blocks = Ok (inr own_blocks) →
  ∃ b, b ∈ own_blocks ∧ r ≤ round b.
Proof.
  intros Hc Hfit Hown Hr (pctx & peer & Hcm & Hhold & Hans) Hp.
  destruct (latest_block_served dec pctx peer own own r) as (b & Hserved & Hdec & Hle); [by rewrite Hcm|done|done|].
  rewrite Hserved in Hans. injection Hans as <-.
  apply (process_own_sound ck cd dec v ctx Hc Hfit) in Hp as [(x & l & (sb & Hsb & _ & ->) & _ & ->)%Forall2_cons_inv_l _].
  eexists. split; [by left|]. assert (sb = vb_block b) as -> by congruence. done.
Qed.

(** C9 (safety): A validator that starts without its state does not propose for a round
    twice.  Suppose a quorum of correct validators holds its block of round [r] when they
    answer through their handler.  If the task that asks the peers ends with the round [h],
    then whatever the thread of the core did before it saw that round and does after it,
    every block it proposes is above [r]. *)
Theorem no_double_proposal_after_amnesia (s : Synchronizer (CoreThread S)) attempts s' h Q r env t0 t1 t eb :
  committee_ok (committee ctx) → committee_ok (committee (bv_context v)) → fits_in_memory dec →
  (1 < committee_size (committee ctx))%nat → (own < committee_size (committee ctx))%nat → 0 < r →
  (∀ results, results ∈ attempts → results_ok ctx results) →
  fetch_own_last_block (D := CoreThread S) ck cd dec v ctx s attempts = Ok (s', Some h) →
  quorum_threshold (committee ctx) ≤ set_stake (committee ctx) Q →
  (∀ results a blocks, results ∈ attempts → a ∈ Q → (a, inr blocks) ∈ results → answered_by_holder r blocks) →
  last_known_proposed_round (ct_core (core_dispatcher s)) = None → proposals (core_events (ct_core (core_dispatcher s))) = [] →
  rtc step (core_dispatcher s') t0 → running t0 = true → watched_last_known_proposed_round t0 = Some h →
  on_last_known_proposed_round ck cd rng ctx params signer decide_fuel commit_fuel env t0 = Ok t1 → rtc step t1 t →
  eb ∈ proposals (core_events (ct_core t)) → r < round (eb_block eb).
Proof.
  intros Hc Hcv Hfit Hsize Hown Hr Hres Hfetch HQ Hhonest. 
  apply (fetched_round_respected ck cd dec rng v ctx params signer decide_fuel commit_fuel s attempts s' h Q r); try done.
  intros results a blocks own_blocks Hin Ha Hans Hp. eapply holder_names_block; try done. by eapply Hhonest.
Qed.
End amnesia.

(** ** Witnesses

    Authority 3 holds the blocks of the authorities 0, 1 and 2 of round 1, and two commits. *)

#[local] Instance dispatcher4 : CoreThreadDispatcher Inner (CoreThread Inner) :=
  channel_dispatcher toy_crypto test_codec first_rand context4 params4 tt decide_fuel4 commit_fuel4.
#[local] Instance dispatcher4_laws : DispatcherLaws Inner (CoreThread Inner) :=
  channel_dispatcher_laws toy_crypto test_codec first_rand context4 params4 tt decide_fuel4 commit_fuel4.

Definition peer_context4 : Context := mkContext 0 3 committee4 500 test_protocol_config.
Definition peer_store4 : Inner := mem_write mem_store_new (mkWriteBatch (voted_by <$> [0; 1; 2]) [trusted1; trusted2] [] []).
Definition peer_init4 : DagState Inner :=
  of_outcome (dag_state_init test_codec 0 peer_context4 peer_store4) (empty_dag peer_context4).
Definition peer_dag4 : DagState Inner :=
  of_outcome (for_each (recover_authority 0) peer_init4 (seq 0 4)) (empty_dag peer_context4).
Definition peer4 : AuthorityService (CoreThread Inner) :=
  authority_service_new peer_context4 (mkCoreThread (set_dag peer_dag4 core4) true None None (replicate 4 0))
    (commit_vote_monitor_new peer_context4) None (Some []).

Lemma peer_store4_blocks : map_Forall (λ r b, 0 < ref_round r ∧ (ref_author r < 4)%nat) (in_blocks peer_store4).
Proof. apply (bool_decide_unpack _). vm_compute. exact I. Qed.

Lemma peer_store4_ok : mem_ok peer_store4.
Proof.
  apply mem_write_spec; [apply mem_ok_new|]. intros b Hb.
  assert (Hall : Forall (λ b, ref_round (reference b) ≤ u32_max ∧ ref_digest (reference b) ≤ DIGEST_MAX) (voted_by <$> [0; 1; 2]))
    by (apply (bool_decide_unpack _); vm_compute; exact I).
  rewrite Forall_forall in Hall. by apply Hall.
Qed.

Lemma peer_dag4_ok : dag_ok peer_dag4 ∧ ds_context peer_dag4 = peer_context4 ∧ store peer_dag4 = peer_store4.
Proof.
  assert (Hinit : dag_state_init test_codec 0 peer_context4 peer_store4 = Ok peer_init4) by (vm_compute; reflexivity).
  destruct (dag_state_init_recovering test_codec 0 peer_context4 peer_store4 peer_init4 Hinit) as (Hrec & Hctx & Hst).
  { apply committee4_ok. } { vm_compute. lia. } { vm_compute. done. } { apply peer_store4_ok. } { apply peer_store4_blocks. }
  destruct (recover_all 0 4 0 peer_init4 Hrec) as (s & Hrun & Hok & _ & _ & Hs & Hc); [unfold ds_committee; by rewrite Hctx|].
  unfold peer_dag4. rewrite Hrun. cbn [of_outcome]. split; [exact Hok|]. rewrite Hc, Hs. split; [exact Hctx|exact Hst].
Qed.
#[global] Opaque peer_store4 peer_init4 peer_dag4.

Lemma peer4_dag : sv_dag peer4 = peer_dag4.
Proof. reflexivity. Qed.

Lemma peer_view4 :
  map_Forall (λ r b, (0 < ref_round r → block_from_bytes sync_decoder (vb_serialized b) = Some (vb_block b)) ∧
    Forall (λ x, (ref_author x < 4)%nat) (ancestors b)) (view peer_dag4).
Proof. apply (bool_decide_unpack _). vm_compute. exact I. Qed.

Lemma peer4_holds : holds_block sync_decoder peer_context4 peer4 0%nat 1.
Proof.
  destruct peer_dag4_ok as (Hok & Hctx & _). split; rewrite ?peer4_dag; [exact Hok|exact (f_equal committee Hctx)| |].
  - intros r b Hb Hr. exact (proj1 (peer_view4 r b Hb) Hr).
  - exists (mkBlockRef 1 0%nat 1000). split; [apply (bool_decide_unpack _); vm_compute; exact I|split; reflexivity].
Qed.

Lemma no_double_proposal_after_amnesia_witness :
  ∃ t eb, proposing_thread4 = Ok t ∧ eb ∈ proposals (core_events (ct_core t)) ∧ 1 < round (eb_block eb).
Proof.
  destruct proposing_thread4_proposes as (t & eb & Hrun & Hp & _). exists t, eb. split; [exact Hrun|].
  assert (Hin : eb ∈ proposals (core_events (ct_core t))) by (rewrite Hp; apply list_elem_of_here). split; [exact Hin|].
  apply (no_double_proposal_after_amnesia (S2 := Inner) (D := CoreThread Inner) toy_crypto test_codec sync_decoder first_rand verifier4 context4
    params4 tt decide_fuel4 commit_fuel4 lost_sync4 [own_answers4] (set_dispatcher told_thread4 lost_sync4) 1 {[1%nat; 2%nat; 3%nat]} 1 env4
    told_thread4 t t eb committee4_ok committee4_ok sync_decoder_small).
  - vm_compute. lia.
  - vm_compute. lia.
  - lia.
  - intros results ->%list_elem_of_singleton. split; [apply (bool_decide_unpack _); vm_compute; exact I|].
    assert (Hall : Forall (λ a, (a < committee_size (committee context4))%nat) (answerers own_answers4)) by (apply (bool_decide_unpack _); vm_compute; exact I).
    intros a Ha. rewrite Forall_forall in Hall. by apply Hall.
  - assert (Hrounds : own_block_attempts toy_crypto test_codec sync_decoder verifier4 context4 [own_answers4] = Ok (Some 1)) by (vm_compute; reflexivity).
    unfold fetch_own_last_block. rewrite Hrounds. reflexivity.
  - vm_compute. discriminate.
  - intros results a blocks ->%list_elem_of_singleton _ Ha.
    assert (Hblocks : blocks = [[1; 0]]).
    { clear -Ha. unfold own_answers4 in Ha. rewrite !elem_of_cons, elem_of_nil in Ha.
      destruct Ha as [Ha|[Ha|[Ha|Ha]]]; [discriminate|injection Ha as _ ->; reflexivity..|destruct Ha]. }
    subst blocks. exists peer_context4, peer4. split; [reflexivity|]. split; [exact peer4_holds|]. vm_compute. reflexivity.
  - reflexivity.
  - vm_compute. reflexivity.
  - apply rtc_refl.
  - reflexivity.
  - reflexivity.
  - exact Hrun.
  - apply rtc_refl.
  - exact Hin.
Defined.

Definition wire4 : WireCodec :=
  mkWireCodec (λ r, Some [ref_round r; N.of_nat (ref_author r); ref_digest r])
    (λ bs, match bs with [r; a; x] => Some (mkBlockRef r (N.to_nat a) x) | _ => None end) (λ _, None) (λ _, None).

(** Authority 1 sends its block, with an excluded ancestor of round 0. *)
Definition sent4 : ExtendedSerializedBlock := mkExtendedSerializedBlock [1; 1] [[0; 2; 2]].
Definition received4 : outcome (AuthorityService (CoreThread Inner) * (ConsensusError + unit)) :=
  handle_send_block toy_crypto test_codec sync_decoder wire4 verifier4 peer_context4 fetch_params4 env4 peer4 1%nat sent4.


(** Authority 0, which has accepted nothing, asks for the block of authority 1 and an
    unknown one. *)
Lemma fetch_blocks_response_witness :
  let refs := [mkBlockRef 1 1%nat 1001; mkBlockRef 1 2%nat 7] in
  ∃ res, handle_fetch_blocks peer_context4 (mkFetchParameters 3 (mkSyncParameters 4 1 8 2)) (λ l n, take n l) peer4 refs [0; 0; 0; 0] true = Ok res ∧
    match res with inl _ => False | inr bytes => fair_request peer_context4 (mkFetchParameters 3 (mkSyncParameters 4 1 8 2)) refs [0; 0; 0; 0] end.
Proof.
  intros refs. destruct peer_dag4_ok as (Hok & Hctx & _).
  destruct (fetch_blocks_response peer_context4 (mkFetchParameters 3 (mkSyncParameters 4 1 8 2)) (λ l n, take n l) peer4 refs [0; 0; 0; 0] true)
    as (res & Hrun & Hres).
  - rewrite peer4_dag. exact Hok.
  - rewrite peer4_dag. exact (f_equal committee Hctx).
  - intros r b x Hb Hx. rewrite peer4_dag in *. unfold ds_committee. rewrite Hctx. destruct (peer_view4 r b Hb) as [_ Hall].
    rewrite Forall_forall in Hall. exact (Hall x Hx).
  - intros l n Hn. split; [rewrite length_take; lia|]. intros r (i & Hi%list_elem_of_lookup_2 & _)%elem_of_take. exact Hi.
  - exists res. split; [exact Hrun|]. destruct res as [e|bytes]; [|apply Hres]. apply Hres. split; [by right|].
    intros r Hr. change (r ∈ [mkBlockRef 1 1%nat 1001; mkBlockRef 1 2%nat 7]) in Hr. rewrite !elem_of_cons, elem_of_nil in Hr.
    destruct Hr as [->|[->|[]]]; (split; [vm_compute; lia|discriminate]).
Defined.
