(* ===== verification/CommitServing.v ===== *)
(** * Commits served to peers

    A validator that asks a correct peer for commits which the peer holds as certified gets
    them: the handlers of the authority service and the fetch of the commit syncer, put
    together.  What the handlers need from a store about commits and their votes is the
    class [StoreCommitLaws], which the in-memory store meets. *)

From S2P Require Import Prelude Collections Weighted Committee Types Fixtures Commits StakeAggregator.
From S2P Require Import ThresholdClock QuorumIndex CommitVoteMonitor LeaderScoring RoundTracker Storage DagState DagStateSpec.
From S2P Require Import DagRecovery Ancestor BaseCommitter Linearizer LeaderSchedule UniversalCommitter.
From S2P Require Import Errors BlockVerifier BlockManager TransactionCertifier TransactionCertifierSpec TransactionConsumer.
From S2P Require Import CommitSyncer CommitSyncerSpec Proposal ProposalSpec Core CoreSpec CoreThread CoreThreadSpec.
From S2P Require Import Synchronizer SynchronizerSpec BlockSyncSpec AuthorityService AuthorityServiceSpec.

Local Open Scope N_scope.

(** ** What a store promises about commits *)

(** The blocks to write have well-formed votes, and none has the reference of another. *)
Definition votes_writable {S} `{StoreLaws S} (s : S) (bs : list VerifiedBlock) : Prop :=
  ∀ b, b ∈ bs → (∀ vote, vote ∈ commit_votes b → cref_digest vote ≤ DIGEST_MAX) ∧
    ∀ b', b' ∈ bs ∨ store_blocks s !! reference b = Some b' → reference b' = reference b → b' = b.

Class StoreCommitLaws (S : Type) `{StoreLaws S} := {
  votes_ok : S → Prop;
  scan_commits_law s r : range_start r ≤ range_end r →
    scan_commits s r = Ok (btree_range (Included (mkCommitRef (range_start r) DIGEST_MIN))
      (Included (mkCommitRef (range_end r) DIGEST_MAX)) (store_commits s)).*2;
  read_commit_votes_law s i : votes_ok s → ∃ refs, read_commit_votes s i = Ok refs ∧
    ∀ r, r ∈ refs ↔ ∃ b, store_blocks s !! r = Some b ∧ i ∈ cref_index <$> commit_votes b;
  write_votes_law s batch s' : store_ok s → votes_ok s → votes_writable s (wb_blocks batch) →
    write s batch = Ok s' → votes_ok s';
}.

(** The index of votes of the in-memory store is exact. *)
Record mem_votes_ok (s : Inner) : Prop := {
  mv_index i x r : (i, x, r) ∈ in_commit_votes s ↔ ∃ b, in_blocks s !! r = Some b ∧ mkCommitRef i x ∈ commit_votes b;
  mv_digest r b vote : in_blocks s !! r = Some b → vote ∈ commit_votes b → cref_digest vote ≤ DIGEST_MAX;
}.

Lemma mem_votes_ok_new : mem_votes_ok mem_store_new.
Proof. split; cbn; [intros i x r; split; [set_solver|]; intros (b & Hb & _)|intros r b vote Hb]; by rewrite lookup_empty in Hb. Qed.

Lemma mem_votes_write_block s b :
  mem_votes_ok s → (∀ vote, vote ∈ commit_votes b → cref_digest vote ≤ DIGEST_MAX) →
  (∀ b', in_blocks s !! reference b = Some b' → b' = b) → mem_votes_ok (mem_write_block s b).
Proof.
  intros [Hidx Hdig] Hwf Hfresh. split; cbn.
  - intros i x r. rewrite elem_of_union, elem_of_list_to_set, list_elem_of_fmap, Hidx. split.
    + intros [([j y] & [= -> -> ->] & Hv)|(b' & Hb' & Hv)].
      * exists b. by rewrite lookup_insert_eq.
      * destruct (decide (reference b = r)) as [<-|Hne]; [|exists b'; by rewrite lookup_insert_ne].
        rewrite (Hfresh b' Hb') in Hv. exists b. by rewrite lookup_insert_eq.
    + intros (b' & [[<- <-]|[_ Hb']]%lookup_insert_Some & Hv); [left|right; by exists b']. by exists (mkCommitRef i x).
  - intros r b' vote [[_ <-]|[_ Hb']]%lookup_insert_Some Hv; [by apply Hwf|by apply (Hdig r b')].
Qed.

Lemma mem_votes_write_blocks bs : ∀ s,
  mem_votes_ok s →
  (∀ b, b ∈ bs → (∀ vote, vote ∈ commit_votes b → cref_digest vote ≤ DIGEST_MAX) ∧
     ∀ b', b' ∈ bs ∨ in_blocks s !! reference b = Some b' → reference b' = reference b → b' = b) →
  (∀ r b, in_blocks s !! r = Some b → reference b = r) → mem_votes_ok (foldl mem_write_block s bs).
Proof.
  induction bs as [|b bs IH]; intros s Hok Hwr Hkey; [done|]. cbn [foldl].
  destruct (Hwr b ltac:(by left)) as [Hdig Hfresh]. apply IH.
  - apply mem_votes_write_block; [done|done|]. intros b' Hb'. apply Hfresh; [by right|by apply Hkey].
  - intros b1 Hb1. destruct (Hwr b1 ltac:(by right)) as [Hd1 Hf1]. split; [done|]. intros b' [Hin|Hb']; [by apply Hf1; left; right|].
    cbn in Hb'. apply lookup_insert_Some in Hb' as [[_ <-]|[_ Hb']]; [by apply Hf1; left; left|by apply Hf1; right].
  - cbn. intros r b' [[<- <-]|[_ Hb']]%lookup_insert_Some; [done|by apply Hkey].
Qed.

Lemma keep_votes s s' : in_commit_votes s' = in_commit_votes s → in_blocks s' = in_blocks s → mem_votes_ok s → mem_votes_ok s'.
Proof. intros H1 H2 [Hi Hd]. split; rewrite ?H1, ?H2; done. Qed.

(** The keys of the index under one commit index. *)
Lemma vote_key_range (i j : CommitIndex) (x : CommitDigest) (r : BlockRef) :
  x ≤ DIGEST_MAX →
  above (Included (i, DIGEST_MIN, REF_MIN)) (j, x, r) = true ∧ below (Excluded (i, DIGEST_MAX + 1, REF_MIN)) (j, x, r) = true ↔ j = i.
Proof.
  intros Hx. cbn [above below]. unfold ord_leb, ord_ltb, DIGEST_MIN, REF_MIN.
  assert (Hr : cmp (mkBlockRef 0 0 0) r ≠ Gt).
  { destruct r as [rr ra rd]. unfold cmp, BlockRef_ord, BlockRef_tuple, cmp, ord_prod, cmp, ord_prod, cmp, ord_N, ord_nat. cbn.
    by destruct rr, ra, rd. }
  change ((match then_with (then_with (i ?= j) (0 ?= x)) (cmp (mkBlockRef 0 0 0) r) with Gt => false | _ => true end = true ∧
    match then_with (then_with (j ?= i) (x ?= DIGEST_MAX + 1)) (cmp r (mkBlockRef 0 0 0)) with Lt => true | _ => false end = true) ↔ j = i).
  destruct (N.compare_spec i j) as [->|Hij|Hij].
  - rewrite N.compare_refl. cbn [then_with]. split; [done|intros _]. split.
    + destruct (N.compare_spec 0 x) as [<-|?|?]; cbn; [by destruct (cmp _ r)|done|lia].
    + destruct (N.compare_spec x (DIGEST_MAX + 1)); cbn; [lia|done|lia].
  - split; [|lia]. intros [_ Hb]. destruct (N.compare_spec j i); cbn in Hb; [lia|lia|done].
  - split; [|lia]. intros [Hb _]. cbn in Hb. done.
Qed.

(** [MemStore] keeps these promises. *)
Definition mem_commit_laws (fsl : nat → nat) (Hfsl : fsl 1%nat = 1%nat) :
  @StoreCommitLaws Inner (mem_store fsl) (mem_store_laws fsl Hfsl).
Proof.
  refine (@Build_StoreCommitLaws Inner (mem_store fsl) (mem_store_laws fsl Hfsl) mem_votes_ok _ _ _).
  - intros s r Hr. cbn [scan_commits mem_store]. unfold mem_scan_commits.
    assert (Hle : ord_leb (mkCommitRef (range_start r) DIGEST_MIN) (mkCommitRef (range_end r) DIGEST_MAX) = true).
    { change (match then_with (range_start r ?= range_end r) (0 ?= DIGEST_MAX) with Gt => false | _ => true end = true).
      destruct (N.compare_spec (range_start r) (range_end r)); [reflexivity|reflexivity|lia]. }
    rewrite Hle. done.
  - intros s i [Hidx Hdig]. eexists. split; [done|]. intros r. unfold mem_read_commit_votes. rewrite list_elem_of_fmap. split.
    + intros ([[j x] r'] & -> & (Hin & Hr)%elem_of_bset_range). apply Hidx in Hin as (b & Hb & Hv).
      apply vote_key_range in Hr as ->; [|by apply (Hdig r' b (mkCommitRef j x))]. exists b. split; [done|].
      apply list_elem_of_fmap. by exists (mkCommitRef i x).
    + intros (b & Hb & ([j x] & -> & Hv)%list_elem_of_fmap). exists (j, x, r). split; [done|]. apply elem_of_bset_range.
      split; [apply Hidx; by exists b|]. apply vote_key_range; [by apply (Hdig r b (mkCommitRef j x))|done].
  - intros s batch s' Hok Hv Hwr [= <-]. unfold mem_write.
    assert (Hw : mem_votes_ok (foldl mem_write_block s (wb_blocks batch)))
      by (apply mem_votes_write_blocks; [done|exact Hwr|intros r b Hb; by apply (mem_key s Hok)]).
    set (s1 := foldl mem_write_block s (wb_blocks batch)) in *. apply (keep_votes s1); [..|done].
    + by rewrite !(foldl_keeps in_commit_votes).
    + by rewrite !(foldl_keeps in_blocks).
Defined.

#[export] Instance contiguous_commit_laws : StoreCommitLaws Inner := mem_commit_laws (λ n, n) eq_refl.

(** ** A window of the history *)

Lemma cref_leb i x j y : ord_leb (mkCommitRef i x) (mkCommitRef j y) = true ↔ i < j ∨ i = j ∧ x ≤ y.
Proof.
  change (match then_with (i ?= j) (x ?= y) with Gt => false | _ => true end = true ↔ i < j ∨ i = j ∧ x ≤ y).
  destruct (N.compare_spec i j), (N.compare_spec x y); cbn; split; try done; lia.
Qed.

(** The commits of a history with an index from [lo] to [hi]. *)
Definition window (h : list TrustedCommit) (lo hi : CommitIndex) : list TrustedCommit :=
  take (N.to_nat (hi + 1 - lo)) (drop (N.to_nat (lo - 1)) h).

Section window.
Context (cd : Codec) (dec : Decoder) (h : list TrustedCommit) (Hh : commit_history cd dec h).
Context (lo hi : CommitIndex) (Hlo : 1 ≤ lo).

Lemma window_lookup i x : window h lo hi !! i = Some x → commit_index (tcm_inner x) = lo + N.of_nat i ∧ h !! (N.to_nat (lo - 1) + i)%nat = Some x.
Proof using Hh Hlo.
  intros Hi. unfold window in Hi. apply lookup_take_Some in Hi as [Hi _]. rewrite lookup_drop in Hi. split; [|done].
  rewrite (ch_index _ _ _ Hh _ _ Hi). lia.
Qed.

Lemma elem_of_window x : x ∈ window h lo hi ↔ x ∈ h ∧ lo ≤ commit_index (tcm_inner x) ∧ commit_index (tcm_inner x) ≤ hi.
Proof using Hh Hlo.
  split.
  - intros [i Hi]%list_elem_of_lookup. destruct (window_lookup i x Hi) as [Hx Hj]. split; [by eapply list_elem_of_lookup_2|].
    unfold window in Hi. apply lookup_take_Some in Hi as [_ Hlt]. lia.
  - intros ([j Hj]%list_elem_of_lookup & H1 & H2). pose proof (ch_index _ _ _ Hh _ _ Hj) as Hi.
    apply (list_elem_of_lookup_2 _ (j - N.to_nat (lo - 1))). unfold window. apply lookup_take_Some. split; [|lia].
    rewrite lookup_drop. rewrite <-Hj. f_equal. lia.
Qed.

Lemma history_injective x y : x ∈ h → y ∈ h → commit_index (tcm_inner x) = commit_index (tcm_inner y) → x = y.
Proof using Hh.
  clear Hlo. intros [i Hi]%list_elem_of_lookup [j Hj]%list_elem_of_lookup Heq.
  rewrite (ch_index _ _ _ Hh _ _ Hi), (ch_index _ _ _ Hh _ _ Hj) in Heq. assert (i = j) as -> by lia. congruence.
Qed.

Lemma window_NoDup : NoDup (window h lo hi).
Proof using Hh Hlo.
  apply NoDup_alt. intros i j x Hi Hj. destruct (window_lookup i x Hi), (window_lookup j x Hj). lia.
Qed.

Definition commit_le (x y : TrustedCommit) : Prop := ord_leb (commit_reference x) (commit_reference y) = true.

Lemma window_sorted : StronglySorted commit_le (window h lo hi).
Proof using Hh Hlo.
  assert (Hall : ∀ l i, (∀ k x, l !! k = Some x → commit_index (tcm_inner x) = i + N.of_nat k) → StronglySorted commit_le l).
  { clear. induction l as [|x l IH]; intros i Hl; constructor.
    - apply (IH (i + 1)). intros k y Hk. rewrite (Hl (Datatypes.S k) y Hk). lia.
    - apply Forall_forall. intros y [k Hk]%list_elem_of_lookup. pose proof (Hl 0%nat x eq_refl) as Hx. pose proof (Hl (Datatypes.S k) y Hk) as Hy.
      apply cref_leb. lia. }
  apply (Hall _ lo). intros k x Hk. by apply window_lookup.
Qed.

(** The range of a map whose entries are the commits of the history. *)
Lemma range_window m :
  (∀ r x, m !! r = Some x ↔ x ∈ h ∧ r = commit_reference x) → (∀ x, x ∈ h → tcm_digest x ≤ DIGEST_MAX) →
  (btree_range (Included (mkCommitRef lo DIGEST_MIN)) (Included (mkCommitRef hi DIGEST_MAX)) m).*2 = window h lo hi.
Proof using Hh Hlo.
  intros Hm Hdig. set (l := btree_range _ _ m).
  assert (Hin : ∀ r x, (r, x) ∈ l ↔ r = commit_reference x ∧ x ∈ window h lo hi).
  { intros r x. unfold l. rewrite elem_of_btree_range, Hm, elem_of_window. split.
    - intros ((Hx & ->) & H1 & H2). cbn [above below] in *. apply cref_leb in H1, H2. split_and!; [done|done|lia|lia].
    - intros (-> & Hx & H1 & H2). specialize (Hdig x Hx). cbn [above below]. unfold commit_reference. rewrite !cref_leb.
      unfold DIGEST_MIN. split_and!; [done|done|lia|lia]. }
  assert (Hsorted : StronglySorted commit_le l.*2).
  { assert (Hs : StronglySorted (λ p q : CommitRef * TrustedCommit, ord_leb p.1 q.1) l) by (apply StronglySorted_filter, btree_iter_sorted).
    assert (Hk : ∀ p, p ∈ l → p.1 = commit_reference p.2) by (intros [r x] Hp; by apply Hin in Hp as [-> _]).
    clear -Hs Hk. induction Hs as [|p l _ IH Hp]; cbn; constructor; [by apply IH; intros q Hq; apply Hk; right|].
    rewrite Forall_forall in Hp. apply Forall_forall. intros y (q & -> & Hq)%list_elem_of_fmap. unfold commit_le.
    rewrite <-(Hk p ltac:(by left)), <-(Hk q ltac:(by right)). by apply Is_true_true, Hp. }
  apply (StronglySorted_unique_strong commit_le); [|exact Hsorted|apply window_sorted|].
  - intros x y ([r x'] & -> & Hx)%list_elem_of_fmap Hy H1 H2. apply Hin in Hx as [_ Hx]. cbn in *.
    apply elem_of_window in Hx as [Hx _]. apply elem_of_window in Hy as [Hy _]. apply history_injective; [done|done|].
    pose proof (ord_leb_antisym _ _ H1 H2) as Heq. by apply (f_equal cref_index) in Heq.
  - apply NoDup_Permutation; [|apply window_NoDup|].
    + apply (NoDup_fmap_1 commit_reference). rewrite <-list_fmap_compose.
      replace ((commit_reference ∘ snd) <$> l) with l.*1; [apply NoDup_btree_range|].
      apply list_fmap_ext. intros i [r x] Hp%list_elem_of_lookup_2. by apply Hin in Hp as [-> _].
    + intros x. rewrite list_elem_of_fmap. split; [by intros ([r y] & -> & [_ Hp]%Hin)|].
      intros Hx. exists (commit_reference x, x). split; [done|]. by apply Hin.
Qed.
End window.

(** ** A correct peer *)

Section serve.
Context {S D : Type} `{CoreThreadDispatcher S D, !StoreLaws S, !StoreCommitLaws S}.
Context (ck : Crypto) (cd : Codec) (dec : Decoder) (v : SignedBlockVerifier).
Context (ctx : Context) (params : FetchParameters) (choose : list BlockRef → nat → list BlockRef).
Abbreviation c := (committee (bv_context v)).
Implicit Types s : AuthorityService D.

(** The peer holds the history [h] of commits with their blocks; its blocks passed the
    verifier, and none of them votes against a commit of the history. *)
Record serves s (h : list TrustedCommit) : Prop := {
  sv_dag_ok : dag_ok (sv_dag s);
  sv_committee : committee ctx = c ∧ ds_committee (sv_dag s) = c;
  sv_votes : votes_ok (store (sv_dag s));
  sv_history : commit_history cd dec h;
  sv_commits r x : store_commits (store (sv_dag s)) !! r = Some x ↔ x ∈ h ∧ r = commit_reference x;
  sv_digests x : x ∈ h → tcm_digest x ≤ DIGEST_MAX;
  sv_agree r b vote x : store_blocks (store (sv_dag s)) !! r = Some b → vote ∈ commit_votes b → x ∈ h →
    cref_index vote = commit_index (tcm_inner x) → vote = commit_reference x;
  sv_accepted r b : store_blocks (store (sv_dag s)) !! r = Some b → accepted_vote ck cd dec v (vb_serialized b) b;
  sv_well_formed : commits_well_formed c h;
  sv_blocks r : r ∈ refs_of h → ref_round r ≠ GENESIS_ROUND ∧ ∃ b sb, view (sv_dag s) !! r = Some b ∧
    block_from_bytes dec (vb_serialized b) = Some sb ∧ b = new_verified cd sb (vb_serialized b);
}.

(** The authors of the stored blocks that vote for a commit index. *)
Definition stored_voters (st : S) (i : CommitIndex) : gset AuthorityIndex :=
  list_to_set (ref_author <$> (filter (λ p : BlockRef * VerifiedBlock, i ∈ cref_index <$> commit_votes p.2) (map_to_list (store_blocks st))).*1).

Lemma elem_of_stored_voters st i a :
  a ∈ stored_voters st i ↔ ∃ r b, store_blocks st !! r = Some b ∧ i ∈ cref_index <$> commit_votes b ∧ ref_author r = a.
Proof.
  unfold stored_voters. rewrite elem_of_list_to_set, list_elem_of_fmap. split.
  - intros (r & -> & ([r' b] & -> & [Hv Hb]%list_elem_of_filter)%list_elem_of_fmap). apply elem_of_map_to_list in Hb. by exists r', b.
  - intros (r & b & Hb & Hv & <-). exists r. split; [done|]. apply list_elem_of_fmap. exists (r, b). split; [done|].
    apply list_elem_of_filter. split; [done|]. by apply elem_of_map_to_list.
Qed.

Hypothesis Hc : committee_ok c.
Hypothesis Hbytes : ∀ bytes sb, block_from_bytes dec bytes = Some sb →
  sumN ((λ t : Bytes, N.of_nat (length t)) <$> (data <$> block_transactions (sb_inner sb))) < u64_modulus.

(** The votes that are read for an index have the authors above. *)
Lemma count_stored_votes s h i :
  serves s h → ∃ refs agg, read_commit_votes (store (sv_dag s)) i = Ok refs ∧
    for_each (λ agg r, omap_ok fst (add QuorumThreshold (committee ctx) agg (ref_author r))) aggregator_new refs = Ok agg ∧
    reached_threshold QuorumThreshold (committee ctx) agg = (quorum_threshold c <=? set_stake c (stored_voters (store (sv_dag s)) i)) ∧
    ∀ r, r ∈ refs ↔ ∃ b, store_blocks (store (sv_dag s)) !! r = Some b ∧ i ∈ cref_index <$> commit_votes b.
Proof using Hc.
  clear Hbytes. intros [Hok [Hctx Hcm] Hv _ _ _ _ _ _ _]. rewrite Hctx. destruct (read_commit_votes_law _ i Hv) as (refs & Hrefs & Hin).
  exists refs. assert (Hval : ∀ r, r ∈ refs → (ref_author r < committee_size c)%nat).
  { intros r (b & Hb & _)%Hin. rewrite <-Hcm. by apply (dok_stored _ Hok r b). }
  assert (Hcount : ∀ l agg, (∀ r, r ∈ l → (ref_author r < committee_size c)%nat) → agg_ok c agg →
    ∃ agg', for_each (λ agg r, omap_ok fst (add QuorumThreshold c agg (ref_author r))) agg l = Ok agg' ∧ agg_ok c agg' ∧
      agg_votes agg' = agg_votes agg ∪ list_to_set (ref_author <$> l)).
  { clear -Hc. induction l as [|r l IH]; intros agg Hl Hagg; cbn [for_each]; [exists agg; split_and!; [done|done|cbn; set_solver]|].
    destruct (add_spec QuorumThreshold c agg (ref_author r) Hc Hagg (Hl r ltac:(by left))) as (agg1 & -> & Hok1 & Hv1). cbn [omap_ok obind fst].
    destruct (IH agg1 ltac:(intros x Hx; apply Hl; by right) Hok1) as (agg' & -> & Hok' & Hv'). exists agg'. split_and!; [done|done|].
    rewrite Hv', Hv1. cbn. set_solver. }
  destruct (Hcount refs aggregator_new Hval (agg_ok_new c)) as (agg & -> & Hagg & Hvotes). exists agg. split_and!; [done|done| |done].
  unfold reached_threshold, is_threshold, quorum_threshold_impl, reached_quorum. rewrite (agg_stake_eq _ _ Hagg). do 2 f_equal.
  apply set_eq. intros a. rewrite Hvotes, elem_of_stored_voters, elem_of_union, elem_of_list_to_set, list_elem_of_fmap. cbn. split.
  - intros [?|(r & -> & (b & ? & ?)%Hin)]; [set_solver|by exists r, b].
  - intros (r & b & Hb & Hi & <-). right. exists r. split; [done|]. apply Hin. by exists b.
Qed.

(** A commit that the peer can show to be certified. *)
Definition certified_at s (x : TrustedCommit) : Prop :=
  quorum_threshold c ≤ set_stake c (stored_voters (store (sv_dag s)) (commit_index (tcm_inner x))).

(** The longest part of the commits that ends with a certified one. *)
Lemma certified_prefix_spec s h l :
  serves s h → ∃ pre refs, certified_prefix ctx (store (sv_dag s)) (reverse l) = Ok (pre, refs) ∧
    pre `prefix_of` l ∧ (∀ x, x ∈ l → certified_at s x → x ∈ pre) ∧
    match last pre with
    | None => refs = []
    | Some e => certified_at s e ∧
        ∀ r, r ∈ refs ↔ ∃ b, store_blocks (store (sv_dag s)) !! r = Some b ∧ commit_index (tcm_inner e) ∈ cref_index <$> commit_votes b
    end.
Proof using Hc.
  clear Hbytes. intros Hs. induction l as [|e l IH] using rev_ind.
  { exists [], []. split_and!; [done|done|set_solver|done]. }
  rewrite reverse_snoc. cbn [certified_prefix].
  destruct (count_stored_votes s h (commit_index (tcm_inner e)) Hs) as (refs & agg & -> & Hagg & Hq & Hin). cbn [obind]. rewrite Hagg. cbn [obind].
  rewrite Hq. destruct (N.leb_spec (quorum_threshold c) (set_stake c (stored_voters (store (sv_dag s)) (commit_index (tcm_inner e))))) as [Hle|Hlt].
  - exists (l ++ [e]), refs. rewrite <-reverse_snoc, reverse_involutive, last_snoc. split_and!; done.
  - destruct IH as (pre & refs' & -> & Hpre & Hall & Hlast). exists pre, refs'. split_and!; [done|by apply prefix_app_r| |done].
    intros x [Hx| ->%list_elem_of_singleton]%elem_of_app Hcert; [by apply Hall|]. unfold certified_at in Hcert. lia.
Qed.

(** The end of the range that is served. *)
Definition served_end (range : CommitRange) : CommitIndex :=
  N.min (range_end range) (range_start range + commit_sync_batch_size (commit_parameters params) - 1).

(** The request is for a range above genesis, and the indices of a batch fit in 32 bits. *)
Record askable (range : CommitRange) : Prop := {
  ask_start : 1 ≤ range_start range;
  ask_end : range_start range ≤ range_end range;
  ask_u32 : range_hi range ≤ u32_max;
  ask_batch : 1 ≤ commit_sync_batch_size (commit_parameters params);
  ask_fits : range_start range + commit_sync_batch_size (commit_parameters params) ≤ u32_max;
}.

Lemma scan_window s h range :
  serves s h → askable range →
  scan_commits (store (sv_dag s)) (commit_range_new (range_start range)
    (N.min (range_end range) (u32_sub (u32_add (range_start range) (commit_sync_batch_size (commit_parameters params))) 1))) =
  Ok (window h (range_start range) (served_end range)).
Proof using.
  clear Hc Hbytes. intros [Hok _ _ Hh Hst Hdig _ _ _ _] [H1 H2 H3 H4 H5].
  assert (Hsub : u32_sub (u32_add (range_start range) (commit_sync_batch_size (commit_parameters params))) 1 =
    range_start range + commit_sync_batch_size (commit_parameters params) - 1).
  { rewrite u32_add_small by width_lia. apply u32_sub_small; width_lia. }
  rewrite Hsub. fold (served_end range). set (r := commit_range_new _ _).
  assert (Hrs : range_start r = range_start range) by done.
  assert (Hre : range_end r = served_end range).
  { subst r. unfold range_end at 1, commit_range_new, served_end, saturating_sub, u32_saturating_add. cbn [range_hi]. lia. }
  rewrite scan_commits_law by (rewrite Hrs, Hre; unfold served_end; lia). rewrite Hrs, Hre. f_equal.
  by apply (range_window cd dec h Hh).
Qed.

Lemma prefix_elem {A} (l k : list A) x : l `prefix_of` k → x ∈ l → x ∈ k.
Proof using. clear Hc Hbytes. intros [r ->] Hx. apply elem_of_app. by left. Qed.

Lemma accepted_blocks s h refs :
  serves s h → Forall2 (accepted_vote ck cd dec v) (vb_serialized <$> omap (λ r, store_blocks (store (sv_dag s)) !! r) refs)
    (omap (λ r, store_blocks (store (sv_dag s)) !! r) refs).
Proof using.
  clear Hc Hbytes. intros Hs. apply Forall2_fmap_l, Forall_Forall2_diag, Forall_forall. intros b (r & _ & Hb)%list_elem_of_omap. by apply (sv_accepted s h Hs r).
Qed.

Lemma accepted_valid bytes b : accepted_vote ck cd dec v bytes b → valid_block ck v (vb_block b).
Proof using Hc Hbytes.
  intros (sb & rej & Hsb & Hv). destruct (verify_and_vote_answer ck cd dec v Hc Hbytes bytes sb Hsb) as [[e He]|(rej' & He & Hval)]; unfold Return in Hv; [congruence|].
  rewrite He in Hv. by injection Hv as <- _.
Qed.

(** The answer to a request for commits: a part of the history from the start of the range,
    with every certified commit up to the batch size, that passes the client's checks. *)
Lemma fetch_commits_served s h range :
  serves s h → askable range →
  ∃ commits blocks, handle_fetch_commits ctx params s range = Ok (commits, blocks) ∧
    commits `prefix_of` window h (range_start range) (served_end range) ∧
    (∀ x, x ∈ h → range_start range ≤ commit_index (tcm_inner x) → commit_index (tcm_inner x) ≤ served_end range →
       certified_at s x → x ∈ commits) ∧
    Forall2 (accepted_vote ck cd dec v) (vb_serialized <$> blocks) blocks ∧
    (commits ≠ [] → certified_response ck cd dec v range (tcm_serialized <$> commits) commits blocks).
Proof using Hc Hbytes.
  intros Hs Hask. unfold handle_fetch_commits. rewrite (scan_window s h range Hs Hask). cbn [obind].
  set (l := window _ _ _). destruct (certified_prefix_spec s h l Hs) as (pre & refs & -> & Hpre & Hall & Hlast). cbn [obind].
  rewrite read_blocks_law. cbn [obind]. rewrite omap_id_fmap. exists pre, (omap (λ r, store_blocks (store (sv_dag s)) !! r) refs).
  pose proof (sv_history s h Hs) as Hh. pose proof (ask_start _ Hask) as Hlo.
  assert (Hin : ∀ x, x ∈ pre → x ∈ h ∧ range_start range ≤ commit_index (tcm_inner x) ∧ commit_index (tcm_inner x) ≤ served_end range).
  { intros x Hx. apply (elem_of_window cd dec h Hh _ _ Hlo). by apply (prefix_elem pre l). }
  pose proof (accepted_blocks s h refs Hs) as Hacc. split_and!; [done|done| |done|].
  { intros x Hx H1 H2. apply Hall. apply (elem_of_window cd dec h Hh _ _ Hlo). done. }
  intros Hne. assert (Hlk : ∀ i x, pre !! i = Some x → l !! i = Some x) by (intros i x Hi; by eapply prefix_lookup_Some).
  split.
  - intros x Hx. rewrite head_lookup in Hx. apply Hlk, (window_lookup cd dec h Hh _ _ Hlo) in Hx as [-> _]. lia.
  - intros i x y Hx%Hlk Hy%Hlk. apply (window_lookup cd dec h Hh _ _ Hlo) in Hx as [_ Hx], Hy as [_ Hy].
    apply (ch_chain _ _ _ Hh _ x y Hx). by rewrite <-Nat.add_succ_r.
  - apply Forall_forall. intros x (_ & _ & Hx)%Hin. unfold served_end in Hx. lia.
  - apply Forall_forall. intros x [Hx _]%Hin. pose proof (ch_genuine _ _ _ Hh) as Hg. rewrite Forall_forall in Hg. by apply Hg.
  - done.
  - apply Forall_forall. intros b Hb. rewrite Forall2_fmap_l in Hacc. apply list_elem_of_lookup in Hb as [i Hi].
    eapply accepted_valid. by eapply (Forall2_lookup_lr _ _ _ _ _ _ Hacc).
  - destruct (last pre) as [e|] eqn:He; [|by apply last_None in He]. destruct Hlast as [Hcert Hrefs]. exists e. split; [done|].
    etrans; [exact Hcert|]. apply set_stake_mono. intros a (r & b & Hb & Hi & Ha)%elem_of_stored_voters.
    apply elem_of_commit_voters. exists b. split; [apply list_elem_of_omap; exists r; split; [apply Hrefs; by exists b|done]|].
    destruct (store_ok_key _ _ _ (dok_store _ (sv_dag_ok s h Hs)) Hb) as [Href _]. split; [by rewrite <-Ha, <-Href|].
    apply list_elem_of_fmap in Hi as (vote & Hidx & Hvote). assert (Heh : e ∈ h) by (apply Hin; rewrite last_lookup in He; by eapply list_elem_of_lookup_2).
    rewrite <-(sv_agree s h Hs r b vote e Hb Hvote Heh); done.
Qed.

Lemma chunk_length {A} fuel n : ∀ (l : list A) ch, ch ∈ chunks fuel n l → (length ch ≤ n)%nat.
Proof using.
  clear Hc Hbytes. induction fuel as [|fuel IH]; intros l ch; cbn [chunks]; [set_solver|]. destruct l as [|x l]; [set_solver|].
  intros [->|Hch]%elem_of_cons; [rewrite length_take; lia|by eapply IH].
Qed.

(** The peer's answer to a request for the blocks of commits; a panic breaks the
    connection. *)
Definition blocks_answer s (refs : list BlockRef) : ConsensusError + list Bytes :=
  match handle_fetch_blocks ctx params choose s refs [] false with Ok r => r | _ => inl Shutdown end.

Lemma served_blocks_match peer refs blocks :
  Forall2 (λ r b, reference b = r ∧ ∃ sb, block_from_bytes dec (vb_serialized b) = Some sb ∧ b = new_verified cd sb (vb_serialized b)) refs blocks →
  ∃ sbs, parse_blocks dec (vb_serialized <$> blocks) = inr sbs ∧ match_requested cd peer refs sbs (vb_serialized <$> blocks) = inr blocks.
Proof using.
  clear Hc Hbytes. induction 1 as [|r b refs blocks [Href (sb & Hsb & Hb)] _ (sbs & Hp & Hm)]; [by exists []|].
  exists (sb :: sbs). cbn. rewrite Hsb, Hp, Hm. split; [done|]. rewrite Hb in Href. unfold reference in Href. cbn in Href.
  rewrite decide_True by (by rewrite <-Href). by rewrite <-Hb.
Qed.

Lemma chunk_served s h peer refs :
  serves s h → (∀ r, r ∈ refs → r ∈ refs_of h) → (length refs ≤ max_blocks_per_fetch (commit_parameters params))%nat →
  ∃ blocks, fetch_chunk cd dec peer (blocks_answer s) refs = inr blocks.
Proof using.
  clear Hc Hbytes. intros Hs Hin Hlen. destruct (sv_committee s h Hs) as [Hctx _].
  assert (Hall : ∃ blocks, Forall2 (λ r b, view (sv_dag s) !! r = Some b) refs blocks).
  { apply Forall2_collect. intros r Hr. destruct (sv_blocks s h Hs r (Hin r Hr)) as (_ & b & _ & Hb & _). by exists b. }
  destruct Hall as [blocks Hall].
  assert (Hfound : omap id ((λ r, view (sv_dag s) !! r) <$> refs) = blocks).
  { rewrite omap_id_fmap. clear -Hall. induction Hall as [|r b refs blocks Hb _ IH]; [done|]. cbn. by rewrite Hb, IH. }
  assert (Hans : blocks_answer s refs = inr (vb_serialized <$> blocks)).
  { unfold blocks_answer, handle_fetch_blocks, max_response_num_blocks. cbn [bool_decide negb andb]. rewrite bool_decide_eq_true_2 by done. cbn [negb andb].
    rewrite take_ge by lia. rewrite (proj2 (validate_refs_ok ctx refs)).
    - rewrite get_blocks_view by apply (sv_dag_ok s h Hs). cbn [obind]. by rewrite Hfound.
    - intros r Hr. destruct (sv_blocks s h Hs r (Hin r Hr)) as (Hz & _). destruct (sv_well_formed s h Hs) as [_ Hau].
      rewrite Forall_forall in Hau. rewrite Hctx. split; [by apply Hau, Hin|done]. }
  unfold fetch_chunk. rewrite Hans. rewrite length_fmap, <-(Forall2_length _ _ _ Hall), Nat.eqb_refl. cbn [negb].
  destruct (served_blocks_match peer refs blocks) as (sbs & -> & ->); [|by exists blocks].
  apply Forall2_same_length_lookup. split; [by eapply Forall2_length|]. intros i r b Hr Hb.
  pose proof (Forall2_lookup_lr _ _ _ _ _ _ Hall Hr Hb) as Hv. split; [by apply (view_reference _ r b (sv_dag_ok s h Hs))|].
  destruct (sv_blocks s h Hs r) as (_ & b' & sb & Hb' & Hsb & Heq); [apply Hin; by eapply list_elem_of_lookup_2|].
  assert (b' = b) as -> by congruence. by exists sb.
Qed.

Lemma chunks_served s h peer requests : ∀ m,
  serves s h → (∀ q r, q ∈ requests → r ∈ q → r ∈ refs_of h) →
  (∀ q, q ∈ requests → (length q ≤ max_blocks_per_fetch (commit_parameters params))%nat) →
  ∃ out, fetch_chunks cd dec peer (blocks_answer s) m requests = inr out.
Proof using.
  clear Hc Hbytes. induction requests as [|q requests IH]; intros m Hs Hin Hlen; cbn [fetch_chunks]; [by eexists|].
  destruct (chunk_served s h peer q Hs) as [blocks ->]; [intros r Hr; by apply (Hin q r ltac:(by left))|by apply Hlen; left|].
  apply IH; [done|intros q' r Hq'; apply Hin; by right|intros q' Hq'; apply Hlen; by right].
Qed.

Lemma window_well_formed s h lo hi l : serves s h → l `prefix_of` window h lo hi → commits_well_formed c l ∧ ∀ r, r ∈ refs_of l → r ∈ refs_of h.
Proof using.
  clear Hc Hbytes. intros Hs [k Hk]. destruct (sv_well_formed s h Hs) as [Hnd Hau].
  set (d := N.to_nat (lo - 1)) in *. set (n := N.to_nat (hi + 1 - lo)).
  assert (Hsplit : h = take d h ++ l ++ (k ++ drop n (drop d h))).
  { rewrite (app_assoc l k), <-Hk. unfold window. fold d n. by rewrite !take_drop. }
  assert (Hrefs : refs_of h = refs_of (take d h) ++ refs_of l ++ refs_of (k ++ drop n (drop d h))).
  { rewrite Hsplit at 1. by rewrite !fmap_app, !concat_app. }
  rewrite Hrefs in Hnd, Hau. apply NoDup_app in Hnd as (_ & _ & Hnd). apply NoDup_app in Hnd as (Hnd & _ & _).
  rewrite !Forall_app in Hau. destruct Hau as (_ & Hau & _). split; [done|]. intros r Hr. rewrite Hrefs, !elem_of_app. tauto.
Qed.

(** C11 (liveness): A validator that asks a correct peer for certified commits gets them.  If
    the peer holds a commit of the range and the votes of a quorum for its index, within the
    batch size, and no stored block votes against the peer's commits, then its handlers
    answer without a panic, and the fetch succeeds on these answers: it returns a part of
    the peer's history from the start of the range, which includes the commit, each commit
    with its blocks. *)
Theorem fetch_from_correct_peer cp cs peer s h range x :
  serves s h → askable range → certifier_reachable v cs →
  max_blocks_per_fetch cp ≠ 0%nat → (max_blocks_per_fetch cp ≤ max_blocks_per_fetch (commit_parameters params))%nat →
  x ∈ h → range_start range ≤ commit_index (tcm_inner x) → commit_index (tcm_inner x) ≤ served_end range → certified_at s x →
  ∃ commits blocks cs' cc,
    handle_fetch_commits ctx params s range = Ok (commits, blocks) ∧
    fetch_once ck cd dec v (bv_context v) cp cs peer range (inr (tcm_serialized <$> commits, vb_serialized <$> blocks)) (blocks_answer s) =
      Ok (cs', inr cc) ∧
    cc_commit <$> certified_commits cc `prefix_of` window h (range_start range) (served_end range) ∧
    x ∈ cc_commit <$> certified_commits cc ∧
    Forall (λ y, reference <$> cc_blocks y = commit_blocks (tcm_inner (cc_commit y))) (certified_commits cc).
Proof using Hc Hbytes.
  intros Hs Hask Hcs Hmax Hlim Hx Hx1 Hx2 Hcert.
  destruct (fetch_commits_served s h range Hs Hask) as (commits & blocks & Hserved & Hpre & Hall & Hacc & Hresp).
  exists commits, blocks. specialize (Hall x Hx Hx1 Hx2 Hcert). specialize (Hresp ltac:(intros ->; by apply elem_of_nil in Hall)).
  destruct (verify_commits_sound ck cd dec v Hc Hbytes cs peer range (tcm_serialized <$> commits) (vb_serialized <$> blocks)
    (ask_u32 _ Hask) Hcs) as (cs1 & res & Hv & Hcs1 & _ & Hcomp).
  rewrite (Hcomp commits blocks Hresp eq_refl Hacc) in Hv.
  destruct (window_well_formed s h _ _ commits Hs Hpre) as [[Hnd Hau] Hrefs].
  unfold fetch_once. rewrite Hv. cbn [obind]. rewrite (proj2 (Nat.eqb_neq _ 0) Hmax). cbn [negb rassert obind].
  set (refs := sort_by _ _). assert (Hperm : refs ≡ₚ refs_of commits) by apply sort_by_perm.
  destruct (chunks_served s h peer (chunks (length refs) (max_blocks_per_fetch cp) refs) ∅ Hs) as [fetched Hf].
  { intros q r Hq Hr. apply Hrefs. rewrite <-Hperm. by eapply lookup_chunks. }
  { intros q Hq. apply chunk_length in Hq. lia. }
  rewrite Hf. apply fetch_chunks_spec in Hf as [Hok Hdom]; [|done]. rewrite chunks_concat in Hdom by done.
  destruct (assign_blocks_spec commits fetched [] Hok Hnd) as (m' & certified & -> & Hcc & Hblocks); [rewrite Hdom, Hperm; set_solver|].
  cbn [obind app]. destruct (register_blocks v Hc cs1 (concat (cc_blocks <$> certified)) Hcs1) as (cs2 & -> & _).
  { rewrite <-Hcc, <-refs_of_blocks, Forall_fmap in Hau by done. exact Hau. }
  cbn [obind]. exists cs2, (mkCertifiedCommits certified blocks). cbn [certified_commits]. rewrite Hcc. done.
Qed.
End serve.

(** ** Witness: authority 3 serves its two commits *)

#[local] Instance dispatcher4 : CoreThreadDispatcher Inner (CoreThread Inner) :=
  channel_dispatcher toy_crypto test_codec first_rand context4 params4 tt decide_fuel4 commit_fuel4.

Definition serve_params4 : FetchParameters := mkFetchParameters 3 (mkSyncParameters 4 5 8 2).

Lemma peer_blocks4 :
  map_Forall (λ r b, b ∈ voted_by <$> [0; 1; 2] ∧ commit_votes b = [commit_reference trusted2]) (in_blocks peer_store4).
Proof. apply (bool_decide_unpack _). vm_compute. exact I. Qed.

Lemma peer_commits4 : in_commits peer_store4 = <[commit_reference trusted2 := trusted2]> {[commit_reference trusted1 := trusted1]}.
Proof. vm_compute. reflexivity. Qed.

Lemma peer_commit_entries4 r x : in_commits peer_store4 !! r = Some x ↔ x ∈ [trusted1; trusted2] ∧ r = commit_reference x.
Proof.
  rewrite peer_commits4, lookup_insert_Some, lookup_singleton_Some, !elem_of_cons, elem_of_nil. split.
  - intros [[<- <-]|[_ [<- <-]]]; (split; [tauto|reflexivity]).
  - intros [[->|[->|[]]] ->]; [right; split; [vm_compute; discriminate|split; reflexivity]|left; split; reflexivity].
Qed.

Lemma peer_votes4 : mem_votes_ok peer_store4.
Proof.
  apply (write_votes_law (StoreCommitLaws := contiguous_commit_laws) mem_store_new
    (mkWriteBatch (voted_by <$> [0; 1; 2]) [trusted1; trusted2] [] []) peer_store4); [apply mem_ok_new|apply mem_votes_ok_new| |reflexivity].
  assert (Hall : Forall (λ b, Forall (λ vote, cref_digest vote ≤ DIGEST_MAX) (commit_votes b) ∧
    Forall (λ b', reference b' = reference b → b' = b) (voted_by <$> [0; 1; 2])) (voted_by <$> [0; 1; 2])) by (apply (bool_decide_unpack _); vm_compute; exact I).
  intros b Hb. rewrite Forall_forall in Hall. destruct (Hall b Hb) as [H1 H2]. rewrite Forall_forall in H1. rewrite Forall_forall in H2.
  split; [exact H1|]. intros b' [Hb'|Hb']; [by apply H2|]. cbn in Hb'. by rewrite lookup_empty in Hb'.
Qed.

Lemma peer_accepts4 b : b ∈ voted_by <$> [0; 1; 2] → accepted_vote toy_crypto test_codec sync_decoder verifier4 (vb_serialized b) b.
Proof.
  intros Hb. cbn [fmap list_fmap] in Hb. rewrite !elem_of_cons, elem_of_nil in Hb.
  destruct Hb as [->|[->|[->|[]]]]; (eexists _, _; split; [reflexivity|vm_compute; reflexivity]).
Qed.

Lemma peer_history_blocks4 :
  Forall (λ r, ref_round r ≠ GENESIS_ROUND ∧ ∃ b sb, view peer_dag4 !! r = Some b ∧
    block_from_bytes sync_decoder (vb_serialized b) = Some sb ∧ b = new_verified test_codec sb (vb_serialized b)) (refs_of [trusted1; trusted2]).
Proof.
  assert (Hall : Forall2 (λ r a, ref_round r ≠ GENESIS_ROUND ∧ view peer_dag4 !! r = Some (voted_by a))
    (refs_of [trusted1; trusted2]) [0; 1; 2]) by (apply (bool_decide_unpack _); vm_compute; exact I).
  apply Forall_forall. intros r [i Hi]%list_elem_of_lookup. destruct (Forall2_lookup_l _ _ _ _ _ Hall Hi) as (a & Ha & Hr & Hv).
  split; [exact Hr|]. exists (voted_by a), (vote_block (N.to_nat a)). split; [exact Hv|split; reflexivity].
Qed.

Lemma peer4_serves : serves toy_crypto test_codec sync_decoder verifier4 peer_context4 peer4 [trusted1; trusted2].
Proof.
  destruct peer_dag4_ok as (Hok & Hctx & Hst). split; change (sv_dag peer4) with peer_dag4; rewrite ?Hst.
  - exact Hok.
  - split; [reflexivity|exact (f_equal committee Hctx)].
  - exact peer_votes4.
  - exact test_history.
  - exact peer_commit_entries4.
  - intros x Hx. rewrite !elem_of_cons, elem_of_nil in Hx. destruct Hx as [->|[->|[]]]; vm_compute; discriminate.
  - intros r b vote x Hb Hv Hx Hi. destruct (peer_blocks4 r b Hb) as [_ Hvotes]. rewrite Hvotes in Hv. apply list_elem_of_singleton in Hv as ->.
    rewrite !elem_of_cons, elem_of_nil in Hx. destruct Hx as [->|[->|[]]]; [discriminate Hi|reflexivity].
  - intros r b Hb. apply peer_accepts4. exact (proj1 (peer_blocks4 r b Hb)).
  - split; [apply (bool_decide_unpack _); vm_compute; exact I|]. apply (bool_decide_unpack _). vm_compute. exact I.
  - intros r Hr. pose proof peer_history_blocks4 as Hall. rewrite Forall_forall in Hall. exact (Hall r Hr).
Qed.

Lemma fetch_from_correct_peer_witness :
  ∃ commits blocks cs' cc,
    handle_fetch_commits peer_context4 serve_params4 peer4 (mkCommitRange 1 3) = Ok (commits, blocks) ∧
    fetch_once toy_crypto test_codec sync_decoder verifier4 context4 (mkSyncParameters 4 5 8 2) certifier_state_new 3%nat (mkCommitRange 1 3)
      (inr (tcm_serialized <$> commits, vb_serialized <$> blocks)) (blocks_answer peer_context4 serve_params4 (λ l n, take n l) peer4) = Ok (cs', inr cc) ∧
    trusted2 ∈ cc_commit <$> certified_commits cc.
Proof.
  destruct (fetch_from_correct_peer toy_crypto test_codec sync_decoder verifier4 peer_context4 serve_params4 (λ l n, take n l) committee4_ok
    sync_decoder_small (mkSyncParameters 4 5 8 2) certifier_state_new 3%nat peer4 [trusted1; trusted2] (mkCommitRange 1 3) trusted2)
    as (commits & blocks & cs' & cc & H1 & H2 & _ & H3 & _).
  - exact peer4_serves.
  - split; vm_compute; discriminate.
  - apply certifier_new_reachable.
  - discriminate.
  - apply le_n.
  - right. left.
  - vm_compute. discriminate.
  - vm_compute. discriminate.
  - unfold certified_at. change (sv_dag peer4) with peer_dag4. destruct peer_dag4_ok as (_ & _ & ->). vm_compute. discriminate.
  - exists commits, blocks, cs', cc. split; [exact H1|]. split; [exact H2|exact H3].
Defined.
