(* ===== verification/EpochChange.v ===== *)
(** * The change of epochs ([metanode/src/epoch_change.rs], [epoch_change_hook.rs])

    Validators propose the next epoch, vote on proposals and move on when a quorum approves
    and enough commits or time have passed.  Proposals and votes travel in blocks; the hook
    takes them from received blocks and votes on valid proposals by itself.  Readings of the
    clock, the order in which a hash map is iterated and the environment variables are
    arguments; hashing and signatures are parameters.  Log messages are left out, except for
    the slices in them that can panic.  The theorems are in [EpochChangeSpec]. *)

From stdpp Require Import pretty.
From Stdlib Require Import Ascii ZArith.
From S2P Require Import Prelude Collections Weighted Committee Types Fixtures Commits StakeAggregator.
From S2P Require Import ThresholdClock QuorumIndex CommitVoteMonitor LeaderScoring RoundTracker Storage DagState DagStateSpec.
From S2P Require Import Errors BlockVerifier BlockManager TransactionCertifier CommitSyncer Core CoreThread Synchronizer AuthorityService.

Local Open Scope N_scope.

(** ** Text *)

Definition string_bytes (s : string) : Bytes := N_of_ascii <$> String.list_ascii_of_string s.

Definition hex_digit (n : N) : ascii :=
  match n with
  | 0 => "0" | 1 => "1" | 2 => "2" | 3 => "3" | 4 => "4" | 5 => "5" | 6 => "6" | 7 => "7"
  | 8 => "8" | 9 => "9" | 10 => "a" | 11 => "b" | 12 => "c" | 13 => "d" | 14 => "e" | _ => "f"
  end%char.

(** [hex::encode] *)
Fixpoint hex_encode (bytes : Bytes) : string :=
  match bytes with
  | [] => EmptyString
  | b :: rest => String (hex_digit (b `div` 16)) (String (hex_digit (b `mod` 16)) (hex_encode rest))
  end.

(** [&v[..8]] *)
Definition first8 (v : Bytes) : outcome Bytes :=
  if (length v <? 8)%nat then Panic "range end index 8 out of range for slice" else Ok (take 8 v).

Definition show_bool (b : bool) : string := if b then "true"%string else "false"%string.

(** ** Signed 64-bit integers *)

(** [x as i64] and [-] on [i64], which wrap. *)
Definition wrap_i64 (z : Z) : Z := ((z + 2 ^ 63) `mod` 2 ^ 64 - 2 ^ 63)%Z.
Definition as_i64 (n : N) : Z := wrap_i64 (Z.of_N n).
Definition i64_sub (a b : Z) : Z := wrap_i64 (a - b).

Definition MAX_PAST_MS_NORMAL : Z := (5 * 60 * 1000)%Z.
Definition MAX_FUTURE_MS : Z := (24 * 60 * 60 * 1000)%Z.
Definition MAX_EPOCH_LAG_FOR_QUORUM : N := 2.
Definition TIMEOUT_SECONDS : N := 300.
Definition PROPOSAL_TIMEOUT_SECONDS : N := 300.
Definition STALE_SECONDS : N := 600.
Definition STUCK_SECONDS : N := 3600.

(** ** State *)

(** [anyhow::Result]: a message, or a value. *)
Abbreviation checked A := (string + A)%type (only parsing).

Record EpochChangeManager := mkEpochChangeManager {
  current_epoch : N;
  ec_committee : Committee;
  ec_own_index : AuthorityIndex;
  ec_start_timestamp_ms : N;
  pending_proposals : gmap Bytes EpochChangeProposal;
  proposal_votes : gmap Bytes (gmap N EpochChangeVote);
  proposal_history : list EpochChangeProposal;
  seen_proposals : gset Bytes;
  quorum_logged : gset Bytes;
  time_based_enabled : bool;
  epoch_duration_seconds : N;
  max_clock_drift_ms : N;
  last_time_based_check_log_ms : N;
}.

Implicit Types m : EpochChangeManager.

Definition manager_new (epoch : N) (c : Committee) (own : AuthorityIndex) (start : N) (time_based : bool) (duration drift : N) :
    EpochChangeManager :=
  mkEpochChangeManager epoch c own start ∅ ∅ [] ∅ ∅ time_based duration drift 0.

(** The committee stays. *)
Definition reset_for_new_epoch (new_epoch new_start : N) m : EpochChangeManager :=
  mkEpochChangeManager new_epoch (ec_committee m) (ec_own_index m) new_start ∅ ∅ [] ∅ ∅ (time_based_enabled m)
    (epoch_duration_seconds m) (max_clock_drift_ms m) 0.

Definition set_start (ts : N) m : EpochChangeManager :=
  mkEpochChangeManager (current_epoch m) (ec_committee m) (ec_own_index m) ts (pending_proposals m) (proposal_votes m)
    (proposal_history m) (seen_proposals m) (quorum_logged m) (time_based_enabled m) (epoch_duration_seconds m)
    (max_clock_drift_ms m) (last_time_based_check_log_ms m).
Definition set_proposals (p : gmap Bytes EpochChangeProposal) (votes : gmap Bytes (gmap N EpochChangeVote)) m : EpochChangeManager :=
  mkEpochChangeManager (current_epoch m) (ec_committee m) (ec_own_index m) (ec_start_timestamp_ms m) p votes
    (proposal_history m) (seen_proposals m) (quorum_logged m) (time_based_enabled m) (epoch_duration_seconds m)
    (max_clock_drift_ms m) (last_time_based_check_log_ms m).
Definition set_last_log (ms : N) m : EpochChangeManager :=
  mkEpochChangeManager (current_epoch m) (ec_committee m) (ec_own_index m) (ec_start_timestamp_ms m) (pending_proposals m)
    (proposal_votes m) (proposal_history m) (seen_proposals m) (quorum_logged m) (time_based_enabled m)
    (epoch_duration_seconds m) (max_clock_drift_ms m) ms.

(** The proposal becomes pending, seen, and part of the history. *)
Definition store_proposal (hash : Bytes) (p : EpochChangeProposal) m : EpochChangeManager :=
  mkEpochChangeManager (current_epoch m) (ec_committee m) (ec_own_index m) (ec_start_timestamp_ms m)
    (<[hash := p]> (pending_proposals m)) (proposal_votes m) (proposal_history m ++ [p]) ({[hash]} ∪ seen_proposals m)
    (quorum_logged m) (time_based_enabled m) (epoch_duration_seconds m) (max_clock_drift_ms m) (last_time_based_check_log_ms m).

Definition mark_quorum_logged (hash : Bytes) m : EpochChangeManager :=
  mkEpochChangeManager (current_epoch m) (ec_committee m) (ec_own_index m) (ec_start_timestamp_ms m) (pending_proposals m)
    (proposal_votes m) (proposal_history m) (seen_proposals m) ({[hash]} ∪ quorum_logged m) (time_based_enabled m)
    (epoch_duration_seconds m) (max_clock_drift_ms m) (last_time_based_check_log_ms m).

(** A vote replaces the one of the same voter. *)
Definition store_vote (hash : Bytes) (voter : N) (vote : EpochChangeVote) m : EpochChangeManager :=
  set_proposals (pending_proposals m) (<[hash := <[voter := vote]> (default ∅ (proposal_votes m !! hash))]> (proposal_votes m)) m.

(** [AuthorityIndex::new_for_test] *)
Definition proposer (p : EpochChangeProposal) : AuthorityIndex := N.to_nat (proposer_value p).
Definition voter (v : EpochChangeVote) : AuthorityIndex := N.to_nat (voter_value v).

(** What [env::var] gives for the two development modes. *)
Record Environment := mkEnvironment {
  single_node : bool;
  localhost_testing : bool;
}.

(** Decoding ([bcs]) of the data of a block. *)
Record EpochCodec := mkEpochCodec {
  proposal_from_bytes : Bytes → option EpochChangeProposal;
  vote_from_bytes : Bytes → option EpochChangeVote;
}.

Section manager.
Context (ck : Crypto) (blake2b : Bytes → Bytes).

Definition proposal_text (p : EpochChangeProposal) : string :=
  (pretty (new_epoch p) +:+ "-" +:+ pretty (new_epoch_timestamp_ms p) +:+ "-" +:+ pretty (proposal_commit_index p) +:+ "-" +:+
    pretty (N.of_nat (proposer p)))%string.

Definition hash_proposal (p : EpochChangeProposal) : Bytes := blake2b (string_bytes (proposal_text p)).

(** The clock is read once; the subtraction wraps. *)
Definition should_propose_time_based (now_ms : N) m : EpochChangeManager * bool :=
  if negb (time_based_enabled m) then (m, false) else
  let elapsed_seconds := u64_sub now_ms (ec_start_timestamp_ms m) `div` 1000 in
  let should_propose := epoch_duration_seconds m <=? elapsed_seconds in
  let close_to_threshold := saturating_sub (epoch_duration_seconds m) 30 <=? elapsed_seconds in
  let min_interval_ms := if should_propose then 60000 else 5000 in
  let m :=
    if close_to_threshold && (min_interval_ms <=? saturating_sub now_ms (last_time_based_check_log_ms m))
    then set_last_log now_ms m else m in
  (m, should_propose).

Definition proposal_message (epoch ts index : N) (proposer : AuthorityIndex) : Bytes :=
  string_bytes ("epoch_change:" +:+ pretty epoch +:+ ":" +:+ pretty ts +:+ ":" +:+ pretty index +:+ ":" +:+
    pretty (N.of_nat proposer))%string.

(** The steps shared by the two functions that propose. *)
Definition propose (now_s epoch ts index : N) (a : AuthorityIndex) (key : KeyPair ck) m :
    outcome (EpochChangeManager * checked EpochChangeProposal) :=
  let signature := sign ck key (proposal_message epoch ts index a) in
  let p := mkEpochChangeProposal epoch ts index (N.of_nat a `mod` u32_modulus) (sig_to_bytes ck signature) now_s in
  let hash := hash_proposal p in
  if decide (hash ∈ seen_proposals m) then Ok (m, inl "Duplicate proposal detected"%string) else
  do! first8 hash in
  Ok (store_proposal hash p m, inr p).

Definition propose_epoch_change (now_s ts index : N) (a : AuthorityIndex) (key : KeyPair ck) m :
    outcome (EpochChangeManager * checked EpochChangeProposal) :=
  propose now_s (u64_add (current_epoch m) 1) ts index a key m.

Definition propose_epoch_change_to_target_epoch (now_s target ts index : N) (a : AuthorityIndex) (key : KeyPair ck) m :
    outcome (EpochChangeManager * checked EpochChangeProposal) :=
  if target <=? current_epoch m
  then Ok (m, inl ("Target epoch " +:+ pretty target +:+ " must be greater than current epoch " +:+ pretty (current_epoch m))%string)
  else propose now_s target ts index a key m.

(** *** Proposals of others *)

Definition verify_proposal_signature m (p : EpochChangeProposal) : outcome (checked unit) :=
  let message := proposal_message (new_epoch p) (new_epoch_timestamp_ms p) (proposal_commit_index p) (proposer p) in
  let! a := authority (ec_committee m) (proposer p) in
  match sig_from_bytes ck (proposal_signature_bytes p) with
  | None => Ok (inl "Failed to deserialize signature"%string)
  | Some signature =>
      Ok (if verify ck (protocol_key a) message signature then inr tt else inl "Invalid proposal signature"%string)
  end.

(** A proposal that is older than usual moves the start of the epoch. *)
Definition validate_proposal (now_ms : N) m (p : EpochChangeProposal) : outcome (EpochChangeManager * checked unit) :=
  if negb (new_epoch p =? u64_add (current_epoch m) 1) then Ok (m, inl "Epoch must increment by 1"%string) else
  let timestamp_diff_ms := i64_sub (as_i64 now_ms) (as_i64 (new_epoch_timestamp_ms p)) in
  let is_catchup := (MAX_PAST_MS_NORMAL <? timestamp_diff_ms)%Z in
  let m := if is_catchup then set_start (new_epoch_timestamp_ms p) m else m in
  let synced_diff_ms := i64_sub (as_i64 now_ms) (as_i64 (ec_start_timestamp_ms m)) in
  if is_catchup && negb (- MAX_FUTURE_MS <=? synced_diff_ms)%Z
  then Ok (m, inl "Synced epoch timestamp must not be too far in the future"%string)
  else if negb is_catchup && negb ((timestamp_diff_ms <=? MAX_PAST_MS_NORMAL) && (- MAX_FUTURE_MS <=? timestamp_diff_ms))%Z
  then Ok (m, inl "Epoch timestamp must be within reasonable range"%string)
  else if negb (is_valid_index (ec_committee m) (proposer p)) then Ok (m, inl "Invalid proposer authority index"%string)
  else
    let! r := verify_proposal_signature m p in
    Ok (m, r).

Definition has_pending_proposal_hash m (hash : Bytes) : bool := bool_decide (is_Some (pending_proposals m !! hash)).

Definition process_proposal (now_ms : N) m (p : EpochChangeProposal) : outcome (EpochChangeManager * checked unit) :=
  let hash := hash_proposal p in
  if has_pending_proposal_hash m hash then Ok (m, inr tt) else
  let! '(m, r) := validate_proposal now_ms m p in
  match r with
  | inl e => Ok (m, inl e)
  | inr _ => Ok (store_proposal hash p m, inr tt)
  end.

(** *** Votes *)

Definition vote_message (hash8 : Bytes) (approve : bool) (stake : Stake) : Bytes :=
  string_bytes ("epoch_vote:" +:+ hex_encode hash8 +:+ ":" +:+ show_bool approve +:+ ":" +:+ pretty stake)%string.

(** Every valid proposal is approved. *)
Definition vote_on_proposal (now_ms : N) m (p : EpochChangeProposal) (a : AuthorityIndex) (key : KeyPair ck) :
    outcome (EpochChangeManager * checked EpochChangeVote) :=
  let! '(m, r) := validate_proposal now_ms m p in
  match r with
  | inl e => Ok (m, inl e)
  | inr _ =>
      let hash := hash_proposal p in
      let! auth := authority (ec_committee m) a in
      let! hash8 := first8 hash in
      let signature := sign ck key (vote_message hash8 true (stake auth)) in
      let vote := mkEpochChangeVote hash (N.of_nat a `mod` u32_modulus) true (sig_to_bytes ck signature) in
      Ok (store_vote hash (N.of_nat a `mod` u32_modulus) vote m, inr vote)
  end.

Definition validate_vote m (vote : EpochChangeVote) : outcome (checked unit) :=
  if negb (has_pending_proposal_hash m (vote_proposal_hash vote)) then Ok (inl "Vote for unknown proposal"%string)
  else if negb (is_valid_index (ec_committee m) (voter vote)) then Ok (inl "Invalid voter authority index"%string)
  else
    let! auth := authority (ec_committee m) (voter vote) in
    let! hash8 := first8 (vote_proposal_hash vote) in
    match sig_from_bytes ck (vote_signature_bytes vote) with
    | None => Ok (inl "Failed to deserialize signature"%string)
    | Some signature =>
        Ok (if verify ck (protocol_key auth) (vote_message hash8 (approve vote) (stake auth)) signature
            then inr tt else inl "Invalid vote signature"%string)
    end.

Definition process_vote m (vote : EpochChangeVote) : outcome (EpochChangeManager * checked unit) :=
  let! r := validate_vote m vote in
  match r with
  | inl e => Ok (m, inl e)
  | inr _ => Ok (store_vote (vote_proposal_hash vote) (voter_value vote) vote m, inr tt)
  end.

Definition vote_stake m (vote : EpochChangeVote) : Stake :=
  if is_valid_index (ec_committee m) (voter vote) then stake_of (ec_committee m) (voter vote) else 0.

Definition votes_stake m (approved : bool) (votes : gmap N EpochChangeVote) : Stake :=
  u64_sum (vote_stake m <$> filter (λ v, approve v = approved) (map_to_list votes).*2).

Definition check_proposal_quorum m (p : EpochChangeProposal) : option bool :=
  match proposal_votes m !! hash_proposal p with
  | None => None
  | Some votes =>
      if quorum_threshold (ec_committee m) <=? votes_stake m true votes then Some true
      else if quorum_threshold (ec_committee m) <=? votes_stake m false votes then Some false
      else None
  end.

Definition get_vote_by_voter m (hash : Bytes) (voter : N) : option EpochChangeVote :=
  proposal_votes m !! hash ≫= λ votes, votes !! voter.

(** *** The transition *)

Definition should_transition (e : Environment) (now_s : N) m (p : EpochChangeProposal) (current_commit_index : N) : bool :=
  if single_node e then true else
  let quorum_reached := default false (check_proposal_quorum m p) in
  let epoch_lag := saturating_sub (new_epoch p) (current_epoch m) in
  let is_catchup_mode := MAX_EPOCH_LAG_FOR_QUORUM <? epoch_lag in
  if localhost_testing e then true else
  if negb quorum_reached && negb is_catchup_mode && negb (localhost_testing e) then false else
  let barrier_reached := u32_saturating_add (proposal_commit_index p) 10 <=? current_commit_index in
  let timeout_reached := TIMEOUT_SECONDS <=? saturating_sub now_s (created_at_seconds p) in
  barrier_reached || (timeout_reached && quorum_reached) || (is_catchup_mode && barrier_reached) || localhost_testing e.

(** [values] lists the pending proposals in the order of the hash map. *)
Definition get_transition_ready_proposal (e : Environment) (now_s : N) m (values : list EpochChangeProposal) (current_commit_index : N) :
    option EpochChangeProposal :=
  match list_find (λ p, new_epoch p = u64_add (current_epoch m) 1 ∧ should_transition e now_s m p current_commit_index = true) values with
  | Some (_, p) => Some p
  | None =>
      match list_find (λ p, should_transition e now_s m p current_commit_index = true) values with
      | Some (_, p) => Some p
      | None => None
      end
  end.

(** The first one in the order of the hash map. *)
Definition get_pending_proposal_to_broadcast (values : list EpochChangeProposal) : option EpochChangeProposal := head values.

Definition get_pending_votes_to_broadcast m (values : list EpochChangeProposal) : list EpochChangeVote :=
  concat ((λ p, match proposal_votes m !! hash_proposal p with Some votes => (map_to_list votes).*2 | None => [] end) <$> values).

Definition get_approved_proposal m (values : list EpochChangeProposal) : option EpochChangeProposal :=
  match list_find (λ p, check_proposal_quorum m p = Some true) values with Some (_, p) => Some p | None => None end.

(** *** Old proposals *)

Definition age (now_s : N) (p : EpochChangeProposal) : N := saturating_sub now_s (created_at_seconds p).

(** The proposals that satisfy [P] go, with their votes. *)
Definition drop_proposals (P : EpochChangeProposal → bool) m : EpochChangeManager :=
  set_proposals (filter (λ q : Bytes * EpochChangeProposal, P q.2 = false) (pending_proposals m))
    (filter (λ q : Bytes * gmap N EpochChangeVote, from_option P false (pending_proposals m !! q.1) = false) (proposal_votes m)) m.

Definition has_pending_proposal_for_epoch (now_s epoch : N) m : EpochChangeManager * bool :=
  let m := drop_proposals (λ p, STALE_SECONDS <? age now_s p) m in
  let mine := filter (λ p, new_epoch p = epoch) (map_to_list (pending_proposals m)).*2 in
  let has_pending := negb (bool_decide (mine = [])) in
  if has_pending && (current_epoch m <? epoch) && (STUCK_SECONDS <? foldr N.max 0 (age now_s <$> mine))
  then (drop_proposals (λ p, new_epoch p =? epoch) m, false)
  else (m, has_pending).

Definition check_proposal_timeout (now_s : N) (p : EpochChangeProposal) : bool := PROPOSAL_TIMEOUT_SECONDS <? age now_s p.

(** Only the proposals go; their votes stay. *)
Definition cleanup_expired_proposals (now_s : N) m : EpochChangeManager :=
  set_proposals (filter (λ q : Bytes * EpochChangeProposal, check_proposal_timeout now_s q.2 = false) (pending_proposals m))
    (proposal_votes m) m.

(** ** The hook ([epoch_change_hook.rs]) *)

Context (cd : EpochCodec) (own : AuthorityIndex) (key : KeyPair ck).

Definition own_voter : N := N.of_nat own `mod` u32_modulus.

(** A slice in a message that is logged at debug level. *)
Definition debug_slice (debug : bool) (v : Bytes) : outcome unit :=
  if debug then do! first8 v in Ok tt else Ok tt.

(** The proposal of a block: the clock is read when it is processed and when it is voted on. *)
Definition process_block_proposal (debug : bool) (now_ms vote_now_ms : N) m (bytes : Bytes) : outcome EpochChangeManager :=
  match proposal_from_bytes cd bytes with
  | None => Ok m
  | Some p =>
      let hash := hash_proposal p in
      if negb (new_epoch p =? u64_add (current_epoch m) 1) then do! debug_slice debug hash in Ok m else
      do! first8 hash in
      let! '(m, r) := process_proposal now_ms m p in
      match r with
      | inl _ => Ok m
      | inr _ =>
          match get_vote_by_voter m hash own_voter with
          | Some _ => Ok m
          | None => let! '(m, _) := vote_on_proposal vote_now_ms m p own key in Ok m
          end
      end
  end.

(** The quorum of a proposal is noted once. *)
Definition note_quorum m (hash : Bytes) : EpochChangeManager :=
  match list_find (λ p, hash_proposal p = hash) (map_to_list (pending_proposals m)).*2 with
  | None => m
  | Some (_, p) =>
      match check_proposal_quorum m p with
      | Some true => if decide (hash_proposal p ∈ quorum_logged m) then m else mark_quorum_logged (hash_proposal p) m
      | _ => m
      end
  end.

Definition process_block_vote (debug : bool) m (bytes : Bytes) : outcome EpochChangeManager :=
  match vote_from_bytes cd bytes with
  | None => Ok m
  | Some vote =>
      let hash := vote_proposal_hash vote in
      if negb (has_pending_proposal_hash m hash) then do! debug_slice debug hash in Ok m else
      let! '(m, r) := process_vote m vote in
      match r with
      | inl _ => Ok m
      | inr _ => do! debug_slice debug hash in Ok (note_quorum m hash)
      end
  end.

Definition process_block_epoch_change (debug : bool) (now_ms vote_now_ms : N) m (proposal : option Bytes) (votes : list Bytes) :
    outcome EpochChangeManager :=
  let! m := match proposal with
            | Some bytes => process_block_proposal debug now_ms vote_now_ms m bytes
            | None => Ok m
            end in
  for_each (process_block_vote debug) m votes.

(** One message of the channel between the authority service and the hook. *)
Definition process_call (debug : bool) (now_ms vote_now_ms : N) m (call : EpochCall) : outcome EpochChangeManager :=
  match call with
  | ProcessProposal bytes => process_block_epoch_change debug now_ms vote_now_ms m (Some bytes) []
  | ProcessVote bytes => process_block_epoch_change debug now_ms vote_now_ms m None [bytes]
  end.

(** What own blocks carry: the proposal that comes first in the hash map and the votes on all
    pending ones. *)
Definition epoch_change_data (w : WireCodec) m (values : list EpochChangeProposal) : option Bytes * list Bytes :=
  (get_pending_proposal_to_broadcast values ≫= proposal_to_bytes w, omap (vote_to_bytes w) (get_pending_votes_to_broadcast m values)).
End manager.
