(* ===== verification/EpochChangeSpec.v ===== *)
(** * The change of epochs is decided by a quorum

    The steps of a node on its manager of epoch changes, the invariant of the managers they
    reach, and the two directions of the vote: a transition needs the signed approval of a
    quorum, and the approval of a quorum leads to one. *)

From stdpp Require Import pretty.
From Stdlib Require Import Ascii ZArith.
From S2P Require Import Prelude Collections Weighted Committee Types Fixtures Commits StakeAggregator.
From S2P Require Import ThresholdClock QuorumIndex CommitVoteMonitor LeaderScoring RoundTracker Storage DagState DagStateSpec DagRecovery.
From S2P Require Import Errors BlockVerifier BlockManager TransactionCertifier CommitSyncer Core CoreThread Synchronizer AuthorityService.
From S2P Require Import EpochChange.

Local Open Scope N_scope.

Implicit Types m : EpochChangeManager.

(** ** Signed messages *)

(** [a] is a member of the committee and [bytes] is its signature of [message]. *)
Definition signed_by (ck : Crypto) (c : Committee) (a : AuthorityIndex) (message bytes : Bytes) : Prop :=
  ∃ auth signature, authorities c !! a = Some auth ∧ sig_from_bytes ck bytes = Some signature ∧
    verify ck (protocol_key auth) message signature = true.

Definition signed_proposal (ck : Crypto) (c : Committee) (p : EpochChangeProposal) : Prop :=
  signed_by ck c (proposer p)
    (proposal_message (new_epoch p) (new_epoch_timestamp_ms p) (proposal_commit_index p) (proposer p)) (proposal_signature_bytes p).

(** The signature of a vote covers the start of the hash, the decision and the stake. *)
Definition signed_vote (ck : Crypto) (c : Committee) (hash : Bytes) (v : EpochChangeVote) : Prop :=
  signed_by ck c (voter v) (vote_message (take 8 hash) (approve v) (stake_of c (voter v))) (vote_signature_bytes v).

(** The authorities with a vote of the given kind. *)
Definition voters (approved : bool) (votes : gmap N EpochChangeVote) : gset AuthorityIndex :=
  list_to_set (voter <$> filter (λ v, approve v = approved) (map_to_list votes).*2).

Lemma elem_of_ec_voters b votes a :
  a ∈ voters b votes ↔ ∃ i v, votes !! i = Some v ∧ approve v = b ∧ voter v = a.
Proof.
  unfold voters. rewrite elem_of_list_to_set, list_elem_of_fmap. setoid_rewrite list_elem_of_filter.
  setoid_rewrite list_elem_of_fmap. split.
  - intros (v & -> & Hb & [i v'] & -> & Hv%elem_of_map_to_list). by exists i, v'.
  - intros (i & v & Hv & Hb & <-). exists v. split_and!; try done. exists (i, v). by rewrite elem_of_map_to_list.
Qed.

(** ** The hash identifies a proposal *)

Definition no_dash (s : string) : Prop := Forall (λ a, a ≠ "-"%char) (String.list_ascii_of_string s).

Lemma list_ascii_app s t :
  String.list_ascii_of_string (s +:+ t) = String.list_ascii_of_string s ++ String.list_ascii_of_string t.
Proof. induction s as [|a s IH]; [done|]. simpl. f_equal. exact IH. Qed.

Lemma list_ascii_inj s t : String.list_ascii_of_string s = String.list_ascii_of_string t → s = t.
Proof. intros H. by rewrite <-(String.string_of_list_ascii_of_string s), H, String.string_of_list_ascii_of_string. Qed.

Lemma pretty_N_char_no_dash x : pretty_N_char x ≠ "-"%char.
Proof. intros H. unfold pretty_N_char in H. repeat case_match; discriminate. Qed.

Lemma pretty_N_go_no_dash x s : no_dash s → no_dash (pretty_N_go x s).
Proof.
  revert s. induction (N.lt_wf_0 x) as [x _ IH]; intros s Hs. destruct (decide (0 < x)) as [Hx|Hx].
  - rewrite pretty_N_go_step by done. apply IH; [by apply N.div_lt|]. constructor; [apply pretty_N_char_no_dash|done].
  - assert (x = 0) as -> by lia. by rewrite pretty_N_go_0.
Qed.

Lemma pretty_N_no_dash (x : N) : no_dash (pretty x).
Proof.
  unfold pretty, pretty_N. case_decide; [by repeat constructor|]. apply pretty_N_go_no_dash. constructor.
Qed.

(** Numbers joined with dashes can be read back. *)
Lemma dash_inj (x y : N) s t : (pretty x +:+ "-" +:+ s = pretty y +:+ "-" +:+ t)%string → x = y ∧ s = t.
Proof.
  intros H%(f_equal String.list_ascii_of_string). rewrite !list_ascii_app in H. cbn in H.
  assert (String.list_ascii_of_string (pretty x) = String.list_ascii_of_string (pretty y) ∧
          String.list_ascii_of_string s = String.list_ascii_of_string t) as [Hx Hs].
  { pose proof (pretty_N_no_dash x) as Hx. pose proof (pretty_N_no_dash y) as Hy. unfold no_dash in Hx, Hy.
    revert H Hx Hy. generalize (String.list_ascii_of_string (pretty x)), (String.list_ascii_of_string (pretty y)).
    intros l. induction l as [|a l IH]; intros [|b k]; cbn; intros Heq Hx Hy; simplify_eq.
    - done.
    - by inversion Hy.
    - by inversion Hx.
    - inversion Hx; inversion Hy; subst. destruct (IH k) as [-> ->]; done. }
  split; [by apply pretty_N_inj, list_ascii_inj|by apply list_ascii_inj].
Qed.

Lemma proposal_text_inj p q :
  proposal_text p = proposal_text q →
  new_epoch p = new_epoch q ∧ new_epoch_timestamp_ms p = new_epoch_timestamp_ms q ∧
  proposal_commit_index p = proposal_commit_index q ∧ proposer p = proposer q.
Proof.
  intros [He [Ht [Hi Hp%pretty_N_inj]%dash_inj]%dash_inj]%dash_inj. split_and!; try done. lia.
Qed.

Lemma string_bytes_inj s t : string_bytes s = string_bytes t → s = t.
Proof.
  assert (Inj (=) (=) N_of_ascii) as Hinj.
  { intros a b Hab. by rewrite <-(ascii_N_embedding a), Hab, ascii_N_embedding. }
  intros H. apply list_ascii_inj, (list_fmap_eq_inj N_of_ascii Hinj), H.
Qed.

Lemma hash_proposal_inj blake2b p q :
  (∀ x y, blake2b x = blake2b y → x = y) → hash_proposal blake2b p = hash_proposal blake2b q →
  new_epoch p = new_epoch q ∧ new_epoch_timestamp_ms p = new_epoch_timestamp_ms q ∧
  proposal_commit_index p = proposal_commit_index q ∧ proposer p = proposer q.
Proof. intros Hb H%Hb%string_bytes_inj. by apply proposal_text_inj. Qed.

Section invariant.
Context (ck : Crypto) (blake2b : Bytes → Bytes) (c : Committee).

(** ** Well-formed managers *)

Record proposal_ok (epoch : N) (hash : Bytes) (p : EpochChangeProposal) : Prop := {
  po_hash : hash_proposal blake2b p = hash;
  po_epoch : epoch < new_epoch p;
  po_signed : signed_proposal ck c p;
}.

Record vote_ok (hash : Bytes) (i : N) (v : EpochChangeVote) : Prop := {
  vo_hash : vote_proposal_hash v = hash;
  vo_voter : voter_value v = i;
  vo_signed : signed_vote ck c hash v;
}.

Record manager_ok m : Prop := {
  mo_committee : ec_committee m = c;
  mo_epoch : current_epoch m < u64_max;
  mo_pending hash p : pending_proposals m !! hash = Some p → proposal_ok (current_epoch m) hash p;
  mo_votes hash votes i v : proposal_votes m !! hash = Some votes → votes !! i = Some v → vote_ok hash i v;
  mo_seen hash : is_Some (pending_proposals m !! hash) → hash ∈ seen_proposals m;
}.

(** *** Updates of the state *)

Lemma set_start_ok ts m : manager_ok m → manager_ok (set_start ts m).
Proof. intros []. by split. Qed.

Lemma set_last_log_ok ts m : manager_ok m → manager_ok (set_last_log ts m).
Proof. intros []. by split. Qed.

Lemma mark_quorum_logged_ok hash m : manager_ok m → manager_ok (mark_quorum_logged hash m).
Proof. intros []. by split. Qed.

Lemma store_proposal_ok p m :
  manager_ok m → current_epoch m < new_epoch p → signed_proposal ck c p →
  manager_ok (store_proposal (hash_proposal blake2b p) p m).
Proof.
  intros [Hm He Hp Hv Hs] Hn Hsig. split; cbn; try done.
  - intros h q [[<- <-]|[Hne Hq]]%lookup_insert_Some; [by split|by apply Hp].
  - intros h [q [[<- <-]|[Hne Hq]]%lookup_insert_Some]; [set_solver|].
    apply elem_of_union_r, Hs. by exists q.
Qed.

Lemma store_vote_ok hash i v m : manager_ok m → vote_ok hash i v → manager_ok (store_vote hash i v m).
Proof.
  intros [Hm He Hp Hv Hs] Hok. split; cbn; try done.
  intros h votes j w [[<- <-]|[Hne Hq]]%lookup_insert_Some.
  - intros [[<- <-]|[Hij Hw]]%lookup_insert_Some; [done|].
    destruct (proposal_votes m !! hash) as [vs|] eqn:Hvs; cbn in Hw; [by eapply Hv|done].
  - by apply Hv.
Qed.

(** Fewer proposals and votes are fine. *)
Lemma set_proposals_ok ps votes m :
  manager_ok m → ps ⊆ pending_proposals m → votes ⊆ proposal_votes m → manager_ok (set_proposals ps votes m).
Proof.
  intros [Hm He Hp Hv Hs] Hps Hvs. split; cbn; try done.
  - intros h p Hq. apply Hp. by eapply lookup_weaken.
  - intros h vs i v Hq. apply Hv. by eapply lookup_weaken.
  - intros h [p Hq]. apply Hs. exists p. by eapply lookup_weaken.
Qed.

(** *** What a successful check says *)

Lemma verify_proposal_signature_true m p :
  ec_committee m = c → verify_proposal_signature ck m p = Ok (inr tt) ↔ signed_proposal ck c p.
Proof.
  intros Hm. unfold verify_proposal_signature, signed_proposal, signed_by. rewrite Hm. split.
  - intros H. outcome_inv. destruct (sig_from_bytes ck _) as [sg|] eqn:Hs; [|done].
    apply authority_Ok in E. destruct (verify ck _ _ sg) eqn:Hv; [|done]. by exists x, sg.
  - intros (auth & sg & Ha & Hs & Hv). rewrite (proj2 (authority_Ok _ _ _) Ha). cbn. by rewrite Hs, Hv.
Qed.

Lemma validate_proposal_inv now_ms m p m' r :
  validate_proposal ck now_ms m p = Ok (m', r) → ec_committee m = c →
  (∃ ts, m' = set_start ts m) ∧ (r = inr tt → new_epoch p = u64_add (current_epoch m) 1 ∧ signed_proposal ck c p).
Proof.
  intros H Hm. unfold validate_proposal in H.
  assert (∃ ts, m = set_start ts m) as Hsame by (exists (ec_start_timestamp_ms m); by destruct m).
  destruct (N.eqb_spec (new_epoch p) (u64_add (current_epoch m) 1)) as [He|He]; cbn [negb] in H;
    [|injection H as <- <-; done].
  match type of H with context [(if ?b then set_start ?t m else m)] => set (b0 := b) in H end.
  assert (∃ ts, (if b0 then set_start (new_epoch_timestamp_ms p) m else m) = set_start ts m) as [ts Hts]
    by (destruct b0; eauto).
  rewrite Hts in H.
  repeat case_match; try (injection H as <- <-; split; [by eexists|done]).
  all: apply bind_Ok in H as (x & E & [= <- <-]); split; [by eexists|]; intros ->; split; [done|].
  all: by apply (verify_proposal_signature_true (set_start ts m)).
Qed.

Lemma vote_message_stake a auth hash8 b :
  authorities c !! a = Some auth → vote_message hash8 b (stake auth) = vote_message hash8 b (stake_of c a).
Proof. intros Ha. unfold stake_of. by rewrite Ha. Qed.

Lemma validate_vote_true m v :
  ec_committee m = c → (8 ≤ length (vote_proposal_hash v))%nat →
  validate_vote ck m v = Ok (inr tt) ↔
  is_Some (pending_proposals m !! vote_proposal_hash v) ∧ signed_vote ck c (vote_proposal_hash v) v.
Proof.
  intros Hm Hlen. unfold validate_vote, has_pending_proposal_hash. rewrite Hm.
  case_bool_decide as Hp; cbn [negb]; [|naive_solver].
  destruct (is_valid_index c (voter v)) eqn:Hi; cbn [negb].
  - apply is_valid_index_true in Hi as [auth Ha]%lookup_lt_is_Some.
    rewrite (proj2 (authority_Ok _ _ _) Ha). unfold first8.
    rewrite (proj2 (Nat.ltb_ge _ _) Hlen). cbn [obind]. rewrite (vote_message_stake _ _ _ _ Ha).
    unfold signed_vote, signed_by. rewrite Ha. split.
    + intros H. split; [done|]. destruct (sig_from_bytes ck _) as [sg|]; [|done].
      exists auth, sg. split_and!; try done. by destruct (verify ck _ _ sg).
    + intros (_ & auth' & sg & [= <-] & -> & ->). done.
  - split; [done|]. intros (_ & auth & sg & Ha & _). apply lookup_lt_Some, is_valid_index_true in Ha. congruence.
Qed.

(** *** Operations *)

Lemma process_proposal_ok now_ms m p m' r :
  manager_ok m → process_proposal ck blake2b now_ms m p = Ok (m', r) →
  manager_ok m' ∧ (r = inr tt → is_Some (pending_proposals m' !! hash_proposal blake2b p)).
Proof.
  intros Hm H. unfold process_proposal, has_pending_proposal_hash in H.
  case_bool_decide as Hp; [by injection H as <- <-|].
  apply bind_Ok in H as ([m1 r1] & Hval & H).
  apply validate_proposal_inv in Hval as [[ts ->] Hr]; [|apply Hm].
  destruct r1 as [e|[]]; injection H as <- <-; [split; [by apply set_start_ok|done]|].
  destruct (Hr eq_refl) as [He Hs]. split.
  - apply store_proposal_ok; [by apply set_start_ok| |done]. cbn. rewrite He.
    pose proof (mo_epoch m Hm). machine_lia.
  - intros _. cbn. rewrite lookup_insert_eq. by eexists.
Qed.

Lemma process_vote_ok m v m' r :
  manager_ok m → (8 ≤ length (vote_proposal_hash v))%nat →
  process_vote ck m v = Ok (m', r) → manager_ok m'.
Proof.
  intros Hm Hlen H. unfold process_vote in H. apply bind_Ok in H as (r1 & Hval & H).
  destruct r1 as [e|[]]; injection H as <- <-; [done|].
  apply validate_vote_true in Hval as [_ Hs]; [|apply Hm|done]. by apply store_vote_ok.
Qed.

Lemma note_quorum_ok m hash : manager_ok m → manager_ok (note_quorum blake2b m hash).
Proof. intros Hm. unfold note_quorum. repeat case_match; try done. by apply mark_quorum_logged_ok. Qed.

Lemma drop_proposals_ok P m : manager_ok m → manager_ok (drop_proposals P m).
Proof. intros Hm. apply set_proposals_ok; [done|apply map_filter_subseteq..]. Qed.

Lemma has_pending_ok now_s epoch m : manager_ok m → manager_ok (has_pending_proposal_for_epoch now_s epoch m).1.
Proof. intros Hm. unfold has_pending_proposal_for_epoch. case_match; cbn; repeat apply drop_proposals_ok; done. Qed.

Lemma cleanup_ok now_s m : manager_ok m → manager_ok (cleanup_expired_proposals now_s m).
Proof. intros Hm. apply set_proposals_ok; [done|apply map_filter_subseteq|done]. Qed.

Lemma time_based_ok now_ms m : manager_ok m → manager_ok (should_propose_time_based now_ms m).1.
Proof. intros Hm. unfold should_propose_time_based. case_match; [done|]. cbn. case_match; [by apply set_last_log_ok|done]. Qed.

Lemma reset_ok epoch start m : manager_ok m → epoch < u64_max → manager_ok (reset_for_new_epoch epoch start m).
Proof. intros Hm He. split; cbn; try done; [apply Hm|by intros ? [? ?]]. Qed.

Lemma manager_new_ok epoch own start time_based duration drift :
  epoch < u64_max → manager_ok (manager_new epoch c own start time_based duration drift).
Proof. intros He. split; cbn; try done. by intros ? [? ?]. Qed.

(** *** Votes count once per authority *)

Lemma voters_nodup hash (votes : gmap N EpochChangeVote) :
  (∀ i v, votes !! i = Some v → vote_ok hash i v) → NoDup (voter <$> (map_to_list votes).*2).
Proof.
  intros Hok. assert ((map_to_list votes).*1 = voter_value <$> (map_to_list votes).*2) as Heq.
  { rewrite <-list_fmap_compose. apply list_fmap_ext. intros k [i v] Hk. cbn.
    symmetry. eapply vo_voter, Hok. by apply elem_of_map_to_list, list_elem_of_lookup; exists k. }
  pose proof (NoDup_fst_map_to_list votes) as Hnd. rewrite Heq in Hnd.
  change (voter <$> (map_to_list votes).*2) with ((N.to_nat ∘ voter_value) <$> (map_to_list votes).*2).
  rewrite (list_fmap_compose voter_value N.to_nat). apply NoDup_fmap_2; [exact N2Nat.inj|done].
Qed.

Lemma votes_stake_voters m hash votes b :
  committee_ok c → manager_ok m → proposal_votes m !! hash = Some votes →
  votes_stake m b votes = set_stake c (voters b votes).
Proof.
  intros Hc Hm Hvotes. unfold votes_stake, voters, set_stake.
  pose proof (voters_nodup hash votes (λ i v, mo_votes m Hm hash votes i v Hvotes)) as Hnd.
  assert (NoDup (voter <$> filter (λ v, approve v = b) (map_to_list votes).*2)) as Hnd'.
  { eapply sublist_NoDup; [done|]. apply fmap_sublist, sublist_filter. }
  assert (vote_stake m <$> filter (λ v, approve v = b) (map_to_list votes).*2 =
          stake_of c <$> (voter <$> filter (λ v, approve v = b) (map_to_list votes).*2)) as ->.
  { rewrite <-list_fmap_compose. apply list_fmap_ext. intros k v Hk. cbn. unfold vote_stake.
    rewrite (mo_committee m Hm). destruct (is_valid_index c (voter v)) eqn:Hi; [done|].
    symmetry. apply stake_of_invalid. apply not_true_iff_false in Hi. rewrite is_valid_index_true in Hi. lia. }
  pose proof (set_stake_u64 c (voters b votes) Hc) as Hb. unfold voters, set_stake in Hb.
  rewrite (elements_list_to_set _ Hnd') in Hb |- *. by apply u64_sum_small.
Qed.

(** The signed approval of a quorum, as the node holds it. *)
Definition approved_by_quorum (p : EpochChangeProposal) : Prop :=
  ∃ s : gset AuthorityIndex, quorum_threshold c ≤ set_stake c s ∧
    ∀ a, a ∈ s → ∃ v, voter v = a ∧ approve v = true ∧ vote_proposal_hash v = hash_proposal blake2b p ∧
      signed_vote ck c (hash_proposal blake2b p) v.

Lemma check_proposal_quorum_approved m p :
  committee_ok c → manager_ok m → check_proposal_quorum blake2b m p = Some true → approved_by_quorum p.
Proof.
  intros Hc Hm H. unfold check_proposal_quorum in H. destruct (proposal_votes m !! _) as [votes|] eqn:Hv; [|done].
  destruct (N.leb_spec (quorum_threshold (ec_committee m)) (votes_stake m true votes)) as [Hle|]; [|by case_match].
  rewrite (votes_stake_voters m _ votes true Hc Hm Hv), (mo_committee m Hm) in Hle.
  exists (voters true votes). split; [done|]. intros a (i & v & Hi & Hb & Ha)%elem_of_ec_voters.
  destruct (mo_votes m Hm _ _ _ _ Hv Hi) as [Hh _ Hs]. by exists v.
Qed.

Lemma check_proposal_quorum_reached m p s :
  committee_ok c → manager_ok m → quorum_threshold c ≤ set_stake c s →
  (∀ a, a ∈ s → ∃ i v, get_vote_by_voter m (hash_proposal blake2b p) i = Some v ∧ approve v = true ∧ voter v = a) →
  check_proposal_quorum blake2b m p = Some true.
Proof.
  intros Hc Hm Hq Hs. unfold check_proposal_quorum, get_vote_by_voter in *.
  destruct (proposal_votes m !! hash_proposal blake2b p) as [votes|] eqn:Hv; cbn in Hs.
  - rewrite (votes_stake_voters m _ votes true Hc Hm Hv), (mo_committee m Hm).
    assert (s ⊆ voters true votes) as Hsub by (intros a Ha; apply elem_of_ec_voters; auto).
    pose proof (set_stake_mono c _ _ Hsub). by rewrite (proj2 (N.leb_le _ _)) by lia.
  - assert (s = ∅) as -> by (apply set_eq; intros a; split; [intros (i & v & ? & _)%Hs; done|set_solver]).
    rewrite set_stake_empty in Hq. pose proof (quorum_pos c Hc). lia.
Qed.
End invariant.

Section reachable.
Context (ck : Crypto) (blake2b : Bytes → Bytes) (cd : EpochCodec) (c : Committee).
Context (own : AuthorityIndex) (key : KeyPair ck) (self : Authority).

(** ** The manager of a node *)

Inductive ec_step : EpochChangeManager → EpochChangeManager → Prop :=
| step_call debug now_ms vote_now_ms m call m' :
    process_call ck blake2b cd own key debug now_ms vote_now_ms m call = Ok m' → ec_step m m'
| step_propose now_s ts index m m' r :
    propose_epoch_change ck blake2b now_s ts index own key m = Ok (m', r) → ec_step m m'
| step_propose_target now_s target ts index m m' r :
    target < u64_modulus → propose_epoch_change_to_target_epoch ck blake2b now_s target ts index own key m = Ok (m', r) → ec_step m m'
| step_vote now_ms m p m' r : vote_on_proposal ck blake2b now_ms m p own key = Ok (m', r) → ec_step m m'
| step_time now_ms m : ec_step m (should_propose_time_based now_ms m).1
| step_pending now_s epoch m : ec_step m (has_pending_proposal_for_epoch now_s epoch m).1
| step_cleanup now_s m : ec_step m (cleanup_expired_proposals now_s m)
| step_reset epoch start m : epoch < u64_max → ec_step m (reset_for_new_epoch epoch start m).

Definition ec_start m : Prop :=
  ∃ epoch start time_based duration drift,
    epoch < u64_max ∧ m = manager_new epoch c own start time_based duration drift.

Definition reachable_manager m : Prop := ∃ m0, ec_start m0 ∧ rtc ec_step m0 m.

Context (Hck : CryptoLaws ck) (Hc : committee_ok c).
Context (Hself : authorities c !! own = Some self) (Hkey : protocol_key self = public_key ck key).
(** A digest has 32 bytes; the code slices the first eight. *)
Context (Hhash : ∀ bytes, (8 ≤ length (blake2b bytes))%nat).

Local Abbreviation ok := (manager_ok ck blake2b c).
Local Abbreviation hash_of := (hash_proposal blake2b).

Lemma own_as_u32 : N.of_nat own `mod` u32_modulus = N.of_nat own.
Proof using Hself Hc.
  apply lookup_lt_Some in Hself. pose proof (ok_size c Hc). unfold committee_size in *. apply N.mod_small. width_lia.
Qed.

(** What the node signs is signed by it. *)
Lemma own_signature message : signed_by ck c own message (sig_to_bytes ck (sign ck key message)).
Proof using Hself Hkey Hck.
  exists self, (sign ck key message). rewrite Hkey, (sig_bytes_law ck Hck), (sign_law ck Hck). done.
Qed.

Lemma hash_long p : (8 ≤ length (hash_of p))%nat.
Proof using Hhash. apply Hhash. Qed.

Lemma first8_hash p : first8 (hash_of p) = Ok (take 8 (hash_of p)).
Proof using Hhash. unfold first8. by rewrite (proj2 (Nat.ltb_ge _ _) (hash_long p)). Qed.

Lemma pending_long m hash : ok m → is_Some (pending_proposals m !! hash) → (8 ≤ length hash)%nat.
Proof using Hhash. clear -Hhash. intros Hm [p Hp]. destruct (mo_pending _ _ _ m Hm _ _ Hp) as [<- _ _]. apply Hhash. Qed.

Lemma propose_ok now_s epoch ts index m m' r :
  ok m → current_epoch m < epoch → propose ck blake2b now_s epoch ts index own key m = Ok (m', r) → ok m'.
Proof using All.
  intros Hm He H. unfold propose in H. case_match; [by injection H as <- <-|].
  rewrite first8_hash in H. injection H as <- <-. apply store_proposal_ok; [done|done|].
  unfold signed_proposal, proposer. cbn. rewrite own_as_u32, Nat2N.id. apply own_signature.
Qed.

Lemma vote_on_proposal_ok now_ms m p m' r :
  ok m → vote_on_proposal ck blake2b now_ms m p own key = Ok (m', r) → ok m'.
Proof using All.
  intros Hm H. unfold vote_on_proposal in H. apply bind_Ok in H as ([m1 r1] & Hval & H).
  apply (validate_proposal_inv ck c) in Hval as [[t ->] _]; [|apply Hm].
  destruct r1 as [e|[]]; [injection H as <- <-; by apply set_start_ok|].
  apply bind_Ok in H as (auth & Ha & H). rewrite first8_hash in H. injection H as <- <-.
  cbn in Ha. rewrite (mo_committee _ _ _ m Hm) in Ha. apply authority_Ok in Ha.
  assert (auth = self) as -> by congruence.
  apply store_vote_ok; [by apply set_start_ok|]. split; cbn; [done|done|].
  unfold signed_vote, voter. cbn. rewrite own_as_u32, Nat2N.id, <-(vote_message_stake c own self) by done.
  apply own_signature.
Qed.

Lemma process_block_proposal_ok debug now_ms vote_now_ms m bytes m' :
  ok m → process_block_proposal ck blake2b cd own key debug now_ms vote_now_ms m bytes = Ok m' → ok m'.
Proof using All.
  intros Hm H. unfold process_block_proposal in H. destruct (proposal_from_bytes cd bytes) as [p|]; [|by injection H as <-].
  case_match; [apply bind_Ok in H as (? & _ & [= <-]); done|].
  apply bind_Ok in H as (? & _ & H). apply bind_Ok in H as ([m1 r1] & Hp & H).
  apply (process_proposal_ok ck blake2b c) in Hp as [Hm1 _]; [|done].
  destruct r1; [by injection H as <-|]. destruct (get_vote_by_voter _ _ _); [by injection H as <-|].
  apply bind_Ok in H as ([m2 r2] & Hv & [= <-]). by eapply vote_on_proposal_ok.
Qed.

Lemma process_block_vote_ok debug m bytes m' :
  ok m → process_block_vote ck blake2b cd debug m bytes = Ok m' → ok m'.
Proof using Hhash.
  clear -Hhash. intros Hm H. unfold process_block_vote in H. destruct (vote_from_bytes cd bytes) as [v|]; [|by injection H as <-].
  unfold has_pending_proposal_hash in H.
  case_bool_decide as Hp; cbn [negb] in H; [|apply bind_Ok in H as (? & _ & [= <-]); done].
  apply bind_Ok in H as ([m1 r1] & Hv & H).
  apply (process_vote_ok ck blake2b c) in Hv; [|done|by eapply pending_long].
  destruct r1; [by injection H as <-|]. apply bind_Ok in H as (? & _ & [= <-]). by apply note_quorum_ok.
Qed.

Lemma process_block_epoch_change_ok debug now_ms vote_now_ms m proposal votes m' :
  ok m → process_block_epoch_change ck blake2b cd own key debug now_ms vote_now_ms m proposal votes = Ok m' → ok m'.
Proof using All.
  intros Hm H. unfold process_block_epoch_change in H. apply bind_Ok in H as (m1 & Hp & H).
  assert (ok m1) as Hm1 by (destruct proposal; [by eapply process_block_proposal_ok|by injection Hp as <-]).
  clear -Hhash Hm1 H. revert m1 Hm1 H. induction votes as [|b votes IH]; intros m1 Hm1 H; [by injection H as <-|].
  apply bind_Ok in H as (m2 & Hv & H). apply IH in H; [done|]. by eapply process_block_vote_ok.
Qed.

Lemma ec_step_ok m m' : ok m → ec_step m m' → ok m'.
Proof using All.
  intros Hm Hs. pose proof (mo_epoch _ _ _ m Hm). destruct Hs as [? ? ? ? [] ? H1|????? r H1|?????? r ? H1|???? r H1|?|?|?|?].
  - cbn [process_call] in H1. by eapply process_block_epoch_change_ok.
  - cbn [process_call] in H1. by eapply process_block_epoch_change_ok.
  - eapply propose_ok, H1; [done|]. machine_lia.
  - unfold propose_epoch_change_to_target_epoch in H1. destruct (N.leb_spec target (current_epoch m)); [by injection H1 as <- <-|].
    by eapply propose_ok.
  - by eapply vote_on_proposal_ok.
  - by apply time_based_ok.
  - by apply has_pending_ok.
  - by apply cleanup_ok.
  - by apply reset_ok.
Qed.

Lemma ec_steps_ok m m' : rtc ec_step m m' → ok m → ok m'.
Proof using All. induction 1 as [|m1 m2 m3 Hs _ IH]; [done|]. intros Hm. apply IH. by eapply ec_step_ok. Qed.

Lemma reachable_manager_ok m : reachable_manager m → ok m.
Proof using All.
  intros (m0 & (e & s & t & d & dr & He & ->) & Hsteps). eapply ec_steps_ok; [done|]. by apply manager_new_ok.
Qed.

(** ** A transition needs a quorum *)

Definition barrier_passed (p : EpochChangeProposal) (index : N) : Prop := N.min (proposal_commit_index p + 10) u32_max ≤ index.

Lemma should_transition_true now_s m p index :
  should_transition blake2b (mkEnvironment false false) now_s m p index = true ↔
  (check_proposal_quorum blake2b m p = Some true ∧ (barrier_passed p index ∨ created_at_seconds p + 300 ≤ now_s)) ∨
  (current_epoch m + 2 < new_epoch p ∧ barrier_passed p index).
Proof using.
  clear. unfold should_transition, barrier_passed, u32_saturating_add, saturating_sub, MAX_EPOCH_LAG_FOR_QUORUM, TIMEOUT_SECONDS.
  cbn [single_node localhost_testing].
  destruct (N.leb_spec (N.min (proposal_commit_index p + 10) u32_max) index), (N.ltb_spec 2 (new_epoch p - current_epoch m)),
    (N.leb_spec 300 (now_s - created_at_seconds p)), (check_proposal_quorum blake2b m p) as [[]|]; cbn;
    (split; [intros; try done|intros Hor; try done]); try naive_solver lia.
Qed.

(** C12 (safety): a node outside of the development modes leaves its epoch only for a later one
    that a member of the committee proposed and signed, and only if it has the signed
    approvals of a quorum, every authority counted once, and ten commits after the proposal
    or five minutes have passed; or if the proposal is more than two epochs ahead and the ten
    commits have passed. *)
Theorem transition_requires_quorum m values now_s index p :
  reachable_manager m → values ≡ₚ (map_to_list (pending_proposals m)).*2 →
  get_transition_ready_proposal blake2b (mkEnvironment false false) now_s m values index = Some p →
  current_epoch m < new_epoch p ∧ signed_proposal ck c p ∧
  ((approved_by_quorum ck blake2b c p ∧ (barrier_passed p index ∨ created_at_seconds p + 300 ≤ now_s)) ∨
   (current_epoch m + 2 < new_epoch p ∧ barrier_passed p index)).
Proof using All.
  intros Hm%reachable_manager_ok Hvalues H. unfold get_transition_ready_proposal in H.
  assert (p ∈ values ∧ should_transition blake2b (mkEnvironment false false) now_s m p index = true) as [Hin Hst].
  { destruct (list_find _ values) as [[i q]|] eqn:Hf.
    - injection H as ->. apply list_find_Some in Hf as (Hi & [_ ?] & _). split; [by eapply list_elem_of_lookup_2|done].
    - clear Hf. destruct (list_find _ values) as [[i q]|] eqn:Hf; [|done].
      injection H as ->. apply list_find_Some in Hf as (Hi & ? & _). split; [by eapply list_elem_of_lookup_2|done]. }
  rewrite Hvalues in Hin. apply list_elem_of_fmap in Hin as ([h q] & -> & Hq%elem_of_map_to_list). cbn in *.
  destruct (mo_pending _ _ _ m Hm _ _ Hq) as [_ He Hs]. split_and!; [done|done|].
  apply should_transition_true in Hst as [[Hquorum Hor]|Hor]; [left|by right].
  split; [|done]. by eapply check_proposal_quorum_approved.
Qed.

(** ** The votes of a quorum lead to a transition *)

(** The timestamp is at most a day ahead of the clock. *)
Definition admissible (now_ms : N) (p : EpochChangeProposal) : Prop :=
  now_ms < 2 ^ 63 ∧ new_epoch_timestamp_ms p < 2 ^ 63 ∧ new_epoch_timestamp_ms p ≤ now_ms + 86400000.

Lemma i64_sub_small a b : a < 2 ^ 63 → b < 2 ^ 63 → i64_sub (as_i64 a) (as_i64 b) = (Z.of_N a - Z.of_N b)%Z.
Proof using.
  clear. intros Ha Hb. unfold i64_sub, as_i64, wrap_i64.
  rewrite (Z.mod_small (Z.of_N a + _)), (Z.mod_small (Z.of_N b + _)), Z.mod_small by lia. lia.
Qed.

Lemma validate_proposal_accepts now_ms m p :
  ec_committee m = c → new_epoch p = u64_add (current_epoch m) 1 → admissible now_ms p → signed_proposal ck c p →
  ∃ ts, validate_proposal ck now_ms m p = Ok (set_start ts m, inr tt).
Proof using.
  clear. intros Hm He (Hnow & Hts & Hday) Hsig. unfold validate_proposal. rewrite He, N.eqb_refl. cbn [negb].
  assert (is_valid_index c (proposer p) = true) as Hi
    by (destruct Hsig as (? & ? & Ha & _); by apply is_valid_index_true, (lookup_lt_Some _ _ _ Ha)).
  assert (∃ t, m = set_start t m) as [t0 Ht0] by (exists (ec_start_timestamp_ms m); by destruct m).
  rewrite !(i64_sub_small now_ms (new_epoch_timestamp_ms p)) by done.
  unfold MAX_PAST_MS_NORMAL, MAX_FUTURE_MS.
  destruct (Z.ltb_spec (5 * 60 * 1000) (Z.of_N now_ms - Z.of_N (new_epoch_timestamp_ms p))); cbn [andb negb].
  - cbn [ec_start_timestamp_ms set_start ec_committee]. rewrite (i64_sub_small now_ms (new_epoch_timestamp_ms p)) by done.
    rewrite (proj2 (Z.leb_le _ _)) by lia. rewrite Hm, Hi. cbn [negb].
    rewrite (proj2 (verify_proposal_signature_true ck c (set_start (new_epoch_timestamp_ms p) m) p Hm) Hsig). by eexists.
  - rewrite !(proj2 (Z.leb_le _ _)) by lia. rewrite Hm, Hi. cbn [andb negb].
    rewrite (proj2 (verify_proposal_signature_true ck c m p Hm) Hsig). exists t0. by rewrite <-Ht0.
Qed.

Lemma validate_proposal_total now_ms m p : ec_committee m = c → ∃ ts r, validate_proposal ck now_ms m p = Ok (set_start ts m, r).
Proof using.
  clear. intros Hm.
  assert (∃ m' r, validate_proposal ck now_ms m p = Ok (m', r)) as (m' & r & H).
  { unfold validate_proposal. repeat case_match; try by do 2 eexists.
    all: match goal with H : negb (is_valid_index _ _) = false |- _ => apply negb_false_iff, is_valid_index_true, lookup_lt_is_Some in H as [a Ha] end.
    all: unfold verify_proposal_signature; rewrite (proj2 (authority_Ok _ _ _) Ha); cbn; repeat case_match; by do 2 eexists. }
  destruct (validate_proposal_inv ck c now_ms m p m' r H Hm) as [[ts ->] _]. by eexists _, _.
Qed.

(** A proposal is pending and the authorities in [s] approve it. *)
Record voting m (epoch : N) (hash : Bytes) (s : gset AuthorityIndex) : Prop := {
  vt_ok : ok m;
  vt_epoch : current_epoch m = epoch;
  vt_pending : is_Some (pending_proposals m !! hash);
  vt_votes a : a ∈ s → ∃ i v, get_vote_by_voter m hash i = Some v ∧ approve v = true ∧ voter v = a;
}.

Lemma get_vote_store m hash i v j :
  get_vote_by_voter (store_vote hash i v m) hash j = if decide (i = j) then Some v else get_vote_by_voter m hash j.
Proof using.
  clear. unfold get_vote_by_voter, store_vote. cbn. rewrite lookup_insert_eq. cbn.
  destruct (decide (i = j)) as [->|Hne]; [by rewrite lookup_insert_eq|]. rewrite lookup_insert_ne by done.
  by destruct (proposal_votes m !! hash).
Qed.

Lemma note_quorum_voting m epoch hash s h : voting m epoch hash s → voting (note_quorum blake2b m h) epoch hash s.
Proof using.
  clear. intros [Hm He Hp Hv]. assert (ok (note_quorum blake2b m h)) as Hok by by apply note_quorum_ok.
  revert Hok. unfold note_quorum. repeat case_match; by split.
Qed.

Lemma process_block_proposal_pending debug now_ms vote_now_ms m bytes p :
  ok m → proposal_from_bytes cd bytes = Some p → new_epoch p = u64_add (current_epoch m) 1 → admissible now_ms p →
  signed_proposal ck c p →
  ∃ m', process_block_proposal ck blake2b cd own key debug now_ms vote_now_ms m bytes = Ok m' ∧
    voting m' (current_epoch m) (hash_of p) ∅.
Proof using All.
  intros Hm Hbytes He Hadm Hsig.
  assert (∃ m1, process_proposal ck blake2b now_ms m p = Ok (m1, inr tt) ∧ current_epoch m1 = current_epoch m) as (m1 & Hp & He1).
  { unfold process_proposal. case_match; [by eexists|].
    destruct (validate_proposal_accepts now_ms m p (mo_committee _ _ _ m Hm) He Hadm Hsig) as [ts ->]. by eexists. }
  destruct (process_proposal_ok ck blake2b c now_ms m p m1 _ Hm Hp) as [Hm1 Hpending%(λ f, f eq_refl)].
  assert (∃ m', process_block_proposal ck blake2b cd own key debug now_ms vote_now_ms m bytes = Ok m' ∧
            current_epoch m' = current_epoch m ∧ pending_proposals m' = pending_proposals m1) as (m' & H & He' & Hp').
  { unfold process_block_proposal. rewrite Hbytes, He, N.eqb_refl, first8_hash. cbn [negb obind]. rewrite Hp. cbn [obind].
    case_match; [by eexists|]. unfold vote_on_proposal.
    destruct (validate_proposal_total vote_now_ms m1 p (mo_committee _ _ _ m1 Hm1)) as (ts & [e|[]] & ->); cbn [obind]; [by eexists|].
    cbn [ec_committee set_start]. rewrite (mo_committee _ _ _ m1 Hm1), (proj2 (authority_Ok _ _ _) Hself), first8_hash. by eexists. }
  exists m'. split; [done|]. split; [exact (process_block_proposal_ok _ _ _ _ _ _ Hm H)|done|by rewrite Hp'|set_solver].
Qed.

Lemma process_block_vote_voting debug m epoch p s bytes v :
  voting m epoch (hash_of p) s → vote_from_bytes cd bytes = Some v → vote_proposal_hash v = hash_of p → approve v = true →
  signed_vote ck c (hash_of p) v →
  ∃ m', process_block_vote ck blake2b cd debug m bytes = Ok m' ∧ voting m' epoch (hash_of p) ({[voter v]} ∪ s).
Proof using Hhash.
  clear -Hhash. intros [Hm He Hp Hv] Hbytes Hvh Ha Hsig. unfold process_block_vote. rewrite Hbytes, Hvh.
  unfold has_pending_proposal_hash. rewrite bool_decide_eq_true_2 by done. cbn [negb]. unfold process_vote.
  rewrite (proj2 (validate_vote_true ck c m v (mo_committee _ _ _ m Hm) ltac:(rewrite Hvh; apply hash_long))) by (by rewrite Hvh).
  cbn [obind]. unfold debug_slice. rewrite first8_hash. assert (∀ b (x : EpochChangeManager), (do! (if b : bool then do! Ok (take 8 (hash_of p)) in Ok tt else Ok tt) in Ok x) = Ok x) as ->
    by by intros []. eexists. split; [done|]. rewrite Hvh.
  apply note_quorum_voting. split; [by apply store_vote_ok|done|done|].
  intros a Hin. destruct (decide (a = voter v)) as [->|Hne].
  - exists (voter_value v), v. rewrite get_vote_store, decide_True by done. done.
  - destruct (Hv a ltac:(set_solver)) as (i & w & Hw & Hwa & Hwv). exists i, w.
    rewrite get_vote_store, decide_False; [done|]. intros <-. unfold get_vote_by_voter in Hw.
    apply bind_Some in Hw as (votes & Hvotes & Hw). destruct (mo_votes _ _ _ m Hm _ _ _ _ Hvotes Hw) as [_ Hwi _].
    unfold voter in *. congruence.
Qed.

Lemma process_votes_voting debug p vote_bytes votes m epoch s :
  voting m epoch (hash_of p) s → Forall2 (λ b v, vote_from_bytes cd b = Some v) vote_bytes votes →
  Forall (λ v, vote_proposal_hash v = hash_of p ∧ approve v = true ∧ signed_vote ck c (hash_of p) v) votes →
  ∃ m', for_each (process_block_vote ck blake2b cd debug) m vote_bytes = Ok m' ∧
    voting m' epoch (hash_of p) (list_to_set (voter <$> votes) ∪ s).
Proof using Hhash.
  clear -Hhash. intros Hm Hdec. revert m s Hm. induction Hdec as [|b v bs vs Hb _ IH]; intros m s Hm Hall.
  - exists m. split; [done|]. cbn. by rewrite (left_id_L ∅ (∪)).
  - apply Forall_cons in Hall as [(Hvh & Ha & Hs) Hall].
    destruct (process_block_vote_voting debug m epoch p s b v Hm Hb Hvh Ha Hs) as (m1 & H1 & Hm1).
    destruct (IH m1 _ Hm1 Hall) as (m' & H & Hm'). exists m'. cbn. rewrite H1. split; [done|].
    cbn. by rewrite <-(assoc_L (∪)), (comm_L (∪) {[voter v]}), <-(assoc_L (∪)), (comm_L (∪) s).
Qed.

(** C27 (liveness): if a block brings a proposal of the next epoch that a member signed and whose
    timestamp is at most a day ahead, with the signed approvals of a quorum, the hook processes
    all of them without failing, and from the tenth commit after the proposal on the node is
    ready for a transition to the next epoch, in whatever order the hash map lists the pending
    proposals.  Votes stored before and the node's own vote do not get in the way.  Hashing has
    no collisions. *)
Theorem quorum_votes_enable_transition debug now_ms vote_now_ms m proposal_bytes p vote_bytes votes :
  reachable_manager m → (∀ x y, blake2b x = blake2b y → x = y) →
  proposal_from_bytes cd proposal_bytes = Some p → Forall2 (λ b v, vote_from_bytes cd b = Some v) vote_bytes votes →
  new_epoch p = current_epoch m + 1 → admissible now_ms p → signed_proposal ck c p →
  Forall (λ v, vote_proposal_hash v = hash_of p ∧ approve v = true ∧ signed_vote ck c (hash_of p) v) votes →
  quorum_threshold c ≤ set_stake c (list_to_set (voter <$> votes)) →
  ∃ m', process_block_epoch_change ck blake2b cd own key debug now_ms vote_now_ms m (Some proposal_bytes) vote_bytes = Ok m' ∧
    ∀ e now_s values index, values ≡ₚ (map_to_list (pending_proposals m')).*2 → barrier_passed p index →
      ∃ p', get_transition_ready_proposal blake2b e now_s m' values index = Some p' ∧ new_epoch p' = current_epoch m + 1.
Proof using All.
  intros Hm%reachable_manager_ok Hinj Hpb Hvb He Hadm Hsig Hall Hq.
  assert (u64_add (current_epoch m) 1 = current_epoch m + 1) as Hnext by (pose proof (mo_epoch _ _ _ m Hm); machine_lia).
  destruct (process_block_proposal_pending debug now_ms vote_now_ms m proposal_bytes p) as (m1 & H1 & Hm1); [done|done|congruence|done..|].
  destruct (process_votes_voting debug p vote_bytes votes m1 _ _ Hm1 Hvb Hall) as (m' & H & [Hm' He' [q Hpq] Hv]).
  exists m'. split; [unfold process_block_epoch_change; by rewrite H1|].
  intros e now_s values index Hvalues Hb. rewrite (right_id_L ∅ (∪)) in Hv.
  destruct (mo_pending _ _ _ m' Hm' _ _ Hpq) as [Hhq _ _].
  destruct (hash_proposal_inj blake2b q p Hinj Hhq) as (Hqe & _ & Hqi & _).
  assert (check_proposal_quorum blake2b m' q = Some true) as Hquorum
    by (eapply check_proposal_quorum_reached; [done..|]; by rewrite Hhq).
  assert (should_transition blake2b e now_s m' q index = true) as Hst.
  { unfold should_transition. rewrite Hquorum. unfold u32_saturating_add.
    rewrite (proj2 (N.leb_le _ _)) by (rewrite Hqi; exact Hb). by destruct e as [[] []]. }
  assert (q ∈ values) as Hin.
  { rewrite Hvalues. apply list_elem_of_fmap. exists (hash_of p, q). by rewrite elem_of_map_to_list. }
  unfold get_transition_ready_proposal. rewrite He', Hnext.
  destruct (list_find_elem_of (λ p, new_epoch p = current_epoch m + 1 ∧ should_transition blake2b e now_s m' p index = true)
    values q Hin) as [[i p'] Hf]; [split; [congruence|done]|].
  rewrite Hf. exists p'. split; [done|]. by apply list_find_Some in Hf as (_ & [? _] & _).
Qed.
End reachable.

(** ** A rejected proposal *)

(** C38 (error): a proposal of the next epoch with an old timestamp from a proposer that is not in
    the committee is rejected and not stored, but the start of the epoch has already been set
    to its timestamp; if the timestamp is older than the duration of an epoch, the node is due
    to propose the end of its epoch. *)
Theorem rejected_proposal_ends_epoch ck blake2b now_ms m p :
  time_based_enabled m = true → new_epoch p = u64_add (current_epoch m) 1 →
  pending_proposals m !! hash_proposal blake2b p = None → is_valid_index (ec_committee m) (proposer p) = false →
  now_ms < 2 ^ 63 → new_epoch_timestamp_ms p + 300000 < now_ms →
  new_epoch_timestamp_ms p + 1000 * epoch_duration_seconds m ≤ now_ms →
  ∃ m', process_proposal ck blake2b now_ms m p = Ok (m', inl "Invalid proposer authority index"%string) ∧
    pending_proposals m' = pending_proposals m ∧ ec_start_timestamp_ms m' = new_epoch_timestamp_ms p ∧
    (should_propose_time_based now_ms m').2 = true.
Proof.
  intros Ht He Hp Hi Hnow Hold Hdur. exists (set_start (new_epoch_timestamp_ms p) m). split_and!; [|done|done|].
  - unfold process_proposal, has_pending_proposal_hash. rewrite Hp, bool_decide_eq_false_2 by (by intros [? ?]).
    unfold validate_proposal. rewrite He, N.eqb_refl. cbn [negb].
    rewrite (i64_sub_small now_ms (new_epoch_timestamp_ms p)) by lia. unfold MAX_PAST_MS_NORMAL, MAX_FUTURE_MS.
    rewrite (proj2 (Z.ltb_lt _ _)) by lia. cbn [andb negb ec_start_timestamp_ms ec_committee set_start].
    rewrite (i64_sub_small now_ms (new_epoch_timestamp_ms p)), (proj2 (Z.leb_le _ _)) by lia. by rewrite Hi.
  - unfold should_propose_time_based. cbn [time_based_enabled epoch_duration_seconds ec_start_timestamp_ms set_start].
    rewrite Ht. cbn [negb snd]. machine. apply N.leb_le, N.div_le_lower_bound; lia.
Qed.

(** ** Four validators *)

(** A toy hash without collisions. *)
Definition toy_hash (bytes : Bytes) : Bytes := bytes ++ replicate 8 0.

Lemma toy_hash_long bytes : (8 ≤ length (toy_hash bytes))%nat.
Proof. unfold toy_hash. rewrite length_app. cbn. lia. Qed.

Lemma toy_hash_inj x y : toy_hash x = toy_hash y → x = y.
Proof. apply app_inv_tail. Qed.

(** Authority 1 proposes epoch 1 at commit 40. *)
Definition proposal4 : EpochChangeProposal :=
  mkEpochChangeProposal 1 5000000 40 1 (proposal_message 1 5000000 40 1) 5000.
Definition vote4 (i : N) : EpochChangeVote :=
  mkEpochChangeVote (hash_proposal toy_hash proposal4) i true (vote_message (take 8 (hash_proposal toy_hash proposal4)) true 1).
Definition epoch_codec4 : EpochCodec :=
  mkEpochCodec (λ bytes, match bytes with [] => Some proposal4 | _ => None end)
    (λ bytes, match bytes with [i] => Some (vote4 i) | _ => None end).

Definition manager4 : EpochChangeManager := manager_new 0 committee4 0 4000000 true 3600 5000.
Definition epoch_calls4 : list EpochCall := [ProcessProposal []; ProcessVote [2]; ProcessVote [3]].
Definition voted4 : EpochChangeManager :=
  of_outcome (for_each (process_call toy_crypto toy_hash epoch_codec4 0 tt true 5000100 5000200) manager4 epoch_calls4) manager4.
Definition self4 : Authority := default (mkAuthority 0 "" "" [] [] []) (authorities committee4 !! 0%nat).

Lemma calls_reachable ck blake2b cd c own key debug now vote_now m calls m' :
  for_each (process_call ck blake2b cd own key debug now vote_now) m calls = Ok m' →
  reachable_manager ck blake2b cd c own key m → reachable_manager ck blake2b cd c own key m'.
Proof.
  revert m. induction calls as [|call calls IH]; intros m H Hm; [by injection H as <-|].
  apply bind_Ok in H as (m1 & H1 & H). apply (IH m1 H). destruct Hm as (m0 & H0 & Hsteps).
  exists m0. split; [done|]. eapply rtc_r; [done|]. by eapply step_call.
Qed.

Lemma manager4_reachable : reachable_manager toy_crypto toy_hash epoch_codec4 committee4 0 tt manager4.
Proof. exists manager4. split; [|done]. by exists 0, 4000000, true, 3600, 5000. Qed.

Lemma voted4_reachable : reachable_manager toy_crypto toy_hash epoch_codec4 committee4 0 tt voted4.
Proof.
  eapply (calls_reachable _ _ _ _ _ _ true 5000100 5000200 manager4 epoch_calls4); [|apply manager4_reachable].
  vm_compute. reflexivity.
Qed.

Lemma transition_requires_quorum_witness :
  get_transition_ready_proposal toy_hash (mkEnvironment false false) 6000 voted4 [proposal4] 49 = Some proposal4 ∧
  current_epoch voted4 < new_epoch proposal4 ∧ signed_proposal toy_crypto committee4 proposal4 ∧
  ((approved_by_quorum toy_crypto toy_hash committee4 proposal4 ∧ (barrier_passed proposal4 49 ∨ created_at_seconds proposal4 + 300 ≤ 6000)) ∨
   (current_epoch voted4 + 2 < new_epoch proposal4 ∧ barrier_passed proposal4 49)).
Proof.
  split; [vm_compute; reflexivity|].
  apply (transition_requires_quorum toy_crypto toy_hash epoch_codec4 committee4 0 tt self4 toy_crypto_laws committee4_ok
    eq_refl eq_refl toy_hash_long voted4 [proposal4] 6000 49 proposal4 voted4_reachable); vm_compute; reflexivity.
Defined.

Lemma quorum_votes_enable_transition_witness :
  ∃ m', process_block_epoch_change toy_crypto toy_hash epoch_codec4 0 tt false 5000100 5000200 manager4 (Some []) [[1]; [2]; [3]] = Ok m' ∧
    ∀ e now_s values index, values ≡ₚ (map_to_list (pending_proposals m')).*2 → barrier_passed proposal4 index →
      ∃ p', get_transition_ready_proposal toy_hash e now_s m' values index = Some p' ∧ new_epoch p' = current_epoch manager4 + 1.
Proof.
  apply (quorum_votes_enable_transition toy_crypto toy_hash epoch_codec4 committee4 0 tt self4 toy_crypto_laws committee4_ok
    eq_refl eq_refl toy_hash_long false 5000100 5000200 manager4 [] proposal4 [[1]; [2]; [3]] (vote4 <$> [1; 2; 3])
    manager4_reachable toy_hash_inj).
  - reflexivity.
  - repeat constructor.
  - reflexivity.
  - split_and!; vm_compute; [reflexivity|reflexivity|discriminate].
  - eexists _, _. split_and!; [reflexivity|reflexivity|vm_compute; reflexivity].
  - repeat constructor; eexists _, _; (split_and!; [reflexivity|reflexivity|vm_compute; reflexivity]).
  - vm_compute. discriminate.
Defined.

(** A proposal of a stranger, with a timestamp an hour ago. *)
Definition stranger4 : EpochChangeProposal := mkEpochChangeProposal 1 1400000 40 9 [] 5000.

Lemma rejected_proposal_ends_epoch_witness :
  (should_propose_time_based 5000000 manager4).2 = false ∧
  ∃ m', process_proposal toy_crypto toy_hash 5000000 manager4 stranger4 = Ok (m', inl "Invalid proposer authority index"%string) ∧
    pending_proposals m' = pending_proposals manager4 ∧ ec_start_timestamp_ms m' = 1400000 ∧
    (should_propose_time_based 5000000 m').2 = true.
Proof.
  split; [reflexivity|].
  apply (rejected_proposal_ends_epoch toy_crypto toy_hash 5000000 manager4 stranger4); vm_compute; first [reflexivity|discriminate].
Defined.
