(* ===== verification/Executor.v ===== *)
(** * The client of the executor ([metanode/src/executor_client.rs], [tx_hash.rs], [checkpoint.rs])

    Committed sub-dags are turned into messages for the executor, numbered with a global
    execution index, buffered, and written to a stream in the order of that index.  Protocol
    buffers and hashing are parameters; whether a connection and a write succeed is an
    argument.  The requests for epochs and validators are calls of the executor and are left
    out. *)

From Stdlib Require Import Ascii.
From S2P Require Import Prelude Collections Weighted Committee Types Commits.

Local Open Scope N_scope.

(** ** Execution indices *)

Definition calculate_global_exec_index (epoch commit_index last_global_exec_index : N) : N :=
  if epoch =? 0 then
    if u64_mul commit_index 10 <? last_global_exec_index then u64_add last_global_exec_index commit_index else commit_index
  else u64_add last_global_exec_index commit_index.

(** ** Messages *)

Record TransactionExe := mkTransactionExe {
  tx_digest : Bytes;
  worker_id : N;
}.
Record CommittedBlock := mkCommittedBlock {
  cb_epoch : N;
  cb_height : N;
  cb_transactions : list TransactionExe;
}.
Record CommittedEpochData := mkCommittedEpochData {
  ed_blocks : list CommittedBlock;
  ed_global_exec_index : N;
  ed_commit_index : N;
}.

(** Generated code for the transactions of the application and the messages, and the hash. *)
Record ProtoCodec := mkProtoCodec {
  ProtoTransaction : Type;
  decode_transactions : Bytes → option (list ProtoTransaction);
  decode_transaction : Bytes → option ProtoTransaction;
  encode_hash_data : ProtoTransaction → option Bytes;
  proto_data : ProtoTransaction → Bytes;
  encode_epoch_data : CommittedEpochData → Bytes;
  keccak256 : Bytes → Bytes;
}.

(** [Vec<u8>::cmp] *)
Fixpoint bytes_cmp (a b : Bytes) : comparison :=
  match a, b with
  | [], [] => Eq
  | [], _ :: _ => Lt
  | _ :: _, [] => Gt
  | x :: a, y :: b => then_with (x ?= y) (bytes_cmp a b)
  end.
#[export] Instance ord_bytes : Ord Bytes := bytes_cmp.

(** Outcome of one write to the stream; one that fails or times out may have arrived. *)
Inductive SendResult :=
| Sent
| SendFailed (arrived : bool).

(** [received] lists what has arrived at the executor. *)
Record ExecutorClient := mkExecutorClient {
  enabled : bool;
  can_commit : bool;
  send_buffer : gmap N (Bytes * N * N);
  next_expected_index : N;
  received : list (N * Bytes);
}.

Definition executor_client_new (enabled can_commit : bool) : ExecutorClient := mkExecutorClient enabled can_commit ∅ 1 [].

(** [last_block_number] is the answer of the executor, if it comes. *)
Definition initialize_from_go (last_block_number : option N) (cl : ExecutorClient) : ExecutorClient :=
  if negb (enabled cl) then cl else
  match last_block_number with
  | None => cl
  | Some n =>
      let new_next_expected := u64_add n 1 in
      if next_expected_index cl <? new_next_expected
      then mkExecutorClient (enabled cl) (can_commit cl) (send_buffer cl) new_next_expected (received cl)
      else cl
  end.

(** The loop that sends the blocks that come next.  A block that fails goes back to the
    buffer; without a result the connection is lost. *)
Fixpoint flush_loop (fuel : nat) (results : list SendResult) (cl : ExecutorClient) {struct fuel} : ExecutorClient :=
  match fuel with
  | O => cl
  | S fuel =>
      let current_expected := next_expected_index cl in
      match send_buffer cl !! current_expected with
      | None => cl
      | Some ((bytes, epoch, commit_index) as block) =>
          match results with
          | Sent :: results =>
              flush_loop fuel results
                (mkExecutorClient (enabled cl) (can_commit cl) (delete current_expected (send_buffer cl))
                  (u64_add current_expected 1) (received cl ++ [(current_expected, bytes)]))
          | SendFailed true :: _ =>
              mkExecutorClient (enabled cl) (can_commit cl) (send_buffer cl) current_expected (received cl ++ [(current_expected, bytes)])
          | SendFailed false :: _ | [] => cl
          end
      end
  end.

(** [network] is [None] when the connection cannot be made.  Every round takes a block from
    the buffer. *)
Definition flush_buffer (network : option (list SendResult)) (cl : ExecutorClient) : ExecutorClient :=
  match network with
  | None => cl
  | Some results => flush_loop (S (size (send_buffer cl))) results cl
  end.

(** Length prefix of a message: seven bits a byte, the lowest first. *)
Fixpoint uvarint_loop (fuel : nat) (value : N) : Bytes :=
  match fuel with
  | O => []
  | S fuel =>
      let b := N.land value 127 in
      let value := N.shiftr value 7 in
      if value =? 0 then [b] else N.lor b 128 :: uvarint_loop fuel value
  end.
(** A [u64] has ten groups of seven bits. *)
Definition write_uvarint (value : N) : Bytes := uvarint_loop 10 value.

(** What [send_block_data] writes. *)
Definition frame (bytes : Bytes) : Bytes := write_uvarint (N.of_nat (length bytes)) ++ bytes.

Section executor.
Context (pc : ProtoCodec).

Definition calculate_single_transaction_hash (tx : ProtoTransaction pc) : Bytes :=
  match encode_hash_data pc tx with
  | Some buf => keccak256 pc buf
  | None => keccak256 pc (proto_data pc tx)
  end.

Definition calculate_transaction_hash (tx_data : Bytes) : Bytes :=
  match decode_transactions pc tx_data with
  | Some (tx :: _) => calculate_single_transaction_hash tx
  | _ =>
      match decode_transaction pc tx_data with
      | Some tx => calculate_single_transaction_hash tx
      | None => keccak256 pc tx_data
      end
  end.

Definition verify_transaction_protobuf (tx_data : Bytes) : bool :=
  match decode_transactions pc tx_data with
  | Some _ => true
  | None => match decode_transaction pc tx_data with Some _ => true | None => false end
  end.

(** Transactions that are not protocol buffers are left out, the others are sorted by hash. *)
Definition convert_block (sd : CommittedSubDag) (epoch : N) (b : VerifiedBlock) : CommittedBlock :=
  let with_hash := (λ tx, (tx, calculate_transaction_hash tx)) <$>
    filter (λ tx, verify_transaction_protobuf tx = true) (block_transactions_data (vb_inner b)) in
  mkCommittedBlock epoch (cref_index (sd_commit_ref sd)) ((λ p, mkTransactionExe p.1 0) <$> sort_by_key snd with_hash).

Definition convert_to_protobuf (sd : CommittedSubDag) (epoch global_exec_index : N) : Bytes :=
  let blocks := sort_by_key cb_height (convert_block sd epoch <$> sd_blocks sd) in
  encode_epoch_data pc (mkCommittedEpochData blocks global_exec_index (cref_index (sd_commit_ref sd))).

Definition send_committed_subdag (network : option (list SendResult)) (sd : CommittedSubDag) (epoch global_exec_index : N)
    (cl : ExecutorClient) : ExecutorClient :=
  if negb (enabled cl) then cl else
  if negb (can_commit cl) then cl else
  let bytes := convert_to_protobuf sd epoch global_exec_index in
  flush_buffer network
    (mkExecutorClient (enabled cl) (can_commit cl) (<[global_exec_index := (bytes, epoch, cref_index (sd_commit_ref sd))]> (send_buffer cl))
      (next_expected_index cl) (received cl)).
End executor.
