(* ===== verification/CommitProcessor.v ===== *)
(** * The commit processor ([metanode/src/commit_processor.rs], [checkpoint.rs],
    [checkpoint_epoch_transition.rs])

    The processor takes committed sub-dags from the consensus in any order and handles them by
    commit index: each one is given to the executor or, past the barrier of an epoch change,
    its transactions are queued for the next epoch.  The barrier is written by another thread:
    the two values that are read for a commit are arguments, as are the clock, the network and
    the result of a block-based epoch change.  Messages and heartbeats are left out. *)

From Stdlib Require Import Ascii.
From S2P Require Import Prelude Collections Weighted Committee Types Commits Executor.

Local Open Scope N_scope.

(** ** Checkpoints *)

Record EndOfEpochData := mkEndOfEpochData {
  next_epoch_committee : list (AuthorityIndex * N);
  next_epoch_protocol_version : N;
  epoch_start_timestamp_ms : N;
}.
Record Checkpoint := mkCheckpoint {
  sequence_number : N;
  checkpoint_epoch : N;
  checkpoint_commit_index : N;
  checkpoint_timestamp_ms : N;
  block_count : N;
  end_of_epoch_data : option EndOfEpochData;
}.
Record CheckpointManager := mkCheckpointManager {
  checkpoints : gmap N Checkpoint;
  cm_current_epoch : N;
  last_sequence_number : N;
  total_blocks_processed : N;
  blocks_per_epoch : N;
  cm_own_index : AuthorityIndex;
}.

Definition checkpoint_manager_new (blocks_per_epoch : N) (own : AuthorityIndex) : CheckpointManager :=
  mkCheckpointManager ∅ 0 0 0 blocks_per_epoch own.

Definition get_next_epoch_committee : list (AuthorityIndex * N) := [(0%nat, 1000); (1%nat, 1000); (2%nat, 1000); (3%nat, 1000)].

Definition should_create_end_of_epoch_checkpoint (now_ms : N) (cm : CheckpointManager) (sequence_number : N) : option EndOfEpochData :=
  let epoch_boundary := u64_mul (u64_add (cm_current_epoch cm) 1) (blocks_per_epoch cm) in
  if epoch_boundary <=? sequence_number then Some (mkEndOfEpochData get_next_epoch_committee 1 now_ms) else None.

Definition create_checkpoint (now_ms commit_index block_count : N) (cm : CheckpointManager) : CheckpointManager * Checkpoint :=
  let sequence_number := u64_add (total_blocks_processed cm) block_count in
  let end_of_epoch_data := should_create_end_of_epoch_checkpoint now_ms cm sequence_number in
  let checkpoint := mkCheckpoint sequence_number (cm_current_epoch cm) commit_index now_ms block_count end_of_epoch_data in
  (mkCheckpointManager (<[sequence_number := checkpoint]> (checkpoints cm)) (cm_current_epoch cm) sequence_number sequence_number
    (blocks_per_epoch cm) (cm_own_index cm), checkpoint).

Definition advance_epoch (cm : CheckpointManager) : CheckpointManager :=
  mkCheckpointManager (checkpoints cm) (u64_add (cm_current_epoch cm) 1) (last_sequence_number cm) (total_blocks_processed cm)
    (blocks_per_epoch cm) (cm_own_index cm).

(** The manager and the counter of blocks in the epoch.  Giving the change of epoch to the
    executor never fails: [submit_checkpoint_epoch_change_transaction] turns errors into
    success. *)
Definition process_commit_and_check_epoch_transition (now_ms : N) (sd : CommittedSubDag) (commit_index : N)
    (cm : CheckpointManager) (blocks_in_current_epoch : N) : CheckpointManager * N :=
  let '(cm, checkpoint) := create_checkpoint now_ms commit_index (N.of_nat (length (sd_blocks sd)) `mod` u32_modulus) cm in
  match end_of_epoch_data checkpoint with
  | None => (cm, blocks_in_current_epoch)
  | Some _ =>
      let total_nodes := 4 in
      let primary_leader := cm_current_epoch cm `mod` total_nodes in
      let fallback_leader := u64_add (cm_current_epoch cm) 1 `mod` total_nodes in
      let my_index := N.of_nat (cm_own_index cm) in
      if my_index =? primary_leader then (advance_epoch cm, 0)
      else if my_index =? fallback_leader then (advance_epoch cm, 0)
      else (cm, blocks_in_current_epoch)
  end.

(** ** The processor *)

(** What happens around the handling of the commit with a given index. *)
Record Environment := mkEnvironment {
  barrier_read : N → N;
  barrier_reread : N → N;
  network : N → option (list SendResult);
  clock_ms : N → N;
  block_transition_error : N → option string;
}.

(** [cp_notified] lists the calls of the callback, [cp_block_threshold] is the number of blocks
    per epoch of the epoch transition manager, if there is one. *)
Record CommitProcessor := mkCommitProcessor {
  cp_next_expected_index : N;
  pending_commits : gmap N CommittedSubDag;
  barrier_snapshot : N;
  cp_epoch : N;
  last_global_exec_index : N;
  executor_client : option ExecutorClient;
  pending_transactions_queue : option (list Bytes);
  cp_notified : list N;
  blocks_in_current_epoch : N;
  cp_block_threshold : option N;
  checkpoint_manager : option CheckpointManager;
}.

Implicit Types p : CommitProcessor.

Definition commit_processor_new (epoch last : N) (client : option ExecutorClient) (queue : option (list Bytes)) (threshold : option N)
    (cm : option CheckpointManager) : CommitProcessor :=
  mkCommitProcessor 1 ∅ 0 epoch last client queue [] 0 threshold cm.

Definition with_snapshot (v : N) p : CommitProcessor :=
  mkCommitProcessor (cp_next_expected_index p) (pending_commits p) v (cp_epoch p) (last_global_exec_index p) (executor_client p)
    (pending_transactions_queue p) (cp_notified p) (blocks_in_current_epoch p) (cp_block_threshold p) (checkpoint_manager p).
Definition with_pending (m : gmap N CommittedSubDag) p : CommitProcessor :=
  mkCommitProcessor (cp_next_expected_index p) m (barrier_snapshot p) (cp_epoch p) (last_global_exec_index p) (executor_client p)
    (pending_transactions_queue p) (cp_notified p) (blocks_in_current_epoch p) (cp_block_threshold p) (checkpoint_manager p).
Definition with_client (cl : option ExecutorClient) p : CommitProcessor :=
  mkCommitProcessor (cp_next_expected_index p) (pending_commits p) (barrier_snapshot p) (cp_epoch p) (last_global_exec_index p) cl
    (pending_transactions_queue p) (cp_notified p) (blocks_in_current_epoch p) (cp_block_threshold p) (checkpoint_manager p).
Definition with_counts (cm : option CheckpointManager) (blocks : N) p : CommitProcessor :=
  mkCommitProcessor (cp_next_expected_index p) (pending_commits p) (barrier_snapshot p) (cp_epoch p) (last_global_exec_index p)
    (executor_client p) (pending_transactions_queue p) (cp_notified p) blocks (cp_block_threshold p) cm.

(** Call of the callback and step to the next index. *)
Definition commit_done (i : N) p : CommitProcessor :=
  mkCommitProcessor (u32_add (cp_next_expected_index p) 1) (pending_commits p) (barrier_snapshot p) (cp_epoch p)
    (last_global_exec_index p) (executor_client p) (pending_transactions_queue p) (cp_notified p ++ [i])
    (blocks_in_current_epoch p) (cp_block_threshold p) (checkpoint_manager p).

Definition subdag_transactions (sd : CommittedSubDag) : list Bytes :=
  concat ((λ b, block_transactions_data (vb_inner b)) <$> sd_blocks sd).

(** Without a queue the transactions are left to the clients. *)
Definition requeue (sd : CommittedSubDag) p : CommitProcessor :=
  mkCommitProcessor (cp_next_expected_index p) (pending_commits p) (barrier_snapshot p) (cp_epoch p) (last_global_exec_index p)
    (executor_client p) ((λ q, q ++ subdag_transactions sd) <$> pending_transactions_queue p) (cp_notified p)
    (blocks_in_current_epoch p) (cp_block_threshold p) (checkpoint_manager p).

Section processor.
Context (pc : ProtoCodec) (env : Environment).

(** The barrier is kept after it is reset to zero. *)
Definition check_barrier (i : N) p : CommitProcessor * bool :=
  let barrier_val := barrier_read env i in
  let p := if 0 <? barrier_val then with_snapshot barrier_val p else p in
  let effective_barrier := if 0 <? barrier_val then barrier_val else barrier_snapshot p in
  (p, (0 <? effective_barrier) && (effective_barrier <? i)).

Definition process_commit (sd : CommittedSubDag) (global_exec_index : N) p : CommitProcessor :=
  let commit_index := cref_index (sd_commit_ref sd) in
  let barrier_val := barrier_reread env commit_index in
  if (0 <? barrier_val) && (barrier_val <? commit_index) then requeue sd p
  else with_client (send_committed_subdag pc (network env commit_index) sd (cp_epoch p) global_exec_index <$> executor_client p) p.

(** Commits that arrived early and are next now. *)
Fixpoint drain_pending (fuel : nat) p : CommitProcessor :=
  match fuel with
  | O => p
  | S fuel =>
      let i := cp_next_expected_index p in
      match pending_commits p !! i with
      | None => p
      | Some pending =>
          let p := with_pending (delete i (pending_commits p)) p in
          let '(p, is_past_barrier) := check_barrier i p in
          let p :=
            if is_past_barrier then requeue pending p
            else process_commit pending (calculate_global_exec_index (cp_epoch p) i (last_global_exec_index p)) p in
          drain_pending fuel (commit_done i p)
      end
  end.

(** The checkpoint of a commit and the counter of blocks; an error of the block-based change
    of epoch ends the processor. *)
Definition count_blocks (i : N) (sd : CommittedSubDag) p : CommitProcessor * option string :=
  let p :=
    match checkpoint_manager p with
    | None => p
    | Some cm =>
        let '(cm, blocks) := process_commit_and_check_epoch_transition (clock_ms env i) sd i cm (blocks_in_current_epoch p) in
        with_counts (Some cm) blocks p
    end in
  let blocks_count := N.of_nat (length (sd_blocks sd)) `mod` u32_modulus in
  if 0 <? blocks_count then
    let current_count := u32_add (blocks_in_current_epoch p) blocks_count in
    let p := with_counts (checkpoint_manager p) current_count p in
    match cp_block_threshold p with
    | Some threshold => if threshold <=? current_count then (p, block_transition_error env i) else (p, None)
    | None => (p, None)
    end
  else (p, None).

(** One sub-dag of the channel.  After a commit past the barrier the early ones stay. *)
Definition receive (sd : CommittedSubDag) p : CommitProcessor * option string :=
  let commit_index := cref_index (sd_commit_ref sd) in
  if commit_index =? cp_next_expected_index p then
    let '(p, is_past_barrier) := check_barrier commit_index p in
    if is_past_barrier then (commit_done commit_index (requeue sd p), None) else
    let p := process_commit sd (calculate_global_exec_index (cp_epoch p) commit_index (last_global_exec_index p)) p in
    let '(p, error) := count_blocks commit_index sd p in
    match error with
    | Some e => (p, Some e)
    | None => let p := commit_done commit_index p in (drain_pending (S (size (pending_commits p))) p, None)
    end
  else if cp_next_expected_index p <? commit_index then (with_pending (<[commit_index := sd]> (pending_commits p)) p, None)
  else (p, None).

(** The sub-dags that arrive until the channel is closed. *)
Fixpoint run (sds : list CommittedSubDag) p : CommitProcessor * option string :=
  match sds with
  | [] => (p, None)
  | sd :: sds =>
      match receive sd p with
      | (p, Some e) => (p, Some e)
      | (p, None) => run sds p
      end
  end.
End processor.
