(* ===== verification/CommitProcessorSpec.v ===== *)
(** * Commits reach the executor in order

    The commits that arrive in any order are handled as if they had arrived in the order of
    their indices; none is lost; and when nothing stands in the way the executor receives all
    of them, once, with consecutive execution indices. *)

From Stdlib Require Import Ascii.
From S2P Require Import Prelude Collections Weighted Committee Types Fixtures Commits DagState DagRecovery Errors BlockVerifier Executor CommitProcessor.

Local Open Scope N_scope.

(** ** Execution indices *)

(** The execution index that comes before the first commit of the epoch. *)
Definition base_index (epoch last : N) : N := if epoch =? 0 then 0 else last.

Definition consecutive (epoch last : N) : Prop := epoch ≠ 0 ∨ last ≤ 10.

Lemma global_exec_index_base epoch last i :
  consecutive epoch last → 1 ≤ i → i < u32_modulus → last + i < u64_modulus →
  calculate_global_exec_index epoch i last = base_index epoch last + i.
Proof.
  intros Hc Hi Hu Hb. unfold calculate_global_exec_index, base_index. destruct (N.eqb_spec epoch 0) as [->|He].
  - destruct Hc as [|Hl]; [done|]. unfold u64_mul. rewrite N.mod_small by width_lia.
    destruct (N.ltb_spec (i * 10) last); lia.
  - apply u64_add_small. width_lia.
Qed.

(** In epoch 0 the indices are consecutive only while all or none of them continue from
    [last]. *)
Lemma global_exec_index_consecutive last n :
  n < u32_modulus → last + n < u64_modulus →
  (∀ i, 1 ≤ i → i < n → calculate_global_exec_index 0 (i + 1) last = calculate_global_exec_index 0 i last + 1) ↔
  n ≤ 1 ∨ last ≤ 10 ∨ 10 * n < last.
Proof.
  intros Hn Hb.
  assert (∀ i, i ≤ n → calculate_global_exec_index 0 i last = if i * 10 <? last then last + i else i) as Hg.
  { intros i Hi. unfold calculate_global_exec_index, u64_mul. rewrite N.mod_small by width_lia. cbn.
    destruct (N.ltb_spec (i * 10) last); [|done]. apply u64_add_small. width_lia. }
  split.
  - intros H. destruct (decide (n ≤ 1)); [by left|]. destruct (decide (last ≤ 10)); [by right; left|]. right; right.
    apply N.nle_gt. intros Hle. assert (∃ i, i * 10 < last ∧ last ≤ (i + 1) * 10 ∧ 1 ≤ i) as (i & H1 & H2 & H3).
    { exists ((last - 1) `div` 10). pose proof (N.Div0.div_mod (last - 1) 10) as Hd.
      pose proof (N.mod_lt (last - 1) 10 ltac:(lia)) as Hm. revert Hd Hm.
      generalize ((last - 1) `div` 10), ((last - 1) `mod` 10). lia. }
    specialize (H i H3 ltac:(lia)). rewrite !Hg in H by lia.
    destruct (N.ltb_spec ((i + 1) * 10) last), (N.ltb_spec (i * 10) last); lia.
  - intros Hor i Hi Hin. rewrite !Hg by lia. destruct (N.ltb_spec ((i + 1) * 10) last), (N.ltb_spec (i * 10) last); lia.
Qed.

(** ** The stream of the executor *)

(** [trace start l next]: [l] are the indices of what arrived at the executor, in order from
    [start] on, where a block whose write failed may come more than once. *)
Inductive trace (start : N) : list N → N → Prop :=
| trace_start : trace start [] start
| trace_sent l n : trace start l n → trace start (l ++ [n]) (n + 1)
| trace_again l n : trace start l n → trace start (l ++ [n]) n.

Definition buffer_below (bound : N) (cl : ExecutorClient) : Prop := ∀ i, is_Some (send_buffer cl !! i) → i < bound.

Record flush_effect (start : N) (cl cl' : ExecutorClient) : Prop := {
  fe_flags : enabled cl' = enabled cl ∧ can_commit cl' = can_commit cl;
  fe_buffer : send_buffer cl' ⊆ send_buffer cl;
  fe_received x : x ∈ received cl → x ∈ received cl';
  fe_kept i b : send_buffer cl !! i = Some b → send_buffer cl' !! i = Some b ∨ (i, b.1.1) ∈ received cl';
  fe_trace : trace start (received cl).*1 (next_expected_index cl) → trace start (received cl').*1 (next_expected_index cl');
}.

Lemma flush_effect_refl start cl : flush_effect start cl cl.
Proof. split; auto. Qed.

Lemma flush_loop_effect start fuel results cl :
  buffer_below u64_max cl → flush_effect start cl (flush_loop fuel results cl).
Proof.
  revert results cl. induction fuel as [|fuel IH]; intros results cl Hb; cbn; [apply flush_effect_refl|].
  destruct (send_buffer cl !! next_expected_index cl) as [[[bytes e] ci]|] eqn:Hn; [|apply flush_effect_refl].
  destruct results as [|[|[]] results]; try apply flush_effect_refl.
  - set (n := next_expected_index cl) in *.
    match goal with |- flush_effect _ _ (flush_loop _ _ ?c) => set (cl1 := c) end.
    assert (buffer_below u64_max cl1) as Hb1.
    { intros i [b Hi]. cbn in Hi. apply lookup_delete_Some in Hi as [_ Hi]. apply Hb. by exists b. }
    destruct (IH results cl1 Hb1) as [Hf Hbuf Hr Hk Ht]. split; [done| | | |].
    + etrans; [done|]. apply delete_subseteq.
    + intros x Hx. apply Hr. cbn. apply elem_of_app. by left.
    + intros i b Hi. destruct (decide (i = n)) as [->|Hne].
      * rewrite Hn in Hi. injection Hi as <-. right. apply Hr. cbn. apply elem_of_app. right. by apply list_elem_of_singleton.
      * apply Hk. cbn. by rewrite lookup_delete_ne.
    + intros Htr. apply Ht. cbn. rewrite fmap_app. specialize (Hb n (mk_is_Some _ _ Hn)).
      rewrite u64_add_small by width_lia. by apply trace_sent.
  - split; cbn; [done|done|intros x Hx; apply elem_of_app; by left|by left|].
    intros Htr. rewrite fmap_app. by apply trace_again.
Qed.

Lemma flush_buffer_effect start network cl : buffer_below u64_max cl → flush_effect start cl (flush_buffer network cl).
Proof. destruct network; [apply flush_loop_effect|intros; apply flush_effect_refl]. Qed.

(** More rounds than there are blocks in the buffer make no difference. *)
Lemma flush_loop_fuel fuel1 fuel2 results cl :
  (size (send_buffer cl) < fuel1)%nat → (size (send_buffer cl) < fuel2)%nat →
  flush_loop fuel1 results cl = flush_loop fuel2 results cl.
Proof.
  revert fuel2 results cl. induction fuel1 as [|fuel1 IH]; intros [|fuel2] results cl H1 H2; [lia..|]. cbn.
  destruct (send_buffer cl !! next_expected_index cl) as [[[bytes e] ci]|] eqn:Hn; [|done].
  destruct results as [|[|[]] results]; try done.
  apply IH; cbn; rewrite map_size_delete_Some by (by eexists); pose proof (map_size_ne_0_lookup_2 (send_buffer cl) _ (mk_is_Some _ _ Hn)); lia.
Qed.

(** *** Messages on the stream *)

(** Reading of a length prefix. *)
Fixpoint read_uvarint (l : Bytes) : option (N * Bytes) :=
  match l with
  | [] => None
  | b :: l => if b <? 128 then Some (b, l) else
      match read_uvarint l with Some (v, l) => Some (b - 128 + 128 * v, l) | None => None end
  end.
Definition read_frame (l : Bytes) : option (Bytes * Bytes) :=
  match read_uvarint l with Some (n, l) => Some (take (N.to_nat n) l, drop (N.to_nat n) l) | None => None end.

Lemma read_uvarint_loop fuel v rest : v < 128 ^ N.of_nat fuel → fuel ≠ 0%nat → read_uvarint (uvarint_loop fuel v ++ rest) = Some (v, rest).
Proof.
  revert v. induction fuel as [|fuel IH]; intros v Hv Hf; [done|]. cbn [uvarint_loop].
  change 127 with (N.ones 7). rewrite N.land_ones, N.shiftr_div_pow2. change (2 ^ 7) with 128.
  pose proof (N.Div0.div_mod v 128) as Hd. pose proof (N.mod_lt v 128 ltac:(lia)) as Hm.
  destruct (N.eqb_spec (v `div` 128) 0) as [H0|H0].
  - cbn. rewrite (proj2 (N.ltb_lt _ _) Hm). do 2 f_equal. lia.
  - assert (N.lor (v `mod` 128) 128 = v `mod` 128 + 128) as ->.
    { assert (N.land (v `mod` 2 ^ 7) (2 ^ 7) = 0) as Hland.
      { apply N.bits_inj. intros k. rewrite N.land_spec, N.bits_0, N.pow2_bits_eqb.
        destruct (N.eqb_spec 7 k) as [<-|]; [|apply andb_false_r]. by rewrite N.mod_pow2_bits_high by lia. }
      change 128 with (2 ^ 7). by rewrite N.add_nocarry_lxor, N.lxor_lor. }
    cbn [app read_uvarint]. rewrite (proj2 (N.ltb_ge (v `mod` 128 + 128) 128) (N.le_add_l _ _)).
    assert (fuel ≠ 0%nat) as Hf'. { intros ->. cbn in Hv. apply H0, N.div_small. lia. }
    rewrite IH; [|by rewrite Nat2N.inj_succ, N.pow_succ_r' in Hv; apply N.Div0.div_lt_upper_bound|done].
    do 2 f_equal. rewrite N.add_sub. lia.
Qed.

(** What is written on the stream can be cut into messages again. *)
Lemma read_frame_app bytes rest : N.of_nat (length bytes) < u64_modulus → read_frame (frame bytes ++ rest) = Some (bytes, rest).
Proof.
  intros Hl. unfold read_frame, frame, write_uvarint. rewrite <-app_assoc, read_uvarint_loop; [|width_lia|done].
  by rewrite Nat2N.id, take_app_length, drop_app_length.
Qed.

(** ** The processor as a sequence of commits *)

(** What handling a commit changes: the barrier that was seen, the executor, the queue. *)
Definition view (p : CommitProcessor) : N * option ExecutorClient * option (list Bytes) :=
  (barrier_snapshot p, executor_client p, pending_transactions_queue p).

Section order.
Context (pc : ProtoCodec) (env : Environment) (dag : N → CommittedSubDag) (epoch last : N) (bound : N).
Context (Hdag : ∀ i, cref_index (sd_commit_ref (dag i)) = i).
Context (Hbound : bound < u32_max).

(** Commit [i] when all those before it are handled. *)
Definition spec_step (i : N) (st : N * option ExecutorClient * option (list Bytes)) : N * option ExecutorClient * option (list Bytes) :=
  let '(snapshot, client, queue) := st in
  let snapshot := if 0 <? barrier_read env i then barrier_read env i else snapshot in
  if ((0 <? snapshot) && (snapshot <? i)) || ((0 <? barrier_reread env i) && (barrier_reread env i <? i))
  then (snapshot, client, (λ q, q ++ subdag_transactions (dag i)) <$> queue)
  else (snapshot, send_committed_subdag pc (network env i) (dag i) epoch (calculate_global_exec_index epoch i last) <$> client, queue).

(** The commits from 1 to [k], in order. *)
Fixpoint spec_run (k : nat) (st : N * option ExecutorClient * option (list Bytes)) : N * option ExecutorClient * option (list Bytes) :=
  match k with
  | O => st
  | S k => spec_step (N.of_nat (S k)) (spec_run k st)
  end.

(** After the commits from 1 to [k], when those in [arrived] have arrived. *)
Record handled (st : N * option ExecutorClient * option (list Bytes)) (arrived : list N) (k : nat) (p : CommitProcessor) : Prop := {
  hd_epoch : cp_epoch p = epoch;
  hd_last : last_global_exec_index p = last;
  hd_pending i sd : pending_commits p !! i = Some sd → sd = dag i ∧ i ∈ arrived;
  hd_next : cp_next_expected_index p = N.of_nat k + 1;
  hd_notified : cp_notified p = N.of_nat <$> seq 1 k;
  hd_view : view p = spec_run k st;
  hd_handled i : 1 ≤ i → i ≤ N.of_nat k → i ∈ arrived;
  hd_arrived i : i ∈ arrived → 1 ≤ i → i ≤ N.of_nat k ∨ is_Some (pending_commits p !! i);
}.

(** The steps common to a commit that is next and to one that arrived early. *)
Definition handle (i : N) (sd : CommittedSubDag) (p : CommitProcessor) : CommitProcessor :=
  let '(p, is_past_barrier) := check_barrier env i p in
  if is_past_barrier then requeue sd p
  else process_commit pc env sd (calculate_global_exec_index (cp_epoch p) i (last_global_exec_index p)) p.

Lemma handle_view i p : cp_epoch p = epoch → last_global_exec_index p = last → view (handle i (dag i) p) = spec_step i (view p).
Proof using Hdag.
  intros He Hl. unfold handle, check_barrier, process_commit, spec_step, view. rewrite Hdag.
  destruct (0 <? barrier_read env i) eqn:Hr; cbn [with_snapshot barrier_snapshot]; rewrite ?Hr.
  - destruct (barrier_read env i <? i), (0 <? barrier_reread env i), (barrier_reread env i <? i); cbn; by rewrite ?He, ?Hl.
  - destruct (0 <? barrier_snapshot p), (barrier_snapshot p <? i), (0 <? barrier_reread env i), (barrier_reread env i <? i); cbn;
      by rewrite ?He, ?Hl.
Qed.

Lemma handle_frame i sd p :
  let p' := handle i sd p in
  cp_epoch p' = cp_epoch p ∧ last_global_exec_index p' = last_global_exec_index p ∧ pending_commits p' = pending_commits p ∧
  cp_next_expected_index p' = cp_next_expected_index p ∧ cp_notified p' = cp_notified p.
Proof using.
  clear. cbn. unfold handle, check_barrier, process_commit. destruct (0 <? barrier_read env i); repeat case_match; done.
Qed.

(** The next commit is handled; it may be the one that arrives and it may have waited. *)
Lemma handled_step st arrived arrived' k p p' :
  handled st arrived k p → N.of_nat (S k) ∈ arrived' → N.of_nat (S k) ≤ bound →
  (∀ i, i ∈ arrived → i ∈ arrived') → (∀ i, i ∈ arrived' → i ∈ arrived ∨ i = N.of_nat (S k)) →
  view p' = spec_step (N.of_nat (S k)) (view p) → cp_notified p' = cp_notified p →
  cp_next_expected_index p' = cp_next_expected_index p → cp_epoch p' = cp_epoch p →
  last_global_exec_index p' = last_global_exec_index p →
  pending_commits p' = pending_commits p ∨ pending_commits p' = delete (N.of_nat (S k)) (pending_commits p) →
  handled st arrived' (S k) (commit_done (N.of_nat (S k)) p').
Proof using Hbound.
  intros [He Hl Hp Hn Hno Hv Hh Ha] Hin Hk Hsub Hsup Hview Hno' Hn' He' Hl' Hp'.
  assert (∀ i, i ≠ N.of_nat (S k) → pending_commits p' !! i = pending_commits p !! i) as Hother.
  { intros i Hi. destruct Hp' as [->| ->]; [done|]. by rewrite lookup_delete_ne. }
  assert (pending_commits p' ⊆ pending_commits p) as Hle by (destruct Hp' as [->| ->]; [done|apply delete_subseteq]).
  split; cbn [cp_epoch last_global_exec_index pending_commits cp_next_expected_index cp_notified commit_done].
  - congruence.
  - congruence.
  - intros i sd Hi. destruct (Hp i sd); [by eapply lookup_weaken|auto].
  - rewrite Hn', Hn. unfold u32_add. rewrite N.mod_small by width_lia. lia.
  - by rewrite Hno', Hno, seq_S, fmap_app.
  - transitivity (view p'); [done|]. by rewrite Hview, Hv.
  - intros i H1 H2. destruct (decide (i = N.of_nat (S k))) as [->|]; [done|]. apply Hsub, Hh; lia.
  - intros i Hi H1. destruct (decide (i = N.of_nat (S k))) as [->|Hne]; [left; lia|]. rewrite Hother by done.
    destruct (Hsup i Hi) as [Hi'|]; [|done]. destruct (Ha i Hi' H1); [left; lia|by right].
Qed.

Lemma drain_handled st arrived fuel k p :
  Forall (λ i, i ≤ bound) arrived → handled st arrived k p →
  ∃ k', handled st arrived k' (drain_pending pc env fuel p) ∧ (k ≤ k')%nat.
Proof using Hdag Hbound.
  intros Hall. revert k p. induction fuel as [|fuel IH]; intros k p Hp; cbn [drain_pending]; [by exists k|].
  destruct (pending_commits p !! cp_next_expected_index p) as [sd|] eqn:Hi; [|by exists k].
  rewrite (hd_next _ _ _ _ Hp) in Hi |- *. replace (N.of_nat k + 1) with (N.of_nat (S k)) in * by lia.
  destruct (hd_pending _ _ _ _ Hp _ _ Hi) as [-> Hin].
  set (p1 := with_pending (delete (N.of_nat (S k)) (pending_commits p)) p) in *.
  pose proof (handle_frame (N.of_nat (S k)) (dag (N.of_nat (S k))) p1) as (He & Hl & Hpe & Hn & Hno).
  pose proof (handle_view (N.of_nat (S k)) p1 (hd_epoch _ _ _ _ Hp) (hd_last _ _ _ _ Hp)) as Hv.
  unfold handle in *. destruct (check_barrier env (N.of_nat (S k)) p1) as [p2 past] eqn:Hc.
  match goal with |- context [drain_pending _ _ fuel (commit_done _ ?q)] => set (p3 := q) in * end.
  destruct (IH (S k) (commit_done (N.of_nat (S k)) p3)) as (k' & Hk' & Hle); [|exists k'; split; [done|lia]].
  apply (handled_step st arrived arrived k p); auto. by eapply Forall_forall in Hall.
Qed.

Lemma count_blocks_frame i sd p p' r :
  count_blocks env i sd p = (p', r) →
  view p' = view p ∧ cp_notified p' = cp_notified p ∧ cp_next_expected_index p' = cp_next_expected_index p ∧ cp_epoch p' = cp_epoch p ∧
  last_global_exec_index p' = last_global_exec_index p ∧ pending_commits p' = pending_commits p.
Proof using.
  clear. unfold count_blocks. destruct (checkpoint_manager p); cbn [checkpoint_manager].
  - destruct (process_commit_and_check_epoch_transition _ _ _ _ _) as [cm b]. repeat case_match; by intros [= <- _].
  - repeat case_match; by intros [= <- _].
Qed.

Lemma handled_arrived st arrived k p i :
  handled st arrived k p → i ≤ N.of_nat k → handled st (i :: arrived) k p.
Proof using.
  clear. intros [He Hl Hp Hn Hno Hv Hh Ha] Hi. split; try done.
  - intros j sd Hj. destruct (Hp j sd Hj). split; [done|by right].
  - intros j H1 H2. right. by apply Hh.
  - intros j [->|Hj]%elem_of_cons H1; [by left|by apply Ha].
Qed.

Lemma receive_handled st arrived k p i p' :
  Forall (λ i, i ≤ bound) (i :: arrived) → handled st arrived k p → receive pc env (dag i) p = (p', None) →
  ∃ k', handled st (i :: arrived) k' p' ∧ (k ≤ k')%nat.
Proof using Hdag Hbound.
  intros Hall Hp H. unfold receive in H. rewrite Hdag, (hd_next _ _ _ _ Hp) in H.
  destruct (N.eqb_spec i (N.of_nat k + 1)) as [->|Hne].
  - replace (N.of_nat k + 1) with (N.of_nat (S k)) in * by lia.
    apply Forall_cons in Hall as Hall'. destruct Hall' as [Hk _].
    pose proof (handled_step st arrived (N.of_nat (S k) :: arrived) k p) as Hstep.
    pose proof (handle_frame (N.of_nat (S k)) (dag (N.of_nat (S k))) p) as (He & Hl & Hpe & Hn & Hno).
    pose proof (handle_view (N.of_nat (S k)) p (hd_epoch _ _ _ _ Hp) (hd_last _ _ _ _ Hp)) as Hv.
    unfold handle in *. destruct (check_barrier env (N.of_nat (S k)) p) as [p2 past] eqn:Hc.
    assert (∀ p1, view p1 = spec_step (N.of_nat (S k)) (view p) → cp_notified p1 = cp_notified p →
      cp_next_expected_index p1 = cp_next_expected_index p → cp_epoch p1 = cp_epoch p → last_global_exec_index p1 = last_global_exec_index p →
      pending_commits p1 = pending_commits p → handled st (N.of_nat (S k) :: arrived) (S k) (commit_done (N.of_nat (S k)) p1)) as Hdone.
    { intros p1 H1 H2 H3 H4 H5 H6. apply Hstep; [done|by left|done|by right|intros i [->|]%elem_of_cons; auto|done..|by left]. }
    clear Hstep. destruct past.
    + injection H as <-. exists (S k). split; [|lia]. by apply Hdone.
    + match type of H with context [count_blocks _ _ _ ?q] => set (p3 := q) in * end.
      destruct (count_blocks env (N.of_nat (S k)) (dag (N.of_nat (S k))) p3) as [p4 r] eqn:Hcount.
      apply count_blocks_frame in Hcount as (Hv4 & Hno4 & Hn4 & He4 & Hl4 & Hp4).
      destruct r; [done|]. injection H as <-.
      destruct (drain_handled st (N.of_nat (S k) :: arrived) (S (size (pending_commits (commit_done (N.of_nat (S k)) p4)))) (S k)
        (commit_done (N.of_nat (S k)) p4)) as (k' & Hk' & Hle); [done|apply Hdone; congruence|]. exists k'. split; [done|lia].
  - destruct (N.ltb_spec (N.of_nat k + 1) i) as [Hlt|Hge]; injection H as <-; exists k; (split; [|lia]).
    + destruct Hp as [He Hl Hp Hn Hno Hv Hh Ha]. split; try done; cbn.
      * intros j sd [[<- <-]|[_ Hj]]%lookup_insert_Some; [split; [done|by left]|]. destruct (Hp j sd Hj). split; [done|by right].
      * intros j H1 H2. right. by apply Hh.
      * intros j [->|Hj]%elem_of_cons H1; [right; rewrite lookup_insert_eq; by eexists|].
        destruct (Ha j Hj H1) as [|[sd Hsd]]; [by left|]. right.
        destruct (decide (i = j)) as [->|]; [rewrite lookup_insert_eq|rewrite lookup_insert_ne by done]; by eexists.
    + apply handled_arrived; [done|lia].
Qed.

Lemma run_handled st arrived k p js p' :
  Forall (λ i, i ≤ bound) (rev js ++ arrived) → handled st arrived k p → run pc env (dag <$> js) p = (p', None) →
  ∃ k', handled st (rev js ++ arrived) k' p'.
Proof using Hdag Hbound.
  revert arrived k p. induction js as [|i js IH]; intros arrived k p Hall Hp H; cbn in *; [injection H as <-; by exists k|].
  destruct (receive pc env (dag i) p) as [p1 [e|]] eqn:Hr; [done|].
  rewrite <-app_assoc in Hall |- *. cbn in Hall |- *.
  assert (Forall (λ i, i ≤ bound) (i :: arrived)) as Hi by by apply Forall_app in Hall as [_ ?].
  destruct (receive_handled st arrived k p i p1 Hi Hp Hr) as (k1 & Hp1 & _). by eapply IH.
Qed.

Lemma new_handled client queue threshold cm :
  handled (0, client, queue) [] 0 (commit_processor_new epoch last client queue threshold cm).
Proof using. clear. split; try done; cbn; [lia|]. by intros i ?%not_elem_of_nil. Qed.


(** ** Nothing is lost *)

Definition message (i : N) : N * Bytes := (base_index epoch last + i, convert_to_protobuf pc (dag i) epoch (base_index epoch last + i)).

(** The transactions of a commit are queued, or it has arrived at the executor, or it waits in
    the buffer. *)
Definition commit_kept (i : N) (cl : ExecutorClient) (q : list Bytes) : Prop :=
  (∀ tx, tx ∈ subdag_transactions (dag i) → tx ∈ q) ∨ message i ∈ received cl ∨
  ∃ b, send_buffer cl !! (message i).1 = Some b ∧ b.1.1 = (message i).2.

Record kept_up_to (start : N) (k : nat) (cl : ExecutorClient) (q : list Bytes) : Prop := {
  ku_flags : enabled cl = true ∧ can_commit cl = true;
  ku_buffer i : is_Some (send_buffer cl !! i) → i ≤ base_index epoch last + N.of_nat k;
  ku_trace : trace start (received cl).*1 (next_expected_index cl);
  ku_kept i : 1 ≤ i → i ≤ N.of_nat k → commit_kept i cl q;
}.

Lemma send_kept start k cl q net :
  kept_up_to start k cl q → base_index epoch last + N.of_nat (S k) < u64_max →
  kept_up_to start (S k) (send_committed_subdag pc net (dag (N.of_nat (S k))) epoch (base_index epoch last + N.of_nat (S k)) cl) q.
Proof using Hdag.
  clear Hbound. intros [[Hen Hcc] Hb Ht Hk] Hlt. unfold send_committed_subdag. rewrite Hen, Hcc. cbn [negb].
  match goal with |- kept_up_to _ _ (flush_buffer _ ?c) _ => set (cl1 := c) end.
  assert (∀ i, is_Some (send_buffer cl1 !! i) → i ≤ base_index epoch last + N.of_nat (S k)) as Hb1.
  { cbn. intros i [b [[<- _]|[_ Hi]]%lookup_insert_Some]; [done|]. specialize (Hb i (mk_is_Some _ _ Hi)). lia. }
  destruct (flush_buffer_effect start net cl1) as [[F1 F2] Hbuf Hr Hkeep Htr].
  { intros i Hi%Hb1. lia. }
  split.
  - by rewrite F1, F2.
  - intros i [b Hi]. apply Hb1. exists b. by eapply lookup_weaken.
  - by apply Htr.
  - intros i H1 H2. destruct (decide (i = N.of_nat (S k))) as [->|Hne].
    + destruct (Hkeep (base_index epoch last + N.of_nat (S k)) _ (lookup_insert_eq _ _ _)) as [Hi|Hi]; right; [right|left; exact Hi].
      eexists. split; [exact Hi|done].
    + destruct (Hk i H1 ltac:(lia)) as [Hq|[Hin|(b & Hi & Heq)]]; [by left|right; left; by apply Hr|].
      assert (send_buffer cl1 !! (message i).1 = Some b) as Hi1 by (cbn; rewrite lookup_insert_ne; [done|lia]).
      destruct (Hkeep _ _ Hi1) as [Hi2|Hi2]; right; [right; by exists b|left].
      rewrite Heq in Hi2. by destruct (message i).
Qed.

Lemma requeue_kept start k cl q :
  kept_up_to start k cl q → kept_up_to start (S k) cl (q ++ subdag_transactions (dag (N.of_nat (S k)))).
Proof using.
  clear. intros [Hf Hb Ht Hk]. split; [done|intros i Hi%Hb; lia|done|].
  intros i H1 H2. destruct (decide (i = N.of_nat (S k))) as [->|Hne].
  - left. intros tx Htx. apply elem_of_app. by right.
  - destruct (Hk i H1 ltac:(lia)) as [Hq|Hin]; [left|by right]. intros tx Htx. apply elem_of_app. left. by apply Hq.
Qed.

Lemma spec_run_kept start snapshot q k :
  consecutive epoch last → last + bound < u64_max → N.of_nat k ≤ bound →
  ∃ sn cl q', spec_run k (snapshot, Some (mkExecutorClient true true ∅ start []), Some q) = (sn, Some cl, Some q') ∧ kept_up_to start k cl q'.
Proof using Hdag Hbound.
  intros Hc Hl. induction k as [|k IH]; intros Hk.
  - eexists _, _, _. split; [done|]. split; cbn; [done|by intros i [? ?]|constructor|lia].
  - destruct IH as (sn & cl & q' & IH & Hkept); [lia|]. cbn [spec_run]. rewrite IH. unfold spec_step.
    destruct (_ || _); eexists _, _, _; (split; [done|]); [by apply requeue_kept|].
    rewrite (global_exec_index_base epoch last) by (done || width_lia).
    apply send_kept; [done|]. unfold base_index. case_match; lia.
Qed.


(** ** Everything arrives *)

(** No epoch change is under way, writes succeed. *)
Record healthy : Prop := {
  he_barrier i : barrier_read env i = 0 ∧ barrier_reread env i = 0;
  he_network i : ∃ results, network env i = Some (Sent :: results);
  he_transition i : block_transition_error env i = None;
}.

Definition unstuck (p : CommitProcessor) : Prop := pending_commits p !! cp_next_expected_index p = None.

(** There are enough rounds to handle all early commits. *)
Lemma drain_unstuck fuel p : (size (pending_commits p) < fuel)%nat → unstuck (drain_pending pc env fuel p).
Proof using.
  clear. revert p. induction fuel as [|fuel IH]; intros p Hf; [lia|]. cbn [drain_pending].
  destruct (pending_commits p !! cp_next_expected_index p) as [sd|] eqn:Hi; [|done].
  set (i := cp_next_expected_index p) in *.
  pose proof (handle_frame i sd (with_pending (delete i (pending_commits p)) p)) as (_ & _ & Hpe & _ & _).
  unfold handle in Hpe. destruct (check_barrier env i _) as [p2 past].
  match goal with |- context [drain_pending _ _ fuel (commit_done _ ?q)] => set (p3 := q) in * end.
  apply IH. cbn. rewrite Hpe. cbn. rewrite map_size_delete_Some by (by eexists).
  pose proof (map_size_ne_0_lookup_2 (pending_commits p) i (mk_is_Some _ _ Hi)). lia.
Qed.

Lemma count_blocks_no_error i sd p : healthy → ∃ p', count_blocks env i sd p = (p', None).
Proof using. clear. intros Hh. unfold count_blocks. destruct (checkpoint_manager p); repeat case_match; rewrite ?(he_transition Hh); by eexists. Qed.

Lemma receive_unstuck i p :
  healthy → barrier_snapshot p = 0 → unstuck p → ∃ p', receive pc env (dag i) p = (p', None) ∧ unstuck p'.
Proof using Hdag.
  clear Hbound. intros Hh Hs Hu. unfold receive. rewrite Hdag. destruct (N.eqb_spec i (cp_next_expected_index p)) as [_|Hne].
  - unfold check_barrier. rewrite (proj1 (he_barrier Hh i)). change (0 <? 0) with false. cbv iota zeta. rewrite Hs. change (0 <? 0) with false. cbn [andb].
    match goal with |- context [count_blocks _ _ _ ?q] => destruct (count_blocks_no_error i (dag i) q Hh) as [p' ->] end.
    eexists. split; [done|]. apply drain_unstuck. lia.
  - destruct (N.ltb_spec (cp_next_expected_index p) i) as [Hlt|Hge]; eexists; (split; [done|]); [|done].
    unfold unstuck. cbn. rewrite lookup_insert_ne by lia. done.
Qed.

Lemma spec_run_snapshot k client queue : healthy → ∃ client' queue', spec_run k (0, client, queue) = (0, client', queue').
Proof using.
  clear. intros Hh. induction k as [|k IH]; [by eexists _, _|]. destruct IH as (cl & q & IH). cbn [spec_run]. rewrite IH. unfold spec_step.
  rewrite (proj1 (he_barrier Hh _)). cbn [N.ltb N.compare]. case_match; by eexists _, _.
Qed.

Lemma run_unstuck client queue arrived k p js :
  healthy → Forall (λ i, i ≤ bound) (rev js ++ arrived) → handled (0, client, queue) arrived k p → unstuck p →
  ∃ p', run pc env (dag <$> js) p = (p', None) ∧ unstuck p'.
Proof using Hdag Hbound.
  intros Hh. revert arrived k p. induction js as [|i js IH]; intros arrived k p Hall Hp Hu; cbn; [by eexists|].
  assert (barrier_snapshot p = 0) as Hs.
  { destruct (spec_run_snapshot k client queue Hh) as (cl & q & Hrun). pose proof (hd_view _ _ _ _ Hp) as Hv.
    rewrite Hrun in Hv. by injection Hv. }
  destruct (receive_unstuck i p Hh Hs Hu) as (p1 & Hr & Hu1). rewrite Hr.
  cbn in Hall. rewrite <-app_assoc in Hall. cbn in Hall.
  assert (Forall (λ i, i ≤ bound) (i :: arrived)) as Hi by by apply Forall_app in Hall as [_ ?].
  destruct (receive_handled _ arrived k p i p1 Hi Hp Hr) as (k1 & Hp1 & _). by eapply IH.
Qed.

Lemma send_healthy g r i :
  healthy → g < u64_max →
  send_committed_subdag pc (network env i) (dag i) epoch g (mkExecutorClient true true ∅ g r) =
    mkExecutorClient true true ∅ (g + 1) (r ++ [(g, convert_to_protobuf pc (dag i) epoch g)]).
Proof using.
  clear. intros Hh Hg. unfold send_committed_subdag. cbn [negb enabled can_commit send_buffer next_expected_index received].
  destruct (he_network Hh i) as [results ->]. unfold flush_buffer. cbn [send_buffer]. rewrite insert_empty, map_size_singleton.
  cbn [flush_loop send_buffer next_expected_index enabled can_commit received]. rewrite lookup_singleton_eq.
  rewrite delete_singleton_eq, lookup_empty, u64_add_small by width_lia. done.
Qed.

Lemma spec_run_healthy k queue :
  healthy → consecutive epoch last → last + bound < u64_max → N.of_nat k ≤ bound →
  spec_run k (0, Some (mkExecutorClient true true ∅ (base_index epoch last + 1) []), queue) =
    (0, Some (mkExecutorClient true true ∅ (base_index epoch last + N.of_nat k + 1) (message ∘ N.of_nat <$> seq 1 k)), queue).
Proof using Hbound.
  intros Hh Hc Hl. induction k as [|k IH]; intros Hk.
  - cbn. by rewrite N.add_0_r.
  - cbn [spec_run]. rewrite IH by lia. unfold spec_step.
    destruct (he_barrier Hh (N.of_nat (S k))) as [-> ->]. cbn [N.ltb N.compare andb orb].
    rewrite (global_exec_index_base epoch last) by (done || width_lia).
    replace (base_index epoch last + N.of_nat k + 1) with (base_index epoch last + N.of_nat (S k)) by lia.
    assert (base_index epoch last ≤ last) by (unfold base_index; case_match; lia).
    cbn [fmap option_fmap option_map]. rewrite send_healthy by (done || lia). rewrite seq_S, fmap_app. done.
Qed.

(** C15 (liveness): when no epoch change is under way and writes to the executor succeed, the
    executor receives every commit: if the commits from 1 to [n] arrive, in any order and any
    number of times, the processor does not stop, and the executor has received exactly the
    messages of the commits 1 to [n], in this order, with consecutive execution indices that
    continue those of the epoch before. *)
Theorem executor_receives_all_commits js n queue threshold cm :
  healthy → consecutive epoch last → last + bound < u64_max → bound = N.of_nat n → Forall (λ i, i ≤ bound) js →
  (∀ i, 1 ≤ i → i ≤ bound → i ∈ js) →
  ∃ p cl, run pc env (dag <$> js)
      (commit_processor_new epoch last (Some (mkExecutorClient true true ∅ (base_index epoch last + 1) [])) queue threshold cm) = (p, None) ∧
    executor_client p = Some cl ∧ received cl = message ∘ N.of_nat <$> seq 1 n ∧ send_buffer cl = ∅ ∧
    cp_notified p = N.of_nat <$> seq 1 n ∧ pending_transactions_queue p = queue.
Proof using Hdag Hbound.
  intros Hh Hc Hl Hn Hall Hcover. set (cl0 := mkExecutorClient true true ∅ (base_index epoch last + 1) []).
  set (p0 := commit_processor_new epoch last (Some cl0) queue threshold cm).
  assert (Forall (λ i, i ≤ bound) (rev js ++ [])) as Hall' by (rewrite app_nil_r; apply Forall_rev, Hall).
  pose proof (new_handled (Some cl0) queue threshold cm) as Hp0.
  destruct (run_unstuck (Some cl0) queue [] 0 p0 js Hh Hall' Hp0) as (p & Hrun & Hu); [done|].
  destruct (run_handled (0, Some cl0, queue) [] 0 p0 js p Hall' Hp0 Hrun) as [k Hp]. rewrite app_nil_r in Hp, Hall'.
  assert (k = n) as ->.
  { destruct (decide (k < n)%nat) as [Hlt|Hge].
    - assert (N.of_nat k + 1 ∈ rev js) as Hin by (apply list_elem_of_In, (proj1 (in_rev _ _)), list_elem_of_In, Hcover; lia).
      destruct (hd_arrived _ _ _ _ Hp _ Hin) as [|[sd Hsd]]; [lia..|].
      unfold unstuck in Hu. rewrite (hd_next _ _ _ _ Hp) in Hu. congruence.
    - destruct (decide (k = 0%nat)); [lia|]. pose proof (hd_handled _ _ _ _ Hp (N.of_nat k) ltac:(lia) ltac:(lia)) as Hin.
      eapply Forall_forall in Hall'; [|exact Hin]. lia. }
  pose proof (hd_view _ _ _ _ Hp) as Hv. unfold cl0 in Hv. rewrite (spec_run_healthy n queue Hh Hc Hl) in Hv by lia.
  injection Hv as _ Hcl Hq. exists p. eexists. split_and!; [done|exact Hcl|done|done|apply Hp|done].
Qed.
End order.

(** ** Deviations *)

(** A processor that waits for a commit that has already arrived handles nothing more until
    that commit arrives again. *)
Lemma stuck_run pc env sds p :
  ¬ unstuck p → Forall (λ sd, cref_index (sd_commit_ref sd) ≠ cp_next_expected_index p) sds →
  ∃ p', run pc env sds p = (p', None) ∧ view p' = view p ∧ cp_notified p' = cp_notified p.
Proof.
  revert p. induction sds as [|sd sds IH]; intros p Hu Hall; cbn; [by eexists|].
  apply Forall_cons in Hall as [Hi Hall]. unfold receive.
  rewrite (proj2 (N.eqb_neq _ _) Hi). destruct (N.ltb_spec (cp_next_expected_index p) (cref_index (sd_commit_ref sd))) as [Hlt|_].
  - destruct (IH (with_pending (<[cref_index (sd_commit_ref sd) := sd]> (pending_commits p)) p)) as (p' & Hrun & Hv & Hn).
    + unfold unstuck in *. cbn. by rewrite lookup_insert_ne.
    + done.
    + rewrite Hrun. by exists p'.
  - by apply IH.
Qed.

(** When the commit that is next is past the barrier, the early ones behind it are left: their
    transactions reach neither the executor nor the queue. *)
Lemma skipped_commit_strands_next pc env sd sds p :
  let i := cref_index (sd_commit_ref sd) in
  cp_next_expected_index p = i → i < u32_max → 0 < barrier_read env i → barrier_read env i < i →
  is_Some (pending_commits p !! (i + 1)) → Forall (λ sd', cref_index (sd_commit_ref sd') ≠ i + 1) sds →
  ∃ p', run pc env (sd :: sds) p = (p', None) ∧ cp_notified p' = cp_notified p ++ [i] ∧
    pending_transactions_queue p' = (λ q, q ++ subdag_transactions sd) <$> pending_transactions_queue p ∧
    executor_client p' = executor_client p.
Proof.
  intros i Hn Hu Hb0 Hbi [sd' Hp] Hall. cbn. unfold receive. fold i. rewrite Hn, N.eqb_refl. unfold check_barrier.
  rewrite (proj2 (N.ltb_lt 0 _) Hb0), (proj2 (N.ltb_lt _ i) Hbi), (proj2 (N.ltb_lt 0 _) Hb0). cbn [andb].
  match goal with |- context [run _ _ sds ?q] => set (p1 := q) end.
  assert (cp_next_expected_index p1 = i + 1) as Hn1.
  { cbn. rewrite Hn. unfold u32_add. apply N.mod_small. width_lia. }
  destruct (stuck_run pc env sds p1) as (p' & Hrun & Hv & Hno).
  - unfold unstuck. rewrite Hn1. cbn. by rewrite Hp.
  - by rewrite Hn1.
  - exists p'. unfold view in Hv. injection Hv as _ Hcl Hq. split_and!; [done..| |].
    + by rewrite Hq.
    + by rewrite Hcl.
Qed.

(** Steps of the checkpoints of one validator. *)
Inductive checkpoint_step : CheckpointManager → CheckpointManager → Prop :=
| checkpoint_commit now sd i blocks cm : checkpoint_step cm (process_commit_and_check_epoch_transition now sd i cm blocks).1.

Definition last_epoch (own : AuthorityIndex) : N := match own with 0%nat => 1 | 1%nat => 2 | _ => 0 end.

Lemma leader_epoch own e :
  e ≤ last_epoch own → N.of_nat own = e `mod` 4 ∨ N.of_nat own = u64_add e 1 `mod` 4 → u64_add e 1 ≤ last_epoch own.
Proof.
  intros He Hl. assert (e = 0 ∨ e = 1 ∨ e = 2) as Hcase by (unfold last_epoch in He; repeat case_match; lia).
  destruct Hcase as [->|[->| ->]].
  - change (0 `mod` 4) with 0 in Hl. change (u64_add 0 1 `mod` 4) with 1 in Hl. destruct own as [|[|own]]; [done..|exfalso; lia].
  - change (1 `mod` 4) with 1 in Hl. change (u64_add 1 1 `mod` 4) with 2 in Hl. destruct own as [|[|own]]; [exfalso; lia|done|exfalso; cbn in He; lia].
  - change (2 `mod` 4) with 2 in Hl. change (u64_add 2 1 `mod` 4) with 3 in Hl. destruct own as [|[|own]]; [exfalso; lia..|exfalso; cbn in He; lia].
Qed.

Lemma checkpoint_step_epoch cm cm' :
  checkpoint_step cm cm' → cm_current_epoch cm ≤ last_epoch (cm_own_index cm) →
  cm_own_index cm' = cm_own_index cm ∧ cm_current_epoch cm' ≤ last_epoch (cm_own_index cm).
Proof.
  destruct 1 as [now sd i blocks cm]. intros He. unfold process_commit_and_check_epoch_transition, create_checkpoint.
  cbn [end_of_epoch_data]. destruct (should_create_end_of_epoch_checkpoint _ _ _) as [data|]; [|done].
  cbn [cm_current_epoch cm_own_index].
  destruct (N.eqb_spec (N.of_nat (cm_own_index cm)) (cm_current_epoch cm `mod` 4)); [split; [done|]; apply leader_epoch; auto|].
  destruct (N.eqb_spec (N.of_nat (cm_own_index cm)) (u64_add (cm_current_epoch cm) 1 `mod` 4)); [split; [done|]; apply leader_epoch; auto|].
  done.
Qed.

(** Only the two leaders of an epoch leave it, so the leaders of the next epochs are never
    there: validator 0 stops in epoch 1, validator 1 in epoch 2, the others in epoch 0. *)
Lemma checkpoint_epochs_stall n own cm :
  rtc checkpoint_step (checkpoint_manager_new n own) cm → cm_current_epoch cm ≤ last_epoch own.
Proof.
  intros Hsteps.
  assert (∀ cm cm', rtc checkpoint_step cm cm' → cm_own_index cm = own → cm_current_epoch cm ≤ last_epoch own →
    cm_current_epoch cm' ≤ last_epoch own) as Hinv.
  { clear. induction 1 as [|cm1 cm2 cm3 Hs _ IH]; [done|]. intros <- He.
    destruct (checkpoint_step_epoch cm1 cm2 Hs He) as [Ho He2]. by apply IH. }
  apply (Hinv _ _ Hsteps); cbn; [done|lia].
Qed.

(** ** A run *)

(** Transactions are their own protocol buffers and hashes. *)
Definition proto4 : ProtoCodec :=
  mkProtoCodec Bytes (λ _, None) Some Some id (λ d, [ed_global_exec_index d; ed_commit_index d]) id.

(** Each commit has one block with one transaction. *)
Definition commit4 (i : N) : CommittedSubDag :=
  committed_sub_dag_new (mkBlockRef 1 2 i) [mkVerifiedBlock (proposal 2) i []] 0 (mkCommitRef i i).

(** The barrier is set to 2 before commit 3 is handled, and the first write of commit 2 fails. *)
Definition barrier_env4 : Environment :=
  mkEnvironment (λ i, if 3 <=? i then 2 else 0) (λ _, 0) (λ i, Some (if i =? 2 then [SendFailed true] else [Sent; Sent])) (λ _, 0) (λ _, None).
Definition processor4 : CommitProcessor :=
  commit_processor_new 1 100 (Some (mkExecutorClient true true ∅ 101 [])) (Some []) (Some 100) (Some (checkpoint_manager_new 2 0)).
Definition processed4 : CommitProcessor := (run proto4 barrier_env4 (commit4 <$> [2; 1; 1; 3; 5]) processor4).1.



Definition healthy_env4 : Environment := mkEnvironment (λ _, 0) (λ _, 0) (λ _, Some [Sent]) (λ _, 0) (λ _, None).

Lemma executor_receives_all_commits_witness :
  ∃ p cl, run proto4 healthy_env4 (commit4 <$> [3; 2; 3; 1]) (commit_processor_new 1 100 (Some (mkExecutorClient true true ∅ 101 [])) None None None) = (p, None) ∧
    executor_client p = Some cl ∧ received cl = message proto4 commit4 1 100 ∘ N.of_nat <$> seq 1 3 ∧ send_buffer cl = ∅ ∧
    cp_notified p = N.of_nat <$> seq 1 3 ∧ pending_transactions_queue p = None.
Proof.
  apply (executor_receives_all_commits proto4 healthy_env4 commit4 1 100 3 (λ i, eq_refl) eq_refl [3; 2; 3; 1] 3 None None None).
  - split; [done|by eexists|done].
  - left. discriminate.
  - reflexivity.
  - reflexivity.
  - repeat (constructor; [vm_compute; discriminate|]). constructor.
  - intros i H1 H3. assert (i = 1 ∨ i = 2 ∨ i = 3) as [->|[->| ->]] by lia; set_solver.
Defined.

Example received4 :
  (λ cl, received cl) <$> executor_client (run proto4 healthy_env4 (commit4 <$> [3; 2; 3; 1])
    (commit_processor_new 1 100 (Some (mkExecutorClient true true ∅ 101 [])) None None None)).1 =
  Some [(101, [101; 1]); (102, [102; 2]); (103, [103; 3])].
Proof. vm_compute. reflexivity. Qed.
